(* ===== verification/_CoqProject ===== *)
-Q . S2P
Prelude.v
Errors.v
RustStd.v
HotFrame.v
Config.v
Schema.v
Allowlist.v
TokenBucket.v
Policy.v
Dash.v
Threads.v
SessionRegistry.v
Presence.v
Race.v
RegRace.v
Locks.v
RegCap.v
Keys.v
Isolation.v
Channel.v
Envelope.v
Realtime.v
Codec.v
Dispatch.v
Float64.v
Handshake.v
Metrics.v
NetAddr.v
AppState.v
Ws.v
Session.v
Admission.v
System.v
Safety.v
Effects.v
Limits.v
Tenancy.v
Exposition.v
Outbound.v
Typed.v
Main.v
Process.v
