(* ===== verification/Prelude.v ===== *)
(** * wsPrism gateway: a verification library

    wsPrism is a multi-tenant WebSocket gateway.  Clients connect through an
    HTTP upgrade that a handshake defender guards; a connection becomes a
    session of a tenant's user; its text frames (the Ext Lane, JSON envelopes)
    and binary frames (the Hot Lane) are decoded once, pass the tenant's
    policy (frame size, rate, allowlist), and reach services through a
    dispatcher; services answer through the realtime core, which knows the
    sessions, the rooms they are in, and the outbound channel of each.  This
    library translates these parts from the Rust sources under src/crates/
    into executable definitions, and proves what makes them correct, or where
    they stop being correct.

    ** Files

    In the order of their dependencies; the paths are relative to
    src/crates/wsprism-gateway/src unless another crate is named.

    - [Prelude]: results, panics, machine integers, tactics, shared lemmas.
    - [Errors] (wsprism-core/src/error.rs): error type, client codes.
    - [RustStd]: what the code uses of Rust's strings ([split_once],
      [parse::<u8>], [trim], [from_utf8], hexadecimal formatting).
    - [HotFrame] (wsprism-core/src/protocol/hot.rs): the frame decoder, over
      the [Buf] interface; the wire format as an independent parser and
      encoder (Module [HotSpec]).
    - [Config] (config/schema.rs, config/mod.rs): the configuration records,
      their defaults, the serde defaults, validation.
    - [Schema] (the [Deserialize] derives of config/schema.rs): the
      deserializer of each section over the nodes of a YAML document, and what
      a document means ([means_config]).
    - [Allowlist] (policy/allowlist.rs): compilation and matching of rules.
    - [TokenBucket], [Policy] (policy/engine.rs): the rate limiters in machine
      arithmetic, the compiled policy of a tenant and its decisions.
    - [Dash]: concurrent maps and sets, with an unspecified iteration order.
    - [Threads]: threads that share tables, with the guards they keep; runs,
      invariants, progress by a measure, and locks taken in an order.
    - [SessionRegistry] (realtime/core/session_registry.rs): live sessions,
      the index by user, the per-tenant counters.
    - [Presence] (realtime/core/presence.rs): the six tables of room presence,
      refined to one set of memberships.
    - [Race] (the same file, one map operation at a time): threads with
      program counters and the guards they keep; how far concurrent joins can
      overrun a limit, and what races do to the tables.
    - [RegRace], [RegCap]: the registry one map operation at a time, with the
      openings that use it; the cap of a tenant under every
      schedule, and what races do to the limit of a user.
    - [Locks]: which locks the calls of [Race] and [RegRace], and the lookup of
      a user's sessions, keep while they ask for others; all of them return,
      whether locks are those of entries or of shards.
    - [Keys] (the key formats of realtime/core/realtime.rs and
      transport/ws.rs): when keys can be read back; presence under them.
    - [Isolation]: the part of the room tables and of the threads of [Race]
      that belongs to a tenant; two runs that differ in the rest.
    - [Channel]: WebSocket messages, and bounded channels as an interface
      with laws and a concrete instance.
    - [Envelope] (wsprism-core/src/protocol/text.rs): JSON as an interface, and
      the deserializers of the envelope and of the chat request, as their
      attributes define them over what the interface shows of a document.
    - [Realtime] (realtime/types.rs, realtime/core/realtime.rs): delivery to
      users, sessions and rooms, lossy and reliable; the per-message context.
    - [Codec] (transport/codec.rs): inbound messages.
    - [Dispatch] (dispatch/dispatcher.rs, services/): the dispatcher, the chat
      and echo services.
    - [Float64], [Handshake] (transport/handshake.rs): binary64 arithmetic,
      the leaky buckets and the defender.
    - [Metrics] (obs/metrics.rs): counters, gauges, histograms, rendering.
    - [NetAddr]: the parser of socket addresses of Rust's standard library.
    - [AppState] (app_state.rs, context/tenant.rs, ops/mod.rs): the shared
      state, its construction from the configuration, the HTTP endpoints.
    - [Ws] (transport/ws.rs): the upgrade decision ([ws_upgrade]), the opening
      of a session ([session_open]), one handler per branch of its loop
      ([on_event]), the loop along a list of events ([session_loop]), and the
      cleanup guard ([session_end]).
    - [Session], [Admission]: the theorems about [Ws]: what a session does to
      the state it shares with others, from its opening to its end.
    - [System]: the gateway as a whole, all tasks at once ([System],
      [sys_exec]): upgrades, openings, events of any session up to their first
      await, single sends of a publication that a task awaits, ends of tasks,
      and the signal; what is reachable ([sys_reach]).
    - [Safety]: the invariant of [System] over all interleavings.
    - [Effects]: the kinds of effects that acts are made of, within a scope of
      channels and tenants; a property that withstands each of them is kept by
      every act in the scope.
    - [Limits], [Tenancy]: which tenant each entry of the shared state belongs to; that
      acts of one tenant change nothing of another, and that the limits of a tenant
      hold in all runs of [System].
    - [Exposition]: a reader of the metrics page, which finds the registry.
    - [Outbound]: the outbound channel of a session as a queue, over all runs, with
      writes that succeed, fail or are late.
    - [Typed]: every integer of the running gateway is a value of its type.
    - [Main] (main.rs, router.rs, [load_from_file] of config/mod.rs): startup,
      the routes, graceful shutdown with its drain loop.
    - [Process] (main.rs): [main] from its first line to its last, with what tasks do
      between the end of the drain loop and the return of the server.

    ** How code becomes definitions

    A struct is a [Record], an enum an [Inductive], a function or method one
    [Definition] with the state it changes passed through; [Result] is
    [result], a call that may panic returns an [outcome], and one that may not
    return gives an [option].  [u8], [u32], [u64] and [usize] are [Z] with the
    wrap-around written out; [f64] is the exact multiple of 2^-1074 with
    rounding to 53 bits written out.  Clock readings are arguments.  A
    [DashMap] is a [gmap], and its iteration order is a parameter
    ([DashOrder]).  What is not in the repository is a class with the
    documented laws and a concrete instance: [BytesOps] (the bytes crate),
    [Mpsc] (tokio channels), [SerdeJson], and the arguments of [from_yaml]
    (which nodes a YAML text has, how an error reads); a node is what it shows
    when a string, a number, a sequence or a struct is asked of it ([Node]).  What reading the configuration file and binding the socket
    answer are arguments too ([Host]).  Asynchronous code that waits runs along an explicit list
    of events ([FutEvent]), and its theorems hold for every list.  A session
    is a task with local state ([Task]) beside the shared [AppState]; its loop
    runs along a list of [Event]s, one for each branch of [select!], with the
    clock readings and the interleaving of its dispatches inside the event.

    ** What the theorems show

    - Protocol and decoding: the decoder never panics and implements the wire
      format, with its round trip; which JSON documents are envelopes, and
      which envelope ([envelope_deserialize_spec]); every inbound message decodes.
    - Configuration and policy: loading accepts exactly the documents that mean
      a configuration the rules allow ([load_yaml_spec]), and no unknown or
      repeated field anywhere in them ([config_strict]); the file the
      repository ships is one ([shipped_config]); allowlists mean what their text says; the decisions on
      both lanes are characterised; the token bucket keeps its rate and is
      exact within its range.
    - State: the registry implements a map of sessions within the tenants'
      caps; presence implements a set of memberships within the limits, by
      rule induction over runs of joins of sessions not yet in the room, leaves of members and
      cleanups; in such runs cleanup removes exactly one session.
    - Delivery: lossy and reliable publication reach exactly the sessions in
      the room and account for every recipient; reliable publication with a
      timeout returns; tenants are isolated; chat and echo deliver.
    - Sessions: the answer to every upgrade request; opening a session admits
      it exactly when its user and its tenant have room, evicting at most the
      user's oldest session; no inbound message has an effect beyond its own
      session unless the policy and, for text frames, the connection limiter let it pass
      ([policy_mediates], [hot_lane_unmetered]); a session with a key of its own that joins no room twice leaves
      registry and rooms as it found them.
    - The whole gateway.  In all runs of acts of its clients and tasks: the limits of a tenant hold
      ([gateway_limits]); whatever the clients and tasks of other
      tenants do, everything of a tenant stays as it is ([gateway_isolates]), both where
      tenant ids can be read back from keys; the policies of startup stay in force and every integer keeps its type
      ([gateway_typed]); what is queued for a session is written in order, and lost only by a write that fails ([outbound_fifo]).
      In the clean runs ([clean_act]: no session opens with a key in use, joins a room that it is in, or
      leaves one that it was taken out of), where the accounts are exact: the counters agree
      with the sessions, and whoever is registered or in a
      room has a task ([gateway_safe]); when the last task has gone nothing is left
      ([gateway_quiescent]).  Handling an event in pieces is handling it in one go
      ([event_pieces]).
    - The process: when startup panics and what it serves otherwise
      ([startup_spec]); shutdown tells every session ([drain_notifies]), lets
      nobody in any more ([draining_is_final]) and ends ([drain_terminates]),
      as soon as the tasks of all sessions have ended, in clean runs ([drain_completes]); from
      startup to its return [main] is one run of [System], which drains from the signal on ([process_lifecycle]).
    - Threads: alone, the operations on rooms and on the registry one map
      operation at a time are those of [Presence] and [SessionRegistry]
      ([rooms_alone], [registry_alone]); however locks are shared, no schedule deadlocks, and all calls
      return ([calls_return]); [n] concurrent joins overrun a limit of a room
      by at most [n - 1] ([room_overrun]), while the cap of a tenant is never
      overrun by sessions with keys of their own ([registry_cap_concurrent]); whatever calls of other tenants do
      in the room tables, the calls of a tenant take the same course and return the
      same results ([tenant_noninterference]).
    - Metrics: series are exact sums of what was recorded under their labels;
      the page reads back as the registry, whatever label values hold
      ([metrics_page_faithful]).
    - Handshakes: buckets stay within bounds in floating point, bursts are
      exact, the defender keeps both limits under a burst ([defender_burst_limits]), and blocks if [len]
      does not return under the guard that it keeps ([enabled_defender_blocks]).
    - Limits of the code: joining a room twice, leaving a room one is not in,
      reusing a session key, tenant ids with a double colon, rates that
      overflow, refused handshakes that use the global budget, the map guard
      held by the handshake check, hot frames that no connection limiter meters, a session task that waits on its own full
      queue, the gauge that counts a kick twice, concurrent leaves that count
      a room off twice, a join that is lost to a concurrent leave, concurrent
      joins that count a room twice, concurrent openings that exceed the limit
      of a user, an opening that loses its place in the index of users to a
      concurrent close, envelope versions that nobody reads, a counter that
      nobody increments, and valid configurations that panic at startup, each as a theorem about the definitions.

    ** Bounds

    Counters are 64-bit; theorems that need a counter not to wrap assume fewer
    than 2^64 operations of the kind counted ([n] in [reg_reach],
    [rooms_reach] and [sys_reach]; the cap [m] itself in
    [registry_cap_concurrent]; the events of a session in
    [session_lifetime]).  Recursion
    is structural; the one bounded loop is [hex_digits], with the 32 digits
    that a [u128] can have.
    In [publish_room_reliable_returns] the schedule must let as many timers
    elapse as there are recipients; fewer can leave it waiting.  In
    [drain_terminates] the rounds are those that the grace period can hold at
    50 ms each, and one more; their clock readings do not go back.

    ** Not modelled

    Logging beyond the sampled warnings, sockets and HTTP beyond the routes
    and the answer of [bind], how signals arrive (that they do is the argument
    [Wake] of [main]), what the server does when its shutdown future panics, YAML and JSON syntax, and the memory ordering of atomics (all [Relaxed], on counters that are read
    alone).  In [System] an act runs from one await to the next: operations of
    the registry and of presence within it are not interleaved.
    Operations of different threads do interleave in the code, which is what
    [Race], [RegRace] and [RegCap] are about.  There a step is one operation
    of a map or set; guards are per entry, those of the code per shard, which
    makes more threads wait: what holds under every schedule of the former holds under those of the
    latter, and that nobody waits for ever is shown for both ([Locks]).  Module declarations and re-exports, the derives of
    [Clone] and [Debug], and accessors that return a field have no definition of
    their own.

    ** What could come next

    The accounts of [Safety] under those interleavings of [Race] that
    keep them, and one system in which the map operations of [Race] and [RegRace] and
    the acts of [System] are the same steps.  Noninterference in the registry
    holds up to the order numbers of sessions, which all tenants draw from one
    counter; [Isolation] is about the room tables, where it holds exactly. *)

From Stdlib Require Export ssreflect.
From Stdlib Require Export ZArith Lia Ascii Strings.Byte.
From stdpp Require Export base gmap strings list fin_maps sets pretty.

#[export] Set Warnings "-rewrite-rw,-clear-no-such-hyp".
#[export] Set Default Goal Selector "!".
#[export] Set SsrOldRewriteGoalsOrder.
#[global] Open Scope general_if_scope.
#[global] Open Scope string_scope.
#[global] Open Scope list_scope.
#[global] Open Scope Z_scope.

Ltac done := stdpp.tactics.done.

(** ** Fallible code: [Result<T, E>] and panics *)

(** Rust's [Result<T, E>]. *)
Inductive result (E A : Type) : Type :=
| Ok (a : A)
| Err (e : E).

Arguments Ok {E A} a.
Arguments Err {E A} e.

(** What a Rust call does: it returns, or it panics. *)
Inductive outcome (A : Type) : Type :=
| Done (a : A)
| Panic.

Arguments Done {A} a.
Arguments Panic {A}.

Declare Scope wsprism_scope.
Delimit Scope wsprism_scope with ws.
#[global] Open Scope wsprism_scope.

(** The [?] operator: bind on [result]. *)
Notation "'let?' p ':=' e 'in' k" :=
  (match e with Ok p => k | Err err => Err err end)
  (at level 10, p pattern, e at level 100, k at level 200) : wsprism_scope.

(** Sequencing of calls that may panic. *)
Notation "'let!' p ':=' e 'in' k" :=
  (match e with Done p => k | Panic => Panic end)
  (at level 10, p pattern, e at level 100, k at level 200) : wsprism_scope.

Definition is_ok {E A} (r : result E A) : bool :=
  match r with Ok _ => true | Err _ => false end.

(** [ok_or_else] of [Option]. *)
Definition ok_or {E A} (e : E) (o : option A) : result E A :=
  match o with Some a => Ok a | None => Err e end.

(** [map_err] of [Result]. *)
Definition map_err {E F A} (f : E → F) (r : result E A) : result F A :=
  match r with Ok a => Ok a | Err e => Err (f e) end.

(** A loop that pushes [f x?] for each [x]: it stops at the first error. *)
Fixpoint try_map {E A B} (f : A → result E B) (l : list A) : result E (list B) :=
  match l with
  | [] => Ok []
  | x :: l' =>
      let? y := f x in
      let? ys := try_map f l' in
      Ok (y :: ys)
  end.

(** ** Machine integers, as [Z] with the wrap-around written out *)

Definition u8_max : Z := 255.
Definition u32_max : Z := 4294967295.
Definition u64_max : Z := 18446744073709551615.

(** [as u32] and [as u64] of a non-negative value; also what the wrapping
    [fetch_add] and [fetch_sub] of the atomics do. *)
Definition wrap32 (z : Z) : Z := z mod 4294967296.
Definition wrap64 (z : Z) : Z := z mod 18446744073709551616.

Definition is_u8 (z : Z) : Prop := 0 ≤ z ≤ u8_max.
Definition is_u32 (z : Z) : Prop := 0 ≤ z ≤ u32_max.
Definition is_u64 (z : Z) : Prop := 0 ≤ z ≤ u64_max.

(** [a + b] on [u32]: with overflow checks (the debug profile) it panics when
    the sum does not fit, without (the release profile) it wraps. *)
Definition add_u32 (checks : bool) (a b : Z) : outcome Z :=
  if checks && (u32_max <? a + b) then Panic else Done (wrap32 (a + b)).

Definition mul_u64 (checks : bool) (a b : Z) : outcome Z :=
  if checks && (u64_max <? a * b) then Panic else Done (wrap64 (a * b)).

(** ** Tactics *)

(** Case analysis on every boolean test of the goal or of a hypothesis. *)
Ltac split_ifs :=
  repeat match goal with
  | |- context [if ?b then _ else _] => let E := fresh "E" in destruct b eqn:E
  | H : context [if ?b then _ else _] |- _ => let E := fresh "E" in destruct b eqn:E
  end.

(** Turn boolean comparisons into propositions. *)
Ltac unbool :=
  repeat match goal with
  | H : negb _ = true |- _ => apply negb_true_iff in H
  | H : negb _ = false |- _ => apply negb_false_iff in H
  | H : (_ && _)%bool = true |- _ => apply andb_true_iff in H as [? ?]
  | H : (_ || _)%bool = false |- _ => apply orb_false_iff in H as [? ?]
  | H : (_ && _)%bool = false |- _ => apply andb_false_iff in H
  | H : (_ || _)%bool = true |- _ => apply orb_true_iff in H
  | H : (_ <? _) = true |- _ => apply Z.ltb_lt in H
  | H : (_ <? _) = false |- _ => apply Z.ltb_ge in H
  | H : (_ <=? _) = true |- _ => apply Z.leb_le in H
  | H : (_ <=? _) = false |- _ => apply Z.leb_gt in H
  | H : (_ =? _) = true |- _ => apply Z.eqb_eq in H
  | H : (_ =? _) = false |- _ => apply Z.eqb_neq in H
  | H : bool_decide _ = true |- _ => apply bool_decide_eq_true in H
  | H : bool_decide _ = false |- _ => apply bool_decide_eq_false in H
  end.

(** Linear arithmetic with [/] and [mod] by constants. *)
Ltac dlia := Z.to_euclidean_division_equations; lia.

(** Invert an equation between results or outcomes. *)
Ltac res_inv :=
  repeat match goal with
  | H : Ok _ = Ok _ |- _ => injection H as H
  | H : Err _ = Err _ |- _ => injection H as H
  | H : Done _ = Done _ |- _ => injection H as H
  | H : Ok _ = Err _ |- _ => discriminate H
  | H : Err _ = Ok _ |- _ => discriminate H
  | H : Done _ = Panic |- _ => discriminate H
  | H : Panic = Done _ |- _ => discriminate H
  end; subst.

Create HintDb wsprism.
Create Rewrite HintDb wsprism.

(** ** Generic lemmas *)

Section results.
Context {E A B : Type}.
Implicit Types (f : A → result E B) (l : list A) (k : list B).

Lemma try_map_Ok f l k : try_map f l = Ok k ↔ Forall2 (λ x y, f x = Ok y) l k.
Proof.
  revert k. induction l as [|x l IH]; intros k; cbn.
  { split; [by intros [= <-]|by intros ->%Forall2_nil_inv_l]. }
  destruct k as [|y k].
  { split; [|by intros ?%Forall2_nil_inv_r].
    destruct (f x); [|done]. by destruct (try_map f l). }
  rewrite Forall2_cons -IH. destruct (f x), (try_map f l); naive_solver.
Qed.

(** The error of the first element that has one. *)
Lemma try_map_Err f l e :
  try_map f l = Err e ↔
  ∃ l1 x l2, l = l1 ++ x :: l2 ∧ f x = Err e ∧ Forall (λ y, is_ok (f y) = true) l1.
Proof.
  induction l as [|x l IH]; cbn.
  { split; [done|]. intros ([|] & ? & ? & ? & _); done. }
  destruct (f x) as [y|e'] eqn:Ef.
  - transitivity (try_map f l = Err e).
    { destruct (try_map f l); naive_solver. }
    rewrite IH. split.
    + intros (l1 & z & l2 & -> & ? & ?). exists (x :: l1), z, l2. rewrite Forall_cons Ef. done.
    + intros ([|x' l1] & z & l2 & [= -> ->] & ? & Hf); [congruence|].
      apply Forall_cons in Hf as [_ ?]. eauto 10.
  - split.
    + intros [= <-]. exists [], x, l. split_and!; [done..|constructor].
    + intros ([|x' l1] & z & l2 & [= -> ->] & ? & Hf); [congruence|].
      apply Forall_cons in Hf as [Hx _]. by rewrite Ef in Hx.
Qed.

Lemma existsb_Exists (p : A → bool) l : existsb p l = true ↔ Exists (λ x, p x = true) l.
Proof. rewrite existsb_exists Exists_exists. by setoid_rewrite list_elem_of_In. Qed.

(** Existence carries over a pointwise relation. *)
Lemma Exists_Forall2 (R : A → B → Prop) (P : A → Prop) (Q : B → Prop) l k :
  Forall2 R l k → (∀ x y, R x y → P x ↔ Q y) → Exists Q k ↔ Exists P l.
Proof.
  intros H HPQ. induction H as [|x y l k Hxy _ IH]; [by rewrite !Exists_nil|].
  by rewrite !Exists_cons IH (HPQ x y).
Qed.
End results.

Section ints.
Implicit Types a b z : Z.

Lemma wrap32_small z : is_u32 z → wrap32 z = z.
Proof. rewrite /is_u32 /u32_max /wrap32 => ?. apply Z.mod_small. lia. Qed.

Lemma wrap64_small z : is_u64 z → wrap64 z = z.
Proof. rewrite /is_u64 /u64_max /wrap64 => ?. apply Z.mod_small. lia. Qed.

Lemma wrap32_range z : is_u32 (wrap32 z).
Proof.
  rewrite /is_u32 /u32_max /wrap32.
  pose proof (Z.mod_pos_bound z 4294967296). lia.
Qed.

Lemma wrap64_range z : is_u64 (wrap64 z).
Proof.
  rewrite /is_u64 /u64_max /wrap64.
  pose proof (Z.mod_pos_bound z 18446744073709551616). lia.
Qed.

Lemma wrap64_add z n : wrap64 (wrap64 z + n) = wrap64 (z + n).
Proof. rewrite /wrap64. apply Zplus_mod_idemp_l. Qed.

Lemma wrap64_sub z n : wrap64 (wrap64 z - n) = wrap64 (z - n).
Proof. rewrite /wrap64. apply Zminus_mod_idemp_l. Qed.

Lemma add_u32_fits checks a b :
  0 ≤ a → 0 ≤ b → a + b ≤ u32_max → add_u32 checks a b = Done (a + b).
Proof.
  intros Ha Hb H. rewrite /add_u32.
  replace (u32_max <? a + b) with false by (symmetry; apply Z.ltb_ge; lia).
  rewrite andb_false_r wrap32_small; [done|]. rewrite /is_u32. lia.
Qed.

Lemma mul_u64_fits checks a b :
  0 ≤ a → 0 ≤ b → a * b ≤ u64_max → mul_u64 checks a b = Done (a * b).
Proof.
  intros Ha Hb H. rewrite /mul_u64.
  replace (u64_max <? a * b) with false by (symmetry; apply Z.ltb_ge; lia).
  rewrite andb_false_r wrap64_small; [done|]. rewrite /is_u64. nia.
Qed.
End ints.

#[export] Hint Resolve wrap32_range wrap64_range : wsprism.
#[export] Hint Rewrite wrap64_add wrap64_sub : wsprism.
