(* ===== verification/Errors.v ===== *)
(** * Errors of the core crate ([wsprism-core/src/error.rs]) *)

From S2P Require Import Prelude.

(** Stable client-facing codes. *)
Inductive ClientCode :=
| BadRequest
| AuthFailed
| RateLimited
| PayloadTooLarge
| NotAllowed
| ResourceExhausted
| UnsupportedVersion
| Internal.

#[export] Instance ClientCode_eq_dec : EqDecision ClientCode.
Proof. solve_decision. Defined.

(** [ClientCode::as_str]. *)
Definition as_str (c : ClientCode) : string :=
  match c with
  | BadRequest => "BAD_REQUEST"
  | AuthFailed => "AUTH_FAILED"
  | RateLimited => "RATE_LIMITED"
  | PayloadTooLarge => "PAYLOAD_TOO_LARGE"
  | NotAllowed => "NOT_ALLOWED"
  | ResourceExhausted => "RESOURCE_EXHAUSTED"
  | UnsupportedVersion => "UNSUPPORTED_VERSION"
  | Internal => "INTERNAL"
  end.

(** The unified error type. *)
Inductive WsPrismError :=
| EBadRequest (m : string)
| EAuthFailed
| ERateLimited
| EPayloadTooLarge
| ENotAllowed (m : string)
| EResourceExhausted (m : string)
| EUnsupportedVersion
| EInternal (m : string).

#[export] Instance WsPrismError_eq_dec : EqDecision WsPrismError.
Proof. solve_decision. Defined.

(** [WsPrismError::client_code]. *)
Definition client_code (e : WsPrismError) : ClientCode :=
  match e with
  | EBadRequest _ => BadRequest
  | EAuthFailed => AuthFailed
  | ERateLimited => RateLimited
  | EPayloadTooLarge => PayloadTooLarge
  | ENotAllowed _ => NotAllowed
  | EResourceExhausted _ => ResourceExhausted
  | EUnsupportedVersion => UnsupportedVersion
  | EInternal _ => Internal
  end.

(** [Display], from the [#[error(...)]] attributes ([e.to_string()]). *)
Definition error_to_string (e : WsPrismError) : string :=
  match e with
  | EBadRequest m => "bad request: " +:+ m
  | EAuthFailed => "auth failed"
  | ERateLimited => "rate limited"
  | EPayloadTooLarge => "payload too large"
  | ENotAllowed m => "not allowed: " +:+ m
  | EResourceExhausted m => "resource exhausted: " +:+ m
  | EUnsupportedVersion => "unsupported protocol version"
  | EInternal m => "internal: " +:+ m
  end.

(** [wsprism_core::Result]. *)
Abbreviation Result := (result WsPrismError).
Abbreviation err_bad_request m := (Err (EBadRequest m)).

(** The wire strings tell the codes apart. *)
#[export] Instance as_str_inj : Inj (=) (=) as_str.
Proof. intros [] []; by vm_compute. Qed.
