(* ===== verification/RustStd.v ===== *)
(** * What the gateway uses of Rust's standard library on strings

    A [str] is its UTF-8 bytes, as a [string]. *)

From S2P Require Import Prelude.

(** ** [str::split_once] with a one-byte separator *)
Fixpoint split_once (c : ascii) (s : string) : option (string * string) :=
  match s with
  | EmptyString => None
  | String a s' =>
      if bool_decide (a = c) then Some (EmptyString, s')
      else match split_once c s' with
           | Some (l, r) => Some (String a l, r)
           | None => None
           end
  end.

(** The separator does not occur in the string. *)
Fixpoint no_char (c : ascii) (s : string) : bool :=
  match s with
  | EmptyString => true
  | String a s' => bool_decide (a ≠ c) && no_char c s'
  end.

(** ** [str::parse::<u8>] *)

Definition digit_val (c : ascii) : option Z :=
  let n := Z.of_nat (nat_of_ascii c) in
  if (48 <=? n) && (n <=? 57) then Some (n - 48) else None.

(** The digit loop of [from_str_radix(_, 10)]: stops with an error on a
    non-digit or as soon as the value exceeds [max]. *)
Fixpoint parse_digits (max acc : Z) (s : string) : option Z :=
  match s with
  | EmptyString => Some acc
  | String c s' =>
      match digit_val c with
      | Some d => if max <? acc * 10 + d then None else parse_digits max (acc * 10 + d) s'
      | None => None
      end
  end.

Definition parse_unsigned (max : Z) (s : string) : option Z :=
  match s with
  | EmptyString => None
  | String c EmptyString => parse_digits max 0 s
  | String c s' =>
      if bool_decide (c = "+"%char) then parse_digits max 0 s' else parse_digits max 0 s
  end.

Definition parse_u8 (s : string) : option Z := parse_unsigned u8_max s.

(** ** [str::trim().is_empty()]: every character is Unicode white space *)

Definition byte_code (c : ascii) : Z := Z.of_nat (nat_of_ascii c).

(** The UTF-8 encodings of the [White_Space] characters. *)
Fixpoint is_blank (s : string) : bool :=
  match s with
  | EmptyString => true
  | String a s1 =>
      let x := byte_code a in
      if ((9 <=? x) && (x <=? 13)) || (x =? 32) then is_blank s1
      else match s1 with
      | EmptyString => false
      | String b s2 =>
          let y := byte_code b in
          if (x =? 194) && ((y =? 133) || (y =? 160)) then is_blank s2
          else match s2 with
          | EmptyString => false
          | String c s3 =>
              let z := byte_code c in
              if ((x =? 225) && (y =? 154) && (z =? 128))
                 || ((x =? 226) && (y =? 128)
                     && (((128 <=? z) && (z <=? 138)) || (z =? 168) || (z =? 169) || (z =? 175)))
                 || ((x =? 226) && (y =? 129) && (z =? 159))
                 || ((x =? 227) && (y =? 128) && (z =? 128))
              then is_blank s3
              else false
          end
      end
  end.

(** ** [str::from_utf8] *)

Definition bval (b : byte) : Z := Z.of_N (Byte.to_N b).
Definition in_range (lo hi : Z) (b : byte) : bool := (lo <=? bval b) && (bval b <=? hi).
Definition is_cont : byte → bool := in_range 128 191.

(** The second byte that a first byte of a three- or four-byte sequence allows. *)
Definition second_ok3 (a b : byte) : bool :=
  if bval a =? 224 then in_range 160 191 b
  else if bval a =? 237 then in_range 128 159 b
  else is_cont b.

Definition second_ok4 (a b : byte) : bool :=
  if bval a =? 240 then in_range 144 191 b
  else if bval a =? 244 then in_range 128 143 b
  else is_cont b.

(** The loop of the validation: [Ok] at the end, else the index of the first
    bad sequence and its length ([None]: the input ends inside a sequence). *)
Fixpoint utf8_scan (pos : nat) (l : list byte) : result (nat * option nat) unit :=
  match l with
  | [] => Ok tt
  | a :: l1 =>
      if bval a <? 128 then utf8_scan (pos + 1) l1
      else if in_range 194 223 a then
        match l1 with
        | [] => Err (pos, None)
        | b :: l2 => if is_cont b then utf8_scan (pos + 2) l2 else Err (pos, Some 1%nat)
        end
      else if in_range 224 239 a then
        match l1 with
        | [] => Err (pos, None)
        | b :: l2 =>
            if negb (second_ok3 a b) then Err (pos, Some 1%nat)
            else match l2 with
                 | [] => Err (pos, None)
                 | c :: l3 => if is_cont c then utf8_scan (pos + 3) l3 else Err (pos, Some 2%nat)
                 end
        end
      else if in_range 240 244 a then
        match l1 with
        | [] => Err (pos, None)
        | b :: l2 =>
            if negb (second_ok4 a b) then Err (pos, Some 1%nat)
            else match l2 with
                 | [] => Err (pos, None)
                 | c :: l3 =>
                     if negb (is_cont c) then Err (pos, Some 2%nat)
                     else match l3 with
                          | [] => Err (pos, None)
                          | d :: l4 =>
                              if is_cont d then utf8_scan (pos + 4) l4 else Err (pos, Some 3%nat)
                          end
                 end
        end
      else Err (pos, Some 1%nat)
  end.

(** [Display] of [Utf8Error]. *)
Definition utf8_error_to_string (e : nat * option nat) : string :=
  match e with
  | (pos, Some n) =>
      "invalid utf-8 sequence of " +:+ pretty n +:+ " bytes from index " +:+ pretty pos
  | (pos, None) => "incomplete utf-8 byte sequence from index " +:+ pretty pos
  end.

Definition from_utf8 (l : list byte) : result (nat * option nat) string :=
  let? _ := utf8_scan 0 l in Ok (String.string_of_list_byte l).

(** ** [format!("{:x}", n)]: lower-case hexadecimal, for values of at most 128 bits *)

Definition hex_digit (d : Z) : ascii :=
  ascii_of_nat (Z.to_nat (if d <? 10 then 48 + d else 87 + d)).

Fixpoint hex_digits (digits : nat) (z : Z) (acc : string) : string :=
  match digits with
  | O => acc
  | S digits =>
      let acc := String (hex_digit (z mod 16)) acc in
      if z <? 16 then acc else hex_digits digits (z / 16) acc
  end.

Definition to_hex (z : Z) : string := hex_digits 32 z EmptyString.

(** ** Lemmas *)

Lemma string_app_nil_l (s : string) : EmptyString +:+ s = s.
Proof. done. Qed.

Lemma string_app_cons c (s t : string) : String c s +:+ t = String c (s +:+ t).
Proof. done. Qed.

Lemma string_app_assoc (a b c : string) : (a +:+ b) +:+ c = a +:+ (b +:+ c).
Proof. induction a as [|x a IH]; [done|]. by rewrite !string_app_cons IH. Qed.

Lemma string_length_app (a b : string) :
  String.length (a +:+ b) = (String.length a + String.length b)%nat.
Proof. induction a as [|x a IH]; [done|]. rewrite string_app_cons /=. by rewrite IH. Qed.

Lemma no_char_app c (a b : string) : no_char c (a +:+ b) = no_char c a && no_char c b.
Proof. induction a as [|x a IH]; [done|]. by rewrite string_app_cons /= IH andb_assoc. Qed.

(** [split_once] finds the first separator, and only that. *)
Lemma split_once_spec c (s l r : string) :
  split_once c s = Some (l, r) ↔ s = l +:+ String c r ∧ no_char c l = true.
Proof.
  revert l r. induction s as [|a s IH]; intros l r; cbn [split_once].
  { split; [done|]. intros [H _]. by destruct l. }
  case_bool_decide as Ha.
  - subst a. split; [intros [= <- <-]; done|].
    intros [H Hl]. destruct l as [|b l]; [by injection H as ->|].
    injection H as -> ->. cbn in Hl. unbool. done.
  - destruct (split_once c s) as [[l' r']|].
    + destruct (proj1 (IH l' r') eq_refl) as [-> Hl']. split.
      * intros [= <- <-]. split; [done|]. cbn. rewrite bool_decide_true; done.
      * intros [H Hl]. destruct l as [|b l]; [injection H as -> ?; done|].
        injection H as -> H. cbn in Hl. apply andb_true_iff in Hl as [_ Hl].
        assert (Some (l', r') = Some (l, r)) as [= -> ->]; [|done].
        apply IH. done.
    + split; [done|]. intros [H Hl]. destruct l as [|b l]; [injection H as -> ?; done|].
      injection H as -> H. cbn in Hl. apply andb_true_iff in Hl as [_ Hl].
      assert (None = Some (l, r)); [|done]. apply IH. done.
Qed.

Lemma split_once_None c (s : string) : split_once c s = None ↔ no_char c s = true.
Proof.
  induction s as [|a s IH]; [done|]. cbn.
  case_bool_decide; case_bool_decide; try done.
  destruct (split_once c s) as [[]|]; cbn; naive_solver.
Qed.

(** Cutting at the first separator is unambiguous. *)
Lemma split_unique c (l l' r r' : string) :
  no_char c l = true → no_char c l' = true →
  l +:+ String c r = l' +:+ String c r' → l = l' ∧ r = r'.
Proof.
  intros Hl Hl' H.
  assert (split_once c (l +:+ String c r) = Some (l, r)) as E by by apply split_once_spec.
  assert (split_once c (l' +:+ String c r') = Some (l', r')) as E' by by apply split_once_spec.
  rewrite H E' in E. by injection E as -> ->.
Qed.

Lemma digit_val_range c d : digit_val c = Some d → 0 ≤ d ≤ 9.
Proof. rewrite /digit_val. split_ifs; [|done]. intros [= <-]. unbool. lia. Qed.

Lemma parse_digits_range max acc s z :
  0 ≤ acc ≤ max → parse_digits max acc s = Some z → 0 ≤ z ≤ max.
Proof.
  revert acc. induction s as [|c s IH]; intros acc Hacc; cbn; [by intros [= <-]|].
  destruct (digit_val c) as [d|] eqn:Hd; [|done]. apply digit_val_range in Hd.
  split_ifs; [done|]. unbool. apply IH. lia.
Qed.

(** [parse::<u8>] only yields values that fit a [u8]. *)
Lemma parse_u8_range s z : parse_u8 s = Some z → is_u8 z.
Proof.
  rewrite /parse_u8 /parse_unsigned /is_u8. destruct s as [|c [|d s]]; [done|..].
  - apply parse_digits_range. rewrite /u8_max. lia.
  - case_bool_decide; apply parse_digits_range; rewrite /u8_max; lia.
Qed.

#[export] Hint Resolve parse_u8_range : wsprism.
