(* ===== verification/HotFrame.v ===== *)
(** * Hot Lane binary frames ([wsprism-core/src/protocol/hot.rs])

    [decode_hot_frame] is written against the [Buf] operations of the [bytes]
    crate, which are not part of this repository: they are the class
    [BytesOps], and what their documentation promises is the class
    [BytesLaws].  A read past the end of a [Buf] panics, so the decoder's type
    keeps panics visible and the theorems show that none happens. *)

From S2P Require Import Prelude Errors RustStd.

(** ** The [bytes::Bytes] interface *)

(** The unsigned value of a byte, and back. *)
Definition byte_val (b : byte) : Z := Z.of_N (Byte.to_N b).
Definition byte_of (z : Z) : byte := default Byte.x00 (Byte.of_N (Z.to_N z)).

(** Four bytes, least significant first. *)
Definition le32 (b0 b1 b2 b3 : byte) : Z :=
  byte_val b0 + 256 * byte_val b1 + 65536 * byte_val b2 + 16777216 * byte_val b3.

(** The operations of [bytes::Bytes] the decoder calls; [view] is the content
    the documentation speaks about. *)
Class BytesOps (Bytes : Type) := {
  view : Bytes → list byte;
  remaining : Bytes → Z;
  get_u8 : Bytes → outcome (Z * Bytes);
  get_u32_le : Bytes → outcome (Z * Bytes);
  copy_to_bytes : Bytes → Z → outcome (Bytes * Bytes);
}.

Class BytesLaws (Bytes : Type) `{!BytesOps Bytes} : Prop := {
  remaining_view (b : Bytes) : remaining b = Z.of_nat (length (view b));
  get_u8_view (b : Bytes) x l :
    view b = x :: l → ∃ b', get_u8 b = Done (byte_val x, b') ∧ view b' = l;
  get_u32_le_view (b : Bytes) x0 x1 x2 x3 l :
    view b = x0 :: x1 :: x2 :: x3 :: l →
    ∃ b', get_u32_le b = Done (le32 x0 x1 x2 x3, b') ∧ view b' = l;
  copy_to_bytes_view (b : Bytes) (n : nat) :
    (n ≤ length (view b))%nat →
    ∃ p b', copy_to_bytes b (Z.of_nat n) = Done (p, b')
            ∧ view p = take n (view b) ∧ view b' = drop n (view b);
}.

(** ** Frames *)

Definition HOT_FLAG_SEQ_PRESENT : Z := 1.

Record HotFrame (Bytes : Type) := mkHotFrame {
  hf_v : Z;
  hf_svc_id : Z;
  hf_opcode : Z;
  hf_flags : Z;
  hf_seq : option Z;
  hf_payload : Bytes;
}.

Arguments mkHotFrame {Bytes}.
Arguments hf_v {Bytes} _.
Arguments hf_svc_id {Bytes} _.
Arguments hf_opcode {Bytes} _.
Arguments hf_flags {Bytes} _.
Arguments hf_seq {Bytes} _.
Arguments hf_payload {Bytes} _.

Section decode.
Context {Bytes : Type} `{!BytesOps Bytes}.

(** [decode_hot_frame]. *)
Definition decode_hot_frame (buf : Bytes) : outcome (Result (HotFrame Bytes)) :=
  if remaining buf <? 4 then Done (err_bad_request "hot frame too short")
  else
    let! (v, buf) := get_u8 buf in
    if negb (v =? 1) then Done (Err EUnsupportedVersion)
    else
      let! (svc_id, buf) := get_u8 buf in
      let! (opcode, buf) := get_u8 buf in
      let! (flags, buf) := get_u8 buf in
      let! seq_buf :=
        if negb (Z.land flags HOT_FLAG_SEQ_PRESENT =? 0) then
          if remaining buf <? 4 then Done (err_bad_request "seq flag set but missing u32")
          else let! (s, buf) := get_u32_le buf in Done (Ok (Some s, buf))
        else Done (Ok (None, buf)) in
      match seq_buf with
      | Err e => Done (Err e)
      | Ok (seq, buf) =>
          let! (payload, _) := copy_to_bytes buf (remaining buf) in
          Done (Ok (mkHotFrame v svc_id opcode flags seq payload))
      end.
End decode.

(** ** The frame format of docs/PROTOCOL.md, section 3 *)

Module HotSpec.
(** Parsing as one look at the bytes. *)
Definition parse (bs : list byte) : Result (HotFrame (list byte)) :=
  match bs with
  | v :: svc :: op :: fl :: rest =>
      if byte_val v =? 1 then
        if Z.testbit (byte_val fl) 0 then
          match rest with
          | s0 :: s1 :: s2 :: s3 :: payload =>
              Ok (mkHotFrame 1 (byte_val svc) (byte_val op) (byte_val fl)
                             (Some (le32 s0 s1 s2 s3)) payload)
          | _ => err_bad_request "seq flag set but missing u32"
          end
        else Ok (mkHotFrame 1 (byte_val svc) (byte_val op) (byte_val fl) None rest)
      else Err EUnsupportedVersion
  | _ => err_bad_request "hot frame too short"
  end.

(** A frame a client may send: the fields fit their width, and the sequence
    number is there exactly when the flag says so. *)
Definition wf (f : HotFrame (list byte)) : Prop :=
  hf_v f = 1 ∧ is_u8 (hf_svc_id f) ∧ is_u8 (hf_opcode f) ∧ is_u8 (hf_flags f)
  ∧ match hf_seq f with
    | Some s => is_u32 s ∧ Z.testbit (hf_flags f) 0 = true
    | None => Z.testbit (hf_flags f) 0 = false
    end.

Definition u32_bytes (s : Z) : list byte :=
  [byte_of (s mod 256); byte_of (s / 256 mod 256);
   byte_of (s / 65536 mod 256); byte_of (s / 16777216 mod 256)].

(** What a client puts on the wire. *)
Definition encode (f : HotFrame (list byte)) : list byte :=
  [byte_of (hf_v f); byte_of (hf_svc_id f); byte_of (hf_opcode f); byte_of (hf_flags f)]
  ++ match hf_seq f with Some s => u32_bytes s | None => [] end
  ++ hf_payload f.
End HotSpec.


(** The content of a decoded frame. *)
Definition frame_view {Bytes} `{!BytesOps Bytes} (f : HotFrame Bytes) : HotFrame (list byte) :=
  mkHotFrame (hf_v f) (hf_svc_id f) (hf_opcode f) (hf_flags f) (hf_seq f) (view (hf_payload f)).

Definition result_view {Bytes} `{!BytesOps Bytes} (r : Result (HotFrame Bytes))
    : Result (HotFrame (list byte)) :=
  match r with Ok f => Ok (frame_view f) | Err e => Err e end.

(** ** A concrete buffer: a list of bytes *)

#[export] Instance list_bytes_ops : BytesOps (list byte) := {
  view := id;
  remaining b := Z.of_nat (length b);
  get_u8 b := match b with x :: l => Done (byte_val x, l) | [] => Panic end;
  get_u32_le b :=
    match b with
    | x0 :: x1 :: x2 :: x3 :: l => Done (le32 x0 x1 x2 x3, l)
    | _ => Panic
    end;
  copy_to_bytes b n :=
    if Z.of_nat (length b) <? n then Panic
    else Done (take (Z.to_nat n) b, drop (Z.to_nat n) b);
}.

#[export] Instance list_bytes_laws : BytesLaws (list byte).
Proof.
  split; cbn.
  - done.
  - intros b x l ->. eauto.
  - intros b x0 x1 x2 x3 l ->. eauto.
  - intros b n Hn. rewrite /id in Hn |- *.
    replace (Z.of_nat (length b) <? Z.of_nat n) with false by (symmetry; apply Z.ltb_ge; lia).
    rewrite Nat2Z.id. eauto.
Qed.

(** ** Lemmas on bytes *)

Lemma byte_val_range b : is_u8 (byte_val b).
Proof. by destruct b. Qed.

Lemma byte_of_val b : byte_of (byte_val b) = b.
Proof. by destruct b. Qed.

Lemma byte_val_of z : is_u8 z → byte_val (byte_of z) = z.
Proof.
  rewrite /is_u8 /u8_max => Hz. rewrite /byte_val /byte_of.
  destruct (Byte.of_N (Z.to_N z)) as [b|] eqn:E.
  - apply Byte.to_of_N in E. cbn. rewrite E. lia.
  - apply Byte.of_N_None_iff in E. lia.
Qed.

#[export] Instance byte_val_inj : Inj (=) (=) byte_val.
Proof. intros a b H. by rewrite -(byte_of_val a) H byte_of_val. Qed.

Lemma seq_flag_testbit z : negb (Z.land z HOT_FLAG_SEQ_PRESENT =? 0) = Z.testbit z 0.
Proof.
  rewrite /HOT_FLAG_SEQ_PRESENT (Z.land_ones z 1 ltac:(lia)) Z.bit0_odd Zmod_odd.
  by destruct (Z.odd z).
Qed.

Lemma le32_range b0 b1 b2 b3 : is_u32 (le32 b0 b1 b2 b3).
Proof.
  pose proof (byte_val_range b0). pose proof (byte_val_range b1).
  pose proof (byte_val_range b2). pose proof (byte_val_range b3).
  rewrite /is_u8 /u8_max in H H0 H1 H2. rewrite /is_u32 /u32_max /le32. lia.
Qed.

Lemma u32_bytes_le32 b0 b1 b2 b3 :
  HotSpec.u32_bytes (le32 b0 b1 b2 b3) = [b0; b1; b2; b3].
Proof.
  pose proof (byte_val_range b0). pose proof (byte_val_range b1).
  pose proof (byte_val_range b2). pose proof (byte_val_range b3).
  rewrite /is_u8 /u8_max in H H0 H1 H2. rewrite /HotSpec.u32_bytes.
  set (s := le32 b0 b1 b2 b3).
  assert (s mod 256 = byte_val b0) as -> by (rewrite /s /le32; dlia).
  assert (s / 256 mod 256 = byte_val b1) as -> by (rewrite /s /le32; dlia).
  assert (s / 65536 mod 256 = byte_val b2) as -> by (rewrite /s /le32; dlia).
  assert (s / 16777216 mod 256 = byte_val b3) as -> by (rewrite /s /le32; dlia).
  by rewrite !byte_of_val.
Qed.

Lemma le32_u32_bytes s :
  is_u32 s →
  le32 (byte_of (s mod 256)) (byte_of (s / 256 mod 256))
       (byte_of (s / 65536 mod 256)) (byte_of (s / 16777216 mod 256)) = s.
Proof.
  rewrite /is_u32 /u32_max => Hs.
  rewrite /le32 !byte_val_of ?/is_u8 ?/u8_max; dlia.
Qed.

(** ** Correctness of the decoder *)

(** The decoder computes what the format says. *)
Lemma decode_hot_frame_parse {Bytes} `{!BytesOps Bytes, !BytesLaws Bytes} (buf : Bytes) :
  ∃ r, decode_hot_frame buf = Done r ∧ result_view r = HotSpec.parse (view buf).
Proof.
  rewrite /decode_hot_frame remaining_view.
  destruct (view buf) as [|v [|svc [|op [|fl rest]]]] eqn:Hv; try by eexists.
  replace (_ <? 4) with false by (symmetry; apply Z.ltb_ge; cbn [length]; lia).
  destruct (get_u8_view _ _ _ Hv) as (b1 & -> & H1). cbn [HotSpec.parse].
  destruct (byte_val v =? 1) eqn:Ev; cbn [negb]; [|by eexists].
  destruct (get_u8_view _ _ _ H1) as (b2 & -> & H2).
  destruct (get_u8_view _ _ _ H2) as (b3 & -> & H3).
  destruct (get_u8_view _ _ _ H3) as (b4 & -> & H4).
  rewrite seq_flag_testbit. apply Z.eqb_eq in Ev. rewrite Ev.
  assert (∀ (b : Bytes) seq,
    ∃ p b', copy_to_bytes b (remaining b) = Done (p, b')
            ∧ frame_view (mkHotFrame 1 (byte_val svc) (byte_val op) (byte_val fl) seq p)
              = mkHotFrame 1 (byte_val svc) (byte_val op) (byte_val fl) seq (view b)) as Hcopy.
  { intros b seq. destruct (copy_to_bytes_view b (length (view b))) as (p & b' & E & Hp & _); [lia|].
    exists p, b'. rewrite remaining_view E. split; [done|].
    by rewrite /frame_view /= Hp firstn_all. }
  destruct (Z.testbit (byte_val fl) 0).
  - rewrite remaining_view H4.
    destruct rest as [|s0 [|s1 [|s2 [|s3 payload]]]]; try by eexists.
    replace (_ <? 4) with false by (symmetry; apply Z.ltb_ge; cbn [length]; lia).
    destruct (get_u32_le_view _ _ _ _ _ _ H4) as (b5 & -> & H5).
    destruct (Hcopy b5 (Some (le32 s0 s1 s2 s3))) as (p & b' & -> & Hf).
    eexists; split; [done|]. by rewrite /= Hf H5.
  - destruct (Hcopy b4 None) as (p & b' & -> & Hf).
    eexists; split; [done|]. by rewrite /= Hf H4.
Qed.

(** C1: on every input, well-formed or not, [decode_hot_frame] returns (it
    never panics, whatever the buffer implementation) and returns exactly what
    the frame format of the protocol says: the decoded frame, or the error of
    the first check that fails. *)
Theorem decode_hot_frame_refines {Bytes} `{!BytesOps Bytes, !BytesLaws Bytes} (buf : Bytes) :
  ∃ r, decode_hot_frame buf = Done r ∧ result_view r = HotSpec.parse (view buf).
Proof. apply decode_hot_frame_parse. Qed.

(** The test vector hot_move.json: a frame with a sequence number. *)
Lemma decode_hot_frame_refines_witness :
  ∃ r, decode_hot_frame [x01; x01; x01; x01; xd2; x04; x00; x00] = Done r
       ∧ result_view r = Ok (mkHotFrame 1 1 1 1 (Some 1234) []).
Proof.
  destruct (decode_hot_frame_refines [x01; x01; x01; x01; xd2; x04; x00; x00]) as (r & H & Hr).
  exists r. split; [exact H|]. rewrite Hr. reflexivity.
Defined.

Ltac hf_simpl := cbn [hf_v hf_svc_id hf_opcode hf_flags hf_seq hf_payload].

(** The format is unambiguous: encoding then parsing gives the frame back. *)
Lemma parse_encode f : HotSpec.wf f → HotSpec.parse (HotSpec.encode f) = Ok f.
Proof.
  destruct f as [v svc op fl seq p]. rewrite /HotSpec.wf /=.
  intros (-> & Hs & Ho & Hf & Hseq). rewrite /HotSpec.encode /=.
  rewrite !byte_val_of; [|done..].
  destruct seq as [s|]; cbn; [destruct Hseq as [Hsr Hbit]|]; rewrite ?Hbit ?Hseq //.
  by rewrite /HotSpec.u32_bytes /= le32_u32_bytes.
Qed.

(** What parses is well formed, and is the encoding of what it parses to. *)
Lemma parse_inv bs f : HotSpec.parse bs = Ok f → HotSpec.wf f ∧ HotSpec.encode f = bs.
Proof.
  destruct bs as [|v [|svc [|op [|fl rest]]]]; try done. cbn [HotSpec.parse].
  destruct (byte_val v =? 1) eqn:Ev; [|done]. apply Z.eqb_eq in Ev.
  assert (byte_of 1 = v) as Hv by by rewrite -Ev byte_of_val.
  destruct (Z.testbit (byte_val fl) 0) eqn:Ef.
  - destruct rest as [|s0 [|s1 [|s2 [|s3 p]]]]; intros [= <-].
    rewrite /HotSpec.wf /HotSpec.encode. hf_simpl. rewrite Hv !byte_of_val u32_bytes_le32.
    auto 10 using byte_val_range, le32_range.
  - intros [= <-]. rewrite /HotSpec.wf /HotSpec.encode. hf_simpl. rewrite Hv !byte_of_val.
    auto 10 using byte_val_range.
Qed.

(** C32: round trip. A buffer decodes to a well-formed frame exactly when it
    holds the encoding of that frame, so no two frames share an encoding and
    no byte of a frame is lost, the flag bits the gateway does not interpret
    included. *)
Theorem decode_encode_hot_frame {Bytes} `{!BytesOps Bytes, !BytesLaws Bytes}
    (buf : Bytes) (f : HotFrame (list byte)) :
  (HotSpec.wf f ∧ view buf = HotSpec.encode f)
  ↔ ∃ g, decode_hot_frame buf = Done (Ok g) ∧ frame_view g = f.
Proof.
  destruct (decode_hot_frame_parse buf) as (r & -> & Hr). split.
  - intros [Hwf Hbuf]. rewrite Hbuf parse_encode // in Hr.
    destruct r as [g|e]; [|done]. injection Hr as Hr. eauto.
  - intros (g & [= ->] & <-). symmetry in Hr. apply parse_inv in Hr as [? ?]. done.
Qed.

(** The test vector hot_payload_ok.json, read backwards. *)
Lemma decode_encode_hot_frame_witness :
  HotSpec.encode (mkHotFrame 1 1 2 0 None [x61; x62; x63; x64])
  = [x01; x01; x02; x00; x61; x62; x63; x64].
Proof.
  destruct (proj2 (decode_encode_hot_frame [x01; x01; x02; x00; x61; x62; x63; x64]
                     (mkHotFrame 1 1 2 0 None [x61; x62; x63; x64]))) as [_ H].
  - eexists. split; reflexivity.
  - exact (eq_sym H).
Defined.

(** The remaining vectors of wsprism-core/tests/vectors, by client code. *)
Example hot_vectors_errors :
  (client_code <$> match decode_hot_frame [x02; x01; x01; x00] with
                   | Done (Err e) => Some e | _ => None end) = Some UnsupportedVersion
  ∧ (client_code <$> match decode_hot_frame [x01; x01; x01; x01] with
                     | Done (Err e) => Some e | _ => None end) = Some BadRequest
  ∧ (client_code <$> match decode_hot_frame [x01; x01; x01] with
                     | Done (Err e) => Some e | _ => None end) = Some BadRequest.
Proof. by vm_compute. Qed.
