(* ===== verification/Config.v ===== *)
(** * Gateway configuration ([wsprism-gateway/src/config])

    The typed schema of [wsprism.yaml], its defaults, and its validation.
    [load_from_str] takes [serde_yaml::from_str] as a parameter, which
    [Schema.v] instantiates with the deserializers of the schema.  What the
    [#[serde]] attributes say about absent fields is here: each section has a
    [raw] record, whose fields are optional, and a function that fills them
    in. *)

From S2P Require Import Prelude Errors RustStd.

(** ** Schema *)

Record HandshakeConfig := mkHandshakeConfig {
  hs_enabled : bool;
  global_burst : Z;
  global_rps : Z;
  per_ip_burst : Z;
  per_ip_rps : Z;
  max_ip_entries : Z;
}.

Record GatewaySection := mkGatewaySection {
  listen : string;
  ping_interval_ms : Z;
  idle_timeout_ms : Z;
  writer_send_timeout_ms : Z;
  drain_grace_ms : Z;
  handshake_limit : HandshakeConfig;
}.

Record TenantLimits := mkTenantLimits {
  max_frame_bytes : Z;
  max_sessions_total : Z;
  max_rooms_total : Z;
  max_users_per_room : Z;
  max_rooms_per_user : Z;
}.

Inductive RateLimitScope := ScopeTenant | ScopeConnection | ScopeBoth.
Inductive HotErrorMode := SysError | Silent.
Inductive SessionMode := Single | Multi.
Inductive OnExceed := Deny | KickOldest.

Record SessionPolicy := mkSessionPolicy {
  sp_mode : SessionMode;
  max_sessions_per_user : Z;
  on_exceed : OnExceed;
}.

Record TenantPolicy := mkTenantPolicy {
  rate_limit_rps : Z;
  rate_limit_burst : Z;
  rate_limit_scope : RateLimitScope;
  ext_allowlist : list string;
  hot_allowlist : list string;
  sessions_policy : SessionPolicy;
  hot_error_mode : HotErrorMode;
  hot_requires_active_room : bool;
}.

Record TenantConfig := mkTenantConfig {
  tenant_id : string;
  limits : TenantLimits;
  policy : TenantPolicy;
}.

Record GatewayConfig := mkGatewayConfig {
  version : Z;
  gateway : GatewaySection;
  tenants : list TenantConfig;
}.

(** ** Defaults *)

Definition default_hs_global_burst : Z := 200.
Definition default_hs_global_rps : Z := 100.
Definition default_hs_ip_burst : Z := 50.
Definition default_hs_ip_rps : Z := 10.
Definition default_hs_max_entries : Z := 50000.

(** [impl Default for HandshakeConfig]. *)
Definition HandshakeConfig_default : HandshakeConfig :=
  mkHandshakeConfig false 200 100 50 10 50000.

Definition default_listen : string := "0.0.0.0:8080".
Definition default_ping_interval_ms : Z := 20000.
Definition default_idle_timeout_ms : Z := 60000.
Definition default_writer_send_timeout_ms : Z := 1500.
Definition default_drain_grace_ms : Z := 2000.

(** [impl Default for GatewaySection]. *)
Definition GatewaySection_default : GatewaySection :=
  mkGatewaySection default_listen default_ping_interval_ms default_idle_timeout_ms
    default_writer_send_timeout_ms default_drain_grace_ms HandshakeConfig_default.

(** [impl Default for TenantLimits]. *)
Definition TenantLimits_default : TenantLimits := mkTenantLimits 4096 0 0 0 0.
Definition default_max_frame_bytes : Z := 4096.

Definition default_rate_limit_scope : RateLimitScope := ScopeConnection.
Definition default_hot_error_mode : HotErrorMode := SysError.
Definition default_session_mode : SessionMode := Multi.
Definition default_max_sessions_per_user : Z := 4.
Definition default_on_exceed : OnExceed := Deny.

(** [impl Default for SessionPolicy]. *)
Definition SessionPolicy_default : SessionPolicy :=
  mkSessionPolicy default_session_mode default_max_sessions_per_user default_on_exceed.

Definition default_rate_limit_rps : Z := 200.
Definition default_rate_limit_burst : Z := 400.
Definition default_ext_allowlist : list string := ["room:join"; "room:leave"].
Definition default_hot_requires_active_room : bool := true.

(** [impl Default for TenantPolicy]. *)
Definition TenantPolicy_default : TenantPolicy :=
  mkTenantPolicy default_rate_limit_rps default_rate_limit_burst default_rate_limit_scope
    default_ext_allowlist [] SessionPolicy_default default_hot_error_mode
    default_hot_requires_active_room.

(** ** Absent fields: the [#[serde(default)]] attributes *)

Record RawHandshake := mkRawHandshake {
  r_enabled : option bool;
  r_global_burst : option Z;
  r_global_rps : option Z;
  r_per_ip_burst : option Z;
  r_per_ip_rps : option Z;
  r_max_ip_entries : option Z;
}.

Definition fill_handshake (r : RawHandshake) : HandshakeConfig :=
  mkHandshakeConfig (default false (r_enabled r))
    (default default_hs_global_burst (r_global_burst r))
    (default default_hs_global_rps (r_global_rps r))
    (default default_hs_ip_burst (r_per_ip_burst r))
    (default default_hs_ip_rps (r_per_ip_rps r))
    (default default_hs_max_entries (r_max_ip_entries r)).

Record RawGateway := mkRawGateway {
  r_listen : option string;
  r_ping : option Z;
  r_idle : option Z;
  r_writer : option Z;
  r_drain : option Z;
  r_handshake : option RawHandshake;
}.

Definition fill_gateway (r : RawGateway) : GatewaySection :=
  mkGatewaySection (default default_listen (r_listen r))
    (default default_ping_interval_ms (r_ping r))
    (default default_idle_timeout_ms (r_idle r))
    (default default_writer_send_timeout_ms (r_writer r))
    (default default_drain_grace_ms (r_drain r))
    (default HandshakeConfig_default (fill_handshake <$> r_handshake r)).

Record RawLimits := mkRawLimits {
  r_max_frame : option Z;
  r_max_sessions : option Z;
  r_max_rooms : option Z;
  r_max_users_room : option Z;
  r_max_rooms_user : option Z;
}.

Definition fill_limits (r : RawLimits) : TenantLimits :=
  mkTenantLimits (default default_max_frame_bytes (r_max_frame r))
    (default 0 (r_max_sessions r)) (default 0 (r_max_rooms r))
    (default 0 (r_max_users_room r)) (default 0 (r_max_rooms_user r)).

Record RawSessions := mkRawSessions {
  r_mode : option SessionMode;
  r_max_per_user : option Z;
  r_on_exceed : option OnExceed;
}.

Definition fill_sessions (r : RawSessions) : SessionPolicy :=
  mkSessionPolicy (default default_session_mode (r_mode r))
    (default default_max_sessions_per_user (r_max_per_user r))
    (default default_on_exceed (r_on_exceed r)).

Record RawPolicy := mkRawPolicy {
  r_rps : option Z;
  r_burst : option Z;
  r_scope : option RateLimitScope;
  r_ext : option (list string);
  r_hot : option (list string);
  r_sessions : option RawSessions;
  r_hot_error : option HotErrorMode;
  r_hot_room : option bool;
}.

Definition fill_policy (r : RawPolicy) : TenantPolicy :=
  mkTenantPolicy (default default_rate_limit_rps (r_rps r))
    (default default_rate_limit_burst (r_burst r))
    (default default_rate_limit_scope (r_scope r))
    (default default_ext_allowlist (r_ext r))
    (default [] (r_hot r))
    (default SessionPolicy_default (fill_sessions <$> r_sessions r))
    (default default_hot_error_mode (r_hot_error r))
    (default default_hot_requires_active_room (r_hot_room r)).

Record RawTenant := mkRawTenant {
  r_id : string;
  r_limits : option RawLimits;
  r_policy : option RawPolicy;
}.

Definition fill_tenant (r : RawTenant) : TenantConfig :=
  mkTenantConfig (r_id r)
    (default TenantLimits_default (fill_limits <$> r_limits r))
    (default TenantPolicy_default (fill_policy <$> r_policy r)).

Record RawConfig := mkRawConfig {
  r_version : Z;
  r_gateway : option RawGateway;
  r_tenants : option (list RawTenant);
}.

Definition fill_config (r : RawConfig) : GatewayConfig :=
  mkGatewayConfig (r_version r)
    (default GatewaySection_default (fill_gateway <$> r_gateway r))
    (default [] (map fill_tenant <$> r_tenants r)).

(** ** Validation *)

(** [GatewaySection::validate]. *)
Definition gateway_validate (g : GatewaySection) : Result unit :=
  if negb ((5000 <=? ping_interval_ms g) && (ping_interval_ms g <=? 120000)) then
    err_bad_request "gateway.ping_interval_ms must be between 5000 and 120000"
  else if negb ((10000 <=? idle_timeout_ms g) && (idle_timeout_ms g <=? 600000)) then
    err_bad_request "gateway.idle_timeout_ms must be between 10000 and 600000"
  else if idle_timeout_ms g <=? ping_interval_ms g then
    err_bad_request "gateway.idle_timeout_ms must be greater than ping_interval_ms"
  else if negb ((50 <=? writer_send_timeout_ms g) && (writer_send_timeout_ms g <=? 60000)) then
    err_bad_request "gateway.writer_send_timeout_ms must be between 50 and 60000"
  else if 600000 <? drain_grace_ms g then
    err_bad_request "gateway.drain_grace_ms must be <= 600000"
  else Ok tt.

(** [TenantPolicy::validate]. *)
Definition policy_validate (p : TenantPolicy) : Result unit :=
  if (rate_limit_rps p =? 0) || (rate_limit_burst p =? 0) then
    err_bad_request "policy.rate_limit_rps and rate_limit_burst must be > 0"
  else
    match sp_mode (sessions_policy p) with
    | Single =>
        if negb (max_sessions_per_user (sessions_policy p) =? 1) then
          err_bad_request "policy.sessions.mode=single requires max_sessions_per_user=1"
        else Ok tt
    | Multi =>
        if max_sessions_per_user (sessions_policy p) =? 0 then
          err_bad_request "policy.sessions.max_sessions_per_user must be > 0"
        else Ok tt
    end.

(** [TenantConfig::validate]. *)
Definition tenant_validate (t : TenantConfig) : Result unit :=
  if max_frame_bytes (limits t) =? 0 then
    err_bad_request "limits.max_frame_bytes must be > 0"
  else policy_validate (policy t).

(** The loop over the tenants, with the ids seen so far. *)
Fixpoint validate_tenants (seen : gset string) (ts : list TenantConfig) : Result unit :=
  match ts with
  | [] => Ok tt
  | t :: ts' =>
      if is_blank (tenant_id t) then err_bad_request "tenant.id must not be empty"
      else if bool_decide (tenant_id t ∈ seen) then
        err_bad_request ("duplicate tenant id: " +:+ tenant_id t)
      else
        let? _ := tenant_validate t in
        validate_tenants ({[tenant_id t]} ∪ seen) ts'
  end.

(** [GatewayConfig::validate]. *)
Definition config_validate (c : GatewayConfig) : Result unit :=
  if negb (version c =? 1) then Err EUnsupportedVersion
  else match tenants c with
  | [] => err_bad_request "tenants must not be empty"
  | _ =>
      let? _ := validate_tenants ∅ (tenants c) in
      gateway_validate (gateway c)
  end.

(** [config::load_from_str], on what [serde_yaml::from_str] returns: a config,
    or its error message. *)
Definition load_from_str (from_yaml : string → GatewayConfig + string) (s : string)
    : Result GatewayConfig :=
  match from_yaml s with
  | inr e => err_bad_request ("invalid yaml: " +:+ e)
  | inl cfg => let? _ := config_validate cfg in Ok cfg
  end.

(** ** What a valid configuration is *)

Definition gateway_ok (g : GatewaySection) : Prop :=
  5000 ≤ ping_interval_ms g ≤ 120000
  ∧ 10000 ≤ idle_timeout_ms g ≤ 600000
  ∧ ping_interval_ms g < idle_timeout_ms g
  ∧ 50 ≤ writer_send_timeout_ms g ≤ 60000
  ∧ drain_grace_ms g ≤ 600000.

Definition policy_ok (p : TenantPolicy) : Prop :=
  rate_limit_rps p ≠ 0 ∧ rate_limit_burst p ≠ 0
  ∧ match sp_mode (sessions_policy p) with
    | Single => max_sessions_per_user (sessions_policy p) = 1
    | Multi => max_sessions_per_user (sessions_policy p) ≠ 0
    end.

Definition tenant_ok (t : TenantConfig) : Prop :=
  max_frame_bytes (limits t) ≠ 0 ∧ policy_ok (policy t).

Record config_ok (c : GatewayConfig) : Prop := {
  ok_version : version c = 1;
  ok_nonempty : tenants c ≠ [];
  ok_ids : Forall (λ t, is_blank (tenant_id t) = false) (tenants c);
  ok_unique : NoDup (tenant_id <$> tenants c);
  ok_tenants : Forall tenant_ok (tenants c);
  ok_gateway : gateway_ok (gateway c);
}.

(** The values fit the integer types of the schema. *)
Definition policy_typed (p : TenantPolicy) : Prop :=
  is_u32 (rate_limit_rps p) ∧ is_u32 (rate_limit_burst p)
  ∧ is_u32 (max_sessions_per_user (sessions_policy p)).

(** Close a goal on a chain of boolean checks. *)
Ltac checks := split_ifs; unbool; naive_solver lia.

Lemma gateway_validate_ok g : gateway_validate g = Ok tt ↔ gateway_ok g.
Proof.
  rewrite /gateway_validate /gateway_ok. split_ifs; unbool; split; intros; try done; try lia;
    naive_solver lia.
Qed.

Lemma policy_validate_ok p : policy_validate p = Ok tt ↔ policy_ok p.
Proof.
  rewrite /policy_validate /policy_ok. destruct (sp_mode _); checks.
Qed.

Lemma tenant_validate_ok t : tenant_validate t = Ok tt ↔ tenant_ok t.
Proof.
  rewrite /tenant_validate /tenant_ok -policy_validate_ok. checks.
Qed.

Lemma validate_tenants_ok seen ts :
  validate_tenants seen ts = Ok tt
  ↔ Forall (λ t, is_blank (tenant_id t) = false) ts ∧ Forall tenant_ok ts
    ∧ NoDup (tenant_id <$> ts) ∧ (∀ t, t ∈ ts → tenant_id t ∉ seen).
Proof.
  revert seen. induction ts as [|t ts IH]; intros seen; cbn [validate_tenants].
  { split; [|done]. intros _. split_and!; try constructor. set_solver. }
  rewrite !Forall_cons fmap_cons NoDup_cons list_elem_of_fmap -tenant_validate_ok.
  destruct (is_blank (tenant_id t)) eqn:Eb.
  { split; [done|]. by intros [[? _] _]. }
  case_bool_decide as Es.
  { split; [done|]. intros (_&_&_&Hs). destruct (Hs t); [by constructor|done]. }
  destruct (tenant_validate t) as [[]|e] eqn:Ev.
  2:{ split; [done|]. by intros (_&[? _]&_). }
  rewrite IH. split.
  - intros (Hb & Ht & Hn & Hs). split_and!; try done.
    + intros (t' & Ht' & Hin). specialize (Hs t' Hin). set_solver.
    + intros t' [->|Hin]%elem_of_cons; [done|]. specialize (Hs t' Hin). set_solver.
  - intros ([_ Hb] & [_ Ht] & [Hn Hnd] & Hs). split_and!; try done.
    intros t' Hin. assert (tenant_id t' ≠ tenant_id t) by (intros Heq; apply Hn; eauto).
    specialize (Hs t' ltac:(by constructor)). set_solver.
Qed.

Lemma config_validate_ok c : config_validate c = Ok tt ↔ config_ok c.
Proof.
  rewrite /config_validate. destruct (version c =? 1) eqn:Ev; unbool; cbn [negb].
  2:{ split; [done|]. by intros []. }
  destruct (tenants c) as [|t ts] eqn:Et.
  { split; [done|]. intros []. congruence. }
  rewrite -Et. destruct (validate_tenants ∅ (tenants c)) as [[]|e] eqn:Ets.
  - apply validate_tenants_ok in Ets as (?&?&?&_). rewrite gateway_validate_ok.
    split; [|by intros []]. intros. split; try done. congruence.
  - split; [done|]. intros []. cut (validate_tenants ∅ (tenants c) = Ok tt); [congruence|].
    apply validate_tenants_ok. by split_and!.
Qed.

(** Loading accepts exactly the configurations the schema promises, and
    changes nothing in them: version 1, at least one tenant, ids that are not
    blank and all different, positive frame sizes and rates, a session policy
    that fits its mode, and timeouts in range with the idle timeout beyond the
    ping interval. *)
Theorem load_from_str_ok from_yaml s cfg :
  load_from_str from_yaml s = Ok cfg ↔ from_yaml s = inl cfg ∧ config_ok cfg.
Proof.
  rewrite /load_from_str -config_validate_ok. destruct (from_yaml s) as [c|e]; [|naive_solver].
  destruct (config_validate c) as [[]|e] eqn:E; [naive_solver|].
  split; [done|]. intros [[= ->] ?]. congruence.
Qed.

Lemma policy_validate_err p e : policy_validate p = Err e → client_code e = BadRequest.
Proof. rewrite /policy_validate. destruct (sp_mode _); split_ifs; by intros [= <-]. Qed.

Lemma tenant_validate_err t e : tenant_validate t = Err e → client_code e = BadRequest.
Proof. rewrite /tenant_validate. split_ifs; [by intros [= <-]|]. apply policy_validate_err. Qed.

Lemma validate_tenants_err seen ts e :
  validate_tenants seen ts = Err e → client_code e = BadRequest.
Proof.
  revert seen. induction ts as [|t ts IH]; intros seen; cbn [validate_tenants]; [done|].
  split_ifs; [by intros [= <-]..|].
  destruct (tenant_validate t) as [[]|e'] eqn:Ev; [apply IH|].
  intros [= <-]. by eapply tenant_validate_err.
Qed.

(** Every rejected configuration is reported to the operator as a bad
    request, except one whose schema version is not 1, which is reported as an
    unsupported version. *)
Theorem load_from_str_err from_yaml s e :
  load_from_str from_yaml s = Err e →
  client_code e = BadRequest
  ∨ (e = EUnsupportedVersion ∧ ∃ cfg, from_yaml s = inl cfg ∧ version cfg ≠ 1).
Proof.
  rewrite /load_from_str. destruct (from_yaml s) as [c|m]; [|intros [= <-]; by left].
  rewrite /config_validate. destruct (version c =? 1) eqn:Ev; unbool; cbn [negb].
  2:{ intros [= <-]. eauto. }
  destruct (tenants c) as [|t ts] eqn:Et; [intros [= <-]; by left|]. rewrite -Et.
  destruct (validate_tenants ∅ (tenants c)) as [[]|e'] eqn:Ets.
  - rewrite /gateway_validate. split_ifs; intros [= <-]; by left.
  - intros [= <-]. left. by eapply validate_tenants_err.
Qed.

(** A section that is written but empty is the section left out. *)
Lemma fill_empty_sections :
  fill_handshake (mkRawHandshake None None None None None None) = HandshakeConfig_default
  ∧ fill_gateway (mkRawGateway None None None None None None) = GatewaySection_default
  ∧ fill_limits (mkRawLimits None None None None None) = TenantLimits_default
  ∧ fill_sessions (mkRawSessions None None None) = SessionPolicy_default
  ∧ fill_policy (mkRawPolicy None None None None None None None None) = TenantPolicy_default.
Proof. done. Qed.

(** Defaults are safe. A configuration that names its tenants and nothing
    else is valid as soon as the names are non-blank and distinct, whether the
    sections are left out or written and left empty; the Hot Lane is then
    closed and only [room:join] and [room:leave] are allowed. *)
Theorem minimal_config_ok (ids : list string) (empty : bool) :
  let rg := if empty then Some (mkRawGateway None None None None None None) else None in
  let rl := if empty then Some (mkRawLimits None None None None None) else None in
  let rp := if empty then Some (mkRawPolicy None None None None None None None None) else None in
  let cfg := fill_config (mkRawConfig 1 rg (Some ((λ i, mkRawTenant i rl rp) <$> ids))) in
  ids ≠ [] → NoDup ids → Forall (λ i, is_blank i = false) ids →
  config_ok cfg
  ∧ Forall (λ t, hot_allowlist (policy t) = []
                 ∧ ext_allowlist (policy t) = ["room:join"; "room:leave"]) (tenants cfg).
Proof.
  intros rg rl rp cfg Hne Hnd Hb.
  set (T := λ i, mkTenantConfig i TenantLimits_default TenantPolicy_default).
  assert (tenants cfg = T <$> ids) as Ht.
  { rewrite /cfg /rl /rp /=. clear. induction ids as [|i ids IH]; [done|].
    cbn. rewrite IH. by destruct empty. }
  split; [split|]; rewrite ?Ht.
  - done.
  - by destruct ids.
  - by apply Forall_fmap.
  - rewrite -list_fmap_compose (list_fmap_ext _ id) ?list_fmap_id //.
  - apply Forall_fmap, Forall_true => i. by split_and!.
  - rewrite /cfg /rg. by destruct empty.
  - apply Forall_fmap, Forall_true => i. done.
Qed.

Lemma load_from_str_err_witness :
  client_code EUnsupportedVersion = BadRequest
  ∨ (EUnsupportedVersion = EUnsupportedVersion
     ∧ ∃ cfg, (λ _ : string, inl (fill_config (mkRawConfig 2 None None)) : GatewayConfig + string)
                "version: 2" = inl cfg
              ∧ version cfg ≠ 1).
Proof. by apply (load_from_str_err (λ _, inl (fill_config (mkRawConfig 2 None None))) "version: 2").
Defined.

(** [ok_minimal_config] of the crate's tests. *)
Lemma minimal_config_ok_witness :
  config_ok (fill_config (mkRawConfig 1 None (Some [mkRawTenant "acme" None None]))).
Proof.
  apply (minimal_config_ok ["acme"] false).
  - done.
  - apply NoDup_singleton.
  - by apply Forall_singleton.
Defined.
