(* ===== verification/Schema.v ===== *)
(** * The configuration file, field by field
      ([wsprism-gateway/src/config/schema.rs])

    The deserializers that the [#[derive(Deserialize)]] and [#[serde]]
    attributes of the configuration define: unknown fields are refused
    ([deny_unknown_fields]), names of variants are in snake case, absent
    fields take their defaults (the [fill] functions of [Config.v]).  YAML is
    read by the [serde_yaml] crate, outside this repository: a node of a
    document is what it shows when a string, a boolean, an integer, a
    sequence, a variant or a struct is asked of it. *)

From S2P Require Import Prelude Errors Config.

(** ** Documents *)

(** A node: each view may be an error of the crate's own. *)
Inductive Node := mkNode
  (str : result string string)
  (bool_ : result string bool)
  (int : result string Z)
  (seq : result string (list Node))
  (variant : result string string)
  (struct : StructView)
(** A struct is shown as named entries, or as a sequence. *)
with StructView :=
| VMap (entries : list (string * Node))
| VSeq (items : list Node)
| VErr (e : string).

Definition nd_str (n : Node) := let '(mkNode x _ _ _ _ _) := n in x.
Definition nd_bool (n : Node) := let '(mkNode _ x _ _ _ _) := n in x.
Definition nd_int (n : Node) := let '(mkNode _ _ x _ _ _) := n in x.
Definition nd_seq (n : Node) := let '(mkNode _ _ _ x _ _) := n in x.
Definition nd_variant (n : Node) := let '(mkNode _ _ _ _ x _) := n in x.
Definition nd_struct (n : Node) := let '(mkNode _ _ _ _ _ x) := n in x.

Inductive SchemaError :=
| YMissing (field : string)
| YDuplicate (field : string)
| YUnknown (field : string)
| YVariant (name : string)
| YRange (z : Z)
| YLength (n : nat)
| YOther (e : string).

(** ** Values *)

Definition y_string (n : Node) : result SchemaError string := map_err YOther (nd_str n).
Definition y_bool (n : Node) : result SchemaError bool := map_err YOther (nd_bool n).

(** [u32], [u64] and [usize]. *)
Definition y_uint (max : Z) (n : Node) : result SchemaError Z :=
  let? z := map_err YOther (nd_int n) in
  if (0 <=? z) && (z <=? max) then Ok z else Err (YRange z).
Definition y_u32 : Node → result SchemaError Z := y_uint u32_max.
Definition y_u64 : Node → result SchemaError Z := y_uint u64_max.

(** [Vec<T>]. *)
Definition y_vec {A} (de : Node → result SchemaError A) (n : Node) : result SchemaError (list A) :=
  let? l := map_err YOther (nd_seq n) in try_map de l.

(** An enum of unit variants, by the names of the variants. *)
Definition y_enum {A} (variants : list (string * A)) (n : Node) : result SchemaError A :=
  let? v := map_err YOther (nd_variant n) in
  match List.find (λ x, String.eqb x.1 v) variants with
  | Some (_, a) => Ok a
  | None => Err (YVariant v)
  end.

Definition y_scope : Node → result SchemaError RateLimitScope :=
  y_enum [("tenant", ScopeTenant); ("connection", ScopeConnection); ("both", ScopeBoth)].
Definition y_hot_error : Node → result SchemaError HotErrorMode :=
  y_enum [("sys_error", SysError); ("silent", Silent)].
Definition y_mode : Node → result SchemaError SessionMode := y_enum [("single", Single); ("multi", Multi)].
Definition y_exceed : Node → result SchemaError OnExceed :=
  y_enum [("deny", Deny); ("kick_oldest", KickOldest)].

(** ** Structs *)

(** The entry of a field. *)
Fixpoint field (es : list (string * Node)) (k : string) : option Node :=
  match es with
  | [] => None
  | (k', x) :: es' => if String.eqb k' k then Some x else field es' k
  end.

(** The fields of a struct, in order, and whether a value deserializes. *)
Definition Fields : Type := list (string * (Node → result SchemaError unit)).

Definition reads {A} (de : Node → result SchemaError A) (n : Node) : result SchemaError unit :=
  let? _ := de n in Ok tt.

(** The loop of the derived [visit_map] over the entries: a name the struct
    does not have is refused ([deny_unknown_fields]), so is a name for the
    second time, and the value is deserialized as the entry is met. *)
Fixpoint visit_entries (fs : Fields) (seen : list string) (es : list (string * Node))
    : result SchemaError unit :=
  match es with
  | [] => Ok tt
  | (k, x) :: es' =>
      match List.find (λ f, String.eqb f.1 k) fs with
      | None => Err (YUnknown k)
      | Some (_, check) =>
          if existsb (String.eqb k) seen then Err (YDuplicate k)
          else
            let? _ := check x in
            visit_entries fs (k :: seen) es'
      end
  end.

(** A field with a default, [None] when it is absent, and a field without. *)
Definition opt {A} (es : list (string * Node)) (k : string) (de : Node → result SchemaError A)
    : result SchemaError (option A) :=
  match field es k with
  | None => Ok None
  | Some x => let? v := de x in Ok (Some v)
  end.

Definition req {A} (missing : SchemaError) (es : list (string * Node)) (k : string)
    (de : Node → result SchemaError A) : result SchemaError A :=
  match field es k with
  | None => Err missing
  | Some x => de x
  end.

(** The derived visitor. [visit_map] reads the entries, then takes each field
    from its slot. [visit_seq] gives the items to the fields in their order;
    the fields beyond the last item take their defaults, or the length is
    wrong; items beyond the last field are refused by the crate. *)
Definition y_struct {R} (fs : Fields)
    (build : (string → SchemaError) → list (string * Node) → result SchemaError R)
    (n : Node) : result SchemaError R :=
  match nd_struct n with
  | VErr e => Err (YOther e)
  | VMap es =>
      let? _ := visit_entries fs [] es in
      build YMissing es
  | VSeq items =>
      let es := zip (map fst fs) items in
      let? _ := visit_entries fs [] es in
      let? r := build (λ _, YLength (length items)) es in
      if (length fs <? length items)%nat then Err (YLength (length items)) else Ok r
  end.

(** ** The structs of the schema *)

Definition handshake_fields : Fields :=
  [("enabled", reads y_bool); ("global_burst", reads y_u32); ("global_rps", reads y_u32);
   ("per_ip_burst", reads y_u32); ("per_ip_rps", reads y_u32); ("max_ip_entries", reads y_u64)].

Definition build_handshake (_ : string → SchemaError) (es : list (string * Node))
    : result SchemaError RawHandshake :=
  let? en := opt es "enabled" y_bool in
  let? gb := opt es "global_burst" y_u32 in
  let? gr := opt es "global_rps" y_u32 in
  let? ib := opt es "per_ip_burst" y_u32 in
  let? ir := opt es "per_ip_rps" y_u32 in
  let? mx := opt es "max_ip_entries" y_u64 in
  Ok (mkRawHandshake en gb gr ib ir mx).

Definition read_handshake : Node → result SchemaError RawHandshake :=
  y_struct handshake_fields build_handshake.

Definition gateway_fields : Fields :=
  [("listen", reads y_string); ("ping_interval_ms", reads y_u64); ("idle_timeout_ms", reads y_u64);
   ("writer_send_timeout_ms", reads y_u64); ("drain_grace_ms", reads y_u64);
   ("handshake_limit", reads read_handshake)].

Definition build_gateway (_ : string → SchemaError) (es : list (string * Node))
    : result SchemaError RawGateway :=
  let? ls := opt es "listen" y_string in
  let? pg := opt es "ping_interval_ms" y_u64 in
  let? id := opt es "idle_timeout_ms" y_u64 in
  let? wr := opt es "writer_send_timeout_ms" y_u64 in
  let? dr := opt es "drain_grace_ms" y_u64 in
  let? hs := opt es "handshake_limit" read_handshake in
  Ok (mkRawGateway ls pg id wr dr hs).

Definition read_gateway : Node → result SchemaError RawGateway := y_struct gateway_fields build_gateway.

Definition limits_fields : Fields :=
  [("max_frame_bytes", reads y_u64); ("max_sessions_total", reads y_u64);
   ("max_rooms_total", reads y_u64); ("max_users_per_room", reads y_u64);
   ("max_rooms_per_user", reads y_u64)].

Definition build_limits (_ : string → SchemaError) (es : list (string * Node))
    : result SchemaError RawLimits :=
  let? fb := opt es "max_frame_bytes" y_u64 in
  let? st := opt es "max_sessions_total" y_u64 in
  let? rt := opt es "max_rooms_total" y_u64 in
  let? ur := opt es "max_users_per_room" y_u64 in
  let? ru := opt es "max_rooms_per_user" y_u64 in
  Ok (mkRawLimits fb st rt ur ru).

Definition read_limits : Node → result SchemaError RawLimits := y_struct limits_fields build_limits.

Definition sessions_fields : Fields :=
  [("mode", reads y_mode); ("max_sessions_per_user", reads y_u32); ("on_exceed", reads y_exceed)].

Definition build_sessions (_ : string → SchemaError) (es : list (string * Node))
    : result SchemaError RawSessions :=
  let? md := opt es "mode" y_mode in
  let? mx := opt es "max_sessions_per_user" y_u32 in
  let? ex := opt es "on_exceed" y_exceed in
  Ok (mkRawSessions md mx ex).

Definition read_sessions : Node → result SchemaError RawSessions := y_struct sessions_fields build_sessions.

Definition policy_fields : Fields :=
  [("rate_limit_rps", reads y_u32); ("rate_limit_burst", reads y_u32);
   ("rate_limit_scope", reads y_scope); ("ext_allowlist", reads (y_vec y_string));
   ("hot_allowlist", reads (y_vec y_string)); ("sessions", reads read_sessions);
   ("hot_error_mode", reads y_hot_error); ("hot_requires_active_room", reads y_bool)].

Definition build_policy (_ : string → SchemaError) (es : list (string * Node))
    : result SchemaError RawPolicy :=
  let? rr := opt es "rate_limit_rps" y_u32 in
  let? rb := opt es "rate_limit_burst" y_u32 in
  let? sc := opt es "rate_limit_scope" y_scope in
  let? ext := opt es "ext_allowlist" (y_vec y_string) in
  let? hot := opt es "hot_allowlist" (y_vec y_string) in
  let? ss := opt es "sessions" read_sessions in
  let? he := opt es "hot_error_mode" y_hot_error in
  let? ha := opt es "hot_requires_active_room" y_bool in
  Ok (mkRawPolicy rr rb sc ext hot ss he ha).

Definition read_policy : Node → result SchemaError RawPolicy := y_struct policy_fields build_policy.

Definition tenant_fields : Fields :=
  [("id", reads y_string); ("limits", reads read_limits); ("policy", reads read_policy)].

Definition build_tenant (missing : string → SchemaError) (es : list (string * Node))
    : result SchemaError RawTenant :=
  let? id := req (missing "id") es "id" y_string in
  let? lm := opt es "limits" read_limits in
  let? pl := opt es "policy" read_policy in
  Ok (mkRawTenant id lm pl).

Definition read_tenant : Node → result SchemaError RawTenant := y_struct tenant_fields build_tenant.

Definition config_fields : Fields :=
  [("version", reads y_u32); ("gateway", reads read_gateway); ("tenants", reads (y_vec read_tenant))].

Definition build_config (missing : string → SchemaError) (es : list (string * Node))
    : result SchemaError RawConfig :=
  let? vs := req (missing "version") es "version" y_u32 in
  let? gw := opt es "gateway" read_gateway in
  let? ts := opt es "tenants" (y_vec read_tenant) in
  Ok (mkRawConfig vs gw ts).

Definition read_config : Node → result SchemaError RawConfig := y_struct config_fields build_config.

(** [impl Deserialize for GatewayConfig]. *)
Definition config_deserialize (n : Node) : result SchemaError GatewayConfig :=
  let? r := read_config n in Ok (fill_config r).

(** [serde_yaml::from_str::<GatewayConfig>], over how the crate reads a
    document and how it words an error. *)
Definition from_yaml (doc : string → result string Node) (word : SchemaError → string) (s : string)
    : GatewayConfig + string :=
  match doc s with
  | Err e => inr e
  | Ok n =>
      match config_deserialize n with
      | Ok cfg => inl cfg
      | Err e => inr (word e)
      end
  end.

(** ** What a document means *)

(** The entries a node shows to a struct with these fields, in their names:
    as a mapping, each name at most once and none but the fields; as a
    sequence, the fields in order and not too many of them. *)
Definition shown (names : list string) (n : Node) (es : list (string * Node)) : Prop :=
  match nd_struct n with
  | VMap es' => es = es' ∧ NoDup es.*1 ∧ es.*1 ⊆ names
  | VSeq items => es = zip names items ∧ (length items ≤ length names)%nat
  | VErr _ => False
  end.

(** The field holds [v], or is absent and [v] is its default. *)
Definition slot {A} (es : list (string * Node)) (k : string) (R : Node → A → Prop) (d v : A) : Prop :=
  match field es k with
  | None => v = d
  | Some x => R x v
  end.

(** The field holds [v]. *)
Definition given {A} (es : list (string * Node)) (k : string) (R : Node → A → Prop) (v : A) : Prop :=
  ∃ x, field es k = Some x ∧ R x v.

Definition is_string (n : Node) (s : string) : Prop := nd_str n = Ok s.
Definition is_bool (n : Node) (b : bool) : Prop := nd_bool n = Ok b.
Definition is_int (max : Z) (n : Node) (z : Z) : Prop := nd_int n = Ok z ∧ 0 ≤ z ≤ max.
Definition is_list {A} (R : Node → A → Prop) (n : Node) (l : list A) : Prop :=
  ∃ items, nd_seq n = Ok items ∧ Forall2 R items l.

Inductive is_scope (n : Node) : RateLimitScope → Prop :=
| is_scope_tenant : nd_variant n = Ok "tenant" → is_scope n ScopeTenant
| is_scope_connection : nd_variant n = Ok "connection" → is_scope n ScopeConnection
| is_scope_both : nd_variant n = Ok "both" → is_scope n ScopeBoth.

Inductive is_hot_error (n : Node) : HotErrorMode → Prop :=
| is_sys_error : nd_variant n = Ok "sys_error" → is_hot_error n SysError
| is_silent : nd_variant n = Ok "silent" → is_hot_error n Silent.

Inductive is_mode (n : Node) : SessionMode → Prop :=
| is_single : nd_variant n = Ok "single" → is_mode n Single
| is_multi : nd_variant n = Ok "multi" → is_mode n Multi.

Inductive is_exceed (n : Node) : OnExceed → Prop :=
| is_deny : nd_variant n = Ok "deny" → is_exceed n Deny
| is_kick_oldest : nd_variant n = Ok "kick_oldest" → is_exceed n KickOldest.

Definition means_handshake (n : Node) (h : HandshakeConfig) : Prop :=
  ∃ es, shown ["enabled"; "global_burst"; "global_rps"; "per_ip_burst"; "per_ip_rps";
               "max_ip_entries"] n es
  ∧ slot es "enabled" is_bool false (hs_enabled h)
  ∧ slot es "global_burst" (is_int u32_max) 200 (global_burst h)
  ∧ slot es "global_rps" (is_int u32_max) 100 (global_rps h)
  ∧ slot es "per_ip_burst" (is_int u32_max) 50 (per_ip_burst h)
  ∧ slot es "per_ip_rps" (is_int u32_max) 10 (per_ip_rps h)
  ∧ slot es "max_ip_entries" (is_int u64_max) 50000 (max_ip_entries h).

Definition means_gateway (n : Node) (g : GatewaySection) : Prop :=
  ∃ es, shown ["listen"; "ping_interval_ms"; "idle_timeout_ms"; "writer_send_timeout_ms";
               "drain_grace_ms"; "handshake_limit"] n es
  ∧ slot es "listen" is_string "0.0.0.0:8080" (listen g)
  ∧ slot es "ping_interval_ms" (is_int u64_max) 20000 (ping_interval_ms g)
  ∧ slot es "idle_timeout_ms" (is_int u64_max) 60000 (idle_timeout_ms g)
  ∧ slot es "writer_send_timeout_ms" (is_int u64_max) 1500 (writer_send_timeout_ms g)
  ∧ slot es "drain_grace_ms" (is_int u64_max) 2000 (drain_grace_ms g)
  ∧ slot es "handshake_limit" means_handshake HandshakeConfig_default (handshake_limit g).

Definition means_limits (n : Node) (l : TenantLimits) : Prop :=
  ∃ es, shown ["max_frame_bytes"; "max_sessions_total"; "max_rooms_total"; "max_users_per_room";
               "max_rooms_per_user"] n es
  ∧ slot es "max_frame_bytes" (is_int u64_max) 4096 (max_frame_bytes l)
  ∧ slot es "max_sessions_total" (is_int u64_max) 0 (max_sessions_total l)
  ∧ slot es "max_rooms_total" (is_int u64_max) 0 (max_rooms_total l)
  ∧ slot es "max_users_per_room" (is_int u64_max) 0 (max_users_per_room l)
  ∧ slot es "max_rooms_per_user" (is_int u64_max) 0 (max_rooms_per_user l).

Definition means_sessions (n : Node) (p : SessionPolicy) : Prop :=
  ∃ es, shown ["mode"; "max_sessions_per_user"; "on_exceed"] n es
  ∧ slot es "mode" is_mode Multi (sp_mode p)
  ∧ slot es "max_sessions_per_user" (is_int u32_max) 4 (max_sessions_per_user p)
  ∧ slot es "on_exceed" is_exceed Deny (on_exceed p).

Definition means_policy (n : Node) (p : TenantPolicy) : Prop :=
  ∃ es, shown ["rate_limit_rps"; "rate_limit_burst"; "rate_limit_scope"; "ext_allowlist";
               "hot_allowlist"; "sessions"; "hot_error_mode"; "hot_requires_active_room"] n es
  ∧ slot es "rate_limit_rps" (is_int u32_max) 200 (rate_limit_rps p)
  ∧ slot es "rate_limit_burst" (is_int u32_max) 400 (rate_limit_burst p)
  ∧ slot es "rate_limit_scope" is_scope ScopeConnection (rate_limit_scope p)
  ∧ slot es "ext_allowlist" (is_list is_string) ["room:join"; "room:leave"] (ext_allowlist p)
  ∧ slot es "hot_allowlist" (is_list is_string) [] (hot_allowlist p)
  ∧ slot es "sessions" means_sessions SessionPolicy_default (sessions_policy p)
  ∧ slot es "hot_error_mode" is_hot_error SysError (hot_error_mode p)
  ∧ slot es "hot_requires_active_room" is_bool true (hot_requires_active_room p).

Definition means_tenant (n : Node) (t : TenantConfig) : Prop :=
  ∃ es, shown ["id"; "limits"; "policy"] n es
  ∧ given es "id" is_string (tenant_id t)
  ∧ slot es "limits" means_limits TenantLimits_default (limits t)
  ∧ slot es "policy" means_policy TenantPolicy_default (policy t).

Definition means_config (n : Node) (c : GatewayConfig) : Prop :=
  ∃ es, shown ["version"; "gateway"; "tenants"] n es
  ∧ given es "version" (is_int u32_max) (version c)
  ∧ slot es "gateway" means_gateway GatewaySection_default (gateway c)
  ∧ slot es "tenants" (is_list means_tenant) [] (tenants c).

(** ** The visitor *)

Lemma elem_of_field (es : list (string * Node)) k x : NoDup es.*1 → (k, x) ∈ es → field es k = Some x.
Proof.
  induction es as [|[k' x'] es IH]; intros Hnd Hin; [by apply not_elem_of_nil in Hin|].
  cbn in *. apply NoDup_cons in Hnd as [Hk Hnd]. apply elem_of_cons in Hin as [[= <- <-]|Hin].
  - by rewrite String.eqb_refl.
  - destruct (String.eqb_spec k' k) as [->|]; [|by auto].
    destruct Hk. apply list_elem_of_fmap. by exists (k, x).
Qed.

Lemma find_field (fs : Fields) k : k ∈ fs.*1 ↔ is_Some (List.find (λ f, String.eqb f.1 k) fs).
Proof.
  induction fs as [|[k' c] fs IH]; cbn.
  - split; [by intros ?%not_elem_of_nil|by intros [? [=]]].
  - rewrite elem_of_cons. destruct (String.eqb_spec k' k) as [->|].
    + split; [by eauto|by left].
    + rewrite IH. naive_solver.
Qed.

(** The entries that are read: distinct, known, and each value readable. *)
Lemma visit_entries_ok fs seen es :
  visit_entries fs seen es = Ok tt
  ↔ NoDup es.*1 ∧ es.*1 ⊆ fs.*1 ∧ (∀ k, k ∈ es.*1 → k ∉ seen)
    ∧ Forall (λ e, ∀ f, List.find (λ f, String.eqb f.1 e.1) fs = Some f → f.2 e.2 = Ok tt) es.
Proof.
  revert seen. induction es as [|[k x] es IH]; intros seen; cbn [visit_entries fmap list_fmap].
  { split; [|done]. intros _. split_and!; [constructor|apply list_subseteq_nil|by intros ? ?%not_elem_of_nil|constructor]. }
  rewrite NoDup_cons Forall_cons. cbn [fst snd].
  destruct (List.find _ fs) as [[k' c]|] eqn:Ef; last first.
  { split; [done|]. intros (_ & Hs & _). assert (k ∈ fs.*1) as [? ?]%find_field by set_solver. congruence. }
  assert (k ∈ fs.*1) by (apply find_field; eauto).
  destruct (existsb (String.eqb k) seen) eqn:Es.
  { apply existsb_exists in Es as (k2 & Hin & <-%String.eqb_eq). apply list_elem_of_In in Hin.
    split; [done|]. intros (_ & _ & Hn & _). destruct (Hn k); [by constructor|done]. }
  assert (k ∉ seen).
  { intros Hin. apply not_true_iff_false in Es. apply Es, existsb_exists. exists k.
    rewrite String.eqb_refl -list_elem_of_In. done. }
  destruct (c x) as [[]|e] eqn:Ec; last first.
  { split; [done|]. intros (_ & _ & _ & Hc & _). specialize (Hc _ eq_refl). cbn in Hc. congruence. }
  rewrite IH. split.
  - intros (Hnd & Hs & Hn & Hc). split_and!; [|done|set_solver|set_solver|by intros ? [= <-]|done].
    intros Hin. apply (Hn k Hin). set_solver.
  - intros ([Hk Hnd] & Hs & Hn & _ & Hc). split_and!; [done|set_solver|set_solver|done].
Qed.

Lemma zip_names {A B} (l : list A) (k : list B) : (zip l k).*1 = take (length k) l.
Proof. revert k. induction l as [|x l IH]; intros [|y k]; cbn; [done..|]. by rewrite -IH. Qed.

(** What the builder of a struct takes, the visitor has checked; which error
    a missing field is makes no difference to what is built. *)
Record coherent {R} (fs : Fields)
    (build : (string → SchemaError) → list (string * Node) → result SchemaError R) : Prop := {
  co_names : NoDup fs.*1;
  co_checks m es r : build m es = Ok r → Forall (λ f, ∀ x, field es f.1 = Some x → f.2 x = Ok tt) fs;
  co_missing m m' es r : build m es = Ok r → build m' es = Ok r;
}.

(** A struct is read when the node shows entries it can be built from. *)
Lemma y_struct_ok {R} (fs : Fields) build n (r : R) :
  coherent fs build → y_struct fs build n = Ok r ↔ ∃ es, shown fs.*1 n es ∧ build YMissing es = Ok r.
Proof.
  intros [Hfs Hck Hm].
  assert (∀ m es, NoDup es.*1 → es.*1 ⊆ fs.*1 → build m es = Ok r → visit_entries fs [] es = Ok tt) as Hv.
  { intros m es Hnd Hs Hb. apply visit_entries_ok. split_and!; [done|done|set_solver|].
    apply Forall_forall. intros [k x] Hin [k' c] Hf.
    apply find_some in Hf as [Hf Hk]. cbn in Hk. apply String.eqb_eq in Hk as ->.
    pose proof (Hck m es r Hb) as Hc. rewrite Forall_forall in Hc.
    apply (Hc (k, c)); [by apply list_elem_of_In|]. by apply elem_of_field. }
  rewrite /y_struct /shown. destruct (nd_struct n) as [es|items|e]; last by naive_solver.
  - split.
    + destruct (visit_entries fs [] es) as [[]|] eqn:Ev; [|done]. intros Hb.
      apply visit_entries_ok in Ev as (? & ? & _). eauto.
    + intros (? & (-> & Hnd & Hs) & Hb). by rewrite (Hv _ _ Hnd Hs Hb).
  - change (map fst fs) with fs.*1. set (es := zip fs.*1 items).
    assert (NoDup es.*1) as Hnd.
    { rewrite zip_names. eapply sublist_NoDup; [done|]. apply sublist_take. }
    assert (es.*1 ⊆ fs.*1) as Hs by (rewrite zip_names; apply subseteq_take).
    split.
    + destruct (visit_entries fs [] es) as [[]|] eqn:Ev; [|done].
      destruct (build _ es) as [r'|] eqn:Eb; [|done]. destruct (Nat.ltb_spec (length fs) (length items)); [done|].
      intros [= ->]. exists es. rewrite length_fmap. split; [done|]. eauto.
    + intros (? & (-> & Hl) & Hb). rewrite length_fmap in Hl. fold es in Hb |- *.
      rewrite (Hv _ _ Hnd Hs Hb) (Hm _ _ _ _ Hb). destruct (Nat.ltb_spec (length fs) (length items)); [lia|done].
Qed.

(** ** Fields *)

Lemma opt_reads {A} es k (de : Node → result SchemaError A) o :
  opt es k de = Ok o → ∀ x, field es k = Some x → reads de x = Ok tt.
Proof. rewrite /opt /reads. intros Ho x Hx. rewrite Hx in Ho. by destruct (de x). Qed.

Lemma req_reads {A} m es k (de : Node → result SchemaError A) a :
  req m es k de = Ok a → ∀ x, field es k = Some x → reads de x = Ok tt.
Proof. rewrite /req /reads. intros Ho x Hx. rewrite Hx in Ho. by rewrite Ho. Qed.

Lemma req_any {A} m m' es k (de : Node → result SchemaError A) a :
  req m es k de = Ok a → req m' es k de = Ok a.
Proof. rewrite /req. by destruct (field es k). Qed.

(** [R] is what [de] reads, filled in by [f]. *)
Definition reading {A B} (de : Node → result SchemaError A) (f : A → B) (R : Node → B → Prop) : Prop :=
  ∀ x b, R x b ↔ ∃ a, de x = Ok a ∧ b = f a.

Lemma slot_filled {A B} de (f : A → B) R es k d v :
  reading de f R → slot es k R d v ↔ ∃ o, opt es k de = Ok o ∧ v = default d (f <$> o).
Proof.
  intros HR. rewrite /slot /opt. destruct (field es k) as [x|]; [|naive_solver].
  rewrite HR. split.
  - intros (a & -> & ->). by exists (Some a).
  - intros (o & Ho & ->). destruct (de x) as [a|]; [|done]. injection Ho as <-. by exists a.
Qed.

Lemma slot_plain {A} de R es k (d v : A) :
  reading de id R → slot es k R d v ↔ ∃ o, opt es k de = Ok o ∧ v = default d o.
Proof. intros HR. rewrite (slot_filled de id) //. by setoid_rewrite option_fmap_id. Qed.

Lemma given_req {A} de R es k (v : A) :
  reading de id R → given es k R v ↔ req (YMissing k) es k de = Ok v.
Proof.
  intros HR. rewrite /given /req. destruct (field es k) as [x|]; [|naive_solver].
  split; [intros (? & [= <-] & (a & -> & ->)%HR)|]; [done|]. intros Hd. exists x. rewrite HR. eauto.
Qed.

Create HintDb schema.

Lemma read_string : reading y_string id is_string.
Proof. intros x b. rewrite /y_string /is_string /map_err. destruct (nd_str x); naive_solver. Qed.

Lemma read_bool : reading y_bool id is_bool.
Proof. intros x b. rewrite /y_bool /is_bool /map_err. destruct (nd_bool x); naive_solver. Qed.

Lemma read_uint max : reading (y_uint max) id (is_int max).
Proof.
  intros x b. rewrite /y_uint /is_int /map_err. destruct (nd_int x) as [z|]; [|naive_solver].
  transitivity (z = b ∧ 0 ≤ z ≤ max); [naive_solver|].
  destruct (Z.leb_spec 0 z), (Z.leb_spec z max); cbn; split; try lia; naive_solver.
Qed.

Lemma read_u32 : reading y_u32 id (is_int u32_max).
Proof. apply read_uint. Qed.

Lemma read_u64 : reading y_u64 id (is_int u64_max).
Proof. apply read_uint. Qed.

Lemma read_enum {A} (vs : list (string * A)) (R : Node → A → Prop) :
  (∀ n a, R n a ↔ ∃ v, nd_variant n = Ok v ∧ (v, a) ∈ vs) → NoDup vs.*1 → reading (y_enum vs) id R.
Proof.
  intros HR Hnd x b. rewrite HR /y_enum /map_err. destruct (nd_variant x) as [v|]; [|naive_solver].
  transitivity ((v, b) ∈ vs); [naive_solver|]. clear HR x.
  induction vs as [|[v' a] vs IH]; cbn.
  { split; [by intros ?%not_elem_of_nil|naive_solver]. }
  apply NoDup_cons in Hnd as [Hv Hnd]. rewrite elem_of_cons. destruct (String.eqb_spec v' v) as [->|Hne].
  - split; [|naive_solver]. intros [[= ->]|Hin]; [by eauto|]. destruct Hv.
    apply list_elem_of_fmap. by exists (v, b).
  - rewrite -IH //. naive_solver.
Qed.

Ltac enum :=
  apply read_enum; [|by refine (bool_decide_unpack _ _)];
  intros n a; split;
  [intros []; eexists; (split; [eassumption|]); rewrite !elem_of_cons; naive_solver
  |intros (v & Hv & Hin); repeat (apply elem_of_cons in Hin as [[= -> ->]|Hin]; [by constructor|]);
   by apply not_elem_of_nil in Hin].

Lemma read_scope : reading y_scope id is_scope.
Proof. enum. Qed.

Lemma read_hot_error : reading y_hot_error id is_hot_error.
Proof. enum. Qed.

Lemma read_mode : reading y_mode id is_mode.
Proof. enum. Qed.

Lemma read_exceed : reading y_exceed id is_exceed.
Proof. enum. Qed.

Lemma read_vec {A B} de (f : A → B) R : reading de f R → reading (y_vec de) (map f) (is_list R).
Proof.
  intros HR x l. rewrite /y_vec /is_list /map_err. destruct (nd_seq x) as [items|]; [|naive_solver].
  transitivity (Forall2 R items l); [naive_solver|]. setoid_rewrite try_map_Ok.
  revert l. induction items as [|i items IH]; intros l.
  - split; [intros ->%Forall2_nil_inv_l; by exists []|]. by intros (a & ->%Forall2_nil_inv_l & ->).
  - split.
    + intros (b & l' & (a & Ha & ->)%HR & (as' & Has & ->)%IH & ->)%Forall2_cons_inv_l.
      exists (a :: as'). split; [by constructor|done].
    + intros (as' & (a & as'' & Ha & Has & ->)%Forall2_cons_inv_l & ->). cbn. constructor.
      * apply HR. eauto.
      * apply IH. eauto.
Qed.

Lemma read_strings : reading (y_vec y_string) id (is_list is_string).
Proof.
  intros x l. rewrite (read_vec y_string id is_string read_string x l). by setoid_rewrite map_id.
Qed.

#[local] Hint Resolve read_string read_bool read_u32 read_u64 read_scope read_hot_error read_mode read_exceed
  read_strings : schema.

(** Case analysis on the fields that are read, in order. *)
Ltac fields_read H :=
  repeat match type of H with
         | context [match opt ?es ?k ?de with _ => _ end] =>
             let E := fresh "E" in destruct (opt es k de) eqn:E; [|discriminate H]
         | context [match req ?m ?es ?k ?de with _ => _ end] =>
             let E := fresh "E" in destruct (req m es k de) eqn:E; [|discriminate H]
         end.

Ltac coherence :=
  split;
  [ by refine (bool_decide_unpack _ _)
  | intros m es r H; cbv beta delta [build_handshake build_gateway build_limits build_sessions
      build_policy build_tenant build_config] in H; fields_read H;
    repeat (constructor; [by eauto using opt_reads, req_reads|]); constructor
  | intros m m' es r H; cbv beta delta [build_tenant build_config] in H |- *; fields_read H;
    repeat match goal with E : req _ _ _ _ = Ok _ |- _ => erewrite (req_any _ _ _ _ _ _ E); clear E end;
    repeat match goal with E : opt _ _ _ = Ok _ |- _ => rewrite E; clear E end; exact H ].

Lemma handshake_coherent : coherent handshake_fields build_handshake.
Proof. coherence. Qed.

Lemma gateway_coherent : coherent gateway_fields build_gateway.
Proof. coherence. Qed.

Lemma limits_coherent : coherent limits_fields build_limits.
Proof. coherence. Qed.

Lemma sessions_coherent : coherent sessions_fields build_sessions.
Proof. coherence. Qed.

Lemma policy_coherent : coherent policy_fields build_policy.
Proof. coherence. Qed.

Lemma tenant_coherent : coherent tenant_fields build_tenant.
Proof. coherence. Qed.

Lemma config_coherent : coherent config_fields build_config.
Proof. coherence. Qed.

(** The two directions for a struct whose fields are readable. *)
Ltac struct_reading co :=
  intros n v; split;
  [ intros (es & Hs & Hf);
    repeat match goal with
      | H : _ ∧ _ |- _ => destruct H
      | H : slot _ _ _ _ _ |- _ =>
          first [eapply slot_plain in H; [|by eauto with schema]
                |eapply slot_filled in H; [|by eauto with schema]]; destruct H as (? & ? & ?)
      | H : given _ _ _ _ |- _ => eapply given_req in H; [|by eauto with schema]
      end;
    eexists; split;
    [ apply (y_struct_ok _ _ _ _ co); exists es; split; [exact Hs|];
      cbv beta delta [build_handshake build_gateway build_limits build_sessions
        build_policy build_tenant build_config];
      repeat match goal with H : _ = Ok _ |- _ => rewrite H; clear H end; reflexivity
    | destruct v; cbn in *; subst; reflexivity ]
  | intros (r & H & ->); apply (y_struct_ok _ _ _ _ co) in H as (es & Hs & H);
    exists es; split; [exact Hs|];
    cbv beta delta [build_handshake build_gateway build_limits build_sessions
        build_policy build_tenant build_config] in H; fields_read H; injection H as <-;
    split_and!; first [eapply slot_plain; [by eauto with schema|by eauto]
                      |eapply slot_filled; [by eauto with schema|by eauto]
                      |eapply given_req; [by eauto with schema|by eauto]] ].

Lemma handshake_reading : reading read_handshake fill_handshake means_handshake.
Proof. struct_reading handshake_coherent. Qed.

Lemma limits_reading : reading read_limits fill_limits means_limits.
Proof. struct_reading limits_coherent. Qed.

Lemma sessions_reading : reading read_sessions fill_sessions means_sessions.
Proof. struct_reading sessions_coherent. Qed.

#[local] Hint Resolve handshake_reading limits_reading sessions_reading : schema.

Lemma gateway_reading : reading read_gateway fill_gateway means_gateway.
Proof. struct_reading gateway_coherent. Qed.

Lemma policy_reading : reading read_policy fill_policy means_policy.
Proof. struct_reading policy_coherent. Qed.

#[local] Hint Resolve gateway_reading policy_reading : schema.

Lemma tenant_reading : reading read_tenant fill_tenant means_tenant.
Proof. struct_reading tenant_coherent. Qed.

#[local] Hint Resolve tenant_reading read_vec : schema.

Lemma config_reading : reading read_config fill_config means_config.
Proof. struct_reading config_coherent. Qed.

Lemma config_deserialize_ok n cfg : config_deserialize n = Ok cfg ↔ means_config n cfg.
Proof. rewrite config_reading /config_deserialize. destruct (read_config n); naive_solver. Qed.

(** A document means one configuration at most. *)
Lemma means_config_unique n c c' : means_config n c → means_config n c' → c = c'.
Proof. rewrite -!config_deserialize_ok. congruence. Qed.

Lemma from_yaml_ok doc word s cfg :
  from_yaml doc word s = inl cfg ↔ ∃ n, doc s = Ok n ∧ means_config n cfg.
Proof.
  setoid_rewrite <- config_deserialize_ok. rewrite /from_yaml.
  destruct (doc s) as [n|e]; [|split; [done|by intros (? & ? & _)]].
  destruct (config_deserialize n) as [c|e] eqn:Ed.
  - split; [intros [= <-]; by eauto|]. intros (? & [= <-] & ?). congruence.
  - split; [done|]. intros (? & [= <-] & ?). congruence.
Qed.

(** ** Strictness *)

Inductive Struct := SConfig | SGateway | SHandshake | STenant | SLimits | SPolicy | SSessions.

(** The fields the schema documents. *)
Definition names_of (k : Struct) : list string :=
  match k with
  | SConfig => ["version"; "gateway"; "tenants"]
  | SGateway => ["listen"; "ping_interval_ms"; "idle_timeout_ms"; "writer_send_timeout_ms";
                 "drain_grace_ms"; "handshake_limit"]
  | SHandshake => ["enabled"; "global_burst"; "global_rps"; "per_ip_burst"; "per_ip_rps";
                   "max_ip_entries"]
  | STenant => ["id"; "limits"; "policy"]
  | SLimits => ["max_frame_bytes"; "max_sessions_total"; "max_rooms_total"; "max_users_per_room";
                "max_rooms_per_user"]
  | SPolicy => ["rate_limit_rps"; "rate_limit_burst"; "rate_limit_scope"; "ext_allowlist";
                "hot_allowlist"; "sessions"; "hot_error_mode"; "hot_requires_active_room"]
  | SSessions => ["mode"; "max_sessions_per_user"; "on_exceed"]
  end.

(** [x] is the value of the field [k] of the mapping [n]. *)
Definition under (n : Node) (k : string) (x : Node) : Prop :=
  ∃ es, nd_struct n = VMap es ∧ (k, x) ∈ es.

(** The sections of a document, wherever they are. *)
Inductive section (root : Node) : Struct → Node → Prop :=
| sec_config : section root SConfig root
| sec_gateway n x : section root SConfig n → under n "gateway" x → section root SGateway x
| sec_handshake n x : section root SGateway n → under n "handshake_limit" x → section root SHandshake x
| sec_tenant n x l t : section root SConfig n → under n "tenants" x → nd_seq x = Ok l → t ∈ l →
    section root STenant t
| sec_limits n x : section root STenant n → under n "limits" x → section root SLimits x
| sec_policy n x : section root STenant n → under n "policy" x → section root SPolicy x
| sec_sessions n x : section root SPolicy n → under n "sessions" x → section root SSessions x.

(** The section has a meaning. *)
Definition meaningful (k : Struct) (n : Node) : Prop :=
  match k with
  | SConfig => ∃ v, means_config n v
  | SGateway => ∃ v, means_gateway n v
  | SHandshake => ∃ v, means_handshake n v
  | STenant => ∃ v, means_tenant n v
  | SLimits => ∃ v, means_limits n v
  | SPolicy => ∃ v, means_policy n v
  | SSessions => ∃ v, means_sessions n v
  end.

Lemma meaningful_shown k n : meaningful k n → ∃ es, shown (names_of k) n es.
Proof. destruct k; intros (v & es & Hs & _); by exists es. Qed.

(** A field that is present has the value it holds. *)
Lemma under_slot {A} names n es k x R (d v : A) :
  shown names n es → under n k x → slot es k R d v → R x v.
Proof.
  rewrite /shown /under /slot. intros Hs (es' & Hn & Hin). rewrite Hn in Hs.
  destruct Hs as (-> & Hnd & _). by rewrite (elem_of_field es' k x).
Qed.

(** In a document that means a configuration every section means something. *)
Lemma section_meaningful root c k n : means_config root c → section root k n → meaningful k n.
Proof.
  intros Hc. induction 1 as
    [|n x _ (v & es & Hs & _ & Hg & _) Hu|n x _ (v & es & Hs & _ & _ & _ & _ & _ & Hg) Hu
     |n x l t _ (v & es & Hs & _ & _ & Hg) Hu Hl Ht|n x _ (v & es & Hs & _ & Hg & _) Hu
     |n x _ (v & es & Hs & _ & _ & Hg) Hu|n x _ (v & es & Hs & _ & _ & _ & _ & _ & Hg & _) Hu];
    cbn; [by eauto|try (eexists; by eapply under_slot)..].
  eapply under_slot in Hg as (items & Hi & Hf); [|done..]. rewrite Hi in Hl. injection Hl as ->.
  apply list_elem_of_lookup in Ht as [i Ht].
  destruct (Forall2_lookup_l _ _ _ _ _ Hf Ht) as (v' & _ & Hv). by exists v'.
Qed.

(** C21: reading the configuration. The gateway takes a document exactly when it
    means a configuration and that is valid, and takes that configuration: in each
    section every field appears at most once and is one of the schema; a field that
    is there holds a value of its type and an unsigned integer fits its width, a
    field that is not takes the default of the schema; only the version and the
    ids of tenants must be given. *)
Theorem load_yaml_spec doc word s cfg :
  load_from_str (from_yaml doc word) s = Ok cfg
  ↔ ∃ n, doc s = Ok n ∧ means_config n cfg ∧ config_ok cfg.
Proof.
  split.
  - intros ([n Hn]%from_yaml_ok & Hok)%load_from_str_ok. naive_solver.
  - intros (n & Hd & Hn & Hok). apply load_from_str_ok. rewrite from_yaml_ok. eauto.
Qed.

(** C22: strictness. A name that a section of the document does not have, or has
    twice, in any section however deep, and even where the section is otherwise
    empty, makes loading fail with the error of an invalid document, which is
    a bad request; it is never ignored. *)
Theorem config_strict doc word s root k n es :
  doc s = Ok root → section root k n → nd_struct n = VMap es →
  (¬ es.*1 ⊆ names_of k ∨ ¬ NoDup es.*1) →
  ∃ e, load_from_str (from_yaml doc word) s = err_bad_request ("invalid yaml: " +:+ word e)
       ∧ config_deserialize root = Err e.
Proof.
  intros Hd Hsec Hn Hbad. rewrite /load_from_str /from_yaml Hd.
  destruct (config_deserialize root) as [c|e] eqn:Ec; [|by exists e]. exfalso.
  apply config_deserialize_ok in Ec.
  destruct (meaningful_shown _ _ (section_meaningful _ _ _ _ Ec Hsec)) as (es' & Hs).
  rewrite /shown Hn in Hs. destruct Hs as (-> & Hnd & Hsub). by destruct Hbad.
Qed.

(** ** Documents *)

Module Yaml.

(** Nodes as the crate shows them when the document is plain: scalars that
    are quoted or are not, numbers, sequences and mappings. *)
Definition no {A} : result string A := Err "invalid type".
Definition s (x : string) : Node := mkNode (Ok x) no no no (Ok x) (VErr "invalid type").
Definition b (x : bool) : Node := mkNode no (Ok x) no no no (VErr "invalid type").
Definition i (x : Z) : Node := mkNode no no (Ok x) no no (VErr "invalid type").
Definition l (x : list Node) : Node := mkNode no no no (Ok x) no (VErr "invalid type").
Definition m (x : list (string * Node)) : Node := mkNode no no no no no (VMap x).

(** [deny_unknown_fields_nested] of the crate's tests. *)
Definition misspelt : Node :=
  m [("version", i 1); ("gateway", m [("listen", s "0.0.0.0:8080")]);
     ("tenants", l [m [("id", s "acme"); ("limitz", m [("max_frame_bytes", i 123)])]])].

(** [wsprism.yaml]. *)
Definition shipped : Node :=
  m [("version", i 1);
     ("gateway", m [("listen", s "0.0.0.0:8080"); ("ping_interval_ms", i 20000);
        ("idle_timeout_ms", i 60000); ("writer_send_timeout_ms", i 1500); ("drain_grace_ms", i 5000);
        ("handshake_limit", m [("enabled", b true); ("global_rps", i 500); ("global_burst", i 1000);
           ("per_ip_rps", i 10); ("per_ip_burst", i 20); ("max_ip_entries", i 50000)])]);
     ("tenants", l [
        m [("id", s "starter_plan");
           ("limits", m [("max_frame_bytes", i 4096); ("max_sessions_total", i 1000);
              ("max_rooms_total", i 500); ("max_users_per_room", i 50); ("max_rooms_per_user", i 5)]);
           ("policy", m [("rate_limit_rps", i 50); ("rate_limit_burst", i 100);
              ("rate_limit_scope", s "connection");
              ("sessions", m [("mode", s "single"); ("max_sessions_per_user", i 1);
                 ("on_exceed", s "kick_oldest")]);
              ("ext_allowlist", l [s "room:join"; s "room:leave"; s "chat:send"]);
              ("hot_allowlist", l [])])];
        m [("id", s "enterprise_game");
           ("limits", m [("max_frame_bytes", i 65536); ("max_sessions_total", i 100000);
              ("max_rooms_total", i 10000); ("max_users_per_room", i 200); ("max_rooms_per_user", i 0)]);
           ("policy", m [("rate_limit_rps", i 2000); ("rate_limit_burst", i 4000);
              ("rate_limit_scope", s "connection");
              ("sessions", m [("mode", s "multi"); ("max_sessions_per_user", i 4); ("on_exceed", s "deny")]);
              ("hot_error_mode", s "silent"); ("hot_requires_active_room", b true);
              ("ext_allowlist", l [s "room:*"; s "match:*"; s "chat:*"]);
              ("hot_allowlist", l [s "1:*"; s "2:10"])])];
        m [("id", s "internal_sys");
           ("limits", m [("max_frame_bytes", i 1048576); ("max_sessions_total", i 50);
              ("max_rooms_total", i 0); ("max_users_per_room", i 0); ("max_rooms_per_user", i 0)]);
           ("policy", m [("rate_limit_rps", i 500); ("rate_limit_burst", i 1000);
              ("rate_limit_scope", s "tenant");
              ("sessions", m [("mode", s "multi"); ("max_sessions_per_user", i 10);
                 ("on_exceed", s "kick_oldest")]);
              ("ext_allowlist", l [s "sys:*"; s "metrics:subscribe"])])]])].

End Yaml.

(** The file the repository ships is taken. *)
Example shipped_config :
  ∃ cfg, load_from_str (from_yaml (λ _, Ok Yaml.shipped) (λ _, "error")) "wsprism.yaml" = Ok cfg
  ∧ tenant_id <$> tenants cfg = ["starter_plan"; "enterprise_game"; "internal_sys"]
  ∧ handshake_limit (gateway cfg) = mkHandshakeConfig true 1000 500 20 10 50000
  ∧ (hot_allowlist ∘ policy) <$> tenants cfg = [[]; ["1:*"; "2:10"]; []]
  ∧ (sessions_policy ∘ policy) <$> tenants cfg
    = [mkSessionPolicy Single 1 KickOldest; mkSessionPolicy Multi 4 Deny; mkSessionPolicy Multi 10 KickOldest].
Proof. eexists. split; [by vm_compute|]. by vm_compute. Qed.

(** [ok_minimal_config] of the crate's tests. *)
Example ok_minimal_config :
  config_deserialize (Yaml.m [("version", Yaml.i 1); ("tenants", Yaml.l [Yaml.m [("id", Yaml.s "acme")]])])
  = Ok (mkGatewayConfig 1 GatewaySection_default
          [mkTenantConfig "acme" TenantLimits_default TenantPolicy_default]).
Proof. reflexivity. Qed.

(** The typing error of the test is found where it is. *)
Lemma config_strict_witness :
  load_from_str (from_yaml (λ _, Ok Yaml.misspelt) (λ _, "unknown field")) "bad"
  = err_bad_request "invalid yaml: unknown field"
  ∧ config_deserialize Yaml.misspelt = Err (YUnknown "limitz").
Proof.
  destruct (config_strict (λ _, Ok Yaml.misspelt) (λ _, "unknown field") "bad" Yaml.misspelt STenant
    (Yaml.m [("id", Yaml.s "acme"); ("limitz", Yaml.m [("max_frame_bytes", Yaml.i 123)])])
    [("id", Yaml.s "acme"); ("limitz", Yaml.m [("max_frame_bytes", Yaml.i 123)])]) as (e & He & Hd).
  - reflexivity.
  - eapply sec_tenant; [apply sec_config|eexists; split; [reflexivity|right; right; by left]|..].
    + reflexivity.
    + by left.
  - reflexivity.
  - left. intros Hsub. assert ("limitz" ∈ names_of STenant) as Hin by (apply Hsub; right; by left).
    by apply (bool_decide_unpack ("limitz" ∉ names_of STenant)) in Hin.
  - split; [exact He|reflexivity].
Defined.
