(* ===== verification/Allowlist.v ===== *)
(** * Allowlists ([wsprism-gateway/src/policy/allowlist.rs])

    Compilation of the [svc:type] and [svc_id:opcode] entries of a tenant's
    policy, and matching of inbound traffic against the compiled rules. *)

From S2P Require Import Prelude Errors RustStd.

Record ExtRule := mkExtRule { er_svc : string; er_msg_type : option string }.
Record HotRule := mkHotRule { hr_svc_id : Z; hr_opcode : option Z }.

(** One turn of the loop of [compile_ext_rules]. *)
Definition compile_ext_rule (s : string) : Result ExtRule :=
  let? (svc, ty) := ok_or (EBadRequest ("invalid ext_allowlist entry: " +:+ s
                                         +:+ " (expected svc:type)"))
                          (split_once ":" s) in
  Ok (mkExtRule svc (if bool_decide (ty = "*") then None else Some ty)).

(** [compile_ext_rules]. *)
Definition compile_ext_rules (raw : list string) : Result (list ExtRule) :=
  try_map compile_ext_rule raw.

(** One turn of the loop of [compile_hot_rules]. *)
Definition compile_hot_rule (s : string) : Result HotRule :=
  let? (svc_id_s, op_s) := ok_or (EBadRequest ("invalid hot_allowlist entry: " +:+ s
                                                +:+ " (expected svc_id:opcode)"))
                                 (split_once ":" s) in
  let? svc_id := ok_or (EBadRequest ("invalid hot_allowlist svc_id: " +:+ svc_id_s))
                       (parse_u8 svc_id_s) in
  let? opcode :=
    if bool_decide (op_s = "*") then Ok None
    else let? op := ok_or (EBadRequest ("invalid hot_allowlist opcode: " +:+ op_s))
                          (parse_u8 op_s) in
         Ok (Some op) in
  Ok (mkHotRule svc_id opcode).

(** [compile_hot_rules]. *)
Definition compile_hot_rules (raw : list string) : Result (list HotRule) :=
  try_map compile_hot_rule raw.

(** [is_ext_allowed]. *)
Definition is_ext_allowed (rules : list ExtRule) (svc msg_type : string) : bool :=
  existsb (λ r,
    if negb (bool_decide (er_svc r = svc)) then false
    else match er_msg_type r with
         | None => true
         | Some t => bool_decide (t = msg_type)
         end) rules.

(** [is_hot_allowed]. *)
Definition is_hot_allowed (rules : list HotRule) (svc_id opcode : Z) : bool :=
  existsb (λ r,
    if negb (hr_svc_id r =? svc_id) then false
    else match hr_opcode r with
         | None => true
         | Some op => op =? opcode
         end) rules.

(** ** What an entry means *)

(** An entry [svc:type] or [svc:*]; the service name has no colon, the type
    may. *)
Definition ext_entry_matches (entry svc msg_type : string) : Prop :=
  no_char ":" svc = true ∧ (entry = svc +:+ ":" +:+ msg_type ∨ entry = svc +:+ ":*").

(** An entry [id:opcode] or [id:*], the numbers written in any way [u8] parses. *)
Definition hot_entry_matches (entry : string) (svc_id opcode : Z) : Prop :=
  ∃ a b, no_char ":" a = true ∧ entry = a +:+ ":" +:+ b ∧ parse_u8 a = Some svc_id
         ∧ (b = "*" ∨ parse_u8 b = Some opcode).

(** ** Lemmas *)

(** A compiled Ext rule tests what its entry means. *)
Lemma compile_ext_rule_matches s r svc ty :
  compile_ext_rule s = Ok r →
  ext_entry_matches s svc ty ↔
  (if negb (bool_decide (er_svc r = svc)) then false
   else match er_msg_type r with None => true | Some t => bool_decide (t = ty) end) = true.
Proof.
  rewrite /compile_ext_rule /ext_entry_matches.
  destruct (split_once ":" s) as [[a b]|] eqn:E; [|done]. apply split_once_spec in E as [-> Ha].
  intros [= <-]. cbn [er_svc er_msg_type].
  assert (∀ x, no_char ":" svc = true ∧ a +:+ String ":" b = svc +:+ ":" +:+ x
               ↔ a = svc ∧ b = x) as Hx.
  { intros x. split; [|by intros [<- <-]]. intros [Hsvc H]. by apply (split_unique ":"). }
  transitivity ((a = svc ∧ b = ty) ∨ (a = svc ∧ b = "*")).
  { rewrite -(Hx ty) -(Hx "*"). change (":*") with (":" +:+ "*"). tauto. }
  clear Hx. repeat case_bool_decide; naive_solver.
Qed.

(** A compiled Hot rule tests what its entry means. *)
Lemma compile_hot_rule_matches s r svc_id op :
  compile_hot_rule s = Ok r →
  hot_entry_matches s svc_id op ↔
  (if negb (hr_svc_id r =? svc_id) then false
   else match hr_opcode r with None => true | Some o => o =? op end) = true.
Proof.
  rewrite /compile_hot_rule /hot_entry_matches.
  destruct (split_once ":" s) as [[a b]|] eqn:E; [|done]. apply split_once_spec in E as [-> Ha].
  cbn [ok_or]. destruct (parse_u8 a) as [i|] eqn:Hi; [|done]. cbn [ok_or].
  assert (∀ P : string → string → Prop,
    (∃ a' b', no_char ":" a' = true ∧ a +:+ String ":" b = a' +:+ ":" +:+ b' ∧ P a' b') ↔ P a b)
    as Huniq.
  { intros P. split; [|by eauto].
    intros (a' & b' & Ha' & [-> ->]%(split_unique ":") & HP); done. }
  rewrite (Huniq (λ a b, parse_u8 a = Some svc_id ∧ (b = "*" ∨ parse_u8 b = Some op))).
  case_bool_decide as Hb.
  - intros [= <-]. cbn. destruct (i =? svc_id) eqn:Ei; unbool; naive_solver.
  - destruct (parse_u8 b) as [o|] eqn:Ho; [|done]. intros [= <-]. cbn.
    destruct (i =? svc_id) eqn:Ei, (o =? op) eqn:Eo; unbool; naive_solver.
Qed.

Lemma is_ext_allowed_iff raw rs svc ty :
  compile_ext_rules raw = Ok rs →
  is_ext_allowed rs svc ty = true ↔ Exists (λ s, ext_entry_matches s svc ty) raw.
Proof.
  rewrite /compile_ext_rules try_map_Ok /is_ext_allowed existsb_Exists => H.
  apply (Exists_Forall2 _ _ _ _ _ H) => s r. apply compile_ext_rule_matches.
Qed.

Lemma is_hot_allowed_iff raw rs svc_id op :
  compile_hot_rules raw = Ok rs →
  is_hot_allowed rs svc_id op = true ↔ Exists (λ s, hot_entry_matches s svc_id op) raw.
Proof.
  rewrite /compile_hot_rules try_map_Ok /is_hot_allowed existsb_Exists => H.
  apply (Exists_Forall2 _ _ _ _ _ H) => s r. apply compile_hot_rule_matches.
Qed.

(** Compiled rules are empty exactly when the allowlist is. *)
Lemma compile_ext_rules_nil raw rs : compile_ext_rules raw = Ok rs → rs = [] ↔ raw = [].
Proof.
  rewrite /compile_ext_rules try_map_Ok => /Forall2_length. destruct rs, raw; naive_solver.
Qed.

Lemma compile_hot_rules_nil raw rs : compile_hot_rules raw = Ok rs → rs = [] ↔ raw = [].
Proof.
  rewrite /compile_hot_rules try_map_Ok => /Forall2_length. destruct rs, raw; naive_solver.
Qed.

Lemma compile_ext_rule_Err s e :
  compile_ext_rule s = Err e ↔
  no_char ":" s = true
  ∧ e = EBadRequest ("invalid ext_allowlist entry: " +:+ s +:+ " (expected svc:type)").
Proof.
  rewrite /compile_ext_rule -split_once_None. destruct (split_once ":" s) as [[]|]; naive_solver.
Qed.

(** Compilation of the Ext allowlist fails exactly when some entry has no
    colon, and the error names the first such entry; otherwise the compiled
    rules allow a message exactly when some entry is [svc:type] or [svc:*] for
    its service and type. *)
Theorem compile_ext_rules_spec raw :
  match compile_ext_rules raw with
  | Ok rs => Forall (λ s, no_char ":" s = false) raw
             ∧ ∀ svc ty, is_ext_allowed rs svc ty = true
                         ↔ Exists (λ s, ext_entry_matches s svc ty) raw
  | Err e => ∃ l1 s l2, raw = l1 ++ s :: l2 ∧ no_char ":" s = true
             ∧ Forall (λ s, no_char ":" s = false) l1
             ∧ e = EBadRequest ("invalid ext_allowlist entry: " +:+ s +:+ " (expected svc:type)")
  end.
Proof.
  assert (∀ s, is_ok (compile_ext_rule s) = true → no_char ":" s = false) as Hok.
  { intros s. destruct (compile_ext_rule s) eqn:E; [|done]. intros _.
    destruct (no_char ":" s) eqn:Hn; [|done].
    assert (compile_ext_rule s = Err (EBadRequest _)) as Hs by by apply compile_ext_rule_Err.
    congruence. }
  destruct (compile_ext_rules raw) as [rs|e] eqn:E.
  - split; [|intros svc ty; by apply is_ext_allowed_iff].
    apply try_map_Ok in E. apply Forall_forall => s Hs. apply Hok.
    apply list_elem_of_lookup in Hs as [i Hi].
    destruct (Forall2_lookup_l _ _ _ _ _ E Hi) as (r & _ & ->). done.
  - apply try_map_Err in E as (l1 & s & l2 & -> & Hs & Hl1).
    apply compile_ext_rule_Err in Hs as [Hn ->].
    exists l1, s, l2. split_and!; [done..| |done]. by eapply Forall_impl.
Qed.

(** Whenever the Hot allowlist compiles, every rule holds [u8] values and
    the rules allow a frame exactly when some entry names its service id and
    its opcode, or its service id and [*]; a wildcard in the service position
    is never accepted. *)
Theorem compile_hot_rules_spec raw rs :
  compile_hot_rules raw = Ok rs →
  Forall (λ r, is_u8 (hr_svc_id r) ∧ ∀ op, hr_opcode r = Some op → is_u8 op) rs
  ∧ (∀ s op, s ∈ raw → s ≠ "*:" +:+ op)
  ∧ ∀ svc_id op, is_hot_allowed rs svc_id op = true
                 ↔ Exists (λ s, hot_entry_matches s svc_id op) raw.
Proof.
  intros H. split_and!; [| |intros; by apply is_hot_allowed_iff]; apply try_map_Ok in H.
  - eapply Forall2_Forall_r; [exact H|]. apply Forall_true => s r.
    rewrite /compile_hot_rule. destruct (split_once ":" s) as [[a b]|]; [|done]. cbn [ok_or].
    destruct (parse_u8 a) eqn:Ha; [|done]. cbn [ok_or].
    case_bool_decide; [|destruct (parse_u8 b) eqn:Hb; [|done]];
      intros [= <-]; cbn; naive_solver eauto using parse_u8_range.
  - intros s op [i Hi]%list_elem_of_lookup ->.
    by destruct (Forall2_lookup_l _ _ _ _ _ H Hi) as (r & _ & ?).
Qed.

Lemma compile_hot_rules_spec_witness :
  is_hot_allowed [mkHotRule 1 None; mkHotRule 2 (Some 10)] 2 11 = false
  ∧ Forall (λ r, is_u8 (hr_svc_id r) ∧ ∀ op, hr_opcode r = Some op → is_u8 op)
           [mkHotRule 1 None; mkHotRule 2 (Some 10)].
Proof.
  split; [reflexivity|].
  apply (compile_hot_rules_spec ["1:*"; "+2:010"]). reflexivity.
Defined.
