(* ===== verification/TokenBucket.v ===== *)
(** * Rate limiters ([wsprism-gateway/src/policy/engine.rs], lines 167-251)

    The token bucket, the per-connection limiter that owns one, and the
    tenant-wide limiter that shares one behind a mutex.

    An [Instant] is its number of nanoseconds; the instant [Instant::now()]
    returns is an argument [now] of each operation, and nothing is assumed of
    the sequence of these instants ([duration_since] is zero when the clock has
    not advanced).  [checks] says whether the build has overflow checks: an
    overflowing [u32] or [u64] operation then panics, and wraps otherwise. *)

From S2P Require Import Prelude Errors.

Record TokenBucket := mkTokenBucket {
  tb_rps : Z;
  tb_capacity : Z;
  tb_tokens : Z;
  tb_last : Z;
}.

(** [TokenBucket::new]. *)
Definition tb_new (rps burst now : Z) : TokenBucket :=
  let rps := Z.max rps 1 in
  let capacity := Z.max burst 1 in
  mkTokenBucket rps capacity capacity now.

(** [Instant::duration_since], [Duration::as_millis]. *)
Definition duration_since (now last : Z) : Z := Z.max 0 (now - last).
Definition as_millis (d : Z) : Z := d / 1000000.

(** [TokenBucket::refill]. *)
Definition tb_refill (checks : bool) (now : Z) (b : TokenBucket) : outcome TokenBucket :=
  let elapsed := duration_since now (tb_last b) in
  if elapsed <? 50 * 1000000 then Done b
  else
    let! prod := mul_u64 checks (wrap64 (as_millis elapsed)) (tb_rps b) in
    let add := wrap32 (prod / 1000) in
    if 0 <? add then
      let! sum := add_u32 checks (tb_tokens b) add in
      Done (mkTokenBucket (tb_rps b) (tb_capacity b) (Z.min sum (tb_capacity b)) now)
    else Done b.

(** [TokenBucket::allow]. *)
Definition tb_allow (checks : bool) (now : Z) (b : TokenBucket) : outcome (bool * TokenBucket) :=
  let! b := tb_refill checks now b in
  if tb_tokens b =? 0 then Done (false, b)
  else Done (true, mkTokenBucket (tb_rps b) (tb_capacity b) (tb_tokens b - 1) (tb_last b)).

(** [ConnRateLimiter]. *)
Record ConnRateLimiter := mkConnRateLimiter { crl_bucket : TokenBucket }.

Definition crl_new (rps burst now : Z) : ConnRateLimiter := mkConnRateLimiter (tb_new rps burst now).

Definition crl_allow (checks : bool) (now : Z) (l : ConnRateLimiter)
    : outcome (bool * ConnRateLimiter) :=
  let! (ok, b) := tb_allow checks now (crl_bucket l) in
  Done (ok, mkConnRateLimiter b).

(** [RateLimiter]: [Arc<Mutex<TokenBucket>>]; a panic while the lock is held
    poisons it. *)
Record RateLimiter := mkRateLimiter { rl_bucket : TokenBucket; rl_poisoned : bool }.

Definition rl_new (rps burst now : Z) : RateLimiter := mkRateLimiter (tb_new rps burst now) false.

(** [RateLimiter::allow]: the answer, or a panic, and the limiter afterwards. *)
Definition rl_allow (checks : bool) (now : Z) (l : RateLimiter) : outcome bool * RateLimiter :=
  if rl_poisoned l then (Done false, l)
  else match tb_allow checks now (rl_bucket l) with
       | Done (ok, b) => (Done ok, mkRateLimiter b false)
       | Panic => (Panic, mkRateLimiter (rl_bucket l) true)
       end.

(** The answers to a sequence of requests at the given instants, up to the
    first panic. *)
Fixpoint tb_run (checks : bool) (b : TokenBucket) (ts : list Z) : list bool :=
  match ts with
  | [] => []
  | now :: ts' =>
      match tb_allow checks now b with
      | Done (ok, b') => ok :: tb_run checks b' ts'
      | Panic => []
      end
  end.

(** The number of admitted requests. *)
Definition admitted (l : list bool) : Z := Z.of_nat (length (filter (λ x, x = true) l)).

(** ** Well-formed buckets *)

Record tb_wf (b : TokenBucket) : Prop := {
  wf_rps : 1 ≤ tb_rps b ≤ u32_max;
  wf_capacity : 1 ≤ tb_capacity b ≤ u32_max;
  wf_tokens : 0 ≤ tb_tokens b ≤ tb_capacity b;
}.

Lemma tb_new_wf rps burst now : is_u32 rps → is_u32 burst → tb_wf (tb_new rps burst now).
Proof. rewrite /is_u32 /u32_max => ??. split; cbn; rewrite /u32_max; lia. Qed.

Lemma wrap32_le z : 0 ≤ z → wrap32 z ≤ z.
Proof. intros. rewrite /wrap32. apply Z.mod_le; lia. Qed.

Lemma wrap64_le z : 0 ≤ z → wrap64 z ≤ z.
Proof. intros. rewrite /wrap64. apply Z.mod_le; lia. Qed.

(** What a refill that returns does: nothing, or it adds at most what the
    elapsed time earns and restarts the clock. *)
Lemma tb_refill_inv checks now b b' :
  tb_wf b → tb_refill checks now b = Done b' →
  b' = b ∨
  (∃ sum, tb_last b ≤ now ∧ 0 ≤ sum
     ∧ 1000000000 * (sum - tb_tokens b) ≤ tb_rps b * (now - tb_last b)
     ∧ b' = mkTokenBucket (tb_rps b) (tb_capacity b) (Z.min sum (tb_capacity b)) now).
Proof.
  intros [Hr Hc Ht]. rewrite /tb_refill /mul_u64 /add_u32 /duration_since /as_millis.
  destruct (_ <? _) eqn:E; [intros [= <-]; by left|]. unbool.
  set (ms := Z.max 0 (now - tb_last b) / 1000000).
  assert (0 ≤ ms ∧ 1000000 * ms ≤ now - tb_last b) as [Hms Hms'] by (rewrite /ms; dlia).
  set (w := wrap64 ms). assert (0 ≤ w ≤ ms) as Hw.
  { rewrite /w. pose proof (wrap64_range ms) as [? _]. pose proof (wrap64_le ms). lia. }
  destruct (checks && _); [done|].
  set (p := wrap64 (w * tb_rps b)). assert (0 ≤ p ≤ w * tb_rps b) as Hp.
  { rewrite /p. pose proof (wrap64_range (w * tb_rps b)) as [? _].
    pose proof (wrap64_le (w * tb_rps b)). nia. }
  set (a := wrap32 (p / 1000)). assert (0 ≤ a ∧ 1000 * a ≤ p) as [Ha Ha'].
  { rewrite /a. pose proof (wrap32_range (p / 1000)) as [? _].
    pose proof (wrap32_le (p / 1000)). dlia. }
  destruct (0 <? a) eqn:Ea; [|intros [= <-]; by left].
  destruct (checks && _); [done|]. intros [= <-]. right.
  exists (wrap32 (tb_tokens b + a)).
  pose proof (wrap32_range (tb_tokens b + a)) as [? _]. pose proof (wrap32_le (tb_tokens b + a)).
  split_and!; [lia|done| |done]. nia.
Qed.

(** One request: the invariant, and the tokens spent against the time that
    paid for them. *)
Lemma tb_allow_inv checks now b ok b' :
  tb_wf b → tb_allow checks now b = Done (ok, b') →
  tb_wf b' ∧ tb_rps b' = tb_rps b ∧ tb_capacity b' = tb_capacity b
  ∧ tb_last b ≤ tb_last b' ≤ Z.max (tb_last b) now
  ∧ 1000000000 * (tb_tokens b' + Z.b2z ok - tb_tokens b)
    ≤ tb_rps b * (tb_last b' - tb_last b).
Proof.
  intros Hwf. rewrite /tb_allow. destruct (tb_refill checks now b) as [b1|] eqn:E; [|done].
  assert (tb_wf b1 ∧ tb_rps b1 = tb_rps b ∧ tb_capacity b1 = tb_capacity b
          ∧ tb_last b ≤ tb_last b1 ≤ Z.max (tb_last b) now
          ∧ 1000000000 * (tb_tokens b1 - tb_tokens b) ≤ tb_rps b * (tb_last b1 - tb_last b))
    as ([? ? ?] & <- & <- & Hl & Hpay).
  { destruct (tb_refill_inv _ _ _ _ Hwf E) as [->|(sum & ? & ? & ? & ->)]; [split_and!; [done..|lia|lia|lia]|].
    destruct Hwf as [? ? ?]. cbn. split_and!; [split; cbn| | | | |]; lia. }
  destruct (tb_tokens b1 =? 0) eqn:Ez; intros [= <- <-]; unbool; cbn;
    split_and!; try done; try lia; split; cbn; lia.
Qed.

(** C23: the rate limit. Over any sequence of requests, at any instants up to
    [T], with or without overflow checks, a bucket admits at most the tokens
    it holds at the start plus [rps] per second of the time up to [T]: the
    burst and the sustained rate of the policy are never exceeded. *)
Theorem tb_rate_bound checks b ts T :
  tb_wf b → tb_last b ≤ T → Forall (λ t, t ≤ T) ts →
  1000000000 * admitted (tb_run checks b ts)
  ≤ 1000000000 * tb_tokens b + tb_rps b * (T - tb_last b).
Proof.
  intros Hwf HT Hts. revert b Hwf HT. induction Hts as [|t ts Ht _ IH]; intros b Hwf HT.
  { change (admitted _) with 0. destruct Hwf.
    pose proof (Z.mul_nonneg_nonneg (tb_rps b) (T - tb_last b)). lia. }
  cbn [tb_run]. destruct (tb_allow checks t b) as [[ok b']|] eqn:E.
  2:{ change (admitted _) with 0. destruct Hwf.
      pose proof (Z.mul_nonneg_nonneg (tb_rps b) (T - tb_last b)). lia. }
  destruct (tb_allow_inv _ _ _ _ _ Hwf E) as (Hwf' & Hr & _ & Hl & Hpay).
  specialize (IH b' Hwf' ltac:(lia)). rewrite Hr in IH.
  assert (admitted (ok :: tb_run checks b' ts) = Z.b2z ok + admitted (tb_run checks b' ts)) as ->.
  { rewrite /admitted filter_cons. destruct ok; cbn; case_decide; try done. cbn. lia. }
  nia.
Qed.

Lemma tb_rate_bound_witness :
  1000000000 * admitted (tb_run false (tb_new 2 3 0) [0; 0; 0; 0; 500000000; 1000000000])
  ≤ 1000000000 * 3 + 2 * (1000000000 - 0).
Proof.
  apply (tb_rate_bound false (tb_new 2 3 0) _ 1000000000).
  - by apply tb_new_wf.
  - done.
  - by repeat constructor.
Defined.

(** ** The bucket over unbounded integers *)

Module BucketSpec.
(** Whole tokens earned since the last refill; nothing under 50 ms. *)
Definition earned (now : Z) (b : TokenBucket) : Z :=
  let elapsed := duration_since now (tb_last b) in
  if elapsed <? 50 * 1000000 then 0 else as_millis elapsed * tb_rps b / 1000.

Definition available (now : Z) (b : TokenBucket) : Z :=
  if earned now b =? 0 then tb_tokens b
  else Z.min (tb_tokens b + earned now b) (tb_capacity b).

(** Answer, and the bucket afterwards: the clock restarts only when a token
    was earned, so slow rates do not lose time below one token. *)
Definition allow (now : Z) (b : TokenBucket) : bool * TokenBucket :=
  let last := if earned now b =? 0 then tb_last b else now in
  if available now b =? 0 then (false, mkTokenBucket (tb_rps b) (tb_capacity b) 0 last)
  else (true, mkTokenBucket (tb_rps b) (tb_capacity b) (available now b - 1) last).
End BucketSpec.

Lemma earned_nonneg now b : tb_wf b → 0 ≤ BucketSpec.earned now b.
Proof.
  intros [? ? ?]. rewrite /BucketSpec.earned /duration_since /as_millis. split_ifs; [done|]. unbool.
  apply Z.div_pos; [|lia]. apply Z.mul_nonneg_nonneg; [|lia]. dlia.
Qed.

Lemma tb_refill_exact checks now b :
  tb_wf b → tb_tokens b + BucketSpec.earned now b ≤ u32_max →
  tb_refill checks now b =
  Done (mkTokenBucket (tb_rps b) (tb_capacity b) (BucketSpec.available now b)
          (if BucketSpec.earned now b =? 0 then tb_last b else now)).
Proof.
  intros Hwf. pose proof (earned_nonneg now b Hwf) as Hnn. destruct Hwf as [Hr Hc Ht].
  rewrite /tb_refill /BucketSpec.available. revert Hnn. rewrite /BucketSpec.earned.
  destruct (_ <? _) eqn:E; [by destruct b|]. unbool.
  set (ms := as_millis _). set (e := ms * tb_rps b / 1000). intros Hnn He.
  assert (0 ≤ ms) by (rewrite /ms /as_millis /duration_since; dlia).
  assert (ms * tb_rps b < 4294967296000) by (rewrite /u32_max /e in He |- *; dlia).
  assert (ms < 4294967296000) by nia.
  rewrite wrap64_small; [|rewrite /is_u64 /u64_max; lia].
  rewrite mul_u64_fits; [|lia|lia|rewrite /u64_max; lia].
  rewrite wrap32_small; [|rewrite /is_u32; fold e; lia]. fold e.
  destruct (0 <? e) eqn:E0; unbool.
  - replace (e =? 0) with false by (symmetry; apply Z.eqb_neq; lia).
    rewrite add_u32_fits; [done|lia..].
  - replace (e =? 0) with true by (symmetry; apply Z.eqb_eq; lia). by destruct b.
Qed.

(** The machine arithmetic is exact. As long as the tokens in the bucket
    plus those earned while it was idle fit a [u32], the implementation
    returns, in every build profile, what the bucket over unbounded integers
    returns: it grants whenever a token is available or earned, and denies
    only an empty bucket that has earned nothing. *)
Theorem tb_allow_exact checks now b :
  tb_wf b → tb_tokens b + BucketSpec.earned now b ≤ u32_max →
  tb_allow checks now b = Done (BucketSpec.allow now b)
  ∧ (fst (BucketSpec.allow now b) = true ↔ 0 < tb_tokens b ∨ 0 < BucketSpec.earned now b).
Proof.
  intros Hwf Hfit. rewrite /tb_allow tb_refill_exact // /BucketSpec.allow. cbn [tb_tokens tb_last].
  split.
  - destruct (BucketSpec.available now b =? 0) eqn:E; [|done]. unbool. by rewrite E.
  - pose proof (earned_nonneg now b Hwf). destruct Hwf as [? ? ?].
    rewrite /BucketSpec.available.
    destruct (BucketSpec.earned now b =? 0) eqn:Ee; unbool;
      destruct (_ =? 0) eqn:E; unbool; cbn; (split; [intros|intros [|]]); first [done|lia].
Qed.

(** The default tenant policy (200 per second, burst 400), idle for an hour. *)
Lemma tb_allow_exact_witness :
  tb_allow true 3600000000000 (mkTokenBucket 200 400 0 0)
  = Done (true, mkTokenBucket 200 400 399 3600000000000).
Proof.
  refine (proj1 (tb_allow_exact true 3600000000000 (mkTokenBucket 200 400 0 0) _ _)).
  - by split.
  - by vm_compute.
Defined.

(** Outside that range the code misbehaves, on configurations that pass
    validation. For every burst [c] there is a rate for which a full bucket,
    idle for one second, refuses the next request in a release build, and
    panics in a build with overflow checks; under the tenant-wide limiter that
    panic poisons the mutex, and every later request of the tenant is
    refused. *)
Theorem tb_overflow_denies c :
  1 ≤ c ≤ u32_max →
  let rps := 4294967296 - c in
  is_u32 rps ∧ 0 < rps
  ∧ (∃ b', tb_allow false 1000000000 (tb_new rps c 0) = Done (false, b'))
  ∧ ∃ l, rl_allow true 1000000000 (rl_new rps c 0) = (Panic, l)
         ∧ ∀ checks now, rl_allow checks now l = (Done false, l).
Proof.
  intros Hc rps. assert (1 ≤ rps ≤ u32_max) as Hr by (rewrite /rps; rewrite /u32_max in Hc |- *; lia).
  assert (tb_new rps c 0 = mkTokenBucket rps c c 0) as Hnew.
  { rewrite /tb_new (Z.max_l rps) ?(Z.max_l c); [done|lia..]. }
  assert (∀ checks, tb_refill checks 1000000000 (mkTokenBucket rps c c 0)
          = if checks then Panic else Done (mkTokenBucket rps c 0 1000000000)) as Hrefill.
  { intros checks. rewrite /tb_refill. cbn [tb_last tb_rps tb_tokens tb_capacity].
    change (duration_since 1000000000 0 <? 50 * 1000000) with false. cbv iota.
    change (wrap64 (as_millis (duration_since 1000000000 0))) with 1000.
    rewrite mul_u64_fits; [|lia|lia|rewrite /u64_max; rewrite /u32_max in Hr; lia].
    rewrite (Z.mul_comm 1000) Z.div_mul // wrap32_small; [|rewrite /is_u32; lia].
    replace (0 <? rps) with true by (symmetry; apply Z.ltb_lt; lia).
    rewrite /add_u32. replace (c + rps) with 4294967296 by (rewrite /rps; lia).
    destruct checks; [done|]. change (wrap32 4294967296) with 0. cbn [andb].
    rewrite Z.min_l; [done|lia]. }
  split; [rewrite /is_u32; lia|]. split; [lia|]. rewrite Hnew /tb_allow Hrefill. split; [by eexists|].
  exists (mkRateLimiter (mkTokenBucket rps c c 0) true). rewrite /rl_new Hnew /rl_allow /tb_allow /=.
  by rewrite Hrefill.
Qed.

Lemma tb_overflow_denies_witness :
  ∃ b', tb_allow false 1000000000 (tb_new 4294966896 400 0) = Done (false, b').
Proof. apply (tb_overflow_denies 400). by vm_compute. Defined.
