(* ===== verification/Policy.v ===== *)
(** * Tenant policy runtime ([wsprism-gateway/src/policy/engine.rs], lines 18-165)

    The compiled policy of one tenant: frame size, allowlists, and the
    tenant-wide rate limiter, which is its only mutable part. *)

From S2P Require Import Prelude Errors RustStd Config Allowlist TokenBucket.

Inductive PolicyDecision :=
| Pass
| Drop
| Reject (code : ClientCode) (msg : string)
| Close (code : ClientCode) (msg : string).

Record TenantPolicyRuntime := mkTenantPolicyRuntime {
  tpr_tenant_id : string;
  tpr_max_frame_bytes : Z;
  tpr_ext_rules : list ExtRule;
  tpr_hot_rules : list HotRule;
  tpr_rate_limit_scope : RateLimitScope;
  tpr_conn_rps : Z;
  tpr_conn_burst : Z;
  tpr_tenant_limiter : option RateLimiter;
  tpr_sessions : SessionPolicy;
  tpr_hot_error_mode : HotErrorMode;
  tpr_hot_requires_active_room : bool;
}.

(** [TenantPolicyRuntime::new]. *)
Definition tpr_new (id : string) (max_frame : Z) (p : TenantPolicy) (now : Z)
    : Result TenantPolicyRuntime :=
  let? ext_rules := compile_ext_rules (ext_allowlist p) in
  let? hot_rules := compile_hot_rules (hot_allowlist p) in
  let tenant_limiter :=
    match rate_limit_scope p with
    | ScopeTenant | ScopeBoth => Some (rl_new (rate_limit_rps p) (rate_limit_burst p) now)
    | ScopeConnection => None
    end in
  Ok (mkTenantPolicyRuntime id max_frame ext_rules hot_rules (rate_limit_scope p)
        (rate_limit_rps p) (rate_limit_burst p) tenant_limiter (sessions_policy p)
        (hot_error_mode p) (hot_requires_active_room p)).

(** [new_connection_limiter]. *)
Definition new_connection_limiter (rt : TenantPolicyRuntime) (now : Z) : option ConnRateLimiter :=
  match tpr_rate_limit_scope rt with
  | ScopeConnection | ScopeBoth => Some (crl_new (tpr_conn_rps rt) (tpr_conn_burst rt) now)
  | ScopeTenant => None
  end.

(** [check_len]. *)
Definition check_len (rt : TenantPolicyRuntime) (bytes_len : Z) : PolicyDecision :=
  if tpr_max_frame_bytes rt <? bytes_len then Close BadRequest "frame too large" else Pass.

(** The [if let Some(lim)] test of both checks: the limiter's answer, [true]
    without a limiter, and the runtime with the limiter it leaves. *)
Definition tenant_limiter_allow (checks : bool) (now : Z) (rt : TenantPolicyRuntime)
    : outcome bool * TenantPolicyRuntime :=
  match tpr_tenant_limiter rt with
  | None => (Done true, rt)
  | Some lim =>
      let '(ok, lim') := rl_allow checks now lim in
      (ok, mkTenantPolicyRuntime (tpr_tenant_id rt) (tpr_max_frame_bytes rt) (tpr_ext_rules rt)
             (tpr_hot_rules rt) (tpr_rate_limit_scope rt) (tpr_conn_rps rt) (tpr_conn_burst rt)
             (Some lim') (tpr_sessions rt) (tpr_hot_error_mode rt)
             (tpr_hot_requires_active_room rt))
  end.

(** [check_text]. *)
Definition check_text (checks : bool) (now : Z) (rt : TenantPolicyRuntime) (bytes_len : Z)
    (svc msg_type : string) : outcome PolicyDecision * TenantPolicyRuntime :=
  match check_len rt bytes_len with
  | Pass =>
      match tenant_limiter_allow checks now rt with
      | (Panic, rt) => (Panic, rt)
      | (Done false, rt) => (Done Drop, rt)
      | (Done true, rt) =>
          match tpr_ext_rules rt with
          | [] => (Done (Reject BadRequest "ext_allowlist empty (strict deny)"), rt)
          | _ =>
              if negb (is_ext_allowed (tpr_ext_rules rt) svc msg_type)
              then (Done (Reject BadRequest "svc/type not allowed"), rt)
              else (Done Pass, rt)
          end
      end
  | other => (Done other, rt)
  end.

(** [check_hot]. *)
Definition check_hot (checks : bool) (now : Z) (rt : TenantPolicyRuntime) (bytes_len : Z)
    (svc_id opcode : Z) : outcome PolicyDecision * TenantPolicyRuntime :=
  match check_len rt bytes_len with
  | Pass =>
      match tenant_limiter_allow checks now rt with
      | (Panic, rt) => (Panic, rt)
      | (Done false, rt) => (Done Drop, rt)
      | (Done true, rt) =>
          match tpr_hot_rules rt with
          | [] => (Done Drop, rt)
          | _ =>
              if negb (is_hot_allowed (tpr_hot_rules rt) svc_id opcode)
              then (Done Drop, rt)
              else (Done Pass, rt)
          end
      end
  | other => (Done other, rt)
  end.

(** ** The runtime of a policy *)

(** [rt] was compiled from tenant configuration [t]; only the limiter's bucket
    changes afterwards. *)
Record compiled (t : TenantConfig) (rt : TenantPolicyRuntime) : Prop := {
  cp_id : tpr_tenant_id rt = tenant_id t;
  cp_max : tpr_max_frame_bytes rt = max_frame_bytes (limits t);
  cp_ext : compile_ext_rules (ext_allowlist (policy t)) = Ok (tpr_ext_rules rt);
  cp_hot : compile_hot_rules (hot_allowlist (policy t)) = Ok (tpr_hot_rules rt);
  cp_scope : tpr_rate_limit_scope rt = rate_limit_scope (policy t);
  cp_rps : tpr_conn_rps rt = rate_limit_rps (policy t);
  cp_burst : tpr_conn_burst rt = rate_limit_burst (policy t);
  cp_limiter : is_Some (tpr_tenant_limiter rt) ↔ rate_limit_scope (policy t) ≠ ScopeConnection;
  cp_sessions : tpr_sessions rt = sessions_policy (policy t);
  cp_mode : tpr_hot_error_mode rt = hot_error_mode (policy t);
  cp_room : tpr_hot_requires_active_room rt = hot_requires_active_room (policy t);
}.

Lemma tpr_new_compiled t now rt :
  tpr_new (tenant_id t) (max_frame_bytes (limits t)) (policy t) now = Ok rt → compiled t rt.
Proof.
  rewrite /tpr_new. destruct (compile_ext_rules _) eqn:Ee; [|done].
  destruct (compile_hot_rules _) eqn:Eh; [|done]. intros [= <-].
  split; cbn; try done. destruct (rate_limit_scope (policy t)); naive_solver eauto.
Qed.

Lemma tenant_limiter_allow_compiled checks now t rt ok rt' :
  compiled t rt → tenant_limiter_allow checks now rt = (ok, rt') →
  compiled t rt' ∧ tpr_ext_rules rt' = tpr_ext_rules rt ∧ tpr_hot_rules rt' = tpr_hot_rules rt.
Proof.
  intros Hc. rewrite /tenant_limiter_allow. destruct (tpr_tenant_limiter rt) as [lim|] eqn:El.
  2:{ by intros [= _ <-]. }
  destruct (rl_allow checks now lim) as [ok' lim']. intros [= _ <-].
  destruct Hc. split; [|done]. split; cbn; try done. rewrite -cp_limiter0 El. split; eauto.
Qed.

Lemma check_len_Pass rt len : check_len rt len = Pass ↔ len ≤ tpr_max_frame_bytes rt.
Proof. rewrite /check_len. split_ifs; unbool; split; first [done|lia]. Qed.

(** The answer of the tenant limiter to a request. *)
Definition limiter_answer (checks : bool) (now : Z) (rt : TenantPolicyRuntime) : outcome bool :=
  fst (tenant_limiter_allow checks now rt).

(** C24: Ext Lane admission. A text message passes exactly when it is not
    larger than the tenant's frame limit, the tenant limiter (if the scope has
    one) grants it, and some allowlist entry names its service and type. An
    oversized message closes the connection and costs no token; a message over
    the rate is dropped; a message no entry allows is rejected, which is every
    message when the allowlist is empty. The compiled policy survives. *)
Theorem check_text_spec checks now t rt len svc ty :
  compiled t rt →
  let '(d, rt') := check_text checks now rt len svc ty in
  let fits := len ≤ max_frame_bytes (limits t) in
  let allowed := Exists (λ e, ext_entry_matches e svc ty) (ext_allowlist (policy t)) in
  compiled t rt'
  ∧ (d = Done Pass ↔ fits ∧ limiter_answer checks now rt = Done true ∧ allowed)
  ∧ (d = Done Drop ↔ fits ∧ limiter_answer checks now rt = Done false)
  ∧ (d = Done (Close BadRequest "frame too large") ↔ ¬ fits)
  ∧ ((∃ m, d = Done (Reject BadRequest m))
     ↔ fits ∧ limiter_answer checks now rt = Done true ∧ ¬ allowed)
  ∧ (d = Panic ↔ fits ∧ limiter_answer checks now rt = Panic)
  ∧ (¬ fits → rt' = rt).
Proof.
  intros Hc. pose proof (is_ext_allowed_iff _ _ svc ty (cp_ext _ _ Hc)) as Hallow.
  pose proof (compile_ext_rules_nil _ _ (cp_ext _ _ Hc)) as Hnil.
  rewrite /check_text /limiter_answer -(cp_max _ _ Hc) /check_len.
  destruct (_ <? len) eqn:El; unbool.
  { split_and!; try done; naive_solver lia. }
  destruct (tenant_limiter_allow checks now rt) as [ok rt'] eqn:Elim.
  destruct (tenant_limiter_allow_compiled _ _ _ _ _ _ Hc Elim) as (Hc' & Hr & _).
  rewrite Hr. cbv zeta. cbn [fst]. set (A := Exists _ _) in Hallow |- *. clearbody A.
  destruct ok as [[]|]; [|split_and!; try done; naive_solver lia..].
  destruct (tpr_ext_rules rt) as [|r rs] eqn:Ers.
  { cbn. split_and!; try done; naive_solver lia. }
  destruct (is_ext_allowed _ svc ty); split_and!; try done; naive_solver lia.
Qed.

(** C25: Hot Lane admission. A binary frame passes under the same three
    conditions, with the Hot allowlist; everything else the policy refuses is
    dropped in silence (there is no rejection on this lane), except an
    oversized frame, which closes the connection. *)
Theorem check_hot_spec checks now t rt len svc_id op :
  compiled t rt →
  let '(d, rt') := check_hot checks now rt len svc_id op in
  let fits := len ≤ max_frame_bytes (limits t) in
  let allowed := Exists (λ e, hot_entry_matches e svc_id op) (hot_allowlist (policy t)) in
  compiled t rt'
  ∧ (d = Done Pass ↔ fits ∧ limiter_answer checks now rt = Done true ∧ allowed)
  ∧ (d = Done Drop ↔ fits ∧ (limiter_answer checks now rt = Done false
                             ∨ limiter_answer checks now rt = Done true ∧ ¬ allowed))
  ∧ (d = Done (Close BadRequest "frame too large") ↔ ¬ fits)
  ∧ (d = Panic ↔ fits ∧ limiter_answer checks now rt = Panic)
  ∧ (∀ c m, d ≠ Done (Reject c m))
  ∧ (¬ fits → rt' = rt).
Proof.
  intros Hc. pose proof (is_hot_allowed_iff _ _ svc_id op (cp_hot _ _ Hc)) as Hallow.
  rewrite /check_hot /limiter_answer -(cp_max _ _ Hc) /check_len.
  destruct (_ <? len) eqn:El; unbool.
  { split_and!; try done; naive_solver lia. }
  destruct (tenant_limiter_allow checks now rt) as [ok rt'] eqn:Elim.
  destruct (tenant_limiter_allow_compiled _ _ _ _ _ _ Hc Elim) as (Hc' & _ & Hr).
  rewrite Hr. cbv zeta. cbn [fst]. set (A := Exists _ _) in Hallow |- *. clearbody A.
  destruct ok as [[]|]; [|split_and!; try done; naive_solver lia..].
  destruct (tpr_hot_rules rt) as [|r rs] eqn:Ers.
  { cbn. split_and!; try done; naive_solver lia. }
  destruct (is_hot_allowed _ svc_id op); split_and!; try done; naive_solver lia.
Qed.

(** A tenant that spells out its policy, and its runtime, for the witnesses. *)
Module PolicySample.
Definition tenant : TenantConfig :=
  mkTenantConfig "acme" (mkTenantLimits 64 0 0 0 0)
    (mkTenantPolicy 10 2 ScopeBoth ["room:join"; "chat:*"] ["1:*"; "2:10"]
       SessionPolicy_default SysError true).

Definition runtime : TenantPolicyRuntime :=
  mkTenantPolicyRuntime "acme" 64
    [mkExtRule "room" (Some "join"); mkExtRule "chat" None]
    [mkHotRule 1 None; mkHotRule 2 (Some 10)]
    ScopeBoth 10 2 (Some (rl_new 10 2 0)) SessionPolicy_default SysError true.

Lemma runtime_compiled : compiled tenant runtime.
Proof. apply (tpr_new_compiled tenant 0). reflexivity. Qed.
End PolicySample.

Lemma check_text_spec_witness :
  fst (check_text false 0 PolicySample.runtime 20 "chat" "send") = Done Pass
  ∧ compiled PolicySample.tenant
      (snd (check_text false 0 PolicySample.runtime 20 "chat" "send")).
Proof.
  pose proof (check_text_spec false 0 PolicySample.tenant PolicySample.runtime 20 "chat" "send"
                PolicySample.runtime_compiled) as H.
  destruct (check_text false 0 PolicySample.runtime 20 "chat" "send") as [d rt'] eqn:E.
  destruct H as (Hc & Hp & _). split; [|exact Hc]. apply Hp. split_and!.
  - by vm_compute.
  - by vm_compute.
  - apply Exists_cons_tl, Exists_cons_hd. split; [done|]. by right.
Defined.

Lemma check_hot_spec_witness :
  fst (check_hot false 0 PolicySample.runtime 65 1 1) = Done (Close BadRequest "frame too large").
Proof.
  pose proof (check_hot_spec false 0 PolicySample.tenant PolicySample.runtime 65 1 1
                PolicySample.runtime_compiled) as H.
  destruct (check_hot false 0 PolicySample.runtime 65 1 1) as [d rt'] eqn:E.
  destruct H as (_ & _ & _ & Hcl & _). apply Hcl. by vm_compute.
Defined.
