(* ===== verification/Dash.v ===== *)
(** * Concurrent maps as the gateway uses them

    A [DashMap<String, V>] is a [gmap string V] and a [DashSet<String>] a
    [gset string]; other keys likewise.  The order in which they iterate is not specified by the
    [dashmap] crate: it is the class [DashOrder], about which only
    [DashOrderLaws] is known (every element once).

    The pattern [DashMap<String, DashSet<String>>], an index from keys to sets
    whose empty sets are dropped, occurs in the session registry and five
    times in the presence tables; its operations and their lemmas are here. *)

From S2P Require Import Prelude.

(** ** Iteration order *)

Class DashOrder := {
  ds_iter : gset string → list string;
  dm_iter : ∀ {K : Type} `{Countable K} {A : Type}, gmap K A → list (K * A);
}.

Class DashOrderLaws `{!DashOrder} : Prop := {
  ds_iter_perm (s : gset string) : ds_iter s ≡ₚ elements s;
  dm_iter_perm `{Countable K} {A} (m : gmap K A) : dm_iter m ≡ₚ map_to_list m;
}.

(** The order of [gset] and [gmap], for evaluation. *)
#[export] Instance dash_order_elements : DashOrder := {
  ds_iter s := elements s;
  dm_iter K _ _ A m := map_to_list m;
}.

#[export] Instance dash_order_elements_laws : DashOrderLaws.
Proof. split; done. Qed.

(** ** Indices *)

Abbreviation index := (gmap string (gset string)).

(** [m.get(k)] as a set: an absent key has no elements. *)
Definition idx_get (m : index) (k : string) : gset string := default ∅ (m !! k).

(** [m.entry(k).or_default().insert(x)]. *)
Definition idx_insert (k x : string) (m : index) : index :=
  <[k := {[x]} ∪ idx_get m k]> m.

(** [if let Some(set) = m.get(k) { set.remove(x); if set.is_empty() {
    m.remove(k) } }]. *)
Definition idx_remove (k x : string) (m : index) : index :=
  match m !! k with
  | None => m
  | Some set =>
      let set := set ∖ {[x]} in
      if bool_decide (set = ∅) then delete k m else <[k := set]> m
  end.

(** The index holds the pairs of [R], and no empty set. *)
Record idx_rep (m : index) (R : string → string → Prop) : Prop := {
  idx_elem k x : x ∈ idx_get m k ↔ R k x;
  idx_nonempty k s : m !! k = Some s → s ≠ ∅;
}.

Section index.
Implicit Types (m : index) (R : string → string → Prop) (k x : string).

Lemma idx_rep_empty : idx_rep ∅ (λ _ _, False).
Proof.
  split; intros k x.
  - rewrite /idx_get lookup_empty /=. set_solver.
  - by rewrite lookup_empty.
Qed.

Lemma idx_get_insert k x m k' :
  idx_get (idx_insert k x m) k' = if decide (k = k') then {[x]} ∪ idx_get m k else idx_get m k'.
Proof.
  rewrite /idx_insert {1}/idx_get lookup_insert. case_decide; [by subst|done].
Qed.

Lemma idx_insert_rep k x m R :
  idx_rep m R → idx_rep (idx_insert k x m) (λ k' x', (k' = k ∧ x' = x) ∨ R k' x').
Proof.
  intros [He Hn]. split.
  - intros k' x'. rewrite idx_get_insert -He. case_decide; [subst|]; set_solver.
  - intros k' s. rewrite /idx_insert lookup_insert. case_decide; [|apply Hn].
    intros [= <-]. set_solver.
Qed.

Lemma idx_get_remove k x m k' :
  idx_get (idx_remove k x m) k' = if decide (k = k') then idx_get m k ∖ {[x]} else idx_get m k'.
Proof.
  rewrite /idx_remove /idx_get. destruct (m !! k) as [s|] eqn:E; cbn.
  - case_bool_decide as Hs; [rewrite lookup_delete|rewrite lookup_insert];
      case_decide; subst; rewrite ?E //=; set_solver.
  - case_decide; [subst; rewrite E /=; set_solver|done].
Qed.

Lemma idx_remove_rep k x m R :
  idx_rep m R → idx_rep (idx_remove k x m) (λ k' x', R k' x' ∧ ¬ (k' = k ∧ x' = x)).
Proof.
  intros [He Hn]. split.
  - intros k' x'. rewrite idx_get_remove -He. case_decide; [subst|]; set_solver.
  - intros k' s. rewrite /idx_remove. destruct (m !! k) as [s0|] eqn:E; [|apply Hn].
    case_bool_decide as Hs; [rewrite lookup_delete|rewrite lookup_insert];
      case_decide; subst; try done; try apply Hn. by intros [= <-].
Qed.

Lemma idx_rep_iff m R R' : idx_rep m R → (∀ k x, R k x ↔ R' k x) → idx_rep m R'.
Proof. intros [He Hn] HR. split; [|done]. intros. by rewrite He. Qed.

(** A key is present exactly when something is related to it. *)
Lemma idx_present m R k : idx_rep m R → is_Some (m !! k) ↔ ∃ x, R k x.
Proof.
  intros [He Hn]. split.
  - intros [s Hs]. destruct (set_choose_or_empty s) as [[x Hx]|Hempty].
    + exists x. apply He. rewrite /idx_get Hs. done.
    + destruct (Hn _ _ Hs). by apply leibniz_equiv.
  - intros [x Hx]. apply He in Hx. rewrite /idx_get in Hx.
    destruct (m !! k); [by eexists|]. set_solver.
Qed.

Lemma idx_absent m R k : idx_rep m R → m !! k = None ↔ ∀ x, ¬ R k x.
Proof.
  intros H. rewrite eq_None_not_Some (idx_present _ _ _ H). naive_solver.
Qed.

(** The set of a key, as any set that has the related elements. *)
Lemma idx_get_eq m R k (s : gset string) :
  idx_rep m R → (∀ x, x ∈ s ↔ R k x) → idx_get m k = s.
Proof. intros [He _] Hs. apply set_eq => x. by rewrite He Hs. Qed.
End index.
