(* ===== verification/Threads.v ===== *)
(** * Threads that share tables

    A thread takes small steps on a shared state; a schedule says whose turn
    it is, and a thread whose next step needs an entry that another one
    keeps waits.  [Race.v] and [RegRace.v] instantiate this with the room
    tables and with the session registry. *)

From S2P Require Import Prelude.

(** A guard of a map entry: a [Ref], which others may share, or a [RefMut],
    which is exclusive. *)
Inductive mode := Shared | Exclusive.

#[export] Instance mode_eq_dec : EqDecision mode.
Proof. solve_decision. Defined.

(** An access conflicts with a guard on the same entry unless both share. *)
Definition conflict {E : Type} `{EqDecision E} (need hold : mode * E) : bool :=
  bool_decide (need.2 = hold.2)
  && match need.1, hold.1 with Shared, Shared => false | _, _ => true end.

Section threads.
Context {Thread State : Type} (micro : Thread * State → Thread * State).

(** ** One thread *)

Fixpoint steps (n : nat) (x : Thread * State) : Thread * State :=
  match n with O => x | S n => steps n (micro x) end.

(** A thread gets from [x] to [y] by itself. *)
Definition gets (x y : Thread * State) : Prop := ∃ n, steps n x = y.

Lemma steps_add n n' x : steps (n + n') x = steps n' (steps n x).
Proof. revert x. induction n as [|n IH]; intros x; [done|]. apply IH. Qed.

#[export] Instance gets_refl : Reflexive gets.
Proof. intros x. by exists 0%nat. Qed.

#[export] Instance gets_trans : Transitive gets.
Proof. intros x y z [n Hn] [n' Hn']. exists (n + n')%nat. by rewrite steps_add Hn. Qed.

Lemma gets_step x y : gets (micro x) y → gets x y.
Proof. intros [n Hn]. by exists (S n). Qed.

(** ** Many threads *)

Context (waits : list Thread → Thread → bool).

(** The [i]-th thread takes a step, if it does not have to wait. *)
Definition run_step (x : list Thread * State) (i : nat) : list Thread * State :=
  let '(ths, s) := x in
  match ths !! i with
  | None => x
  | Some th =>
      if waits (delete i ths) th then x
      else let '(th, s) := micro (th, s) in (<[i := th]> ths, s)
  end.

Definition run (x : list Thread * State) (schedule : list nat) : list Thread * State :=
  foldl run_step x schedule.

(** What every step keeps, every schedule keeps. *)
Lemma run_invariant (P : list Thread * State → Prop) x schedule :
  (∀ ths s i th th' s',
     P (ths, s) → ths !! i = Some th → waits (delete i ths) th = false → micro (th, s) = (th', s') →
     P (<[i := th']> ths, s')) →
  P x → P (run x schedule).
Proof.
  intros Hstep. revert x. induction schedule as [|i schedule IH]; intros [ths s] Hx; [done|]. apply IH.
  cbn. destruct (ths !! i) as [th|] eqn:Hi; [|done]. destruct (waits _ _) eqn:Hw; [done|].
  destruct (micro (th, s)) as [th' s'] eqn:E. by eapply Hstep.
Qed.
End threads.

(** ** Lists of threads *)

Section lists.
Context {Thread : Type}.
Implicit Types (ths : list Thread) (th : Thread).

Lemma lookup_update ths i j th t :
  <[i := th]> ths !! j = Some t → (j = i ∧ t = th) ∨ (j ≠ i ∧ ths !! j = Some t).
Proof. intros [(<- & <- & _)|[Hne Hj]]%list_lookup_insert_Some; [by left|right]. by split; [apply not_eq_sym|]. Qed.

Lemma elem_of_update ths i th t : t ∈ <[i := th]> ths → t = th ∨ t ∈ ths.
Proof.
  intros [j [[_ ->]|[_ Hj]]%lookup_update]%list_elem_of_lookup; [by left|right].
  by eapply list_elem_of_lookup_2.
Qed.

(** The others of a thread. *)
Lemma elem_of_others ths i j th : ths !! j = Some th → j ≠ i → th ∈ delete i ths.
Proof.
  intros Hj Hne. destruct (decide (j < i)%nat) as [Hlt|Hge].
  - eapply (list_elem_of_lookup_2 _ j). by rewrite list_lookup_delete_lt.
  - eapply (list_elem_of_lookup_2 _ (j - 1)). rewrite list_lookup_delete_ge; [|lia].
    by replace (S (j - 1)) with j by lia.
Qed.

Lemma filter_update_le (f : Thread → bool) ths i th th' :
  ths !! i = Some th → (f th' = true → f th = true) →
  (length (List.filter f (<[i := th']> ths)) ≤ length (List.filter f ths))%nat.
Proof.
  revert i. induction ths as [|t ths IH]; intros [|i] Hi Hf; cbn in *; simplify_eq.
  - destruct (f th') eqn:E; [by rewrite (Hf eq_refl)|]. destruct (f th); cbn; lia.
  - specialize (IH i Hi Hf). destruct (f t); [apply le_n_S|]; exact IH.
Qed.

(** A sum over the threads. *)
Definition total (f : Thread → nat) ths : nat := sum_list_with f ths.

Lemma total_update f ths i th th' :
  ths !! i = Some th → (total f (<[i := th']> ths) + f th = total f ths + f th')%nat.
Proof.
  rewrite /total. revert i. induction ths as [|t ths IH]; intros [|i] Hi; cbn in Hi; simplify_eq.
  - cbn. lia.
  - specialize (IH i Hi).
    change (f t + sum_list_with f (<[i := th']> ths) + f th = f t + sum_list_with f ths + f th')%nat. lia.
Qed.

Lemma total_ge f ths i th : ths !! i = Some th → (f th ≤ total f ths)%nat.
Proof.
  rewrite /total. revert i. induction ths as [|t ths IH]; intros [|i] Hi; cbn in *; simplify_eq; [lia|].
  specialize (IH i Hi). lia.
Qed.
End lists.

(** ** Progress *)

Section progress.
Context {Thread State : Type} (micro : Thread * State → Thread * State).
Context (waits : list Thread → Thread → bool) (fin : Thread → bool).

(** A thread that has not returned can take its step. *)
Definition can_step (ths : list Thread) : Prop :=
  ∃ i th, ths !! i = Some th ∧ fin th = false ∧ waits (delete i ths) th = false.

(** Such a thread takes it. *)
Definition progress (y x : list Thread * State) : Prop :=
  ∃ i th, x.1 !! i = Some th ∧ fin th = false ∧ waits (delete i x.1) th = false ∧ y = run_step micro waits x i.

(** No schedule makes progress for ever, if each step of a thread decreases
    its measure, a pair in lexicographic order. *)
Lemma progress_wf (outer inner : Thread → nat) :
  (∀ th s th' s', fin th = false → micro (th, s) = (th', s') →
     (outer th' < outer th)%nat ∨ (outer th' = outer th ∧ (inner th' < inner th)%nat)) →
  well_founded progress.
Proof.
  intros Hdec.
  assert (∀ a b x, total outer x.1 = a → total inner x.1 = b → Acc progress x) as Hacc; [|intros x; exact (Hacc _ _ x eq_refl eq_refl)].
  induction a as [a IHa] using lt_wf_ind. induction b as [b IHb] using lt_wf_ind. intros [ths s] Ha Hb.
  constructor. intros y (i & th & Hi & Hf & Hw & ->). cbn [fst snd run_step] in *. rewrite Hi Hw.
  destruct (micro (th, s)) as [th' s'] eqn:E.
  pose proof (total_update outer ths i th th' Hi). pose proof (total_update inner ths i th th' Hi).
  destruct (Hdec th s th' s' Hf E) as [Ho|[Ho Hi']].
  - eapply (IHa (total outer (<[i := th']> ths))); [lia|done|done].
  - eapply (IHb (total inner (<[i := th']> ths))); [lia|cbn [fst]; lia|done].
Qed.
End progress.

(** ** No deadlock *)

(** Locks of tables.  A thread keeps a lock of at most one table while its next operation asks for one of another table,
    for itself or to share it.  What exactly two operations on one table exclude (an entry, a shard of entries, the whole
    table) and in which order those that wait are served is left open: a thread is blocked at most if another one keeps a lock of the
    table that it asks for, or, if it asks to share it, if another one waits to have it for itself. *)
Section locks.
Context {T Tb : Type} (hold excl shared : T → option Tb) (fin : T → bool) (level : Tb → nat).

Definition asks (th : T) (tb : Tb) : Prop := excl th = Some tb ∨ shared th = Some tb.

Definition may_block (others : list T) (th : T) : Prop :=
  ∃ o tb, o ∈ others ∧ (asks th tb ∧ hold o = Some tb ∨ shared th = Some tb ∧ excl o = Some tb).

(** The tables are ordered, and who keeps a lock asks only for lower tables. *)
Record lock_order : Prop := {
  lo_fin th tb : hold th = Some tb ∨ asks th tb → fin th = false;
  lo_one th tb : excl th = Some tb → shared th = None;
  lo_down th tb tb' : hold th = Some tb → asks th tb' → (level tb' < level tb)%nat;
}.

Context (Hord : lock_order) (blocked : list T → T → bool).
Context (Hblocked : ∀ others th, blocked others th = true → may_block others th).

Lemma others_in (ths : list T) i o : o ∈ delete i ths → ∃ j, ths !! j = Some o.
Proof using Type. intros Hin%list_elem_of_delete_inv. by apply list_elem_of_lookup. Qed.

(** Who waits to have a table for itself waits for one that keeps it. *)
Lemma excl_waits ths j o tb :
  ths !! j = Some o → excl o = Some tb →
  can_step blocked fin ths ∨ ∃ i th, ths !! i = Some th ∧ hold th = Some tb.
Proof using Hord Hblocked.
  intros Hj He. destruct (blocked (delete j ths) o) eqn:Hb; last first.
  { left. exists j, o. split_and!; [done|by eapply (lo_fin Hord o tb); right; left|done]. }
  right. destruct (Hblocked _ _ Hb) as (o' & tb' & Hin & Hwhy). pose proof (lo_one Hord _ _ He) as Hs.
  destruct (others_in _ _ _ Hin) as [i Hi]. exists i, o'. split; [done|].
  destruct Hwhy as [[[E|E] Hh]|[E _]]; congruence.
Qed.

Lemma holder_steps n ths i o tb :
  level tb = n → ths !! i = Some o → hold o = Some tb → can_step blocked fin ths.
Proof using Hord Hblocked.
  revert i o tb. induction n as [n IH] using lt_wf_ind. intros i o tb Hn Hi Hh.
  destruct (blocked (delete i ths) o) eqn:Hb; last first.
  { exists i, o. split_and!; [done|by eapply (lo_fin Hord o tb); left|done]. }
  destruct (Hblocked _ _ Hb) as (o' & tb' & Hin & Hwhy). destruct (others_in _ _ _ Hin) as [j Hj].
  assert (level tb' < n)%nat as Hlt by (subst n; eapply (lo_down Hord o); [done|]; destruct Hwhy as [[? _]|[? _]]; [done|by right]).
  destruct Hwhy as [[_ Hh']|[_ He]]; [by eapply (IH _ Hlt)|].
  destruct (excl_waits ths j o' tb' Hj He) as [?|(l & th & Hl & Hh')]; [done|]. by eapply (IH _ Hlt).
Qed.

Lemma ordered_can_step ths : existsb (λ th, negb (fin th)) ths = true → can_step blocked fin ths.
Proof using Hord Hblocked.
  intros (th & Hin%list_elem_of_In & Hf%negb_true_iff)%existsb_exists. apply list_elem_of_lookup in Hin as [i Hi].
  destruct (blocked (delete i ths) th) eqn:Hb; [|by exists i, th].
  destruct (Hblocked _ _ Hb) as (o & tb & Hin & Hwhy). destruct (others_in _ _ _ Hin) as [j Hj].
  destruct Hwhy as [[_ Hh]|[_ He]]; [by eapply holder_steps|].
  destruct (excl_waits ths j o tb Hj He) as [?|(l & th' & Hl & Hh)]; [done|]. by eapply holder_steps.
Qed.
End locks.
