(* ===== verification/SessionRegistry.v ===== *)
(** * Session registry ([wsprism-gateway/src/realtime/core/session_registry.rs])

    The registry of live sessions, its index by user and its per-tenant
    counters.  Each operation is a function of the registry; the code runs
    them from many tasks, but every one of them is a sequence of map
    operations, each atomic, and [try_insert] holds the write lock of the
    tenant's counter from its first line to its last, so that insertions of
    one tenant do not interleave.

    A [Connection] is known by its outbound channel, a number. *)

From S2P Require Import Prelude Errors Dash.

Record Connection := mkConnection { conn_tx : nat }.

Record SessionEntry := mkSessionEntry {
  se_conn : Connection;
  se_created_seq : Z;
  se_tenant_id : string;
}.

Record SessionRegistry := mkSessionRegistry {
  sr_sessions : gmap string SessionEntry;
  sr_user_index : index;
  sr_tenant_counts : gmap string Z;
  sr_seq : Z;
}.

(** [SessionRegistry::new]. *)
Definition sr_new : SessionRegistry := mkSessionRegistry ∅ ∅ ∅ 1.

(** [try_insert]. *)
Definition try_insert (r : SessionRegistry) (tenant user_key session_key : string)
    (conn : Connection) (max_total : Z) : Result unit * SessionRegistry :=
  let with_count c :=
    mkSessionRegistry (sr_sessions r) (sr_user_index r) (<[tenant := c]> (sr_tenant_counts r))
      (sr_seq r) in
  let current := default 0 (sr_tenant_counts r !! tenant) in
  if (0 <? max_total) && (max_total <=? current) then
    (Err (EResourceExhausted "tenant session limit reached"), with_count current)
  else
    let incremented := wrap64 (current + 1) in
    if (0 <? max_total) && (max_total <? incremented) then
      (Err (EResourceExhausted "tenant session limit reached (race)"),
       with_count (wrap64 (incremented - 1)))
    else
      (Ok tt,
       mkSessionRegistry
         (<[session_key := mkSessionEntry conn (sr_seq r) tenant]> (sr_sessions r))
         (idx_insert user_key session_key (sr_user_index r))
         (<[tenant := incremented]> (sr_tenant_counts r))
         (wrap64 (sr_seq r + 1))).

(** [remove_session]. *)
Definition remove_session (r : SessionRegistry) (user_key session_key : string)
    : option Connection * SessionRegistry :=
  let user_index := idx_remove user_key session_key (sr_user_index r) in
  match sr_sessions r !! session_key with
  | Some entry =>
      (Some (se_conn entry),
       mkSessionRegistry (delete session_key (sr_sessions r)) user_index
         (match sr_tenant_counts r !! se_tenant_id entry with
          | Some c => <[se_tenant_id entry := wrap64 (c - 1)]> (sr_tenant_counts r)
          | None => sr_tenant_counts r
          end)
         (sr_seq r))
  | None =>
      (None, mkSessionRegistry (sr_sessions r) user_index (sr_tenant_counts r) (sr_seq r))
  end.

(** [get_session]. *)
Definition get_session (r : SessionRegistry) (session_key : string) : option Connection :=
  se_conn <$> sr_sessions r !! session_key.

(** [count_user_sessions]. *)
Definition count_user_sessions (r : SessionRegistry) (user_key : string) : Z :=
  match sr_user_index r !! user_key with Some s => Z.of_nat (size s) | None => 0 end.

(** [count_tenant_sessions]. *)
Definition count_tenant_sessions (r : SessionRegistry) (tenant : string) : Z :=
  default 0 (sr_tenant_counts r !! tenant).

(** [len_sessions]. *)
Definition len_sessions (r : SessionRegistry) : Z := Z.of_nat (size (sr_sessions r)).

Section iteration.
Context `{!DashOrder}.

(** [get_user_sessions]. *)
Definition get_user_sessions (r : SessionRegistry) (user_key : string) : list Connection :=
  match sr_user_index r !! user_key with
  | None => []
  | Some set => omap (get_session r) (ds_iter set)
  end.

(** [all_sessions]. *)
Definition all_sessions (r : SessionRegistry) : list (string * Connection) :=
  prod_map id se_conn <$> dm_iter (sr_sessions r).

(** The loop of [evict_oldest]: the key with the smallest sequence number
    below the current best. *)
Definition oldest_step (r : SessionRegistry) (best : option string * Z) (k : string)
    : option string * Z :=
  match sr_sessions r !! k with
  | Some e => if se_created_seq e <? snd best then (Some k, se_created_seq e) else best
  | None => best
  end.

(** [evict_oldest]. *)
Definition evict_oldest (r : SessionRegistry) (user_key : string)
    : option (string * Connection) * SessionRegistry :=
  match sr_user_index r !! user_key with
  | None => (None, r)
  | Some set =>
      match fst (foldl (oldest_step r) (None, u64_max) (ds_iter set)) with
      | None => (None, r)
      | Some victim_key =>
          let '(conn, r') := remove_session r user_key victim_key in
          (pair victim_key <$> conn, r')
      end
  end.
End iteration.

(** ** Abstract registry: the set of live sessions *)

Record Session := mkSession {
  s_user : string;
  s_tenant : string;
  s_conn : Connection;
  s_seq : Z;
}.

Definition tenant_sessions (S : gmap string Session) (t : string) : gmap string Session :=
  filter (λ kv, s_tenant kv.2 = t) S.

Definition user_sessions (S : gmap string Session) (u : string) : gmap string Session :=
  filter (λ kv, s_user kv.2 = u) S.

Definition tenant_count (S : gmap string Session) (t : string) : Z :=
  Z.of_nat (size (tenant_sessions S t)).

(** The concrete registry holds the sessions [S]. *)
Record reg_rep (r : SessionRegistry) (S : gmap string Session) : Prop := {
  rr_sessions : sr_sessions r = (λ s, mkSessionEntry (s_conn s) (s_seq s) (s_tenant s)) <$> S;
  rr_index : idx_rep (sr_user_index r) (λ u k, ∃ s, S !! k = Some s ∧ s_user s = u);
  rr_counts t : default 0 (sr_tenant_counts r !! t) = wrap64 (tenant_count S t);
  rr_counted k s : S !! k = Some s → is_Some (sr_tenant_counts r !! s_tenant s);
  rr_seq : 1 ≤ sr_seq r ≤ u64_max;
  rr_old k s : S !! k = Some s → 1 ≤ s_seq s < sr_seq r;
  rr_inj k k' s s' : S !! k = Some s → S !! k' = Some s' → s_seq s = s_seq s' → k = k';
}.

(** ** Counting *)

Lemma tenant_count_insert S k s t :
  S !! k = None →
  tenant_count (<[k := s]> S) t = tenant_count S t + (if decide (s_tenant s = t) then 1 else 0).
Proof.
  intros Hk. rewrite /tenant_count /tenant_sessions.
  assert (filter (λ kv, s_tenant kv.2 = t) S !! k = None) as Hf.
  { apply map_lookup_filter_None. by left. }
  case_decide.
  - rewrite map_filter_insert_True // map_size_insert_None //. lia.
  - rewrite map_filter_insert_not' //; [lia|]. naive_solver.
Qed.

Lemma tenant_count_delete S k s t :
  S !! k = Some s →
  tenant_count (delete k S) t = tenant_count S t - (if decide (s_tenant s = t) then 1 else 0).
Proof.
  intros Hk. rewrite -{2}(insert_delete_id S k s) // tenant_count_insert ?lookup_delete_eq //. lia.
Qed.

Lemma tenant_count_pos S k s : S !! k = Some s → 1 ≤ tenant_count S (s_tenant s).
Proof.
  intros Hk. pose proof (tenant_count_delete S k s (s_tenant s) Hk) as H.
  rewrite decide_True // in H. rewrite /tenant_count in H |- *. lia.
Qed.

Lemma tenant_count_le S t : tenant_count S t ≤ Z.of_nat (size S).
Proof.
  rewrite /tenant_count. apply inj_le. apply map_subseteq_size.
  apply map_filter_subseteq.
Qed.

Lemma tenant_count_nonneg S t : 0 ≤ tenant_count S t.
Proof. rewrite /tenant_count. lia. Qed.

(** ** Refinement *)

Lemma reg_rep_new : reg_rep sr_new ∅.
Proof.
  split; cbn; try done.
  eapply idx_rep_iff; [apply idx_rep_empty|]. intros. split; [done|]. intros (? & ? & _).
  by simplify_map_eq.
Qed.

Section refine.
Context (r : SessionRegistry) (S : gmap string Session) (Hrep : reg_rep r S).

Lemma rep_lookup k :
  sr_sessions r !! k = (λ s, mkSessionEntry (s_conn s) (s_seq s) (s_tenant s)) <$> S !! k.
Proof using Hrep. by rewrite (rr_sessions _ _ Hrep) lookup_fmap. Qed.

Lemma rep_index u : idx_get (sr_user_index r) u = dom (user_sessions S u).
Proof using Hrep.
  eapply idx_get_eq; [apply Hrep|]. intros k. rewrite elem_of_dom /user_sessions.
  split.
  - intros [s [Hs Hu]%map_lookup_filter_Some]. eauto.
  - intros (s & Hs & Hu). exists s. by apply map_lookup_filter_Some.
Qed.

Lemma rep_count t : Z.of_nat (size S) ≤ u64_max → count_tenant_sessions r t = tenant_count S t.
Proof using Hrep.
  intros Hs. rewrite /count_tenant_sessions (rr_counts _ _ Hrep) wrap64_small //.
  pose proof (tenant_count_le S t). pose proof (tenant_count_nonneg S t). rewrite /is_u64. lia.
Qed.

Lemma rep_count_user u : count_user_sessions r u = Z.of_nat (size (user_sessions S u)).
Proof using Hrep.
  rewrite -(size_dom (user_sessions S u)) -rep_index /count_user_sessions /idx_get.
  destruct (sr_user_index r !! u); [done|]. cbn. by rewrite size_empty.
Qed.

(** Updating one counter keeps the others. *)
Lemma rep_counts_update S' t c :
  (∀ t', t' ≠ t → tenant_count S' t' = tenant_count S t') →
  wrap64 c = wrap64 (tenant_count S' t) → is_u64 c →
  ∀ t', default 0 (<[t := c]> (sr_tenant_counts r) !! t') = wrap64 (tenant_count S' t').
Proof using Hrep.
  intros Hne Hc Hu t'. rewrite lookup_insert. case_decide as E.
  - subst. cbn. by rewrite -Hc wrap64_small.
  - rewrite (rr_counts _ _ Hrep) Hne //.
Qed.

(** Writing a counter back unchanged changes nothing. *)
Lemma rep_touch t c :
  wrap64 c = wrap64 (tenant_count S t) → is_u64 c →
  reg_rep (mkSessionRegistry (sr_sessions r) (sr_user_index r)
             (<[t := c]> (sr_tenant_counts r)) (sr_seq r)) S.
Proof using Hrep.
  intros. split; cbn; try apply Hrep; [by apply rep_counts_update|].
  intros k s Hk. rewrite lookup_insert. case_decide; [done|]. by eapply Hrep.
Qed.
End refine.

(** A tenant may take one more session. *)
Definition has_room (max count : Z) : Prop := max = 0 ∨ count < max.

#[export] Instance has_room_dec max count : Decision (has_room max count).
Proof. rewrite /has_room. apply _. Defined.

Lemma try_insert_rep r S t u k c max :
  reg_rep r S → S !! k = None → is_u64 max → Z.of_nat (size S) < u64_max → sr_seq r < u64_max →
  if decide (has_room max (tenant_count S t))
  then fst (try_insert r t u k c max) = Ok tt
       ∧ reg_rep (snd (try_insert r t u k c max)) (<[k := mkSession u t c (sr_seq r)]> S)
  else fst (try_insert r t u k c max)
       = Err (EResourceExhausted "tenant session limit reached")
       ∧ reg_rep (snd (try_insert r t u k c max)) S.
Proof.
  intros Hrep Hk Hmax Hsize Hseq. rewrite /is_u64 in Hmax.
  pose proof (tenant_count_le S t). pose proof (tenant_count_nonneg S t).
  pose proof (rep_count r S Hrep t ltac:(lia)) as Hc. rewrite /count_tenant_sessions in Hc.
  rewrite /try_insert Hc. rewrite (wrap64_small (tenant_count S t + 1)); [|rewrite /is_u64; lia].
  case_decide as Hroom; rewrite /has_room in Hroom.
  - replace ((0 <? max) && (max <=? tenant_count S t)) with false by (symmetry; lia).
    replace ((0 <? max) && (max <? tenant_count S t + 1)) with false by (symmetry; lia).
    split; [done|]. cbn [snd]. destruct Hrep as [Hs Hi Hcn Hct Hq Ho Hinj].
    split; cbn [sr_sessions sr_user_index sr_tenant_counts sr_seq].
    + by rewrite fmap_insert Hs.
    + eapply idx_rep_iff; [by apply idx_insert_rep|]. intros u' k'. cbn beta.
      rewrite lookup_insert. case_decide as Ek; [|naive_solver]. subst k'. naive_solver.
    + apply (rep_counts_update r S); [by split| | |].
      * intros t' Ht. rewrite tenant_count_insert //= decide_False //. lia.
      * by rewrite tenant_count_insert //= decide_True.
      * rewrite /is_u64. lia.
    + intros k' s. rewrite !lookup_insert. repeat case_decide; subst; try done.
      * intros [= <-]. done.
      * apply Hct.
    + rewrite wrap64_small /is_u64; lia.
    + rewrite wrap64_small; [|rewrite /is_u64; lia]. intros k' s.
      rewrite lookup_insert. case_decide; [intros [= <-]; cbn; lia|]. intros ?%Ho. lia.
    + intros k1 k2 s1 s2. rewrite !lookup_insert.
      repeat case_decide; subst; try done; [| |apply Hinj];
        intros E1 E2; simplify_eq/=; intros E3;
        [apply Ho in E2|apply Ho in E1]; lia.
  - replace ((0 <? max) && (max <=? tenant_count S t)) with true by (symmetry; lia).
    split; [done|]. apply rep_touch; [done..|]. rewrite /is_u64. lia.
Qed.

(** An insertion draws at most one sequence number. *)
Lemma try_insert_seq r S t u k c max :
  reg_rep r S → sr_seq r < u64_max → sr_seq (snd (try_insert r t u k c max)) ≤ sr_seq r + 1.
Proof.
  intros Hrep Hseq. rewrite /try_insert. split_ifs; cbn; try lia.
  pose proof (rr_seq _ _ Hrep). rewrite wrap64_small /is_u64; lia.
Qed.

(** A session is removed by its own user, or is already gone. *)
Definition owned (S : gmap string Session) (u k : string) : Prop :=
  ∀ s, S !! k = Some s → s_user s = u.

Lemma remove_session_rep r S u k :
  reg_rep r S → owned S u k →
  fst (remove_session r u k) = s_conn <$> S !! k
  ∧ reg_rep (snd (remove_session r u k)) (delete k S).
Proof.
  intros Hrep Hown.
  assert (idx_rep (idx_remove u k (sr_user_index r))
            (λ u' k', ∃ s, delete k S !! k' = Some s ∧ s_user s = u')) as Hi'.
  { eapply idx_rep_iff; [apply idx_remove_rep, Hrep|]. intros u' k'. cbn beta.
    rewrite lookup_delete. case_decide as Ek; [|naive_solver]. subst k'. naive_solver. }
  rewrite /remove_session (rep_lookup r S Hrep). destruct (S !! k) as [s|] eqn:Ek; cbn.
  - split; [done|]. destruct Hrep as [Hs Hi Hcn Hct Hq Ho Hinj]. split; cbn; try done.
    + by rewrite fmap_delete Hs.
    + destruct (Hct _ _ Ek) as [c Hc]. rewrite Hc.
      apply (rep_counts_update r S); [by split| | |apply wrap64_range].
      * intros t' Ht. rewrite (tenant_count_delete _ _ _ _ Ek) decide_False //. lia.
      * rewrite (tenant_count_delete _ _ _ _ Ek) decide_True //.
        pose proof (Hcn (s_tenant s)) as Hcs. rewrite Hc /= in Hcs.
        rewrite Hcs wrap64_sub. apply Z.mod_mod. done.
    + intros k' s' [_ Hk']%lookup_delete_Some.
      destruct (Hct _ _ Ek) as [c ->]. rewrite lookup_insert. case_decide; [done|eauto].
    + intros k' s' [_ ?]%lookup_delete_Some. eauto.
    + intros k1 k2 s1 s2 [_ ?]%lookup_delete_Some [_ ?]%lookup_delete_Some. eauto.
  - rewrite delete_id //. split; [done|].
    destruct Hrep as [Hs Hi Hcn Hct Hq Ho Hinj]. split; cbn; try done.
    by rewrite delete_id in Hi'.
Qed.

(** The loop of [evict_oldest] keeps the best so far, or finds the least of
    what it has seen. *)
Lemma foldl_oldest r l b0 :
  let res := foldl (oldest_step r) b0 l in
  (res = b0 ∧ ∀ k e, k ∈ l → sr_sessions r !! k = Some e → snd b0 ≤ se_created_seq e)
  ∨ ∃ k e, k ∈ l ∧ sr_sessions r !! k = Some e ∧ res = (Some k, se_created_seq e)
           ∧ se_created_seq e < snd b0
           ∧ ∀ k' e', k' ∈ l → sr_sessions r !! k' = Some e' → se_created_seq e ≤ se_created_seq e'.
Proof.
  revert b0. induction l as [|x l IH]; intros b0; cbn [foldl].
  { left. split; [done|]. set_solver. }
  assert ((oldest_step r b0 x = b0
           ∧ ∀ e, sr_sessions r !! x = Some e → snd b0 ≤ se_created_seq e)
          ∨ ∃ e, sr_sessions r !! x = Some e ∧ se_created_seq e < snd b0
                 ∧ oldest_step r b0 x = (Some x, se_created_seq e)) as Hx.
  { rewrite /oldest_step. destruct (sr_sessions r !! x) as [e|]; [|naive_solver].
    destruct (_ <? _) eqn:E; unbool; naive_solver. }
  destruct Hx as [[-> Hx]|(ex & Hex & Hlt & ->)].
  - destruct (IH b0) as [[-> H]|(k & e & Hk & He & -> & Hlt & H)]; [left|right].
    + split; [done|]. intros k' e' [->|Hk']%elem_of_cons He'; eauto.
    + exists k, e. split_and!; try done; [set_solver|].
      intros k' e' [->|Hk']%elem_of_cons He'; [specialize (Hx _ He'); lia|eauto].
  - right. destruct (IH (Some x, se_created_seq ex)) as [[-> H]|(k & e & Hk & He & -> & Hlt' & H)].
    + exists x, ex. split_and!; try done; [set_solver|]. cbn in H.
      intros k' e' [->|Hk']%elem_of_cons He'; [simplify_eq; lia|eauto].
    + exists k, e. cbn in Hlt'. split_and!; try done; [set_solver|lia|].
      intros k' e' [->|Hk']%elem_of_cons He'; [simplify_eq; lia|eauto].
Qed.

Lemma evict_oldest_rep `{!DashOrder, !DashOrderLaws} r S u :
  reg_rep r S →
  match evict_oldest r u with
  | (None, r') => user_sessions S u = ∅ ∧ r' = r
  | (Some (k, c), r') =>
      ∃ s, S !! k = Some s ∧ s_user s = u ∧ c = s_conn s
           ∧ (∀ k' s', S !! k' = Some s' → s_user s' = u → k' ≠ k → s_seq s < s_seq s')
           ∧ reg_rep r' (delete k S)
  end.
Proof.
  intros Hrep. rewrite /evict_oldest. pose proof (rep_index r S Hrep u) as Hidx.
  assert (∀ k, k ∈ idx_get (sr_user_index r) u ↔ ∃ s, S !! k = Some s ∧ s_user s = u) as Hin.
  { intros k. apply Hrep. }
  destruct (sr_user_index r !! u) as [set|] eqn:Eu.
  2:{ split; [|done]. rewrite /idx_get Eu /= in Hidx. symmetry in Hidx.
      apply dom_empty_iff_L. done. }
  rewrite /idx_get Eu /= in Hin.
  assert (∀ k, k ∈ ds_iter set ↔ ∃ s, S !! k = Some s ∧ s_user s = u) as Hit.
  { intros k. by rewrite ds_iter_perm elem_of_elements. }
  destruct (foldl_oldest r (ds_iter set) (None, u64_max))
    as [[-> Hle]|(k & e & Hk & He & -> & _ & Hmin)]; cbn [fst].
  - destruct (set_choose_or_empty set) as [[k Hk]|Hempty].
    + apply Hin in Hk as (s & Hs & Hu). pose proof (rr_old _ _ Hrep _ _ Hs).
      pose proof (rr_seq _ _ Hrep).
      specialize (Hle k (mkSessionEntry (s_conn s) (s_seq s) (s_tenant s))). cbn in Hle.
      rewrite Hit (rep_lookup r S Hrep) Hs in Hle. specialize (Hle ltac:(eauto) eq_refl). lia.
    + destruct (idx_nonempty _ _ (rr_index _ _ Hrep) _ _ Eu). by apply leibniz_equiv.
  - apply Hit in Hk as (s & Hs & Hu). rewrite (rep_lookup r S Hrep) Hs in He. injection He as <-.
    destruct (remove_session_rep r S u k Hrep) as [Hc Hr']; [intros ? ?; by simplify_eq|].
    destruct (remove_session r u k) as [c r']. cbn in Hc, Hr' |- *. rewrite Hs /= in Hc. subst c.
    cbn. exists s. split_and!; try done. intros k' s' Hs' Hu' Hne.
    specialize (Hmin k' (mkSessionEntry (s_conn s') (s_seq s') (s_tenant s'))).
    rewrite Hit (rep_lookup r S Hrep) Hs' in Hmin. specialize (Hmin ltac:(eauto) eq_refl). cbn in Hmin.
    destruct (decide (s_seq s = s_seq s')) as [E|]; [|lia].
    by destruct (Hne (rr_inj _ _ Hrep _ _ _ _ Hs' Hs (eq_sym E))).
Qed.

(** Eviction draws no sequence number. *)
Lemma evict_oldest_seq `{!DashOrder} r u res r' :
  evict_oldest r u = (res, r') → sr_seq r' = sr_seq r.
Proof.
  rewrite /evict_oldest. destruct (sr_user_index r !! u); [|by intros [= _ <-]].
  destruct (foldl _ _ _).1 as [k'|]; [|by intros [= _ <-]]. rewrite /remove_session.
  destruct (_ !! k'); by intros [= _ <-].
Qed.

(** ** Reachable registries *)

(** Runs of the registry: insertions under fresh keys with the cap of their
    tenant, removals by the owner, evictions. [n] counts the insertions tried;
    [S] records which sessions are live, from the answers alone. *)
Inductive reg_reach `{!DashOrder} (cap : string → Z)
    : nat → SessionRegistry → gmap string Session → Prop :=
| reach_new : reg_reach cap 0 sr_new ∅
| reach_insert n r S t u k c res r' :
    reg_reach cap n r S → S !! k = None →
    try_insert r t u k c (cap t) = (res, r') →
    reg_reach cap (Datatypes.S n) r'
      (if is_ok res then <[k := mkSession u t c (sr_seq r)]> S else S)
| reach_remove n r S u k res r' :
    reg_reach cap n r S → owned S u k →
    remove_session r u k = (res, r') →
    reg_reach cap n r' (delete k S)
| reach_evict n r S u res r' :
    reg_reach cap n r S →
    evict_oldest r u = (res, r') →
    reg_reach cap n r' (match res with Some (k, _) => delete k S | None => S end).

Definition within_cap (cap : string → Z) (S : gmap string Session) : Prop :=
  ∀ t, 0 < cap t → tenant_count S t ≤ cap t.

Lemma within_cap_delete cap S k : within_cap cap S → within_cap cap (delete k S).
Proof.
  intros H t Ht. specialize (H t Ht). destruct (S !! k) as [s|] eqn:E.
  - rewrite (tenant_count_delete _ _ _ _ E). case_decide; lia.
  - by rewrite delete_id.
Qed.

Lemma size_delete_le {A} (S : gmap string A) k : (size (delete k S) ≤ size S)%nat.
Proof. apply map_subseteq_size, delete_subseteq. Qed.

Lemma reg_reach_rep `{!DashOrder, !DashOrderLaws} cap n r S :
  (∀ t, is_u64 (cap t)) → reg_reach cap n r S → Z.of_nat n < u64_max →
  reg_rep r S ∧ (size S ≤ n)%nat ∧ sr_seq r ≤ Z.of_nat n + 1 ∧ within_cap cap S.
Proof.
  intros Hcap Hreach. induction Hreach as
    [|n r S t u k c res r' _ IH Hk Hins|n r S u k res r' _ IH Hown Hrm|n r S u res r' _ IH Hev];
    intros Hn.
  - split_and!; [apply reg_rep_new|done|done|]. intros t Ht.
    rewrite /tenant_count /tenant_sessions map_filter_empty map_size_empty. lia.
  - destruct IH as (Hrep & Hsz & Hseq & Hw); [lia|].
    assert (sr_seq r' ≤ sr_seq r + 1) as Hsq.
    { change r' with (snd (res, r')). rewrite -Hins. apply (try_insert_seq _ S); [done|lia]. }
    pose proof (try_insert_rep r S t u k c (cap t) Hrep Hk (Hcap t) ltac:(lia) ltac:(lia)) as Hspec.
    rewrite Hins /= in Hspec. case_decide as Hroom; destruct Hspec as [-> Hrep']; cbn [is_ok].
    + split_and!; [done|rewrite map_size_insert_None //; lia|lia|].
      intros t' Ht'. rewrite tenant_count_insert //=. case_decide; [subst|].
      * destruct Hroom; lia.
      * specialize (Hw t' Ht'). lia.
    + split_and!; [done|lia|lia|done].
  - destruct IH as (Hrep & Hsz & Hseq & Hw); [lia|].
    destruct (remove_session_rep r S u k Hrep Hown) as [_ Hrep']. rewrite Hrm /= in Hrep'.
    pose proof (size_delete_le S k).
    split_and!; [done|lia| |by apply within_cap_delete].
    revert Hrm. rewrite /remove_session. destruct (_ !! k); intros [= _ <-]; done.
  - destruct IH as (Hrep & Hsz & Hseq & Hw); [lia|].
    pose proof (evict_oldest_rep r S u Hrep) as Hspec. rewrite Hev in Hspec.
    destruct res as [[k c]|]; [|by destruct Hspec as [_ ->]].
    destruct Hspec as (s & Hs & Hu & _ & _ & Hrep'). pose proof (size_delete_le S k).
    split_and!; [done|lia| |by apply within_cap_delete].
    by rewrite (evict_oldest_seq _ _ _ _ Hev).
Qed.

Lemma elements_dom_perm {A} (m : gmap string A) : elements (dom m) ≡ₚ (map_to_list m).*1.
Proof.
  apply NoDup_Permutation; [apply NoDup_elements|apply NoDup_fst_map_to_list|].
  intros k. rewrite elem_of_elements elem_of_dom list_elem_of_fmap. split.
  - intros [x Hx]. exists (k, x). by rewrite elem_of_map_to_list.
  - intros ([k' x] & -> & Hx%elem_of_map_to_list). eauto.
Qed.

Lemma omap_fmap_Some {A B C} (f : B → option C) (h : A → B) (g : A → C) l :
  Forall (λ x, f (h x) = Some (g x)) l → omap f (h <$> l) = g <$> l.
Proof. induction 1 as [|x l Hx _ IH]; [done|]. cbn. rewrite Hx. f_equal. exact IH. Qed.

Lemma rep_registered r S t :
  reg_rep r S →
  size (filter (λ kv, se_tenant_id kv.2 = t) (sr_sessions r)) = size (tenant_sessions S t).
Proof.
  intros Hrep. by rewrite (rr_sessions _ _ Hrep) map_filter_fmap map_size_fmap.
Qed.

(** The connections of a user, in some order. *)
Lemma get_user_sessions_rep `{!DashOrder, !DashOrderLaws} r S u :
  reg_rep r S →
  get_user_sessions r u ≡ₚ (s_conn ∘ snd) <$> map_to_list (user_sessions S u).
Proof.
  intros Hrep. pose proof (rep_index r S Hrep u) as Hidx.
  assert (get_user_sessions r u ≡ₚ omap (get_session r) (elements (dom (user_sessions S u)))) as ->.
  { rewrite -Hidx /get_user_sessions /idx_get.
    destruct (sr_user_index r !! u) as [set|]; cbn; [by rewrite ds_iter_perm|].
    by rewrite elements_empty. }
  rewrite elements_dom_perm (omap_fmap_Some _ _ (s_conn ∘ snd)) //.
  apply Forall_forall. intros [k s] [Hs _]%elem_of_map_to_list%map_lookup_filter_Some. cbn.
  by rewrite /get_session (rep_lookup r S Hrep) Hs.
Qed.

(** Tenant capacity. In every reachable registry the counter of a tenant
    is the number of its registered sessions, and never exceeds the tenant's
    cap. (Insertions use keys that are not registered.) *)
Theorem registry_capacity `{!DashOrder, !DashOrderLaws} cap n r S t :
  (∀ t, is_u64 (cap t)) → reg_reach cap n r S → Z.of_nat n < u64_max →
  count_tenant_sessions r t
  = Z.of_nat (size (filter (λ kv, se_tenant_id kv.2 = t) (sr_sessions r)))
  ∧ (0 < cap t → count_tenant_sessions r t ≤ cap t).
Proof.
  intros Hcap Hreach Hn. destruct (reg_reach_rep _ _ _ _ Hcap Hreach Hn) as (Hrep & Hsz & _ & Hw).
  rewrite (rep_count r S Hrep); [|lia]. rewrite (rep_registered r S t Hrep). split; [done|].
  apply Hw.
Qed.

(** A second session under a cap of one is refused. *)
Lemma registry_capacity_witness :
  let r1 := snd (try_insert sr_new "t" "t::u" "t::u::1" (mkConnection 1) 1) in
  let r2 := snd (try_insert r1 "t" "t::u" "t::u::2" (mkConnection 2) 1) in
  count_tenant_sessions r2 "t" ≤ 1.
Proof.
  intros r1 r2. eapply (registry_capacity (λ _, 1) 2 r2 _ "t").
  - done.
  - apply (reach_insert _ 1 r1 {["t::u::1" := mkSession "t::u" "t" (mkConnection 1) 1]}
             "t" "t::u" "t::u::2" (mkConnection 2) (fst (try_insert r1 "t" "t::u" "t::u::2" (mkConnection 2) 1)) r2).
    + apply (reach_insert (λ _, 1) 0 sr_new ∅ "t" "t::u" "t::u::1" (mkConnection 1) (Ok tt) r1).
      * apply reach_new.
      * reflexivity.
      * reflexivity.
    + reflexivity.
    + by vm_compute.
  - done.
  - done.
Defined.

(** [try_insert] under a fresh key implements "add to the set of live
    sessions unless the tenant is full": it succeeds exactly when the cap is
    zero or not reached, then the new session is registered under its user and
    tenant with the next sequence number and nothing else changes; otherwise
    it reports resource exhaustion and the set is unchanged. The re-check the
    code makes against a race never fires. *)
Theorem try_insert_refines r S t u k c max :
  reg_rep r S → S !! k = None → is_u64 max → Z.of_nat (size S) < u64_max → sr_seq r < u64_max →
  let '(res, r') := try_insert r t u k c max in
  (res = Ok tt ∧ has_room max (tenant_count S t)
   ∧ reg_rep r' (<[k := mkSession u t c (sr_seq r)]> S) ∧ get_session r' k = Some c)
  ∨ (res = Err (EResourceExhausted "tenant session limit reached")
     ∧ ¬ has_room max (tenant_count S t) ∧ reg_rep r' S ∧ get_session r' k = None).
Proof.
  intros Hrep Hk Hmax Hsz Hseq.
  pose proof (try_insert_rep r S t u k c max Hrep Hk Hmax Hsz Hseq) as H.
  destruct (try_insert r t u k c max) as [res r']. cbn [fst snd] in H.
  case_decide; destruct H as [-> Hrep']; [left|right]; split_and!; try done;
    rewrite /get_session (rep_lookup _ _ Hrep').
  - by rewrite lookup_insert_eq.
  - by rewrite Hk.
Qed.

Lemma try_insert_refines_witness :
  reg_rep (snd (try_insert sr_new "t" "t::u" "t::u::1" (mkConnection 7) 1))
    {["t::u::1" := mkSession "t::u" "t" (mkConnection 7) 1]}.
Proof.
  destruct (try_insert_refines sr_new ∅ "t" "t::u" "t::u::1" (mkConnection 7) 1)
    as [(_ & _ & H & _)|(H & _)].
  - apply reg_rep_new.
  - done.
  - done.
  - done.
  - done.
  - exact H.
  - done.
Defined.

(** The index by user is exact. A user's sessions, as counted for the
    session policy and as used for delivery, are the registered sessions of
    that user, each once. *)
Theorem user_index_exact `{!DashOrder, !DashOrderLaws} r S u :
  reg_rep r S →
  count_user_sessions r u = Z.of_nat (size (user_sessions S u))
  ∧ get_user_sessions r u ≡ₚ (s_conn ∘ snd) <$> map_to_list (user_sessions S u)
  ∧ Z.of_nat (length (get_user_sessions r u)) = count_user_sessions r u.
Proof.
  intros Hrep. rewrite (rep_count_user r S Hrep).
  pose proof (get_user_sessions_rep r S u Hrep) as Hp. split_and!; [done..|].
  by rewrite Hp length_fmap length_map_to_list.
Qed.

Lemma user_index_exact_witness : count_user_sessions sr_new "u" = 0.
Proof. exact (proj1 (user_index_exact sr_new ∅ "u" reg_rep_new)). Defined.

(** A session key that is already registered breaks the accounting. The
    session id comes from the client, so two connections may ask for the same
    key: the second insertion succeeds and replaces the first entry, the
    cleanup of the first connection then unregisters the second, and after
    both have gone the tenant's counter is one more than its sessions, for
    good. *)
Theorem duplicate_key_leaks r S k s c max :
  reg_rep r S → S !! k = Some s → is_u64 max → Z.of_nat (size S) < u64_max →
  has_room max (tenant_count S (s_tenant s)) →
  let '(res, r1) := try_insert r (s_tenant s) (s_user s) k c max in
  let '(first, r2) := remove_session r1 (s_user s) k in
  let '(second, r3) := remove_session r2 (s_user s) k in
  res = Ok tt ∧ first = Some c ∧ get_session r2 k = None ∧ second = None
  ∧ count_tenant_sessions r3 (s_tenant s) = tenant_count (delete k S) (s_tenant s) + 1.
Proof.
  intros Hrep Hk Hmax Hsz Hroom. set (t := s_tenant s). rewrite /is_u64 in Hmax.
  pose proof (tenant_count_le S t). pose proof (tenant_count_nonneg S t).
  pose proof (rep_count r S Hrep t ltac:(lia)) as Hc. rewrite /count_tenant_sessions in Hc.
  rewrite /try_insert Hc. rewrite (wrap64_small (tenant_count S t + 1)); [|rewrite /is_u64; lia].
  fold t in Hroom. rewrite /has_room in Hroom.
  replace ((0 <? max) && (max <=? tenant_count S t)) with false by (symmetry; lia).
  replace ((0 <? max) && (max <? tenant_count S t + 1)) with false by (symmetry; lia).
  rewrite /remove_session. cbn. rewrite lookup_insert_eq. cbn. rewrite lookup_insert_eq. cbn.
  rewrite lookup_delete_eq. split_and!; try done.
  - by rewrite /get_session /= lookup_delete_eq.
  - rewrite /count_tenant_sessions /= lookup_insert_eq /= (tenant_count_delete _ _ _ _ Hk).
    rewrite decide_True // wrap64_small; [lia|rewrite /is_u64; lia].
Qed.

(** After two connections with the same session id have come and gone, a
    tenant capped at two sessions has one left. *)
Lemma duplicate_key_leaks_witness :
  let r0 := snd (try_insert sr_new "t" "t::u" "t::u::tab" (mkConnection 1) 2) in
  let r1 := snd (try_insert r0 "t" "t::u" "t::u::tab" (mkConnection 2) 2) in
  let r3 := snd (remove_session (snd (remove_session r1 "t::u" "t::u::tab"))
                   "t::u" "t::u::tab") in
  len_sessions r3 = 0 ∧ count_tenant_sessions r3 "t" = 1.
Proof.
  intros r0 r1 r3. split; [by vm_compute|].
  assert (reg_rep r0 {["t::u::tab" := mkSession "t::u" "t" (mkConnection 1) 1]}) as Hrep.
  { exact (proj2 (try_insert_rep sr_new ∅ "t" "t::u" "t::u::tab" (mkConnection 1) 2
                    reg_rep_new eq_refl ltac:(done) ltac:(done) ltac:(done))). }
  refine (proj2 (proj2 (proj2 (proj2 (duplicate_key_leaks r0 _ "t::u::tab"
            (mkSession "t::u" "t" (mkConnection 1) 1) (mkConnection 2) 2 Hrep _ _ _ _))))).
  - reflexivity.
  - done.
  - done.
  - by right.
Defined.
