(* ===== verification/Presence.v ===== *)
(** * Room presence ([wsprism-gateway/src/realtime/core/presence.rs])

    Six tables kept in step: the two routing indices, the two governance
    indices, the per-user-and-room reference counts, and the per-tenant room
    counters.  The abstract state they implement is one set of memberships,
    (session, room).

    Keys are strings; the reference counts are kept under the concatenation
    [user_key::room_key].  The theorems here take the reading of keys as
    parameters (the user a session belongs to, the tenant of a room, which
    concatenations are unambiguous); [Keys.v] discharges them for the keys the
    gateway builds.  Counters and reference counts are machine integers with
    wrap-around, as in a release build. *)

From S2P Require Import Prelude Errors Config Dash.

Record Presence := mkPresence {
  room_to_sessions : index;
  session_to_rooms : index;
  room_to_users : index;
  user_to_rooms : index;
  user_room_refs : gmap string Z;
  tenant_room_counts : gmap string Z;
}.

(** [Presence::new]. *)
Definition pr_new : Presence := mkPresence ∅ ∅ ∅ ∅ ∅ ∅.

(** [format!("{}::{}", user_key, room_key)]. *)
Definition ref_key (user_key room_key : string) : string := user_key +:+ "::" +:+ room_key.

(** A set at its limit that does not have the element yet. *)
Definition at_limit (limit : Z) (set : option (gset string)) (x : string) : bool :=
  (0 <? limit)
  && match set with
     | Some set => (limit <=? Z.of_nat (size set)) && negb (bool_decide (x ∈ set))
     | None => false
     end.

(** Step 4 of [try_join], "Perform Join": routing, then governance. *)
Definition perform_join (p : Presence) (room_key user_key session_key : string) : Presence :=
  let refs := wrap64 (default 0 (user_room_refs p !! ref_key user_key room_key) + 1) in
  mkPresence
    (idx_insert room_key session_key (room_to_sessions p))
    (idx_insert session_key room_key (session_to_rooms p))
    (if refs =? 1 then idx_insert room_key user_key (room_to_users p) else room_to_users p)
    (if refs =? 1 then idx_insert user_key room_key (user_to_rooms p) else user_to_rooms p)
    (<[ref_key user_key room_key := refs]> (user_room_refs p))
    (tenant_room_counts p).

(** Writing a tenant's room counter. *)
Definition set_room_count (p : Presence) (tenant : string) (c : Z) : Presence :=
  mkPresence (room_to_sessions p) (session_to_rooms p) (room_to_users p) (user_to_rooms p)
    (user_room_refs p) (<[tenant := c]> (tenant_room_counts p)).

(** [try_join]. *)
Definition try_join (p : Presence) (tenant room_key user_key session_key : string)
    (lim : TenantLimits) : Result unit * Presence :=
  if at_limit (max_users_per_room lim) (room_to_users p !! room_key) user_key then
    (Err (EResourceExhausted "room user limit reached"), p)
  else if at_limit (max_rooms_per_user lim) (user_to_rooms p !! user_key) room_key then
    (Err (EResourceExhausted "user room limit reached"), p)
  else
    let is_new_room := bool_decide (room_to_sessions p !! room_key = None) in
    let counter := default 0 (tenant_room_counts p !! tenant) in
    if is_new_room && (0 <? max_rooms_total lim) && (max_rooms_total lim <=? counter) then
      (Err (EResourceExhausted "tenant room limit reached"), set_room_count p tenant counter)
    else
      let p := if is_new_room then set_room_count p tenant (wrap64 (counter + 1)) else p in
      (Ok tt, perform_join p room_key user_key session_key).

(** [leave]. *)
Definition leave (p : Presence) (tenant room_key user_key session_key : string) : Presence :=
  let room_empty :=
    match room_to_sessions p !! room_key with
    | Some set => bool_decide (set ∖ {[session_key]} = ∅)
    | None => false
    end in
  let refs := (λ c, wrap64 (c - 1)) <$> user_room_refs p !! ref_key user_key room_key in
  let remove_user_mapping := match refs with Some c => c =? 0 | None => false end in
  mkPresence
    (idx_remove room_key session_key (room_to_sessions p))
    (idx_remove session_key room_key (session_to_rooms p))
    (if remove_user_mapping then idx_remove room_key user_key (room_to_users p)
     else room_to_users p)
    (if remove_user_mapping then idx_remove user_key room_key (user_to_rooms p)
     else user_to_rooms p)
    (match refs with
     | Some c => if remove_user_mapping then delete (ref_key user_key room_key) (user_room_refs p)
                 else <[ref_key user_key room_key := c]> (user_room_refs p)
     | None => user_room_refs p
     end)
    (if room_empty then
       match tenant_room_counts p !! tenant with
       | Some c => <[tenant := wrap64 (c - 1)]> (tenant_room_counts p)
       | None => tenant_room_counts p
       end
     else tenant_room_counts p).

Section iteration.
Context `{!DashOrder}.

(** [sessions_in]. *)
Definition sessions_in (p : Presence) (room_key : string) : list string :=
  match room_to_sessions p !! room_key with Some set => ds_iter set | None => [] end.

(** [cleanup_session]. *)
Definition cleanup_session (p : Presence) (tenant user_key session_key : string) : Presence :=
  match session_to_rooms p !! session_key with
  | None => p
  | Some rooms =>
      let p := mkPresence (room_to_sessions p) (delete session_key (session_to_rooms p))
                 (room_to_users p) (user_to_rooms p) (user_room_refs p)
                 (tenant_room_counts p) in
      foldl (λ p room_key, leave p tenant room_key user_key session_key) p (ds_iter rooms)
  end.
End iteration.

(** ** Abstract presence: a set of memberships *)

Abbreviation members := (gset (string * string)).

Section presence.
(** The user a session belongs to, and the tenant of a room. *)
Context (owner room_tenant : string → string).
(** The sessions of user [u] in room [r], counted. *)
Definition refs (M : members) (u r : string) : Z :=
  Z.of_nat (size (filter (λ x, owner x.1 = u ∧ x.2 = r) M)).

(** The users in a room, the rooms of a user, the rooms of a tenant. *)
Definition users_of (M : members) (r : string) : gset string :=
  set_map (λ x, owner x.1) (filter (λ x, x.2 = r) M).
Definition rooms_of (M : members) (u : string) : gset string :=
  set_map snd (filter (λ x, owner x.1 = u) M).
Definition tenant_rooms (M : members) (t : string) : gset string :=
  set_map snd (filter (λ x, room_tenant x.2 = t) M).

(** ** Counting memberships *)

Implicit Types (M K : members) (s r u t : string).

Lemma size_filter_insert (P : string * string → Prop) `{!∀ x, Decision (P x)} M x :
  x ∉ M →
  Z.of_nat (size (filter P ({[x]} ∪ M)))
  = Z.of_nat (size (filter P M)) + (if decide (P x) then 1 else 0).
Proof.
  intros Hx. rewrite filter_union_L filter_singleton_L. case_decide.
  - rewrite size_union; [|set_solver]. rewrite size_singleton. lia.
  - rewrite union_empty_l_L. lia.
Qed.

Lemma refs_insert M s r u' r' :
  (s, r) ∉ M →
  refs ({[(s, r)]} ∪ M) u' r' = refs M u' r' + (if decide (owner s = u' ∧ r = r') then 1 else 0).
Proof. intros H. by rewrite /refs size_filter_insert. Qed.

Lemma member_split M x : x ∈ M → M = {[x]} ∪ M ∖ {[x]}.
Proof. intros Hx. apply union_difference_L. set_solver. Qed.

Lemma refs_delete M s r u' r' :
  (s, r) ∈ M →
  refs (M ∖ {[(s, r)]}) u' r' = refs M u' r' - (if decide (owner s = u' ∧ r = r') then 1 else 0).
Proof. intros H. rewrite {2}(member_split M _ H) refs_insert; [lia|set_solver]. Qed.

Lemma refs_nonneg M u r : 0 ≤ refs M u r.
Proof. rewrite /refs. lia. Qed.

Lemma refs_le M u r : refs M u r ≤ Z.of_nat (size M).
Proof. rewrite /refs. apply inj_le, subseteq_size. set_solver. Qed.

Lemma refs_zero M u r : refs M u r = 0 ↔ ∀ s, (s, r) ∈ M → owner s ≠ u.
Proof.
  rewrite /refs. transitivity (size (filter (λ x, owner x.1 = u ∧ x.2 = r) M) = 0%nat); [lia|].
  rewrite size_empty_iff leibniz_equiv_iff. split.
  - intros H s Hs Ho. assert ((s, r) ∈ filter (λ x, owner x.1 = u ∧ x.2 = r) M) as Hin.
    { by apply elem_of_filter. }
    rewrite H in Hin. set_solver.
  - intros H. apply set_eq => -[s r']. rewrite elem_of_filter. cbn. naive_solver set_solver.
Qed.

Lemma elem_of_tenant_rooms M t r : r ∈ tenant_rooms M t ↔ room_tenant r = t ∧ ∃ s, (s, r) ∈ M.
Proof.
  rewrite /tenant_rooms elem_of_map. setoid_rewrite elem_of_filter. split.
  - intros ([s r'] & -> & <- & H). cbn. eauto.
  - intros (<- & s & H). exists (s, r). done.
Qed.

Lemma elem_of_users_of M r u : u ∈ users_of M r ↔ ∃ s, (s, r) ∈ M ∧ owner s = u.
Proof.
  rewrite /users_of elem_of_map. setoid_rewrite elem_of_filter. split.
  - intros ([s r'] & -> & <- & H). cbn. eauto.
  - intros (s & H & <-). exists (s, r). done.
Qed.

Lemma elem_of_rooms_of M u r : r ∈ rooms_of M u ↔ ∃ s, (s, r) ∈ M ∧ owner s = u.
Proof.
  rewrite /rooms_of elem_of_map. setoid_rewrite elem_of_filter. split.
  - intros ([s r'] & -> & <- & H). cbn. eauto.
  - intros (s & H & <-). exists (s, r). done.
Qed.

(** A membership opens a room, or changes no tenant's rooms. *)
Lemma tenant_rooms_insert M s r t :
  Z.of_nat (size (tenant_rooms ({[(s, r)]} ∪ M) t))
  = Z.of_nat (size (tenant_rooms M t))
    + (if decide (room_tenant r = t ∧ r ∉ tenant_rooms M t) then 1 else 0).
Proof.
  case_decide as H.
  - destruct H as [Ht Hr].
    assert (tenant_rooms ({[(s, r)]} ∪ M) t = {[r]} ∪ tenant_rooms M t) as ->.
    { apply set_eq => r'. rewrite elem_of_union !elem_of_tenant_rooms. set_solver. }
    rewrite size_union; [|set_solver]. rewrite size_singleton. lia.
  - assert (tenant_rooms ({[(s, r)]} ∪ M) t = tenant_rooms M t) as ->; [|lia].
    apply set_eq => r'. rewrite !elem_of_tenant_rooms.
    destruct (decide (r' = r)) as [->|]; [|set_solver].
    destruct (decide (room_tenant r = t)) as [E|]; [|naive_solver].
    destruct (decide (r ∈ tenant_rooms M t)) as [Hr|]; [|naive_solver].
    apply elem_of_tenant_rooms in Hr as [_ [s' Hs']]. set_solver.
Qed.

Lemma size_set_map_le {A} `{Countable A} (f : A → string) (X : gset A) :
  (size (set_map f X : gset string) ≤ size X)%nat.
Proof.
  induction X as [|x X Hx IH] using set_ind_L; [by rewrite set_map_empty !size_empty|].
  rewrite set_map_union_L set_map_singleton_L size_union_alt size_singleton.
  rewrite size_union; [|set_solver]. rewrite size_singleton.
  assert (size ((set_map f X : gset string) ∖ {[f x]}) ≤ size (set_map f X : gset string))%nat;
    [apply subseteq_size; set_solver|lia].
Qed.

Lemma tenant_rooms_le M t : Z.of_nat (size (tenant_rooms M t)) ≤ Z.of_nat (size M).
Proof.
  rewrite /tenant_rooms. apply inj_le. etransitivity; [apply size_set_map_le|].
  apply subseteq_size. set_solver.
Qed.

(** ** The tables of a set of memberships *)

(** Pairs of a user and a room whose concatenation is unambiguous. *)
Context (valid : string → string → Prop).

(** The tables hold the memberships [M]; the index by session holds [K],
    which differs from [M] only while a session is being cleaned up. *)
Record pres_rep (p : Presence) (M K : members) : Prop := {
  pr_rs : idx_rep (room_to_sessions p) (λ r s, (s, r) ∈ M);
  pr_sr : idx_rep (session_to_rooms p) (λ s r, (s, r) ∈ K);
  pr_ru : idx_rep (room_to_users p) (λ r u, ∃ s, (s, r) ∈ M ∧ owner s = u);
  pr_ur : idx_rep (user_to_rooms p) (λ u r, ∃ s, (s, r) ∈ M ∧ owner s = u);
  pr_refs u r : valid u r →
    user_room_refs p !! ref_key u r = if decide (refs M u r = 0) then None else Some (refs M u r);
  pr_counts t : default 0 (tenant_room_counts p !! t) = wrap64 (Z.of_nat (size (tenant_rooms M t)));
  pr_counted s r : (s, r) ∈ M → is_Some (tenant_room_counts p !! room_tenant r);
  pr_valid s r : (s, r) ∈ M → valid (owner s) r;
}.

(** ** Joining *)

(** A limit is not in the way: it is off, not reached, or the element is
    already counted. *)
Definition below (limit : Z) (set : gset string) (x : string) : Prop :=
  limit = 0 ∨ Z.of_nat (size set) < limit ∨ x ∈ set.

#[local] Instance below_dec limit set x : Decision (below limit set x).
Proof. rewrite /below. apply _. Defined.

(** What [try_join] has to check, on memberships. *)
Definition can_join (lim : TenantLimits) M s r : Prop :=
  below (max_users_per_room lim) (users_of M r) (owner s)
  ∧ below (max_rooms_per_user lim) (rooms_of M (owner s)) r
  ∧ below (max_rooms_total lim) (tenant_rooms M (room_tenant r)) r.

Definition limits_typed (lim : TenantLimits) : Prop :=
  is_u64 (max_users_per_room lim) ∧ is_u64 (max_rooms_per_user lim)
  ∧ is_u64 (max_rooms_total lim).

Lemma at_limit_spec limit (m : index) k x :
  0 ≤ limit → at_limit limit (m !! k) x = true ↔ ¬ below limit (idx_get m k) x.
Proof using Type.
  clear owner room_tenant valid. intros Hl. rewrite /at_limit /below /idx_get. destruct (m !! k) as [set|]; cbn.
  - case_bool_decide; cbn; split; intros; unbool; [done|naive_solver lia|naive_solver lia|].
    assert (0 < limit ∧ limit ≤ Z.of_nat (size set)) as [? ?] by naive_solver lia.
    apply andb_true_iff; split; [lia|]. rewrite andb_true_r. lia.
  - rewrite andb_false_r size_empty. split; [done|]. intros []. lia.
Qed.

Lemma rep_users p M K r : pres_rep p M K → idx_get (room_to_users p) r = users_of M r.
Proof. intros H. eapply idx_get_eq; [apply H|]. intros. apply elem_of_users_of. Qed.

Lemma rep_rooms p M K u : pres_rep p M K → idx_get (user_to_rooms p) u = rooms_of M u.
Proof. intros H. eapply idx_get_eq; [apply H|]. intros. apply elem_of_rooms_of. Qed.

Lemma rep_new_room p M K r :
  pres_rep p M K →
  bool_decide (room_to_sessions p !! r = None)
  = bool_decide (r ∉ tenant_rooms M (room_tenant r)).
Proof.
  intros H. apply bool_decide_ext. rewrite (idx_absent _ _ _ (pr_rs _ _ _ H)).
  rewrite elem_of_tenant_rooms. naive_solver.
Qed.

Lemma at_limit_false limit (m : index) k x :
  0 ≤ limit → at_limit limit (m !! k) x = false ↔ below limit (idx_get m k) x.
Proof using Type.
  clear owner room_tenant valid. intros Hl. rewrite -not_true_iff_false at_limit_spec //.
  destruct (decide (below limit (idx_get m k) x)); naive_solver.
Qed.

(** The reference count after a join. *)
Lemma join_refs_val p M K s r :
  pres_rep p M K → valid (owner s) r → Z.of_nat (size M) < u64_max →
  wrap64 (default 0 (user_room_refs p !! ref_key (owner s) r) + 1) = refs M (owner s) r + 1.
Proof.
  intros H Hv Hsz. pose proof (refs_le M (owner s) r). pose proof (refs_nonneg M (owner s) r).
  rewrite (pr_refs _ _ _ H _ _ Hv).
  assert (default 0 (if decide (refs M (owner s) r = 0) then None
                     else Some (refs M (owner s) r)) = refs M (owner s) r) as ->.
  { by case_decide. }
  apply wrap64_small. rewrite /is_u64. lia.
Qed.

Context (ref_key_valid : ∀ u r u' r', valid u r → valid u' r' →
           ref_key u r = ref_key u' r' → u = u' ∧ r = r').

(** The reference counts after a join. *)
Lemma join_refs p M K s r u' r' :
  pres_rep p M K → (s, r) ∉ M → valid (owner s) r → valid u' r' →
  <[ref_key (owner s) r := refs M (owner s) r + 1]> (user_room_refs p) !! ref_key u' r'
  = (if decide (refs ({[(s, r)]} ∪ M) u' r' = 0) then None
     else Some (refs ({[(s, r)]} ∪ M) u' r')).
Proof using ref_key_valid.
  intros H Hn Hv Hv'. rewrite refs_insert //.
  pose proof (refs_nonneg M (owner s) r). rewrite lookup_insert. case_decide as Ek.
  - apply ref_key_valid in Ek as [<- <-]; [|done..].
    rewrite (decide_True (P := _ ∧ _)) //. rewrite decide_False; [done|lia].
  - rewrite (decide_False (P := _ ∧ _)); [|naive_solver].
    rewrite Z.add_0_r. by apply (pr_refs _ _ _ H).
Qed.

(** The first session of a user in a room enters the governance indices;
    a further one is there already. *)
Lemma join_governance (m : index) M s r (flip : bool) k x :
  idx_rep m (λ k x, let '(r, u) := if flip then (x, k) else (k, x) in
                    ∃ s, (s, r) ∈ M ∧ owner s = u) →
  (k, x) = (if flip then (owner s, r) else (r, owner s)) →
  idx_rep (if refs M (owner s) r + 1 =? 1 then idx_insert k x m else m)
    (λ k x, let '(r', u) := if flip then (x, k) else (k, x) in
            ∃ s', (s', r') ∈ {[(s, r)]} ∪ M ∧ owner s' = u).
Proof.
  intros Hm Hkx. destruct (_ =? 1) eqn:E; unbool.
  - eapply idx_rep_iff; [by apply idx_insert_rep|]. intros k' x'.
    destruct flip; simplify_eq/=; set_solver.
  - eapply idx_rep_iff; [exact Hm|]. intros k' x'.
    assert (∃ s', (s', r) ∈ M ∧ owner s' = owner s) as (s' & Hs' & Ho).
    { destruct (decide (owner s ∈ users_of M r)) as [Hin|Hn]; [by apply elem_of_users_of|].
      destruct E. assert (refs M (owner s) r = 0) as ->; [|done]. apply refs_zero.
      intros s' Hs' Ho. apply Hn, elem_of_users_of. eauto. }
    destruct flip; cbn; split; [set_solver| |set_solver|];
      intros (s2 & [[= -> ->]%elem_of_singleton|Hs2]%elem_of_union & <-); eauto.
Qed.

(** Step 4 on any state whose counters are already those of the new
    memberships. *)
Lemma perform_join_rep p M s r :
  pres_rep p M M → (s, r) ∉ M → valid (owner s) r → Z.of_nat (size M) < u64_max →
  ∀ p', (∀ t, default 0 (tenant_room_counts p' !! t)
              = wrap64 (Z.of_nat (size (tenant_rooms ({[(s, r)]} ∪ M) t)))) →
        (∀ t, is_Some (tenant_room_counts p !! t) → is_Some (tenant_room_counts p' !! t)) →
        is_Some (tenant_room_counts p' !! room_tenant r) →
        room_to_sessions p' = room_to_sessions p → session_to_rooms p' = session_to_rooms p →
        room_to_users p' = room_to_users p → user_to_rooms p' = user_to_rooms p →
        user_room_refs p' = user_room_refs p →
  pres_rep (perform_join p' r (owner s) s) ({[(s, r)]} ∪ M) ({[(s, r)]} ∪ M).
Proof using ref_key_valid.
  intros H Hn Hv Hsz p' Hc Hmono Hr E1 E2 E3 E4 E5.
  rewrite /perform_join E1 E2 E3 E4 E5 (join_refs_val _ _ _ _ _ H Hv Hsz).
  split; cbn -[refs]; try done.
  - eapply idx_rep_iff; [apply idx_insert_rep, H|]. set_solver.
  - eapply idx_rep_iff; [apply idx_insert_rep, H|]. set_solver.
  - by apply (join_governance _ _ _ _ false); [apply H|].
  - by apply (join_governance _ _ _ _ true); [apply H|].
  - intros u' r' Hv'. by eapply join_refs.
  - intros s' r' [[= -> ->]%elem_of_singleton|Hin]%elem_of_union; [done|].
    by eapply Hmono, H.
  - intros s' r' [[= -> ->]%elem_of_singleton|Hin]%elem_of_union; [done|]. by eapply H.
Qed.

(** Touching a counter without changing its value. *)
Lemma set_room_count_rep p M K t :
  pres_rep p M K → Z.of_nat (size M) < u64_max →
  pres_rep (set_room_count p t (Z.of_nat (size (tenant_rooms M t)))) M K.
Proof.
  intros H Hsz. pose proof (tenant_rooms_le M t). destruct H. split; cbn; try done.
  - intros t'. rewrite lookup_insert. case_decide; [subst; cbn|done].
    rewrite wrap64_small //. rewrite /is_u64. lia.
  - intros s' r' Hin. rewrite lookup_insert. case_decide; eauto.
Qed.

(** The counters after a join. *)
Lemma join_counts p M K s r t :
  pres_rep p M K → Z.of_nat (size M) < u64_max →
  default 0 (tenant_room_counts
    (if bool_decide (r ∉ tenant_rooms M (room_tenant r))
     then set_room_count p (room_tenant r)
            (Z.of_nat (size (tenant_rooms M (room_tenant r))) + 1)
     else p) !! t)
  = wrap64 (Z.of_nat (size (tenant_rooms ({[(s, r)]} ∪ M) t))).
Proof.
  intros H Hsz. pose proof (tenant_rooms_le M (room_tenant r)). rewrite tenant_rooms_insert.
  case_bool_decide as Hr.
  - cbn. rewrite lookup_insert. destruct (decide (room_tenant r = t)) as [<-|Ht]; cbn.
    + rewrite decide_True //. rewrite wrap64_small //. rewrite /is_u64; lia.
    + rewrite decide_False; [|naive_solver]. rewrite Z.add_0_r. apply H.
  - rewrite decide_False; [|naive_solver]. rewrite Z.add_0_r. apply H.
Qed.

Lemma try_join_rep p M s r lim :
  pres_rep p M M → (s, r) ∉ M → valid (owner s) r → limits_typed lim →
  Z.of_nat (size M) < u64_max →
  match try_join p (room_tenant r) r (owner s) s lim with
  | (Ok _, p') => can_join lim M s r ∧ pres_rep p' ({[(s, r)]} ∪ M) ({[(s, r)]} ∪ M)
  | (Err e, p') => ¬ can_join lim M s r ∧ client_code e = ResourceExhausted ∧ pres_rep p' M M
  end.
Proof using ref_key_valid.
  intros H Hn Hv (Hl1 & Hl2 & Hl3) Hsz. rewrite /try_join /can_join.
  destruct (at_limit _ (room_to_users p !! r) _) eqn:E1.
  { apply at_limit_spec in E1; [|apply Hl1]. rewrite (rep_users _ _ _ _ H) in E1. naive_solver. }
  destruct (at_limit _ (user_to_rooms p !! _) _) eqn:E2.
  { apply at_limit_spec in E2; [|apply Hl2]. rewrite (rep_rooms _ _ _ _ H) in E2. naive_solver. }
  apply at_limit_false in E1; [|apply Hl1]. apply at_limit_false in E2; [|apply Hl2].
  rewrite (rep_users _ _ _ _ H) in E1. rewrite (rep_rooms _ _ _ _ H) in E2.
  rewrite (rep_new_room _ _ _ _ H) (pr_counts _ _ _ H).
  pose proof (tenant_rooms_le M (room_tenant r)). rewrite /is_u64 in Hl3.
  rewrite !(wrap64_small (Z.of_nat _)) ?(wrap64_small (Z.of_nat _ + 1));
    [|rewrite /is_u64; lia..].
  destruct (_ && _) eqn:E3.
  { unbool. split_and!; [rewrite /below; naive_solver lia|done|by apply set_room_count_rep]. }
  split.
  { split_and!; [done..|]. rewrite /below.
    destruct (decide (r ∈ tenant_rooms M (room_tenant r))) as [|Hr]; [by do 2 right|].
    rewrite (bool_decide_true (r ∉ _)) //= in E3. unbool. destruct E3; unbool; lia. }
  apply (perform_join_rep p); try done; [intros t; by apply (join_counts _ _ M)|..];
    case_bool_decide as Hr; try done; cbn.
  - intros t ?. rewrite lookup_insert. by case_decide.
  - by rewrite lookup_insert_eq.
  - apply elem_of_tenant_rooms in Hr as (_ & s'' & Hs''). by eapply H.
Qed.

(** ** Leaving *)

(** The last session of a user in a room takes the user out of the
    governance indices; an earlier one does not. *)
Lemma leave_governance (m : index) M s r (flip : bool) k x :
  (s, r) ∈ M →
  idx_rep m (λ k x, let '(r, u) := if flip then (x, k) else (k, x) in
                    ∃ s, (s, r) ∈ M ∧ owner s = u) →
  (k, x) = (if flip then (owner s, r) else (r, owner s)) →
  idx_rep (if refs M (owner s) r - 1 =? 0 then idx_remove k x m else m)
    (λ k x, let '(r', u) := if flip then (x, k) else (k, x) in
            ∃ s', (s', r') ∈ M ∖ {[(s, r)]} ∧ owner s' = u).
Proof.
  intros Hin Hm Hkx.
  assert (refs M (owner s) r - 1 = 0
          ↔ ∀ s', (s', r) ∈ M ∖ {[(s, r)]} → owner s' ≠ owner s) as Hlast.
  { rewrite -refs_zero refs_delete // decide_True //. }
  destruct (_ =? 0) eqn:E; unbool.
  - eapply idx_rep_iff; [by apply idx_remove_rep|]. intros k' x'.
    assert (∀ s', (s', r) ∈ M → owner s' = owner s → s' = s) as Hone.
    { intros s' Hs' Ho. destruct (decide (s' = s)); [done|].
      destruct (proj1 Hlast E s' ltac:(set_solver) Ho). }
    destruct flip; simplify_eq/=; split; [intros [(s' & ? & <-) Hne]| |intros [(s' & ? & <-) Hne]|];
      set_solver.
  - eapply idx_rep_iff; [exact Hm|]. intros k' x'.
    assert (∃ s', (s', r) ∈ M ∖ {[(s, r)]} ∧ owner s' = owner s) as (s1 & Hs1 & Ho).
    { destruct (decide (owner s ∈ users_of (M ∖ {[(s, r)]}) r)) as [Hu|Hn];
        [by apply elem_of_users_of|].
      destruct E. apply Hlast. intros s' Hs' Ho. apply Hn, elem_of_users_of. eauto. }
    destruct flip; cbn; (split; [|set_solver]); intros (s2 & Hs2 & <-).
    + destruct (decide ((s2, x') = (s, r))) as [[= -> ->]|]; set_solver.
    + destruct (decide ((s2, k') = (s, r))) as [[= -> ->]|]; set_solver.
Qed.

Lemma leave_refs p M K s r u' r' :
  pres_rep p M K → (s, r) ∈ M → valid u' r' →
  (if refs M (owner s) r - 1 =? 0 then delete (ref_key (owner s) r) (user_room_refs p)
   else <[ref_key (owner s) r := refs M (owner s) r - 1]> (user_room_refs p)) !! ref_key u' r'
  = (if decide (refs (M ∖ {[(s, r)]}) u' r' = 0) then None
     else Some (refs (M ∖ {[(s, r)]}) u' r')).
Proof using ref_key_valid.
  intros H Hin Hv'. pose proof (pr_valid _ _ _ H _ _ Hin) as Hv. rewrite refs_delete //.
  destruct (decide (ref_key (owner s) r = ref_key u' r')) as [Ek|Ek].
  - apply ref_key_valid in Ek as [<- <-]; [|done..]. rewrite (decide_True (P := _ ∧ _)) //.
    destruct (_ =? 0) eqn:E; unbool.
    + rewrite lookup_delete_eq decide_True //.
    + rewrite lookup_insert_eq decide_False //.
  - rewrite (decide_False (P := _ ∧ _)); [|naive_solver]. rewrite Z.sub_0_r.
    destruct (_ =? 0); rewrite ?lookup_delete_ne ?lookup_insert_ne //; by apply (pr_refs _ _ _ H).
Qed.

Lemma leave_empty p M K s r :
  pres_rep p M K → (s, r) ∈ M →
  match room_to_sessions p !! r with
  | Some set => bool_decide (set ∖ {[s]} = ∅)
  | None => false
  end = bool_decide (r ∉ tenant_rooms (M ∖ {[(s, r)]}) (room_tenant r)).
Proof.
  intros H Hin. destruct (room_to_sessions p !! r) as [set|] eqn:E.
  2:{ destruct (proj1 (idx_absent _ _ _ (pr_rs _ _ _ H)) E s Hin). }
  assert (∀ s', s' ∈ set ↔ (s', r) ∈ M) as Hset.
  { intros s'. rewrite -(idx_elem _ _ (pr_rs _ _ _ H)) /idx_get E. done. }
  apply bool_decide_ext. rewrite elem_of_tenant_rooms. split.
  - intros He (_ & s' & Hs'). assert (s' ∈ set ∖ {[s]}) as Hs.
    { apply elem_of_difference. rewrite Hset. set_solver. }
    rewrite He in Hs. set_solver.
  - intros Hr. apply set_eq => s'. rewrite elem_of_difference Hset. split; [|set_solver].
    intros [Hs' Hne]. destruct Hr. split; [done|]. exists s'. set_solver.
Qed.

Lemma leave_counts p M K s r t :
  pres_rep p M K → (s, r) ∈ M →
  default 0 ((if bool_decide (r ∉ tenant_rooms (M ∖ {[(s, r)]}) (room_tenant r)) then
     match tenant_room_counts p !! room_tenant r with
     | Some c => <[room_tenant r := wrap64 (c - 1)]> (tenant_room_counts p)
     | None => tenant_room_counts p
     end
   else tenant_room_counts p) !! t)
  = wrap64 (Z.of_nat (size (tenant_rooms (M ∖ {[(s, r)]}) t))).
Proof.
  intros H Hin. pose proof (tenant_rooms_insert (M ∖ {[(s, r)]}) s r t) as Hins.
  rewrite -(member_split _ _ Hin) in Hins. pose proof (pr_counts _ _ _ H t) as Hct.
  case_bool_decide as Hr.
  - destruct (pr_counted _ _ _ H _ _ Hin) as [c Hc]. rewrite Hc lookup_insert.
    destruct (decide (room_tenant r = t)) as [<-|Ht]; cbn.
    + rewrite decide_True // in Hins. rewrite Hc /= in Hct. rewrite Hct wrap64_sub.
      f_equal. lia.
    + rewrite decide_False in Hins; [|naive_solver]. rewrite Hct. f_equal. lia.
  - rewrite decide_False in Hins; [|naive_solver]. rewrite Hct. f_equal. lia.
Qed.

Lemma leave_rep p M K s r :
  pres_rep p M K → (s, r) ∈ M → Z.of_nat (size M) ≤ u64_max →
  pres_rep (leave p (room_tenant r) r (owner s) s) (M ∖ {[(s, r)]}) (K ∖ {[(s, r)]}).
Proof using ref_key_valid.
  intros H Hin Hsz. pose proof (pr_valid _ _ _ H _ _ Hin) as Hv.
  pose proof (refs_le M (owner s) r).
  assert (1 ≤ refs M (owner s) r) as Hpos.
  { destruct (decide (refs M (owner s) r = 0)) as [E|]; [|pose proof (refs_nonneg M (owner s) r); lia].
    by destruct (proj1 (refs_zero _ _ _) E s Hin). }
  rewrite /leave (pr_refs _ _ _ H _ _ Hv) decide_False; [|lia]. cbn [fmap option_fmap option_map].
  rewrite (wrap64_small (refs M (owner s) r - 1)); [|rewrite /is_u64; lia].
  rewrite (leave_empty _ _ _ _ _ H Hin).
  split; cbn -[refs].
  - eapply idx_rep_iff; [apply idx_remove_rep, H|]. set_solver.
  - eapply idx_rep_iff; [apply idx_remove_rep, H|]. set_solver.
  - by apply (leave_governance _ _ _ _ false); [|apply H|].
  - by apply (leave_governance _ _ _ _ true); [|apply H|].
  - intros u' r' Hv'. by eapply leave_refs.
  - intros t. by eapply leave_counts.
  - intros s' r' [Hs' _]%elem_of_difference. pose proof (pr_counted _ _ _ H _ _ Hs').
    case_bool_decide; [|done]. destruct (tenant_room_counts p !! room_tenant r) eqn:Ec; [|done].
    rewrite lookup_insert. by case_decide.
  - intros s' r' [Hs' _]%elem_of_difference. by eapply H.
Qed.

(** ** Cleaning up a session *)

(** The memberships of all sessions but [s]. *)
Definition without M s : members := filter (λ x, x.1 ≠ s) M.

Definition rooms_of_session (s : string) (rs : list string) : members :=
  list_to_set ((λ r, (s, r)) <$> rs).

Lemma elem_of_rooms_of_session s rs x :
  x ∈ rooms_of_session s rs ↔ x.1 = s ∧ x.2 ∈ rs.
Proof.
  rewrite /rooms_of_session elem_of_list_to_set list_elem_of_fmap.
  destruct x as [s' r]; cbn. naive_solver.
Qed.

Lemma foldl_leave_rep s t rs p M K :
  pres_rep p M K → NoDup rs → (∀ r, r ∈ rs → (s, r) ∈ M ∧ room_tenant r = t) →
  Z.of_nat (size M) ≤ u64_max →
  pres_rep (foldl (λ p r, leave p t r (owner s) s) p rs)
    (M ∖ rooms_of_session s rs) (K ∖ rooms_of_session s rs).
Proof using ref_key_valid.
  intros H Hnd. revert p M K H. induction Hnd as [|r rs Hr _ IH]; intros p M K H Hin Hsz; cbn.
  { by rewrite /rooms_of_session /= !difference_empty_L. }
  destruct (Hin r ltac:(by constructor)) as [Hsr <-].
  assert (∀ X : members, X ∖ rooms_of_session s (r :: rs)
                         = (X ∖ {[(s, r)]}) ∖ rooms_of_session s rs) as Hsplit.
  { intros X. apply set_eq => -[s' r']. rewrite !elem_of_difference !elem_of_rooms_of_session.
    rewrite elem_of_cons. set_solver. }
  rewrite !Hsplit. apply IH.
  - by apply leave_rep.
  - intros r' Hr'. destruct (Hin r' ltac:(by constructor)) as [? ?]. split; [|done].
    apply elem_of_difference. split; [done|]. intros [= ->]%elem_of_singleton. done.
  - etransitivity; [|exact Hsz]. apply inj_le, subseteq_size. set_solver.
Qed.

Lemma cleanup_session_rep `{!DashOrder, !DashOrderLaws} p M s t :
  pres_rep p M M → (∀ r, (s, r) ∈ M → room_tenant r = t) → Z.of_nat (size M) ≤ u64_max →
  pres_rep (cleanup_session p t (owner s) s) (without M s) (without M s).
Proof using ref_key_valid.
  intros Hp Ht Hsz. rewrite /cleanup_session.
  destruct (session_to_rooms p !! s) as [rooms|] eqn:E.
  2:{ assert (without M s = M) as ->; [|done]. apply set_eq => -[s' r'].
      rewrite /without elem_of_filter. cbn. split; [naive_solver|]. intros Hin. split; [|done].
      intros ->. by destruct (proj1 (idx_absent _ _ _ (pr_sr _ _ _ Hp)) E r'). }
  assert (∀ r, r ∈ ds_iter rooms ↔ (s, r) ∈ M) as Hrooms.
  { intros r. rewrite ds_iter_perm elem_of_elements -(idx_elem _ _ (pr_sr _ _ _ Hp)) /idx_get E. done. }
  assert (M ∖ rooms_of_session s (ds_iter rooms) = without M s) as HM.
  { apply set_eq => -[s' r']. rewrite elem_of_difference elem_of_rooms_of_session Hrooms.
    rewrite /without elem_of_filter. cbn. naive_solver. }
  assert (without M s ∖ rooms_of_session s (ds_iter rooms) = without M s) as HK.
  { apply set_eq => -[s' r']. rewrite elem_of_difference elem_of_rooms_of_session.
    rewrite /without elem_of_filter. cbn. naive_solver. }
  rewrite -{1}HM -HK. apply foldl_leave_rep; [|rewrite ds_iter_perm; apply NoDup_elements| |done].
  - destruct Hp. split; cbn; try done. split.
    + intros k x. rewrite /idx_get lookup_delete /without elem_of_filter. cbn.
      case_decide; [subst; set_solver|]. rewrite -(idx_elem _ _ pr_sr0). naive_solver.
    + intros k x [_ ?]%lookup_delete_Some. by eapply pr_sr0.
  - intros r Hr. split; [by apply Hrooms|]. by apply Ht, Hrooms.
Qed.
End presence.
