(* ===== verification/Race.v ===== *)
(** * Rooms, one map operation at a time
      ([wsprism-gateway/src/realtime/core/presence.rs])

    [Presence.v] runs each of [try_join], [leave] and [cleanup_session] in one
    go.  The code runs them from many threads, without a lock around them:
    here a thread is a program counter with its local variables, and one step
    is one operation on a [DashMap], on a [DashSet] inside one, or on a
    counter.  A guard that the code keeps across operations (a [Ref], shared;
    a [RefMut], exclusive) is part of the program counter, and a thread that
    needs exclusive access to the entry waits for it.

    A thread that runs alone does what [Presence.v] says; of threads that run
    together we show how far a limit can be overrun, and what goes wrong. *)

From S2P Require Import Prelude Errors Config Dash Threads Presence.

(** The arguments of a call. *)
Record Call := mkCall {
  c_tenant : string;
  c_room : string;
  c_user : string;
  c_session : string;
  c_limits : TenantLimits;
}.

(** Where a thread is: before the operation that the name tells. [J]: in
    [try_join]; [L]: in [leave], with [room_empty] once it is known; [C]: in
    [cleanup_session]. A name in [_in] or [_empty] is the second operation
    on a set whose [Ref] is kept. *)
Inductive Pc :=
| J_users | J_users_in
| J_rooms | J_rooms_in
| J_new | J_count (is_new : bool)
| J_room | J_session
| J_refs | J_user | J_user_rooms
| L_room | L_room_empty | L_room_drop
| L_session (empty : bool) | L_session_empty (empty : bool) | L_session_drop (empty : bool)
| L_refs (empty : bool) | L_refs_drop (empty : bool)
| L_rooms (empty : bool) | L_rooms_empty (empty : bool) | L_rooms_drop (empty : bool)
| L_users (empty : bool) | L_users_empty (empty : bool) | L_users_drop (empty : bool)
| L_count (empty : bool)
| C_take
| Returned (r : Result unit).

(** A thread, and the rooms that its cleanup has still to leave. *)
Record Thread := mkThread { th_call : Call; th_pc : Pc; th_rooms : list string }.

(** ** Steps *)

(** The six tables. *)
Inductive table := TRoomSessions | TSessionRooms | TRoomUsers | TUserRooms | TRefs | TCounts.

#[export] Instance table_eq_dec : EqDecision table.
Proof. solve_decision. Defined.

Section tables.
Implicit Types (p : Presence) (m : index).

Definition set_room_sessions p m : Presence :=
  mkPresence m (session_to_rooms p) (room_to_users p) (user_to_rooms p) (user_room_refs p)
    (tenant_room_counts p).
Definition set_session_rooms p m : Presence :=
  mkPresence (room_to_sessions p) m (room_to_users p) (user_to_rooms p) (user_room_refs p)
    (tenant_room_counts p).
Definition set_room_users p m : Presence :=
  mkPresence (room_to_sessions p) (session_to_rooms p) m (user_to_rooms p) (user_room_refs p)
    (tenant_room_counts p).
Definition set_user_rooms p m : Presence :=
  mkPresence (room_to_sessions p) (session_to_rooms p) (room_to_users p) m (user_room_refs p)
    (tenant_room_counts p).
Definition set_refs p (m : gmap string Z) : Presence :=
  mkPresence (room_to_sessions p) (session_to_rooms p) (room_to_users p) (user_to_rooms p) m
    (tenant_room_counts p).

(** [set.remove(x)] of the set of [k], which stays in the map. *)
Definition set_remove (k x : string) m : index := alter (λ s, s ∖ {[x]}) k m.
(** [set.is_empty()]. *)
Definition set_is_empty (k : string) m : bool :=
  match m !! k with Some s => bool_decide (s = ∅) | None => true end.
End tables.

Section steps.
Context `{!DashOrder}.
Implicit Types (c : Call) (p : Presence).

(** The operations of [try_join]. *)
Definition join_step c (pc : Pc) p : Pc * Presence :=
  match pc with
  | J_users =>
      if 0 <? max_users_per_room (c_limits c) then
        match room_to_users p !! c_room c with
        | Some users =>
            if max_users_per_room (c_limits c) <=? Z.of_nat (size users) then (J_users_in, p)
            else (J_rooms, p)
        | None => (J_rooms, p)
        end
      else (J_rooms, p)
  | J_users_in =>
      if bool_decide (c_user c ∈ idx_get (room_to_users p) (c_room c)) then (J_rooms, p)
      else (Returned (Err (EResourceExhausted "room user limit reached")), p)
  | J_rooms =>
      if 0 <? max_rooms_per_user (c_limits c) then
        match user_to_rooms p !! c_user c with
        | Some rooms =>
            if max_rooms_per_user (c_limits c) <=? Z.of_nat (size rooms) then (J_rooms_in, p)
            else (J_new, p)
        | None => (J_new, p)
        end
      else (J_new, p)
  | J_rooms_in =>
      if bool_decide (c_room c ∈ idx_get (user_to_rooms p) (c_user c)) then (J_new, p)
      else (Returned (Err (EResourceExhausted "user room limit reached")), p)
  | J_new => (J_count (bool_decide (room_to_sessions p !! c_room c = None)), p)
  | J_count false => (J_room, p)
  | J_count true =>
      let counter := default 0 (tenant_room_counts p !! c_tenant c) in
      if (0 <? max_rooms_total (c_limits c)) && (max_rooms_total (c_limits c) <=? counter) then
        (Returned (Err (EResourceExhausted "tenant room limit reached")),
         set_room_count p (c_tenant c) counter)
      else (J_room, set_room_count p (c_tenant c) (wrap64 (counter + 1)))
  | J_room => (J_session, set_room_sessions p (idx_insert (c_room c) (c_session c) (room_to_sessions p)))
  | J_session => (J_refs, set_session_rooms p (idx_insert (c_session c) (c_room c) (session_to_rooms p)))
  | J_refs =>
      let rk := ref_key (c_user c) (c_room c) in
      let refs := wrap64 (default 0 (user_room_refs p !! rk) + 1) in
      (if refs =? 1 then J_user else Returned (Ok tt), set_refs p (<[rk := refs]> (user_room_refs p)))
  | J_user => (J_user_rooms, set_room_users p (idx_insert (c_room c) (c_user c) (room_to_users p)))
  | J_user_rooms =>
      (Returned (Ok tt), set_user_rooms p (idx_insert (c_user c) (c_room c) (user_to_rooms p)))
  | pc => (pc, p)
  end.

(** The operations of [leave]. *)
Definition leave_step c (pc : Pc) p : Pc * Presence :=
  match pc with
  | L_room =>
      match room_to_sessions p !! c_room c with
      | Some _ =>
          (L_room_empty, set_room_sessions p (set_remove (c_room c) (c_session c) (room_to_sessions p)))
      | None => (L_session false, p)
      end
  | L_room_empty =>
      if set_is_empty (c_room c) (room_to_sessions p) then (L_room_drop, p) else (L_session false, p)
  | L_room_drop => (L_session true, set_room_sessions p (delete (c_room c) (room_to_sessions p)))
  | L_session e =>
      match session_to_rooms p !! c_session c with
      | Some _ =>
          (L_session_empty e,
           set_session_rooms p (set_remove (c_session c) (c_room c) (session_to_rooms p)))
      | None => (L_refs e, p)
      end
  | L_session_empty e =>
      (if set_is_empty (c_session c) (session_to_rooms p) then L_session_drop e else L_refs e, p)
  | L_session_drop e => (L_refs e, set_session_rooms p (delete (c_session c) (session_to_rooms p)))
  | L_refs e =>
      let rk := ref_key (c_user c) (c_room c) in
      match user_room_refs p !! rk with
      | Some n =>
          let n := wrap64 (n - 1) in
          (if n =? 0 then L_refs_drop e else L_count e, set_refs p (<[rk := n]> (user_room_refs p)))
      | None => (L_count e, p)
      end
  | L_refs_drop e => (L_rooms e, set_refs p (delete (ref_key (c_user c) (c_room c)) (user_room_refs p)))
  | L_rooms e =>
      match user_to_rooms p !! c_user c with
      | Some _ => (L_rooms_empty e, set_user_rooms p (set_remove (c_user c) (c_room c) (user_to_rooms p)))
      | None => (L_users e, p)
      end
  | L_rooms_empty e => (if set_is_empty (c_user c) (user_to_rooms p) then L_rooms_drop e else L_users e, p)
  | L_rooms_drop e => (L_users e, set_user_rooms p (delete (c_user c) (user_to_rooms p)))
  | L_users e =>
      match room_to_users p !! c_room c with
      | Some _ => (L_users_empty e, set_room_users p (set_remove (c_room c) (c_user c) (room_to_users p)))
      | None => (L_count e, p)
      end
  | L_users_empty e => (if set_is_empty (c_room c) (room_to_users p) then L_users_drop e else L_count e, p)
  | L_users_drop e => (L_count e, set_room_users p (delete (c_room c) (room_to_users p)))
  | L_count e =>
      (Returned (Ok tt),
       if e then
         match tenant_room_counts p !! c_tenant c with
         | Some n => set_room_count p (c_tenant c) (wrap64 (n - 1))
         | None => p
         end
       else p)
  | pc => (pc, p)
  end.

(** The next room of a cleanup. *)
Definition next_room c (rooms : list string) : Thread :=
  match rooms with
  | [] => mkThread c (Returned (Ok tt)) []
  | r :: rooms => mkThread (mkCall (c_tenant c) r (c_user c) (c_session c) (c_limits c)) L_room rooms
  end.

(** One operation of a thread. *)
Definition micro (x : Thread * Presence) : Thread * Presence :=
  let '(mkThread c pc rooms, p) := x in
  match pc with
  | J_users | J_users_in | J_rooms | J_rooms_in | J_new | J_count _ | J_room | J_session | J_refs
  | J_user | J_user_rooms =>
      let '(pc, p) := join_step c pc p in (mkThread c pc rooms, p)
  | C_take =>
      match session_to_rooms p !! c_session c with
      | None => (next_room c [], p)
      | Some set => (next_room c (ds_iter set), set_session_rooms p (delete (c_session c) (session_to_rooms p)))
      end
  | L_count e => (next_room c rooms, (leave_step c pc p).2)
  | Returned _ => x
  | _ => let '(pc, p) := leave_step c pc p in (mkThread c pc rooms, p)
  end.

(** ** Guards *)

(** The entry whose guard a thread keeps before its next operation. *)
Definition holds (th : Thread) : option (table * string) :=
  let c := th_call th in
  match th_pc th with
  | J_users_in | L_users_empty _ => Some (TRoomUsers, c_room c)
  | J_rooms_in | L_rooms_empty _ => Some (TUserRooms, c_user c)
  | J_user | J_user_rooms => Some (TRefs, ref_key (c_user c) (c_room c))
  | L_room_empty => Some (TRoomSessions, c_room c)
  | L_session_empty _ => Some (TSessionRooms, c_session c)
  | _ => None
  end.

(** The entry that its next operation needs for itself ([entry], [get_mut],
    [insert] and [remove] of a [DashMap]). *)
Definition needs (th : Thread) : option (table * string) :=
  let c := th_call th in
  match th_pc th with
  | J_room | L_room_drop => Some (TRoomSessions, c_room c)
  | J_session | L_session_drop _ | C_take => Some (TSessionRooms, c_session c)
  | J_refs | L_refs _ | L_refs_drop _ => Some (TRefs, ref_key (c_user c) (c_room c))
  | J_user | L_users_drop _ => Some (TRoomUsers, c_room c)
  | J_user_rooms | L_rooms_drop _ => Some (TUserRooms, c_user c)
  | J_count true => Some (TCounts, c_tenant c)
  | _ => None
  end.

(** A thread of [others] keeps the entry that [th] needs. *)
Definition waits (others : list Thread) (th : Thread) : bool :=
  match needs th with
  | Some e => existsb (λ o, bool_decide (holds o = Some e)) others
  | None => false
  end.

(** ** Threads together *)

(** A schedule: which thread takes the next step. *)
Definition race : list Thread * Presence → list nat → list Thread * Presence := run micro waits.
End steps.

(** ** A thread alone *)

(** A thread gets from one point to another by itself. *)
Abbreviation gets := (Threads.gets micro).

Section alone.
Context `{!DashOrder}.
Implicit Types (c : Call) (p : Presence) (m : index) (rooms : list string).

(** The parts of [leave] that take an element out of the set of a key: remove
    it, and drop the set if it is empty. *)
Lemma set_remove_idx k x m :
  (if set_is_empty k (set_remove k x m) then delete k (set_remove k x m) else set_remove k x m)
  = idx_remove k x m.
Proof.
  rewrite /set_is_empty /set_remove /idx_remove lookup_alter_eq.
  destruct (m !! k) as [s|] eqn:E; cbn.
  - case_bool_decide; [by rewrite delete_alter_eq|]. apply map_eq. intros i.
    destruct (decide (i = k)) as [->|Hne].
    + by rewrite lookup_alter_eq E lookup_insert_eq.
    + by rewrite lookup_alter_ne // lookup_insert_ne.
  - apply map_eq. intros i. destruct (decide (i = k)) as [->|Hne].
    + by rewrite lookup_delete_eq.
    + by rewrite lookup_delete_ne // lookup_alter_ne.
Qed.

Lemma idx_remove_absent k x m : m !! k = None → idx_remove k x m = m.
Proof. intros E. by rewrite /idx_remove E. Qed.

(** Whether the room is empty without the session, as [leave] has it. *)
Definition empties p (rk k : string) : bool :=
  match room_to_sessions p !! rk with Some set => bool_decide (set ∖ {[k]} = ∅) | None => false end.

Lemma leave_room_phase c p rooms :
  gets (mkThread c L_room rooms, p)
    (mkThread c (L_session (empties p (c_room c) (c_session c))) rooms,
     set_room_sessions p (idx_remove (c_room c) (c_session c) (room_to_sessions p))).
Proof.
  rewrite -set_remove_idx /empties. apply gets_step. cbn.
  destruct (room_to_sessions p !! c_room c) as [set|] eqn:E; last first.
  { rewrite set_remove_idx idx_remove_absent //. by destruct p. }
  apply gets_step. cbn. rewrite /set_is_empty /set_remove lookup_alter_eq E. cbn.
  case_bool_decide; [by apply gets_step|done].
Qed.

Lemma leave_session_phase c p rooms e :
  gets (mkThread c (L_session e) rooms, p)
    (mkThread c (L_refs e) rooms,
     set_session_rooms p (idx_remove (c_session c) (c_room c) (session_to_rooms p))).
Proof.
  rewrite -set_remove_idx. apply gets_step. cbn.
  destruct (session_to_rooms p !! c_session c) as [set|] eqn:E; last first.
  { rewrite set_remove_idx idx_remove_absent //. by destruct p. }
  apply gets_step. cbn. destruct (set_is_empty _ _); [by apply gets_step|done].
Qed.

Lemma leave_rooms_phase c p rooms e :
  gets (mkThread c (L_rooms e) rooms, p)
    (mkThread c (L_users e) rooms,
     set_user_rooms p (idx_remove (c_user c) (c_room c) (user_to_rooms p))).
Proof.
  rewrite -set_remove_idx. apply gets_step. cbn.
  destruct (user_to_rooms p !! c_user c) as [set|] eqn:E; last first.
  { rewrite set_remove_idx idx_remove_absent //. by destruct p. }
  apply gets_step. cbn. destruct (set_is_empty _ _); [by apply gets_step|done].
Qed.

Lemma leave_users_phase c p rooms e :
  gets (mkThread c (L_users e) rooms, p)
    (mkThread c (L_count e) rooms,
     set_room_users p (idx_remove (c_room c) (c_user c) (room_to_users p))).
Proof.
  rewrite -set_remove_idx. apply gets_step. cbn.
  destruct (room_to_users p !! c_room c) as [set|] eqn:E; last first.
  { rewrite set_remove_idx idx_remove_absent //. by destruct p. }
  apply gets_step. cbn. destruct (set_is_empty _ _); [by apply gets_step|done].
Qed.

(** [leave] alone is the [leave] of [Presence.v]. *)
Lemma leave_gets c p rooms :
  gets (mkThread c L_room rooms, p)
    (next_room c rooms, leave p (c_tenant c) (c_room c) (c_user c) (c_session c)).
Proof.
  etransitivity; [apply leave_room_phase|]. etransitivity; [apply leave_session_phase|].
  apply gets_step. cbn. destruct (user_room_refs p !! ref_key (c_user c) (c_room c)) as [n|] eqn:En; cbn.
  - destruct (wrap64 (n - 1) =? 0) eqn:E0.
    + apply gets_step. cbn. etransitivity; [apply leave_rooms_phase|].
      etransitivity; [apply leave_users_phase|]. apply gets_step. cbn.
      rewrite /leave En /= E0 delete_insert_eq. fold (empties p (c_room c) (c_session c)).
      destruct (empties _ _ _); [|done]. by destruct (tenant_room_counts p !! _).
    + apply gets_step. cbn. rewrite /leave En /= E0. fold (empties p (c_room c) (c_session c)).
      destruct (empties _ _ _); [|done]. by destruct (tenant_room_counts p !! _).
  - apply gets_step. cbn. rewrite /leave En /=. fold (empties p (c_room c) (c_session c)).
    destruct (empties _ _ _); [|done]. by destruct (tenant_room_counts p !! _).
Qed.

(** So does every room of a cleanup. *)
Lemma cleanup_gets c p rooms :
  ∃ c', gets (next_room c rooms, p)
    (mkThread c' (Returned (Ok tt)) [],
     foldl (λ p r, leave p (c_tenant c) r (c_user c) (c_session c)) p rooms).
Proof.
  revert c p. induction rooms as [|r rooms IH]; intros c p; [by exists c|]. cbn.
  destruct (IH (mkCall (c_tenant c) r (c_user c) (c_session c) (c_limits c))
    (leave p (c_tenant c) r (c_user c) (c_session c))) as [c' Hc']. exists c'.
  etransitivity; [apply leave_gets|exact Hc'].
Qed.

(** And the cleanup of a session. *)
Lemma cleanup_session_gets c p :
  ∃ c', gets (mkThread c C_take [], p)
    (mkThread c' (Returned (Ok tt)) [], cleanup_session p (c_tenant c) (c_user c) (c_session c)).
Proof.
  rewrite /cleanup_session.
  destruct (session_to_rooms p !! c_session c) as [rooms|] eqn:E.
  - destruct (cleanup_gets c (set_session_rooms p (delete (c_session c) (session_to_rooms p))) (ds_iter rooms))
      as [c' Hc']. exists c'. apply gets_step. cbn. by rewrite E.
  - exists c. apply gets_step. cbn. by rewrite E.
Qed.

(** The checks of [try_join]. *)
Lemma join_users_phase c p :
  gets (mkThread c J_users [], p)
    (mkThread c (if at_limit (max_users_per_room (c_limits c)) (room_to_users p !! c_room c) (c_user c)
                 then Returned (Err (EResourceExhausted "room user limit reached")) else J_rooms) [], p).
Proof.
  apply gets_step. cbn. rewrite /at_limit. destruct (0 <? _); [|done].
  destruct (room_to_users p !! c_room c) as [users|] eqn:E; [|done]. cbn.
  destruct (_ <=? _); [|done]. apply gets_step. cbn. rewrite /idx_get E. cbn. by case_bool_decide.
Qed.

Lemma join_rooms_phase c p :
  gets (mkThread c J_rooms [], p)
    (mkThread c (if at_limit (max_rooms_per_user (c_limits c)) (user_to_rooms p !! c_user c) (c_room c)
                 then Returned (Err (EResourceExhausted "user room limit reached")) else J_new) [], p).
Proof.
  apply gets_step. cbn. rewrite /at_limit. destruct (0 <? _); [|done].
  destruct (user_to_rooms p !! c_user c) as [rooms|] eqn:E; [|done]. cbn.
  destruct (_ <=? _); [|done]. apply gets_step. cbn. rewrite /idx_get E. cbn. by case_bool_decide.
Qed.

Lemma perform_join_phase c p :
  gets (mkThread c J_room [], p)
    (mkThread c (Returned (Ok tt)) [], perform_join p (c_room c) (c_user c) (c_session c)).
Proof.
  do 3 apply gets_step. cbn. rewrite /perform_join. destruct (_ =? 1); [|done]. by do 2 apply gets_step.
Qed.

(** And [try_join] is that of [Presence.v]. *)
Lemma join_gets c p :
  let '(res, p') := try_join p (c_tenant c) (c_room c) (c_user c) (c_session c) (c_limits c) in
  gets (mkThread c J_users [], p) (mkThread c (Returned res) [], p').
Proof.
  rewrite /try_join. pose proof (join_users_phase c p) as Hu. destruct (at_limit (max_users_per_room _) _ _); [done|].
  pose proof (join_rooms_phase c p) as Hr. destruct (at_limit (max_rooms_per_user _) _ _); [by etransitivity|].
  destruct (bool_decide (room_to_sessions p !! c_room c = None)) eqn:En; cbn [andb].
  - destruct (_ && _) eqn:El; (etransitivity; [exact Hu|]); (etransitivity; [exact Hr|]);
      do 2 apply gets_step; cbn; rewrite En /= El; [done|]. apply (perform_join_phase c (set_room_count p _ _)).
  - etransitivity; [exact Hu|]. etransitivity; [exact Hr|]. do 2 apply gets_step. cbn. rewrite En.
    apply perform_join_phase.
Qed.
End alone.

(** Alone, the small steps are the big ones. A thread that runs a join, a
    leave or the cleanup of a session one map operation at a time, with no other
    thread in between, returns, and leaves the tables exactly as the operation in
    one go leaves them; a join returns the same result. *)
Theorem rooms_alone `{!DashOrder} (c : Call) (p : Presence) :
  (let '(res, p') := try_join p (c_tenant c) (c_room c) (c_user c) (c_session c) (c_limits c) in
   gets (mkThread c J_users [], p) (mkThread c (Returned res) [], p'))
  ∧ gets (mkThread c L_room [], p)
      (mkThread c (Returned (Ok tt)) [], leave p (c_tenant c) (c_room c) (c_user c) (c_session c))
  ∧ ∃ c', gets (mkThread c C_take [], p)
      (mkThread c' (Returned (Ok tt)) [], cleanup_session p (c_tenant c) (c_user c) (c_session c)).
Proof.
  split_and!; [apply join_gets|apply (leave_gets c p [])|apply cleanup_session_gets].
Qed.

(** ** How far a limit can be overrun *)

Lemma size_list_to_set_le (l : list string) : (size (list_to_set l : gset string) ≤ length l)%nat.
Proof.
  induction l as [|x l IH]; [done|]. cbn [list_to_set length]. rewrite size_union_alt size_singleton.
  pose proof (subseteq_size (list_to_set l ∖ {[x]}) (list_to_set l : gset string) ltac:(set_solver)). lia.
Qed.

Section overrun.
Context `{!DashOrder} (r : string).
Implicit Types (th : Thread) (ths : list Thread) (p : Presence).

(** The thread is in [try_join], for the room [r]. *)
Definition joins th : bool :=
  bool_decide (c_room (th_call th) = r)
  && match th_pc th with
     | J_users | J_users_in | J_rooms | J_rooms_in | J_new | J_count _ | J_room | J_session | J_refs
     | J_user | J_user_rooms => true
     | _ => false
     end.

(** It has passed the check of the users of the room, and has not entered
    its own user yet. *)
Definition passed th : bool :=
  joins th && match th_pc th with J_users | J_users_in | J_user_rooms => false | _ => true end.

Definition users p : gset string := idx_get (room_to_users p) r.
Definition pending ths : gset string := list_to_set (c_user ∘ th_call <$> List.filter passed ths).
Definition joining ths : Z := Z.of_nat (length (List.filter joins ths)).

Lemma elem_of_pending u ths : u ∈ pending ths ↔ ∃ th, th ∈ ths ∧ passed th = true ∧ c_user (th_call th) = u.
Proof.
  rewrite /pending elem_of_list_to_set list_elem_of_fmap.
  setoid_rewrite list_elem_of_In. setoid_rewrite filter_In. naive_solver.
Qed.

(** Only a join that has passed the check adds a user. *)
Lemma set_remove_sub k x (m : index) : idx_get (set_remove k x m) r ⊆ idx_get m r.
Proof.
  rewrite /idx_get /set_remove lookup_alter. case_decide; [|done]. subst.
  destruct (m !! r); cbn; set_solver.
Qed.

Lemma delete_sub k (m : index) : idx_get (delete k m) r ⊆ idx_get m r.
Proof. rewrite /idx_get lookup_delete. case_decide; [set_solver|done]. Qed.

Lemma micro_users th p th' p' :
  micro (th, p) = (th', p') →
  users p' ⊆ users p ∨ (passed th = true ∧ users p' ⊆ {[c_user (th_call th)]} ∪ users p).
Proof.
  destruct th as [c pc rooms]. rewrite /users /micro. destruct pc; cbn [join_step leave_step];
    intros E; try (left; repeat case_match; simplify_eq/=; first [done|apply set_remove_sub|apply delete_sub]).
  injection E as <- <-. cbn. rewrite idx_get_insert. rewrite /passed /joins. cbn.
  case_decide as Hr; [|by left]. right. rewrite bool_decide_true //. by subst.
Qed.

(** A thread in [try_join] was there before, for the same call. *)
Lemma micro_joins th p th' p' :
  micro (th, p) = (th', p') → joins th' = true → joins th = true ∧ th_call th' = th_call th.
Proof.
  destruct th as [c pc rooms]. rewrite /micro. destruct pc; cbn [join_step leave_step]; intros E;
    repeat case_match; simplify_eq/=; try done; intros [Hr Hpc]%andb_true_iff; try done;
    rewrite /joins /= ?Hr //; unfold next_room in *; repeat case_match; simplify_eq/=; done.
Qed.

(** A join that passes the check: its user is in the room, or the room has
    room. *)
Lemma micro_passed th p th' p' :
  micro (th, p) = (th', p') → passed th' = true → 0 < max_users_per_room (c_limits (th_call th)) →
  passed th = true ∨ c_user (th_call th) ∈ users p
  ∨ (Z.of_nat (size (users p)) < max_users_per_room (c_limits (th_call th)) ∧ p' = p).
Proof.
  intros E Hp Hm. pose proof (andb_prop _ _ Hp) as [Hj Hpc].
  destruct (micro_joins _ _ _ _ E Hj) as [Hj' Ec]. rewrite /passed Hj'. clear Hp Ec.
  destruct th as [c pc rooms]. cbn in *. apply andb_true_iff in Hj' as [Hr Hpc'].
  apply bool_decide_eq_true in Hr.
  destruct pc; try (by left); try done; right; cbn in *.
  - right. rewrite /users -Hr. rewrite (proj2 (Z.ltb_lt _ _) Hm) in E. rewrite /idx_get.
    destruct (room_to_users p !! c_room c) as [set|]; [|injection E as <- <-; cbn; rewrite size_empty; split; [lia|done]].
    destruct (_ <=? _) eqn:El; unbool; injection E as <- <-; [done|by split].
  - left. rewrite /users -Hr. case_bool_decide; [done|]. injection E as <- <-. by rewrite /joins andb_false_r in Hj.
  - injection E as <- <-. by rewrite /joins andb_false_r in Hj.
Qed.

Context (m : Z) (Hm : 0 < m) (N : Z).

(** All joins to the room have its limit, at most [N] of them are under way,
    and those that have passed the check fit below the bound. *)
Record overrun_inv (x : list Thread * Presence) : Prop := {
  oi_limit th : th ∈ x.1 → joins th = true → max_users_per_room (c_limits (th_call th)) = m;
  oi_joining : joining x.1 ≤ N;
  oi_bound : Z.of_nat (size (users x.2 ∪ pending x.1)) ≤ Z.max m (m - 1 + N);
}.

Lemma pending_size ths : Z.of_nat (size (pending ths)) ≤ joining ths.
Proof using Type.
  rewrite /pending /joining. apply inj_le.
  etransitivity; [apply size_list_to_set_le|]. rewrite length_fmap. induction ths as [|th ths IH]; [done|].
  cbn. destruct (passed th) eqn:E; [|destruct (joins th); cbn; lia].
  apply andb_true_iff in E as [-> _]. cbn. lia.
Qed.

Lemma race_overrun x schedule : overrun_inv x → overrun_inv (race x schedule).
Proof using Hm.
  apply run_invariant. intros ths p i th th' p' [Hl Hj Hb] Hi _ E. cbn [fst snd] in *.
  pose proof (list_elem_of_lookup_2 _ _ _ Hi) as Hin.
  assert (joining (<[i := th']> ths) ≤ N) as Hj'.
  { etransitivity; [|exact Hj]. apply inj_le. eapply filter_update_le; [done|].
    intros Hth'. by destruct (micro_joins _ _ _ _ E Hth'). }
  assert (∀ t, t ∈ <[i := th']> ths → t = th' ∨ t ∈ ths) as Hcases by apply elem_of_update.
  split; cbn [fst snd]; [|done|].
  - intros t [->|Ht]%Hcases Hjt; [|by apply Hl]. destruct (micro_joins _ _ _ _ E Hjt) as [Hj1 ->].
    by apply Hl.
  - assert (users p' ⊆ users p ∪ pending ths) as Hu.
    { destruct (micro_users _ _ _ _ E) as [?|[Hp Hu]]; [set_solver|].
      assert (c_user (th_call th) ∈ pending ths) by (apply elem_of_pending; eauto). set_solver. }
    assert ((passed th' = true → c_user (th_call th') ∈ users p ∪ pending ths) →
            Z.of_nat (size (users p' ∪ pending (<[i := th']> ths))) ≤ Z.max m (m - 1 + N)) as Hsub.
    { intros Hth'. etransitivity; [|exact Hb]. apply inj_le, subseteq_size. intros u.
      rewrite elem_of_union. intros [Hu1|(t & [->|Ht]%Hcases & Hp & <-)%elem_of_pending]; [by apply Hu|auto|].
      apply elem_of_union_r, elem_of_pending. eauto. }
    destruct (passed th') eqn:Hp; [|by apply Hsub].
    destruct (micro_joins _ _ _ _ E (proj1 (andb_prop _ _ Hp))) as [Hj1 Ec]. rewrite Ec in Hsub.
    pose proof (Hl th Hin Hj1) as Hlim.
    destruct (micro_passed _ _ _ _ E Hp ltac:(lia)) as [Hp1|[Hin1|[Hroom ->]]].
    + apply Hsub. intros _. apply elem_of_union_r, elem_of_pending. eauto.
    + apply Hsub. intros _. by apply elem_of_union_l.
    + rewrite Hlim in Hroom. pose proof (pending_size (<[i := th']> ths)).
      pose proof (size_union_alt (users p) (pending (<[i := th']> ths))) as Hsz.
      pose proof (subseteq_size (pending (<[i := th']> ths) ∖ users p) (pending (<[i := th']> ths))
        ltac:(set_solver)). lia.
Qed.

End overrun.

(** C12: how far the limit on the users of a room can be overrun. Whatever the
    schedule of any number of concurrent joins, leaves and cleanups, if a room
    starts with at most [m] users, its limit, and [n] of the threads are joins to
    it, then it never has more than [m + n - 1] users ([m], if there is no such
    join): one join at a time does not overrun the limit, and each further join under
    way at the same time overruns it by one user at most. *)
Theorem room_overrun `{!DashOrder} (r : string) m (ths : list Thread) (p : Presence) schedule :
  0 < m → Z.of_nat (size (idx_get (room_to_users p) r)) ≤ m →
  Forall (λ th, th_pc th = J_users ∨ th_pc th = L_room ∨ th_pc th = C_take) ths →
  Forall (λ th, joins r th = true → max_users_per_room (c_limits (th_call th)) = m) ths →
  let p' := (race (ths, p) schedule).2 in
  Z.of_nat (size (idx_get (room_to_users p') r)) ≤ Z.max m (m - 1 + joining r ths).
Proof.
  intros Hm Hsize Hstart Hlim p'.
  destruct (race_overrun r m Hm (joining r ths) (ths, p) schedule) as [_ _ Hb].
  - split; cbn [fst snd]; [exact (proj1 (Forall_forall _ _) Hlim)|done|].
    assert (pending r ths = ∅) as ->.
    { apply set_eq. intros u. rewrite elem_of_pending. split; [|done]. intros (th & Hth & Hp & _).
      rewrite Forall_forall in Hstart. specialize (Hstart th Hth). rewrite /passed /joins in Hp.
      destruct Hstart as [E|[E|E]]; by rewrite E andb_false_r in Hp. }
    rewrite right_id_L. rewrite /users. lia.
  - etransitivity; [|exact Hb]. apply inj_le, subseteq_size. set_solver.
Qed.

(** ** Races *)

(** Two users of a tenant, each with one session, and the lobby. *)
Module Lobby.
Definition call (lim : TenantLimits) (u : string) : Call :=
  mkCall "t" "t::lobby" ("t::" +:+ u) ("t::" +:+ u +:+ "::1") lim.
(** At most [users] users in a room, and [rooms] rooms of the tenant. *)
Definition lims (users rooms : Z) : TenantLimits := mkTenantLimits 64 0 rooms users 0.
Definition enters (lim : TenantLimits) (u : string) : Thread := mkThread (call lim u) J_users [].
Definition exits (lim : TenantLimits) (u : string) : Thread := mkThread (call lim u) L_room [].

(** The thread [i] runs to its end. *)
Definition to_end (i : nat) : list nat := replicate 15 i.

(** The tables after the users have joined, one after the other. *)
Definition joined (lim : TenantLimits) (us : list string) : Presence :=
  foldl (λ p u, (race ([enters lim u], p) (to_end 0)).2) pr_new us.

Definition returned (x : list Thread * Presence) : list Pc := th_pc <$> x.1.
End Lobby.

(** Two sessions that leave a room at the same time. Both take their entry
    out of the set of the room before either looks whether it is empty; then both
    find it empty, and both count the room off, so that the counter of the tenant,
    which was 1, wraps around to its largest value, with no room left. From then
    on no session of a tenant with a limit on its rooms can open one. *)
Theorem concurrent_leaves_underflow :
  let lim := Lobby.lims 0 100 in
  let start := Lobby.joined lim ["a"; "b"] in
  tenant_room_counts start !! "t" = Some 1
  ∧ ∃ schedule, let x := race ([Lobby.exits lim "a"; Lobby.exits lim "b"], start) schedule in
      Lobby.returned x = [Returned (Ok tt); Returned (Ok tt)]
      ∧ room_to_sessions x.2 = ∅ ∧ tenant_room_counts x.2 !! "t" = Some u64_max
      ∧ ∀ rk u k lim', 0 < max_rooms_total lim' ≤ u64_max →
          (try_join x.2 "t" rk u k lim').1 = Err (EResourceExhausted "tenant room limit reached").
Proof.
  intros lim start. split; [by vm_compute|]. exists ([0; 1; 0; 1]%nat ++ Lobby.to_end 0 ++ Lobby.to_end 1). intros x.
  assert (x.2 = mkPresence ∅ ∅ ∅ ∅ ∅ {["t" := u64_max]}) as -> by by vm_compute.
  split; [by vm_compute|]. split; [done|]. split; [done|]. intros rk u k lim' Hlim.
  rewrite /try_join /at_limit. cbn [room_to_users user_to_rooms room_to_sessions tenant_room_counts].
  rewrite !lookup_empty !andb_false_r lookup_singleton_eq. cbn [default from_option id].
  rewrite bool_decide_true // (proj2 (Z.ltb_lt _ _)); [|lia]. by rewrite (proj2 (Z.leb_le _ _)); [|lia].
Qed.

(** A join that is lost. The last session leaves a room while another one
    joins it: the newcomer enters the set of the room after the other has found
    it empty, and goes with the set when that one drops it. Its join succeeds and
    its session counts as one of the room, but it is not among the sessions that the room
    publishes to, and the counter of the tenant does not count the room. *)
Theorem lost_join :
  let lim := Lobby.lims 0 0 in
  ∃ schedule, let x := race ([Lobby.exits lim "a"; Lobby.enters lim "b"], Lobby.joined lim ["a"]) schedule in
    Lobby.returned x = [Returned (Ok tt); Returned (Ok tt)]
    ∧ "t::lobby" ∈ idx_get (session_to_rooms x.2) "t::b::1"
    ∧ "t::b" ∈ idx_get (room_to_users x.2) "t::lobby"
    ∧ room_to_sessions x.2 = ∅ ∧ tenant_room_counts x.2 !! "t" = Some 0.
Proof.
  intros lim. exists ([1; 1; 1; 1; 0; 0; 1; 0]%nat ++ Lobby.to_end 0 ++ Lobby.to_end 1). intros x.
  split; [by vm_compute|]. split; [by apply (bool_decide_unpack _); vm_compute|].
  split; [by apply (bool_decide_unpack _); vm_compute|]. by vm_compute.
Qed.

(** Two sessions that open the same room at the same time count it twice, and
    it is counted off once: the counter of the tenant stays 1 with no room left,
    and a tenant that may have one room can never have one again. *)
Theorem room_counted_twice :
  let lim := Lobby.lims 0 1 in
  let lim2 := Lobby.lims 0 2 in
  ∃ schedule, let x := race ([Lobby.enters lim2 "a"; Lobby.enters lim2 "b"; Lobby.exits lim2 "a"; Lobby.exits lim2 "b"],
                             pr_new) schedule in
    Lobby.returned x = replicate 4 (Returned (Ok tt))
    ∧ room_to_sessions x.2 = ∅ ∧ tenant_room_counts x.2 !! "t" = Some 1
    ∧ (try_join x.2 "t" "t::lobby" "t::a" "t::a::1" lim).1
      = Err (EResourceExhausted "tenant room limit reached").
Proof.
  intros lim lim2.
  exists ([0; 0; 0; 1; 1; 1]%nat ++ Lobby.to_end 0 ++ Lobby.to_end 1 ++ Lobby.to_end 2 ++ Lobby.to_end 3). by vm_compute.
Qed.

(** Two joins to a room for one user: the bound is reached. *)
Lemma room_overrun_witness :
  let lim := Lobby.lims 1 0 in
  let p' := (race ([Lobby.enters lim "a"; Lobby.enters lim "b"], pr_new) ([0; 1]%nat ++ Lobby.to_end 0 ++ Lobby.to_end 1)).2 in
  size (idx_get (room_to_users p') "t::lobby") = 2%nat
  ∧ Z.of_nat (size (idx_get (room_to_users p') "t::lobby")) ≤ 2.
Proof.
  intros lim p'. split; [by vm_compute|].
  refine (room_overrun "t::lobby" 1 [Lobby.enters lim "a"; Lobby.enters lim "b"] pr_new _ _ _ _ _).
  - done.
  - by vm_compute.
  - repeat constructor.
  - repeat constructor.
Defined.
