(* ===== verification/RegRace.v ===== *)
(** * The session registry, one map operation at a time
      ([wsprism-gateway/src/realtime/core/session_registry.rs])

    As [Race.v] does for the rooms: threads that run [try_insert],
    [remove_session] and [evict_oldest], and the sequence of registry calls
    that opens a session ([run_session] of transport/ws.rs), with the guards
    that they keep.  [try_insert] keeps the exclusive guard of its tenant's
    counter from its first line to its last. *)

From S2P Require Import Prelude Errors Config Dash Threads SessionRegistry Presence Race.

(** The arguments of a call. *)
Record RCall := mkRCall {
  rc_tenant : string;
  rc_user : string;
  rc_session : string;
  rc_conn : Connection;
  rc_max : Z;
  rc_policy : SessionPolicy;
}.

(** What a thread returns: the result of an insertion, of a removal, of an
    eviction, or that the user may not open another session. *)
Inductive RRes :=
| RInserted (r : Result unit)
| RRemoved (c : option Connection)
| REvicted (v : option (string * Connection))
| RDenied.

(** Where a thread is, before the operation that the name tells: [I] in
    [try_insert], [R] in [remove_session], [E] in [evict_oldest] (the keys left
    and the oldest session so far), [O] in [run_session]. *)
Inductive RPc :=
| I_entry | I_check | I_add | I_recheck | I_undo | I_index | I_seq | I_insert (seq : Z)
| R_index | R_index_empty | R_index_drop | R_session | R_count (e : SessionEntry)
| E_keys | E_scan (k : string) (keys : list string) (best : option string * Z)
| O_count
| Fin (r : RRes).

(** A thread; [rt_victim] is the session that an eviction removes, and a thread
    that opens a session ([rt_open]) goes on to insert it. *)
Record RThread := mkRThread { rt_call : RCall; rt_pc : RPc; rt_victim : option string; rt_open : bool }.

(** The three maps. *)
Inductive rtable := TSessions | TUserIndex | TTenantCounts.

#[export] Instance rtable_eq_dec : EqDecision rtable.
Proof. solve_decision. Defined.

(** ** Steps *)

Section steps.
Implicit Types (r : SessionRegistry) (c : RCall) (th : RThread).

Definition set_sessions r (m : gmap string SessionEntry) : SessionRegistry :=
  mkSessionRegistry m (sr_user_index r) (sr_tenant_counts r) (sr_seq r).
Definition set_user_index r (m : index) : SessionRegistry :=
  mkSessionRegistry (sr_sessions r) m (sr_tenant_counts r) (sr_seq r).
Definition set_tenant_count r (t : string) (n : Z) : SessionRegistry :=
  mkSessionRegistry (sr_sessions r) (sr_user_index r) (<[t := n]> (sr_tenant_counts r)) (sr_seq r).
Definition set_seq r (n : Z) : SessionRegistry :=
  mkSessionRegistry (sr_sessions r) (sr_user_index r) (sr_tenant_counts r) n.

Definition at_pc th (pc : RPc) : RThread := mkRThread (rt_call th) pc (rt_victim th) (rt_open th).

(** The session that [remove_session] is called for. *)
Definition removes th : string := default (rc_session (rt_call th)) (rt_victim th).

(** After an eviction: the result, or the insertion of the new session. *)
Definition evicted th (v : option (string * Connection)) : RThread :=
  mkRThread (rt_call th) (if rt_open th then I_entry else Fin (REvicted v)) None (rt_open th).

(** [remove_session] returns, to its caller or to [evict_oldest]. *)
Definition removed th (conn : option Connection) : RThread :=
  match rt_victim th with
  | None => at_pc th (Fin (RRemoved conn))
  | Some v => evicted th (pair v <$> conn)
  end.

(** The next key of [evict_oldest], or the removal of the oldest session. *)
Definition scan_next th (keys : list string) (best : option string * Z) : RThread :=
  match keys with
  | k :: keys => at_pc th (E_scan k keys best)
  | [] =>
      match fst best with
      | None => evicted th None
      | Some v => mkRThread (rt_call th) R_index (Some v) (rt_open th)
      end
  end.

(** The operations of [try_insert]. *)
Definition insert_step c (pc : RPc) r : RPc * SessionRegistry :=
  let count := default 0 (sr_tenant_counts r !! rc_tenant c) in
  match pc with
  | I_entry => (I_check, set_tenant_count r (rc_tenant c) count)
  | I_check =>
      (if (0 <? rc_max c) && (rc_max c <=? count)
       then Fin (RInserted (Err (EResourceExhausted "tenant session limit reached"))) else I_add, r)
  | I_add => (I_recheck, set_tenant_count r (rc_tenant c) (wrap64 (count + 1)))
  | I_recheck => (if (0 <? rc_max c) && (rc_max c <? count) then I_undo else I_index, r)
  | I_undo =>
      (Fin (RInserted (Err (EResourceExhausted "tenant session limit reached (race)"))),
       set_tenant_count r (rc_tenant c) (wrap64 (count - 1)))
  | I_index => (I_seq, set_user_index r (idx_insert (rc_user c) (rc_session c) (sr_user_index r)))
  | I_seq => (I_insert (sr_seq r), set_seq r (wrap64 (sr_seq r + 1)))
  | I_insert seq =>
      (Fin (RInserted (Ok tt)),
       set_sessions r (<[rc_session c := mkSessionEntry (rc_conn c) seq (rc_tenant c)]> (sr_sessions r)))
  | pc => (pc, r)
  end.

(** [run_session] counts the sessions of the user, and goes on to insert the
    new one, to evict the oldest, or not at all. *)
Definition open_step th r : RThread :=
  let c := rt_call th in
  if max_sessions_per_user (rc_policy c) <=? count_user_sessions r (rc_user c) then
    match on_exceed (rc_policy c) with
    | Deny => at_pc th (Fin RDenied)
    | KickOldest => at_pc th E_keys
    end
  else at_pc th I_entry.

Context `{!DashOrder}.

(** One operation of a thread. *)
Definition rmicro (x : RThread * SessionRegistry) : RThread * SessionRegistry :=
  let '(th, r) := x in
  let c := rt_call th in
  match rt_pc th with
  | I_entry | I_check | I_add | I_recheck | I_undo | I_index | I_seq | I_insert _ =>
      let '(pc, r) := insert_step c (rt_pc th) r in (at_pc th pc, r)
  | R_index =>
      match sr_user_index r !! rc_user c with
      | Some _ => (at_pc th R_index_empty,
                   set_user_index r (set_remove (rc_user c) (removes th) (sr_user_index r)))
      | None => (at_pc th R_session, r)
      end
  | R_index_empty =>
      (at_pc th (if set_is_empty (rc_user c) (sr_user_index r) then R_index_drop else R_session), r)
  | R_index_drop => (at_pc th R_session, set_user_index r (delete (rc_user c) (sr_user_index r)))
  | R_session =>
      match sr_sessions r !! removes th with
      | Some e => (at_pc th (R_count e), set_sessions r (delete (removes th) (sr_sessions r)))
      | None => (removed th None, r)
      end
  | R_count e =>
      (removed th (Some (se_conn e)),
       match sr_tenant_counts r !! se_tenant_id e with
       | Some n => set_tenant_count r (se_tenant_id e) (wrap64 (n - 1))
       | None => r
       end)
  | E_keys =>
      match sr_user_index r !! rc_user c with
      | None => (evicted th None, r)
      | Some set => (scan_next th (ds_iter set) (None, u64_max), r)
      end
  | E_scan k keys best => (scan_next th keys (oldest_step r best k), r)
  | O_count => (open_step th r, r)
  | Fin _ => x
  end.

(** ** Guards *)

(** The guard that a thread keeps before its next operation. *)
Definition rholds th : option (mode * (rtable * string)) :=
  let c := rt_call th in
  match rt_pc th with
  | I_check | I_add | I_recheck | I_undo | I_index | I_seq | I_insert _ =>
      Some (Exclusive, (TTenantCounts, rc_tenant c))
  | R_index_empty => Some (Shared, (TUserIndex, rc_user c))
  | _ => None
  end.

(** The access that its next operation needs. *)
Definition rneeds th : option (mode * (rtable * string)) :=
  let c := rt_call th in
  match rt_pc th with
  | I_entry => Some (Exclusive, (TTenantCounts, rc_tenant c))
  | I_index | R_index_drop => Some (Exclusive, (TUserIndex, rc_user c))
  | I_insert _ => Some (Exclusive, (TSessions, rc_session c))
  | R_index | E_keys | O_count => Some (Shared, (TUserIndex, rc_user c))
  | R_session => Some (Exclusive, (TSessions, removes th))
  | R_count e => Some (Shared, (TTenantCounts, se_tenant_id e))
  | E_scan k _ _ => Some (Shared, (TSessions, k))
  | _ => None
  end.

Definition rwaits (others : list RThread) th : bool :=
  match rneeds th with
  | Some n => existsb (λ o, match rholds o with Some h => conflict n h | None => false end) others
  | None => false
  end.

(** A schedule of threads. *)
Definition rrace : list RThread * SessionRegistry → list nat → list RThread * SessionRegistry :=
  run rmicro rwaits.
End steps.

(** ** A thread alone *)

Abbreviation rgets := (Threads.gets rmicro).

Section alone.
Context `{!DashOrder}.
Implicit Types (r : SessionRegistry) (c : RCall).

Lemma set_tenant_count_twice r t n n' :
  set_tenant_count (set_tenant_count r t n) t n' = set_tenant_count r t n'.
Proof. by rewrite /set_tenant_count /= insert_insert_eq. Qed.

Lemma insert_gets c v o r :
  let '(res, r') := try_insert r (rc_tenant c) (rc_user c) (rc_session c) (rc_conn c) (rc_max c) in
  rgets (mkRThread c I_entry v o, r) (mkRThread c (Fin (RInserted res)) v o, r').
Proof.
  rewrite /try_insert. cbn zeta. set (n := default 0 _).
  assert (rgets (mkRThread c I_entry v o, r)
    (mkRThread c (if (0 <? rc_max c) && (rc_max c <=? n)
                  then Fin (RInserted (Err (EResourceExhausted "tenant session limit reached"))) else I_add) v o,
     set_tenant_count r (rc_tenant c) n)) as Hcheck.
  { do 2 apply gets_step. rewrite /rmicro /= lookup_insert_eq /=. done. }
  destruct ((0 <? rc_max c) && (rc_max c <=? n)); [done|].
  assert (rgets (mkRThread c I_entry v o, r)
    (mkRThread c (if (0 <? rc_max c) && (rc_max c <? wrap64 (n + 1)) then I_undo else I_index) v o,
     set_tenant_count r (rc_tenant c) (wrap64 (n + 1)))) as Hadd.
  { etransitivity; [exact Hcheck|]. do 2 apply gets_step.
    by rewrite /rmicro /= !lookup_insert_eq /= set_tenant_count_twice. }
  destruct ((0 <? rc_max c) && (rc_max c <? wrap64 (n + 1))); (etransitivity; [exact Hadd|]).
  - apply gets_step. by rewrite /rmicro /= lookup_insert_eq /= set_tenant_count_twice.
  - by do 3 apply gets_step.
Qed.

Lemma removed_at th pc conn : removed (at_pc th pc) conn = removed th conn.
Proof. done. Qed.

(** [remove_session], from its first operation to its return. *)
Lemma remove_gets th r :
  rt_pc th = R_index →
  let '(conn, r') := remove_session r (rc_user (rt_call th)) (removes th) in
  rgets (th, r) (removed th conn, r').
Proof.
  destruct th as [c pc v o]. intros Hpc. cbn in Hpc. subst pc. cbn [rt_call].
  set (th := mkRThread c R_index v o).
  assert (rgets (th, r) (at_pc th R_session,
    set_user_index r (idx_remove (rc_user c) (removes th) (sr_user_index r)))) as Hidx.
  { rewrite -set_remove_idx. apply gets_step. cbn.
    destruct (sr_user_index r !! rc_user c) as [set|] eqn:E; last first.
    { rewrite set_remove_idx idx_remove_absent //. by destruct r. }
    apply gets_step. cbn. destruct (set_is_empty _ _); [by apply gets_step|done]. }
  rewrite /remove_session. destruct (sr_sessions r !! removes th) as [e|] eqn:E; (etransitivity; [exact Hidx|]).
  - do 2 apply gets_step. rewrite /rmicro. cbn. change (removes (at_pc th R_session)) with (removes th).
    rewrite E. cbn. rewrite removed_at. by destruct (sr_tenant_counts r !! se_tenant_id e).
  - apply gets_step. rewrite /rmicro. cbn. change (removes (at_pc th R_session)) with (removes th).
    by rewrite E.
Qed.

(** The loop of [evict_oldest]. *)
Lemma scan_gets c o r k keys best :
  rgets (mkRThread c (E_scan k keys best) None o, r)
    (scan_next (mkRThread c E_keys None o) [] (foldl (oldest_step r) best (k :: keys)), r).
Proof.
  revert k best. induction keys as [|k' keys IH]; intros k best; apply gets_step; [done|]. apply IH.
Qed.

Lemma evict_gets c r :
  let '(v, r') := evict_oldest r (rc_user c) in
  rgets (mkRThread c E_keys None false, r) (mkRThread c (Fin (REvicted v)) None false, r').
Proof.
  rewrite /evict_oldest. destruct (sr_user_index r !! rc_user c) as [set|] eqn:E.
  2:{ apply gets_step. cbn. by rewrite E. }
  assert (rgets (mkRThread c E_keys None false, r)
    (scan_next (mkRThread c E_keys None false) [] (foldl (oldest_step r) (None, u64_max) (ds_iter set)), r)) as Hs.
  { apply gets_step. cbn. rewrite E. destruct (ds_iter set) as [|k keys]; [done|]. apply scan_gets. }
  destruct (foldl _ _ _) as [[v|] seq]; cbn in *; [|done].
  pose proof (remove_gets (mkRThread c R_index (Some v) false) r eq_refl) as Hr. cbn in Hr.
  destruct (remove_session _ _ _) as [conn r']. by etransitivity.
Qed.
End alone.

(** Alone, the small steps on the registry are the big ones: a thread
    that runs an insertion, a removal or an eviction one map operation at a
    time, with no other thread in between, returns what the operation in one go
    returns and leaves the registry as that leaves it. *)
Theorem registry_alone `{!DashOrder} (c : RCall) (r : SessionRegistry) :
  (let '(res, r') := try_insert r (rc_tenant c) (rc_user c) (rc_session c) (rc_conn c) (rc_max c) in
   rgets (mkRThread c I_entry None false, r) (mkRThread c (Fin (RInserted res)) None false, r'))
  ∧ (let '(conn, r') := remove_session r (rc_user c) (rc_session c) in
     rgets (mkRThread c R_index None false, r) (mkRThread c (Fin (RRemoved conn)) None false, r'))
  ∧ (let '(v, r') := evict_oldest r (rc_user c) in
     rgets (mkRThread c E_keys None false, r) (mkRThread c (Fin (REvicted v)) None false, r')).
Proof.
  split_and!; [apply insert_gets| |apply evict_gets].
  apply (remove_gets (mkRThread c R_index None false) r eq_refl).
Qed.

(** ** What a thread keeps *)

Lemma existsb_elim {T} (f : T → bool) ths th : existsb f ths = false → th ∈ ths → f th = false.
Proof.
  intros Hno Hin. apply not_true_iff_false. intros Hf.
  assert (existsb f ths = true) by (apply existsb_exists; exists th; split; [by apply list_elem_of_In|done]).
  congruence.
Qed.

(** An insertion keeps the guard of its tenant's counter. *)
Definition keeps_count (th : RThread) : bool :=
  match rt_pc th with
  | I_check | I_add | I_recheck | I_undo | I_index | I_seq | I_insert _ => true
  | _ => false
  end.
