(* ===== verification/Locks.v ===== *)
(** * Calls that wait for each other

    The calls on the room tables ([try_join], [leave], [cleanup_session]), on the registry ([try_insert],
    [remove_session], [evict_oldest], and the opening of a session that is made of them) and
    [get_user_sessions], which looks sessions up while it keeps the lock of a user's entry.  [dashmap] locks the shards
    of a map, each of which has many entries, in an order of its own: the calls keep locks of one map while they
    ask for locks of another, and yet all of them return, however entries share
    shards and whoever is served first. (The other readers, [get_session], the counts, [sessions_in] and [all_sessions], ask for nothing
    while they keep a lock.) *)

From S2P Require Import Prelude Errors RustStd Config Dash Threads SessionRegistry Presence Race RegRace.

Definition rfinished (th : RThread) : bool := match rt_pc th with Fin _ => true | _ => false end.
Definition finished (th : Thread) : bool := match th_pc th with Returned _ => true | _ => false end.

(** ** The operations that are left *)

(** Each operation brings a call nearer to its end: first the snapshots that
    are still to be taken, then the operations left. *)
Definition snapshots (th : Thread) : nat := match th_pc th with C_take => 1 | _ => 0 end.
Definition pc_rank (pc : Pc) : nat :=
  match pc with
  | J_users => 11 | J_users_in => 10 | J_rooms => 9 | J_rooms_in => 8 | J_new => 7 | J_count _ => 6
  | J_room => 5 | J_session => 4 | J_refs => 3 | J_user => 2 | J_user_rooms => 1
  | L_room => 15 | L_room_empty => 14 | L_room_drop => 13 | L_session _ => 12 | L_session_empty _ => 11
  | L_session_drop _ => 10 | L_refs _ => 9 | L_refs_drop _ => 8 | L_rooms _ => 7 | L_rooms_empty _ => 6
  | L_rooms_drop _ => 5 | L_users _ => 4 | L_users_empty _ => 3 | L_users_drop _ => 2 | L_count _ => 1
  | C_take | Returned _ => 0
  end.
Definition ops_left (th : Thread) : nat := 16 * length (th_rooms th) + pc_rank (th_pc th).


Lemma join_rank c pc p :
  match pc with
  | J_users | J_users_in | J_rooms | J_rooms_in | J_new | J_count _ | J_room | J_session | J_refs
  | J_user | J_user_rooms => (pc_rank (join_step c pc p).1 < pc_rank pc)%nat ∧ (join_step c pc p).1 ≠ C_take
  | _ => True
  end.
Proof.
  destruct pc as [| | | | |[]| | | | | | | | | | | | | | | | | | | | | |]; try done; cbn [join_step];
    repeat case_match; cbn; (split; [lia|done]).
Qed.

Lemma leave_rank c pc p :
  match pc with
  | L_room | L_room_empty | L_room_drop | L_session _ | L_session_empty _ | L_session_drop _ | L_refs _
  | L_refs_drop _ | L_rooms _ | L_rooms_empty _ | L_rooms_drop _ | L_users _ | L_users_empty _ | L_users_drop _
  | L_count _ => (pc_rank (leave_step c pc p).1 < pc_rank pc)%nat ∧ (leave_step c pc p).1 ≠ C_take
  | _ => True
  end.
Proof. destruct pc; try done; cbn [leave_step]; repeat case_match; cbn; (split; [lia|done]). Qed.

Lemma snapshots_pc c pc rooms : pc ≠ C_take → snapshots (mkThread c pc rooms) = 0%nat.
Proof. by destruct pc. Qed.

Lemma next_room_left c rooms :
  (ops_left (next_room c rooms) < 16 * length rooms + 1)%nat ∧ snapshots (next_room c rooms) = 0%nat.
Proof. destruct rooms; rewrite /ops_left /next_room; cbn; split; [lia|done|lia|done]. Qed.

Lemma rooms_progress_wf `{!DashOrder} blocked : well_founded (progress micro blocked finished).
Proof.
  apply (progress_wf _ _ _ snapshots ops_left). intros [c pc rooms] p th' p' Hf E.
  assert (pc = C_take ∨ pc ≠ C_take) as [->|Hc] by (destruct pc; first [by left|by right]).
  { left. cbn in E. case_match; injection E as <- <-; [destruct (ds_iter _)|]; cbn; lia. }
  right. rewrite (snapshots_pc c pc rooms Hc) /ops_left. cbn [th_pc th_rooms].
  pose proof (join_rank c pc p) as Hj. pose proof (leave_rank c pc p) as Hl. rewrite /micro in E.
  destruct (join_step c pc p) as [pcj pj]. destruct (leave_step c pc p) as [pcl pl]. cbn [fst snd] in *.
  destruct pc; try done; injection E as <- <-; rewrite ?snapshots_pc; try tauto; cbn [th_rooms th_pc];
    try (split; [done|lia]).
  destruct (next_room_left c rooms) as [Hn ->]. split; [done|]. rewrite /ops_left in Hn. cbn. lia.
Qed.
Definition rsnapshots (th : RThread) : nat := match rt_pc th with O_count => 2 | E_keys => 1 | _ => 0 end.
Definition rops_left (th : RThread) : nat :=
  match rt_pc th with
  | I_entry => 8 | I_check => 7 | I_add => 6 | I_recheck => 5 | I_index => 4 | I_seq => 3
  | I_undo | I_insert _ => 1
  | R_index => 15 | R_index_empty => 14 | R_index_drop => 13 | R_session => 12 | R_count _ => 11
  | E_scan _ keys _ => 16 + length keys
  | O_count | E_keys | Fin _ => 0
  end.

Lemma insert_rank c pc r v o :
  match pc with
  | I_entry | I_check | I_add | I_recheck | I_undo | I_index | I_seq | I_insert _ =>
      let th' := mkRThread c (insert_step c pc r).1 v o in
      rsnapshots th' = 0%nat ∧ (rops_left th' < rops_left (mkRThread c pc v o))%nat
  | _ => True
  end.
Proof. destruct pc; try done; cbn [insert_step]; repeat case_match; cbn; (split; [done|lia]). Qed.

Lemma evicted_rank th v : rsnapshots (evicted th v) = 0%nat ∧ (rops_left (evicted th v) ≤ 8)%nat.
Proof. rewrite /evicted /rsnapshots /rops_left. destruct (rt_open th); cbn; split; first [done|lia]. Qed.

Lemma removed_rank th conn : rsnapshots (removed th conn) = 0%nat ∧ (rops_left (removed th conn) ≤ 8)%nat.
Proof. rewrite /removed. destruct (rt_victim th); [apply evicted_rank|]. cbn. split; [done|lia]. Qed.

Lemma scan_next_rank th keys best :
  rsnapshots (scan_next th keys best) = 0%nat ∧ (rops_left (scan_next th keys best) ≤ 15 + length keys)%nat.
Proof.
  rewrite /scan_next. destruct keys; [|by cbn; split; [|lia]]. destruct (fst best); [cbn; split; [done|lia]|].
  pose proof (evicted_rank th None). cbn. split; [tauto|lia].
Qed.

Lemma registry_rank `{!DashOrder} th r th' r' :
  rfinished th = false → rmicro (th, r) = (th', r') →
  (rsnapshots th' < rsnapshots th)%nat ∨ (rsnapshots th' = rsnapshots th ∧ (rops_left th' < rops_left th)%nat).
Proof.
  destruct th as [c pc v o]. intros Hf E.
  pose proof (insert_rank c pc r v o) as Hi. rewrite /rmicro /open_step in E. cbn [rt_pc rt_call] in E.
  destruct pc as [| | | | | | |seq| | | | |e| |k keys best| |res]; try done.
  1-8: right; destruct (insert_step _ _ _) as [pc' r1]; injection E as <- <-; exact Hi.
  - right. case_match; injection E as <- <-; cbn; split; first [done|lia].
  - right. injection E as <- <-. case_match; cbn; split; first [done|lia].
  - right. injection E as <- <-. cbn. split; [done|lia].
  - right. case_match; injection E as <- <-; [cbn; split; first [done|lia]|].
    destruct (removed_rank (mkRThread c R_session v o) None) as [-> ?]. cbn. split; [done|lia].
  - right. injection E as <- <-.
    destruct (removed_rank (mkRThread c (R_count e) v o) (Some (se_conn e))) as [-> ?]. cbn. split; [done|lia].
  - left. case_match; injection E as <- <-.
    + rewrite (proj1 (scan_next_rank _ _ _)). cbn. lia.
    + rewrite (proj1 (evicted_rank _ _)). cbn. lia.
  - right. injection E as <- <-.
    destruct (scan_next_rank (mkRThread c (E_scan k keys best) v o) keys (oldest_step r best k)) as [-> ?].
    cbn. split; [done|lia].
  - left. injection E as <- <-. repeat case_match; cbn; lia.
Qed.

(** ** The lookup of a user's sessions *)

(** [get_user_sessions]: the keys of the user's set are read with the guard of its entry, which is kept
    while the sessions are looked up one by one. *)
Inductive Reader :=
| G_index (user_key : string)
| G_lookup (user_key : string) (keys : list string) (found : list Connection)
| G_fin (found : list Connection).

Definition gfinished (g : Reader) : bool := match g with G_fin _ => true | _ => false end.

Section readers.
Context `{!DashOrder}.
Implicit Types (r : SessionRegistry).

(** The next lookup, or the result. *)
Definition lookup_next (uk : string) (keys : list string) (found : list Connection) : Reader :=
  match keys with [] => G_fin found | _ => G_lookup uk keys found end.

Definition gmicro (x : Reader * SessionRegistry) : Reader * SessionRegistry :=
  let '(g, r) := x in
  match g with
  | G_index uk =>
      match sr_user_index r !! uk with
      | None => (G_fin [], r)
      | Some set => (lookup_next uk (ds_iter set) [], r)
      end
  | G_lookup uk (k :: keys) found =>
      (lookup_next uk keys (found ++ match get_session r k with Some conn => [conn] | None => [] end), r)
  | G_lookup _ [] found => (G_fin found, r)
  | G_fin _ => x
  end.

(** Alone, it finds what [get_user_sessions] in one go finds. *)
Lemma get_user_sessions_gets uk r :
  Threads.gets gmicro (G_index uk, r) (G_fin (get_user_sessions r uk), r).
Proof using Type.
  apply gets_step. cbn. rewrite /get_user_sessions. destruct (sr_user_index r !! uk) as [set|]; [|done].
  assert (∀ keys found, Threads.gets gmicro (lookup_next uk keys found, r) (G_fin (found ++ omap (get_session r) keys), r)) as Hl;
    [|apply (Hl (ds_iter set) [])].
  induction keys as [|k keys IH]; intros found; [by rewrite app_nil_r|]. cbn [lookup_next]. apply gets_step. cbn.
  etransitivity; [apply IH|]. rewrite -app_assoc. by destruct (get_session r k).
Qed.

(** ** Everyone at the registry *)

Definition RUser : Type := RThread + Reader.

Definition umicro (x : RUser * SessionRegistry) : RUser * SessionRegistry :=
  match x with
  | (inl th, r) => let '(th, r) := rmicro (th, r) in (inl th, r)
  | (inr g, r) => let '(g, r) := gmicro (g, r) in (inr g, r)
  end.
Definition ufinished (u : RUser) : bool := match u with inl th => rfinished th | inr g => gfinished g end.

(** The measures: a lookup has read the index, and has keys left. *)
Definition usnapshots (u : RUser) : nat :=
  match u with inl th => rsnapshots th | inr (G_index _) => 1 | inr _ => 0 end.
Definition uops_left (u : RUser) : nat :=
  match u with inl th => rops_left th | inr (G_lookup _ keys _) => S (length keys) | inr _ => 0 end.

Lemma users_progress_wf blocked : well_founded (progress umicro blocked ufinished).
Proof using Type.
  apply (progress_wf _ _ _ usnapshots uops_left). intros [th|g] r u' r' Hf E; rewrite /umicro in E.
  - destruct (rmicro (th, r)) as [th' r1] eqn:Em. injection E as <- <-. by eapply registry_rank.
  - destruct g as [uk|uk [|k keys] found|found]; [|injection E as <- <-; right; cbn; split; [done|lia]| |done].
    + left. cbn in E. destruct (sr_user_index r !! uk); injection E as <- <-; [destruct (ds_iter _)|]; cbn; lia.
    + right. cbn in E. injection E as <- <-. destruct keys; cbn; split; first [done|lia].
Qed.
End readers.

(** ** The locks *)

(** The room tables: the lock that a thread keeps, and the one that its next operation asks for. *)
Definition room_hold (th : Thread) : option table := fst <$> holds th.
Definition room_excl (th : Thread) : option table := fst <$> needs th.
Definition room_shared (th : Thread) : option table :=
  match th_pc th with
  | J_users | L_users _ => Some TRoomUsers
  | J_rooms | L_rooms _ => Some TUserRooms
  | J_new | L_room => Some TRoomSessions
  | L_session _ => Some TSessionRooms
  | L_count true => Some TCounts
  | _ => None
  end.
Definition room_level (tb : table) : nat := match tb with TRefs => 1 | _ => 0 end.

Lemma room_order : lock_order room_hold room_excl room_shared finished room_level.
Proof.
  split.
  - intros [c pc l] tb. rewrite /asks /room_hold /room_excl /room_shared /holds /needs /finished.
    destruct pc; cbn; naive_solver.
  - intros [c pc l] tb. rewrite /room_excl /room_shared /needs. destruct pc as [| | | | |[]| | | | | | | | | | | | | | | | | | | | | |]; cbn; naive_solver.
  - intros [c pc l] tb tb'. rewrite /asks /room_hold /room_excl /room_shared /holds /needs.
    destruct pc; cbn; try done; intros ??; destruct_or?; simplify_eq/=; lia.
Qed.

(** The registry. *)
Definition of_mode {A} (m : mode) (x : option (mode * A)) : option A :=
  match x with Some (m', a) => if decide (m = m') then Some a else None | None => None end.

Definition reg_hold (u : RUser) : option rtable :=
  match u with
  | inl th => (λ x, x.2.1) <$> rholds th
  | inr (G_lookup _ _ _) => Some TUserIndex
  | inr _ => None
  end.
Definition reg_excl (u : RUser) : option rtable :=
  match u with inl th => fst <$> of_mode Exclusive (rneeds th) | inr _ => None end.
Definition reg_shared (u : RUser) : option rtable :=
  match u with
  | inl th => fst <$> of_mode Shared (rneeds th)
  | inr (G_index _) => Some TUserIndex
  | inr (G_lookup _ (_ :: _) _) => Some TSessions
  | inr _ => None
  end.
Definition reg_level (tb : rtable) : nat :=
  match tb with TTenantCounts => 2 | TUserIndex => 1 | TSessions => 0 end.

Lemma reg_order : lock_order reg_hold reg_excl reg_shared ufinished reg_level.
Proof.
  split.
  - intros [[c pc v o]|[uk|uk [|k keys] found|found]] tb; rewrite /asks; cbn; [|naive_solver..].
    destruct pc; cbn; naive_solver.
  - intros [[c pc v o]|g] tb; [|done]. cbn. destruct pc; cbn; naive_solver.
  - intros [[c pc v o]|[uk|uk [|k keys] found|found]] tb tb'; rewrite /asks; cbn.
    + destruct pc; cbn; try done; intros ??; destruct_or?; simplify_eq/=; lia.
    + done.
    + naive_solver.
    + intros [= <-] [[=]|[= <-]]. cbn. lia.
    + done.
Qed.

(** Guards of single entries, as in [Race.v] and [RegRace.v], are one way of locking. *)
Lemma waits_may_block others th : waits others th = true → may_block room_hold room_excl room_shared others th.
Proof.
  rewrite /waits. destruct (needs th) as [e|] eqn:En; [|done].
  intros (o & Hin%list_elem_of_In & Ho%bool_decide_eq_true)%existsb_exists. exists o, e.1. split; [done|]. left.
  rewrite /asks /room_excl /room_hold En Ho. split; [by left|done].
Qed.

(** C14: every call returns. Let threads run calls on the room tables, and others on the registry, wherever each of them is, with whatever locks of
    the tables: a thread waits at most for one that keeps a lock of the table that its next operation asks for (the same entry, or
    one in the same shard), or, to share a table, behind one that waits to have it for itself. Then, unless all have
    returned, one that has not can take its next step, although threads keep locks of
    one table while they ask for those of another; and there is no infinite
    sequence of such steps. So every schedule that goes on while a thread can step
    ends with all calls returned.  The calls are joining and leaving a room and the cleanup of a session; and inserting, removing and evicting a
    session, the opening of one, and the lookup of a user's sessions. *)
Theorem calls_return `{!DashOrder} :
  (∀ blocked, (∀ others th, blocked others th = true → may_block room_hold room_excl room_shared others th) →
     (∀ ths, existsb (λ th, negb (finished th)) ths = true → can_step blocked finished ths)
     ∧ well_founded (progress micro blocked finished))
  ∧ (∀ blocked, (∀ others u, blocked others u = true → may_block reg_hold reg_excl reg_shared others u) →
     (∀ us, existsb (λ u, negb (ufinished u)) us = true → can_step blocked ufinished us)
     ∧ well_founded (progress umicro blocked ufinished)).
Proof.
  split; intros blocked Hb; split.
  - by apply (ordered_can_step _ _ _ _ _ room_order).
  - apply rooms_progress_wf.
  - by apply (ordered_can_step _ _ _ _ _ reg_order).
  - apply users_progress_wf.
Qed.

(** With guards of single entries: of a leave and a join of one room, one can go on. *)
Lemma calls_return_witness :
  let lim := Lobby.lims 1 0 in
  can_step waits finished [Lobby.exits lim "a"; Lobby.enters lim "b"].
Proof.
  exact (proj1 (proj1 (@calls_return dash_order_elements) waits waits_may_block)
           [Lobby.exits (Lobby.lims 1 0) "a"; Lobby.enters (Lobby.lims 1 0) "b"] eq_refl).
Defined.
