(* ===== verification/RegCap.v ===== *)
(** * The session registry under concurrency

    What the threads of [RegRace.v] keep, and what they do not: under every
    schedule the cap of a tenant holds and its counter tells what is
    registered or on its way; the index of users and the limit of sessions per user
    do not survive all of them. *)

From S2P Require Import Prelude Errors Config Dash Threads SessionRegistry Presence Race RegRace.

Create HintDb idle.

(** ** The cap of a tenant, under every schedule *)

Section cap.
Context `{!DashOrder} (t : string) (m : Z).
Implicit Types (th : RThread) (ths : list RThread) (r : SessionRegistry).

(** The registered sessions of the tenant. *)
Definition live r : nat := size (filter (λ kv, se_tenant_id kv.2 = t) (sr_sessions r)).

(** What a thread has counted and not registered, or unregistered and not
    counted off. *)
Definition in_flight th : nat :=
  match rt_pc th with
  | I_recheck | I_undo | I_index | I_seq | I_insert _ =>
      if bool_decide (rc_tenant (rt_call th) = t) then 1%nat else 0%nat
  | R_count e => if bool_decide (se_tenant_id e = t) then 1%nat else 0%nat
  | _ => 0%nat
  end.

(** The thread inserts, now or later. *)
Definition inserts th : bool :=
  match rt_pc th with
  | Fin _ => false
  | I_entry | I_check | I_add | I_recheck | I_undo | I_index | I_seq | I_insert _ | O_count => true
  | _ => rt_open th
  end.

(** It keeps the guard of the tenant's counter. *)
Definition counts th : bool := keeps_count th && bool_decide (rc_tenant (rt_call th) = t).

Definition count r : Z := default 0 (sr_tenant_counts r !! t).

(** Who inserts after an eviction or a removal opens a session. *)
Lemma evicted_inserts th v :
  inserts (evicted th v) = true → rt_open th = true ∧ rt_call (evicted th v) = rt_call th.
Proof. rewrite /evicted /inserts. by destruct (rt_open th). Qed.

Lemma removed_inserts th conn :
  inserts (removed th conn) = true → rt_open th = true ∧ rt_call (removed th conn) = rt_call th.
Proof. rewrite /removed. by destruct (rt_victim th); [apply evicted_inserts|]. Qed.

Lemma scan_next_inserts th keys best :
  inserts (scan_next th keys best) = true → rt_open th = true ∧ rt_call (scan_next th keys best) = rt_call th.
Proof.
  rewrite /scan_next. destruct keys; [|done]. destruct (fst best); [done|apply evicted_inserts].
Qed.

Lemma micro_inserts th r th' r' :
  rmicro (th, r) = (th', r') → inserts th' = true → inserts th = true ∧ rt_call th' = rt_call th.
Proof.
  destruct th as [c pc v o]. rewrite /rmicro /open_step. cbn [rt_pc rt_call]. intros E Hi.
  destruct pc as [| | | | | | |seq| | | | |e| |k keys best| |res].
  1-8: destruct (insert_step _ _ _) as [pc' r1]; by injection E as <- <-.
  - by case_match; injection E as <- <-.
  - injection E as <- <-. rewrite /inserts /= in Hi |- *. by destruct (set_is_empty _ _).
  - by injection E as <- <-.
  - case_match; injection E as <- <-; [done|by apply removed_inserts in Hi].
  - injection E as <- <-. by apply removed_inserts in Hi.
  - case_match; injection E as <- <-; [by apply scan_next_inserts in Hi|by apply evicted_inserts in Hi].
  - injection E as <- <-. by apply scan_next_inserts in Hi.
  - injection E as <- <-. split; [done|]. by repeat case_match.
  - by injection E as <- <-.
Qed.

Lemma live_insert k e (M : gmap string SessionEntry) :
  M !! k = None →
  size (filter (λ kv, se_tenant_id kv.2 = t) (<[k := e]> M))
  = ((if bool_decide (se_tenant_id e = t) then 1 else 0)
     + size (filter (λ kv, se_tenant_id kv.2 = t) M))%nat.
Proof.
  intros Hk. rewrite map_filter_insert /=. case_decide as Ht.
  - rewrite bool_decide_true // map_size_insert_None //. by apply map_lookup_filter_None; left.
  - by rewrite bool_decide_false // delete_id.
Qed.

Lemma live_delete k e (M : gmap string SessionEntry) :
  M !! k = Some e →
  size (filter (λ kv, se_tenant_id kv.2 = t) M)
  = ((if bool_decide (se_tenant_id e = t) then 1 else 0)
     + size (filter (λ kv, se_tenant_id kv.2 = t) (delete k M)))%nat.
Proof. intros Hk. rewrite -(live_insert k e (delete k M)) ?lookup_delete_eq // insert_delete_id //. Qed.

Lemma count_set r t' n : count (set_tenant_count r t' n) = if bool_decide (t' = t) then n else count r.
Proof. rewrite /count /= lookup_insert. case_decide; [by rewrite bool_decide_true|by rewrite bool_decide_false]. Qed.

(** Out of the way: nothing in flight, no guard of the counter. *)
Definition idle th : Prop := in_flight th = 0%nat ∧ counts th = false ∧ rt_pc th ≠ I_add.

Lemma evicted_idle th v : idle (evicted th v).
Proof using Type. rewrite /evicted /idle. by destruct (rt_open th). Qed.
Lemma removed_idle th conn : idle (removed th conn).
Proof using Type. rewrite /removed. by destruct (rt_victim th); [apply evicted_idle|]. Qed.
Lemma scan_next_idle th keys best : idle (scan_next th keys best).
Proof using Type. rewrite /scan_next. destruct keys; [|done]. by destruct (fst best); [|apply evicted_idle]. Qed.

Hint Resolve evicted_idle removed_idle scan_next_idle : idle.

Lemma idle_in_flight th : idle th → in_flight th = 0%nat.
Proof using Type. by intros [? _]. Qed.
Lemma idle_counts th : counts th = true → idle th → False.
Proof using Type. intros Hc (_ & Hn & _). congruence. Qed.
Lemma idle_add th : rt_pc th = I_add → idle th → False.
Proof using Type. by intros Hc (_ & _ & Hn). Qed.

(** The counter moves with the sessions and what is in flight. *)
Lemma micro_accounts th r th' r' :
  rmicro (th, r) = (th', r') →
  (inserts th = true → sr_sessions r !! rc_session (rt_call th) = None) →
  Z.of_nat (in_flight th) ≤ count r ≤ u64_max →
  (rt_pc th = I_add → rc_tenant (rt_call th) = t → count r < u64_max) →
  count r' + Z.of_nat (live r) + Z.of_nat (in_flight th)
  = count r + Z.of_nat (live r') + Z.of_nat (in_flight th').
Proof.
  destruct th as [c pc v o]. rewrite /rmicro /open_step. cbn [rt_pc rt_call]. intros E Hfresh Hc Hadd.
  assert (∀ n, 0 ≤ n ≤ u64_max → wrap64 n = n) as Hwrap by (intros n Hn; by apply wrap64_small).
  destruct pc as [| | | | | | |seq| | | | |e| |k keys best| |res]; cbn [insert_step] in E.
  - injection E as <- <-. rewrite count_set /live /in_flight /=. case_bool_decide as Et; [|lia].
    rewrite /count Et. lia.
  - injection E as <- <-. rewrite /in_flight /=. destruct (_ && _); cbn; lia.
  - injection E as <- <-. rewrite count_set /live /in_flight /=. case_bool_decide as Et; [|lia].
    specialize (Hadd eq_refl Et). rewrite Et. fold (count r). rewrite Hwrap; [lia|]. cbn in Hc. lia.
  - injection E as <- <-. rewrite /in_flight /=. destruct (_ && _); cbn; lia.
  - injection E as <- <-. rewrite count_set /live /in_flight /= in Hc |- *. case_bool_decide as Et; [|lia].
    rewrite Et. fold (count r). rewrite Hwrap; lia.
  - injection E as <- <-. rewrite /count /in_flight /live /=. lia.
  - injection E as <- <-. rewrite /count /in_flight /live /=. lia.
  - injection E as <- <-. rewrite /in_flight /live /= live_insert; [|by apply Hfresh]. cbn.
    rewrite /count /=. case_bool_decide; lia.
  - case_match; injection E as <- <-; rewrite /count /in_flight /live /=; lia.
  - injection E as <- <-. rewrite /in_flight /=. destruct (set_is_empty _ _); cbn; lia.
  - injection E as <- <-. rewrite /count /in_flight /live /=. lia.
  - case_match eqn:Es; injection E as <- <-; [|rewrite (idle_in_flight (removed _ _)); auto with idle; cbn; lia].
    rewrite /live /in_flight /= (live_delete _ _ _ Es). rewrite /count /=. case_bool_decide; lia.
  - injection E as <- <-. rewrite (idle_in_flight (removed _ _)); auto with idle. rewrite /in_flight /= in Hc |- *.
    destruct (sr_tenant_counts r !! se_tenant_id e) as [n|] eqn:En.
    + rewrite count_set /live /=. case_bool_decide as Et; [|lia].
      assert (count r = n) as Hn by (by rewrite /count -Et En). rewrite Hwrap; lia.
    + case_bool_decide as Et; [|lia]. assert (count r = 0) by (by rewrite /count -Et En). lia.
  - case_match; injection E as <- <-.
    + rewrite (idle_in_flight (scan_next _ _ _)); auto with idle; cbn; lia.
    + rewrite (idle_in_flight (evicted _ _)); auto with idle; cbn; lia.
  - injection E as <- <-. rewrite (idle_in_flight (scan_next _ _ _)); auto with idle; cbn; lia.
  - injection E as <- <-. rewrite /in_flight. repeat case_match; cbn in *; simplify_eq; lia.
  - injection E as <- <-. lia.
Qed.
(** No step but the increment raises the counter. *)
Lemma micro_count_le th r th' r' :
  rmicro (th, r) = (th', r') →
  Z.of_nat (in_flight th) ≤ count r ≤ u64_max →
  (rt_pc th = I_add → rc_tenant (rt_call th) ≠ t) →
  count r' ≤ count r.
Proof using Type.
  destruct th as [c pc v o]. rewrite /rmicro /open_step. cbn [rt_pc rt_call]. intros E Hc Hadd.
  assert (∀ n, 0 ≤ n ≤ u64_max → wrap64 n = n) as Hwrap by (intros n Hn; by apply wrap64_small).
  destruct pc as [| | | | | | |seq| | | | |e| |k keys best| |res]; cbn [insert_step] in E;
    try (repeat case_match; injection E as <- <-; rewrite /count /=; lia).
  - injection E as <- <-. rewrite count_set. case_bool_decide as Et; [|lia]. rewrite /count Et. lia.
  - injection E as <- <-. rewrite count_set. case_bool_decide as Et; [|lia]. by destruct (Hadd eq_refl).
  - injection E as <- <-. rewrite /in_flight /= in Hc. rewrite count_set. case_bool_decide as Et; [|lia].
    rewrite Et. fold (count r). rewrite Hwrap; lia.
  - injection E as <- <-. rewrite /in_flight /= in Hc.
    destruct (sr_tenant_counts r !! se_tenant_id e) as [n|] eqn:En; [|lia].
    rewrite count_set. case_bool_decide as Et; [|lia].
    assert (count r = n) as Hn by (by rewrite /count -Et En). rewrite Hwrap; lia.
Qed.

(** The counter's guard: who has it after a step had it, or took it. *)
Lemma micro_counts th r th' r' :
  rmicro (th, r) = (th', r') → counts th' = true →
  counts th = true ∨ (rt_pc th = I_entry ∧ rc_tenant (rt_call th) = t).
Proof using Type.
  destruct th as [c pc v o]. rewrite /rmicro /open_step. cbn [rt_pc rt_call]. intros E Hc.
  destruct pc as [| | | | | | |seq| | | | |e| |k keys best| |res].
  1:{ injection E as <- <-. right. apply andb_prop, proj2, bool_decide_eq_true_1 in Hc. done. }
  1-7: destruct (insert_step _ _ _) as [pc' r1]; injection E as <- <-; left; exact (andb_true_intro (conj eq_refl (proj2 (andb_prop _ _ Hc)))).
  all: repeat case_match; injection E as <- <-; first [done|by destruct (idle_counts _ Hc); auto with idle].
Qed.

(** The increment, and the check that leads to it. *)
Lemma micro_add th r th' r' :
  rmicro (th, r) = (th', r') → rt_pc th = I_add → rc_tenant (rt_call th) = t →
  count r' = wrap64 (count r + 1).
Proof using Type.
  destruct th as [c pc v o]. cbn. intros E -> Ht. injection E as <- <-.
  by rewrite count_set bool_decide_true // Ht.
Qed.

Lemma micro_to_add th r th' r' :
  rmicro (th, r) = (th', r') → rt_pc th' = I_add →
  rt_pc th = I_check ∧ r' = r ∧ rt_call th' = rt_call th
  ∧ (0 < rc_max (rt_call th) → default 0 (sr_tenant_counts r !! rc_tenant (rt_call th)) < rc_max (rt_call th)).
Proof using Type + t.
  destruct th as [c pc v o]. rewrite /rmicro /open_step. cbn [rt_pc rt_call]. intros E Hp.
  destruct pc as [| | | | | | |seq| | | | |e| |k keys best| |res]; cbn [insert_step] in E.
  2:{ destruct (_ && _) eqn:Eb; injection E as <- <-; [done|]. split_and!; [done..|].
      intros Hpos. apply andb_false_iff in Eb as [Eb|Eb]; lia. }
  all: repeat case_match; injection E as <- <-; first [done|by destruct (idle_add _ Hp); auto with idle].
Qed.

(** A step registers nothing but the session of the thread that inserts. *)
Lemma micro_fresh th r th' r' k :
  rmicro (th, r) = (th', r') → sr_sessions r !! k = None →
  sr_sessions r' !! k = None ∨ (inserts th = true ∧ inserts th' = false ∧ rc_session (rt_call th) = k).
Proof using Type.
  destruct th as [c pc v o]. rewrite /rmicro /open_step. cbn [rt_pc rt_call]. intros E Hk.
  destruct pc as [| | | | | | |seq| | | | |e| |k' keys best| |res]; cbn [insert_step] in E;
    try (repeat case_match; injection E as <- <-; by left).
  - injection E as <- <-. destruct (decide (rc_session c = k)) as [Heq|Hne]; [by right|].
    left. by rewrite /= lookup_insert_ne.
  - case_match; injection E as <- <-; left; [|done]. by rewrite /= lookup_delete_None; right.
Qed.

(** The threads and the registry, at any time. *)
Record cap_inv (ths : list RThread) (r : SessionRegistry) : Prop := {
  ci_max : ∀ th, th ∈ ths → inserts th = true → rc_tenant (rt_call th) = t → rc_max (rt_call th) = m;
  ci_fresh : ∀ th, th ∈ ths → inserts th = true → sr_sessions r !! rc_session (rt_call th) = None;
  ci_distinct : ∀ i j a b, ths !! i = Some a → ths !! j = Some b → inserts a = true → inserts b = true →
    rc_session (rt_call a) = rc_session (rt_call b) → i = j;
  ci_count : count r = Z.of_nat (live r) + Z.of_nat (total in_flight ths);
  ci_cap : count r ≤ m;
  ci_guard : ∀ i j a b, ths !! i = Some a → ths !! j = Some b → counts a = true → counts b = true → i = j;
  ci_add : ∀ th, th ∈ ths → rt_pc th = I_add → rc_tenant (rt_call th) = t → count r < m;
}.

Lemma counts_at_add th : rt_pc th = I_add → rc_tenant (rt_call th) = t → counts th = true.
Proof using Type. intros Hpc Ht. by rewrite /counts /keeps_count Hpc bool_decide_true. Qed.

(** Who takes the counter's guard takes it from nobody. *)
Lemma entry_alone others th o :
  rt_pc th = I_entry → rc_tenant (rt_call th) = t → rwaits others th = false → o ∈ others → counts o = false.
Proof using Type.
  intros Hpc Ht Hw Ho. rewrite /rwaits /rneeds Hpc Ht in Hw.
  pose proof (existsb_elim _ _ _ Hw Ho) as Hh. rewrite /counts. apply not_true_iff_false.
  intros [Hk Ht']%andb_prop. apply bool_decide_eq_true_1 in Ht'. revert Hh Hk.
  rewrite /rholds /keeps_count Ht'. destruct (rt_pc o); try done; by rewrite /conflict /= bool_decide_true.
Qed.

(** At most one thread has the guard of the counter. *)
Lemma guard_kept ths r i th th' r' :
  (∀ i j a b, ths !! i = Some a → ths !! j = Some b → counts a = true → counts b = true → i = j) →
  ths !! i = Some th → rwaits (delete i ths) th = false → rmicro (th, r) = (th', r') →
  ∀ j k a b, <[i := th']> ths !! j = Some a → <[i := th']> ths !! k = Some b →
    counts a = true → counts b = true → j = k.
Proof using Type.
  intros Hguard Hi Hw E.
  assert (counts th' = true → ∀ j a, ths !! j = Some a → j ≠ i → counts a = true → False) as Hg.
  { intros Hc j a Ha Hne Hca. destruct (micro_counts _ _ _ _ E Hc) as [Hc'|[Hp Ht]]; [by destruct Hne; eapply Hguard|].
    pose proof (entry_alone _ _ a Hp Ht Hw (elem_of_others _ _ _ _ Ha Hne)). congruence. }
  intros j k a b Hj Hk Hca Hcb.
  destruct (lookup_update _ _ _ _ _ Hj) as [[-> ->]|[Hne Ha]], (lookup_update _ _ _ _ _ Hk) as [[-> ->]|[Hne' Hb']]; try done.
  - by destruct (Hg Hca k b Hb' Hne').
  - by destruct (Hg Hcb j a Ha Hne).
  - by eapply Hguard.
Qed.

Context (Hm : 0 < m ≤ u64_max).

(** The counter stays within the cap, and only the increment raises it. *)
Lemma micro_cap th r th' r' :
  rmicro (th, r) = (th', r') → Z.of_nat (in_flight th) ≤ count r ≤ u64_max →
  (rt_pc th = I_add → rc_tenant (rt_call th) = t → count r < m) → count r ≤ m →
  count r' ≤ m ∧ ((rt_pc th = I_add ∧ rc_tenant (rt_call th) = t) ∨ count r' ≤ count r).
Proof using Hm.
  intros E Hb Hadd Hcap.
  assert (Decision (rt_pc th = I_add)) as Hdec by (destruct (rt_pc th); first [by left|by right]).
  destruct (decide (rt_pc th = I_add ∧ rc_tenant (rt_call th) = t)) as [[Hp Ht]|Hn].
  - split; [|by left]. rewrite (micro_add _ _ _ _ E Hp Ht). specialize (Hadd Hp Ht).
    rewrite wrap64_small; [|split]; lia.
  - pose proof (micro_count_le th r th' r' E Hb ltac:(tauto)). split; [lia|by right].
Qed.

Lemma cap_inv_step ths r i th th' r' :
  cap_inv ths r → ths !! i = Some th → rwaits (delete i ths) th = false → rmicro (th, r) = (th', r') →
  cap_inv (<[i := th']> ths) r'.
Proof using Hm.
  intros [Hmax Hfresh Hdis Hcount Hcap Hguard Hadd] Hi Hw E.
  assert (th ∈ ths) as Hth by (by eapply list_elem_of_lookup_2).
  assert (i < length ths)%nat as Hlt by (by eapply lookup_lt_Some).
  pose proof (total_ge in_flight ths i th Hi) as Hge.
  assert (Z.of_nat (in_flight th) ≤ count r ≤ u64_max) as Hb by lia.
  pose proof (micro_inserts th r th' r' E) as Hins.
  pose proof (λ j a, lookup_update ths i j th' a) as Hat.
  assert (count r' = Z.of_nat (live r') + Z.of_nat (total in_flight (<[i := th']> ths))) as Hcount'.
  { pose proof (micro_accounts th r th' r' E (Hfresh th Hth) Hb) as Ha.
    pose proof (total_update in_flight ths i th th' Hi). 
    assert (rt_pc th = I_add → rc_tenant (rt_call th) = t → count r < u64_max) as Hx
      by (intros Hp Ht; specialize (Hadd th Hth Hp Ht); lia).
    specialize (Ha Hx). lia. }
  destruct (micro_cap th r th' r' E Hb ltac:(by apply Hadd)) as [Hcap' Hle]; [done|].
  split; try done.
  - intros a [->|Ha]%elem_of_update Hia; [|by apply Hmax]. destruct (Hins Hia) as [Hi' ->]. by apply Hmax.
  - intros a [j Hj]%list_elem_of_lookup Hia.
    assert (∃ b, ths !! j = Some b ∧ inserts b = true ∧ rt_call a = rt_call b) as (b & Hb' & Hib & ->).
    { destruct (Hat j a Hj) as [[-> ->]|[Hne Ha]]; [|by eauto]. destruct (Hins Hia); eauto. }
    destruct (micro_fresh th r th' r' _ E (Hfresh b ltac:(by eapply list_elem_of_lookup_2) Hib)) as [|(Hi1 & Hi2 & Hk)]; [done|].
    destruct (Hat j a Hj) as [[-> ->]|[Hne Ha]]; [congruence|].
    destruct Hne. eapply Hdis; eauto. congruence.
  - intros j k a b Hj Hk Hia Hib Hkey.
    destruct (Hat j a Hj) as [[-> ->]|[Hne Ha]], (Hat k b Hk) as [[-> ->]|[Hne' Hb']]; try done.
    + destruct (Hins Hia) as [Hi' Hcall]. eapply Hdis; eauto. by rewrite -Hcall.
    + destruct (Hins Hib) as [Hi' Hcall]. eapply Hdis; eauto. by rewrite -Hcall.
    + by eapply Hdis.
  - by eapply guard_kept.
  - intros a [j Hj]%list_elem_of_lookup Hp Ht. destruct (Hat j a Hj) as [[-> ->]|[Hne Ha]].
    + destruct (micro_to_add _ _ _ _ E Hp) as (Hck & -> & Hcall & Hlt'). rewrite Hcall in Ht.
      assert (rc_max (rt_call th) = m) as Hm' by (apply Hmax; [done|by rewrite /inserts Hck|done]).
      rewrite Hm' Ht in Hlt'. fold (count r) in Hlt'. lia.
    + assert (count r < m) by (apply (Hadd a); [by eapply list_elem_of_lookup_2|done..]).
      destruct Hle as [[Hp' Ht']|Hle]; [|lia].
      destruct Hne. eapply Hguard; eauto using counts_at_add.
Qed.

(** The cap never makes the second check fail. *)
Lemma cap_inv_no_undo ths r i th :
  cap_inv ths r → ths !! i = Some th → rt_pc th = I_recheck → rc_tenant (rt_call th) = t →
  rt_pc (rmicro (th, r)).1 = I_index.
Proof using Hm.
  intros Hinv Hi Hp Ht. rewrite /rmicro Hp /= Ht. fold (count r).
  rewrite (ci_max _ _ Hinv th ltac:(by eapply list_elem_of_lookup_2) ltac:(by rewrite /inserts Hp) Ht).
  pose proof (ci_cap _ _ Hinv). by replace (m <? count r) with false by lia; rewrite andb_false_r.
Qed.

(** Where a call begins. *)
Definition starts th : bool :=
  match rt_pc th with I_entry | R_index | E_keys | O_count => true | _ => false end.

(** Calls that begin on a registry whose counter of the tenant tells its
    sessions: those that insert for the tenant give its cap, and no two
    insert the same session, nor one that is registered. *)
Record begins ths r : Prop := {
  be_starts : ∀ th, th ∈ ths → starts th = true;
  be_max : ∀ th, th ∈ ths → inserts th = true → rc_tenant (rt_call th) = t → rc_max (rt_call th) = m;
  be_fresh : ∀ th, th ∈ ths → inserts th = true → sr_sessions r !! rc_session (rt_call th) = None;
  be_distinct : ∀ i j a b, ths !! i = Some a → ths !! j = Some b → inserts a = true → inserts b = true →
    rc_session (rt_call a) = rc_session (rt_call b) → i = j;
  be_count : count r = Z.of_nat (live r);
  be_cap : count r ≤ m;
}.

Lemma total_zero (f : RThread → nat) ths : (∀ th, th ∈ ths → f th = 0%nat) → total f ths = 0%nat.
Proof using Type.
  rewrite /total. induction ths as [|th ths IH]; intros Hf; [done|]. cbn.
  rewrite (Hf th) ?IH //; [|by constructor]. intros th' Hth. apply Hf. by constructor.
Qed.

Lemma begins_inv ths r : begins ths r → cap_inv ths r.
Proof using Type.
  intros [Hs Hmax Hf Hd Hc Hcap].
  assert (∀ th, th ∈ ths → idle th) as Hidle.
  { intros [c pc v o] Hth. specialize (Hs _ Hth). rewrite /idle /in_flight /counts /=. by destruct pc. }
  split; try done.
  - rewrite (total_zero in_flight ths); [lia|]. intros th Hth. by apply idle_in_flight, Hidle.
  - intros i j a b Hi _ Ha. destruct (idle_counts _ Ha). eapply Hidle, list_elem_of_lookup_2, Hi.
  - intros th Hth Hp. destruct (idle_add _ Hp). by apply Hidle.
Qed.

Lemma rrace_inv ths r schedule :
  cap_inv ths r → cap_inv (rrace (ths, r) schedule).1 (rrace (ths, r) schedule).2.
Proof using Hm.
  intros Hinv. apply (run_invariant _ _ (λ x, cap_inv x.1 x.2)); [|done].
  intros. by eapply cap_inv_step.
Qed.
End cap.

(** C13: the cap of a tenant is strict.  Whatever calls of the registry begin
    together, those that insert for the tenant with its cap [m] and under session
    keys that are new, and in whatever order their map operations and their
    waiting interleave: at every moment the counter of the tenant is
    the number of its registered sessions and of those that some thread has
    counted and not yet registered or removed and not yet counted off, and it is
    at most [m].  The overshoot that the comment of [try_insert] speaks of cannot
    happen, since the guard that [entry] returns is kept to the end of the
    call: the second check never fails. *)
Theorem registry_cap_concurrent `{!DashOrder} (t : string) (m : Z) ths r schedule :
  0 < m ≤ u64_max → begins t m ths r →
  let '(ths', r') := rrace (ths, r) schedule in
  count t r' = Z.of_nat (live t r') + Z.of_nat (total (in_flight t) ths')
  ∧ count t r' ≤ m
  ∧ ∀ i th, ths' !! i = Some th → rc_tenant (rt_call th) = t → rt_pc th = I_recheck →
      rt_pc (rmicro (th, r')).1 = I_index.
Proof.
  intros Hm Hb. pose proof (rrace_inv t m Hm ths r schedule (begins_inv t m ths r Hb)) as Hinv.
  destruct (rrace _ _) as [ths' r']. cbn [fst snd] in Hinv.
  split_and!; [apply Hinv|apply Hinv|]. intros i th Hi Ht Hp. by eapply cap_inv_no_undo.
Qed.

(** ** What schedules can break *)

Module Ann.
Definition pol : SessionPolicy := mkSessionPolicy Multi 1 Deny.
Definition call (sid : string) : RCall := mkRCall "acme" "acme::ann" sid (mkConnection 0) 10 pol.
Definition opens (sid : string) : RThread := mkRThread (call sid) O_count None true.
Definition closes (sid : string) : RThread := mkRThread (call sid) R_index None false.
Definition to_end (i : nat) : list nat := replicate 12 i.
(** Ann has the session [k]. *)
Definition one (k : string) : SessionRegistry := (rrace ([opens k], sr_new) (to_end 0)).2.
End Ann.

Lemma registry_cap_concurrent_witness :
  let call sid := mkRCall "acme" "acme::ann" sid (mkConnection 0) 1 (mkSessionPolicy Multi 5 Deny) in
  let ths := [mkRThread (call "a") O_count None true; mkRThread (call "b") I_entry None false] in
  let x := rrace (ths, sr_new) ([0; 0; 1; 0] ++ Ann.to_end 1 ++ Ann.to_end 0 ++ Ann.to_end 1)%nat in
  (rt_pc <$> x.1) = [Fin (RInserted (Ok tt)); Fin (RInserted (Err (EResourceExhausted "tenant session limit reached")))]
  ∧ count "acme" x.2 ≤ 1.
Proof.
  intros call ths x. split; [by vm_compute|].
  assert (begins "acme" 1 ths sr_new) as Hb.
  { split; try (intros th Hth; repeat (apply elem_of_cons in Hth as [->|Hth]; [by vm_compute|]); by apply elem_of_nil in Hth).
    - intros [|[|i]] [|[|j]] a b Hi Hj; cbn in *; try done; by intros; simplify_eq.
    - by vm_compute.
    - by vm_compute. }
  pose proof (registry_cap_concurrent "acme" 1 ths sr_new
    ([0; 0; 1; 0] ++ Ann.to_end 1 ++ Ann.to_end 0 ++ Ann.to_end 1)%nat ltac:(done) Hb) as Hcap.
  change (rrace (ths, sr_new) _) with x in Hcap. destruct x as [ths' r']. exact (proj1 (proj2 Hcap)).
Defined.

(** The limit of sessions per user and the index of users are not safe
    against interleavings.  With one session allowed and no eviction: two
    openings that both count before either inserts both succeed; and when the
    user's last session closes while another one opens, the removal can
    drop the user's set after the insertion has put the new session there
    ([remove_session] releases its guard between the test and the drop).  The new session is
    then registered and counted for the tenant, but the user has no sessions: nothing
    sent to the user reaches it, and it does not count towards the limit, so that the user
    opens another one. *)
Theorem user_limit_races :
  (let x := rrace ([Ann.opens "a"; Ann.opens "b"], sr_new) ([0; 1] ++ Ann.to_end 0 ++ Ann.to_end 1)%nat in
   (rt_pc <$> x.1) = [Fin (RInserted (Ok tt)); Fin (RInserted (Ok tt))]
   ∧ count_user_sessions x.2 "acme::ann" = 2)
  ∧ (let x := rrace ([Ann.closes "a"; Ann.opens "b"], Ann.one "a")
                    ([0; 0] ++ Ann.to_end 1 ++ Ann.to_end 0)%nat in
     (rt_pc <$> x.1) = [Fin (RRemoved (Some (mkConnection 0))); Fin (RInserted (Ok tt))]
     ∧ get_session x.2 "b" = Some (mkConnection 0)
     ∧ count_tenant_sessions x.2 "acme" = 1
     ∧ get_user_sessions x.2 "acme::ann" = []
     ∧ (rt_pc <$> (rrace ([Ann.opens "c"], x.2) (Ann.to_end 0)).1) = [Fin (RInserted (Ok tt))]).
Proof. split_and!; by vm_compute. Qed.
