(* ===== verification/Keys.v ===== *)
(** * Keys, tenants and rooms ([RealtimeCtx::new] and [room_key] of
    realtime/core/realtime.rs, [run_session] of transport/ws.rs)

    The gateway keys its tables by concatenations with [::] of tenant ids,
    user ids, session ids and room names.  This file says when these keys can
    be read back, instantiates the presence tables of [Presence.v] with them,
    and states the resulting guarantees on rooms. *)

From S2P Require Import Prelude Errors RustStd Config Dash Presence.

(** [format!("{}::{}", tenant, user)]. *)
Definition user_key (tenant user : string) : string := tenant +:+ "::" +:+ user.

(** [format!("{}::{}::{}", tenant, user, session_id)]. *)
Definition session_key (tenant user sid : string) : string :=
  tenant +:+ "::" +:+ user +:+ "::" +:+ sid.

(** [RealtimeCtx::room_key]. *)
Definition room_key (tenant room : string) : string := tenant +:+ "::" +:+ room.

(** ** Reading keys back *)

(** Cut at the first double colon. *)
Fixpoint split_dcolon (s : string) : option (string * string) :=
  match s with
  | EmptyString => None
  | String a s1 =>
      if bool_decide (a = ":"%char) && match s1 with
                                       | String b _ => bool_decide (b = ":"%char)
                                       | EmptyString => false
                                       end
      then match s1 with String _ s2 => Some (EmptyString, s2) | EmptyString => None end
      else match split_dcolon s1 with
           | Some (l, r) => Some (String a l, r)
           | None => None
           end
  end.

(** An identifier that cannot swallow a separator: no double colon inside, no
    colon at the end. *)
Fixpoint safe (s : string) : bool :=
  match s with
  | EmptyString => true
  | String a s' =>
      if bool_decide (a = ":"%char)
      then match s' with
           | EmptyString => false
           | String b _ => negb (bool_decide (b = ":"%char)) && safe s'
           end
      else safe s'
  end.

Lemma split_dcolon_safe (l r : string) :
  safe l = true → split_dcolon (l +:+ "::" +:+ r) = Some (l, r).
Proof.
  induction l as [|a l IH]; intros Hs; [done|].
  rewrite string_app_cons. cbn [split_dcolon]. cbn in Hs.
  case_bool_decide as Ha; cbn [andb].
  - destruct l as [|b l]; [done|]. apply andb_true_iff in Hs as [Hb Hs].
    rewrite string_app_cons. apply negb_true_iff in Hb. rewrite Hb.
    rewrite -string_app_cons (IH Hs). done.
  - by rewrite (IH Hs).
Qed.

(** Cutting after a safe identifier is unambiguous. *)
Lemma dcolon_unique (l l' r r' : string) :
  safe l = true → safe l' = true → l +:+ "::" +:+ r = l' +:+ "::" +:+ r' → l = l' ∧ r = r'.
Proof.
  intros Hl Hl' H. apply (f_equal split_dcolon) in H.
  rewrite !split_dcolon_safe // in H. by injection H as -> ->.
Qed.

(** The tenant of a room key, the user key of a session key. *)
Definition key_tenant (k : string) : string := default "" (fst <$> split_dcolon k).
Definition key_owner (k : string) : string :=
  match split_dcolon k with
  | Some (t, rest) => user_key t (default "" (fst <$> split_dcolon rest))
  | None => ""
  end.

(** The user and the room of one tenant. *)
Definition same_tenant (uk rk : string) : Prop :=
  ∃ t u room, safe t = true ∧ safe u = true ∧ uk = user_key t u ∧ rk = room_key t room.

Lemma key_tenant_room t room : safe t = true → key_tenant (room_key t room) = t.
Proof. intros Ht. by rewrite /key_tenant /room_key split_dcolon_safe. Qed.

Lemma key_owner_session t u sid :
  safe t = true → safe u = true → key_owner (session_key t u sid) = user_key t u.
Proof. intros Ht Hu. by rewrite /key_owner /session_key !split_dcolon_safe. Qed.

Lemma key_tenant_session t u sid : safe t = true → key_tenant (session_key t u sid) = t.
Proof. intros Ht. by rewrite /key_tenant /session_key split_dcolon_safe. Qed.

Lemma ref_key_same_tenant uk rk uk' rk' :
  same_tenant uk rk → same_tenant uk' rk' → ref_key uk rk = ref_key uk' rk' → uk = uk' ∧ rk = rk'.
Proof.
  intros (t & u & room & Ht & Hu & -> & ->) (t' & u' & room' & Ht' & Hu' & -> & ->).
  rewrite /ref_key /user_key /room_key !string_app_assoc => H.
  apply dcolon_unique in H as [<- H]; [|done..]. apply dcolon_unique in H as [<- H]; [|done..].
  apply dcolon_unique in H as [_ <-]; done.
Qed.

Lemma same_tenant_session t u sid room :
  safe t = true → safe u = true → same_tenant (key_owner (session_key t u sid)) (room_key t room).
Proof. intros. rewrite key_owner_session //. exists t, u, room. done. Qed.

(** ** Presence under the gateway's keys *)

Abbreviation rooms_rep := (pres_rep key_owner key_tenant same_tenant).
Abbreviation key_users := (users_of key_owner).
Abbreviation key_rooms := (rooms_of key_owner).
Abbreviation key_tenant_rooms := (tenant_rooms key_tenant).

(** Memberships that join a session to a room of its own tenant. *)
Definition keyed (M : members) : Prop :=
  ∀ x, x ∈ M → ∃ t u sid room, safe t = true ∧ safe u = true
                               ∧ x = (session_key t u sid, room_key t room).

(** The limits of every tenant hold. *)
Definition limits_ok (lims : string → TenantLimits) (M : members) : Prop :=
  ∀ t u room, safe t = true → safe u = true →
    (0 < max_users_per_room (lims t) →
     Z.of_nat (size (key_users M (room_key t room))) ≤ max_users_per_room (lims t))
    ∧ (0 < max_rooms_per_user (lims t) →
       Z.of_nat (size (key_rooms M (user_key t u))) ≤ max_rooms_per_user (lims t))
    ∧ (0 < max_rooms_total (lims t) →
       Z.of_nat (size (key_tenant_rooms M t)) ≤ max_rooms_total (lims t)).

(** Runs of the presence tables under the gateway's keys: joins of sessions
    that are not yet in the room, leaves of sessions that are, cleanups. [n]
    counts the joins tried; [M] records the memberships, from the answers
    alone. *)
Inductive rooms_reach `{!DashOrder} (lims : string → TenantLimits)
    : nat → Presence → members → Prop :=
| rooms_new : rooms_reach lims 0 pr_new ∅
| rooms_join n p M t u sid room res p' :
    rooms_reach lims n p M → safe t = true → safe u = true →
    (session_key t u sid, room_key t room) ∉ M →
    try_join p t (room_key t room) (user_key t u) (session_key t u sid) (lims t) = (res, p') →
    rooms_reach lims (S n) p'
      (if is_ok res then {[(session_key t u sid, room_key t room)]} ∪ M else M)
| rooms_leave n p M t u sid room :
    rooms_reach lims n p M → safe t = true → safe u = true →
    (session_key t u sid, room_key t room) ∈ M →
    rooms_reach lims n (leave p t (room_key t room) (user_key t u) (session_key t u sid))
      (M ∖ {[(session_key t u sid, room_key t room)]})
| rooms_cleanup n p M t u sid :
    rooms_reach lims n p M → safe t = true → safe u = true →
    rooms_reach lims n (cleanup_session p t (user_key t u) (session_key t u sid))
      (without M (session_key t u sid)).

Lemma rooms_rep_new : rooms_rep pr_new ∅ ∅.
Proof.
  split; cbn; try done; eapply idx_rep_iff; try apply idx_rep_empty; set_solver.
Qed.

Lemma limits_ok_empty lims : limits_ok lims ∅.
Proof. intros t u room _ _. split_and!; intros Hl; vm_compute (size _); lia. Qed.

Lemma limits_ok_mono lims M M' : M' ⊆ M → limits_ok lims M → limits_ok lims M'.
Proof.
  intros Hsub H t u room Ht Hu. destruct (H t u room Ht Hu) as (H1 & H2 & H3).
  split_and!; intros Hl; [specialize (H1 Hl)|specialize (H2 Hl)|specialize (H3 Hl)];
    (etransitivity; [apply inj_le, subseteq_size|eassumption]); intros x.
  - rewrite !elem_of_users_of. set_solver.
  - rewrite !elem_of_rooms_of. set_solver.
  - rewrite !elem_of_tenant_rooms. set_solver.
Qed.

(** A set below its limit stays within it when the element is added. *)
Lemma below_add limit (set set' : gset string) x :
  0 < limit → below limit set x → Z.of_nat (size set) ≤ limit → set' ⊆ {[x]} ∪ set →
  Z.of_nat (size set') ≤ limit.
Proof.
  intros Hl Hb Hs Hsub. apply subseteq_size in Hsub.
  destruct (decide (x ∈ set)) as [Hx|Hx].
  - replace ({[x]} ∪ set) with set in Hsub by set_solver. lia.
  - rewrite size_union in Hsub; [|set_solver]. rewrite size_singleton in Hsub.
    rewrite /below in Hb. naive_solver lia.
Qed.

Lemma limits_ok_join lims M t u sid room :
  safe t = true → safe u = true → limits_ok lims M →
  can_join key_owner key_tenant (lims t) M (session_key t u sid) (room_key t room) →
  limits_ok lims ({[(session_key t u sid, room_key t room)]} ∪ M).
Proof.
  intros Ht Hu HM (Hb1 & Hb2 & Hb3). rewrite key_owner_session // in Hb1, Hb2.
  rewrite key_tenant_room // in Hb3. intros t' u' room' Ht' Hu'.
  destruct (HM t' u' room' Ht' Hu') as (H1 & H2 & H3). split_and!; intros Hl.
  - destruct (decide (room_key t' room' = room_key t room)) as [E|E].
    + apply dcolon_unique in E as [-> ->]; [|done..].
      eapply below_add; [done|exact Hb1|auto|]. intros x. rewrite elem_of_users_of.
      rewrite elem_of_union elem_of_users_of. intros (s & Hs & <-).
      apply elem_of_union in Hs as [[= ->]%elem_of_singleton|Hs]; [left|right; eauto].
      rewrite key_owner_session //. set_solver.
    + etransitivity; [apply inj_le, subseteq_size|by apply H1].
      intros x. rewrite !elem_of_users_of. set_solver.
  - destruct (decide (user_key t' u' = user_key t u)) as [E|E].
    + apply dcolon_unique in E as [-> ->]; [|done..].
      eapply below_add; [done|exact Hb2|auto|]. intros x. rewrite elem_of_rooms_of.
      rewrite elem_of_union elem_of_rooms_of. set_solver.
    + etransitivity; [apply inj_le, subseteq_size|by apply H2].
      intros x. rewrite !elem_of_rooms_of. intros (s & Hs & Ho). exists s. split; [|done].
      apply elem_of_union in Hs as [[= -> ->]%elem_of_singleton|Hs]; [|done].
      destruct E. by rewrite -Ho key_owner_session.
  - destruct (decide (t' = t)) as [->|E].
    + eapply below_add; [done|exact Hb3|auto|]. intros x. rewrite elem_of_tenant_rooms.
      rewrite elem_of_union elem_of_tenant_rooms. set_solver.
    + etransitivity; [apply inj_le, subseteq_size|by apply H3].
      intros x. rewrite !elem_of_tenant_rooms. intros (Hx & s & Hs). split; [done|]. exists s.
      apply elem_of_union in Hs as [[= -> ->]%elem_of_singleton|Hs]; [|done].
      destruct E. by rewrite -Hx key_tenant_room.
Qed.

Lemma keyed_tenant M t u sid r :
  keyed M → safe t = true → safe u = true → (session_key t u sid, r) ∈ M → key_tenant r = t.
Proof.
  intros HM Ht Hu Hin. destruct (HM _ Hin) as (t' & u' & sid' & room & Ht' & Hu' & E).
  injection E as E ->. apply dcolon_unique in E as [<- _]; [|done..]. by apply key_tenant_room.
Qed.

Lemma rooms_reach_rep `{!DashOrder, !DashOrderLaws} lims n p M :
  (∀ t, limits_typed (lims t)) → rooms_reach lims n p M → Z.of_nat n < u64_max →
  rooms_rep p M M ∧ (size M ≤ n)%nat ∧ keyed M ∧ limits_ok lims M.
Proof.
  intros Hlims Hreach. induction Hreach as
    [|n p M t u sid room res p' _ IH Ht Hu Hin Hj|n p M t u sid room _ IH Ht Hu Hin
     |n p M t u sid _ IH Ht Hu]; intros Hn.
  - split_and!; [apply rooms_rep_new|done|set_solver|apply limits_ok_empty].
  - destruct IH as (Hrep & Hsz & Hk & Hl); [lia|].
    pose proof (try_join_rep key_owner key_tenant same_tenant ref_key_same_tenant p M
      (session_key t u sid) (room_key t room) (lims t) Hrep Hin
      (same_tenant_session t u sid room Ht Hu) (Hlims t) ltac:(lia)) as Hspec.
    rewrite key_owner_session // key_tenant_room // Hj in Hspec.
    destruct res as [[]|e]; cbn [is_ok]; [|destruct Hspec as (_ & _ & ?); split_and!; try done; lia].
    destruct Hspec as [Hcan Hrep']. split_and!; [done| | |by apply limits_ok_join].
    + rewrite size_union; [|set_solver]. rewrite size_singleton. lia.
    + intros x [->%elem_of_singleton|Hx]%elem_of_union; [|by apply Hk]. exists t, u, sid, room. done.
  - destruct IH as (Hrep & Hsz & Hk & Hl); [lia|].
    assert (M ∖ {[(session_key t u sid, room_key t room)]} ⊆ M) as Hsub by set_solver.
    pose proof (subseteq_size _ _ Hsub). split_and!; [|lia|set_solver|by eapply limits_ok_mono].
    pose proof (leave_rep key_owner key_tenant same_tenant ref_key_same_tenant p M M _ _ Hrep Hin
                  ltac:(lia)) as Hrep'.
    by rewrite key_owner_session // key_tenant_room // in Hrep'.
  - destruct IH as (Hrep & Hsz & Hk & Hl); [lia|].
    assert (without M (session_key t u sid) ⊆ M) as Hsub by (rewrite /without; set_solver).
    pose proof (subseteq_size _ _ Hsub). split_and!; [|lia|set_solver|by eapply limits_ok_mono].
    pose proof (cleanup_session_rep key_owner key_tenant same_tenant ref_key_same_tenant p M
      (session_key t u sid) t Hrep (λ r, keyed_tenant M t u sid r Hk Ht Hu) ltac:(lia)) as Hrep'.
    by rewrite key_owner_session // in Hrep'.
Qed.

(** ** Guarantees on rooms *)

(** C26: [try_join] implements "add one membership unless a limit forbids it".
    For a session that is not in the room, it succeeds exactly when the room
    has a free place or already holds the user, the user may join one more
    room or is already in this one, and the tenant may open one more room or
    this one is open; the six tables then describe the old memberships and the
    new one. Otherwise it reports resource exhaustion and the memberships are
    unchanged. *)
Theorem try_join_refines p M t u sid room lim :
  rooms_rep p M M → safe t = true → safe u = true →
  (session_key t u sid, room_key t room) ∉ M → limits_typed lim → Z.of_nat (size M) < u64_max →
  match try_join p t (room_key t room) (user_key t u) (session_key t u sid) lim with
  | (Ok _, p') =>
      can_join key_owner key_tenant lim M (session_key t u sid) (room_key t room)
      ∧ rooms_rep p' ({[(session_key t u sid, room_key t room)]} ∪ M)
                     ({[(session_key t u sid, room_key t room)]} ∪ M)
  | (Err e, p') =>
      ¬ can_join key_owner key_tenant lim M (session_key t u sid) (room_key t room)
      ∧ client_code e = ResourceExhausted ∧ rooms_rep p' M M
  end.
Proof.
  intros Hrep Ht Hu Hin Hlim Hsz.
  pose proof (try_join_rep key_owner key_tenant same_tenant ref_key_same_tenant p M
    (session_key t u sid) (room_key t room) lim Hrep Hin
    (same_tenant_session t u sid room Ht Hu) Hlim Hsz) as H.
  by rewrite key_owner_session // key_tenant_room // in H.
Qed.

Lemma try_join_refines_witness :
  rooms_rep (snd (try_join pr_new "t" "t::lobby" "t::u" "t::u::1" (mkTenantLimits 64 0 1 1 1)))
    ({[("t::u::1", "t::lobby")]} ∪ ∅) ({[("t::u::1", "t::lobby")]} ∪ ∅).
Proof.
  refine (proj2 (try_join_refines pr_new ∅ "t" "u" "1" "lobby" (mkTenantLimits 64 0 1 1 1)
            rooms_rep_new eq_refl eq_refl _ _ _)).
  - set_solver.
  - by repeat split.
  - done.
Defined.

(** The limits of memberships are limits of the tables that hold them. *)
Lemma limits_tables lims p M t u room :
  rooms_rep p M M → limits_ok lims M → Z.of_nat (size M) ≤ u64_max → safe t = true → safe u = true →
  (0 < max_users_per_room (lims t) →
   Z.of_nat (size (idx_get (room_to_users p) (room_key t room))) ≤ max_users_per_room (lims t))
  ∧ (0 < max_rooms_per_user (lims t) →
     Z.of_nat (size (idx_get (user_to_rooms p) (user_key t u))) ≤ max_rooms_per_user (lims t))
  ∧ (0 < max_rooms_total (lims t) →
     default 0 (tenant_room_counts p !! t) ≤ max_rooms_total (lims t))
  ∧ default 0 (tenant_room_counts p !! t)
    = Z.of_nat (size (filter (λ k, key_tenant k = t) (dom (room_to_sessions p)))).
Proof.
  intros Hrep Hl Hsz Ht Hu. destruct (Hl t u room Ht Hu) as (H1 & H2 & H3).
  rewrite (rep_users _ _ _ _ _ _ _ Hrep) (rep_rooms _ _ _ _ _ _ _ Hrep).
  pose proof (tenant_rooms_le key_tenant M t).
  rewrite (pr_counts _ _ _ _ _ _ Hrep) wrap64_small; [|rewrite /is_u64; lia].
  split_and!; try done. do 2 f_equal. apply set_eq => k.
  rewrite elem_of_filter elem_of_dom (idx_present _ _ _ (pr_rs _ _ _ _ _ _ Hrep)).
  by rewrite elem_of_tenant_rooms.
Qed.

(** The sessions of a room, for delivery. *)
Lemma elem_of_sessions_in `{!DashOrder, !DashOrderLaws} p r s :
  s ∈ sessions_in p r ↔ s ∈ idx_get (room_to_sessions p) r.
Proof.
  rewrite /sessions_in /idx_get. destruct (room_to_sessions p !! r); cbn; [|set_solver].
  by rewrite ds_iter_perm elem_of_elements.
Qed.

Lemma sessions_in_rep `{!DashOrder, !DashOrderLaws} p M K r s :
  rooms_rep p M K → s ∈ sessions_in p r ↔ (s, r) ∈ M.
Proof.
  intros Hp. by rewrite elem_of_sessions_in -(idx_elem _ _ (pr_rs _ _ _ _ _ _ Hp)).
Qed.

(** C27: cleanup is complete and exact. Cleaning up a session takes it out of
    every room and leaves every other membership, and all six tables, as if
    the session had never been there; cleaning up again changes nothing.  This holds of tables that were reached by operations one after the other, by joins of sessions not yet in the room,
    leaves of sessions that are, and cleanups, with ids that can be read back from keys ([rejoin_leaves_ghost] shows what a
    second join does). *)
Theorem cleanup_session_exact `{!DashOrder, !DashOrderLaws} lims n p M t u sid :
  (∀ t, limits_typed (lims t)) → rooms_reach lims n p M → Z.of_nat n < u64_max →
  safe t = true → safe u = true →
  let s := session_key t u sid in
  let p' := cleanup_session p t (user_key t u) s in
  rooms_rep p' (without M s) (without M s)
  ∧ (∀ s' r, s' ∈ sessions_in p' r ↔ s' ≠ s ∧ s' ∈ sessions_in p r)
  ∧ cleanup_session p' t (user_key t u) s = p'.
Proof.
  intros Hlims Hreach Hn Ht Hu s p'.
  destruct (rooms_reach_rep _ _ _ _ Hlims Hreach Hn) as (Hrep & _).
  destruct (rooms_reach_rep _ _ _ _ Hlims (rooms_cleanup _ _ _ _ t u sid Hreach Ht Hu) Hn)
    as (Hrep' & _). fold s p' in Hrep'.
  split_and!; [done| |].
  - intros s' r. rewrite (sessions_in_rep _ _ _ _ _ Hrep') (sessions_in_rep _ _ _ _ _ Hrep).
    by rewrite /without elem_of_filter.
  - rewrite {1}/cleanup_session. destruct (session_to_rooms p' !! s) as [rooms|] eqn:E; [|done].
    destruct (proj1 (idx_present _ _ s (pr_sr _ _ _ _ _ _ Hrep')) ltac:(by eexists)) as [r Hr].
    by apply elem_of_filter in Hr as [? _].
Qed.

Lemma cleanup_session_exact_witness :
  let p := snd (try_join pr_new "t" "t::lobby" "t::u" "t::u::1" (mkTenantLimits 64 0 1 1 1)) in
  rooms_rep (cleanup_session p "t" "t::u" "t::u::1")
    (without ({[("t::u::1", "t::lobby")]} ∪ ∅) "t::u::1")
    (without ({[("t::u::1", "t::lobby")]} ∪ ∅) "t::u::1").
Proof.
  intros p.
  refine (proj1 (cleanup_session_exact (λ _, mkTenantLimits 64 0 1 1 1) 1 p _ "t" "u" "1"
            _ (rooms_join _ 0 pr_new ∅ "t" "u" "1" "lobby" (Ok tt) p _ eq_refl eq_refl _ _)
            _ eq_refl eq_refl)).
  - intros _. by repeat split.
  - apply rooms_new.
  - set_solver.
  - by vm_compute.
  - done.
Defined.

(** ** Where the guarantees stop *)

(** Leaving one room does not touch the users of another. *)
Lemma leave_other_room p t r r' u s :
  r' ≠ r → idx_get (room_to_users (leave p t r' u s)) r = idx_get (room_to_users p) r.
Proof.
  intros Hne. rewrite /leave. cbn. destruct (match _ with Some _ => _ | None => _ end); [|done].
  rewrite idx_get_remove decide_False //.
Qed.

Lemma foldl_leave_other_room rs p t r u s :
  r ∉ rs →
  idx_get (room_to_users (foldl (λ p r', leave p t r' u s) p rs)) r = idx_get (room_to_users p) r.
Proof.
  revert p. induction rs as [|r' rs IH]; intros p Hr; [done|]. cbn.
  rewrite IH; [|set_solver]. apply leave_other_room. set_solver.
Qed.

(** A member passes every check of [try_join] again. *)
Lemma try_join_member p M K t s r lim :
  rooms_rep p M K → limits_typed lim → (s, r) ∈ M →
  try_join p t r (key_owner s) s lim = (Ok tt, perform_join p r (key_owner s) s).
Proof.
  intros Hrep (Hl1 & Hl2 & _) Hin. rewrite /try_join.
  destruct (at_limit _ (room_to_users p !! r) _) eqn:E1.
  { rewrite at_limit_spec in E1; [|exact (proj1 Hl1)]. destruct E1. do 2 right.
    apply (idx_elem _ _ (pr_ru _ _ _ _ _ _ Hrep)). eauto. }
  destruct (at_limit _ (user_to_rooms p !! _) _) eqn:E2.
  { rewrite at_limit_spec in E2; [|exact (proj1 Hl2)]. destruct E2. do 2 right.
    apply (idx_elem _ _ (pr_ur _ _ _ _ _ _ Hrep)). eauto. }
  rewrite (bool_decide_false (room_to_sessions p !! r = None)); [done|].
  intros E. by destruct (proj1 (idx_absent _ _ _ (pr_rs _ _ _ _ _ _ Hrep)) E s).
Qed.

(** A second join and one leave leave the governance tables as they were. *)
Lemma rejoin_leave_users p t r u s c :
  user_room_refs p !! ref_key u r = Some c → 1 ≤ c < u64_max →
  room_to_users (leave (perform_join p r u s) t r u s) = room_to_users p.
Proof.
  intros Hc Hr. rewrite /leave /perform_join /= Hc /= lookup_insert_eq /=.
  rewrite (wrap64_small (c + 1)); [|rewrite /is_u64; lia]. rewrite wrap64_small; [|rewrite /is_u64; lia].
  replace (c + 1 - 1 =? 0) with false by (symmetry; lia).
  by replace (c + 1 =? 1) with false by (symmetry; lia).
Qed.

(** After them, the session's own index no longer has the room. *)
Lemma rejoin_leave_rooms p t r u s :
  idx_get (session_to_rooms (leave (perform_join p r u s) t r u s)) s
  = idx_get (session_to_rooms p) s ∖ {[r]}.
Proof.
  rewrite /leave /perform_join. cbn [session_to_rooms].
  rewrite idx_get_remove decide_True // idx_get_insert decide_True //. set_solver.
Qed.

Lemma rejoin_leave_sessions `{!DashOrder, !DashOrderLaws} p t r u s s' :
  s' ∈ sessions_in (leave (perform_join p r u s) t r u s) r
  ↔ s' ≠ s ∧ s' ∈ idx_get (room_to_sessions p) r.
Proof.
  rewrite elem_of_sessions_in /leave /perform_join. cbn [room_to_sessions].
  rewrite idx_get_remove decide_True // idx_get_insert decide_True //. set_solver.
Qed.

(** Joining a room twice leaks the user. When the only session of a user
    in a room joins it again (nothing stops a client from sending a second
    [room:join]), leaving takes the session out of the room but leaves the
    user counted in it, and the cleanup at the end of the session does not
    help: the place stays taken although nobody is there. *)
Theorem rejoin_leaves_ghost `{!DashOrder, !DashOrderLaws} p M t u sid room lim :
  rooms_rep p M M → safe t = true → safe u = true → Z.of_nat (size M) < u64_max →
  limits_typed lim →
  let s := session_key t u sid in let rk := room_key t room in let uk := user_key t u in
  (s, rk) ∈ M → (∀ s', (s', rk) ∈ M → key_owner s' = uk → s' = s) →
  let '(res, p1) := try_join p t rk uk s lim in
  let p2 := leave p1 t rk uk s in
  let p3 := cleanup_session p2 t uk s in
  res = Ok tt
  ∧ (∀ s', s' ∈ sessions_in p2 rk → key_owner s' ≠ uk)
  ∧ uk ∈ idx_get (room_to_users p2) rk
  ∧ uk ∈ idx_get (room_to_users p3) rk.
Proof.
  intros Hrep Ht Hu Hsz Hlim s rk uk Hin Hone.
  assert (key_owner s = uk) as Ho by by apply key_owner_session.
  pose proof (try_join_member p M M t s rk lim Hrep Hlim Hin) as Hj. rewrite Ho in Hj. rewrite Hj.
  set (p2 := leave _ _ _ _ _).
  assert (room_to_users p2 = room_to_users p) as Hru.
  { pose proof (refs_le key_owner M uk rk). pose proof (refs_nonneg key_owner M uk rk).
    assert (refs key_owner M uk rk ≠ 0) as Hnz.
    { intros Hz. by destruct (proj1 (refs_zero key_owner key_tenant _ _ _) Hz s Hin). }
    eapply rejoin_leave_users; [|split; [|]].
    - rewrite (pr_refs _ _ _ _ _ _ Hrep uk rk) ?decide_False //. by exists t, u, room.
    - lia.
    - lia. }
  assert (uk ∈ idx_get (room_to_users p2) rk) as Hghost.
  { rewrite Hru. apply (idx_elem _ _ (pr_ru _ _ _ _ _ _ Hrep)). eauto. }
  split_and!; [done| |done|].
  - intros s' [Hne Hs']%rejoin_leave_sessions Ho'.
    apply (idx_elem _ _ (pr_rs _ _ _ _ _ _ Hrep)) in Hs'. by apply Hne, Hone.
  - rewrite /cleanup_session. destruct (session_to_rooms p2 !! s) as [rooms|] eqn:E; [|done].
    rewrite foldl_leave_other_room; [done|]. rewrite ds_iter_perm elem_of_elements.
    pose proof (rejoin_leave_rooms p t rk uk s) as Hr. rewrite /idx_get E /= in Hr. set_solver.
Qed.

Lemma rejoin_leaves_ghost_witness :
  let lim := mkTenantLimits 64 0 1 1 1 in
  let p := snd (try_join pr_new "t" "t::lobby" "t::u" "t::u::1" lim) in
  let '(res, p1) := try_join p "t" "t::lobby" "t::u" "t::u::1" lim in
  let p2 := leave p1 "t" "t::lobby" "t::u" "t::u::1" in
  let p3 := cleanup_session p2 "t" "t::u" "t::u::1" in
  res = Ok tt
  ∧ (∀ s', s' ∈ sessions_in p2 "t::lobby" → key_owner s' ≠ "t::u")
  ∧ "t::u" ∈ idx_get (room_to_users p2) "t::lobby"
  ∧ "t::u" ∈ idx_get (room_to_users p3) "t::lobby".
Proof.
  intros lim p.
  refine (rejoin_leaves_ghost p ({[("t::u::1", "t::lobby")]} ∪ ∅) "t" "u" "1" "lobby" lim
            _ eq_refl eq_refl _ _ _ _).
  - refine (proj1 (rooms_reach_rep (λ _, lim) 1 p _ _
      (rooms_join _ 0 pr_new ∅ "t" "u" "1" "lobby" (Ok tt) p _ eq_refl eq_refl _ _) _)).
    + intros _. by repeat split.
    + apply rooms_new.
    + set_solver.
    + by vm_compute.
    + done.
  - by vm_compute.
  - by repeat split.
  - set_solver.
  - set_solver.
Defined.

(** Leaving a room that the session is not in. [leave] decrements the
    reference count of the user before it knows whether the session was a
    member; when another session of the same user is the only one in the room,
    a [leave] of a session that is not in it (one that was kicked and whose
    presence was already cleaned up still has its active room) takes the user
    out of the room, which frees its place, while the other session stays
    there and keeps receiving. *)
Theorem leave_nonmember_unseats `{!DashOrder, !DashOrderLaws} p M t u sid sid' room :
  rooms_rep p M M → safe t = true → safe u = true →
  let s := session_key t u sid in let s' := session_key t u sid' in
  let rk := room_key t room in let uk := user_key t u in
  (s, rk) ∉ M → (s', rk) ∈ M → (∀ x, (x, rk) ∈ M → key_owner x = uk → x = s') →
  let p' := leave p t rk uk s in
  uk ∈ idx_get (room_to_users p) rk
  ∧ (uk ∉ idx_get (room_to_users p') rk)
  ∧ s' ∈ sessions_in p' rk.
Proof.
  intros Hrep Ht Hu s s' rk uk Hout Hin Hone p'.
  assert (key_owner s' = uk) as Ho by by apply key_owner_session.
  assert (refs key_owner M uk rk = 1) as Hrefs.
  { assert (filter (λ x, key_owner x.1 = uk ∧ x.2 = rk) M = {[(s', rk)]}) as Hf.
    { apply set_eq. intros [x r]. rewrite elem_of_filter elem_of_singleton. cbn. naive_solver. }
    by rewrite /refs Hf size_singleton. }
  assert (s' ≠ s) as Hne by by intros ->.
  pose proof (pr_refs _ _ _ _ _ _ Hrep uk rk ltac:(by exists t, u, room)) as Hr.
  rewrite Hrefs /= in Hr.
  split_and!.
  - apply (idx_elem _ _ (pr_ru _ _ _ _ _ _ Hrep)). eauto.
  - rewrite /p' /leave Hr /=. rewrite idx_get_remove decide_True //. set_solver.
  - apply elem_of_sessions_in.
    rewrite /p' /leave. cbn [room_to_sessions]. rewrite idx_get_remove decide_True //.
    apply elem_of_difference. split; [|set_solver].
    by apply (idx_elem _ _ (pr_rs _ _ _ _ _ _ Hrep)).
Qed.

Lemma leave_nonmember_unseats_witness :
  let p := snd (try_join pr_new "t" "t::lobby" "t::u" "t::u::2" (mkTenantLimits 64 0 1 1 1)) in
  let p' := leave p "t" "t::lobby" "t::u" "t::u::1" in
  "t::u" ∈ idx_get (room_to_users p) "t::lobby"
  ∧ ("t::u" ∉ idx_get (room_to_users p') "t::lobby")
  ∧ "t::u::2" ∈ sessions_in p' "t::lobby".
Proof.
  intros p.
  refine (leave_nonmember_unseats p ({[("t::u::2", "t::lobby")]} ∪ ∅) "t" "u" "1" "2" "lobby"
            _ eq_refl eq_refl _ _ _).
  - refine (proj1 (rooms_reach_rep (λ _, mkTenantLimits 64 0 1 1 1) 1 p _ _
      (rooms_join _ 0 pr_new ∅ "t" "u" "2" "lobby" (Ok tt) p _ eq_refl eq_refl _ _) _)).
    + intros _. by repeat split.
    + apply rooms_new.
    + set_solver.
    + by vm_compute.
    + done.
  - vm_compute. set_solver.
  - set_solver.
  - set_solver.
Defined.
