(* ===== verification/Isolation.v ===== *)
(** * Tenants do not see each other in the room tables
      ([wsprism-gateway/src/realtime/core/presence.rs])

    All tenants share the six tables of [Presence].  Here the threads of
    [Race.v] belong to tenants, as the keys that [RealtimeCtx] builds say
    ([Keys.v]): what a thread of a tenant reads, writes, waits for and
    returns depends on the entries and the threads of its own tenant, and on no other. *)

From S2P Require Import Prelude Errors RustStd Config Dash Threads Presence Race Keys.

(** ** What belongs to a tenant *)

(** A call of a tenant: its keys start with the tenant's id, which does not
    swallow the separator. *)
Record call_of (t : string) (c : Call) : Prop := {
  co_safe : safe t = true;
  co_tenant : c_tenant c = t;
  co_user : ∃ u, c_user c = user_key t u;
  co_room : key_tenant (c_room c) = t;
  co_session : key_tenant (c_session c) = t;
}.

(** A thread of a tenant, with the rooms it has still to leave. *)
Definition belongs (t : string) (th : Thread) : Prop :=
  call_of t (th_call th) ∧ Forall (λ r, key_tenant r = t) (th_rooms th).

(** A thread of another tenant. *)
Definition foreign (t : string) (th : Thread) : Prop := ∃ t', t' ≠ t ∧ belongs t' th.

(** The part of a table whose keys are of a tenant, and of all the tables. *)
Definition part {A} (f : string → string) (t : string) (m : gmap string A) : gmap string A :=
  filter (λ x, f x.1 = t) m.

Definition room_part (t : string) (p : Presence) : Presence :=
  mkPresence (part key_tenant t (room_to_sessions p)) (part key_tenant t (session_to_rooms p))
    (part key_tenant t (room_to_users p)) (part key_tenant t (user_to_rooms p))
    (part key_tenant t (user_room_refs p)) (part id t (tenant_room_counts p)).

(** The two ends of a membership belong to one tenant. *)
Definition alike_keys (m : index) : Prop :=
  ∀ k set x, m !! k = Some set → x ∈ set → key_tenant x = key_tenant k.

Definition homely (p : Presence) : Prop :=
  alike_keys (session_to_rooms p) ∧ alike_keys (room_to_sessions p).

(** Two lists of threads that have the same threads of [t], in the same
    places; elsewhere there are other threads of other tenants. *)
Definition agree (t : string) : list Thread → list Thread → Prop :=
  Forall2 (λ a b, (belongs t a ∧ a = b) ∨ (foreign t a ∧ foreign t b)).

(** ** Keys *)

Lemma key_tenant_prefix t x : safe t = true → key_tenant (t +:+ "::" +:+ x) = t.
Proof. intros Ht. by rewrite /key_tenant split_dcolon_safe. Qed.

Lemma call_ref t c : call_of t c → key_tenant (ref_key (c_user c) (c_room c)) = t.
Proof.
  intros [Hs _ [u ->] _ _]. rewrite /ref_key /user_key string_app_assoc. by apply key_tenant_prefix.
Qed.

Lemma call_user t c : call_of t c → key_tenant (c_user c) = t.
Proof. intros [Hs _ [u ->] _ _]. by apply key_tenant_prefix. Qed.

Create HintDb isolation.
#[export] Hint Resolve call_ref call_user co_room co_session co_tenant : isolation.

(** ** Parts of tables *)

Section part.
Context {A : Type} (f : string → string).
Implicit Types (m : gmap string A) (t k : string).

Lemma part_lookup t m k : f k = t → part f t m !! k = m !! k.
Proof using Type.
  intros Hk. rewrite /part map_lookup_filter. destruct (m !! k); [|done]. cbn. by rewrite option_guard_True.
Qed.

Lemma part_insert t m k x : f k = t → part f t (<[k := x]> m) = <[k := x]> (part f t m).
Proof using Type. intros Hk. by rewrite /part map_filter_insert_True. Qed.

Lemma part_insert_ne t m k x : f k ≠ t → part f t (<[k := x]> m) = part f t m.
Proof using Type. intros Hk. rewrite /part map_filter_insert_not' //. Qed.

Lemma part_delete t m k : part f t (delete k m) = delete k (part f t m).
Proof using Type. by rewrite /part map_filter_delete. Qed.

Lemma part_delete_ne t m k : f k ≠ t → part f t (delete k m) = part f t m.
Proof using Type. intros Hk. by rewrite /part map_filter_delete_not. Qed.

Lemma part_alter t g m k : part f t (alter g k m) = alter g k (part f t m).
Proof using Type.
  apply map_eq. intros j. rewrite /part map_lookup_filter.
  destruct (decide (j = k)) as [->|Hne].
  - rewrite !lookup_alter_eq map_lookup_filter. destruct (m !! k); [|done]. cbn.
    by destruct (decide (f k = t)); [rewrite !option_guard_True|rewrite !option_guard_False].
  - by rewrite !lookup_alter_ne // map_lookup_filter.
Qed.

Lemma part_alter_ne t g m k : f k ≠ t → part f t (alter g k m) = part f t m.
Proof using Type.
  intros Hk. rewrite part_alter. apply map_eq. intros j. destruct (decide (j = k)) as [->|Hne].
  - rewrite lookup_alter_eq. cut (part f t m !! k = None); [by intros ->|].
    apply map_lookup_filter_None. by right.
  - by rewrite lookup_alter_ne.
Qed.
End part.

Section parts.
Context (f : string → string).
Implicit Types (m : index) (t k x : string).

Lemma part_get t m k : f k = t → idx_get (part f t m) k = idx_get m k.
Proof using Type. intros Hk. by rewrite /idx_get part_lookup. Qed.

Lemma part_idx_insert t m k x : f k = t → part f t (idx_insert k x m) = idx_insert k x (part f t m).
Proof using Type. intros Hk. by rewrite /idx_insert part_insert // part_get. Qed.

Lemma part_idx_insert_ne t m k x : f k ≠ t → part f t (idx_insert k x m) = part f t m.
Proof using Type. intros Hk. by rewrite /idx_insert part_insert_ne. Qed.

Lemma part_is_empty t m k : f k = t → set_is_empty k (part f t m) = set_is_empty k m.
Proof using Type. intros Hk. by rewrite /set_is_empty part_lookup. Qed.
End parts.

(** Indices whose keys are alike, operation by operation. *)
Section alike.
Implicit Types (m : index) (k x : string).

Lemma alike_fewer m m' :
  alike_keys m → (∀ k, idx_get m' k ⊆ idx_get m k) → alike_keys m'.
Proof.
  intros Hm Hsub k set x Hk Hx. specialize (Hsub k). rewrite /idx_get Hk /= in Hsub.
  destruct (m !! k) as [set'|] eqn:E; [|set_solver]. apply (Hm k set' x E). set_solver.
Qed.

Lemma alike_delete k m : alike_keys m → alike_keys (delete k m).
Proof.
  intros Hm. apply (alike_fewer m); [done|]. intros j. rewrite /idx_get lookup_delete.
  case_decide; set_solver.
Qed.

Lemma alike_remove k x m : alike_keys m → alike_keys (set_remove k x m).
Proof.
  intros Hm. apply (alike_fewer m); [done|]. intros j. rewrite /idx_get /set_remove lookup_alter.
  case_decide as E; [|done]. subst. destruct (m !! _); cbn; set_solver.
Qed.

Lemma alike_idx_remove k x m : alike_keys m → alike_keys (idx_remove k x m).
Proof.
  intros Hm. apply (alike_fewer m); [done|]. intros j. rewrite idx_get_remove.
  case_decide; [subst|]; set_solver.
Qed.

Lemma alike_insert k x m : key_tenant x = key_tenant k → alike_keys m → alike_keys (idx_insert k x m).
Proof.
  intros Hx Hm j set y. rewrite /idx_insert lookup_insert. case_decide as E; [|by apply Hm].
  intros [= <-] [->%elem_of_singleton|Hy]%elem_of_union; [by rewrite -E|].
  rewrite /idx_get in Hy. destruct (m !! k) as [set'|] eqn:Es; [|set_solver]. rewrite -E. by eapply Hm.
Qed.
End alike.

(** ** A step *)

Section steps.
Context `{!DashOrder}.
Implicit Types (c : Call) (p : Presence).

(** Operations on a part are operations on the whole. *)
Ltac own :=
  rewrite ?part_lookup ?part_get ?part_is_empty; [|by eauto with isolation..];
  repeat case_match; rewrite /prod_map /room_part /set_room_sessions /set_session_rooms /set_room_users
    /set_user_rooms /set_refs /set_room_count /set_remove /=;
  rewrite ?part_idx_insert ?part_insert ?part_delete ?part_alter; [done|by eauto with isolation..].

(** A step of a thread of the tenant, on its part of the tables. *)
Lemma own_join t c pc p :
  call_of t c → join_step c pc (room_part t p) = prod_map id (room_part t) (join_step c pc p).
Proof using Type.
  intros Hc. destruct pc; cbn [join_step room_part room_to_sessions session_to_rooms room_to_users
    user_to_rooms user_room_refs tenant_room_counts]; own.
Qed.

Lemma own_leave t c pc p :
  call_of t c → leave_step c pc (room_part t p) = prod_map id (room_part t) (leave_step c pc p).
Proof using Type.
  intros Hc. destruct pc; cbn [leave_step room_part room_to_sessions session_to_rooms room_to_users
    user_to_rooms user_room_refs tenant_room_counts]; own.
Qed.

Lemma own_step t th p :
  belongs t th → micro (th, room_part t p) = prod_map id (room_part t) (micro (th, p)).
Proof using Type.
  destruct th as [c pc rooms]. intros [Hc _]. cbn [th_call] in Hc.
  assert (∀ x y, x = prod_map id (room_part t) y →
    (let '(pc, p) := x in (mkThread c pc rooms, p))
    = prod_map id (room_part t) (let '(pc, p) := y in (mkThread c pc rooms, p))) as Hpc.
  { by intros _ [pc' p'] ->. }
  destruct pc; cbn [micro]; try (apply Hpc; by first [apply own_join|apply own_leave]); try done.
  - by rewrite own_leave.
  - cbn [room_part session_to_rooms]. own.
Qed.

(** A step of a thread of another tenant. *)
Ltac away :=
  repeat case_match; rewrite /room_part /set_room_sessions /set_session_rooms /set_room_users
    /set_user_rooms /set_refs /set_room_count /set_remove /=;
  rewrite ?part_idx_insert_ne ?part_insert_ne ?part_delete_ne ?part_alter_ne;
  first [done|by match goal with
    H : call_of ?t _ |- ?x ≠ _ => replace x with t; [|symmetry; eauto with isolation] end].

Lemma away_join t t' c pc p : call_of t' c → t' ≠ t → room_part t (join_step c pc p).2 = room_part t p.
Proof using Type. intros Hc Hne. destruct pc; cbn [join_step]; away. Qed.

Lemma away_leave t t' c pc p : call_of t' c → t' ≠ t → room_part t (leave_step c pc p).2 = room_part t p.
Proof using Type. intros Hc Hne. destruct pc; cbn [leave_step]; away. Qed.

Lemma away_step t th p : foreign t th → room_part t (micro (th, p)).2 = room_part t p.
Proof using Type.
  destruct th as [c pc rooms]. intros (t' & Hne & Hc & _). cbn [th_call] in Hc.
  pose proof (away_join t t' c pc p Hc Hne) as Hj. pose proof (away_leave t t' c pc p Hc Hne) as Hl.
  destruct pc; cbn [micro]; try done;
    try (first [destruct (join_step _ _ _); exact Hj|destruct (leave_step _ _ _); exact Hl]).
  away.
Qed.

Lemma homely_join t c pc p : call_of t c → homely p → homely (join_step c pc p).2.
Proof using Type.
  intros Hc [Hs Hr]. destruct pc; cbn [join_step]; repeat case_match; try done;
    split; cbn; try done; apply alike_insert; try done; by rewrite (co_room _ _ Hc) (co_session _ _ Hc).
Qed.

Lemma homely_leave c pc p : homely p → homely (leave_step c pc p).2.
Proof using Type.
  intros [Hs Hr]. destruct pc; cbn [leave_step]; repeat case_match; try done;
    split; cbn; eauto using alike_remove, alike_delete.
Qed.

Lemma next_room_belongs t c rooms :
  call_of t c → Forall (λ r, key_tenant r = t) rooms → belongs t (next_room c rooms).
Proof using Type.
  intros Hc Hr. destruct rooms as [|r rooms]; [by split|]. apply Forall_cons in Hr as [Hr Hrs].
  destruct Hc. by split.
Qed.

(** Threads and tables stay as they belong. *)
Lemma belongs_step `{!DashOrderLaws} t th p :
  belongs t th → homely p → belongs t (micro (th, p)).1 ∧ homely (micro (th, p)).2.
Proof.
  destruct th as [c pc rooms]. intros [Hc Hr] Hp. cbn [th_call th_rooms] in *.
  pose proof (homely_join t c pc p Hc Hp) as Hj. pose proof (homely_leave c pc p Hp) as Hl.
  pose proof (next_room_belongs t c rooms Hc Hr).
  destruct pc; cbn [micro]; try done;
    try (first [destruct (join_step _ _ _); by split|destruct (leave_step _ _ _); by split]).
  destruct (session_to_rooms p !! c_session c) as [set|] eqn:E; last by split.
  destruct Hp as [Hs Hrs]. split; [|split; [by apply alike_delete|done]].
  apply next_room_belongs; [done|]. apply Forall_forall. intros r Hin.
  rewrite ds_iter_perm elem_of_elements in Hin. rewrite (Hs _ _ _ E Hin). by destruct Hc.
Qed.
End steps.

(** ** Calls in one go *)

Section calls.
Context `{!DashOrder, !DashOrderLaws}.
Implicit Types (p : Presence) (t u k room : string).

(** What a thread of another tenant leaves, when it runs alone. *)
Lemma gets_away t th th' p p' :
  gets (th, p) (th', p') → belongs t th → homely p →
  (∀ t', t ≠ t' → room_part t' p' = room_part t' p) ∧ homely p'.
Proof using Type*.
  intros [n E] Hth. revert th p E Hth. induction n as [|n IH]; intros th p E Hth Hp.
  { by injection E as -> ->. }
  cbn [steps] in E.
  assert (∀ t', t ≠ t' → room_part t' (micro (th, p)).2 = room_part t' p) as Hv
    by (intros t' Hne; apply away_step; by exists t).
  destruct (belongs_step t th p Hth Hp) as [Hb Hh]. destruct (micro (th, p)) as [th1 p1]. cbn [fst snd] in *.
  destruct (IH th1 p1 E Hb Hh) as [Hv' ?]. split; [|done]. intros t' Hne. by rewrite Hv' // Hv.
Qed.

(** The call of a session of [t]. *)
Definition call_by t room u k lim : Call := mkCall t (room_key t room) (user_key t u) k lim.

Lemma call_by_of t room u k lim : safe t = true → key_tenant k = t → call_of t (call_by t room u k lim).
Proof using Type. intros Ht Hk. split; cbn; [done|done|by exists u|by apply key_tenant_room|done]. Qed.

(** The calls of a tenant leave the rooms of the others as they are. *)
Lemma try_join_away t room u k lim p :
  safe t = true → key_tenant k = t → homely p →
  let p' := (try_join p t (room_key t room) (user_key t u) k lim).2 in
  (∀ t', t ≠ t' → room_part t' p' = room_part t' p) ∧ homely p'.
Proof using All.
  intros Ht Hk Hp. pose proof (join_gets (call_by t room u k lim) p) as Hg. cbn [c_tenant c_room c_user
    c_session c_limits call_by] in Hg. destruct (try_join _ _ _ _ _ _) as [res p'].
  eapply gets_away; [exact Hg| |done]. split; [by apply call_by_of|constructor].
Qed.

Lemma leave_away t room u k p :
  safe t = true → key_tenant k = t → homely p →
  let p' := leave p t (room_key t room) (user_key t u) k in
  (∀ t', t ≠ t' → room_part t' p' = room_part t' p) ∧ homely p'.
Proof using All.
  intros Ht Hk Hp. eapply gets_away; [apply (leave_gets (call_by t room u k TenantLimits_default) p [])| |done].
  split; [by apply call_by_of|constructor].
Qed.

Lemma cleanup_session_away t u k p :
  safe t = true → key_tenant k = t → homely p →
  let p' := cleanup_session p t (user_key t u) k in
  (∀ t', t ≠ t' → room_part t' p' = room_part t' p) ∧ homely p'.
Proof using All.
  intros Ht Hk Hp. destruct (cleanup_session_gets (call_by t "lobby" u k TenantLimits_default) p) as [c' Hg].
  eapply gets_away; [exact Hg| |done]. split; [by apply call_by_of|constructor].
Qed.
End calls.

(** ** Waiting *)

Definition entry_tenant (e : table * string) : string :=
  match e.1 with TCounts => e.2 | _ => key_tenant e.2 end.

Lemma holds_own t th e : belongs t th → holds th = Some e → entry_tenant e = t.
Proof.
  destruct th as [c pc rooms]. intros [Hc _]. rewrite /holds. cbn [th_call th_pc] in *.
  destruct pc; intros [= <-]; cbn; by eauto with isolation.
Qed.

Lemma needs_own t th e : belongs t th → needs th = Some e → entry_tenant e = t.
Proof.
  destruct th as [c pc rooms]. intros [Hc _]. rewrite /needs. cbn [th_call th_pc] in *.
  destruct pc; repeat case_match; intros [= <-]; cbn; by eauto with isolation.
Qed.

Lemma waits_agree t others others' th :
  belongs t th → agree t others others' → waits others th = waits others' th.
Proof.
  intros Hth Ha. rewrite /waits. destruct (needs th) as [e|] eqn:Hn; [|done].
  assert (∀ o, foreign t o → bool_decide (holds o = Some e) = false) as Hf.
  { intros o (t' & Hne & Ho). apply bool_decide_eq_false. intros Hh. apply Hne.
    by rewrite -(holds_own t' o e Ho Hh) (needs_own t th e Hth Hn). }
  induction Ha as [|a b others others' [[_ ->]|[Hx Hy]] _ IH]; cbn; [done|by rewrite IH|].
  by rewrite !Hf.
Qed.

(** ** Two runs *)

Section runs.
Context `{!DashOrder, !DashOrderLaws}.

(** What two runs have in common. *)
Record alike (t : string) (x y : list Thread * Presence) : Prop := {
  al_threads : agree t x.1 y.1;
  al_view : room_part t x.2 = room_part t y.2;
  al_home : homely x.2;
  al_home' : homely y.2;
}.

Lemma run_step_foreign t ths p i th :
  ths !! i = Some th → foreign t th → homely p →
  let '(ths', p') := run_step micro waits (ths, p) i in
  (∃ th', foreign t th' ∧ ths' = <[i := th']> ths) ∧ room_part t p' = room_part t p ∧ homely p'.
Proof using Type*.
  intros Hi (t' & Hne & Hth) Hp. rewrite /run_step Hi. destruct (waits _ _).
  { split_and!; [|done|done]. exists th. split; [by exists t'|]. by rewrite list_insert_id. }
  pose proof (away_step t th p ltac:(by exists t')) as Hv.
  destruct (belongs_step t' th p Hth Hp) as [Hb Hh]. destruct (micro (th, p)) as [th1 p1]; cbn in *.
  split_and!; [|done|done]. exists th1. split; [by exists t'|done].
Qed.

Lemma alike_step t x y i : alike t x y → alike t (run_step micro waits x i) (run_step micro waits y i).
Proof using Type*.
  destruct x as [ths p], y as [ths' p']. intros [Ha Hv Hp Hp']. cbn [fst snd] in *.
  destruct (ths !! i) as [a|] eqn:Hi; last first.
  { rewrite /run_step Hi. pose proof (Forall2_length _ _ _ Ha) as Hl.
    rewrite lookup_ge_None_2; [by split|]. rewrite -Hl. by apply lookup_ge_None. }
  destruct (Forall2_lookup_l _ _ _ _ _ Ha Hi) as (b & Hi' & [[Hb <-]|[Hfa Hfb]]).
  - rewrite /run_step Hi Hi' (waits_agree t (delete i ths) (delete i ths') a Hb); [|by apply Forall2_delete].
    destruct (waits _ _); [by split|].
    destruct (belongs_step t a p Hb Hp) as [Hb1 Hh1], (belongs_step t a p' Hb Hp') as [_ Hh2].
    pose proof (own_step t a p Hb) as E1. pose proof (own_step t a p' Hb) as E2. rewrite Hv E2 in E1.
    destruct (micro (a, p)) as [a1 p1], (micro (a, p')) as [a2 p2]. cbn [fst snd] in Hh1, Hh2, Hb1.
    apply pair_eq in E1 as [E Hview]. cbn in E. subst a2. split; cbn [fst snd]; [|exact (eq_sym Hview)|done|done].
    apply Forall2_insert; [done|]. by left.
  - pose proof (run_step_foreign t ths p i a Hi Hfa Hp) as H1.
    pose proof (run_step_foreign t ths' p' i b Hi' Hfb Hp') as H2.
    destruct (run_step _ _ (ths, p) i) as [ths1 p1], (run_step _ _ (ths', p') i) as [ths2 p2].
    destruct H1 as ((a1 & Ha1 & ->) & Hv1 & Hh1), H2 as ((b1 & Hb1 & ->) & Hv2 & Hh2).
    split; cbn; [|congruence|done|done]. apply Forall2_insert; [done|]. by right.
Qed.

Lemma alike_race t schedule x y : alike t x y → alike t (race x schedule) (race y schedule).
Proof using Type*.
  revert x y. induction schedule as [|i schedule IH]; intros x y Hxy; [done|]. cbn. by apply IH, alike_step.
Qed.
End runs.

(** C4: noninterference. Let two lists of concurrent joins, leaves and cleanups
    have the same calls of a tenant, in the same places, and otherwise any calls of other
    tenants, and start with tables that hold the same entries of the tenant. Under
    every schedule, at every moment, the calls of the tenant are at the same point with the same
    results, and the tables hold the same entries of the tenant: nothing that
    other tenants do in the room tables, and no limit that they reach, can be
    noticed.  All the ids of the calls, and those in the tables, must be such that keys
    read back ([belongs], [homely]): with a double colon in a tenant id, rooms of two tenants are one
    ([tenant_keys_collide]).  The schedule is the same on both sides, and threads wait for
    guards of the same entry only, so that waiting for a lock that entries of two tenants share is not a difference here. *)
Theorem tenant_noninterference `{!DashOrder, !DashOrderLaws} t ths ths' p p' schedule :
  agree t ths ths' → room_part t p = room_part t p' → homely p → homely p' →
  agree t (race (ths, p) schedule).1 (race (ths', p') schedule).1
  ∧ room_part t (race (ths, p) schedule).2 = room_part t (race (ths', p') schedule).2.
Proof.
  intros Ha Hv Hp Hp'. destruct (alike_race t schedule (ths, p) (ths', p')) as [H1 H2 _ _]; [by split|]. done.
Qed.

(** ** An instance *)

Module Neighbours.
Definition lims : TenantLimits := mkTenantLimits 4096 0 1 1 1.
Definition call (t u room : string) : Call :=
  mkCall t (room_key t room) (user_key t u) (session_key t u "s1") lims.

Definition enters (t u room : string) : Thread := mkThread (call t u room) J_users [].
Definition exits (t u room : string) : Thread := mkThread (call t u room) L_room [].

(** A user of [acme] joins a room while a neighbour fills one of the same name,
    or empties it. *)
Definition busy : list Thread := [enters "acme" "ann" "lobby"; enters "zeta" "zoe" "lobby"].
Definition idle : list Thread := [enters "acme" "ann" "lobby"; exits "zeta" "zoe" "lobby"].

(** The threads take turns. *)
Definition turns : list nat := mjoin (replicate 20 [1; 0]%nat).

Lemma call_belongs (t u room : string) : safe t = true → call_of t (call t u room).
Proof.
  intros Ht. split; cbn; [done|done|by exists u|by apply key_tenant_room|by apply key_tenant_session].
Qed.
End Neighbours.

(** The other tenant's room is at its limits; the join of [acme] is as if the
    room were not there. *)
Lemma tenant_noninterference_witness :
  agree "acme" (race (Neighbours.busy, pr_new) Neighbours.turns).1 (race (Neighbours.idle, pr_new) Neighbours.turns).1
  ∧ room_part "acme" (race (Neighbours.busy, pr_new) Neighbours.turns).2
    = room_part "acme" (race (Neighbours.idle, pr_new) Neighbours.turns).2
  ∧ th_pc <$> (race (Neighbours.busy, pr_new) Neighbours.turns).1 = [Returned (Ok tt); Returned (Ok tt)]
  ∧ size (room_to_users (race (Neighbours.busy, pr_new) Neighbours.turns).2) = 2%nat
  ∧ size (room_to_users (race (Neighbours.idle, pr_new) Neighbours.turns).2) = 1%nat.
Proof.
  destruct (tenant_noninterference "acme" Neighbours.busy Neighbours.idle pr_new pr_new Neighbours.turns)
    as [Ha Hv].
  - constructor; [left|constructor; [right|constructor]].
    + split; [|reflexivity]. split; [by apply Neighbours.call_belongs|constructor].
    + split; exists "zeta"; (split; [discriminate|]); (split; [by apply Neighbours.call_belongs|constructor]).
  - reflexivity.
  - by split; intros k set x Hk.
  - by split; intros k set x Hk.
  - exact (conj Ha (conj Hv (conj eq_refl (conj eq_refl eq_refl)))).
Defined.
