(* ===== verification/Channel.v ===== *)
(** * Messages and outbound channels

    A WebSocket message ([axum::extract::ws::Message]) and the bounded channel
    ([tokio::sync::mpsc]) that each connection is fed through.  Both crates
    are outside this repository: of the messages only the constructors the
    code matches on are used; the channels are the class [Mpsc], and what
    tokio's documentation promises of them is the class [MpscLaws].
    [send(m).await] completes exactly when [try_send] would not report a full
    channel, with the same effect. *)

From S2P Require Import Prelude.

#[export] Instance byte_eq_decision : EqDecision byte := Byte.byte_eq_dec.

(** [Message]; a [CloseFrame] is a code and a reason. *)
Inductive Message :=
| MText (s : string)
| MBinary (b : list byte)
| MPing (b : list byte)
| MPong (b : list byte)
| MClose (frame : option (Z * string)).

#[export] Instance Message_eq_dec : EqDecision Message.
Proof. solve_decision. Defined.

(** What [try_send] answers: [Ok(())], [Err(Full(_))], [Err(Closed(_))]. *)
Inductive SendRes := Sent | Full | Closed.

#[export] Instance SendRes_eq_dec : EqDecision SendRes.
Proof. solve_decision. Defined.

(** All the channels of the process; a channel is known by a number, and
    [ch_made] tells which numbers have been given out. *)
Class Mpsc := {
  chans : Type;
  ch_queue : chans → nat → list Message;
  ch_open : chans → nat → bool;
  ch_made : chans → nat → bool;
  ch_cap : chans → nat → nat;
  try_send : chans → nat → Message → SendRes * chans;
  mpsc_channel : chans → nat → nat * chans;
  recv : chans → nat → option (Message * chans);
  drop_rx : chans → nat → chans;
}.

(** Two stores agree on a channel. *)
Definition ch_same `{!Mpsc} (c c' : chans) (tx : nat) : Prop :=
  ch_queue c' tx = ch_queue c tx ∧ ch_open c' tx = ch_open c tx ∧ ch_cap c' tx = ch_cap c tx.

(** The room left decides the answer. *)
Definition ch_accepts `{!Mpsc} (c : chans) (tx : nat) : bool :=
  ch_open c tx && (length (ch_queue c tx) <? ch_cap c tx)%nat.

Class MpscLaws `{!Mpsc} : Prop := {
  try_send_closed c tx m : ch_open c tx = false → try_send c tx m = (Closed, c);
  try_send_full c tx m :
    ch_open c tx = true → (ch_cap c tx ≤ length (ch_queue c tx))%nat → try_send c tx m = (Full, c);
  try_send_sent c tx m :
    ch_open c tx = true → (length (ch_queue c tx) < ch_cap c tx)%nat →
    ∃ c', try_send c tx m = (Sent, c')
          ∧ (∀ tx', ch_queue c' tx' = ch_queue c tx' ++ (if decide (tx' = tx) then [m] else []))
          ∧ (∀ tx', ch_open c' tx' = ch_open c tx' ∧ ch_cap c' tx' = ch_cap c tx');
  mpsc_channel_new c n tx c' :
    mpsc_channel c n = (tx, c') →
    ch_open c tx = false ∧ ch_open c' tx = true ∧ ch_queue c' tx = [] ∧ ch_cap c' tx = n
    ∧ ∀ tx', tx' ≠ tx → ch_same c c' tx';
  recv_first c tx :
    match recv c tx with
    | Some (m, c') => ch_queue c tx = m :: ch_queue c' tx ∧ ch_open c' tx = ch_open c tx
                      ∧ ch_cap c' tx = ch_cap c tx ∧ ∀ tx', tx' ≠ tx → ch_same c c' tx'
    | None => ch_queue c tx = []
    end;
  drop_rx_closed c tx :
    ch_open (drop_rx c tx) tx = false ∧ ∀ tx', tx' ≠ tx → ch_same c (drop_rx c tx) tx';
  (** A channel that was made is another one than those made later. *)
  made_new c n tx c' : mpsc_channel c n = (tx, c') → ch_made c tx = false ∧ ch_made c' tx = true;
  made_channel c n tx : ch_made c tx = true → ch_made (mpsc_channel c n).2 tx = true;
  made_send c tx' m tx : ch_made c tx = true → ch_made (try_send c tx' m).2 tx = true;
  made_recv c tx' m c' tx : recv c tx' = Some (m, c') → ch_made c tx = true → ch_made c' tx = true;
  made_drop c tx' tx : ch_made c tx = true → ch_made (drop_rx c tx') tx = true;
}.

(** ** What a send does to the queues *)

Section channels.
Context `{!Mpsc, !MpscLaws}.
Implicit Types (c : chans) (tx : nat) (m : Message).

(** One step covers the three answers. *)
Lemma try_send_spec c tx m res c' :
  try_send c tx m = (res, c') →
  (res = Sent ↔ ch_accepts c tx = true)
  ∧ (res ≠ Sent → c' = c)
  ∧ (∀ tx', ch_queue c' tx'
       = ch_queue c tx' ++ (if decide (tx' = tx ∧ ch_accepts c tx = true) then [m] else []))
  ∧ (∀ tx', ch_open c' tx' = ch_open c tx' ∧ ch_cap c' tx' = ch_cap c tx').
Proof.
  intros Hs. rewrite /ch_accepts. destruct (ch_open c tx) eqn:Ho; cbn [andb].
  - destruct (Nat.ltb_spec (length (ch_queue c tx)) (ch_cap c tx)) as [Hlt|Hge].
    + destruct (try_send_sent c tx m Ho Hlt) as (c1 & E & Hq & Hoc). rewrite E in Hs.
      injection Hs as <- <-. split_and!; [done|done| |done].
      intros tx'. rewrite Hq. f_equal. apply decide_ext. naive_solver.
    + rewrite try_send_full // in Hs. injection Hs as <- <-. split_and!; [done|done| |done].
      intros tx'. rewrite decide_False; [by rewrite app_nil_r|naive_solver].
  - rewrite try_send_closed // in Hs. injection Hs as <- <-. split_and!; [done|done| |done].
    intros tx'. rewrite decide_False; [by rewrite app_nil_r|naive_solver].
Qed.

(** Sending elsewhere does not matter to a channel. *)
Lemma try_send_accepts_other c tx m res c' tx' :
  try_send c tx m = (res, c') → tx' ≠ tx → ch_accepts c' tx' = ch_accepts c tx'.
Proof.
  intros (_ & _ & Hq & Hoc)%try_send_spec Hne. rewrite /ch_accepts Hq decide_False; [|naive_solver].
  destruct (Hoc tx') as [-> ->]. by rewrite app_nil_r.
Qed.
End channels.

(** ** A concrete store of channels, for evaluation *)

Record mchan := mkMchan { mc_queue : list Message; mc_open : bool; mc_cap : nat }.

Definition mc_get (c : gmap nat mchan) (tx : nat) : mchan :=
  default (mkMchan [] false 0) (c !! tx).

Definition mc_room (ch : mchan) : bool := (length (mc_queue ch) <? mc_cap ch)%nat.
#[global] Arguments mc_room : simpl never.

#[export] Instance mpsc_map : Mpsc := {
  chans := gmap nat mchan;
  ch_queue c tx := mc_queue (mc_get c tx);
  ch_open c tx := mc_open (mc_get c tx);
  ch_made c tx := bool_decide (is_Some (c !! tx));
  ch_cap c tx := mc_cap (mc_get c tx);
  try_send c tx m :=
    let ch := mc_get c tx in
    if negb (mc_open ch) then (Closed, c)
    else if mc_room ch
         then (Sent, <[tx := mkMchan (mc_queue ch ++ [m]) (mc_open ch) (mc_cap ch)]> c)
         else (Full, c);
  mpsc_channel c n := let tx := fresh (dom c) in (tx, <[tx := mkMchan [] true n]> c);
  recv c tx :=
    let ch := mc_get c tx in
    match mc_queue ch with
    | m :: q => Some (m, <[tx := mkMchan q (mc_open ch) (mc_cap ch)]> c)
    | [] => None
    end;
  drop_rx c tx := let ch := mc_get c tx in <[tx := mkMchan (mc_queue ch) false (mc_cap ch)]> c;
}.

Lemma mc_get_insert (c : gmap nat mchan) tx tx' ch :
  mc_get (<[tx := ch]> c) tx' = if decide (tx = tx') then ch else mc_get c tx'.
Proof. rewrite /mc_get lookup_insert. by case_decide. Qed.

Lemma made_insert (c : gmap nat mchan) tx' ch tx :
  bool_decide (is_Some (c !! tx)) = true → bool_decide (is_Some (<[tx' := ch]> c !! tx)) = true.
Proof. rewrite !bool_decide_eq_true. intros Hm. apply lookup_insert_is_Some'. by right. Qed.

#[export] Instance mpsc_map_laws : MpscLaws.
Proof.
  split.
  - cbn. intros c tx m Ho. by rewrite Ho.
  - cbn. intros c tx m Ho Hl%Nat.ltb_ge. rewrite Ho /=.
    change (mc_room (mc_get c tx) = false) in Hl. by rewrite Hl.
  - cbn. intros c tx m Ho Hl%Nat.ltb_lt. rewrite Ho /=.
    change (mc_room (mc_get c tx) = true) in Hl. rewrite Hl.
    eexists. split; [done|]. split; intros tx'; rewrite mc_get_insert;
      destruct (decide (tx = tx')) as [->|Hne]; repeat case_decide; rewrite ?app_nil_r //=.
  - cbn. intros c n tx c' [= <- <-]. rewrite mc_get_insert decide_True //.
    split_and!; [|done..|].
    + pose proof (is_fresh (dom c)) as Hf%not_elem_of_dom. by rewrite /mc_get Hf.
    + intros tx' Hne. by rewrite /ch_same /= mc_get_insert decide_False.
  - cbn. intros c tx. destruct (mc_queue (mc_get c tx)) as [|m q] eqn:E; [done|].
    rewrite mc_get_insert decide_True //. split_and!; [done..|].
    intros tx' Hne. by rewrite /ch_same /= mc_get_insert decide_False.
  - cbn. intros c tx. rewrite mc_get_insert decide_True //. split; [done|].
    intros tx' Hne. by rewrite /ch_same /= mc_get_insert decide_False.
  - cbn. intros c n tx c' [= <- <-]. pose proof (is_fresh (dom c)) as Hf%not_elem_of_dom.
    rewrite Hf lookup_insert_eq. split; [by apply bool_decide_eq_false, is_Some_None|by apply bool_decide_eq_true].
  - cbn. intros c n tx Hm. by apply made_insert.
  - cbn. intros c tx' m tx Hm. destruct (negb _); [done|]. destruct (mc_room _); [by apply made_insert|done].
  - cbn. intros c tx' m c' tx E Hm. destruct (mc_queue _); [done|]. injection E as _ <-. by apply made_insert.
  - cbn. intros c tx' tx Hm. by apply made_insert.
Qed.
