(* ===== verification/Envelope.v ===== *)
(** * Ext Lane envelopes ([wsprism-core/src/protocol/text.rs]) and JSON

    JSON is read and written by the [serde_json] crate, outside this
    repository: it is the class [SerdeJson], with the entry points the
    gateway uses.  What its documentation promises of them is [SerdeJsonLaws]:
    a [Value] always serializes, and the string is the one [to_string] gives.
    The deserializers that the [#[derive(Deserialize)]] and [#[serde]]
    attributes of the two types define are written out over what the
    crate shows them of a document. *)

From S2P Require Import Prelude.

(** The canonical envelope of a text frame; [data] is kept raw. *)
Record Envelope (RawValue : Type) := mkEnvelope {
  env_v : Z;
  env_svc : string;
  env_msg_type : string;
  env_flags : Z;
  env_seq : option Z;
  env_room : option string;
  env_data : option RawValue;
}.

Arguments mkEnvelope {RawValue}.
Arguments env_v {RawValue} _.
Arguments env_svc {RawValue} _.
Arguments env_msg_type {RawValue} _.
Arguments env_flags {RawValue} _.
Arguments env_seq {RawValue} _.
Arguments env_room {RawValue} _.
Arguments env_data {RawValue} _.

(** ** What a document shows its reader

    [serde] reads a document field by field: the reader meets the values one
    after the other, each with its shape, and stops at the first error, be it
    of the syntax or its own. *)

(** The shape of a value: an integer that [i64] or [u64] can hold, another
    number, ..., or a syntax error in place of a value. *)
Inductive Json := JNull | JBool (b : bool) | JInt (z : Z) | JFloat | JStr (s : string) | JSeq | JMap | JBad (e : string).

(** A value, and its text taken as it is (or the syntax error in it). *)
Record Item (RawValue : Type) := mkItem { it_json : Json; it_raw : result string RawValue }.
Arguments mkItem {RawValue}.
Arguments it_json {RawValue} _.
Arguments it_raw {RawValue} _.

(** After the last value of an object or array: a syntax error, or its end
    and what may follow it in error. *)
Inductive Ending := Broken (e : string) | AtEnd (trailing : option string).

Inductive Document (RawValue : Type) :=
| DMap (entries : list (string * Item RawValue)) (e : Ending)
| DSeq (items : list (Item RawValue)) (e : Ending)
| DOther (j : Json).
Arguments DMap {RawValue}.
Arguments DSeq {RawValue}.
Arguments DOther {RawValue}.

(** The errors of a reader. *)
Inductive DeError :=
| MissingField (field : string)
| DuplicateField (field : string)
| UnknownField (field : string)
| InvalidType (found : Json)
| InvalidValue (z : Z)
| InvalidLength (n : nat)
| TrailingItems
| Syntax (e : string).

(** [serde_json]: values as the [json!] macro builds them, their text; how a
    text reads as a document, and the text of an error in it. *)
Class SerdeJson := {
  Value : Type;
  json_num : Z → Value;
  json_str : string → Value;
  json_obj : list (string * Value) → Value;
  value_display : Value → string;
  value_to_string : Value → result string string;
  RawValue : Type;
  raw_get : RawValue → string;
  json_document : string → Document RawValue;
  de_message : string → DeError → string;
}.

Class SerdeJsonLaws `{!SerdeJson} : Prop := {
  value_to_string_ok v : value_to_string v = Ok (value_display v);
}.

(** ** Readers of a field *)

Section readers.
Context {RawValue : Type}.
Implicit Types it : Item RawValue.

(** [u8], [u32] and [u64]. *)
Definition de_uint (max : Z) it : result DeError Z :=
  match it_json it with
  | JInt z => if (0 <=? z) && (z <=? max) then Ok z else Err (InvalidValue z)
  | JBad e => Err (Syntax e)
  | j => Err (InvalidType j)
  end.

Definition de_string it : result DeError string :=
  match it_json it with
  | JStr s => Ok s
  | JBad e => Err (Syntax e)
  | j => Err (InvalidType j)
  end.

(** [Box<RawValue>], and a value that is skipped. *)
Definition de_raw it : result DeError RawValue := map_err Syntax (it_raw it).

(** [Option<T>]: [null] is [None]. *)
Definition de_option {A} (de : Item RawValue → result DeError A) it : result DeError (option A) :=
  match it_json it with
  | JNull => Ok None
  | _ => let? a := de it in Ok (Some a)
  end.

(** A field that is met: it must be the first time. *)
Definition put {A} (name : string) (old : option A) (de : Item RawValue → result DeError A) it
    : result DeError (option A) :=
  match old with
  | Some _ => Err (DuplicateField name)
  | None => let? a := de it in Ok (Some a)
  end.

(** A field that was not met: an error, or the default. *)
Definition required {A} (name : string) (x : option A) : result DeError A :=
  match x with Some a => Ok a | None => Err (MissingField name) end.

(** The end of an object or array, after all is read. *)
Definition ends (e : Ending) : result DeError unit :=
  match e with
  | Broken m | AtEnd (Some m) => Err (Syntax m)
  | AtEnd None => Ok tt
  end.

(** The next element of an array. *)
Definition next {A} (de : Item RawValue → result DeError A) (e : Ending) (items : list (Item RawValue))
    : result DeError (option A * list (Item RawValue)) :=
  match items with
  | it :: items => let? a := de it in Ok (Some a, items)
  | [] => match e with Broken m => Err (Syntax m) | AtEnd _ => Ok (None, []) end
  end.

Definition element {A} (n : nat) (x : option A) : result DeError A :=
  match x with Some a => Ok a | None => Err (InvalidLength n) end.

(** After the elements that a struct has. *)
Definition seq_ends (e : Ending) (items : list (Item RawValue)) : result DeError unit :=
  match items with [] => ends e | _ => Err TrailingItems end.

(** Neither an object nor an array. *)
Definition not_struct {A} (j : Json) : result DeError A :=
  Err (match j with JBad e => Syntax e | j => InvalidType j end).
End readers.

(** ** The envelope *)

Section envelope.
Context {RawValue : Type}.
Implicit Types (it : Item RawValue) (es : list (string * Item RawValue)).

(** The fields met so far. *)
Record Slots := mkSlots {
  sl_v : option Z;
  sl_svc : option string;
  sl_type : option string;
  sl_flags : option Z;
  sl_seq : option (option Z);
  sl_room : option (option string);
  sl_data : option (option RawValue);
}.

Definition no_slots : Slots := mkSlots None None None None None None None.

Definition de_seq it := de_option (de_uint u64_max) it.
Definition de_room it := de_option de_string it.
Definition de_data it := de_option de_raw it.

(** A field of the object; other names are refused ([deny_unknown_fields]). *)
Definition visit_field (s : Slots) (x : string * Item RawValue) : result DeError Slots :=
  let '(mkSlots v svc ty flags seq room data) := s in
  let '(k, it) := x in
  if String.eqb k "v" then
    let? v := put k v (de_uint u8_max) it in Ok (mkSlots v svc ty flags seq room data)
  else if String.eqb k "svc" then
    let? svc := put k svc de_string it in Ok (mkSlots v svc ty flags seq room data)
  else if String.eqb k "type" then
    let? ty := put k ty de_string it in Ok (mkSlots v svc ty flags seq room data)
  else if String.eqb k "flags" then
    let? flags := put k flags (de_uint u32_max) it in Ok (mkSlots v svc ty flags seq room data)
  else if String.eqb k "seq" then
    let? seq := put k seq de_seq it in Ok (mkSlots v svc ty flags seq room data)
  else if String.eqb k "room" then
    let? room := put k room de_room it in Ok (mkSlots v svc ty flags seq room data)
  else if String.eqb k "data" then
    let? data := put k data de_data it in Ok (mkSlots v svc ty flags seq room data)
  else Err (UnknownField k).

Fixpoint visit_fields (s : Slots) es : result DeError Slots :=
  match es with
  | [] => Ok s
  | x :: es => let? s := visit_field s x in visit_fields s es
  end.

(** The envelope of the fields that were met. *)
Definition from_slots (s : Slots) : result DeError (Envelope RawValue) :=
  let? v := required "v" (sl_v s) in
  let? svc := required "svc" (sl_svc s) in
  let? ty := required "type" (sl_type s) in
  Ok (mkEnvelope v svc ty (default 0 (sl_flags s)) (default None (sl_seq s)) (default None (sl_room s))
        (default None (sl_data s))).

(** An object. *)
Definition envelope_map es (e : Ending) : result DeError (Envelope RawValue) :=
  let? s := visit_fields no_slots es in
  let? _ := match e with Broken m => Err (Syntax m) | AtEnd _ => Ok tt end in
  let? env := from_slots s in
  let? _ := ends e in
  Ok env.

(** An array: the fields in the order of their declaration. *)
Definition envelope_seq (items : list (Item RawValue)) (e : Ending) : result DeError (Envelope RawValue) :=
  let? (v, items) := next (de_uint u8_max) e items in
  let? v := element 0 v in
  let? (svc, items) := next de_string e items in
  let? svc := element 1 svc in
  let? (ty, items) := next de_string e items in
  let? ty := element 2 ty in
  let? (flags, items) := next (de_uint u32_max) e items in
  let? (seq, items) := next de_seq e items in
  let? (room, items) := next de_room e items in
  let? (data, items) := next de_data e items in
  let? _ := seq_ends e items in
  Ok (mkEnvelope v svc ty (default 0 flags) (default None seq) (default None room) (default None data)).

(** [Envelope::deserialize]. *)
Definition envelope_deserialize (d : Document RawValue) : result DeError (Envelope RawValue) :=
  match d with
  | DMap es e => envelope_map es e
  | DSeq items e => envelope_seq items e
  | DOther j => not_struct j
  end.

(** ** The request of [chat.send]: one field, others are skipped *)

Fixpoint send_req_fields (msg : option string) es : result DeError (option string) :=
  match es with
  | [] => Ok msg
  | (k, it) :: es =>
      if String.eqb k "msg" then let? msg := put k msg de_string it in send_req_fields msg es
      else let? _ := de_raw it in send_req_fields msg es
  end.

(** [SendReq::deserialize]. *)
Definition send_req_deserialize (d : Document RawValue) : result DeError string :=
  match d with
  | DMap es e =>
      let? msg := send_req_fields None es in
      let? _ := match e with Broken m => Err (Syntax m) | AtEnd _ => Ok tt end in
      let? msg := required "msg" msg in
      let? _ := ends e in
      Ok msg
  | DSeq items e =>
      let? (msg, items) := next de_string e items in
      let? msg := element 0 msg in
      let? _ := seq_ends e items in
      Ok msg
  | DOther j => not_struct j
  end.
End envelope.

Arguments Slots : clear implicits.

(** [serde_json::from_str], at the two types. *)
Definition parse_envelope `{!SerdeJson} (s : string) : result string (Envelope RawValue) :=
  map_err (de_message s) (envelope_deserialize (json_document s)).
Definition parse_send_req `{!SerdeJson} (s : string) : result string string :=
  map_err (de_message s) (send_req_deserialize (json_document s)).

Arguments parse_envelope : simpl never.
Arguments parse_send_req : simpl never.


(** ** A small concrete instance, for evaluation *)

Module MiniJson.
#[local] Set Warnings "-register-all".

Inductive J := Num (z : Z) | Str (s : string) | Obj (l : list (string * J)).

Definition quote (s : string) : string := String (ascii_of_nat 34) s +:+ String (ascii_of_nat 34) "".

Fixpoint show (j : J) : string :=
  match j with
  | Num z => pretty z
  | Str s => quote s
  | Obj l =>
      "{" +:+ (fix fields l := match l with
               | [] => ""
               | [(k, v)] => quote k +:+ ":" +:+ show v
               | (k, v) :: l' => quote k +:+ ":" +:+ show v +:+ "," +:+ fields l'
               end) l +:+ "}"
  end.

(** Words separated by spaces: [svc type], [svc type room] or
    [svc type room data]. *)
Definition words (s : string) : list string :=
  foldr (λ a ws,
           if bool_decide (a = " "%char) then "" :: ws
           else match ws with [] => [String a ""] | w :: ws => String a w :: ws end)
        [""] (String.list_ascii_of_string s).

Definition str (s : string) : Item string := mkItem (JStr s) (Ok s).
Definition num (z : Z) : Item string := mkItem (JInt z) (Ok (pretty z)).

(** One word is a request of [chat.send], more are an envelope. *)
Definition document (s : string) : Document string :=
  match words s with
  | [""] => DMap [] (AtEnd None)
  | [msg] => DMap [("msg", str msg)] (AtEnd None)
  | svc :: ty :: ws =>
      DMap ([("v", num 1); ("svc", str svc); ("type", str ty)]
            ++ zip_with (λ k w, (k, str w)) ["room"; "data"; "more"] ws) (AtEnd None)
  | _ => DOther (JBad "expected value")
  end.

Definition message (e : DeError) : string :=
  match e with
  | MissingField f => "missing field `" +:+ f +:+ "`"
  | DuplicateField f => "duplicate field `" +:+ f +:+ "`"
  | UnknownField f => "unknown field `" +:+ f +:+ "`"
  | Syntax e => e
  | _ => "invalid value"
  end.

#[export] Instance json : SerdeJson := {
  Value := J;
  json_num := Num;
  json_str := Str;
  json_obj := Obj;
  value_display := show;
  value_to_string v := Ok (show v);
  RawValue := string;
  raw_get s := s;
  json_document := document;
  de_message _ := message;
}.

#[export] Instance json_laws : SerdeJsonLaws.
Proof. by split. Qed.
End MiniJson.

(** ** What an envelope is *)

Section meaning.
Context {RawValue : Type}.
Implicit Types (it : Item RawValue) (es : list (string * Item RawValue)).

(** The first value under a name. *)
Fixpoint field es (k : string) : option (Item RawValue) :=
  match es with
  | [] => None
  | (k', it) :: es => if bool_decide (k' = k) then Some it else field es k
  end.

(** The field [k] holds [a], or is absent and [a] is its default. *)
Definition field_holds {A} es (k : string) (de : Item RawValue → result DeError A) (dflt : option A) (a : A) : Prop :=
  match field es k with
  | Some it => de it = Ok a
  | None => dflt = Some a
  end.

Definition known : list string := ["v"; "svc"; "type"; "flags"; "seq"; "room"; "data"].

(** The object is the envelope. *)
Record denotes es (env : Envelope RawValue) : Prop := {
  dn_distinct : NoDup es.*1;
  dn_known : es.*1 ⊆ known;
  dn_v : field_holds es "v" (de_uint u8_max) None (env_v env);
  dn_svc : field_holds es "svc" de_string None (env_svc env);
  dn_type : field_holds es "type" de_string None (env_msg_type env);
  dn_flags : field_holds es "flags" (de_uint u32_max) (Some 0) (env_flags env);
  dn_seq : field_holds es "seq" de_seq (Some None) (env_seq env);
  dn_room : field_holds es "room" de_room (Some None) (env_room env);
  dn_data : field_holds es "data" de_data (Some None) (env_data env);
}.

(** A slot before and after some fields are visited. *)
Definition slot_after {A} (k : string) (de : Item RawValue → result DeError A) (old : option A) es
    (new : option A) : Prop :=
  match field es k with
  | None => new = old
  | Some it => old = None ∧ ∃ a, de it = Ok a ∧ new = Some a
  end.

Definition slots_after (s : Slots RawValue) es (s' : Slots RawValue) : Prop :=
  slot_after "v" (de_uint u8_max) (sl_v s) es (sl_v s')
  ∧ slot_after "svc" de_string (sl_svc s) es (sl_svc s')
  ∧ slot_after "type" de_string (sl_type s) es (sl_type s')
  ∧ slot_after "flags" (de_uint u32_max) (sl_flags s) es (sl_flags s')
  ∧ slot_after "seq" de_seq (sl_seq s) es (sl_seq s')
  ∧ slot_after "room" de_room (sl_room s) es (sl_room s')
  ∧ slot_after "data" de_data (sl_data s) es (sl_data s').

Lemma slot_after_put {A} k de (old : option A) it new :
  slot_after k de old [(k, it)] new ↔ put k old de it = Ok new.
Proof.
  rewrite /slot_after /put /= bool_decide_true //. destruct old; [naive_solver|].
  destruct (de it); cbn; naive_solver.
Qed.

Lemma slot_after_other {A} k k' de (old : option A) it new :
  k' ≠ k → slot_after k de old [(k', it)] new ↔ new = old.
Proof. intros Hne. by rewrite /slot_after /= bool_decide_false. Qed.

Ltac known_field :=
  rewrite slot_after_put !slot_after_other; [|done..];
  match goal with |- context [put ?k ?o ?d ?i] => destruct (put k o d i); [|cbn; naive_solver] end; cbn;
  (split; [intros [=]; subst; split_and!; [by refine (bool_decide_unpack _ _)|done..]|naive_solver]).

Lemma visit_field_spec s k it s' :
  visit_field s (k, it) = Ok s' ↔ k ∈ known ∧ slots_after s [(k, it)] s'.
Proof.
  rewrite /slots_after. destruct s as [v svc ty flags seq room data], s' as [v' svc' ty' flags' seq' room' data'].
  cbn [sl_v sl_svc sl_type sl_flags sl_seq sl_room sl_data]. rewrite /visit_field.
  repeat match goal with
    |- context [String.eqb k ?n] => destruct (String.eqb_spec k n); [subst k; known_field|]
  end.
  split; [done|]. rewrite /known. set_solver.
Qed.

Lemma field_None es k : field es k = None ↔ k ∉ es.*1.
Proof.
  induction es as [|[k' it] es IH]; cbn; [set_solver|]. case_bool_decide; set_solver.
Qed.

Lemma slot_after_cons {A} k de (old : option A) k' it es new :
  k' ∉ es.*1 →
  slot_after k de old ((k', it) :: es) new
  ↔ ∃ mid, slot_after k de old [(k', it)] mid ∧ slot_after k de mid es new.
Proof.
  intros Hk. rewrite /slot_after /=. case_bool_decide as E; [|naive_solver].
  subst k'. apply field_None in Hk. rewrite Hk. naive_solver.
Qed.

Lemma slots_after_cons s k it es s' :
  k ∉ es.*1 →
  slots_after s ((k, it) :: es) s' ↔ ∃ s1, slots_after s [(k, it)] s1 ∧ slots_after s1 es s'.
Proof.
  intros Hk. rewrite /slots_after. split.
  - intros (Hv & Hsvc & Hty & Hfl & Hseq & Hroom & Hdata).
    apply slot_after_cons in Hv as (v & ? & ?), Hsvc as (svc & ? & ?), Hty as (ty & ? & ?), Hfl as (fl & ? & ?),
      Hseq as (seq & ? & ?), Hroom as (room & ? & ?), Hdata as (data & ? & ?); [|done..].
    by exists (mkSlots v svc ty fl seq room data).
  - intros (s1 & (? & ? & ? & ? & ? & ? & ?) & (? & ? & ? & ? & ? & ? & ?)).
    split_and!; apply slot_after_cons; eauto.
Qed.

(** A field that was met fills its slot, which is not filled again. *)
Lemma slot_after_twice {A} k de (old mid : option A) it es new :
  slot_after k de old [(k, it)] mid → slot_after k de mid es new → k ∉ es.*1.
Proof.
  rewrite /slot_after /= bool_decide_true //. intros (_ & a & _ & ->).
  destruct (field es k) eqn:E; [naive_solver|]. by rewrite -field_None.
Qed.

Lemma slots_after_twice s k it s1 es s' :
  k ∈ known → slots_after s [(k, it)] s1 → slots_after s1 es s' → k ∉ es.*1.
Proof.
  intros Hk (? & ? & ? & ? & ? & ? & ?) (? & ? & ? & ? & ? & ? & ?).
  repeat (apply elem_of_cons in Hk as [->|Hk]; [by eapply slot_after_twice|]). by apply elem_of_nil in Hk.
Qed.

Lemma visit_fields_spec es s s' :
  visit_fields s es = Ok s' ↔ NoDup es.*1 ∧ es.*1 ⊆ known ∧ slots_after s es s'.
Proof.
  revert s. induction es as [|[k it] es IH]; intros s; cbn [visit_fields].
  { rewrite /slots_after /slot_after /=. destruct s, s'. cbn. split; [|naive_solver].
    intros [=]; subst. split_and!; [constructor|set_solver|done..]. }
  rewrite fmap_cons NoDup_cons. cbn [fst]. split.
  - destruct (visit_field s (k, it)) as [s1|] eqn:E; [|done]. cbn. intros (Hnd & Hkn & Hs)%IH.
    apply visit_field_spec in E as [Hk Hs1]. pose proof (slots_after_twice _ _ _ _ _ _ Hk Hs1 Hs) as Hnew.
    split_and!; [done|done|set_solver|]. apply slots_after_cons; eauto.
  - intros ([Hnew Hnd] & Hkn & (s1 & Hs1 & Hs)%slots_after_cons); [|done].
    rewrite (proj2 (visit_field_spec s k it s1)); [|split; [set_solver|done]]. cbn. apply IH. split_and!; [done|set_solver|done].
Qed.

Lemma field_holds_required {A} es k de (a : A) :
  field_holds es k de None a ↔ slot_after k de None es (Some a).
Proof. rewrite /field_holds /slot_after. destruct (field es k); naive_solver. Qed.

Lemma field_holds_default {A} es k de (d a : A) :
  field_holds es k de (Some d) a ↔ ∃ x, slot_after k de None es x ∧ default d x = a.
Proof. rewrite /field_holds /slot_after. destruct (field es k); naive_solver. Qed.

Lemma from_slots_spec (s : Slots RawValue) env :
  from_slots s = Ok env
  ↔ sl_v s = Some (env_v env) ∧ sl_svc s = Some (env_svc env) ∧ sl_type s = Some (env_msg_type env)
    ∧ default 0 (sl_flags s) = env_flags env ∧ default None (sl_seq s) = env_seq env
    ∧ default None (sl_room s) = env_room env ∧ default None (sl_data s) = env_data env.
Proof.
  destruct s as [[v|] [svc|] [ty|] fl seq room data], env; rewrite /from_slots; cbn; naive_solver.
Qed.

Lemma envelope_map_spec es e env :
  envelope_map es e = Ok env ↔ e = AtEnd None ∧ denotes es env.
Proof.
  rewrite /envelope_map. split.
  - destruct (visit_fields no_slots es) as [s|] eqn:E; [|done]. cbn.
    destruct e as [m|[m|]]; cbn; [done|by destruct (from_slots s)|].
    destruct (from_slots s) as [env'|] eqn:Ef; [|done]. intros [= <-]. split; [done|].
    apply visit_fields_spec in E as (? & ? & (Sv & Ss & St & ? & ? & ? & ?)).
    apply from_slots_spec in Ef as (Hv & Hs & Ht & Hf & Hq & Hr & Hd).
    rewrite Hv in Sv. rewrite Hs in Ss. rewrite Ht in St.
    split; [done..| | | | | | |]; first [by apply field_holds_required|apply field_holds_default; eauto].
  - intros [-> [? ? Hv%field_holds_required Hs%field_holds_required Ht%field_holds_required
      (fl & ? & ?)%field_holds_default (sq & ? & ?)%field_holds_default (rm & ? & ?)%field_holds_default
      (dt & ? & ?)%field_holds_default]].
    rewrite (proj2 (visit_fields_spec es no_slots (mkSlots (Some (env_v env)) (Some (env_svc env))
      (Some (env_msg_type env)) fl sq rm dt))); [|done].
    destruct env. cbn in *. by subst.
Qed.

(** An array is the object of its elements under the names in order. *)
Lemma envelope_seq_map (items : list (Item RawValue)) :
  (3 ≤ length items ≤ 7)%nat →
  envelope_seq items (AtEnd None) = envelope_map (zip known items) (AtEnd None).
Proof.
  intros Hlen. rewrite /envelope_map /envelope_seq.
  destruct items as [|i1 [|i2 [|i3 items]]]; cbn in Hlen; try lia. cbn.
  destruct (de_uint u8_max i1); cbn; [|done]. destruct (de_string i2); cbn; [|done].
  destruct (de_string i3); cbn; [|done].
  destruct items as [|i4 items]; cbn; [done|]. destruct (de_uint u32_max i4); cbn; [|done].
  destruct items as [|i5 items]; cbn; [done|]. destruct (de_seq i5); cbn; [|done].
  destruct items as [|i6 items]; cbn; [done|]. destruct (de_room i6); cbn; [|done].
  destruct items as [|i7 items]; cbn; [done|]. destruct (de_data i7); cbn; [|done].
  destruct items; cbn in *; [done|lia].
Qed.

Lemma next_Ok {A} de e (items items' : list (Item RawValue)) (x : option A) :
  next de e items = Ok (x, items') →
  (is_Some x ∧ length items = S (length items')) ∨ (x = None ∧ items = [] ∧ items' = []).
Proof.
  destruct items as [|it items]; cbn; [destruct e; naive_solver|]. destruct (de it); cbn; naive_solver.
Qed.

Lemma envelope_seq_length items e (env : Envelope RawValue) :
  envelope_seq items e = Ok env → e = AtEnd None ∧ (3 ≤ length items ≤ 7)%nat.
Proof.
  rewrite /envelope_seq. intros E.
  repeat (match type of E with
    | context [next ?d ?e ?l] =>
        destruct (next d e l) as [[? ?]|] eqn:?; cbn in E; [|done]
    | context [element ?n ?x] => destruct x; cbn in E; [|done]
    | context [seq_ends ?e ?l] => destruct (seq_ends e l) eqn:Hend; cbn in E; [|done]
    end).
  repeat match goal with Hn : next _ _ _ = Ok _ |- _ => apply next_Ok in Hn end.
  match type of Hend with seq_ends _ ?l = _ => destruct l; [|done] end. destruct e as [|[]]; try done. split; [done|].
  naive_solver lia.
Qed.

Lemma envelope_seq_spec (items : list (Item RawValue)) e env :
  envelope_seq items e = Ok env
  ↔ e = AtEnd None ∧ (3 ≤ length items ≤ 7)%nat ∧ denotes (zip known items) env.
Proof.
  split.
  - intros E. assert (e = AtEnd None ∧ (3 ≤ length items ≤ 7)%nat) as [-> Hlen].
    { by apply envelope_seq_length in E. }
    split_and!; [done|lia|lia|]. rewrite envelope_seq_map // in E. by apply envelope_map_spec in E as [_ ?].
  - intros (-> & Hlen & Hd). rewrite envelope_seq_map //. by apply envelope_map_spec.
Qed.
End meaning.

(** C34: an envelope is what its attributes say.  A JSON object is accepted
    exactly if nothing follows it, no name occurs twice, every name is one of
    the seven (unknown fields are refused), [v] is a [u8], [svc] and [type] are
    strings, and [flags], [seq], [room] and [data], where present, are
    a [u32], a [u64], a string and any value, the last three or [null]; and the
    envelope then holds these values, whatever their order, with 0 and [None] for
    what is absent.  An array is read the same way by position, and nothing else is an envelope. *)
Theorem envelope_deserialize_spec {RawValue : Type} (d : Document RawValue) (env : Envelope RawValue) :
  envelope_deserialize d = Ok env
  ↔ match d with
    | DMap es e => e = AtEnd None ∧ denotes es env
    | DSeq items e =>
        e = AtEnd None ∧ (3 ≤ length items ≤ 7)%nat ∧ denotes (zip known items) env
    | DOther _ => False
    end.
Proof.
  destruct d as [es e|items e|j]; cbn [envelope_deserialize].
  - apply envelope_map_spec.
  - apply envelope_seq_spec.
  - by destruct j.
Qed.
