(* ===== verification/Realtime.v ===== *)
(** * Egress: delivery to sessions, users and rooms
    ([realtime/types.rs], [realtime/core/realtime.rs])

    [World] is what the egress engine works on: the registry and the presence
    tables of [RealtimeCore], the outbound channels of the connections, and
    the two process-wide counters.  The lossy operations are functions of it.
    [publish_room_reliable] awaits a set of concurrent sends: its interleaving
    with timers and with the rest of the process is an explicit list of events,
    and its theorems hold for every such list. *)

From S2P Require Import Prelude Errors RustStd HotFrame Config Dash.
From S2P Require Import SessionRegistry Presence Keys Channel Envelope.

(** ** Outgoing messages *)

Inductive QoS :=
| Lossy
| Reliable (timeout_ms : Z).

(** [impl Default for QoS]. *)
Definition QoS_default : QoS := Lossy.

Section egress.
Context {Bytes : Type} `{!BytesOps Bytes, !SerdeJson}.

Inductive Payload :=
| TextJson (v : Value)
| Utf8Bytes (b : Bytes)
| Binary (b : Bytes).

Record Outgoing := mkOutgoing { out_qos : QoS; out_payload : Payload }.

Inductive PreparedMsg :=
| PText (s : string)
| PBinary (b : Bytes).

(** [PreparedMsg::prepare]. *)
Definition prepare (out : Outgoing) : Result PreparedMsg :=
  match out_payload out with
  | TextJson v =>
      let? s := map_err (λ e, EBadRequest ("json encode failed: " +:+ e)) (value_to_string v) in
      Ok (PText s)
  | Utf8Bytes b =>
      let? s := map_err (λ e, EBadRequest ("utf8 invalid: " +:+ utf8_error_to_string e))
                  (from_utf8 (view b)) in
      Ok (PText s)
  | Binary b => Ok (PBinary b)
  end.

(** [PreparedMsg::to_ws_message]. *)
Definition to_ws_message (p : PreparedMsg) : Message :=
  match p with
  | PText s => MText s
  | PBinary b => MBinary (view b)
  end.

(** ** The state of the egress engine *)

Context `{!DashOrder, !Mpsc}.

Record RealtimeCore := mkCore { sessions : SessionRegistry; presence : Presence }.

(** [RealtimeCore::new]. *)
Definition core_new : RealtimeCore := mkCore sr_new pr_new.

(** The core, the channels, [DROP_COUNT], [SEND_FAIL_COUNT], and the
    warnings logged. *)
Record World := mkWorld {
  w_core : RealtimeCore;
  w_chans : chans;
  w_drops : Z;
  w_fails : Z;
  w_warns : list string;
}.

Definition set_chans (w : World) (c : chans) : World :=
  mkWorld (w_core w) c (w_drops w) (w_fails w) (w_warns w).

Definition set_core (w : World) (r : SessionRegistry) (p : Presence) : World :=
  mkWorld (mkCore r p) (w_chans w) (w_drops w) (w_fails w) (w_warns w).

(** [egress_drop_count] and [egress_send_fail_count]. *)
Definition egress_drop_count (w : World) : Z := w_drops w.
Definition egress_send_fail_count (w : World) : Z := w_fails w.

(** [sample_every_1024]. *)
Definition sample_every_1024 (n : Z) : bool := Z.land n 1023 =? 1.

Definition warn_sampled (n : Z) (text : string) (log : list string) : list string :=
  if sample_every_1024 n then log ++ [text] else log.

(** [let n = DROP_COUNT.fetch_add(1, _); if sample_every_1024(n) { warn!(..) }]. *)
Definition count_drop (w : World) (text : string) : World :=
  mkWorld (w_core w) (w_chans w) (wrap64 (w_drops w + 1)) (w_fails w)
    (warn_sampled (w_drops w) text (w_warns w)).

(** The same for [SEND_FAIL_COUNT]. *)
Definition count_fail (w : World) (text : string) : World :=
  mkWorld (w_core w) (w_chans w) (w_drops w) (wrap64 (w_fails w + 1))
    (warn_sampled (w_fails w) text (w_warns w)).

(** [if conn.tx.try_send(msg).is_err() { ... }]. *)
Definition push (m : Message) (text : string) (w : World) (conn : Connection) : World :=
  match try_send (w_chans w) (conn_tx conn) m with
  | (Sent, c) => set_chans w c
  | (_, c) => count_drop (set_chans w c) text
  end.

(** [best_effort_shutdown_all]. *)
Definition best_effort_shutdown_all (w : World) (reason : string) : World :=
  foldl (λ w '(_, conn), push (MClose (Some (1001, reason))) "egress drop while draining" w conn)
    w (all_sessions (sessions (w_core w))).

(** [RealtimeCore::send_to_user]. *)
Definition core_send_to_user (w : World) (user_key : string) (out : Outgoing)
    : Result unit * World :=
  let conns := get_user_sessions (sessions (w_core w)) user_key in
  match conns with
  | [] => (err_bad_request "user not connected", w)
  | _ =>
      match prepare out with
      | Err e => (Err e, w)
      | Ok prepared => (Ok tt, foldl (push (to_ws_message prepared) "egress drop") w conns)
      end
  end.

(** [RealtimeCore::send_to_session]. *)
Definition core_send_to_session (w : World) (session_key : string) (out : Outgoing)
    : Result unit * World :=
  match get_session (sessions (w_core w)) session_key with
  | None => (err_bad_request "session not connected", w)
  | Some conn =>
      match prepare out with
      | Err e => (Err e, w)
      | Ok prepared => (Ok tt, push (to_ws_message prepared) "send_to_session dropped" w conn)
      end
  end.

(** [RealtimeCore::publish_room_lossy]. *)
Definition core_publish_room_lossy (w : World) (room_key : string) (out : Outgoing)
    : Result unit * World :=
  match prepare out with
  | Err e => (Err e, w)
  | Ok prepared =>
      (Ok tt,
       foldl (λ w sid, match get_session (sessions (w_core w)) sid with
                       | Some conn => push (to_ws_message prepared) "lossy drop" w conn
                       | None => w
                       end)
         w (sessions_in (presence (w_core w)) room_key))
  end.

(** ** Reliable publication: concurrent sends, timers, and other tasks *)

(** How the future of one recipient ended. *)
Inductive FutEnd := Delivered | SendError | TimedOut.

(** What the executor does next: poll one of the pending futures, let the
    timer of one of them elapse, or run another task, which may change the
    channels in any way. *)
Inductive FutEvent :=
| Poll (i : nat)
| Elapse (i : nat)
| Other (c : chans).

(** The world, the recipients whose future is pending, and how the others
    ended. *)
Record FutState := mkFutState {
  fs_world : World;
  fs_pending : list Connection;
  fs_ended : list (Connection * FutEnd);
}.

(** The body of the async block: [timeout(d, tx.send(msg)).await.is_err()]
    holds when the timer elapses, not when the channel is closed;
    [tx.send(msg).await.is_err()] holds when the channel is closed. *)
Definition fut_step (do_timeout : bool) (m : Message) (st : FutState) (ev : FutEvent) : FutState :=
  let finish i conn r w :=
    mkFutState w (delete i (fs_pending st)) (fs_ended st ++ [(conn, r)]) in
  match ev with
  | Poll i =>
      match fs_pending st !! i with
      | None => st
      | Some conn =>
          match try_send (w_chans (fs_world st)) (conn_tx conn) m with
          | (Sent, c) => finish i conn Delivered (set_chans (fs_world st) c)
          | (Full, _) => st
          | (Closed, _) =>
              finish i conn SendError
                (if do_timeout then fs_world st else count_fail (fs_world st) "reliable send failed")
          end
      end
  | Elapse i =>
      match fs_pending st !! i with
      | Some conn =>
          if do_timeout
          then finish i conn TimedOut (count_fail (fs_world st) "reliable send timeout")
          else st
      | None => st
      end
  | Other c => mkFutState (set_chans (fs_world st) c) (fs_pending st) (fs_ended st)
  end.

Definition timeout_of (q : QoS) : bool :=
  match q with Reliable timeout_ms => 0 <? timeout_ms | Lossy => false end.

(** The recipients: the connections of the sessions in the room, looked up
    before the first await. *)
Definition room_conns (core : RealtimeCore) (room_key : string) : list Connection :=
  omap (get_session (sessions core)) (sessions_in (presence core) room_key).

(** [RealtimeCore::publish_room_reliable], run along a list of events;
    [None]: it has not returned yet. *)
Definition core_publish_room_reliable (evs : list FutEvent) (w : World) (room_key : string)
    (out : Outgoing) : option (Result unit) * World :=
  match prepare out with
  | Err e => (Some (Err e), w)
  | Ok prepared =>
      let st := foldl (fut_step (timeout_of (out_qos out)) (to_ws_message prepared))
                  (mkFutState w (room_conns (w_core w) room_key) []) evs in
      (match fs_pending st with [] => Some (Ok tt) | _ => None end, fs_world st)
  end.

(** ** Per-message context *)

Record RealtimeCtx := mkCtx {
  ctx_tenant : string;
  ctx_user : string;
  ctx_user_key : string;
  ctx_session_id : string;
  ctx_session_key : string;
  ctx_trace_id : string;
  ctx_active_room : option string;
}.

(** [RealtimeCtx::new]; the core is the [World] its methods are given. *)
Definition ctx_new (tenant user session_id trace_id : string) (active_room : option string)
    : RealtimeCtx :=
  mkCtx tenant user (user_key tenant user) session_id (session_key tenant user session_id)
    trace_id active_room.

(** [join_room_with_limits]. *)
Definition join_room_with_limits (w : World) (ctx : RealtimeCtx) (room : string)
    (limits : TenantLimits) : Result unit * World :=
  let '(res, p) := try_join (presence (w_core w)) (ctx_tenant ctx) (room_key (ctx_tenant ctx) room)
                     (ctx_user_key ctx) (ctx_session_key ctx) limits in
  (res, set_core w (sessions (w_core w)) p).

(** [leave_room]. *)
Definition leave_room (w : World) (ctx : RealtimeCtx) (room : string) : World :=
  set_core w (sessions (w_core w))
    (leave (presence (w_core w)) (ctx_tenant ctx) (room_key (ctx_tenant ctx) room)
       (ctx_user_key ctx) (ctx_session_key ctx)).

Definition ctx_send_to_user (w : World) (ctx : RealtimeCtx) (out : Outgoing) :=
  core_send_to_user w (ctx_user_key ctx) out.
Definition ctx_send_to_session (w : World) (ctx : RealtimeCtx) (out : Outgoing) :=
  core_send_to_session w (ctx_session_key ctx) out.
Definition ctx_publish_room_lossy (w : World) (ctx : RealtimeCtx) (room : string)
    (out : Outgoing) :=
  core_publish_room_lossy w (room_key (ctx_tenant ctx) room) out.
Definition ctx_publish_room_reliable (evs : list FutEvent) (w : World) (ctx : RealtimeCtx)
    (room : string) (out : Outgoing) :=
  core_publish_room_reliable evs w (room_key (ctx_tenant ctx) room) out.
End egress.

Arguments Payload Bytes {_}.
Arguments Outgoing Bytes {_}.
Arguments PreparedMsg Bytes : clear implicits.

(** ** Lossy delivery *)

Section lossy.
Context `{!Mpsc, !MpscLaws}.
Implicit Types (w : World) (m : Message) (conns : list Connection).

(** The recipients whose channel takes no more. *)
Definition refused (c : chans) (conns : list Connection) : list Connection :=
  List.filter (λ conn, negb (ch_accepts c (conn_tx conn))) conns.

Lemma push_spec m text w conn w' :
  push m text w conn = w' →
  w_core w' = w_core w ∧ w_fails w' = w_fails w
  ∧ w_drops w' = (if ch_accepts (w_chans w) (conn_tx conn) then w_drops w else wrap64 (w_drops w + 1))
  ∧ (∀ tx, ch_queue (w_chans w') tx
       = ch_queue (w_chans w) tx
         ++ (if decide (tx = conn_tx conn ∧ ch_accepts (w_chans w) (conn_tx conn) = true)
             then [m] else []))
  ∧ (∀ tx, tx ≠ conn_tx conn → ch_accepts (w_chans w') tx = ch_accepts (w_chans w) tx).
Proof.
  intros <-. rewrite /push. destruct (try_send _ _ _) as [res c] eqn:E.
  pose proof (λ tx, try_send_accepts_other _ _ _ _ _ tx E) as Hother.
  apply try_send_spec in E as (Hs & _ & Hq & _).
  destruct res, (ch_accepts (w_chans w) (conn_tx conn)); cbn; naive_solver.
Qed.

(** One message to distinct channels: each one that has room gets it, at the
    end of its queue, and the others are counted as drops. *)
Lemma push_all_spec m text conns w :
  NoDup (conn_tx <$> conns) → is_u64 (w_drops w) →
  let w' := foldl (push m text) w conns in
  w_core w' = w_core w ∧ w_fails w' = w_fails w
  ∧ w_drops w' = wrap64 (w_drops w + Z.of_nat (length (refused (w_chans w) conns)))
  ∧ ∀ tx, ch_queue (w_chans w') tx
      = ch_queue (w_chans w) tx
        ++ (if decide (tx ∈ conn_tx <$> conns ∧ ch_accepts (w_chans w) tx = true)
            then [m] else []).
Proof.
  revert w. induction conns as [|conn conns IH]; intros w Hnd Hd.
  { cbn [foldl]. split_and!; [done|done|by rewrite Z.add_0_r wrap64_small|].
    intros tx. case_decide as Hin; [by destruct Hin as [?%not_elem_of_nil _]|].
    by rewrite app_nil_r. }
  cbn [foldl fmap list_fmap] in *. apply NoDup_cons in Hnd as [Hni Hnd].
  destruct (push_spec m text w conn _ eq_refl) as (Hc & Hf & Hdr & Hq & Hacc).
  set (w1 := push m text w conn) in *.
  assert (is_u64 (w_drops w1)) as Hd1 by (rewrite Hdr; destruct (ch_accepts _ _); eauto with wsprism).
  destruct (IH w1 Hnd Hd1) as (Hc' & Hf' & Hdr' & Hq').
  assert (refused (w_chans w1) conns = refused (w_chans w) conns) as Href.
  { apply filter_ext_in. intros x Hx%list_elem_of_In. rewrite Hacc; [done|].
    intros Hx'. apply Hni. rewrite -Hx'. by apply list_elem_of_fmap_2. }
  split_and!; [congruence|congruence| |].
  - rewrite Hdr' Href Hdr /refused. cbn [List.filter].
    destruct (ch_accepts (w_chans w) (conn_tx conn)); cbn [negb]; [done|].
    rewrite wrap64_add. f_equal. cbn [length]. lia.
  - intros tx. rewrite Hq' Hq -app_assoc. f_equal.
    destruct (decide (tx = conn_tx conn)) as [->|Hne].
    + repeat case_decide; set_solver.
    + rewrite Hacc //. repeat case_decide; set_solver.
Qed.
End lossy.

(** ** Memberships, sessions and channels *)

(** The tables hold the memberships [M] and the sessions [L]; every session
    has a channel of its own. *)
Record world_rep `{!Mpsc} (w : World) (M : members) (L : gmap string Session) : Prop := {
  wr_rooms : rooms_rep (presence (w_core w)) M M;
  wr_reg : reg_rep (sessions (w_core w)) L;
  wr_tx k k' s s' : L !! k = Some s → L !! k' = Some s' →
    conn_tx (s_conn s) = conn_tx (s_conn s') → k = k';
  wr_drops : is_u64 (w_drops w);
  wr_fails : is_u64 (w_fails w);
}.

(** A filtered image of distinct elements is distinct. *)
Lemma NoDup_fmap_omap {A B C} (f : A → option B) (g : B → C) l :
  NoDup l → (∀ x x' y y', f x = Some y → f x' = Some y' → g y = g y' → x = x') →
  NoDup (g <$> omap f l).
Proof.
  intros Hl Hinj. induction Hl as [|x l Hx _ IH]; [constructor|]. cbn.
  destruct (f x) as [y|] eqn:E; [|done]. rewrite fmap_cons. constructor; [|done].
  intros (y' & Heq & (x' & Hx' & E')%list_elem_of_omap)%list_elem_of_fmap.
  by rewrite (Hinj x x' y y') in Hx.
Qed.

Section worlds.
Context `{!DashOrder, !DashOrderLaws, !Mpsc, !MpscLaws}.
Context {Bytes : Type} `{!BytesOps Bytes, !SerdeJson}.
Context (w : World) (M : members) (L : gmap string Session) (Hw : world_rep w M L).

Lemma world_session k : get_session (sessions (w_core w)) k = s_conn <$> L !! k.
Proof.
  rewrite /get_session (rep_lookup _ _ (wr_reg _ _ _ Hw)). by destruct (L !! k).
Qed.

Lemma elem_of_room_conns r conn :
  conn ∈ room_conns (w_core w) r ↔ ∃ k s, (k, r) ∈ M ∧ L !! k = Some s ∧ s_conn s = conn.
Proof.
  rewrite /room_conns list_elem_of_omap. split.
  - intros (k & Hk & E). rewrite world_session in E. apply fmap_Some in E as (s & ? & ->).
    apply (sessions_in_rep _ _ _ _ _ (wr_rooms _ _ _ Hw)) in Hk. eauto.
  - intros (k & s & Hk & E & <-). exists k. rewrite world_session E. split; [|done].
    by apply (sessions_in_rep _ _ _ _ _ (wr_rooms _ _ _ Hw)).
Qed.

Lemma room_conns_NoDup r : NoDup (conn_tx <$> room_conns (w_core w) r).
Proof.
  apply NoDup_fmap_omap.
  - rewrite /sessions_in. destruct (_ !! r); [|constructor].
    rewrite ds_iter_perm. apply NoDup_elements.
  - intros k k' y y'. rewrite !world_session !fmap_Some.
    intros (s & ? & ->) (s' & ? & ->). by apply (wr_tx _ _ _ Hw).
Qed.

(** The loop of [publish_room_lossy] pushes to [room_conns]. *)
Lemma publish_lossy_loop m text sids w' :
  w_core w' = w_core w →
  foldl (λ w sid, match get_session (sessions (w_core w)) sid with
                  | Some conn => push m text w conn
                  | None => w
                  end) w' sids
  = foldl (push m text) w' (omap (get_session (sessions (w_core w))) sids).
Proof.
  revert w'. induction sids as [|sid sids IH]; intros w' Hc; [done|]. cbn. rewrite Hc.
  destruct (get_session _ sid) as [conn|]; [|by apply IH]. apply IH.
  by destruct (push_spec m text w' conn _ eq_refl) as [-> _].
Qed.

(** The queue of a session after a message to its room. *)
Lemma room_conns_session r k s :
  L !! k = Some s → conn_tx (s_conn s) ∈ conn_tx <$> room_conns (w_core w) r ↔ (k, r) ∈ M.
Proof.
  intros Hk. rewrite list_elem_of_fmap. setoid_rewrite elem_of_room_conns. split.
  - intros (_ & Htx & k' & s' & Hin & Hk' & <-). by assert (k = k') as -> by by apply (wr_tx _ _ _ Hw k k' s s').
  - intros Hin. exists (s_conn s). split; [done|]. by exists k, s.
Qed.
End worlds.

(** C28: delivery to a room, lossy. A message that can be prepared reaches
    exactly the sessions that are in the room and whose channel has room: it
    is appended to their queues, every other queue of the process is left
    alone, every recipient that is full or gone is counted as a drop, and
    neither registry nor rooms change. *)
Theorem publish_room_lossy_exact `{!DashOrder, !DashOrderLaws, !Mpsc, !MpscLaws} {Bytes : Type}
    `{!BytesOps Bytes, !SerdeJson} w M L rk (out : Outgoing Bytes) msg :
  world_rep w M L → prepare out = Ok msg →
  let '(res, w') := core_publish_room_lossy w rk out in
  res = Ok tt ∧ w_core w' = w_core w ∧ w_fails w' = w_fails w
  ∧ w_drops w' = wrap64 (w_drops w + Z.of_nat (length (refused (w_chans w) (room_conns (w_core w) rk))))
  ∧ (∀ k s, L !! k = Some s → let tx := conn_tx (s_conn s) in
       ch_queue (w_chans w') tx
       = ch_queue (w_chans w) tx
         ++ (if decide ((k, rk) ∈ M ∧ ch_accepts (w_chans w) tx = true)
             then [to_ws_message msg] else []))
  ∧ (∀ tx, (∀ k s, L !! k = Some s → (k, rk) ∈ M → conn_tx (s_conn s) ≠ tx) →
       ch_queue (w_chans w') tx = ch_queue (w_chans w) tx).
Proof.
  intros Hw Hp. rewrite /core_publish_room_lossy Hp (publish_lossy_loop w) //.
  destruct (push_all_spec (to_ws_message msg) "lossy drop" (room_conns (w_core w) rk) w
              (room_conns_NoDup w M L Hw rk) (wr_drops _ _ _ Hw)) as (Hc & Hf & Hd & Hq).
  fold (room_conns (w_core w) rk). cbv beta iota.
  split_and!; [done..| |].
  - intros k s Hk. rewrite Hq. f_equal. pose proof (room_conns_session w M L Hw rk k s Hk).
    repeat case_decide; naive_solver.
  - intros tx Hno. rewrite Hq. case_decide as Hd'; [|by rewrite app_nil_r].
    destruct Hd' as [(conn & -> & (k & s & ? & ? & <-)%(elem_of_room_conns w M L Hw))%list_elem_of_fmap _].
    by destruct (Hno k s).
Qed.

(** A world with two sessions, the first in the lobby, one place each. *)
Module Sample.
Import MiniJson.

Definition lim : TenantLimits := mkTenantLimits 64 0 0 0 0.
Definition chans2 : gmap nat mchan :=
  <[1%nat := mkMchan [] true 1]> (<[2%nat := mkMchan [] true 1]> ∅).
Definition reg1 : SessionRegistry :=
  snd (try_insert sr_new "t" "t::a" "t::a::1" (mkConnection 1) 0).
Definition reg2 : SessionRegistry :=
  snd (try_insert reg1 "t" "t::b" "t::b::1" (mkConnection 2) 0).
Definition rooms1 : Presence := snd (try_join pr_new "t" "t::lobby" "t::a" "t::a::1" lim).
Definition world : World := mkWorld (mkCore reg2 rooms1) chans2 0 0 [].
Definition members1 : members := {[("t::a::1", "t::lobby")]} ∪ ∅.
Definition live : gmap string Session :=
  <["t::b::1" := mkSession "t::b" "t" (mkConnection 2) 2]>
    (<["t::a::1" := mkSession "t::a" "t" (mkConnection 1) 1]> ∅).
Definition hello : Outgoing (list byte) := mkOutgoing Lossy (Binary [Byte.x01]).

Lemma rooms1_rep : rooms_rep rooms1 members1 members1.
Proof.
  refine (proj1 (rooms_reach_rep (λ _, lim) 1 rooms1 _ _
    (rooms_join _ 0 pr_new ∅ "t" "a" "1" "lobby" (Ok tt) rooms1 _ eq_refl eq_refl _ _) _)).
  - intros _. by repeat split.
  - apply rooms_new.
  - set_solver.
  - by vm_compute.
  - done.
Qed.

Lemma reg2_rep : reg_rep reg2 live.
Proof.
  refine (proj1 (reg_reach_rep (λ _, 0) 2 reg2 _ _
    (reach_insert _ 1 reg1 _ "t" "t::b" "t::b::1" (mkConnection 2) (Ok tt) reg2
      (reach_insert _ 0 _ _ "t" "t::a" "t::a::1" (mkConnection 1) (Ok tt) reg1 (reach_new _) _ _)
      _ _) _)).
  - done.
  - done.
  - by vm_compute.
  - done.
  - by vm_compute.
  - done.
Qed.

Lemma sample_rep : world_rep world members1 live.
Proof.
  split; [apply rooms1_rep|apply reg2_rep| |done|done].
  intros k k' s s' Hk Hk' Htx. rewrite /live !lookup_insert_Some lookup_empty in Hk, Hk'.
  destruct Hk as [[<- <-]|(_ & [[<- <-]|(_ & [=])])], Hk' as [[<- <-]|(_ & [[<- <-]|(_ & [=])])];
    done.
Qed.
End Sample.

(** ** Reliable delivery *)

Section reliable.
Context `{!Mpsc, !MpscLaws}.
Implicit Types (evs : list FutEvent) (st : FutState) (m : Message) (dt : bool).

(** The endings that [SEND_FAIL_COUNT] counts: with a timeout only elapsed
    timers, without one only closed channels. *)
Definition counted dt (e : FutEnd) : bool :=
  match e with Delivered => false | SendError => negb dt | TimedOut => dt end.

Definition count_of dt (ended : list (Connection * FutEnd)) : Z :=
  Z.of_nat (length (List.filter (λ x, counted dt x.2) ended)).

Definition delivered_to (tx : nat) (x : Connection * FutEnd) : bool :=
  bool_decide (conn_tx x.1 = tx) && match x.2 with Delivered => true | _ => false end.

Definition no_other (ev : FutEvent) : bool := match ev with Other _ => false | _ => true end.

(** What holds along the run, from the world [w0] and the recipients [conns]. *)
Record fut_inv dt m (w0 : World) (conns : list Connection) (st : FutState) : Prop := {
  fi_once : (fst <$> fs_ended st) ++ fs_pending st ≡ₚ conns;
  fi_core : w_core (fs_world st) = w_core w0;
  fi_drops : w_drops (fs_world st) = w_drops w0;
  fi_fails : w_fails (fs_world st) = wrap64 (w_fails w0 + count_of dt (fs_ended st));
}.

(** The queues, as long as no other task runs. *)
Definition fut_queues m (w0 : World) (st : FutState) : Prop :=
  ∀ tx, ch_queue (w_chans (fs_world st)) tx
        = ch_queue (w_chans w0) tx ++ ((λ _, m) <$> List.filter (delivered_to tx) (fs_ended st)).

Lemma count_of_snoc dt ended x :
  count_of dt (ended ++ [x]) = count_of dt ended + (if counted dt x.2 then 1 else 0).
Proof.
  rewrite /count_of List.filter_app length_app. cbn [List.filter].
  destruct (counted dt x.2); cbn; lia.
Qed.

(** A future that ends moves from the pending ones to the ended ones. *)
Lemma once_finish st (conns : list Connection) i conn r :
  fs_pending st !! i = Some conn → (fst <$> fs_ended st) ++ fs_pending st ≡ₚ conns →
  (fst <$> fs_ended st ++ [(conn, r)]) ++ delete i (fs_pending st) ≡ₚ conns.
Proof.
  intros Hi <-. rewrite fmap_app -app_assoc. cbn. f_equiv. symmetry. by apply delete_Permutation.
Qed.

Lemma fut_step_inv dt m w0 conns st ev :
  fut_inv dt m w0 conns st → fut_inv dt m w0 conns (fut_step dt m st ev).
Proof.
  intros Hst. destruct Hst as [Ho Hc Hd Hf]. destruct ev as [i|i|c]; cbn.
  - destruct (fs_pending st !! i) as [conn|] eqn:Hi; [|by split].
    destruct (try_send _ _ _) as [[] c]; [| |destruct dt]; split; cbn; try done;
      try by apply once_finish.
    + rewrite Hf count_of_snoc. cbn. by rewrite Z.add_0_r.
    + rewrite Hf count_of_snoc. cbn. by rewrite Z.add_0_r.
    + rewrite Hf count_of_snoc wrap64_add. cbn. by rewrite Z.add_assoc.
  - destruct (fs_pending st !! i) as [conn|] eqn:Hi; [|by split].
    destruct dt; [|by split]. split; cbn; try done; [by apply once_finish|].
    rewrite Hf count_of_snoc wrap64_add. cbn. by rewrite Z.add_assoc.
  - by split.
Qed.

Lemma fut_step_queues dt m w0 st ev :
  no_other ev = true → fut_queues m w0 st → fut_queues m w0 (fut_step dt m st ev).
Proof.
  intros Hev Hst tx. specialize (Hst tx). destruct ev as [i|i|c]; [| |done]; cbn [fut_step];
    (destruct (fs_pending st !! i) as [conn|] eqn:Hi; [|done]).
  - destruct (try_send _ _ _) as [res c] eqn:E. apply try_send_spec in E as (Hs & _ & Hq & _).
    destruct res; [|done|]; cbn.
    + rewrite Hq List.filter_app fmap_app app_assoc -Hst. f_equal. cbn. rewrite /delivered_to /=.
      rewrite andb_true_r. case_bool_decide; cbn [fmap list_fmap];
        repeat case_decide; naive_solver.
    + rewrite List.filter_app /= /delivered_to andb_false_r app_nil_r. by destruct dt.
  - destruct dt; [|done]. cbn. by rewrite List.filter_app /= /delivered_to andb_false_r app_nil_r.
Qed.

Lemma fut_run_inv dt m w0 conns evs st :
  fut_inv dt m w0 conns st → fut_inv dt m w0 conns (foldl (fut_step dt m) st evs).
Proof. revert st. induction evs; intros st Hst; cbn; eauto using fut_step_inv. Qed.

Lemma fut_run_queues dt m w0 evs st :
  forallb no_other evs = true → fut_queues m w0 st →
  fut_queues m w0 (foldl (fut_step dt m) st evs).
Proof.
  revert st. induction evs as [|ev evs IH]; intros st Hev Hst; cbn; [done|].
  apply andb_true_iff in Hev as [? ?]. eauto using fut_step_queues.
Qed.

Lemma fut_inv_start dt m w conns :
  is_u64 (w_fails w) → fut_inv dt m w conns (mkFutState w conns []).
Proof. intros Hf. split; cbn; try done. by rewrite Z.add_0_r wrap64_small. Qed.

Lemma fut_queues_start m w conns : fut_queues m w (mkFutState w conns []).
Proof. intros tx. by rewrite /= app_nil_r. Qed.

(** A channel that a send may have found closed: it was closed at the start, or another task has closed it. *)
Definition closed_seen (w : World) evs (tx : nat) : Prop :=
  ch_open (w_chans w) tx = false ∨ ∃ c, Other c ∈ evs ∧ ch_open c tx = false.

Definition is_elapse (ev : FutEvent) : bool := match ev with Elapse _ => true | _ => false end.
Definition is_late (x : Connection * FutEnd) : bool := match x.2 with TimedOut => true | _ => false end.

(** Why a future has ended. *)
Definition end_reason dt (w : World) evs (x : Connection * FutEnd) : Prop :=
  match x.2 with
  | Delivered => True
  | SendError => closed_seen w evs (conn_tx x.1)
  | TimedOut => dt = true
  end.

Lemma end_reason_later dt m st ev evs x :
  end_reason dt (fs_world (fut_step dt m st ev)) evs x → end_reason dt (fs_world st) (ev :: evs) x.
Proof.
  rewrite /end_reason. destruct (x.2); [done| |done]. intros [Ho|(c & Hin & Ho)]; [|right; exists c; split; [by right|done]].
  destruct ev as [i|i|c]; cbn in Ho; [| |right; exists c; split; [by left|done]].
  - left. destruct (fs_pending st !! i) as [conn|]; [|done].
    destruct (try_send _ _ _) as [res c] eqn:E. apply try_send_spec in E as (_ & _ & _ & Hoc).
    destruct res; cbn in Ho; [by rewrite -(proj1 (Hoc _))|done|by destruct dt].
  - left. destruct (fs_pending st !! i); [|done]. by destruct dt.
Qed.

Lemma fut_step_ends dt m st ev :
  ∃ new, fs_ended (fut_step dt m st ev) = fs_ended st ++ new ∧ Forall (end_reason dt (fs_world st) [ev]) new
         ∧ (length (List.filter is_late new) ≤ if is_elapse ev then 1 else 0)%nat.
Proof.
  assert (∀ P, ∃ new, fs_ended st = fs_ended st ++ new ∧ Forall P new
    ∧ (length (List.filter is_late new) ≤ if is_elapse ev then 1 else 0)%nat) as Hnone.
  { intros P. exists []. rewrite app_nil_r. split_and!; [done|constructor|cbn; lia]. }
  destruct ev as [i|i|c]; cbn [fut_step]; [| |apply Hnone].
  - destruct (fs_pending st !! i) as [conn|]; [|apply Hnone].
    destruct (try_send _ _ _) as [res c] eqn:E.
    destruct res; [exists [(conn, Delivered)]|apply Hnone|exists [(conn, SendError)]];
      (split_and!; [done|apply Forall_singleton|done]); [done|]. left.
    destruct (ch_open _ _) eqn:Ho; [|done]. exfalso. cbn in Ho.
    destruct (decide (ch_cap (w_chans (fs_world st)) (conn_tx conn) ≤ length (ch_queue (w_chans (fs_world st)) (conn_tx conn)))%nat) as [Hf|Hf].
    + by rewrite try_send_full in E.
    + destruct (try_send_sent (w_chans (fs_world st)) (conn_tx conn) m Ho ltac:(lia)) as (c' & E' & _). congruence.
  - destruct (fs_pending st !! i) as [conn|]; [|apply Hnone]. destruct dt; [|apply Hnone].
    exists [(conn, TimedOut)]. split_and!; [done|by apply Forall_singleton|done].
Qed.

Lemma fut_run_ends dt m evs st :
  ∃ new, fs_ended (foldl (fut_step dt m) st evs) = fs_ended st ++ new
         ∧ Forall (end_reason dt (fs_world st) evs) new
         ∧ (length (List.filter is_late new) ≤ length (List.filter is_elapse evs))%nat.
Proof.
  revert st. induction evs as [|ev evs IH]; intros st; cbn [foldl].
  { exists []. by rewrite app_nil_r. }
  destruct (fut_step_ends dt m st ev) as (new1 & E1 & F1 & N1). destruct (IH (fut_step dt m st ev)) as (new2 & E2 & F2 & N2).
  exists (new1 ++ new2). rewrite E2 E1 app_assoc List.filter_app length_app. split_and!; [done| |].
  - apply Forall_app. split; [|eapply Forall_impl; [exact F2|apply end_reason_later]].
    eapply Forall_impl; [exact F1|]. intros x. rewrite /end_reason. destruct (x.2); [done| |done].
    intros [Ho|(c & Hin%list_elem_of_singleton & Ho)]; [by left|right; exists c; split; [rewrite Hin; by left|done]].
  - cbn [List.filter]. destruct (is_elapse ev); cbn [length] in *; lia.
Qed.

(** Elapsing the timer of the first pending future ends it; nothing makes a
    future pending again. *)
Lemma fut_step_pending dt m st ev :
  (length (fs_pending (fut_step dt m st ev)) ≤ length (fs_pending st))%nat.
Proof.
  destruct ev as [i|i|c]; cbn; [| |done];
    (destruct (fs_pending st !! i) as [conn|] eqn:Hi; [|done]).
  - destruct (try_send _ _ _) as [[] c]; cbn; rewrite ?length_delete; eauto with lia.
  - destruct dt; cbn; rewrite ?length_delete; eauto with lia.
Qed.

Definition first_timer (ev : FutEvent) : bool :=
  match ev with Elapse 0 => true | _ => false end.

Lemma fut_run_timers m evs st :
  (length (fs_pending (foldl (fut_step true m) st evs))
   ≤ length (fs_pending st) - length (List.filter first_timer evs))%nat.
Proof.
  revert st. induction evs as [|ev evs IH]; intros st; cbn [foldl List.filter]; [cbn; lia|].
  etransitivity; [apply IH|]. pose proof (fut_step_pending true m st ev).
  destruct (first_timer ev) eqn:E; cbn [length]; [|lia].
  destruct ev as [|[]|]; try done. cbn [fut_step].
  destruct (fs_pending st) as [|conn l] eqn:Ep; cbn; rewrite ?Ep; cbn; lia.
Qed.

End reliable.

(** What a reliable publication leaves: how the sends to the recipients [conns] ended, in order, and those that are pending. *)
Record accounted `{!Mpsc} dt (m : Message) evs (w w' : World) (conns : list Connection)
    (ended : list (Connection * FutEnd)) (pending : list Connection) : Prop := {
  ac_once : (fst <$> ended) ++ pending ≡ₚ conns;
  ac_reasons : Forall (end_reason dt w evs) ended;
  ac_late : (length (List.filter is_late ended) ≤ length (List.filter is_elapse evs))%nat;
  ac_core : w_core w' = w_core w;
  ac_drops : w_drops w' = w_drops w;
  ac_fails : w_fails w' = wrap64 (w_fails w + count_of dt ended);
  ac_queues : forallb no_other evs = true → ∀ tx,
    ch_queue (w_chans w') tx
    = ch_queue (w_chans w) tx ++ ((λ _, m) <$> List.filter (delivered_to tx) ended);
}.

Lemma reliable_accounted `{!DashOrder, !Mpsc, !MpscLaws} {Bytes : Type}
    `{!BytesOps Bytes, !SerdeJson} evs w rk (out : Outgoing Bytes) msg :
  prepare out = Ok msg → is_u64 (w_fails w) →
  let r := core_publish_room_reliable evs w rk out in
  ∃ ended pending,
    accounted (timeout_of (out_qos out)) (to_ws_message msg) evs w r.2 (room_conns (w_core w) rk) ended pending
    ∧ r.1 = (if decide (pending = []) then Some (Ok tt) else None).
Proof.
  intros Hp Hf. rewrite /core_publish_room_reliable Hp. cbv beta iota zeta. cbn [fst snd].
  set (m := to_ws_message msg). set (dt := timeout_of _). set (conns := room_conns _ _).
  destruct (fut_run_ends dt m evs (mkFutState w conns [])) as (new & E & Hr & Hl). cbn in E.
  set (st := foldl _ _ evs) in *. exists (fs_ended st), (fs_pending st).
  destruct (fut_run_inv dt m _ _ evs _ (fut_inv_start dt m w conns Hf)) as [Ho Hc Hd Hfl]. fold st in Ho, Hc, Hd, Hfl.
  split; [|by destruct (fs_pending st)]. split; rewrite ?E //; [by rewrite -E..|].
  intros Hev tx. rewrite -E. by apply (fut_run_queues dt m w evs _ Hev (fut_queues_start m w conns)).
Qed.


(** Reliable publication returns, if it has a timeout. Every schedule
    in which the timers of the recipients elapse (the first pending one, as
    often as there are recipients) ends with the publication returned, however
    full the channels are and whatever other tasks do. *)
Theorem publish_room_reliable_returns `{!DashOrder, !Mpsc, !MpscLaws} {Bytes : Type}
    `{!BytesOps Bytes, !SerdeJson} evs w rk (out : Outgoing Bytes) :
  timeout_of (out_qos out) = true →
  (length (room_conns (w_core w) rk) ≤ length (List.filter first_timer evs))%nat →
  fst (core_publish_room_reliable evs w rk out)
  = Some (let? _ := prepare out in Ok tt).
Proof.
  intros Hdt Hn. rewrite /core_publish_room_reliable. destruct (prepare out) as [msg|e]; [|done].
  cbv beta iota zeta. rewrite Hdt. cbn [fst].
  pose proof (fut_run_timers (to_ws_message msg) evs
    (mkFutState w (room_conns (w_core w) rk) [])) as Hlen. cbn [fs_pending] in Hlen.
  destruct (fs_pending _); [done|]. cbn in Hlen. lia.
Qed.

(** ** Tenant isolation *)

(** Sessions registered under the keys that [run_session] builds. *)
Definition keyed_sessions (L : gmap string Session) : Prop :=
  ∀ k s, L !! k = Some s → ∃ t u sid, safe t = true ∧ safe u = true ∧ k = session_key t u sid
                                      ∧ s_user s = user_key t u ∧ s_tenant s = t.

(** What a service can do with its context. *)
Inductive Action `{!Mpsc} :=
| ToUser
| ToSession
| RoomLossy (room : string)
| RoomReliable (room : string) (evs : list FutEvent).

Definition run_action `{!DashOrder, !Mpsc} {Bytes : Type} `{!BytesOps Bytes, !SerdeJson}
    (w : World) (ctx : RealtimeCtx) (out : Outgoing Bytes) (a : Action) : World :=
  match a with
  | ToUser => snd (ctx_send_to_user w ctx out)
  | ToSession => snd (ctx_send_to_session w ctx out)
  | RoomLossy room => snd (ctx_publish_room_lossy w ctx room out)
  | RoomReliable room evs => snd (ctx_publish_room_reliable evs w ctx room out)
  end.

Definition action_alone `{!Mpsc} (a : Action) : bool :=
  match a with RoomReliable _ evs => forallb no_other evs | _ => true end.

Section isolation.
Context `{!DashOrder, !DashOrderLaws, !Mpsc, !MpscLaws}.
Context {Bytes : Type} `{!BytesOps Bytes, !SerdeJson}.
Implicit Types (m : Message) (conns : list Connection).

(** A list of pushes leaves alone the channels it does not name. *)
Lemma push_all_other m text conns w tx :
  tx ∉ conn_tx <$> conns →
  ch_queue (w_chans (foldl (push m text) w conns)) tx = ch_queue (w_chans w) tx.
Proof.
  revert w. induction conns as [|conn conns IH]; intros w Hni; [done|]. cbn in *.
  apply not_elem_of_cons in Hni as [Hne Hni]. rewrite IH //.
  destruct (push_spec m text w conn _ eq_refl) as (_ & _ & _ & -> & _).
  repeat case_decide; [naive_solver|by rewrite app_nil_r..].
Qed.

(** So does a reliable publication, while it runs alone. *)
Lemma fut_run_other dt m w conns evs tx :
  forallb no_other evs = true → is_u64 (w_fails w) → tx ∉ conn_tx <$> conns →
  ch_queue (w_chans (fs_world (foldl (fut_step dt m) (mkFutState w conns []) evs))) tx
  = ch_queue (w_chans w) tx.
Proof.
  intros Hev Hf Hni. rewrite (fut_run_queues dt m w evs _ Hev (fut_queues_start m w conns)).
  pose proof (fi_once _ _ _ _ _ (fut_run_inv dt m w conns evs _ (fut_inv_start dt m w conns Hf))) as Ho.
  set (st := foldl _ _ _) in *.
  rewrite (filter_ext_in _ (λ _, false)) ?filter_false ?app_nil_r //.
  intros [conn e] Hin%list_elem_of_In. rewrite /delivered_to /= bool_decide_false //.
  intros <-. apply Hni, list_elem_of_fmap_2. rewrite -Ho. apply elem_of_app. left.
  by apply (list_elem_of_fmap_2 fst) in Hin.
Qed.

(** A member of a room of a tenant is a session of that tenant. *)
Lemma keyed_member M L k s t room :
  keyed M → keyed_sessions L → safe t = true → L !! k = Some s → (k, room_key t room) ∈ M →
  s_tenant s = t.
Proof.
  intros HM HL Ht Hk Hin. destruct (HL k s Hk) as (t' & u & sid & Ht' & Hu & -> & _ & ->).
  rewrite -(keyed_tenant M t' u sid _ HM Ht' Hu Hin). by rewrite key_tenant_room.
Qed.

Lemma room_conns_tenant w M L k s t room :
  world_rep w M L → keyed M → keyed_sessions L → safe t = true →
  L !! k = Some s → s_tenant s ≠ t →
  conn_tx (s_conn s) ∉ conn_tx <$> room_conns (w_core w) (room_key t room).
Proof.
  intros Hw HM HL Ht Hk Hne Hin%(room_conns_session w M L Hw _ k s Hk).
  by eapply Hne, keyed_member.
Qed.
End isolation.

(** C3: tenant isolation. Whatever a service does with the context of a
    session of one tenant (send to the user, to the session, to a room, lossy
    or reliable, with no other task running meanwhile), no session of another tenant receives anything, provided
    that tenant and user ids hold no double colon and do not end in a colon, and that sessions and rooms are in the tables under keys of such
    ids. Without this proviso it is false ([tenant_keys_collide]). *)
Theorem egress_isolates_tenants `{!DashOrder, !DashOrderLaws, !Mpsc, !MpscLaws} {Bytes : Type}
    `{!BytesOps Bytes, !SerdeJson} w M L t u sid trace room (out : Outgoing Bytes) a k s :
  world_rep w M L → keyed M → keyed_sessions L → safe t = true → safe u = true →
  action_alone a = true → L !! k = Some s → s_tenant s ≠ t →
  ch_queue (w_chans (run_action w (ctx_new t u sid trace room) out a)) (conn_tx (s_conn s))
  = ch_queue (w_chans w) (conn_tx (s_conn s)).
Proof.
  intros Hw HM HL Ht Hu Ha Hk Hne. destruct a as [| |r|r evs]; cbn [run_action].
  - rewrite /ctx_send_to_user /core_send_to_user.
    destruct (get_user_sessions _ _) as [|c0 cs] eqn:E; [done|].
    destruct (prepare out) as [msg|]; [|done]. apply push_all_other. rewrite -E.
    rewrite (get_user_sessions_rep _ _ _ (wr_reg _ _ _ Hw)) -list_fmap_compose.
    intros ([k' s'] & Htx & [Hk' Hs']%elem_of_map_to_list%map_lookup_filter_Some)%list_elem_of_fmap.
    cbn in Htx, Hs'. assert (k = k') as <- by by apply (wr_tx _ _ _ Hw k k' s s').
    simplify_eq. destruct (HL _ _ Hk) as (t' & u' & sid' & ? & ? & _ & Hus & Htn).
    rewrite Hus in Hs'. apply dcolon_unique in Hs' as [<- _]; [|done..]. done.
  - rewrite /ctx_send_to_session /core_send_to_session.
    rewrite (world_session w M L Hw). change (ctx_session_key _) with (session_key t u sid).
    destruct (L !! session_key t u sid) as [s'|] eqn:E; [|done]. cbn [fmap option_fmap option_map].
    destruct (prepare out) as [msg|]; [|done].
    apply (push_all_other _ _ [s_conn s']). cbn. rewrite list_elem_of_singleton. intros Htx.
    assert (k = session_key t u sid) as -> by by apply (wr_tx _ _ _ Hw _ _ s s').
    destruct (HL _ _ Hk) as (t' & u' & sid' & ? & ? & Hkey & _ & Htn).
    apply dcolon_unique in Hkey as [<- _]; [|done..]. by destruct Hne.
  - rewrite /ctx_publish_room_lossy /core_publish_room_lossy.
    destruct (prepare out) as [msg|]; [|done]. cbn [snd]. rewrite (publish_lossy_loop w) //.
    apply push_all_other. by eapply room_conns_tenant.
  - rewrite /ctx_publish_room_reliable /core_publish_room_reliable.
    destruct (prepare out) as [msg|]; [|done]. cbn [snd].
    apply fut_run_other; [done|apply Hw|]. by eapply room_conns_tenant.
Qed.

(** C40: where isolation stops. Configuration validation only asks tenant ids
    to be distinct and not blank, so ids with a double colon are accepted, and
    then room keys collide: the room [x::room] of tenant [t] is the room
    [room] of tenant [t::x]. A message that a session of the second tenant
    publishes to its own room reaches the sessions of the first. *)
Theorem tenant_keys_collide `{!DashOrder, !DashOrderLaws, !Mpsc, !MpscLaws} {Bytes : Type}
    `{!BytesOps Bytes, !SerdeJson} t x room lim pol w M L k s u sid trace active
    (out : Outgoing Bytes) msg :
  let t' := t +:+ "::" +:+ x in
  is_blank t = false → is_blank t' = false → tenant_validate (mkTenantConfig t lim pol) = Ok tt →
  world_rep w M L → prepare out = Ok msg →
  L !! k = Some s → s_tenant s = t → (k, room_key t (x +:+ "::" +:+ room)) ∈ M →
  ch_accepts (w_chans w) (conn_tx (s_conn s)) = true →
  validate_tenants ∅ [mkTenantConfig t lim pol; mkTenantConfig t' lim pol] = Ok tt
  ∧ t' ≠ t
  ∧ ch_queue (w_chans (snd (ctx_publish_room_lossy w (ctx_new t' u sid trace active) room out)))
      (conn_tx (s_conn s))
    = ch_queue (w_chans w) (conn_tx (s_conn s)) ++ [to_ws_message msg].
Proof.
  intros t' Hb Hb' Hv Hw Hp Hk Hs Hin Hacc.
  assert (t' ≠ t) as Hne.
  { intros E. apply (f_equal String.length) in E. rewrite /t' in E.
    rewrite !string_length_app in E. cbn in E. lia. }
  split_and!; [|done|].
  - cbn [validate_tenants tenant_id]. rewrite Hb Hb' bool_decide_false; [|set_solver].
    rewrite Hv bool_decide_false; [|set_solver]. by rewrite /tenant_validate in Hv |- *; rewrite Hv.
  - rewrite /ctx_publish_room_lossy /core_publish_room_lossy Hp. cbn [snd].
    rewrite (publish_lossy_loop w) //.
    replace (room_key (ctx_tenant _) room) with (room_key t (x +:+ "::" +:+ room)); last first.
    { by rewrite /room_key /= /t' !string_app_assoc. }
    fold (room_conns (w_core w) (room_key t (x +:+ "::" +:+ room))).
    destruct (push_all_spec (to_ws_message msg) "lossy drop"
      (room_conns (w_core w) (room_key t (x +:+ "::" +:+ room))) w
      (room_conns_NoDup w M L Hw _) (wr_drops _ _ _ Hw)) as (_ & _ & _ & ->). f_equal.
    pose proof (proj2 (room_conns_session w M L Hw _ k s Hk) Hin). by repeat case_decide; naive_solver.
Qed.

(** ** Instances: the theorems at concrete worlds *)

Import MiniJson.

Lemma publish_room_lossy_exact_witness :
  let w' := snd (core_publish_room_lossy Sample.world "t::lobby" Sample.hello) in
  ch_queue (w_chans w') 1%nat = [MBinary [Byte.x01]]
  ∧ ch_queue (w_chans w') 2%nat = [].
Proof.
  pose proof (publish_room_lossy_exact Sample.world Sample.members1 Sample.live
    "t::lobby" Sample.hello _ Sample.sample_rep eq_refl) as Hp.
  destruct (core_publish_room_lossy _ _ _) as [res w']. destruct Hp as (_ & _ & _ & _ & Hq & _).
  split.
  - exact (Hq "t::a::1" _ eq_refl).
  - exact (Hq "t::b::1" _ eq_refl).
Defined.


Lemma publish_room_reliable_returns_witness :
  let w := mkWorld (mkCore Sample.reg2 Sample.rooms1) (<[1%nat := mkMchan [] true 0]> ∅) 0 0 [] in
  fst (core_publish_room_reliable [Poll 0; Elapse 0] w "t::lobby"
         (mkOutgoing (Reliable 1500) (Binary [Byte.x01]))) = Some (Ok tt).
Proof.
  intros w. apply (publish_room_reliable_returns [Poll 0; Elapse 0] w "t::lobby"
    (mkOutgoing (Reliable 1500) (Binary [Byte.x01]))); [done|]. by apply Nat.leb_le.
Defined.

Lemma egress_isolates_tenants_witness :
  let hi : Outgoing (list byte) := Sample.hello in
  let w' := run_action Sample.world (ctx_new "other" "u" "9" "tr" None) hi (RoomLossy "lobby") in
  ch_queue (w_chans w') 1%nat = [].
Proof.
  intros hi w'.
  refine (egress_isolates_tenants Sample.world Sample.members1 Sample.live "other" "u" "9" "tr" None
    hi (RoomLossy "lobby") "t::a::1" (mkSession "t::a" "t" (mkConnection 1) 1)
    Sample.sample_rep _ _ eq_refl eq_refl eq_refl eq_refl _).
  - intros x Hx. exists "t", "a", "1", "lobby". split_and!; [done..|].
    rewrite /Sample.members1 in Hx. set_solver.
  - intros k s Hk. rewrite /Sample.live !lookup_insert_Some lookup_empty in Hk.
    destruct Hk as [[<- <-]|(_ & [[<- <-]|(_ & [=])])].
    + by exists "t", "b", "1".
    + by exists "t", "a", "1".
  - done.
Defined.

Lemma tenant_keys_collide_witness :
  let p := snd (try_join pr_new "t" "t::x::lobby" "t::a" "t::a::1" Sample.lim) in
  let w := mkWorld (mkCore Sample.reg2 p) Sample.chans2 0 0 [] in
  ch_queue (w_chans (snd (ctx_publish_room_lossy w (ctx_new "t::x" "u" "9" "tr" None) "lobby"
                            Sample.hello))) 1%nat = [MBinary [Byte.x01]].
Proof.
  intros p w.
  refine (proj2 (proj2 (tenant_keys_collide "t" "x" "lobby" TenantLimits_default TenantPolicy_default
    w ({[("t::a::1", "t::x::lobby")]} ∪ ∅) Sample.live "t::a::1"
    (mkSession "t::a" "t" (mkConnection 1) 1) "u" "9" "tr" None Sample.hello _
    eq_refl eq_refl eq_refl _ eq_refl eq_refl eq_refl _ eq_refl))).
  - destruct Sample.sample_rep as [_ Hreg Htx Hd Hf]. split; try done.
    refine (proj1 (rooms_reach_rep (λ _, Sample.lim) 1 p _ _
      (rooms_join _ 0 pr_new ∅ "t" "a" "1" "x::lobby" (Ok tt) p _ eq_refl eq_refl _ _) _)).
    + intros _. by repeat split.
    + apply rooms_new.
    + set_solver.
    + by vm_compute.
    + done.
  - set_solver.
Defined.
