(* ===== verification/Codec.v ===== *)
(** * Decode-once codec ([wsprism-gateway/src/transport/codec.rs])

    Text frames become envelopes, binary frames hot frames, and control frames
    are surfaced.  The length kept for the policy is that of the whole frame. *)

From S2P Require Import Prelude Errors HotFrame Channel Envelope.

(** [bytes::Bytes::from(Vec<u8>)]. *)
Class BytesFrom (Bytes : Type) := bytes_from : list byte → Bytes.
Class BytesFromLaws (Bytes : Type) `{!BytesOps Bytes, !BytesFrom Bytes} : Prop :=
  bytes_from_view l : view (bytes_from l) = l.

#[export] Instance list_bytes_from : BytesFrom (list byte) := id.
#[export] Instance list_bytes_from_laws : BytesFromLaws (list byte).
Proof. done. Qed.

Section codec.
Context {Bytes : Type} `{!BytesOps Bytes, !BytesFrom Bytes, !SerdeJson}.

Inductive Inbound :=
| IText (env : Envelope RawValue) (bytes_len : Z)
| IHot (frame : HotFrame Bytes) (bytes_len : Z)
| IPing (b : list byte)
| IPong (b : list byte)
| IClose.

(** [decode]. *)
Definition decode (msg : Message) : outcome (Result Inbound) :=
  match msg with
  | MText s =>
      let bytes_len := Z.of_nat (String.length s) in
      Done (let? env := map_err (λ e, EBadRequest ("invalid envelope json: " +:+ e))
                          (parse_envelope s) in
            Ok (IText env bytes_len))
  | MBinary b =>
      let bytes_len := Z.of_nat (length b) in
      let! r := decode_hot_frame (bytes_from b) in
      Done (let? frame := r in Ok (IHot frame bytes_len))
  | MPing v => Done (Ok (IPing v))
  | MPong v => Done (Ok (IPong v))
  | MClose _ => Done (Ok IClose)
  end.
End codec.

Arguments Inbound Bytes {_}.

(** What one inbound message may turn into. *)
Definition decoded_as {Bytes} `{!BytesOps Bytes, !SerdeJson}
    (msg : Message) (r : Result (Inbound Bytes)) : Prop :=
  match msg, r with
  | MText s, Ok (IText env n) => parse_envelope s = Ok env ∧ n = Z.of_nat (String.length s)
  | MText s, Err e => ∃ why, parse_envelope s = Err why
                             ∧ e = EBadRequest ("invalid envelope json: " +:+ why)
  | MBinary b, Ok (IHot frame n) =>
      HotSpec.parse b = Ok (frame_view frame) ∧ n = Z.of_nat (length b)
      ∧ Z.of_nat (length (view (hf_payload frame))) ≤ n - 4
  | MBinary b, Err e => HotSpec.parse b = Err e
  | MPing v, Ok (IPing v') => v' = v
  | MPong v, Ok (IPong v') => v' = v
  | MClose _, Ok IClose => True
  | _, _ => False
  end.

(** The payload of a frame is what is left of it after the header. *)
Lemma parse_payload_length b f :
  HotSpec.parse b = Ok f → (length (hf_payload f) + 4 ≤ length b)%nat.
Proof.
  destruct b as [|v [|svc [|op [|fl rest]]]]; try done. cbn [HotSpec.parse].
  destruct (byte_val v =? 1); [|done]. destruct (Z.testbit (byte_val fl) 0).
  - destruct rest as [|s0 [|s1 [|s2 [|s3 payload]]]]; try done. intros [= <-]. cbn. lia.
  - intros [= <-]. cbn. lia.
Qed.

(** Decoding is total and faithful. Every inbound message decodes
    without a panic to a value of its own kind: text to the envelope that the
    JSON reader returns, binary to the frame that the wire format defines, the
    errors being theirs, control frames to themselves; and the recorded length
    is that of the whole frame, so that it bounds the payload. *)
Theorem decode_total {Bytes} `{!BytesOps Bytes, !BytesLaws Bytes, !BytesFrom Bytes,
    !BytesFromLaws Bytes, !SerdeJson} (msg : Message) :
  ∃ r, decode msg = Done r ∧ decoded_as (Bytes := Bytes) msg r.
Proof.
  destruct msg as [s|b|v|v|fr]; cbn [decode].
  - eexists. split; [done|]. cbn. destruct (parse_envelope s) as [env|why]; cbn; eauto.
  - destruct (decode_hot_frame_parse (bytes_from b)) as (r & -> & Hr).
    rewrite bytes_from_view in Hr. eexists. split; [done|]. destruct r as [frame|e]; cbn in *; [|done].
    split_and!; [done..|]. pose proof (parse_payload_length _ _ (eq_sym Hr)) as Hl. cbn in Hl. lia.
  - by eexists.
  - by eexists.
  - by eexists.
Qed.

Import MiniJson.

Lemma decode_total_witness :
  ∃ r, decode (MBinary [Byte.x01; Byte.x02; Byte.x03; Byte.x00; Byte.xff]) = Done r
       ∧ decoded_as (Bytes := list byte)
           (MBinary [Byte.x01; Byte.x02; Byte.x03; Byte.x00; Byte.xff]) r.
Proof.
  apply (decode_total (MBinary [Byte.x01; Byte.x02; Byte.x03; Byte.x00; Byte.xff])).
Defined.
