(* ===== verification/Dispatch.v ===== *)
(** * Dispatcher and built-in services ([dispatch/dispatcher.rs],
    [services/chat.rs], [services/echo_binary.rs])

    The two service traits are records of their methods.  A handler runs
    along a list of events (see [Realtime.v]) and answers [None] while it is
    still waiting for its sends. *)

From S2P Require Import Prelude Errors HotFrame Dash SessionRegistry Presence Keys Channel Envelope Realtime.

Section dispatch.
Context {Bytes : Type} `{!BytesOps Bytes, !SerdeJson, !DashOrder, !Mpsc}.

(** What an async handler does, along a list of events. *)
Abbreviation run_result := (option (Result unit) * World)%type.

(** [trait TextService]. *)
Record TextService := mkTextService {
  ts_svc : string;
  ts_handle : list FutEvent → World → RealtimeCtx → Envelope RawValue → run_result;
}.

(** [trait BinaryService]. *)
Record BinaryService := mkBinaryService {
  bs_svc_id : Z;
  bs_handle_binary : list FutEvent → World → RealtimeCtx → HotFrame Bytes → run_result;
}.

Record Dispatcher := mkDispatcher {
  d_text : gmap string TextService;
  d_hot : gmap Z BinaryService;
}.

(** [Dispatcher::new]. *)
Definition dispatcher_new : Dispatcher := mkDispatcher ∅ ∅.

Definition register_text (d : Dispatcher) (svc : TextService) : Dispatcher :=
  mkDispatcher (<[ts_svc svc := svc]> (d_text d)) (d_hot d).

Definition register_hot (d : Dispatcher) (svc : BinaryService) : Dispatcher :=
  mkDispatcher (d_text d) (<[bs_svc_id svc := svc]> (d_hot d)).

Definition registered_text_svcs (d : Dispatcher) : list string := fst <$> dm_iter (d_text d).
Definition registered_hot_svcs (d : Dispatcher) : list Z := fst <$> dm_iter (d_hot d).

(** [dispatch_text]. *)
Definition dispatch_text (d : Dispatcher) (evs : list FutEvent) (w : World) (ctx : RealtimeCtx)
    (env : Envelope RawValue) : run_result :=
  match d_text d !! env_svc env with
  | None => (Some (err_bad_request ("unknown svc: " +:+ env_svc env)), w)
  | Some handler => ts_handle handler evs w ctx env
  end.

(** [dispatch_hot]. *)
Definition dispatch_hot (d : Dispatcher) (evs : list FutEvent) (w : World) (ctx : RealtimeCtx)
    (frame : HotFrame Bytes) : run_result :=
  match d_hot d !! hf_svc_id frame with
  | None => (Some (err_bad_request ("unknown hot svc_id: " +:+ pretty (hf_svc_id frame))), w)
  | Some handler => bs_handle_binary handler evs w ctx frame
  end.

(** ** The chat service *)

(** The message that [chat.send] publishes. *)
Definition chat_msg (room from msg : string) : Value :=
  json_obj [("v", json_num 1); ("svc", json_str "chat"); ("type", json_str "msg");
            ("room", json_str room);
            ("data", json_obj [("from", json_str from); ("msg", json_str msg)])].

(** The [send] branch up to the publication: the room and the message. *)
Definition chat_request (env : Envelope RawValue) : Result (string * string) :=
  let? room := ok_or (EBadRequest "chat.send requires room") (env_room env) in
  let? raw := ok_or (EBadRequest "chat.send requires data") (env_data env) in
  let? msg := map_err (λ e, EBadRequest ("chat.send invalid data: " +:+ e))
                (parse_send_req (raw_get raw)) in
  Ok (room, msg).

(** [ChatService::handle]. *)
Definition chat_handle (evs : list FutEvent) (w : World) (ctx : RealtimeCtx)
    (env : Envelope RawValue) : run_result :=
  if bool_decide (env_msg_type env = "send") then
    match chat_request env with
    | Err e => (Some (Err e), w)
    | Ok (room, msg) =>
        let out : Outgoing Bytes :=
          mkOutgoing (Reliable 1500) (TextJson (chat_msg room (ctx_user ctx) msg)) in
        ctx_publish_room_reliable evs w ctx room out
    end
  else (Some (err_bad_request "unknown chat type"), w).

Definition ChatService : TextService := mkTextService "chat" chat_handle.

(** ** The echo service *)

(** [EchoBinaryService::handle_binary]. *)
Definition echo_handle_binary (evs : list FutEvent) (w : World) (ctx : RealtimeCtx)
    (frame : HotFrame Bytes) : run_result :=
  let out : Outgoing Bytes := mkOutgoing Lossy (Binary (hf_payload frame)) in
  let '(res, w') :=
    match ctx_active_room ctx with
    | Some room => ctx_publish_room_lossy w ctx room out
    | None => ctx_send_to_session w ctx out
    end in
  (Some res, w').

Definition EchoBinaryService (svc_id : Z) : BinaryService :=
  mkBinaryService svc_id echo_handle_binary.
End dispatch.

Arguments TextService {_ _}.
Arguments BinaryService Bytes {_}.
Arguments Dispatcher Bytes {_ _}.

(** ** A reliable publication to channels that all have room *)

Section polls.
Context `{!Mpsc, !MpscLaws}.
Implicit Types (m : Message) (conns : list Connection).

(** Polling each future once delivers to all. *)
Lemma fut_run_polls dt m conns w ended :
  NoDup (conn_tx <$> conns) →
  Forall (λ conn, ch_accepts (w_chans w) (conn_tx conn) = true) conns →
  let st := foldl (fut_step dt m) (mkFutState w conns ended) (replicate (length conns) (Poll 0)) in
  fs_pending st = [] ∧ fs_ended st = ended ++ ((., Delivered) <$> conns).
Proof.
  revert w ended. induction conns as [|conn conns IH]; intros w ended Hnd Hacc; cbn.
  { by rewrite app_nil_r. }
  apply Forall_cons in Hacc as [Hc Hacc]. apply NoDup_cons in Hnd as [Hni Hnd].
  destruct (try_send (w_chans w) (conn_tx conn) m) as [res c] eqn:E.
  pose proof (λ tx, try_send_accepts_other _ _ _ _ _ tx E) as Hother.
  apply try_send_spec in E as (Hs & _). rewrite (proj2 Hs Hc).
  destruct (IH (set_chans w c) (ended ++ [(conn, Delivered)]) Hnd) as [-> ->].
  - apply Forall_forall. intros x Hx. cbn. rewrite Hother.
    + by eapply Forall_forall in Hacc.
    + intros Heq. apply Hni. rewrite -Heq. by apply list_elem_of_fmap_2.
  - by rewrite -app_assoc.
Qed.
End polls.

(** The dispatcher that [AppState::new] sets up. *)
Definition builtin_dispatcher {Bytes : Type} `{!BytesOps Bytes, !SerdeJson, !DashOrder, !Mpsc}
    : Dispatcher Bytes :=
  register_hot (register_text dispatcher_new ChatService) (EchoBinaryService 1).

(** A channel among distinct ones is delivered to at most once, and if all ends are deliveries exactly once. *)
Lemma delivered_at_most_once `{!Mpsc} (tx : nat) (ended : list (Connection * FutEnd)) (conns pending : list Connection) :
  (fst <$> ended) ++ pending ≡ₚ conns → NoDup (conn_tx <$> conns) →
  let got := List.filter (delivered_to tx) ended in
  (length got ≤ 1)%nat ∧ (tx ∉ conn_tx <$> conns → got = [])
  ∧ (pending = [] → Forall (λ x, conn_tx x.1 = tx → x.2 = Delivered) ended → tx ∈ conn_tx <$> conns → length got = 1%nat).
Proof.
  intros Hp Hnd. assert (NoDup (conn_tx <$> ended.*1)) as Hnd1.
  { rewrite -Hp fmap_app in Hnd. by apply NoDup_app in Hnd as [? _]. }
  assert (∀ tx, tx ∈ conn_tx <$> conns ↔ tx ∈ conn_tx <$> ended.*1 ∨ tx ∈ conn_tx <$> pending) as Hin.
  { intros tx'. by rewrite -Hp fmap_app elem_of_app. }
  cbv zeta. rewrite (Hin tx). clear Hp Hnd Hin conns.
  induction ended as [|[conn e] ended IH]; cbn.
  { split_and!; [lia|done|]. intros -> _ [Hn|Hn]; by apply elem_of_nil in Hn. }
  cbn in Hnd1. apply NoDup_cons in Hnd1 as [Hni Hnd1]. destruct (IH Hnd1) as (Hle & Hno & Hone).
  rewrite elem_of_cons.
  assert (delivered_to tx (conn, e) = bool_decide (conn_tx conn = tx) && match e with Delivered => true | _ => false end) as ->
    by done.
  case_bool_decide as E; cbn [andb].
  - subst tx. assert (List.filter (delivered_to (conn_tx conn)) ended = []) as ->.
    { clear -Hni. induction ended as [|[conn' e'] ended IH]; [done|]. cbn in Hni |- *.
      apply not_elem_of_cons in Hni as [Hne Hni]. rewrite /delivered_to /= bool_decide_false; [by apply IH|congruence]. }
    destruct e; cbn; (split_and!; [lia|naive_solver|]); [done|intros _ [He _]%Forall_cons; by specialize (He eq_refl)..].
  - split_and!; [done|naive_solver|]. intros Hpend [_ Hall]%Forall_cons [[->|Hin]|Hin]; [done|by apply Hone; auto..].
Qed.

(** C35: a chat message reaches its room. A well-formed [chat.send] is dispatched while the sends to the
    recipients are polled, and their timers elapse, in any order [evs] (no other task runs meanwhile).  Then no session gets the message
    more than once, and one that is not in the room of the sender's tenant not at all.  When the dispatch has returned, its answer is [Ok], and if
    no timer has elapsed, each session in the room with an open channel has got, at the end of its queue, the chat message with the
    sender's user id, the room and the text.  It returns after one poll of each send if all the recipients' queues have space. *)
Theorem chat_send_delivers {Bytes : Type} `{!BytesOps Bytes, !SerdeJson, !SerdeJsonLaws, !DashOrder,
    !DashOrderLaws, !Mpsc, !MpscLaws} w M L (ctx : RealtimeCtx) env room raw text evs :
  world_rep w M L →
  env_svc env = "chat" → env_msg_type env = "send" → env_room env = Some room →
  env_data env = Some raw → parse_send_req (raw_get raw) = Ok text → forallb no_other evs = true →
  let rk := room_key (ctx_tenant ctx) room in
  let conns := room_conns (w_core w) rk in
  let dispatch evs := dispatch_text (builtin_dispatcher (Bytes := Bytes)) evs w ctx env in
  let m := MText (value_display (chat_msg room (ctx_user ctx) text)) in
  ((dispatch evs).1 = None ∨ (dispatch evs).1 = Some (Ok tt))
  ∧ (∀ k s, L !! k = Some s → ∃ n,
       ch_queue (w_chans (dispatch evs).2) (conn_tx (s_conn s))
       = ch_queue (w_chans w) (conn_tx (s_conn s)) ++ replicate n m
       ∧ (n ≤ 1)%nat ∧ ((k, rk) ∉ M → n = 0%nat)
       ∧ ((dispatch evs).1 = Some (Ok tt) → forallb (negb ∘ is_elapse) evs = true →
          ch_open (w_chans w) (conn_tx (s_conn s)) = true → (k, rk) ∈ M → n = 1%nat))
  ∧ (Forall (λ conn, ch_accepts (w_chans w) (conn_tx conn) = true) conns →
     (dispatch (replicate (length conns) (Poll 0))).1 = Some (Ok tt)).
Proof.
  intros Hw Hsvc Hty Hroom Hdata Hreq Hev rk conns dispatch m.
  assert (∀ evs, dispatch evs = core_publish_room_reliable evs w rk
    (mkOutgoing (Reliable 1500) (TextJson (Bytes := Bytes) (chat_msg room (ctx_user ctx) text)))) as Ed.
  { intros evs'. rewrite /dispatch /dispatch_text Hsvc. cbn [d_text builtin_dispatcher register_hot register_text].
    rewrite lookup_insert_eq. cbn [ts_handle ChatService]. rewrite /chat_handle bool_decide_true //.
    by rewrite /chat_request Hroom Hdata /= Hreq /=. }
  set (out := mkOutgoing _ _) in Ed.
  assert (prepare out = Ok (PText (value_display (chat_msg room (ctx_user ctx) text)))) as Hprep
    by by rewrite /prepare /= value_to_string_ok.
  rewrite !Ed. destruct (reliable_accounted evs w rk out _ Hprep (wr_fails _ _ _ Hw))
    as (ended & pending & [Ho Hr Hl _ _ _ Hq] & Eres). specialize (Hq Hev). cbn in Hq.
  pose proof (room_conns_NoDup w M L Hw rk) as Hnd. split_and!.
  - rewrite Eres. case_decide; auto.
  - intros k s Hk. set (tx := conn_tx (s_conn s)).
    destruct (delivered_at_most_once tx ended conns pending Ho Hnd) as (Hle & Hno & Hone).
    exists (length (List.filter (delivered_to tx) ended)). rewrite Hq (const_fmap _ _ m) //.
    pose proof (room_conns_session w M L Hw rk k s Hk) as Hin. fold tx in Hin. split_and!; [done|done| |].
    + intros HM. by rewrite Hno // Hin.
    + intros Hret Helapse Hopen HM. rewrite Eres in Hret. case_decide as Hpend; [|done].
      apply Hone; [done| |by apply Hin]. apply Forall_forall. intros x Hx Etx.
      pose proof (proj1 (Forall_forall _ _) Hr x Hx) as Hreason. rewrite /end_reason in Hreason.
      destruct (x.2) eqn:Ex; [done|exfalso..].
      * rewrite Etx in Hreason. destruct Hreason as [?|(c & Hc & _)]; [fold tx in Hopen; congruence|].
        rewrite forallb_forall in Hev. apply list_elem_of_In, Hev in Hc. done.
      * assert (List.filter is_elapse evs = []) as E0.
        { clear -Helapse. induction evs as [|ev evs IH]; [done|]. cbn in Helapse |- *. apply andb_true_iff in Helapse as [H1 H2].
          apply negb_true_iff in H1. rewrite H1. by apply IH. }
        rewrite E0 in Hl. cbn in Hl. apply (Nat.nle_succ_0 0). etransitivity; [|exact Hl].
        apply list_elem_of_In in Hx. assert (In x (List.filter is_late ended)) as Hlate
          by (apply filter_In; split; [done|by rewrite /is_late Ex]).
        destruct (List.filter is_late ended); [done|cbn; lia].
  - intros Hacc. rewrite /core_publish_room_reliable Hprep. cbv beta iota zeta. cbn [fst].
    destruct (fut_run_polls true m conns w [] Hnd Hacc) as [Hpolls _].
    change (timeout_of (out_qos out)) with true. fold m. cbn [to_ws_message]. fold m conns. by rewrite Hpolls.
Qed.

(** A text frame the built-in services accept. *)
Definition valid_chat `{!SerdeJson} (env : Envelope RawValue) : bool :=
  bool_decide (env_svc env = "chat") && bool_decide (env_msg_type env = "send")
  && is_ok (chat_request env).

Lemma chat_request_bad_request `{!SerdeJson} env e :
  chat_request env = Err e → ∃ m, e = EBadRequest m.
Proof.
  rewrite /chat_request. destruct (env_room env); cbn; [|naive_solver].
  destruct (env_data env); cbn; [|naive_solver].
  destruct (parse_send_req _); cbn; naive_solver.
Qed.

(** What the built-in services do not accept has no effect. Every text
    frame that is not a well-formed [chat.send], and every hot frame for a
    service other than the echo service, is answered at once with a
    [BAD_REQUEST] and leaves the world as it was. *)
Theorem dispatch_rejects {Bytes : Type} `{!BytesOps Bytes, !SerdeJson, !DashOrder, !Mpsc}
    evs w (ctx : RealtimeCtx) :
  (∀ env, valid_chat env = false →
     ∃ m, dispatch_text (builtin_dispatcher (Bytes := Bytes)) evs w ctx env
          = (Some (err_bad_request m), w))
  ∧ (∀ frame : HotFrame Bytes, hf_svc_id frame ≠ 1 →
     dispatch_hot builtin_dispatcher evs w ctx frame
     = (Some (err_bad_request ("unknown hot svc_id: " +:+ pretty (hf_svc_id frame))), w)).
Proof.
  split.
  - intros env Hv. rewrite /dispatch_text /builtin_dispatcher /=.
    destruct (decide (env_svc env = "chat")) as [Hsvc|Hsvc].
    + rewrite Hsvc lookup_insert_eq /= /chat_handle. rewrite /valid_chat in Hv.
      destruct (decide (env_msg_type env = "send")) as [Hty|Hty].
      * rewrite bool_decide_true //. destruct (chat_request env) as [[]|e] eqn:E.
        { by rewrite !bool_decide_true in Hv. }
        destruct (chat_request_bad_request env e E) as [m ->]. by exists m.
      * rewrite bool_decide_false //. by eexists.
    + rewrite lookup_insert_ne // lookup_empty. by eexists.
  - intros frame Hid. rewrite /dispatch_hot /=. by rewrite lookup_insert_ne.
Qed.

(** The echo service. A hot frame for service 1 is answered at once:
    with an active room, its payload is appended, byte for byte, to the queue
    of every session in that room of the sender's tenant that has space; without
    one, to the queue of the sender's own session alone. *)
Theorem echo_delivers {Bytes : Type} `{!BytesOps Bytes, !SerdeJson, !DashOrder, !DashOrderLaws,
    !Mpsc, !MpscLaws} evs w M L t u sid trace active (frame : HotFrame Bytes) k s :
  world_rep w M L → hf_svc_id frame = 1 → is_Some (L !! session_key t u sid) → L !! k = Some s →
  let ctx := ctx_new t u sid trace active in
  let '(res, w') := dispatch_hot builtin_dispatcher evs w ctx frame in
  let target := match active with
                | Some room => bool_decide ((k, room_key t room) ∈ M)
                | None => bool_decide (k = session_key t u sid)
                end in
  let tx := conn_tx (s_conn s) in
  res = Some (Ok tt) ∧ w_core w' = w_core w
  ∧ ch_queue (w_chans w') tx
    = ch_queue (w_chans w) tx
      ++ (if target && ch_accepts (w_chans w) tx then [MBinary (view (hf_payload frame))] else []).
Proof.
  intros Hw Hid [s0 Hs0] Hk. rewrite /dispatch_hot Hid. cbn [d_hot builtin_dispatcher register_hot].
  rewrite lookup_insert_eq. cbn [bs_handle_binary EchoBinaryService]. rewrite /echo_handle_binary.
  destruct active as [room|]; cbn [ctx_active_room ctx_new].
  - rewrite /ctx_publish_room_lossy /core_publish_room_lossy. cbn [prepare out_payload ctx_tenant].
    rewrite (publish_lossy_loop w) //.
    destruct (push_all_spec (MBinary (view (hf_payload frame))) "lossy drop"
      (room_conns (w_core w) (room_key t room)) w
      (room_conns_NoDup w M L Hw _) (wr_drops _ _ _ Hw)) as (Hc & _ & _ & Hq).
    split_and!; [done|done|]. rewrite Hq. f_equal.
    pose proof (room_conns_session w M L Hw (room_key t room) k s Hk) as Hin.
    case_bool_decide; destruct (ch_accepts (w_chans w) (conn_tx (s_conn s))); cbn [andb];
      repeat case_decide; naive_solver.
  - rewrite /ctx_send_to_session /core_send_to_session (world_session w M L Hw).
    cbn [ctx_session_key]. rewrite Hs0. cbn [fmap option_fmap option_map prepare out_payload].
    destruct (push_spec (MBinary (view (hf_payload frame))) "send_to_session dropped" w (s_conn s0)
                _ eq_refl) as (Hc & _ & _ & Hq & _).
    split_and!; [done|done|]. rewrite Hq. f_equal.
    destruct (bool_decide_reflect (k = session_key t u sid)) as [->|Hne]; cbn [andb].
    + simplify_eq. destruct (ch_accepts _ _) eqn:E; repeat case_decide; naive_solver.
    + assert (conn_tx (s_conn s) ≠ conn_tx (s_conn s0)).
      { intros E. by eapply Hne, (wr_tx _ _ _ Hw). }
      repeat case_decide; naive_solver.
Qed.

(** ** Instances: the theorems at concrete worlds *)

Import MiniJson.

Lemma chat_send_delivers_witness :
  let env := mkEnvelope 1 "chat" "send" 0 None (Some "lobby") (Some "hi") in
  let ctx := ctx_new "t" "b" "1" "tr" None in
  let '(res, w') := dispatch_text (builtin_dispatcher (Bytes := list byte)) [Poll 3; Poll 0]
                      Sample.world ctx env in
  res = Some (Ok tt)
  ∧ ∃ n, n = 1%nat ∧ ch_queue (w_chans w') 1%nat = replicate n (MText (show (chat_msg "lobby" "b" "hi"))).
Proof.
  intros env ctx.
  pose proof (chat_send_delivers (Bytes := list byte) Sample.world Sample.members1 Sample.live
    ctx env "lobby" "hi" "hi" [Poll 3; Poll 0]
    Sample.sample_rep eq_refl eq_refl eq_refl eq_refl eq_refl eq_refl) as (_ & Hq & _).
  destruct (Hq "t::a::1" _ eq_refl) as (n & Hn & _ & _ & Hone).
  assert ((dispatch_text (builtin_dispatcher (Bytes := list byte)) [Poll 3; Poll 0] Sample.world ctx env).1 = Some (Ok tt)) as Hres by by vm_compute.
  specialize (Hone Hres eq_refl eq_refl ltac:(set_solver)).
  destruct (dispatch_text _ _ _ _ _) as [res w']. split; [exact Hres|]. exists n. split; [exact Hone|exact Hn].
Defined.

Lemma echo_delivers_witness :
  let frame := mkHotFrame 1 1 0 0 None [Byte.x07] in
  let '(res, w') := dispatch_hot builtin_dispatcher [] Sample.world
                      (ctx_new "t" "b" "1" "tr" (Some "lobby")) frame in
  ch_queue (w_chans w') 1%nat = [MBinary [Byte.x07]].
Proof.
  cbv zeta.
  pose proof (echo_delivers [] Sample.world Sample.members1 Sample.live "t" "b" "1" "tr" (Some "lobby")
    (mkHotFrame 1 1 0 0 None [Byte.x07]) "t::a::1" (mkSession "t::a" "t" (mkConnection 1) 1)
    Sample.sample_rep eq_refl ltac:(by eexists) eq_refl) as He. cbv zeta in He.
  destruct (dispatch_hot _ _ _ _ _) as [res w']. destruct He as (_ & _ & Hq).
  rewrite Hq bool_decide_true //.
Defined.
