(* ===== verification/Float64.v ===== *)
(** * Non-negative finite [f64]

    The handshake limiter computes with [f64].  All its values are
    non-negative and below 2^100 (capacities and rates are [u32], elapsed times
    are below 2^64 seconds), so no infinity, NaN or negative number arises.
    Every non-negative finite binary64 number is a multiple of 2^-1074: an
    [f64] is that multiple, a [Z], and an operation is the exact result
    rounded to 53 significant bits, ties to even. *)

From Stdlib Require Import SpecFloat.
From S2P Require Import Prelude.

(** Multiples of 2^-1074. *)
Abbreviation f64 := Z (only parsing).

(** [1.0]. *)
Definition f_one : f64 := 2 ^ 1074.

(** [n / d] to the nearest integer, ties to even. *)
Definition nearest_even (n d : Z) : Z :=
  let q := n / d in
  let r := n mod d in
  if 2 * r <? d then q
  else if d <? 2 * r then q + 1
  else if Z.even q then q else q + 1.

(** [n / d] rounded to 53 significant bits (the unit is 2^-1074, so that
    subnormal numbers keep their unit). *)
Definition round64 (n d : Z) : f64 :=
  let s := Z.max 0 (Z.log2 (n / d) - 52) in
  nearest_even n (d * 2 ^ s) * 2 ^ s.

(** [as f64] from an unsigned integer. *)
Definition f_of_uint (z : Z) : f64 := round64 (z * f_one) 1.
Definition f_add (a b : f64) : f64 := round64 (a + b) 1.
(** For [b <= a]. *)
Definition f_sub (a b : f64) : f64 := round64 (a - b) 1.
Definition f_mul (a b : f64) : f64 := round64 (a * b) f_one.
Definition f_div (a b : f64) : f64 := round64 (a * f_one) b.
Definition f_ceil (a : f64) : f64 := (a + (f_one - 1)) / f_one * f_one.
(** [as u64]: towards zero, saturating. *)
Definition f_to_u64 (a : f64) : Z := Z.min u64_max (a / f_one).

(** [Duration::as_secs_f64], of a duration in nanoseconds. *)
Definition as_secs_f64 (ns : Z) : f64 :=
  f_add (f_of_uint (ns / 1000000000))
        (f_div (f_of_uint (ns mod 1000000000)) (f_of_uint 1000000000)).

(** ** Agreement with the IEEE 754 operations of the Standard Library, on samples *)

Definition sf_units (x : spec_float) : option f64 :=
  match x with
  | S754_zero false => Some 0
  | S754_finite false m e => Some (Z.shiftl (Z.pos m) (e + 1074))
  | _ => None
  end.

Definition sf_of_uint (z : Z) : spec_float := binary_normalize 53 1024 z 0 false.

(** 0.1 + 0.2, 10 * 0.1, 1 / 3 and 1000000007 / 10^9, computed both ways. *)
Example f64_agrees :
  let tenth := SFdiv 53 1024 (sf_of_uint 1) (sf_of_uint 10) in
  let fifth := SFdiv 53 1024 (sf_of_uint 2) (sf_of_uint 10) in
  let tenth' := f_div (f_of_uint 1) (f_of_uint 10) in
  let fifth' := f_div (f_of_uint 2) (f_of_uint 10) in
  sf_units tenth = Some tenth'
  ∧ sf_units (SFadd 53 1024 tenth fifth) = Some (f_add tenth' fifth')
  ∧ sf_units (SFmul 53 1024 (sf_of_uint 10) tenth) = Some (f_mul (f_of_uint 10) tenth')
  ∧ sf_units (SFdiv 53 1024 (sf_of_uint 1) (sf_of_uint 3)) = Some (f_div (f_of_uint 1) (f_of_uint 3))
  ∧ sf_units (SFdiv 53 1024 (sf_of_uint 1000000007) (sf_of_uint 1000000000))
    = Some (f_div (f_of_uint 1000000007) (f_of_uint 1000000000)).
Proof. by vm_compute. Qed.

(** ** Lemmas *)

#[global] Opaque f_one.

Lemma f_one_pos : 0 < f_one.
Proof. Transparent f_one. rewrite /f_one. apply Z.pow_pos_nonneg; lia. Qed.
#[global] Opaque f_one.

Lemma nearest_even_nonneg n d : 0 ≤ n → 0 < d → 0 ≤ nearest_even n d.
Proof.
  intros Hn Hd. pose proof (Z.div_pos n d Hn Hd). rewrite /nearest_even. split_ifs; lia.
Qed.

Lemma round64_nonneg n d : 0 ≤ n → 0 < d → 0 ≤ round64 n d.
Proof.
  intros Hn Hd. rewrite /round64. apply Z.mul_nonneg_nonneg; [|apply Z.pow_nonneg; lia].
  apply nearest_even_nonneg; [done|]. apply Z.mul_pos_pos; [done|]. apply Z.pow_pos_nonneg; lia.
Qed.

(** The unit in the last place of a number divides every integer that is not
    smaller and has few enough bits. *)
Lemma ulp_divides n j :
  0 ≤ j < 2 ^ 53 → 0 ≤ n ≤ j * f_one → (2 ^ Z.max 0 (Z.log2 n - 52) | j * f_one).
Proof.
  intros Hj Hn. destruct (decide (j = 0)) as [->|Hj0]; [by apply Z.divide_0_r|].
  apply Z.divide_mul_r. Transparent f_one. rewrite /f_one. set (s := Z.max 0 _).
  assert (s ≤ 1074) as Hle.
  { pose proof (Z.log2_le_mono _ _ (proj2 Hn)) as Hlog.
    rewrite /f_one Z.log2_mul_pow2 in Hlog; [|lia..].
    pose proof (proj1 (Z.log2_lt_pow2 j 53 ltac:(lia)) (proj2 Hj)). lia. }
  replace 1074 with ((1074 - s) + s) by lia. rewrite Z.pow_add_r; [|lia..].
  by exists (2 ^ (1074 - s)).
Qed.
#[global] Opaque f_one.

(** Rounding keeps what has few enough bits... *)
Lemma round64_exact j : 0 ≤ j < 2 ^ 53 → round64 (j * f_one) 1 = j * f_one.
Proof.
  intros Hj. pose proof f_one_pos. rewrite /round64 Z.div_1_r Z.mul_1_l.
  destruct (ulp_divides (j * f_one) j Hj ltac:(nia)) as [q Hq]. set (s := Z.max 0 _) in *.
  assert (0 < 2 ^ s) as Hp by (apply Z.pow_pos_nonneg; lia).
  rewrite Hq /nearest_even Z.div_mul; [|lia]. rewrite Z.mod_mul; [|lia].
  by replace (2 * 0 <? 2 ^ s) with true by (symmetry; apply Z.ltb_lt; lia).
Qed.

(** ... and does not pass it. *)
Lemma round64_le n j : 0 ≤ j < 2 ^ 53 → 0 ≤ n ≤ j * f_one → round64 n 1 ≤ j * f_one.
Proof.
  intros Hj Hn. rewrite /round64 Z.div_1_r Z.mul_1_l.
  destruct (ulp_divides n j Hj Hn) as [q Hq]. set (s := Z.max 0 _) in *.
  assert (0 < 2 ^ s) as Hp by (apply Z.pow_pos_nonneg; lia).
  rewrite Hq in Hn |- *. apply Z.mul_le_mono_nonneg_r; [lia|]. rewrite /nearest_even.
  pose proof (Z.div_mod n (2 ^ s) ltac:(lia)). pose proof (Z.mod_pos_bound n (2 ^ s) Hp).
  set (d := n / 2 ^ s) in *. set (r := n mod 2 ^ s) in *. split_ifs; unbool; nia.
Qed.

(** What is not below it stays so. *)
Lemma round64_ge n j : 0 ≤ j < 2 ^ 53 → j * f_one ≤ n → j * f_one ≤ round64 n 1.
Proof.
  intros Hj Hn. pose proof f_one_pos. rewrite /round64 Z.div_1_r Z.mul_1_l. set (s := Z.max 0 _).
  assert (0 < 2 ^ s) as Hp by (apply Z.pow_pos_nonneg; lia).
  assert (n / 2 ^ s ≤ nearest_even n (2 ^ s)) as Hq by (rewrite /nearest_even; split_ifs; lia).
  assert (j * f_one ≤ n / 2 ^ s * 2 ^ s) as Hfloor; [|nia].
  destruct (decide (s ≤ 1074)) as [Hs|Hs].
  - assert ((2 ^ s | j * f_one)) as [q Eq].
    { apply Z.divide_mul_r. Transparent f_one. rewrite /f_one. replace 1074 with ((1074 - s) + s) by lia.
      rewrite Z.pow_add_r; [|lia..]. by exists (2 ^ (1074 - s)). }
    rewrite Eq in Hn |- *. apply Z.mul_le_mono_nonneg_r; [lia|]. by apply Z.div_le_lower_bound; lia.
  - assert (s = Z.log2 n - 52) as Es by lia. assert (0 < n) by (destruct (Z.le_gt_cases n 0) as [Hle|]; [rewrite Z.log2_nonpos in Es; lia|done]).
    assert (2 ^ 52 ≤ n / 2 ^ s) as Hbig.
    { apply Z.div_le_lower_bound; [lia|]. rewrite -Z.pow_add_r; [|lia..]. replace (s + 52) with (Z.log2 n) by lia.
      by apply Z.log2_spec. }
    assert (2 * f_one ≤ 2 ^ s).
    { Transparent f_one. rewrite /f_one. change 2 with (2 ^ 1) at 1. rewrite -Z.pow_add_r; [|lia..]. apply Z.pow_le_mono_r; lia. }
    change (2 ^ 53) with (2 * 2 ^ 52) in Hj. nia.
Qed.
#[global] Opaque f_one.

Lemma round64_zero d : 0 < d → round64 0 d = 0.
Proof.
  intros Hd. rewrite /round64 Z.div_0_l; [|lia].
  change (Z.max 0 (Z.log2 0 - 52)) with 0. rewrite Z.pow_0_r !Z.mul_1_r.
  rewrite /nearest_even Z.div_0_l; [|lia]. rewrite Z.mod_0_l; [|lia].
  by replace (2 * 0 <? d) with true by (symmetry; apply Z.ltb_lt; lia).
Qed.

Lemma f_of_uint_exact z : 0 ≤ z < 2 ^ 53 → f_of_uint z = z * f_one.
Proof. apply round64_exact. Qed.

(** No time passed. *)
Lemma as_secs_f64_zero : as_secs_f64 0 = 0.
Proof. Transparent f_one. by vm_compute. Qed.
#[global] Opaque f_one.
