(* ===== verification/Handshake.v ===== *)
(** * Handshake defender ([wsprism-gateway/src/transport/handshake.rs])

    Leaky buckets in [f64] arithmetic, a global one and one per IP address,
    in front of the WebSocket upgrade.  The readings of the clocks are
    arguments: the [Instant]s, in nanoseconds, and the sub-second nanoseconds
    that the trimming of the map uses as a source of chance.  [check] keeps the guard of an entry
    while it asks for the length of the map; whether that returns depends on the locks of [dashmap]. *)

From S2P Require Import Prelude Config Float64.

Record LeakyBucket := mkLeakyBucket {
  lb_capacity : Z;
  lb_tokens : f64;
  lb_refill_per_sec : f64;
  lb_last : Z;
}.

(** [LeakyBucket::new]. *)
Definition lb_new (now capacity refill_per_sec : Z) : LeakyBucket :=
  let cap := Z.max capacity 1 in
  mkLeakyBucket cap (f_of_uint cap) (f_of_uint (Z.max refill_per_sec 1)) now.

(** [refill]; [duration_since] saturates at zero. *)
Definition lb_refill (now : Z) (b : LeakyBucket) : LeakyBucket :=
  let elapsed := as_secs_f64 (Z.max 0 (now - lb_last b)) in
  mkLeakyBucket (lb_capacity b)
    (Z.min (f_add (lb_tokens b) (f_mul elapsed (lb_refill_per_sec b))) (f_of_uint (lb_capacity b)))
    (lb_refill_per_sec b) now.

(** [try_take]. *)
Definition lb_try_take (now cost : Z) (b : LeakyBucket) : result Z unit * LeakyBucket :=
  let b := lb_refill now b in
  let c := f_of_uint (Z.max cost 1) in
  if c <=? lb_tokens b then
    (Ok tt, mkLeakyBucket (lb_capacity b) (f_sub (lb_tokens b) c) (lb_refill_per_sec b) (lb_last b))
  else
    let missing := f_sub c (lb_tokens b) in
    let wait := f_ceil (f_div missing (lb_refill_per_sec b)) in
    (Err (f_to_u64 (Z.max wait f_one)), b).

(** ** The defender *)

(** [std::net::IpAddr]. *)
Inductive IpAddr := V4 (a : Z) | V6 (a : Z).

#[export] Instance IpAddr_eq_dec : EqDecision IpAddr.
Proof. solve_decision. Defined.

#[export] Instance IpAddr_countable : Countable IpAddr.
Proof.
  refine (inj_countable' (λ ip, match ip with V4 a => inl a | V6 a => inr a end)
            (λ x, match x with inl a => V4 a | inr a => V6 a end) _).
  by intros [].
Defined.

Record HandshakeDefender := mkDefender {
  hd_cfg : HandshakeConfig;
  hd_global : LeakyBucket;
  hd_per_ip : gmap IpAddr LeakyBucket;
}.

(** [HandshakeDefender::new]. *)
Definition hd_new (now : Z) (cfg : HandshakeConfig) : HandshakeDefender :=
  mkDefender cfg (lb_new now (global_burst cfg) (global_rps cfg)) ∅.

(** The clock readings of one call: the [Instant]s of the global bucket, of a
    bucket that is created, and of the bucket of the address; the system
    clock's nanoseconds when the map is over its size, and when each entry is
    visited. *)
Record Clocks := mkClocks {
  ck_global : Z;
  ck_create : Z;
  ck_ip : Z;
  ck_nanos : Z;
  ck_entry : IpAddr → Z;
}.

(** The guard that a caller has of the map: the write lock of the shard of an entry, by [entry].  While it has one,
    [len] and [retain], which take the locks of all shards, return only if the locks of [dashmap] can be taken
    again by the task that holds them; [reentrant] says whether they can. *)
Definition IpGuard : Type := option IpAddr.

Definition locks_all (reentrant : bool) (guard : IpGuard) : bool :=
  match guard with Some _ => reentrant | None => true end.

(** [entry(ip).or_insert_with(f)]: the guard, and the entry in the map. *)
Definition ip_entry (fresh : LeakyBucket) (m : gmap IpAddr LeakyBucket) (ip : IpAddr)
    : IpGuard * LeakyBucket * gmap IpAddr LeakyBucket :=
  let b := default fresh (m !! ip) in (Some ip, b, <[ip := b]> m).

(** [len], and [retain]; [None]: the call does not return. *)
Definition ip_len (reentrant : bool) (guard : IpGuard) (m : gmap IpAddr LeakyBucket) : option Z :=
  if locks_all reentrant guard then Some (Z.of_nat (size m)) else None.

Definition ip_retain (reentrant : bool) (guard : IpGuard) (keep : IpAddr → bool) (m : gmap IpAddr LeakyBucket)
    : option (gmap IpAddr LeakyBucket) :=
  if locks_all reentrant guard then Some (filter (λ kv, keep kv.1 = true) m) else None.

(** The lazy cleanup at the end of [check], with the guards that the caller has. *)
Definition trim (reentrant : bool) (guard : IpGuard) (cfg : HandshakeConfig) (ck : Clocks)
    (m : gmap IpAddr LeakyBucket) : option (gmap IpAddr LeakyBucket) :=
  match ip_len reentrant guard m with
  | None => None
  | Some len =>
      if max_ip_entries cfg <? len then
        if ck_nanos ck mod 100 <? 10
        then ip_retain reentrant guard (λ ip, negb (ck_entry ck ip mod 10 =? 0)) m
        else Some m
      else Some m
  end.

(** [check]; [None]: the call does not return.  The guard of the entry of
    [ip] is a variable of the function: it is still there in the cleanup, and goes
    when the function returns. *)
Definition check (reentrant : bool) (ck : Clocks) (hd : HandshakeDefender) (ip : IpAddr)
    : option (result Z unit) * HandshakeDefender :=
  if negb (hs_enabled (hd_cfg hd)) then (Some (Ok tt), hd)
  else
    match lb_try_take (ck_global ck) 1 (hd_global hd) with
    | (Err ra, g) => (Some (Err ra), mkDefender (hd_cfg hd) g (hd_per_ip hd))
    | (Ok _, g) =>
        let '(guard, entry, m) :=
          ip_entry (lb_new (ck_create ck) (per_ip_burst (hd_cfg hd)) (per_ip_rps (hd_cfg hd))) (hd_per_ip hd) ip in
        match lb_try_take (ck_ip ck) 1 entry with
        | (Err ra, b) => (Some (Err ra), mkDefender (hd_cfg hd) g (<[ip := b]> m))
        | (Ok _, b) =>
            let m := <[ip := b]> m in
            match trim reentrant guard (hd_cfg hd) ck m with
            | Some m => (Some (Ok tt), mkDefender (hd_cfg hd) g m)
            | None => (None, mkDefender (hd_cfg hd) g m)
            end
        end
    end.

(** [retry_after_header_secs]. *)
Definition retry_after_header_secs (secs : Z) : string * Z :=
  let s := Z.max secs 1 in (pretty s, s).

(** ** Buckets stay within their bounds *)

(** A bucket as the code builds them: between empty and full. *)
Record lb_wf (b : LeakyBucket) : Prop := {
  lw_cap : 1 ≤ lb_capacity b ≤ u32_max;
  lw_tokens : 0 ≤ lb_tokens b ≤ lb_capacity b * f_one;
  lw_rate : 0 < lb_refill_per_sec b;
}.

(** The requests one after the other, at the times given: the answers, and the
    bucket at the end. *)
Fixpoint lb_run (reqs : list (Z * Z)) (b : LeakyBucket) : list (result Z unit) * LeakyBucket :=
  match reqs with
  | [] => ([], b)
  | (now, cost) :: reqs =>
      let '(res, b) := lb_try_take now cost b in
      let '(rs, b) := lb_run reqs b in (res :: rs, b)
  end.

Lemma u32_fits_53 z : 0 ≤ z ≤ u32_max → 0 ≤ z < 2 ^ 53.
Proof. rewrite /u32_max. change (2 ^ 53) with 9007199254740992. lia. Qed.
#[local] Hint Resolve u32_fits_53 : core.

Lemma lb_new_wf now capacity rate :
  0 ≤ capacity ≤ u32_max → 0 ≤ rate ≤ u32_max → lb_wf (lb_new now capacity rate).
Proof.
  intros Hc Hr. pose proof f_one_pos. rewrite /u32_max in Hc, Hr.
  split; cbn [lb_new lb_capacity lb_tokens lb_refill_per_sec].
  - rewrite /u32_max. lia.
  - rewrite f_of_uint_exact; [nia|]. apply u32_fits_53. rewrite /u32_max. lia.
  - rewrite f_of_uint_exact; [nia|]. apply u32_fits_53. rewrite /u32_max. lia.
Qed.

Lemma as_secs_f64_nonneg ns : 0 ≤ ns → 0 ≤ as_secs_f64 ns.
Proof.
  intros Hns. pose proof f_one_pos. rewrite /as_secs_f64.
  pose proof (Z.div_pos ns 1000000000 Hns ltac:(lia)).
  pose proof (Z.mod_pos_bound ns 1000000000 ltac:(lia)).
  assert (0 < f_of_uint 1000000000) as Hg by (rewrite f_of_uint_exact; [nia|by apply u32_fits_53]).
  apply round64_nonneg; [|lia]. apply Z.add_nonneg_nonneg.
  - apply round64_nonneg; nia.
  - apply round64_nonneg; [|done]. apply Z.mul_nonneg_nonneg; [|lia]. apply round64_nonneg; nia.
Qed.

Lemma lb_refill_wf now b : lb_wf b → lb_wf (lb_refill now b).
Proof.
  intros [Hc Ht Hr]. pose proof f_one_pos. split; cbn; [done| |done].
  assert (0 ≤ lb_capacity b ≤ u32_max) as Hcap by lia.
  rewrite (f_of_uint_exact (lb_capacity b)); [|auto]. split; [|lia].
  apply Z.min_glb; [|nia]. apply round64_nonneg; [|lia]. apply Z.add_nonneg_nonneg; [lia|].
  apply round64_nonneg; [|done]. apply Z.mul_nonneg_nonneg; [|lia]. apply as_secs_f64_nonneg. lia.
Qed.

Lemma lb_try_take_wf now cost b :
  lb_wf b → 0 ≤ cost ≤ u32_max →
  lb_wf (snd (lb_try_take now cost b))
  ∧ ∀ ra, fst (lb_try_take now cost b) = Err ra → 1 ≤ ra ≤ u64_max.
Proof.
  intros Hb Hcost. apply (lb_refill_wf now) in Hb. rewrite /lb_try_take.
  generalize dependent (lb_refill now b). intros b1 Hb. pose proof f_one_pos as H1.
  assert (f_of_uint (Z.max cost 1) = Z.max cost 1 * f_one) as Hc.
  { apply f_of_uint_exact, u32_fits_53. rewrite /u32_max in Hcost |- *. lia. }
  rewrite Hc. assert (0 < Z.max cost 1 * f_one) as Hpos by (apply Z.mul_pos_pos; lia).
  set (c := Z.max cost 1 * f_one) in *. destruct Hb as [Hcap Ht Hr]. split_ifs; unbool; cbn [fst snd].
  - split; [|done]. split; cbn [lb_capacity lb_tokens lb_refill_per_sec]; [done| |done].
    rewrite /f_sub. split; [apply round64_nonneg; lia|].
    apply round64_le; [apply u32_fits_53; lia|lia].
  - split; [by split|]. intros ra [= <-]. rewrite /f_to_u64.
    set (wait := f_ceil _).
    assert (1 ≤ Z.max wait f_one / f_one); [|rewrite /u64_max; lia].
    apply Z.div_le_lower_bound; lia.
Qed.

(** A bucket stays between empty and full. Whatever the sequence of
    requests and of clock readings (the clock may stand still), the tokens of
    a bucket stay between zero and its capacity, in the floating-point
    arithmetic of the code, and every refusal names a wait of at least one
    second that fits a [u64]. *)
Theorem bucket_bounds now capacity rate reqs :
  0 ≤ capacity ≤ u32_max → 0 ≤ rate ≤ u32_max → Forall (λ r, 0 ≤ snd r ≤ u32_max) reqs →
  let '(answers, b) := lb_run reqs (lb_new now capacity rate) in
  0 ≤ lb_tokens b ≤ Z.max capacity 1 * f_one
  ∧ Forall (λ a, match a with Err ra => 1 ≤ ra ≤ u64_max | Ok _ => True end) answers.
Proof.
  intros Hc Hr Hreqs.
  assert (lb_wf (lb_new now capacity rate) ∧ lb_capacity (lb_new now capacity rate) = Z.max capacity 1)
    as Hwf by (split; [by apply lb_new_wf|done]).
  generalize dependent (lb_new now capacity rate). intros b0 Hwf. revert b0 Hwf.
  induction Hreqs as [|[t cost] reqs Hcost _ IH]; intros b [Hwf Hcap]; cbn [lb_run].
  - split; [|constructor]. rewrite -Hcap. apply Hwf.
  - pose proof (lb_try_take_wf t cost b Hwf Hcost) as [Hwf' Hra].
    assert (lb_capacity (snd (lb_try_take t cost b)) = Z.max capacity 1) as Hcap'.
    { rewrite -Hcap /lb_try_take. by destruct (_ <=? _). }
    destruct (lb_try_take t cost b) as [res b1]. cbn [fst snd] in *.
    specialize (IH b1 (conj Hwf' Hcap')). destruct (lb_run reqs b1) as [rs b2].
    destruct IH as [IH1 IH2]. split; [done|]. constructor; [|done].
    destruct res as [|ra]; [done|]. by apply Hra.
Qed.

Lemma bucket_bounds_witness :
  let '(answers, b) := lb_run [(0, 1); (5, 1); (2000000000, 3)] (lb_new 0 1 1) in
  0 ≤ lb_tokens b ≤ 1 * f_one
  ∧ Forall (λ a, match a with Err ra => 1 ≤ ra ≤ u64_max | Ok _ => True end) answers.
Proof. apply (bucket_bounds 0 1 1 [(0, 1); (5, 1); (2000000000, 3)]); [done..|by repeat constructor]. Defined.

(** ** Bursts: many requests at one reading of the clock *)

(** A bucket with [k] whole tokens, last refilled now. *)
Definition at_level (now cap : Z) (rate : f64) (k : Z) : LeakyBucket :=
  mkLeakyBucket cap (k * f_one) rate now.

Lemma lb_new_level now capacity rate :
  0 ≤ capacity ≤ u32_max →
  lb_new now capacity rate
  = at_level now (Z.max capacity 1) (f_of_uint (Z.max rate 1)) (Z.max capacity 1).
Proof.
  intros Hc. rewrite /lb_new /at_level. f_equal. apply f_of_uint_exact, u32_fits_53.
  rewrite /u32_max in Hc |- *. lia.
Qed.

Lemma lb_refill_level now cap rate k :
  0 ≤ k ≤ cap → cap ≤ u32_max → lb_refill now (at_level now cap rate k) = at_level now cap rate k.
Proof.
  intros Hk Hcap. rewrite /lb_refill /at_level. cbn [lb_last lb_tokens lb_refill_per_sec lb_capacity].
  f_equal. rewrite Z.sub_diag Z.max_id as_secs_f64_zero /f_mul Z.mul_0_l.
  rewrite round64_zero; [|apply f_one_pos]. rewrite /f_add Z.add_0_r round64_exact; [|apply u32_fits_53; lia].
  rewrite f_of_uint_exact; [|apply u32_fits_53; lia]. pose proof f_one_pos. apply Z.min_l. nia.
Qed.

(** A whole token is taken exactly, or there is none. *)
Lemma lb_take_level now cap rate k :
  0 < rate → 0 ≤ k ≤ cap → 1 ≤ cap ≤ u32_max →
  ∃ ra, 1 ≤ ra
    ∧ lb_try_take now 1 (at_level now cap rate k)
      = if 1 <=? k then (Ok tt, at_level now cap rate (k - 1)) else (Err ra, at_level now cap rate k).
Proof.
  intros Hr Hk Hcap. pose proof f_one_pos as H1.
  assert (lb_wf (at_level now cap rate k)) as Hwf by (split; cbn; [done|nia|done]).
  destruct (lb_try_take_wf now 1 _ Hwf ltac:(done)) as [_ Hra]. revert Hra. rewrite /lb_try_take.
  rewrite lb_refill_level; [|lia..]. cbn [lb_tokens at_level lb_refill_per_sec lb_capacity lb_last].
  change (Z.max 1 1) with 1. rewrite (f_of_uint_exact 1); [|done]. rewrite Z.mul_1_l.
  destruct (f_one <=? k * f_one) eqn:E; destruct (1 <=? k) eqn:E'; unbool; try nia; intros Hra.
  - exists 1. split; [done|]. f_equal. rewrite /at_level /f_sub. f_equal.
    replace (k * f_one - f_one) with ((k - 1) * f_one) by lia. apply round64_exact, u32_fits_53. lia.
  - eexists. split; [|done]. by apply Hra.
Qed.

(** The burst is exact. Of any number of requests to a fresh bucket at
    one reading of the clock, the first ones are admitted, as many as the
    capacity (at least one), and all the others are refused. *)
Theorem bucket_burst_exact now capacity rate n :
  0 ≤ capacity ≤ u32_max → 0 ≤ rate ≤ u32_max →
  let cap := Z.to_nat (Z.max capacity 1) in
  ∃ refusals,
    fst (lb_run (replicate n (now, 1)) (lb_new now capacity rate))
    = replicate (Nat.min n cap) (Ok tt) ++ (Err <$> refusals)
    ∧ length refusals = (n - cap)%nat.
Proof.
  intros Hc Hr cap. rewrite lb_new_level //. set (r := f_of_uint _). set (c := Z.max capacity 1) in *.
  assert (0 < r) as Hpos.
  { pose proof f_one_pos. rewrite /r f_of_uint_exact; [nia|]. apply u32_fits_53.
    rewrite /u32_max in Hr |- *. lia. }
  assert (1 ≤ c ≤ u32_max) as Hc1 by (rewrite /c; rewrite /u32_max in Hc |- *; lia).
  assert (∀ n k, 0 ≤ k ≤ c → ∃ refusals,
    fst (lb_run (replicate n (now, 1)) (at_level now c r k))
    = replicate (Nat.min n (Z.to_nat k)) (Ok tt) ++ (Err <$> refusals)
    ∧ length refusals = (n - Z.to_nat k)%nat) as Hgen; [|apply Hgen; lia].
  clear n. induction n as [|n IH]; intros k Hk.
  - exists []. by split.
  - cbn [replicate lb_run]. destruct (lb_take_level now c r k Hpos Hk Hc1) as (ra & _ & ->).
    destruct (1 <=? k) eqn:E; unbool.
    + destruct (IH (k - 1) ltac:(lia)) as (refs & Heq & Hlen).
      destruct (lb_run _ _) as [rs b]. cbn [fst] in *. exists refs.
      replace (Z.to_nat k) with (S (Z.to_nat (k - 1))) by lia. cbn. rewrite Heq. split; [done|lia].
    + destruct (IH k Hk) as (refs & Heq & Hlen). destruct (lb_run _ _) as [rs b]. cbn [fst] in *.
      exists (ra :: refs). replace (Z.to_nat k) with 0%nat in * by lia.
      rewrite Nat.min_0_r in Heq |- *. rewrite Heq. split; [done|]. cbn. lia.
Qed.

Lemma bucket_burst_exact_witness :
  ∃ refusals,
    fst (lb_run (replicate 5 (7, 1)) (lb_new 7 2 100)) = [Ok tt; Ok tt] ++ (Err <$> refusals)
    ∧ length refusals = 3%nat.
Proof. exact (bucket_burst_exact 7 2 100 5 ltac:(done) ltac:(done)). Defined.

(** ** The defender under a burst *)

(** The handshakes one after the other: who asked and what was answered. *)
Fixpoint hd_run (reentrant : bool) (ck : Clocks) (hd : HandshakeDefender) (ips : list IpAddr)
    : list (IpAddr * option (result Z unit)) * HandshakeDefender :=
  match ips with
  | [] => ([], hd)
  | ip :: ips =>
      let '(res, hd) := check reentrant ck hd ip in
      let '(rs, hd) := hd_run reentrant ck hd ips in ((ip, res) :: rs, hd)
  end.

Definition admit_of (x : IpAddr * option (result Z unit)) : bool :=
  match x.2 with Some (Ok _) => true | _ => false end.

(** How many handshakes were admitted, in all and from one address. *)
Definition admitted (rs : list (IpAddr * option (result Z unit))) : Z :=
  Z.of_nat (length (List.filter admit_of rs)).
Definition admitted_from (ip : IpAddr) (rs : list (IpAddr * option (result Z unit))) : Z :=
  Z.of_nat (length (List.filter (λ x, bool_decide (x.1 = ip) && admit_of x) rs)).

Definition cfg_typed (cfg : HandshakeConfig) : Prop :=
  is_u32 (global_burst cfg) ∧ is_u32 (global_rps cfg) ∧ is_u32 (per_ip_burst cfg)
  ∧ is_u32 (per_ip_rps cfg).

(** The capacities that [LeakyBucket::new] sets. *)
Definition gcap (cfg : HandshakeConfig) : Z := Z.max (global_burst cfg) 1.
Definition pcap (cfg : HandshakeConfig) : Z := Z.max (per_ip_burst cfg) 1.

Section burst.
Context (now : Z) (ck : Clocks) (cfg : HandshakeConfig).
Context (Hck : ck_global ck = now ∧ ck_create ck = now ∧ ck_ip ck = now).
Context (Htyped : cfg_typed cfg) (Hen : hs_enabled cfg = true).

(** The global bucket has [g] tokens left and the bucket of each address
    [k ip], those not seen yet included. *)
Record levels (hd : HandshakeDefender) (g : Z) (k : IpAddr → Z) : Prop := {
  lv_cfg : hd_cfg hd = cfg;
  lv_global : hd_global hd = at_level now (gcap cfg) (f_of_uint (Z.max (global_rps cfg) 1)) g;
  lv_g : 0 ≤ g ≤ gcap cfg;
  lv_ip ip : default (lb_new now (per_ip_burst cfg) (per_ip_rps cfg)) (hd_per_ip hd !! ip)
             = at_level now (pcap cfg) (f_of_uint (Z.max (per_ip_rps cfg) 1)) (k ip);
  lv_k ip : 0 ≤ k ip ≤ pcap cfg;
}.

Lemma cap_range z : is_u32 z → 1 ≤ Z.max z 1 ≤ u32_max.
Proof. rewrite /is_u32 /u32_max. lia. Qed.

Lemma rate_pos z : is_u32 z → 0 < f_of_uint (Z.max z 1).
Proof.
  intros Hz%cap_range. pose proof f_one_pos. rewrite f_of_uint_exact; [nia|].
  apply u32_fits_53. lia.
Qed.

Lemma levels_new : levels (hd_new now cfg) (gcap cfg) (λ _, pcap cfg).
Proof.
  destruct Htyped as (Hg & _ & Hp & _).
  pose proof (cap_range _ Hg). pose proof (cap_range _ Hp).
  split; cbn [hd_cfg hd_global hd_per_ip hd_new]; [done|by apply lb_new_level| | |].
  { rewrite /gcap. lia. }
  2:{ rewrite /pcap. lia. }
  intros ip. rewrite lookup_empty /=. by apply lb_new_level.
Qed.

(** What the cleanup leaves was there; it leaves all while the map is small. *)
Lemma trim_sub reentrant guard m m' :
  trim reentrant guard cfg ck m = Some m' →
  (∀ ip, m' !! ip = m !! ip ∨ m' !! ip = None) ∧ (Z.of_nat (size m) ≤ max_ip_entries cfg → m' = m)
  ∧ (size m' ≤ size m)%nat.
Proof using Type.
  rewrite /trim /ip_len /ip_retain. destruct (locks_all _ _); [|done].
  destruct (_ <? _) eqn:E; unbool; [|intros [= <-]; split_and!; [by left|done|done]].
  destruct (_ <? 10); [|intros [= <-]; split_and!; [by left|done|done]].
  intros [= <-]. split_and!; [|lia|by apply map_subseteq_size, map_filter_subseteq].
  intros ip. rewrite map_lookup_filter. destruct (m !! ip); cbn; [|by left].
  destruct (decide (negb (ck_entry ck ip mod 10 =? 0) = true)); [rewrite option_guard_True //; by left|].
  rewrite option_guard_False //. by right.
Qed.

Abbreviation level k := (at_level now (pcap cfg) (f_of_uint (Z.max (per_ip_rps cfg) 1)) k).

(** A bucket that is not there counts as full. *)
Lemma levels_table hd g k g' m (k1 : IpAddr → Z) :
  levels hd g k → 0 ≤ g' ≤ gcap cfg →
  (∀ ip, 0 ≤ k1 ip ≤ pcap cfg) →
  (∀ ip, m !! ip = Some (level (k1 ip)) ∨ m !! ip = None ∧ k1 ip = pcap cfg) →
  levels (mkDefender cfg (at_level now (gcap cfg) (f_of_uint (Z.max (global_rps cfg) 1)) g') m) g' k1.
Proof using Htyped.
  intros _ Hg Hk Hm. destruct Htyped as (_ & _ & Htp & _). split; cbn; [done|done|done| |done].
  intros ip. destruct (Hm ip) as [->|[-> ->]]; [done|]. cbn. by apply lb_new_level.
Qed.

(** One handshake takes a token of the global bucket if there is one, and
    only then one of the address; it is admitted only if it got both.  The cleanup may fill up
    the buckets of other addresses, but only in a map over its size. *)
Lemma check_levels reentrant hd g k ip :
  levels hd g k →
  let taken := (1 <=? g) && (1 <=? k ip) in
  let '(res, hd') := check reentrant ck hd ip in
  (admit_of (ip, res) = true → taken = true)
  ∧ (taken = false → ∃ ra, res = Some (Err ra))
  ∧ (size (hd_per_ip hd') ≤ S (size (hd_per_ip hd)))%nat
  ∧ ∃ k', levels hd' (if 1 <=? g then g - 1 else g) k'
    ∧ (Z.of_nat (S (size (hd_per_ip hd))) ≤ max_ip_entries cfg →
       ∀ ip', k' ip' = if decide (ip' = ip ∧ taken = true) then k ip' - 1 else k ip').
Proof using All.
  intros Hlv taken. pose proof Hlv as [Hcfg Hgl Hg Hip Hk]. destruct Hck as (Hc1 & Hc2 & Hc3).
  destruct Htyped as (Htg & Htr & Htp & Htq).
  rewrite /check Hcfg Hen Hgl Hc1. cbn [negb].
  destruct (lb_take_level now (gcap cfg) _ g (rate_pos _ Htr) Hg (cap_range _ Htg)) as (ra & _ & ->).
  rewrite /taken. destruct (1 <=? g) eqn:Eg; cbn [andb]; last first.
  { split_and!; [done|by eauto|cbn; lia|]. exists k. split; [by split|]. intros _ ip'. rewrite decide_False //. naive_solver. }
  unbool. rewrite /ip_entry. cbv beta iota zeta. rewrite Hc2 Hc3 Hip.
  destruct (lb_take_level now (pcap cfg) _ (k ip) (rate_pos _ Htq) (Hk ip) (cap_range _ Htp)) as (rb & _ & ->).
  assert (∀ b, size (<[ip := b]> (hd_per_ip hd)) ≤ S (size (hd_per_ip hd)))%nat as Hins.
  { intros b. rewrite map_size_insert. destruct (hd_per_ip hd !! ip); cbn; lia. }
  assert (∀ n ip', 0 ≤ n ≤ pcap cfg → let k1 := λ ip', if decide (ip' = ip) then n else k ip' in
    <[ip := level n]> (hd_per_ip hd) !! ip' = Some (level (k1 ip'))
    ∨ <[ip := level n]> (hd_per_ip hd) !! ip' = None ∧ k1 ip' = pcap cfg) as Htab.
  { intros n ip' Hn. rewrite lookup_insert. cbn zeta. destruct (decide (ip = ip')) as [<-|Hne].
    - left. rewrite decide_True //.
    - rewrite (decide_False (P := ip' = ip)) //. specialize (Hip ip').
      destruct (hd_per_ip hd !! ip') as [b|]; cbn in Hip; [left; by rewrite Hip|right]. split; [done|].
      rewrite lb_new_level // in Hip. injection Hip as E. pose proof f_one_pos. rewrite /pcap. nia. }
  assert (∀ n ip', 0 ≤ n ≤ pcap cfg → 0 ≤ (if decide (ip' = ip) then n else k ip') ≤ pcap cfg) as Hrange.
  { intros n ip' Hn. case_decide; [done|apply Hk]. }
  destruct (1 <=? k ip) eqn:Ek; unbool; rewrite insert_insert_eq; last first.
  { split_and!; [done|by eauto|apply Hins|]. eexists. split; [apply (levels_table hd g k); [done|lia|by intros; apply Hrange, Hk|by intros; apply Htab, Hk]|].
    intros _ ip'. cbn. repeat case_decide; naive_solver. }
  pose proof (Hk ip) as Hkip.
  destruct (trim _ _ _ _ _) as [m'|] eqn:Etrim; cbn [hd_per_ip].
  - destruct (trim_sub _ _ _ _ Etrim) as (Hsub & Hall & Hsz).
    split_and!; [done|done|etransitivity; [exact Hsz|apply Hins]|].
    exists (λ ip', match m' !! ip' with Some _ => if decide (ip' = ip) then k ip - 1 else k ip' | None => pcap cfg end).
    split.
    + apply (levels_table hd g k); [done|lia| |].
      * intros ip'. destruct (m' !! ip'); [apply Hrange; lia|]. pose proof (Hk ip'). lia.
      * intros ip'. destruct (m' !! ip') as [b|] eqn:Em; [left|by right].
        destruct (Hsub ip') as [E|E]; [|congruence]. rewrite Em in E.
        destruct (Htab (k ip - 1) ip' ltac:(lia)) as [E'|[E' _]]; congruence.
    + intros Hsmall ip'. specialize (Hins (level (k ip - 1))). rewrite Hall; [|lia].
      destruct (Htab (k ip - 1) ip' ltac:(lia)) as [->|[-> E]].
      * repeat case_decide; naive_solver.
      * repeat case_decide; naive_solver.
  - split_and!; [done|done|apply Hins|]. eexists.
    split; [apply (levels_table hd g k); [done|lia|intros ip'; apply (Hrange (k ip - 1)); lia|intros ip'; apply (Htab (k ip - 1)); lia]|].
    intros _ ip'. cbn. repeat case_decide; naive_solver.
Qed.

Lemma admitted_cons ip res rs :
  admitted ((ip, res) :: rs) = (if admit_of (ip, res) then 1 else 0) + admitted rs.
Proof. rewrite /admitted. cbn [List.filter]. destruct (admit_of _); cbn [length]; lia. Qed.

Lemma admitted_from_cons ip' ip res rs :
  admitted_from ip' ((ip, res) :: rs)
  = (if decide (ip' = ip ∧ admit_of (ip, res) = true) then 1 else 0) + admitted_from ip' rs.
Proof.
  rewrite /admitted_from. cbn [List.filter fst]. destruct (decide (ip' = ip)) as [->|Hne].
  - rewrite bool_decide_true // andb_true_l. destruct (admit_of _); cbn [length]; repeat case_decide; naive_solver lia.
  - rewrite bool_decide_false // andb_false_l. repeat case_decide; naive_solver lia.
Qed.

(** A burst takes from the global bucket with every handshake that it can
    still serve, and admits no more than there was. *)
Lemma hd_run_levels reentrant ips hd g k :
  levels hd g k →
  let '(rs, hd') := hd_run reentrant ck hd ips in
  admitted rs ≤ g
  ∧ (Z.of_nat (length ips + size (hd_per_ip hd)) ≤ max_ip_entries cfg → ∀ ip, admitted_from ip rs ≤ k ip)
  ∧ (∃ k', levels hd' (Z.max 0 (g - Z.of_nat (length ips))) k').
Proof using All.
  revert hd g k. induction ips as [|ip ips IH]; intros hd g k Hlv; cbn [hd_run].
  - pose proof (lv_g _ _ _ Hlv). change (admitted []) with 0. split_and!; [lia| |].
    + intros _ ip. pose proof (lv_k _ _ _ Hlv ip). change (admitted_from ip []) with 0. lia.
    + exists k. cbn [length]. replace (Z.max 0 (g - Z.of_nat 0)) with g by lia. done.
  - pose proof (check_levels reentrant hd g k ip Hlv) as Hc. destruct (check reentrant ck hd ip) as [res hd1].
    destruct Hc as (Htaken & _ & Hsz1 & k1 & Hlv1 & Hk1).
    specialize (IH hd1 _ k1 Hlv1). destruct (hd_run reentrant ck hd1 ips) as [rs hd2]. destruct IH as (IH1 & IH2 & [k2 IH3]).
    split_and!.
    + rewrite admitted_cons. revert IH1 Htaken. generalize (admitted rs). intros a.
      destruct (1 <=? g), (1 <=? k ip), (admit_of (ip, res)); cbn [andb]; intros; try lia; try by specialize (Htaken eq_refl).
    + intros Hsz ip'. cbn [length] in Hsz. rewrite admitted_from_cons. specialize (IH2 ltac:(lia) ip').
      rewrite (Hk1 ltac:(lia)) in IH2. revert IH2. repeat case_decide; naive_solver lia.
    + exists k2. cbn [length]. destruct (1 <=? g) eqn:Eg; unbool.
      * by replace (Z.max 0 (g - Z.of_nat (S (length ips))))
          with (Z.max 0 (g - 1 - Z.of_nat (length ips))) by lia.
      * pose proof (lv_g _ _ _ Hlv1). by replace (Z.max 0 (g - Z.of_nat (S (length ips))))
          with (Z.max 0 (g - Z.of_nat (length ips))) by lia.
Qed.
End burst.

(** The answers are about the addresses that asked. *)
Lemma hd_run_only reentrant ck n hd ip : Forall (λ x, x.1 = ip) (fst (hd_run reentrant ck hd (replicate n ip))).
Proof.
  revert hd. induction n as [|n IH]; intros hd; cbn [replicate hd_run]; [constructor|].
  destruct (check reentrant ck hd ip) as [res hd1]. specialize (IH hd1).
  destruct (hd_run _ _ _ _) as [rs hd2]. by constructor.
Qed.

(** C36: the limits hold under a burst. Of any number of handshakes from any
    addresses at one reading of the clock, a defender that has just started admits at most the
    global burst in all, whether its table is trimmed or not; and, if the handshakes are not more than the
    addresses it may track (the trimming forgets what an address has used), at most the per-address burst from each address
    (a burst of zero counts as one). *)
Theorem defender_burst_limits reentrant now ck cfg ips :
  ck_global ck = now ∧ ck_create ck = now ∧ ck_ip ck = now → cfg_typed cfg →
  hs_enabled cfg = true →
  let rs := fst (hd_run reentrant ck (hd_new now cfg) ips) in
  admitted rs ≤ gcap cfg
  ∧ (Z.of_nat (length ips) ≤ max_ip_entries cfg → ∀ ip, admitted_from ip rs ≤ pcap cfg).
Proof.
  intros Hck Hty Hen.
  pose proof (hd_run_levels now ck cfg Hck Hty Hen reentrant ips _ _ _ (levels_new now cfg Hty)) as Hrun.
  cbn [hd_new hd_per_ip] in Hrun. rewrite map_size_empty Nat.add_0_r in Hrun.
  destruct (hd_run _ _ _ _) as [rs hd']. cbn [fst]. naive_solver.
Qed.

Lemma defender_burst_limits_witness :
  let cfg := mkHandshakeConfig true 3 1 2 1 10 in
  let ck := mkClocks 5 5 5 0 (λ _, 0) in
  let rs := fst (hd_run true ck (hd_new 5 cfg) [V4 1; V4 1; V4 1; V4 2; V4 2]) in
  admitted rs ≤ 3 ∧ ∀ ip, admitted_from ip rs ≤ 2.
Proof.
  destruct (defender_burst_limits true 5 (mkClocks 5 5 5 0 (λ _, 0)) (mkHandshakeConfig true 3 1 2 1 10)
           [V4 1; V4 1; V4 1; V4 2; V4 2]) as [Hg Hp]; [done| |done|].
  - by repeat split.
  - split; [exact Hg|]. by apply Hp.
Defined.

(** C38: one address can starve all the others. A defender has just started. The defender charges the
    global bucket before it looks at the address, so refused handshakes count
    too: after as many handshakes from one address as the global burst, at one
    reading of the clock, the first handshake of any other address is
    refused, although the per-address limit admitted only a few. *)
Theorem one_address_starves_all reentrant now ck cfg ip ip' :
  ck_global ck = now ∧ ck_create ck = now ∧ ck_ip ck = now → cfg_typed cfg →
  hs_enabled cfg = true → gcap cfg < max_ip_entries cfg → ip' ≠ ip →
  let '(rs, hd) := hd_run reentrant ck (hd_new now cfg) (replicate (Z.to_nat (gcap cfg)) ip) in
  admitted_from ip rs ≤ pcap cfg
  ∧ (∃ ra, fst (check reentrant ck hd ip') = Some (Err ra))
  ∧ admitted_from ip' rs = 0.
Proof.
  intros Hck Hty Hen Hsz Hne.
  pose proof (cap_range _ (proj1 Hty)) as Hg. fold (gcap cfg) in Hg.
  pose proof (hd_run_levels now ck cfg Hck Hty Hen reentrant (replicate (Z.to_nat (gcap cfg)) ip) _ _ _
                (levels_new now cfg Hty)) as Hrun.
  cbn [hd_new hd_per_ip] in Hrun. rewrite map_size_empty Nat.add_0_r length_replicate in Hrun.
  pose proof (hd_run_only reentrant ck (Z.to_nat (gcap cfg)) (hd_new now cfg) ip) as Honly.
  destruct (hd_run _ _ _ _) as [rs hd]. destruct Hrun as (_ & Hfrom & [k' Hlv]). split_and!.
  - apply Hfrom. lia.
  - replace (Z.max 0 _) with 0 in Hlv by lia.
    pose proof (check_levels now ck cfg Hck Hty Hen reentrant hd 0 k' ip' Hlv) as Hc.
    destruct (check _ _ _ _) as [res hd']. destruct Hc as (_ & Href & _). by apply Href.
  - cbn [fst] in Honly. rewrite /admitted_from.
    replace (List.filter _ rs) with (@nil (IpAddr * option (result Z unit))); [done|].
    clear -Honly Hne. induction Honly as [|x rs Hx _ IH]; [done|]. cbn [List.filter].
    rewrite Hx bool_decide_false; [exact IH|done].
Qed.

Lemma one_address_starves_all_witness :
  let cfg := mkHandshakeConfig true 3 1 2 1 10 in
  let ck := mkClocks 5 5 5 0 (λ _, 0) in
  let '(rs, hd) := hd_run true ck (hd_new 5 cfg) [V4 1; V4 1; V4 1] in
  admitted_from (V4 1) rs ≤ 2
  ∧ (∃ ra, fst (check true ck hd (V4 2)) = Some (Err ra))
  ∧ admitted_from (V4 2) rs = 0.
Proof.
  refine (one_address_starves_all true 5 (mkClocks 5 5 5 0 (λ _, 0)) (mkHandshakeConfig true 3 1 2 1 10)
           (V4 1) (V4 2) _ _ _ _ _); [done| |done|done|done].
  by repeat split.
Defined.

(** ** The guard that is held *)

(** A full bucket has a token at every later reading of the clock. *)
Lemma lb_take_full now later capacity rate :
  0 ≤ capacity ≤ u32_max → 0 ≤ rate ≤ u32_max →
  fst (lb_try_take later 1 (lb_new now capacity rate)) = Ok tt.
Proof.
  intros Hc Hr. pose proof f_one_pos as H1. pose proof (cap_range _ Hc) as Hcap.
  pose proof (rate_pos _ Hr) as Hrate. rewrite lb_new_level // /lb_try_take. cbn [lb_refill at_level lb_tokens lb_capacity].
  rewrite (f_of_uint_exact 1) // (f_of_uint_exact (Z.max capacity 1)); [|apply u32_fits_53; lia]. rewrite Z.mul_1_l.
  set (add := f_mul _ _). assert (0 ≤ add) as Hadd.
  { apply round64_nonneg; [|done]. apply Z.mul_nonneg_nonneg; [apply as_secs_f64_nonneg; lia|cbn; lia]. }
  assert (Z.max capacity 1 * f_one ≤ f_add (Z.max capacity 1 * f_one) add) as Hge.
  { apply round64_ge; [apply u32_fits_53; lia|lia]. }
  rewrite (Z.min_r _ _ Hge). by rewrite (proj2 (Z.leb_le _ _)); [|nia].
Qed.

(** C37: an enabled defender admits nobody, if [dashmap] locks as it says. [check] keeps the guard of the address's entry, a mutable reference into the map,
    until it returns, and asks for the length of the map in between; [dashmap]'s documentation says that
    [len] may deadlock when called while holding a mutable reference into the map.  If it does, then in every state of the defender and
    at every reading of the clocks, no handshake is admitted: [check] refuses, or does not return.  The first handshake after the start does
    not return, whenever it comes and whatever the configured limits. *)
Theorem enabled_defender_blocks ck hd ip now :
  hs_enabled (hd_cfg hd) = true →
  fst (check false ck hd ip) ≠ Some (Ok tt)
  ∧ (hd = hd_new now (hd_cfg hd) → cfg_typed (hd_cfg hd) → fst (check false ck hd ip) = None).
Proof.
  intros Hen. rewrite /check Hen. cbn [negb]. split.
  - destruct (lb_try_take _ _ _) as [[[]|ra] g]; [|done]. unfold ip_entry. cbv iota beta zeta.
    by destruct (lb_try_take _ _ _) as [[[]|rb] b].
  - intros Ehd (Htg & Htr & Htp & Htq). rewrite Ehd. cbn [hd_new hd_global hd_per_ip hd_cfg].
    pose proof (lb_take_full now (ck_global ck) (global_burst (hd_cfg hd)) (global_rps (hd_cfg hd)) Htg Htr) as Hg.
    destruct (lb_try_take _ _ _) as [res g]. cbn in Hg. subst res. rewrite /ip_entry lookup_empty. cbn [default].
    pose proof (lb_take_full (ck_create ck) (ck_ip ck) (per_ip_burst (hd_cfg hd)) (per_ip_rps (hd_cfg hd)) Htp Htq) as Hp.
    destruct (lb_try_take _ _ _) as [res b]. cbn in Hp. by subst res.
Qed.

Lemma enabled_defender_blocks_witness :
  fst (check false (mkClocks 5000 6000 7000 0 (λ _, 0)) (hd_new 5 (mkHandshakeConfig true 1000 500 20 10 50000))
         (V4 1)) = None.
Proof.
  apply (enabled_defender_blocks (mkClocks 5000 6000 7000 0 (λ _, 0)) (hd_new 5
           (mkHandshakeConfig true 1000 500 20 10 50000)) (V4 1) 5); [done|done|]. by repeat split.
Defined.
