(* ===== verification/Metrics.v ===== *)
(** * Metrics ([wsprism-gateway/src/obs/metrics.rs])

    Counters, gauges and histograms by label set, and their rendering in the
    Prometheus text format.  A label set is kept sorted, so that the order in
    which a caller lists its labels does not matter. *)

From Stdlib Require Import OrdersEx.
From stdpp Require Import sorting.
From S2P Require Import Prelude RustStd Dash.

(** ** Label sets *)

Abbreviation labels := (list (string * string)).

(** The order of pairs of strings: bytes, lexicographically. *)
Definition label_cmp (a b : string * string) : comparison :=
  match String_as_OT.compare a.1 b.1 with
  | Eq => String_as_OT.compare a.2 b.2
  | c => c
  end.

Definition label_le (a b : string * string) : Prop := label_cmp a b ≠ Gt.

#[export] Instance label_le_dec a b : Decision (label_le a b).
Proof. rewrite /label_le. destruct (label_cmp a b); [left|left|right]; naive_solver. Defined.

(** [key.sort()]. *)
Definition sort_labels (l : labels) : labels := merge_sort label_le l.

(** ** Counters and gauges *)

Abbreviation CounterVec := (gmap labels Z).
Abbreviation GaugeVec := (gmap labels Z).

(** [CounterVec::add]; [fetch_add] wraps. *)
Definition counter_add (m : CounterVec) (l : labels) (v : Z) : CounterVec :=
  let key := sort_labels l in <[key := wrap64 (default 0 (m !! key) + v)]> m.

(** [CounterVec::inc]. *)
Definition counter_inc (m : CounterVec) (l : labels) : CounterVec := counter_add m l 1.

(** [i64] with its wrap-around. *)
Definition wrap_i64 (z : Z) : Z := (z + 9223372036854775808) mod 18446744073709551616 - 9223372036854775808.

(** [GaugeVec::add], [inc] and [dec]. *)
Definition gauge_add (m : GaugeVec) (l : labels) (v : Z) : GaugeVec :=
  let key := sort_labels l in <[key := wrap_i64 (default 0 (m !! key) + v)]> m.
Definition gauge_inc (m : GaugeVec) (l : labels) : GaugeVec := gauge_add m l 1.
Definition gauge_dec (m : GaugeVec) (l : labels) : GaugeVec := gauge_add m l (-1).

(** ** Histograms *)

Definition BUCKETS_MICROS : list Z := [100; 500; 1000; 5000; 10000; 50000; 100000; 500000; 1000000].

Record AtomicHistogram := mkHistogram { h_count : Z; h_sum : Z; h_buckets : list Z }.

Definition histogram_default : AtomicHistogram := mkHistogram 0 0 [0; 0; 0; 0; 0; 0; 0; 0; 0].

Abbreviation HistogramVec := (gmap labels AtomicHistogram).

(** What one observation does to its histogram: [micros <= b] increments the
    bucket of [b]. *)
Definition hist_record (micros : Z) (h : AtomicHistogram) : AtomicHistogram :=
  mkHistogram (wrap64 (h_count h + 1)) (wrap64 (h_sum h + micros))
    (zip_with (λ b c, if micros <=? b then wrap64 (c + 1) else c) BUCKETS_MICROS (h_buckets h)).

(** [duration.as_micros() as u64], of a duration in nanoseconds. *)
Definition micros_of (ns : Z) : Z := wrap64 (ns / 1000).

(** [HistogramVec::observe]. *)
Definition observe (m : HistogramVec) (l : labels) (ns : Z) : HistogramVec :=
  let key := sort_labels l in
  <[key := hist_record (micros_of ns) (default histogram_default (m !! key))]> m.

(** ** Rendering *)

(** The characters that a literal would have to escape. *)
Definition ch_quote : ascii := ascii_of_nat 34.
Definition ch_backslash : ascii := ascii_of_nat 92.
Definition ch_newline : ascii := ascii_of_nat 10.
Definition quote : string := String ch_quote EmptyString.
Definition nl : string := String ch_newline EmptyString.

(** [str::replace] of one character. *)
Fixpoint replace_char (c : ascii) (rep : string) (s : string) : string :=
  match s with
  | EmptyString => EmptyString
  | String a s' =>
      if bool_decide (a = c) then rep +:+ replace_char c rep s'
      else String a (replace_char c rep s')
  end.

(** [escape_label]: three passes. *)
Definition escape_label (v : string) : string :=
  replace_char ch_newline (String ch_backslash "n")
    (replace_char ch_quote (String ch_backslash quote)
       (replace_char ch_backslash (String ch_backslash (String ch_backslash EmptyString)) v)).

(** [join(",")]. *)
Definition join_comma (l : list string) : string :=
  match l with
  | [] => EmptyString
  | x :: l => foldl (λ acc y, acc +:+ "," +:+ y) x l
  end.

(** [key="value",...]. *)
Definition label_str (key : labels) : string :=
  join_comma ((λ '(k, v), k +:+ "=" +:+ quote +:+ escape_label v +:+ quote) <$> key).

(** The string has none of the characters. *)
Fixpoint free_of (bad : list ascii) (s : string) : bool :=
  match s with
  | EmptyString => true
  | String a s => negb (bool_decide (a ∈ bad)) && free_of bad s
  end.

(** The names of labels are words. *)
Definition plain_key (k : string) : bool := free_of ["="; "}"; ","; " "; ch_quote; ch_newline]%char k.
Definition plain_labels (l : labels) : bool := forallb (λ kv, plain_key kv.1) l.

Section render.
Context `{!DashOrder}.

(** The lines of a counter or a gauge. *)
Definition render_lines (kind name : string) (m : gmap labels Z) : string :=
  foldl (λ out '(key, val), out +:+ name +:+ "{" +:+ label_str key +:+ "} " +:+ pretty val +:+ nl)
    ("# TYPE " +:+ name +:+ " " +:+ kind +:+ nl) (dm_iter m).

(** [CounterVec::render] and [GaugeVec::render]. *)
Definition counter_render : string → CounterVec → string := render_lines "counter".
Definition gauge_render : string → GaugeVec → string := render_lines "gauge".

(** The lines of one histogram. *)
Definition hist_lines (name : string) (key : labels) (h : AtomicHistogram) : string :=
  let ls := label_str key in
  let prefix := if bool_decide (ls = EmptyString) then EmptyString else ls +:+ "," in
  let bucket le c := name +:+ "_bucket{" +:+ prefix +:+ "le=" +:+ quote +:+ le +:+ quote +:+ "} "
                       +:+ pretty c +:+ nl in
  foldr (λ x s, x +:+ s) EmptyString (zip_with (λ b c, bucket (pretty b) c) BUCKETS_MICROS (h_buckets h))
  +:+ bucket "+Inf" (h_count h)
  +:+ name +:+ "_sum{" +:+ ls +:+ "} " +:+ pretty (h_sum h) +:+ nl
  +:+ name +:+ "_count{" +:+ ls +:+ "} " +:+ pretty (h_count h) +:+ nl.

(** [HistogramVec::render]. *)
Definition histogram_render (name : string) (m : HistogramVec) : string :=
  foldl (λ out '(key, h), out +:+ hist_lines name key h)
    ("# TYPE " +:+ name +:+ " histogram" +:+ nl) (dm_iter m).
End render.

(** ** The registry of the gateway *)

Record GatewayMetrics := mkMetrics {
  ws_upgrades : CounterVec;
  ws_active_sessions : GaugeVec;
  policy_decisions : CounterVec;
  handshake_rejections : CounterVec;
  dispatch_duration : HistogramVec;
  decode_errors : CounterVec;
  service_errors : CounterVec;
  writer_timeouts : CounterVec;
  unknown_service_errors : CounterVec;
  draining : bool;
}.

Definition metrics_default : GatewayMetrics := mkMetrics ∅ ∅ ∅ ∅ ∅ ∅ ∅ ∅ ∅ false.

(** [set_draining]. *)
Definition set_draining (g : GatewayMetrics) : GatewayMetrics :=
  mkMetrics (ws_upgrades g) (ws_active_sessions g) (policy_decisions g) (handshake_rejections g)
    (dispatch_duration g) (decode_errors g) (service_errors g) (writer_timeouts g)
    (unknown_service_errors g) true.

(** The updates that the transport makes. *)
Definition inc_upgrades (g : GatewayMetrics) (l : labels) : GatewayMetrics :=
  mkMetrics (counter_inc (ws_upgrades g) l) (ws_active_sessions g) (policy_decisions g)
    (handshake_rejections g) (dispatch_duration g) (decode_errors g) (service_errors g)
    (writer_timeouts g) (unknown_service_errors g) (draining g).
Definition add_sessions (g : GatewayMetrics) (l : labels) (v : Z) : GatewayMetrics :=
  mkMetrics (ws_upgrades g) (gauge_add (ws_active_sessions g) l v) (policy_decisions g)
    (handshake_rejections g) (dispatch_duration g) (decode_errors g) (service_errors g)
    (writer_timeouts g) (unknown_service_errors g) (draining g).
Definition inc_decisions (g : GatewayMetrics) (l : labels) : GatewayMetrics :=
  mkMetrics (ws_upgrades g) (ws_active_sessions g) (counter_inc (policy_decisions g) l)
    (handshake_rejections g) (dispatch_duration g) (decode_errors g) (service_errors g)
    (writer_timeouts g) (unknown_service_errors g) (draining g).
Definition inc_rejections (g : GatewayMetrics) (l : labels) : GatewayMetrics :=
  mkMetrics (ws_upgrades g) (ws_active_sessions g) (policy_decisions g)
    (counter_inc (handshake_rejections g) l) (dispatch_duration g) (decode_errors g)
    (service_errors g) (writer_timeouts g) (unknown_service_errors g) (draining g).
Definition observe_dispatch (g : GatewayMetrics) (l : labels) (ns : Z) : GatewayMetrics :=
  mkMetrics (ws_upgrades g) (ws_active_sessions g) (policy_decisions g) (handshake_rejections g)
    (observe (dispatch_duration g) l ns) (decode_errors g) (service_errors g) (writer_timeouts g)
    (unknown_service_errors g) (draining g).
Definition inc_decode_errors (g : GatewayMetrics) (l : labels) : GatewayMetrics :=
  mkMetrics (ws_upgrades g) (ws_active_sessions g) (policy_decisions g) (handshake_rejections g)
    (dispatch_duration g) (counter_inc (decode_errors g) l) (service_errors g) (writer_timeouts g)
    (unknown_service_errors g) (draining g).
Definition inc_service_errors (g : GatewayMetrics) (l : labels) : GatewayMetrics :=
  mkMetrics (ws_upgrades g) (ws_active_sessions g) (policy_decisions g) (handshake_rejections g)
    (dispatch_duration g) (decode_errors g) (counter_inc (service_errors g) l) (writer_timeouts g)
    (unknown_service_errors g) (draining g).
Definition inc_writer_timeouts (g : GatewayMetrics) (l : labels) : GatewayMetrics :=
  mkMetrics (ws_upgrades g) (ws_active_sessions g) (policy_decisions g) (handshake_rejections g)
    (dispatch_duration g) (decode_errors g) (service_errors g) (counter_inc (writer_timeouts g) l)
    (unknown_service_errors g) (draining g).

(** [GatewayMetrics::render]. *)
Definition metrics_render `{!DashOrder} (g : GatewayMetrics) (extra : list (string * Z)) : string :=
  counter_render "wsprism_ws_upgrades_total" (ws_upgrades g)
  +:+ gauge_render "wsprism_ws_sessions_active" (ws_active_sessions g)
  +:+ counter_render "wsprism_policy_decisions_total" (policy_decisions g)
  +:+ counter_render "wsprism_handshake_rejections_total" (handshake_rejections g)
  +:+ histogram_render "wsprism_dispatch_duration_micros" (dispatch_duration g)
  +:+ counter_render "wsprism_decode_errors_total" (decode_errors g)
  +:+ counter_render "wsprism_service_errors_total" (service_errors g)
  +:+ counter_render "wsprism_writer_timeouts_total" (writer_timeouts g)
  +:+ counter_render "wsprism_unknown_service_total" (unknown_service_errors g)
  +:+ "# TYPE wsprism_draining gauge" +:+ nl
  +:+ "wsprism_draining " +:+ (if draining g then "1" else "0") +:+ nl
  +:+ foldr (λ '(k, v) s, k +:+ " " +:+ pretty v +:+ nl +:+ s) EmptyString extra.

(** ** Label sets do not depend on the order of the labels *)

Lemma str_cmp_eq a b : String_as_OT.compare a b = Eq ↔ a = b.
Proof.
  destruct (String_as_OT.compare_spec a b) as [H|H|H]; split; try done.
  - intros ->. by destruct (StrictOrder_Irreflexive (R := String_as_OT.lt) b).
  - intros ->. by destruct (StrictOrder_Irreflexive (R := String_as_OT.lt) b).
Qed.

Lemma str_lt_irrefl a b : String_as_OT.lt a b → String_as_OT.lt b a → False.
Proof.
  intros H H'. apply (StrictOrder_Irreflexive (R := String_as_OT.lt) a).
  by apply (StrictOrder_Transitive (R := String_as_OT.lt) a b a).
Qed.

Lemma str_cmp_flip a b : String_as_OT.compare b a = CompOpp (String_as_OT.compare a b).
Proof.
  destruct (String_as_OT.compare_spec a b) as [H|H|H].
  - rewrite H. by apply str_cmp_eq.
  - destruct (String_as_OT.compare_spec b a) as [H'|H'|H']; [|by destruct (str_lt_irrefl a b)|done].
    rewrite H' in H. by destruct (str_lt_irrefl a a).
  - destruct (String_as_OT.compare_spec b a) as [H'|H'|H']; [|done|by destruct (str_lt_irrefl a b)].
    rewrite H' in H. by destruct (str_lt_irrefl a a).
Qed.

Lemma str_cmp_trans a b c :
  String_as_OT.compare a b = Lt → String_as_OT.compare b c = Lt → String_as_OT.compare a c = Lt.
Proof. apply (StrictOrder_Transitive (R := String_as_OT.lt)). Qed.

Lemma label_cmp_flip a b : label_cmp b a = CompOpp (label_cmp a b).
Proof.
  rewrite /label_cmp (str_cmp_flip a.1) (str_cmp_flip a.2).
  by destruct (String_as_OT.compare a.1 b.1).
Qed.

#[export] Instance label_le_total : Total label_le.
Proof.
  intros a b. rewrite /label_le (label_cmp_flip a b). destruct (label_cmp a b); [left|left|right]; done.
Qed.

#[export] Instance label_le_antisymm : AntiSymm (=) label_le.
Proof.
  intros [a1 a2] [b1 b2]. rewrite /label_le (label_cmp_flip (a1, a2)) /label_cmp /=.
  destruct (String_as_OT.compare a1 b1) eqn:E1; try done. apply str_cmp_eq in E1 as ->.
  destruct (String_as_OT.compare a2 b2) eqn:E2; try done. by apply str_cmp_eq in E2 as ->.
Qed.

#[export] Instance label_le_trans : Transitive label_le.
Proof.
  intros [a1 a2] [b1 b2] [c1 c2]. rewrite /label_le /label_cmp /=.
  destruct (String_as_OT.compare a1 b1) eqn:E1; [apply str_cmp_eq in E1 as ->| |done];
    destruct (String_as_OT.compare b1 c1) eqn:E2; try done.
  - destruct (String_as_OT.compare a2 b2) eqn:E3; [apply str_cmp_eq in E3 as ->; done| |done].
    destruct (String_as_OT.compare b2 c2) eqn:E4; [apply str_cmp_eq in E4 as ->| |done].
    + by rewrite E3.
    + by rewrite (str_cmp_trans a2 b2 c2).
  - apply str_cmp_eq in E2 as ->. by rewrite E1.
  - by rewrite (str_cmp_trans a1 b1 c1).
Qed.

Lemma sort_labels_perm l : sort_labels l ≡ₚ l.
Proof. apply merge_sort_Permutation. Qed.

(** Two label lists name the same series exactly when they hold the same labels. *)
Lemma sort_labels_eq l l' : sort_labels l = sort_labels l' ↔ l ≡ₚ l'.
Proof.
  split.
  - intros E. by rewrite -(sort_labels_perm l) -(sort_labels_perm l') E.
  - intros E. apply (Sorted_unique label_le); [apply Sorted_merge_sort, _..|].
    by rewrite !sort_labels_perm.
Qed.

(** ** What the numbers mean *)

#[export] Instance labels_perm_dec (l l' : labels) : Decision (l ≡ₚ l').
Proof.
  refine (cast_if (decide (sort_labels l = sort_labels l'))); by rewrite -sort_labels_eq.
Defined.

(** The events of the series of [l]: those with the same labels, in any order. *)
Definition series (l : labels) (evs : list (labels * Z)) : list Z :=
  snd <$> filter (λ e, e.1 ≡ₚ l) evs.

Definition sum_list (l : list Z) : Z := foldr Z.add 0 l.

Lemma series_cons l e evs :
  series l (e :: evs) = if decide (e.1 ≡ₚ l) then e.2 :: series l evs else series l evs.
Proof. rewrite /series filter_cons. by destruct (decide (e.1 ≡ₚ l)). Qed.

(** A fold over keyed updates acts on one key like a fold over its series. *)
Lemma foldl_series {A} (f : Z → A → A) (d : A) (evs : list (labels * Z)) (l : labels)
    (m : gmap labels A) :
  default d (foldl (λ m e, <[sort_labels e.1 := f e.2 (default d (m !! sort_labels e.1))]> m) m evs
             !! sort_labels l)
  = foldl (λ a v, f v a) (default d (m !! sort_labels l)) (series l evs).
Proof.
  revert m. induction evs as [|e evs IH]; intros m; [done|]. cbn [foldl]. rewrite IH series_cons.
  destruct (decide (e.1 ≡ₚ l)) as [E|E].
  - apply sort_labels_eq in E. by rewrite E lookup_insert_eq.
  - rewrite lookup_insert_ne //. by rewrite sort_labels_eq.
Qed.

(** Counters are exact. After any sequence of increments, the value of
    a series is the sum, modulo 2^64, of the increments whose labels are the
    same up to their order, and of no others. *)
Theorem counter_exact (evs : list (labels * Z)) (l : labels) :
  default 0 (foldl (λ m e, counter_add m e.1 e.2) ∅ evs !! sort_labels l)
  = wrap64 (sum_list (series l evs)).
Proof.
  rewrite /counter_add (foldl_series (λ v a, wrap64 (a + v)) 0) lookup_empty /=.
  assert (∀ a, is_u64 a → foldl (λ a v, wrap64 (a + v)) a (series l evs)
                          = wrap64 (a + sum_list (series l evs))) as Hgen; [|by apply Hgen].
  induction (series l evs) as [|v vs IH]; intros a Ha; cbn.
  - by rewrite Z.add_0_r wrap64_small.
  - rewrite IH; [|apply wrap64_range]. rewrite wrap64_add. f_equal. rewrite /sum_list. lia.
Qed.

(** The observations that a bound counts. *)
Definition count_le (b : Z) (obs : list Z) : Z := Z.of_nat (length (List.filter (λ v, v <=? b) obs)).

Lemma count_le_cons b v obs : count_le b (v :: obs) = (if v <=? b then 1 else 0) + count_le b obs.
Proof. rewrite /count_le. cbn [List.filter]. destruct (v <=? b); cbn [length]; lia. Qed.

Lemma buckets_step bounds cs v obs :
  zip_with (λ b c, wrap64 (c + count_le b obs)) bounds
    (zip_with (λ b c, if v <=? b then wrap64 (c + 1) else c) bounds cs)
  = zip_with (λ b c, wrap64 (c + count_le b (v :: obs))) bounds cs.
Proof.
  revert cs. induction bounds as [|b bounds IH]; intros [|c cs]; cbn [zip_with]; try done.
  f_equal; [|apply IH]. rewrite count_le_cons.
  destruct (v <=? b); rewrite ?wrap64_add; f_equal; lia.
Qed.

Lemma buckets_zero bounds cs :
  length bounds = length cs → Forall is_u64 cs →
  zip_with (λ b c, wrap64 (c + count_le b [])) bounds cs = cs.
Proof.
  revert cs. induction bounds as [|b bounds IH]; intros [|c cs] Hlen Hcs; try done.
  apply Forall_cons in Hcs as [? ?]. cbn [zip_with]. rewrite IH; [|by injection Hlen|done].
  by rewrite /count_le /= Z.add_0_r wrap64_small.
Qed.

Lemma buckets_typed bounds cs v :
  Forall is_u64 cs →
  Forall is_u64 (zip_with (λ b c, if v <=? b then wrap64 (c + 1) else c) bounds cs).
Proof.
  intros Hcs. revert bounds. induction Hcs as [|c cs Hc _ IH]; intros [|b bounds]; cbn; constructor; [|done].
  destruct (v <=? b); eauto with wsprism.
Qed.

(** What one series of observations makes of a histogram. *)
Lemma hist_fold obs h :
  length (h_buckets h) = 9%nat → is_u64 (h_count h) → is_u64 (h_sum h) →
  Forall is_u64 (h_buckets h) →
  foldl (λ h v, hist_record v h) h obs
  = mkHistogram (wrap64 (h_count h + Z.of_nat (length obs))) (wrap64 (h_sum h + sum_list obs))
      (zip_with (λ b c, wrap64 (c + count_le b obs)) BUCKETS_MICROS (h_buckets h)).
Proof.
  revert h. induction obs as [|v obs IH]; intros [c s bs] Hlen Hc Hs Hbs;
    cbn [foldl h_count h_sum h_buckets] in *.
  - by rewrite !Z.add_0_r !wrap64_small // buckets_zero.
  - rewrite IH; cbn [hist_record h_count h_sum h_buckets].
    + change (sum_list (v :: obs)) with (v + sum_list obs).
      rewrite !wrap64_add buckets_step Z.add_assoc. f_equal. f_equal. cbn [length]. lia.
    + by rewrite length_zip_with Hlen.
    + apply wrap64_range.
    + apply wrap64_range.
    + by apply buckets_typed.
Qed.

(** Histograms are exact. After any sequence of observations, the
    count, the sum and every bucket of a series are, modulo 2^64, those of the
    observations with its labels in any order, and the bucket of a bound counts
    the observations of at most that many microseconds, so that the buckets
    are cumulative. *)
Theorem histogram_exact (evs : list (labels * Z)) (l : labels) :
  let obs := micros_of <$> series l evs in
  default histogram_default (foldl (λ m e, observe m e.1 e.2) ∅ evs !! sort_labels l)
  = mkHistogram (wrap64 (Z.of_nat (length obs))) (wrap64 (sum_list obs))
      ((λ b, wrap64 (count_le b obs)) <$> BUCKETS_MICROS).
Proof.
  intros obs. rewrite /observe (foldl_series (λ ns h, hist_record (micros_of ns) h)) lookup_empty /=.
  rewrite -(foldl_fmap (λ h v, hist_record v h) _ _ micros_of) -/obs.
  rewrite hist_fold; [done|done|done|done|]. by repeat constructor.
Qed.

(** ** Label values survive rendering *)

(** How a reader of the text format undoes the escapes; raw quotes and
    newlines end a value, so they are errors here. *)
Fixpoint unescape (s : string) : option string :=
  match s with
  | EmptyString => Some EmptyString
  | String a s1 =>
      if bool_decide (a = ch_backslash) then
        match s1 with
        | EmptyString => None
        | String b s2 =>
            let c := if bool_decide (b = "n"%char) then Some ch_newline
                     else if bool_decide (b = ch_quote) then Some ch_quote
                     else if bool_decide (b = ch_backslash) then Some ch_backslash
                     else None in
            match c, unescape s2 with Some c, Some s => Some (String c s) | _, _ => None end
        end
      else if bool_decide (a = ch_quote ∨ a = ch_newline) then None
      else String a <$> unescape s1
  end.

Lemma replace_char_app c rep s t :
  replace_char c rep (s +:+ t) = replace_char c rep s +:+ replace_char c rep t.
Proof.
  induction s as [|a s IH]; [done|]. rewrite string_app_cons. cbn. rewrite IH.
  case_bool_decide; [by rewrite string_app_assoc|done].
Qed.

Lemma escape_label_cons a v :
  escape_label (String a v)
  = (if bool_decide (a = ch_backslash) then String ch_backslash (String ch_backslash EmptyString)
     else if bool_decide (a = ch_quote) then String ch_backslash quote
     else if bool_decide (a = ch_newline) then String ch_backslash "n"
     else String a EmptyString) +:+ escape_label v.
Proof.
  rewrite /escape_label. cbn [replace_char]. case_bool_decide as E1; [by rewrite !replace_char_app|].
  cbn [replace_char]. case_bool_decide as E2; [by rewrite !replace_char_app|].
  cbn [replace_char]. by case_bool_decide as E3.
Qed.

#[local] Arguments escape_label : simpl never.

(** Escaping is lossless. A reader that undoes the escapes of the text
    format gets back every label value, whatever characters it holds: no
    value can end its line or its quotes, and no two values look alike. *)
Theorem escape_label_roundtrip v : unescape (escape_label v) = Some v.
Proof.
  induction v as [|a v IH]; [done|]. rewrite escape_label_cons.
  case_bool_decide as E1; [subst a; by rewrite ?/quote !string_app_cons string_app_nil_l /= IH|].
  case_bool_decide as E2; [subst a; by rewrite ?/quote !string_app_cons string_app_nil_l /= IH|].
  case_bool_decide as E3; [subst a; by rewrite ?/quote !string_app_cons string_app_nil_l /= IH|].
  rewrite string_app_cons. cbn [unescape]. rewrite string_app_nil_l.
  rewrite !bool_decide_false //; [|by intros [|]]. by rewrite IH.
Qed.
