(* ===== verification/NetAddr.v ===== *)
(** * [str::parse::<SocketAddr>]

    The parser of socket addresses of Rust's standard library, which decides
    whether the gateway can start with the [listen] address of its
    configuration.  A parser takes the input left and, if it succeeds, gives
    a value and the rest; one that fails has consumed nothing. *)

From S2P Require Import Prelude RustStd Handshake.

Abbreviation parser A := (string → option (A * string)).

(** [read_given_char]. *)
Definition read_given_char (c : ascii) (s : string) : option string :=
  match s with
  | String a s' => if bool_decide (a = c) then Some s' else None
  | EmptyString => None
  end.

(** [char::to_digit], for a radix of 10 or 16. *)
Definition to_digit (radix : Z) (c : ascii) : option Z :=
  let n := byte_code c in
  let d := if (48 <=? n) && (n <=? 57) then n - 48
           else if (97 <=? n) && (n <=? 122) then n - 87
           else if (65 <=? n) && (n <=? 90) then n - 55
           else radix in
  if d <? radix then Some d else None.

(** The digits at the front: their value, their number, and the rest; none if
    there are more than [max_digits], or the value is beyond [max]. *)
Fixpoint read_digits (radix : Z) (max_digits : option nat) (max : Z) (acc : Z) (count : nat) (s : string)
    : option (Z * nat * string) :=
  match s with
  | EmptyString => Some (acc, count, s)
  | String c s' =>
      match to_digit radix c with
      | None => Some (acc, count, s)
      | Some d =>
          let acc := acc * radix + d in
          let count := S count in
          let over := match max_digits with
                      | Some m => (m <? count)%nat
                      | None => max <? acc
                      end in
          if over then None else read_digits radix max_digits max acc count s'
      end
  end.

(** [read_number]: at least one digit, no leading zero unless allowed, and a
    value that fits its type. *)
Definition read_number (radix : Z) (max_digits : option nat) (allow_zero_prefix : bool) (max : Z)
    : parser Z := λ s,
  let has_leading_zero := match s with String c _ => bool_decide (c = "0"%char) | EmptyString => false end in
  match read_digits radix max_digits max 0 0 s with
  | None => None
  | Some (v, count, rest) =>
      if (count =? 0)%nat then None
      else if negb allow_zero_prefix && has_leading_zero && (1 <? count)%nat then None
      else if max <? v then None
      else Some (v, rest)
  end.

(** [read_separator]: before every element but the first. *)
Definition read_separator {A} (sep : ascii) (i : nat) (p : parser A) : parser A := λ s,
  match i with
  | O => p s
  | S _ => match read_given_char sep s with Some s => p s | None => None end
  end.

(** [read_ipv4_addr], as the number of the address. *)
Definition read_ipv4_addr : parser Z := λ s,
  let octet i := read_separator "."%char i (read_number 10 (Some 3%nat) false u8_max) in
  match octet 0%nat s with
  | None => None
  | Some (a, s) =>
  match octet 1%nat s with
  | None => None
  | Some (b, s) =>
  match octet 2%nat s with
  | None => None
  | Some (c, s) =>
  match octet 3%nat s with
  | None => None
  | Some (d, s) => Some (((a * 256 + b) * 256 + c) * 256 + d, s)
  end end end end.

(** [read_groups]: up to [limit] groups of 16 bits from the [i]-th on, the last
    two perhaps as an IPv4 address; the groups, whether they end in one, and the
    rest. *)
Fixpoint read_groups (limit i : nat) (s : string) : list Z * bool * string :=
  match limit with
  | O => ([], false, s)
  | S limit =>
      let v4 := match limit with
                | O => None
                | S _ => read_separator ":"%char i read_ipv4_addr s
                end in
      match v4 with
      | Some (a, s) => ([a / 65536; a mod 65536], true, s)
      | None =>
          match read_separator ":"%char i (read_number 16 (Some 4%nat) true 65535) s with
          | Some (g, s) =>
              let '(gs, v4, s) := read_groups limit (S i) s in (g :: gs, v4, s)
          | None => ([], false, s)
          end
      end
  end.

(** The groups as one number. *)
Definition groups_value (gs : list Z) : Z := foldl (λ acc g, acc * 65536 + g) 0 gs.

(** [read_ipv6_addr]: eight groups, or fewer around a double colon. *)
Definition read_ipv6_addr : parser Z := λ s,
  let '(head, head_ipv4, s) := read_groups 8 0 s in
  if (length head =? 8)%nat then Some (groups_value head, s)
  else if head_ipv4 then None
  else match read_given_char ":"%char s with
  | None => None
  | Some s =>
  match read_given_char ":"%char s with
  | None => None
  | Some s =>
      let '(tail, _, s) := read_groups (8 - (length head + 1)) 0 s in
      Some (groups_value (head ++ replicate (8 - length head - length tail) 0 ++ tail), s)
  end end.

(** [read_port] and [read_scope_id]. *)
Definition read_port : parser Z := λ s,
  match read_given_char ":"%char s with
  | Some s => read_number 10 None true 65535 s
  | None => None
  end.
Definition read_scope_id : parser Z := λ s,
  match read_given_char "%"%char s with
  | Some s => read_number 10 None true u32_max s
  | None => None
  end.

(** An address, a scope (of an IPv6 address), a port. *)
Record SocketAddr := mkSocketAddr { sa_ip : IpAddr; sa_scope : Z; sa_port : Z }.

Definition read_socket_addr_v4 : parser SocketAddr := λ s,
  match read_ipv4_addr s with
  | None => None
  | Some (a, s) =>
      match read_port s with Some (p, s) => Some (mkSocketAddr (V4 a) 0 p, s) | None => None end
  end.

Definition read_socket_addr_v6 : parser SocketAddr := λ s,
  match read_given_char "["%char s with
  | None => None
  | Some s =>
  match read_ipv6_addr s with
  | None => None
  | Some (a, s) =>
      let '(scope, s) := match read_scope_id s with Some (n, s) => (n, s) | None => (0, s) end in
      match read_given_char "]"%char s with
      | None => None
      | Some s =>
          match read_port s with Some (p, s) => Some (mkSocketAddr (V6 a) scope p, s) | None => None end
      end
  end end.

(** [str::parse::<SocketAddr>]: the whole input. *)
Definition parse_socket_addr (s : string) : option SocketAddr :=
  let r := match read_socket_addr_v4 s with Some r => Some r | None => read_socket_addr_v6 s end in
  match r with Some (a, EmptyString) => Some a | _ => None end.

(** ** Examples of the library's documentation and of the configuration *)

Example parse_any : parse_socket_addr "0.0.0.0:8080" = Some (mkSocketAddr (V4 0) 0 8080).
Proof. reflexivity. Qed.
Example parse_home : parse_socket_addr "127.0.0.1:8080" = Some (mkSocketAddr (V4 2130706433) 0 8080).
Proof. reflexivity. Qed.
Example parse_v6 : parse_socket_addr "[2001:db8::1%7]:80"
  = Some (mkSocketAddr (V6 (groups_value [8193; 3512; 0; 0; 0; 0; 0; 1])) 7 80).
Proof. reflexivity. Qed.
Example parse_mapped : parse_socket_addr "[::ffff:192.0.2.1]:00443"
  = Some (mkSocketAddr (V6 (groups_value [0; 0; 0; 0; 0; 65535; 49152; 513])) 0 443).
Proof. reflexivity. Qed.
Example parse_rejects :
  parse_socket_addr "localhost:8080" = None ∧ parse_socket_addr "0.0.0.0" = None
  ∧ parse_socket_addr "0.0.0.0:65536" = None ∧ parse_socket_addr "01.2.3.4:1" = None
  ∧ parse_socket_addr "256.0.0.1:1" = None ∧ parse_socket_addr "[1::2::3]:1" = None
  ∧ parse_socket_addr "0.0.0.0:8080 " = None ∧ parse_socket_addr "[1.2.3.4::]:1" = None.
Proof. by vm_compute. Qed.
