(* ===== verification/AppState.v ===== *)
(** * Application state and operational endpoints ([app_state.rs],
    [context/tenant.rs], [ops/mod.rs])

    What the gateway builds at startup from its configuration, the lookups
    the transport makes in it, and the HTTP endpoints beside the WebSocket
    one.  The two process-wide counters behind session and trace ids
    ([NEXT_SID], [NEXT_TRACE] of transport/ws.rs) are kept here too. *)

From S2P Require Import Prelude Errors RustStd HotFrame Config Allowlist TokenBucket Policy Dash.
From S2P Require Import SessionRegistry Presence Channel Envelope Realtime Dispatch Handshake Metrics.

(** If true, the gateway fails fast on allowlist/dispatcher mismatches. *)
Definition FAIL_FAST_ON_MISMATCH : bool := false.

(** An HTTP response: status, [Retry-After], content type, body. *)
Record Response := mkResponse {
  rsp_status : Z;
  rsp_retry_after : option string;
  rsp_content_type : option string;
  rsp_body : string;
}.

Section app.
Context {Bytes : Type} `{!BytesOps Bytes, !SerdeJson, !DashOrder, !Mpsc}.

Record AppState := mkAppState {
  a_cfg : GatewayConfig;
  a_policy : gmap string TenantPolicyRuntime;
  a_world : World;
  a_dispatcher : Dispatcher Bytes;
  a_metrics : GatewayMetrics;
  a_handshake : HandshakeDefender;
  a_next_sid : Z;
  a_next_trace : Z;
}.

(** Step 1 of [AppState::new]: compile the policy of each tenant. *)
Fixpoint compile_policies (now : Z) (ts : list TenantConfig)
    (acc : gmap string TenantPolicyRuntime) : Result (gmap string TenantPolicyRuntime) :=
  match ts with
  | [] => Ok acc
  | t :: ts =>
      let? runtime :=
        map_err (λ e, EBadRequest ("tenant policy compile failed (tenant=" +:+ tenant_id t +:+ "): "
                                     +:+ error_to_string e))
          (tpr_new (tenant_id t) (max_frame_bytes (limits t)) (policy t) now) in
      compile_policies now ts (<[tenant_id t := runtime]> acc)
  end.

(** An entry of the Ext allowlist that names no registered service. *)
Definition ext_mismatch (svcs : list string) (rule : string) : option string :=
  match split_once ":"%char rule with
  | Some (svc, _) =>
      if bool_decide (svc ∈ ["room"; "sys"]) then None
      else if bool_decide (svc ∈ svcs) then None else Some svc
  | None => None
  end.

(** An entry of the Hot allowlist that names no registered service. *)
Definition hot_mismatch (svcs : list Z) (rule : string) : option string :=
  match split_once ":"%char rule with
  | Some (sid_s, _) =>
      match parse_u8 sid_s with
      | Some sid => if bool_decide (sid ∈ svcs) then None else Some (pretty sid)
      | None => None
      end
  | None => None
  end.

(** One loop of the sanity check: warn about each mismatch, or fail fast. *)
Fixpoint sanity_loop (mismatch : string → option string) (warning failure : string → string)
    (rules : list string) (log : list string) : Result (list string) :=
  match rules with
  | [] => Ok log
  | rule :: rules =>
      match mismatch rule with
      | Some what =>
          if FAIL_FAST_ON_MISMATCH then err_bad_request (failure what)
          else sanity_loop mismatch warning failure rules (log ++ [warning rule])
      | None => sanity_loop mismatch warning failure rules log
      end
  end.

(** The sanity check of [AppState::new]: the warnings logged. *)
Fixpoint sanity_check (d : Dispatcher Bytes) (ts : list TenantConfig) (log : list string)
    : Result (list string) :=
  match ts with
  | [] => Ok log
  | t :: ts =>
      let? log := sanity_loop (ext_mismatch (registered_text_svcs d))
        (λ rule, "ext_allowlist refers to unregistered text service: " +:+ tenant_id t +:+ " " +:+ rule)
        (λ svc, "tenant " +:+ tenant_id t +:+ " ext_allowlist references unregistered text service: "
                  +:+ svc) (ext_allowlist (policy t)) log in
      let? log := sanity_loop (hot_mismatch (registered_hot_svcs d))
        (λ rule, "hot_allowlist refers to unregistered binary service: " +:+ tenant_id t +:+ " " +:+ rule)
        (λ sid, "tenant " +:+ tenant_id t +:+ " hot_allowlist references unregistered hot service id: "
                  +:+ sid) (hot_allowlist (policy t)) log in
      sanity_check d ts log
  end.

(** [AppState::new], at an instant and with the channels of the process. *)
Definition app_new (now : Z) (c : chans) (cfg : GatewayConfig) : Result AppState :=
  let? tenant_policy := compile_policies now (tenants cfg) ∅ in
  let dispatcher := builtin_dispatcher in
  let? log := sanity_check dispatcher (tenants cfg) [] in
  Ok (mkAppState cfg tenant_policy (mkWorld core_new c 0 0 log) dispatcher metrics_default
        (hd_new now (handshake_limit (gateway cfg))) 1 1).

(** [AppState::tenant_policy]. *)
Definition tenant_policy (st : AppState) (id : string) : option TenantPolicyRuntime :=
  a_policy st !! id.

(** [AppState::resolve_ticket]. *)
Definition resolve_ticket (ticket : string) : Result string :=
  if bool_decide (ticket = "dev") then Ok "user:dev" else Err EAuthFailed.

(** [SessionMeta] and [TenantContext] of context/tenant.rs. *)
Record SessionMeta := mkSessionMeta { meta_tenant_id : string; meta_user_id : string; meta_session_id : string }.
Record TenantContext := mkTenantContext { tc_meta : SessionMeta; tc_policy : TenantPolicyRuntime }.

(** The accessors of [TenantContext]. *)
Definition tc_tenant_id (c : TenantContext) : string := meta_tenant_id (tc_meta c).
Definition tc_user_id (c : TenantContext) : string := meta_user_id (tc_meta c).
Definition tc_session_id (c : TenantContext) : string := meta_session_id (tc_meta c).

(** [resolve_tenant] of context/tenant.rs. *)
Definition resolve_tenant (st : AppState) (id : string) : Result TenantPolicyRuntime :=
  ok_or (EBadRequest ("unknown tenant: " +:+ id)) (tenant_policy st id).

(** Setters for the mutable parts. *)
Definition set_policy (st : AppState) (id : string) (rt : TenantPolicyRuntime) : AppState :=
  mkAppState (a_cfg st) (<[id := rt]> (a_policy st)) (a_world st) (a_dispatcher st) (a_metrics st)
    (a_handshake st) (a_next_sid st) (a_next_trace st).
Definition set_world (st : AppState) (w : World) : AppState :=
  mkAppState (a_cfg st) (a_policy st) w (a_dispatcher st) (a_metrics st) (a_handshake st)
    (a_next_sid st) (a_next_trace st).
Definition set_metrics (st : AppState) (m : GatewayMetrics) : AppState :=
  mkAppState (a_cfg st) (a_policy st) (a_world st) (a_dispatcher st) m (a_handshake st)
    (a_next_sid st) (a_next_trace st).
Definition set_handshake (st : AppState) (h : HandshakeDefender) : AppState :=
  mkAppState (a_cfg st) (a_policy st) (a_world st) (a_dispatcher st) (a_metrics st) h
    (a_next_sid st) (a_next_trace st).

(** [is_draining] and [enter_draining]. *)
Definition is_draining (st : AppState) : bool := draining (a_metrics st).
Definition enter_draining (st : AppState) : AppState := set_metrics st (set_draining (a_metrics st)).

(** [metrics_extra]. *)
Definition metrics_extra (st : AppState) : list (string * Z) :=
  [("wsprism_egress_drop_total", egress_drop_count (a_world st));
   ("wsprism_egress_send_fail_total", egress_send_fail_count (a_world st))].

(** ** [ops/mod.rs] *)

Definition healthz : Response := mkResponse 200 None None "ok".

Definition readyz (st : AppState) : Response :=
  if is_draining st then mkResponse 503 None None "draining" else mkResponse 200 None None "ready".

Definition metrics_endpoint (st : AppState) : Response :=
  mkResponse 200 None (Some "text/plain; version=0.0.4; charset=utf-8")
    (metrics_render (a_metrics st) (metrics_extra st)).
End app.

Arguments AppState Bytes {_ _}.

(** ** Startup *)

Lemma sanity_loop_ok mismatch warning failure rules log :
  ∃ log', sanity_loop mismatch warning failure rules log = Ok log'.
Proof.
  revert log. induction rules as [|rule rules IH]; intros log; cbn; [eauto|].
  destruct (mismatch rule); apply IH.
Qed.

Lemma sanity_check_ok {Bytes : Type} `{!BytesOps Bytes, !SerdeJson, !DashOrder, !Mpsc}
    (d : Dispatcher Bytes) ts log : ∃ log', sanity_check d ts log = Ok log'.
Proof.
  revert log. induction ts as [|t ts IH]; intros log; cbn; [eauto|].
  edestruct sanity_loop_ok as [log1 ->]. edestruct sanity_loop_ok as [log2 ->]. apply IH.
Qed.

(** The allowlists of a tenant compile. *)
Definition compiles (t : TenantConfig) : bool :=
  is_ok (compile_ext_rules (ext_allowlist (policy t)))
  && is_ok (compile_hot_rules (hot_allowlist (policy t))).

Lemma tpr_new_compiles t now :
  is_ok (tpr_new (tenant_id t) (max_frame_bytes (limits t)) (policy t) now) = compiles t.
Proof.
  rewrite /tpr_new /compiles. destruct (compile_ext_rules _); [|done]. cbn.
  by destruct (compile_hot_rules _).
Qed.

(** What compiling the policies of a list of tenants gives. *)
Lemma compile_policies_spec now ts acc :
  NoDup (tenant_id <$> ts) →
  if forallb compiles ts then
    ∃ m, compile_policies now ts acc = Ok m
         ∧ (∀ t, t ∈ ts → ∃ rt, m !! tenant_id t = Some rt ∧ compiled t rt)
         ∧ (∀ id, id ∉ tenant_id <$> ts → m !! id = acc !! id)
  else ∃ e, compile_policies now ts acc = err_bad_request e.
Proof.
  revert acc. induction ts as [|t ts IH]; intros acc Hnd; cbn [forallb compile_policies].
  { exists acc. split_and!; [done| |done]. intros t ?%not_elem_of_nil. done. }
  rewrite fmap_cons in Hnd. apply NoDup_cons in Hnd as [Hni Hnd].
  rewrite -(tpr_new_compiles t now).
  destruct (tpr_new _ _ _ now) as [rt|e] eqn:E; cbn; [|by eexists].
  apply tpr_new_compiled in E. specialize (IH (<[tenant_id t := rt]> acc) Hnd).
  destruct (forallb compiles ts); [|done]. destruct IH as (m & -> & Hin & Hout).
  exists m. split_and!; [done| |].
  - intros t' [->|Ht']%elem_of_cons; [|by apply Hin]. exists rt. split; [|done].
    by rewrite Hout // lookup_insert_eq.
  - intros id [Hne Hid]%not_elem_of_cons.
    rewrite Hout // lookup_insert_ne //.
Qed.

(** What building the state comes to. *)
Lemma app_new_fields {Bytes : Type} `{!BytesOps Bytes, !SerdeJson, !DashOrder, !Mpsc} now c cfg (st : AppState Bytes) :
  app_new now c cfg = Ok st → a_cfg st = cfg ∧ a_metrics st = metrics_default.
Proof.
  rewrite /app_new. destruct (compile_policies _ _ _); [|done]. cbn.
  destruct (sanity_check _ _); [|done]. by intros [= <-].
Qed.

Lemma app_new_outcome {Bytes : Type} `{!BytesOps Bytes, !SerdeJson, !DashOrder, !Mpsc} now c cfg :
  NoDup (tenant_id <$> tenants cfg) →
  if forallb compiles (tenants cfg) then
    ∃ st : AppState Bytes,
      app_new now c cfg = Ok st ∧ a_cfg st = cfg
      ∧ (∀ t, t ∈ tenants cfg → ∃ rt, tenant_policy st (tenant_id t) = Some rt ∧ compiled t rt)
      ∧ (∀ id, id ∉ tenant_id <$> tenants cfg → tenant_policy st id = None)
      ∧ w_core (a_world st) = core_new ∧ is_draining st = false
  else ∃ e, app_new (Bytes := Bytes) now c cfg = err_bad_request e.
Proof.
  intros Hnd. pose proof (compile_policies_spec now (tenants cfg) ∅ Hnd) as Hc. rewrite /app_new.
  destruct (forallb compiles (tenants cfg)).
  - destruct Hc as (m & -> & Hin & Hout).
    destruct (sanity_check_ok (builtin_dispatcher (Bytes := Bytes)) (tenants cfg) []) as [log ->].
    eexists. split_and!; [done|done|done| |done|done].
    intros id Hid. rewrite /tenant_policy /= Hout //.
  - destruct Hc as [e ->]. by exists e.
Qed.

(** Startup. On a configuration with distinct tenant ids, building
    the state succeeds exactly when the allowlists of every tenant compile (an
    entry for a service that is not registered is not an error); then each
    tenant, and nothing else, has the policy compiled from its section, no
    session or room exists, and no limiter has been used. Otherwise the operator
    gets a bad request. *)
Theorem app_new_spec {Bytes : Type} `{!BytesOps Bytes, !SerdeJson, !DashOrder, !Mpsc} now c cfg :
  NoDup (tenant_id <$> tenants cfg) →
  if forallb compiles (tenants cfg) then
    ∃ st : AppState Bytes,
      app_new now c cfg = Ok st ∧ a_cfg st = cfg
      ∧ (∀ t, t ∈ tenants cfg → ∃ rt, tenant_policy st (tenant_id t) = Some rt ∧ compiled t rt)
      ∧ (∀ id, id ∉ tenant_id <$> tenants cfg → tenant_policy st id = None)
      ∧ w_core (a_world st) = core_new ∧ is_draining st = false
  else ∃ e, app_new (Bytes := Bytes) now c cfg = err_bad_request e.
Proof. apply app_new_outcome. Qed.

Import MiniJson.

Lemma app_new_spec_witness :
  ∃ st : AppState (list byte),
    app_new 0 ∅ (mkGatewayConfig 1 GatewaySection_default
                   [mkTenantConfig "acme" TenantLimits_default TenantPolicy_default]) = Ok st
    ∧ tenant_policy st "other" = None.
Proof.
  destruct (app_new_spec (Bytes := list byte) 0 ∅
    (mkGatewayConfig 1 GatewaySection_default
       [mkTenantConfig "acme" TenantLimits_default TenantPolicy_default])) as (st & E & _ & _ & Hout & _).
  - repeat constructor; by intros ?%not_elem_of_nil.
  - exists st. split; [exact E|]. apply Hout. cbn. intros [[=]|[]%not_elem_of_nil]%elem_of_cons.
Defined.
