(* ===== verification/Ws.v ===== *)
(** * The WebSocket handler ([wsprism-gateway/src/transport/ws.rs])

    The upgrade decision, the opening of a session, the handler of each kind
    of event of its loop, and the guard that cleans up when it ends.  A
    session is one task: a [Task] is its local state, the [AppState] what it
    shares with the others.  The task is also the only reader of its own
    outbound channel, so a send to a full one, while the task handles an
    event, waits for ever: the flow [Blocked]. *)

From S2P Require Import Prelude Errors RustStd HotFrame Config Allowlist TokenBucket Policy Dash.
From S2P Require Import SessionRegistry Presence Keys Channel Envelope Realtime Codec Dispatch.
From S2P Require Import Handshake Metrics AppState.

(** [WsQuery]. *)
Record WsQuery := mkWsQuery { q_tenant : string; q_ticket : string; q_sid : option string }.

(** What [ws_upgrade] answers. *)
Inductive UpgradeResult := Refused (r : Response) | Upgraded.

(** How the handling of one event leaves the loop: it goes on, ends, waits for
    ever on its own channel, waits for a dispatch that has not returned, or
    panics. *)
Inductive Flow := Continue | Break | Blocked | Waiting | Panicked.

#[export] Instance Flow_eq_dec : EqDecision Flow.
Proof. solve_decision. Defined.

(** How [timeout(writer_timeout, ws_tx.send(m)).await] ends: the socket took the
    message, the socket failed, or neither in time. *)
Inductive WriteEnd := Written | WriteFailed | WriteTimedOut.

#[export] Instance WriteEnd_eq_dec : EqDecision WriteEnd.
Proof. solve_decision. Defined.

(** The local state of a session task: its identity, its channel, the limits
    of its tenant, [SessionState], the sampling counter, and the writes to the
    socket that it has tried. *)
Record Task := mkTask {
  tk_tenant : string;
  tk_user : string;
  tk_sid : string;
  tk_trace : string;
  tk_tx : nat;
  tk_limits : TenantLimits;
  tk_active_room : option string;
  tk_last_activity : Z;
  tk_conn_limiter : option ConnRateLimiter;
  tk_hot_ops : Z;
  tk_writes : list (Message * WriteEnd);
}.

Definition tk_user_key (tk : Task) : string := user_key (tk_tenant tk) (tk_user tk).
Definition tk_session_key (tk : Task) : string := session_key (tk_tenant tk) (tk_user tk) (tk_sid tk).

Definition set_active_room (tk : Task) (r : option string) : Task :=
  mkTask (tk_tenant tk) (tk_user tk) (tk_sid tk) (tk_trace tk) (tk_tx tk) (tk_limits tk) r
    (tk_last_activity tk) (tk_conn_limiter tk) (tk_hot_ops tk) (tk_writes tk).
Definition set_last_activity (tk : Task) (now : Z) : Task :=
  mkTask (tk_tenant tk) (tk_user tk) (tk_sid tk) (tk_trace tk) (tk_tx tk) (tk_limits tk)
    (tk_active_room tk) now (tk_conn_limiter tk) (tk_hot_ops tk) (tk_writes tk).
Definition set_conn_limiter (tk : Task) (l : option ConnRateLimiter) : Task :=
  mkTask (tk_tenant tk) (tk_user tk) (tk_sid tk) (tk_trace tk) (tk_tx tk) (tk_limits tk)
    (tk_active_room tk) (tk_last_activity tk) l (tk_hot_ops tk) (tk_writes tk).
Definition set_hot_ops (tk : Task) (n : Z) : Task :=
  mkTask (tk_tenant tk) (tk_user tk) (tk_sid tk) (tk_trace tk) (tk_tx tk) (tk_limits tk)
    (tk_active_room tk) (tk_last_activity tk) (tk_conn_limiter tk) n (tk_writes tk).
Definition add_write (tk : Task) (m : Message) (w : WriteEnd) : Task :=
  mkTask (tk_tenant tk) (tk_user tk) (tk_sid tk) (tk_trace tk) (tk_tx tk) (tk_limits tk)
    (tk_active_room tk) (tk_last_activity tk) (tk_conn_limiter tk) (tk_hot_ops tk)
    (tk_writes tk ++ [(m, w)]).

Section ws.
Context {Bytes : Type} `{!BytesOps Bytes, !BytesFrom Bytes, !SerdeJson, !DashOrder, !Mpsc}.
Implicit Types (st : AppState Bytes) (tk : Task).

(** ** System messages *)

Definition sys_authed_json (tenant user sid trace : string) : string :=
  value_display (json_obj [("v", json_num 1); ("svc", json_str "sys"); ("type", json_str "authed");
    ("data", json_obj [("tenant", json_str tenant); ("user", json_str user); ("sid", json_str sid)]);
    ("trace_id", json_str trace)]).
Definition sys_error_json (code msg trace : string) : string :=
  value_display (json_obj [("v", json_num 1); ("svc", json_str "sys"); ("type", json_str "error");
    ("data", json_obj [("code", json_str code); ("msg", json_str msg)]); ("trace_id", json_str trace)]).
Definition sys_kicked_json (reason trace : string) : string :=
  value_display (json_obj [("v", json_num 1); ("svc", json_str "sys"); ("type", json_str "kicked");
    ("data", json_obj [("reason", json_str reason)]); ("trace_id", json_str trace)]).
Definition sys_joined_json (room trace : string) : string :=
  value_display (json_obj [("v", json_num 1); ("svc", json_str "sys"); ("type", json_str "joined");
    ("room", json_str room); ("trace_id", json_str trace)]).
Definition sys_left_json (trace : string) : string :=
  value_display (json_obj [("v", json_num 1); ("svc", json_str "sys"); ("type", json_str "left");
    ("trace_id", json_str trace)]).

(** ** Upgrade *)

Definition find_tenant (st : AppState Bytes) (id : string) : option TenantConfig :=
  List.find (λ t, bool_decide (tenant_id t = id)) (tenants (a_cfg st)).

(** [ws_upgrade], for a caller at address [ip]; [None]: the handshake check
    does not return. *)
Definition ws_upgrade (reentrant : bool) (ck : Clocks) st (ip : IpAddr) (q : WsQuery)
    : option UpgradeResult * AppState Bytes :=
  let '(res, hs) := check reentrant ck (a_handshake st) ip in
  let st := set_handshake st hs in
  match res with
  | None => (None, st)
  | Some (Err wait_secs) =>
      (Some (Refused (mkResponse 429 (Some (fst (retry_after_header_secs wait_secs))) None
                        "Too Many Requests")),
       set_metrics st (inc_rejections (a_metrics st)
                         [("tenant", q_tenant q); ("reason", "rate_limit")]))
  | Some (Ok _) =>
      if is_draining st then (Some (Refused (mkResponse 503 None None "draining")), st)
      else match find_tenant st (q_tenant q) with
      | None => (Some (Refused (mkResponse 400 None None "Unknown Tenant")), st)
      | Some t_cfg =>
          let limit := max_sessions_total (limits t_cfg) in
          let current := count_tenant_sessions (sessions (w_core (a_world st))) (q_tenant q) in
          if (0 <? limit) && (limit <=? current) then
            (Some (Refused (mkResponse 503 (Some "1") None "Tenant Capacity Exceeded")),
             set_metrics st (inc_rejections (a_metrics st)
                               [("tenant", q_tenant q); ("reason", "tenant_capacity")]))
          else
            (Some Upgraded,
             set_metrics st (inc_upgrades (a_metrics st) [("tenant", q_tenant q); ("status", "ok")]))
      end
  end.

(** ** Opening a session *)

(** [gen_sid] and [gen_trace]. *)
Definition gen_sid st : string * AppState Bytes :=
  (to_hex (a_next_sid st),
   mkAppState (a_cfg st) (a_policy st) (a_world st) (a_dispatcher st) (a_metrics st) (a_handshake st)
     (wrap64 (a_next_sid st + 1)) (a_next_trace st)).
Definition gen_trace (unix_nanos : Z) st : string * AppState Bytes :=
  (to_hex unix_nanos +:+ "-" +:+ to_hex (a_next_trace st),
   mkAppState (a_cfg st) (a_policy st) (a_world st) (a_dispatcher st) (a_metrics st) (a_handshake st)
     (a_next_sid st) (wrap64 (a_next_trace st + 1))).

Definition set_app_chans st (c : chans) : AppState Bytes := set_world st (set_chans (a_world st) c).
Definition app_sessions st : SessionRegistry := sessions (w_core (a_world st)).
Definition app_presence st : Presence := presence (w_core (a_world st)).
Definition set_app_core st (r : SessionRegistry) (p : Presence) : AppState Bytes :=
  set_world st (set_core (a_world st) r p).

(** [Drop for SessionCleanup]. *)
Definition session_cleanup st (tenant user_key session_key : string) : AppState Bytes :=
  let '(_, r) := remove_session (app_sessions st) user_key session_key in
  let p := cleanup_session (app_presence st) tenant user_key session_key in
  let st := set_app_core st r p in
  set_metrics st (add_sessions (a_metrics st) [("tenant", tenant)] (-1)).

(** The [KickOldest] branch: the oldest session of the user is told, closed
    and taken out. *)
Definition kick_oldest st (tenant user_key trace : string) : AppState Bytes :=
  let '(victim, r) := evict_oldest (app_sessions st) user_key in
  match victim with
  | None => set_app_core st r (app_presence st)
  | Some (victim, conn) =>
      let '(_, c) := try_send (w_chans (a_world st)) (conn_tx conn)
                       (MText (sys_kicked_json "max_sessions_exceeded" trace)) in
      let '(_, c) := try_send c (conn_tx conn) (MClose (Some (1008, "kicked"))) in
      let p := cleanup_session (app_presence st) tenant user_key victim in
      let st := set_app_core (set_app_chans st c) r p in
      set_metrics st (add_sessions (a_metrics st) [("tenant", tenant)] (-1))
  end.

(** What opening a session comes to: the task runs, [run_session] returned
    ([Ok] or an error), or it panicked or blocked. *)
Inductive Opened :=
| Running (tk : Task)
| Returned (r : Result unit)
| OpenPanicked
| OpenBlocked.

(** [run_session] from the insertion into the registry to its loop: the
    session is registered and greeted. *)
Definition session_register (now : Z) (policy : TenantPolicyRuntime) st (tenant user_id sid trace_id : string)
    (tx : nat) : Opened * AppState Bytes :=
  let uk := user_key tenant user_id in
  let sk := session_key tenant user_id sid in
  match find_tenant st tenant with
  | None => (OpenPanicked, set_app_chans st (drop_rx (w_chans (a_world st)) tx))
  | Some t_cfg =>
      match try_insert (app_sessions st) tenant uk sk (mkConnection tx)
              (max_sessions_total (limits t_cfg)) with
      | (Err e, r) =>
          let st := set_app_core st r (app_presence st) in
          (Returned (Err e), set_app_chans st (drop_rx (w_chans (a_world st)) tx))
      | (Ok _, r) =>
          let st := set_app_core st r (app_presence st) in
          let st := set_metrics st (add_sessions (a_metrics st) [("tenant", tenant)] 1) in
          match try_send (w_chans (a_world st)) tx
                  (MText (sys_authed_json tenant user_id sid trace_id)) with
          | (Sent, c) =>
              (Running (mkTask tenant user_id sid trace_id tx (limits t_cfg) None now
                          (new_connection_limiter policy now) 0 []),
               set_app_chans st c)
          | (Full, _) => (OpenBlocked, st)
          | (Closed, c) =>
              (Returned (Err (EInternal "closed")), session_cleanup (set_app_chans st c) tenant uk sk)
          end
      end
  end.

(** [q.sid.unwrap_or_else(gen_sid)]. *)
Definition take_sid st (q : WsQuery) : string * AppState Bytes :=
  match q_sid q with Some sid => (sid, st) | None => gen_sid st end.

(** [run_session] up to its loop, with the [Instant]s of the limiter and of
    [last_activity]. *)
Definition session_open (now unix_nanos : Z) st (q : WsQuery) : Opened * AppState Bytes :=
  match tenant_policy st (q_tenant q) with
  | None => (Returned (err_bad_request "unknown tenant"), st)
  | Some policy =>
  match resolve_ticket (q_ticket q) with
  | Err e => (Returned (Err e), st)
  | Ok user_id =>
      let '(sid, st) := take_sid st q in
      let '(trace_id, st) := gen_trace unix_nanos st in
      let uk := user_key (q_tenant q) user_id in
      let '(tx, c) := mpsc_channel (w_chans (a_world st)) 1024 in
      let st := set_app_chans st c in
      let sp := tpr_sessions policy in
      if max_sessions_per_user sp <=? count_user_sessions (app_sessions st) uk then
        let st := set_metrics st (inc_decisions (a_metrics st)
                    [("tenant", q_tenant q); ("lane", "session"); ("decision", "reject");
                     ("reason", "max_user_sessions")]) in
        match on_exceed sp with
        | Deny =>
            let '(_, c) := try_send (w_chans (a_world st)) tx
                             (MText (sys_error_json "TOO_MANY_SESSIONS" "limit exceeded" trace_id)) in
            (Returned (Ok tt), set_app_chans st (drop_rx c tx))
        | KickOldest =>
            session_register now policy (kick_oldest st (q_tenant q) uk trace_id) (q_tenant q) user_id
              sid trace_id tx
        end
      else session_register now policy st (q_tenant q) user_id sid trace_id tx
  end
  end.

(** ** The loop *)

(** One event leaves a flow, the task and the shared state. *)
Abbreviation step := (Flow * Task * AppState Bytes)%type.

(** [let _ = out_tx.send(m).await], then [flow]. *)
Definition reply (flow : Flow) tk st (m : Message) : step :=
  match try_send (w_chans (a_world st)) (tk_tx tk) m with
  | (Full, _) => (Blocked, tk, st)
  | (_, c) => (flow, tk, set_app_chans st c)
  end.

Definition reply_error (flow : Flow) tk st (code msg : string) : step :=
  reply flow tk st (MText (sys_error_json code msg (tk_trace tk))).

(** Counting a policy decision. *)
Definition decided tk st (lane decision reason : string) : AppState Bytes :=
  set_metrics st (inc_decisions (a_metrics st)
    [("tenant", tk_tenant tk); ("lane", lane); ("decision", decision); ("reason", reason)]).

(** What the handling of one inbound message reads: the overflow checks of
    the build, the [Instant]s of [last_activity], of the connection limiter
    and of the tenant limiter, the duration of the dispatch in nanoseconds,
    and the events along which it runs. *)
Record Reading := mkReading {
  rd_checks : bool;
  rd_now : Z;
  rd_conn : Z;
  rd_tenant : Z;
  rd_elapsed : Z;
  rd_evs : list FutEvent;
}.

(** [RealtimeCtx::new] with the fields of the task. *)
Definition task_ctx tk (active : option string) : RealtimeCtx :=
  ctx_new (tk_tenant tk) (tk_user tk) (tk_sid tk) (tk_trace tk) active.

(** [room:join]. *)
Definition on_join tk st (env : Envelope RawValue) : step :=
  let room := default "default" (env_room env) in
  let '(res, w) := join_room_with_limits (a_world st) (task_ctx tk (tk_active_room tk)) room
                     (tk_limits tk) in
  let st := set_world st w in
  match res with
  | Ok _ =>
      reply Continue (set_active_room tk (Some room)) st (MText (sys_joined_json room (tk_trace tk)))
  | Err e =>
      let st := set_metrics st (inc_service_errors (a_metrics st)
                  [("tenant", tk_tenant tk); ("svc", "room"); ("type", "join_failed")]) in
      reply_error Continue tk st (as_str (client_code e)) (error_to_string e)
  end.

(** [room:leave]. *)
Definition on_leave tk st : step :=
  let '(tk, st) :=
    match tk_active_room tk with
    | Some room => (set_active_room tk None, set_world st (leave_room (a_world st) (task_ctx tk None) room))
    | None => (tk, st)
    end in
  reply Continue tk st (MText (sys_left_json (tk_trace tk))).

(** Dispatch of a text frame. *)
Definition on_dispatch_text (rd : Reading) tk st (env : Envelope RawValue) : step :=
  let '(res, w) := dispatch_text (a_dispatcher st) (rd_evs rd) (a_world st)
                     (task_ctx tk (tk_active_room tk)) env in
  let st := set_world st w in
  match res with
  | None => (Waiting, tk, st)
  | Some res =>
      let st := set_metrics st (observe_dispatch (a_metrics st)
                  [("tenant", tk_tenant tk); ("lane", "ext")] (rd_elapsed rd)) in
      match res with
      | Ok _ => (Continue, tk, st)
      | Err e =>
          let st := set_metrics st (inc_service_errors (a_metrics st)
                      [("tenant", tk_tenant tk); ("lane", "ext")]) in
          reply_error Continue tk st (as_str (client_code e)) (error_to_string e)
      end
  end.

(** What a text frame that passed the policy is for. *)
Definition on_text_passed (rd : Reading) tk st (env : Envelope RawValue) : step :=
  if bool_decide (env_svc env = "room" ∧ env_msg_type env = "join") then on_join tk st env
  else if bool_decide (env_svc env = "room" ∧ env_msg_type env = "leave") then on_leave tk st
  else on_dispatch_text rd tk st env.

(** [Inbound::Text]. *)
Definition on_text (rd : Reading) tk st (env : Envelope RawValue) (bytes_len : Z) : step :=
  let '(ok, tk) :=
    match tk_conn_limiter tk with
    | None => (Done true, tk)
    | Some lim =>
        match crl_allow (rd_checks rd) (rd_conn rd) lim with
        | Done (ok, lim) => (Done ok, set_conn_limiter tk (Some lim))
        | Panic => (Panic, tk)
        end
    end in
  match ok with
  | Panic => (Panicked, tk, st)
  | Done false => (Continue, tk, decided tk st "ext" "drop" "conn_rate_limit")
  | Done true =>
      match tenant_policy st (tk_tenant tk) with
      | None => (Panicked, tk, st)
      | Some policy =>
          let '(dec, policy) := check_text (rd_checks rd) (rd_tenant rd) policy bytes_len
                                  (env_svc env) (env_msg_type env) in
          let st := set_policy st (tk_tenant tk) policy in
          match dec with
          | Panic => (Panicked, tk, st)
          | Done Pass => on_text_passed rd tk st env
          | Done Drop => (Continue, tk, decided tk st "ext" "drop" "policy")
          | Done (Reject code msg) =>
              reply_error Continue tk (decided tk st "ext" "reject" (as_str code)) (as_str code) msg
          | Done (Close code msg) =>
              reply_error Break tk (decided tk st "ext" "close" (as_str code)) (as_str code) msg
          end
      end
  end.

(** An error message on the Hot Lane, if the tenant wants them. *)
Definition hot_error (policy : TenantPolicyRuntime) (flow : Flow) tk st (code msg : string) : step :=
  match tpr_hot_error_mode policy with
  | SysError => reply_error flow tk st code msg
  | Silent => (flow, tk, st)
  end.

(** Dispatch of a hot frame; its duration is observed once in 1024. *)
Definition on_dispatch_hot (rd : Reading) (policy : TenantPolicyRuntime) tk st (frame : HotFrame Bytes)
    : step :=
  let tk := set_hot_ops tk (wrap64 (tk_hot_ops tk + 1)) in
  let '(res, w) := dispatch_hot (a_dispatcher st) (rd_evs rd) (a_world st)
                     (task_ctx tk (tk_active_room tk)) frame in
  let st := set_world st w in
  match res with
  | None => (Waiting, tk, st)
  | Some res =>
      let st := if Z.land (tk_hot_ops tk) 1023 =? 0
                then set_metrics st (observe_dispatch (a_metrics st)
                       [("tenant", tk_tenant tk); ("lane", "hot")] (rd_elapsed rd))
                else st in
      match res with
      | Ok _ => (Continue, tk, st)
      | Err e =>
          let st := set_metrics st (inc_service_errors (a_metrics st)
                      [("tenant", tk_tenant tk); ("lane", "hot")]) in
          hot_error policy Continue tk st (as_str (client_code e)) (error_to_string e)
      end
  end.

(** [Inbound::Hot]. *)
Definition on_hot (rd : Reading) tk st (frame : HotFrame Bytes) (bytes_len : Z) : step :=
  match tenant_policy st (tk_tenant tk) with
  | None => (Panicked, tk, st)
  | Some policy =>
      let '(dec, policy) := check_hot (rd_checks rd) (rd_tenant rd) policy bytes_len
                              (hf_svc_id frame) (hf_opcode frame) in
      let st := set_policy st (tk_tenant tk) policy in
      match dec with
      | Panic => (Panicked, tk, st)
      | Done Drop => (Continue, tk, decided tk st "hot" "drop" "policy")
      | Done (Reject code msg) =>
          hot_error policy Continue tk (decided tk st "hot" "reject" (as_str code)) (as_str code) msg
      | Done (Close code msg) =>
          hot_error policy Break tk (decided tk st "hot" "close" (as_str code)) (as_str code) msg
      | Done Pass =>
          if tpr_hot_requires_active_room policy && bool_decide (tk_active_room tk = None)
          then hot_error policy Continue tk st "BAD_REQUEST" "no active room"
          else on_dispatch_hot rd policy tk st frame
      end
  end.

(** [incoming = ws_rx.next()]; [None]: the stream has ended or failed. *)
Definition on_incoming (rd : Reading) tk st (incoming : option Message) : step :=
  match incoming with
  | None => (Break, tk, st)
  | Some msg =>
      let tk := set_last_activity tk (rd_now rd) in
      match decode (Bytes := Bytes) msg with
      | Panic => (Panicked, tk, st)
      | Done (Err e) =>
          let st := set_metrics st (inc_decode_errors (a_metrics st) [("tenant", tk_tenant tk)]) in
          reply_error Break tk st (as_str (client_code e)) (error_to_string e)
      | Done (Ok inbound) =>
          match inbound with
          | IPing p => reply Continue tk st (MPong p)
          | IPong _ => (Continue, tk, st)
          | IClose => (Break, tk, st)
          | IText env bytes_len => on_text rd tk st env bytes_len
          | IHot frame bytes_len => on_hot rd tk st frame bytes_len
          end
      end
  end.

(** [maybe_out = out_rx.recv()]: the message leaves the queue, and is written to
    the socket.  The code asks [is_err] of what [timeout] returns, so that it
    sees a write that is late, and not one that failed: the loop then goes on
    without the message. (The task holds a sender of its own channel, so [recv] only ever
    waits or yields a message.) *)
Definition on_out (w : WriteEnd) tk st : step :=
  match recv (w_chans (a_world st)) (tk_tx tk) with
  | None => (Continue, tk, st)
  | Some (m, c) =>
      let st := set_app_chans st c in
      let tk := add_write tk m w in
      match w with
      | WriteTimedOut =>
          (Break, tk, set_metrics st (inc_writer_timeouts (a_metrics st) [("tenant", tk_tenant tk)]))
      | Written | WriteFailed => (Continue, tk, st)
      end
  end.

(** [ping_tick]. *)
Definition on_ping tk st : step := reply Continue tk st (MPing []).

(** [idle_tick]: instants are in nanoseconds, the timeout in milliseconds. *)
Definition on_idle (now : Z) tk st : step :=
  if idle_timeout_ms (gateway (a_cfg st)) * 1000000 <=? Z.max 0 (now - tk_last_activity tk)
  then reply_error Break tk st "TIMEOUT" "idle"
  else (Continue, tk, st).

(** The branches of [select!]. *)
Inductive Event :=
| EvOut (w : WriteEnd)
| EvIn (rd : Reading) (incoming : option Message)
| EvPing
| EvIdle (now : Z).

Definition on_event (ev : Event) tk st : step :=
  match ev with
  | EvOut w => on_out w tk st
  | EvIn rd incoming => on_incoming rd tk st incoming
  | EvPing => on_ping tk st
  | EvIdle now => on_idle now tk st
  end.

(** The loop, along a list of events, until one of them does not go on. *)
Fixpoint session_loop (evs : list Event) tk st : step :=
  match evs with
  | [] => (Continue, tk, st)
  | ev :: evs =>
      match on_event ev tk st with
      | (Continue, tk, st) => session_loop evs tk st
      | stop => stop
      end
  end.

(** The end of the task: the guard is dropped, and the channel with it. *)
Definition session_end tk st : AppState Bytes :=
  let st := session_cleanup st (tk_tenant tk) (tk_user_key tk) (tk_session_key tk) in
  set_app_chans st (drop_rx (w_chans (a_world st)) (tk_tx tk)).
End ws.
