(* ===== verification/Session.v ===== *)
(** * The life of a session

    Theorems about the WebSocket handler of [Ws.v], on top of those about the
    registry, the rooms and delivery: who is admitted, that nothing passes the
    policy, what a session leaves behind, and where its task gets stuck. *)

From S2P Require Import Prelude Errors RustStd HotFrame Config Allowlist TokenBucket Policy Dash.
From S2P Require Import SessionRegistry Presence Keys Channel Envelope Realtime Codec Dispatch.
From S2P Require Import Handshake Metrics AppState Ws.

(** ** What leaves the core alone *)

(** Channels keep being open or closed, and their capacity. *)
Definition chans_stable `{!Mpsc} (c c' : chans) : Prop :=
  ∀ tx, ch_open c' tx = ch_open c tx ∧ ch_cap c' tx = ch_cap c tx.

#[export] Instance chans_stable_preorder `{!Mpsc} : PreOrder chans_stable.
Proof.
  split; [done|]. intros c1 c2 c3 H12 H23 tx. destruct (H12 tx), (H23 tx). split; congruence.
Qed.

(** The registry and the rooms are the same, the counters stay counters, and,
    if no other task runs meanwhile ([alone]), channels are stable. *)
Definition same_core `{!Mpsc} (alone : Prop) (w w' : World) : Prop :=
  w_core w' = w_core w ∧ (is_u64 (w_drops w) → is_u64 (w_drops w'))
  ∧ (is_u64 (w_fails w) → is_u64 (w_fails w'))
  ∧ (alone → chans_stable (w_chans w) (w_chans w')).

Section same_core.
Context `{!Mpsc, !MpscLaws} (alone : Prop).

#[export] Instance same_core_refl : Reflexive (same_core alone).
Proof. done. Qed.

#[export] Instance same_core_trans : Transitive (same_core alone).
Proof.
  intros w1 w2 w3 (? & ? & ? & Hc) (? & ? & ? & Hc'). split_and!; [congruence|eauto..].
  intros Ha. by transitivity (w_chans w2); [apply Hc|apply Hc'].
Qed.

Lemma try_send_stable c tx m res c' : try_send c tx m = (res, c') → chans_stable c c'.
Proof. by intros (_ & _ & _ & Hoc)%try_send_spec. Qed.

Lemma same_core_chans w c :
  (alone → chans_stable (w_chans w) c) → same_core alone w (set_chans w c).
Proof. done. Qed.

Lemma same_core_send w tx m res c : try_send (w_chans w) tx m = (res, c) → same_core alone w (set_chans w c).
Proof. intros E. apply same_core_chans. intros _. by eapply try_send_stable. Qed.

Lemma same_core_drop w text : same_core alone w (count_drop w text).
Proof. split_and!; [done|intros _; apply wrap64_range|done..]. Qed.

Lemma same_core_fail w text : same_core alone w (count_fail w text).
Proof. split_and!; [done|done|intros _; apply wrap64_range|done]. Qed.

Lemma same_core_push m text w conn : same_core alone w (push m text w conn).
Proof.
  rewrite /push. destruct (try_send _ _ _) as [[] c] eqn:E; [by eapply same_core_send|..];
    (etransitivity; [by eapply same_core_send|apply same_core_drop]).
Qed.

Lemma same_core_foldl {A} (f : World → A → World) l w :
  (∀ w x, same_core alone w (f w x)) → same_core alone w (foldl f w l).
Proof.
  intros Hf. revert w. induction l as [|x l IH]; intros w; [done|]. cbn.
  etransitivity; [apply Hf|apply IH].
Qed.

Lemma same_core_fut dt m st ev :
  (alone → no_other ev = true) → same_core alone (fs_world st) (fs_world (fut_step dt m st ev)).
Proof.
  intros Hev. destruct ev as [i|i|c]; cbn [fut_step].
  - destruct (fs_pending st !! i); [|done]. destruct (try_send _ _ _) as [[] c1] eqn:E; [|done|].
    + by eapply same_core_send.
    + destruct dt; [done|apply same_core_fail].
  - destruct (fs_pending st !! i); [|done]. destruct dt; [apply same_core_fail|done].
  - apply same_core_chans. by intros ?%Hev.
Qed.

Lemma same_core_futs dt m evs st :
  (alone → forallb no_other evs = true) →
  same_core alone (fs_world st) (fs_world (foldl (fut_step dt m) st evs)).
Proof.
  revert st. induction evs as [|ev evs IH]; intros st Hevs; [done|]. cbn [foldl].
  cbn [forallb] in Hevs. setoid_rewrite andb_true_iff in Hevs.
  etransitivity; [apply same_core_fut|apply IH]; tauto.
Qed.
End same_core.

Section dispatch.
Context {Bytes : Type} `{!BytesOps Bytes, !SerdeJson, !DashOrder, !Mpsc, !MpscLaws} (alone : Prop).

Lemma same_core_reliable evs w rk (out : Outgoing Bytes) :
  (alone → forallb no_other evs = true) →
  same_core alone w (snd (core_publish_room_reliable evs w rk out)).
Proof.
  intros Hevs. rewrite /core_publish_room_reliable. destruct (prepare out); [|done].
  by apply (same_core_futs _ _ _ evs (mkFutState w _ [])).
Qed.

Lemma same_core_lossy w rk (out : Outgoing Bytes) :
  same_core alone w (snd (core_publish_room_lossy w rk out)).
Proof.
  rewrite /core_publish_room_lossy. destruct (prepare out); [|done]. apply same_core_foldl.
  intros w' sid. destruct (get_session _ sid); [apply same_core_push|done].
Qed.

Lemma same_core_session w sk (out : Outgoing Bytes) :
  same_core alone w (snd (core_send_to_session w sk out)).
Proof.
  rewrite /core_send_to_session. destruct (get_session _ sk); [|done].
  destruct (prepare out); [|done]. apply same_core_push.
Qed.

(** The built-in services do not touch the registry or the rooms. *)
Lemma same_core_dispatch_text evs w ctx env :
  (alone → forallb no_other evs = true) →
  same_core alone w (snd (dispatch_text (builtin_dispatcher (Bytes := Bytes)) evs w ctx env)).
Proof.
  intros Hevs. rewrite /dispatch_text /builtin_dispatcher. cbn [d_text register_hot register_text].
  destruct (decide (env_svc env = "chat")) as [->|Hne].
  - rewrite lookup_insert_eq. cbn [ts_handle ChatService]. rewrite /chat_handle.
    destruct (bool_decide _); [|done]. destruct (chat_request env) as [[room msg]|]; [|done].
    by apply same_core_reliable.
  - by rewrite lookup_insert_ne.
Qed.

Lemma same_core_dispatch_hot evs w ctx (frame : HotFrame Bytes) :
  same_core alone w (snd (dispatch_hot builtin_dispatcher evs w ctx frame)).
Proof.
  rewrite /dispatch_hot /builtin_dispatcher. cbn [d_hot register_hot].
  destruct (decide (hf_svc_id frame = 1)) as [->|Hne].
  - rewrite lookup_insert_eq. cbn [bs_handle_binary EchoBinaryService].
    rewrite /echo_handle_binary. destruct (ctx_active_room ctx) as [room|].
    + pose proof (same_core_lossy w (room_key (ctx_tenant ctx) room)
        (mkOutgoing Lossy (Binary (hf_payload frame)))) as Hs.
      rewrite /ctx_publish_room_lossy. by destruct (core_publish_room_lossy _ _ _).
    + pose proof (same_core_session w (ctx_session_key ctx)
        (mkOutgoing Lossy (Binary (hf_payload frame)))) as Hs.
      rewrite /ctx_send_to_session. by destruct (core_send_to_session _ _ _).
  - by rewrite lookup_insert_ne.
Qed.
End dispatch.

(** ** Sessions and their rooms *)

(** The world holds the memberships [M] and the sessions [L], all under the
    gateway's keys. *)
Record gateway_rep `{!Mpsc} (w : World) (M : members) (L : gmap string Session) : Prop := {
  gr_world : world_rep w M L;
  gr_keyed : keyed M;
  gr_sessions : keyed_sessions L;
}.

(** Moreover, only registered sessions are in rooms. *)
Record live_rep `{!Mpsc} (w : World) (M : members) (L : gmap string Session) : Prop := {
  lr_rep : gateway_rep w M L;
  lr_members k r : (k, r) ∈ M → is_Some (L !! k);
}.

Lemma gateway_rep_same_core `{!Mpsc} alone w w' M L :
  same_core alone w w' → gateway_rep w M L → gateway_rep w' M L.
Proof.
  intros (Hc & Hd & Hf & _) [[Hr Hg Htx Hdr Hfl] Hk Hs]. split; [|done..].
  split; rewrite ?Hc; auto.
Qed.

(** Taking one session, with its memberships, out. *)
Lemma gateway_rep_remove `{!Mpsc} w w' M L k :
  gateway_rep w M L → rooms_rep (presence (w_core w')) (without M k) (without M k) →
  reg_rep (sessions (w_core w')) (delete k L) → is_u64 (w_drops w') → is_u64 (w_fails w') →
  gateway_rep w' (without M k) (delete k L).
Proof.
  intros [[_ _ Htx _ _] Hk Hs] Hr' Hg' Hd' Hf'. split.
  - split; try done. intros k1 k2 s1 s2 [_ ?]%lookup_delete_Some [_ ?]%lookup_delete_Some. by apply Htx.
  - intros x Hx. apply Hk. rewrite /without in Hx. set_solver.
  - intros k' s' [_ Hk']%lookup_delete_Some. by apply Hs.
Qed.

(** A session of the gateway is removed under its own user. *)
Lemma keyed_owned L t u sid :
  keyed_sessions L → safe t = true → safe u = true → owned L (user_key t u) (session_key t u sid).
Proof.
  intros Hs Ht Hu s Hk. destruct (Hs _ _ Hk) as (t' & u' & sid' & Hst & Hsu & Ek & Eu & _). rewrite Eu.
  apply dcolon_unique in Ek as [<- Ek]; [|done..]. by apply dcolon_unique in Ek as [<- _].
Qed.

Lemma cleanup_keyed `{!DashOrder, !DashOrderLaws} p M t u sid :
  rooms_rep p M M → keyed M → safe t = true → safe u = true → Z.of_nat (size M) ≤ u64_max →
  let k := session_key t u sid in
  rooms_rep (cleanup_session p t (user_key t u) k) (without M k) (without M k).
Proof.
  intros Hr Hk Ht Hu Hsz k. rewrite -(key_owner_session t u sid) //.
  apply (cleanup_session_rep key_owner key_tenant same_tenant ref_key_same_tenant); [done| |done].
  intros r. by apply (keyed_tenant M t u sid).
Qed.

(** The memberships of the other sessions are the same. *)
Definition others_same (k : string) (M M' : members) : Prop :=
  ∀ k' r, k' ≠ k → (k', r) ∈ M' ↔ (k', r) ∈ M.

Lemma others_same_without k M M' : others_same k M M' → without M' k = without M k.
Proof.
  intros H. apply set_eq. intros [k' r]. rewrite /without !elem_of_filter. cbn.
  split; intros [Hne Hin]; (split; [done|]); by apply (H k' r Hne).
Qed.

Lemma others_same_registered k M M' (L : gmap string Session) :
  others_same k M M' → is_Some (L !! k) → (∀ k r, (k, r) ∈ M → is_Some (L !! k)) →
  ∀ k r, (k, r) ∈ M' → is_Some (L !! k).
Proof.
  intros Ho Hk HM k' r Hin. destruct (decide (k' = k)) as [->|Hne]; [done|].
  apply (HM k' r). by apply Ho.
Qed.

(** ** One event of a session *)

(** The active room of a task is a room it is in. *)
Definition room_ok (tk : Task) (M : members) : Prop :=
  ∀ r, tk_active_room tk = Some r → (tk_session_key tk, room_key (tk_tenant tk) r) ∈ M.

(** The keys of a task can be read back, and its limits are machine integers. *)
Record task_keyed (tk : Task) : Prop := {
  tr_tenant : safe (tk_tenant tk) = true;
  tr_user : safe (tk_user tk) = true;
  tr_limits : limits_typed (tk_limits tk);
}.

(** The task belongs to a registered session. *)
Record task_rep (tk : Task) (M : members) (L : gmap string Session) : Prop := {
  tr_keyed : task_keyed tk;
  tr_live : is_Some (L !! tk_session_key tk);
  tr_room : room_ok tk M;
}.

(** The parts of a task that never change. *)
Definition tk_identity (tk : Task) : string * string * string * nat * TenantLimits :=
  (tk_tenant tk, tk_user tk, tk_sid tk, tk_tx tk, tk_limits tk).

Lemma identity_key tk tk' :
  tk_identity tk = tk_identity tk' →
  tk_tenant tk = tk_tenant tk' ∧ tk_session_key tk = tk_session_key tk' ∧ tk_limits tk = tk_limits tk'
  ∧ tk_tx tk = tk_tx tk' ∧ tk_user tk = tk_user tk'.
Proof. rewrite /tk_identity /tk_session_key. intros [= -> -> -> -> ->]. done. Qed.

Lemma task_keyed_identity tk tk' : tk_identity tk = tk_identity tk' → task_keyed tk' → task_keyed tk.
Proof. intros [= E1 E2 E3 E4 E5] [Ht Hu Hl]. by split; rewrite ?E1 ?E2 ?E5. Qed.

Section events.
Context {Bytes : Type} `{!BytesOps Bytes, !BytesFrom Bytes, !SerdeJson, !DashOrder, !DashOrderLaws}.
Context `{!Mpsc, !MpscLaws} (alone : Prop).
Implicit Types (st : AppState Bytes) (tk : Task) (M : members) (L : gmap string Session).

(** Memberships that the session of [tk0] may have turned [M0] into. *)
Record moved (tk0 : Task) (M0 : members) (tk : Task) M : Prop := {
  mv_others : others_same (tk_session_key tk0) M0 M;
  mv_size : (size M ≤ S (size M0))%nat;
  mv_room : room_ok tk0 M0 → room_ok tk M;
  mv_limits lims : lims (tk_tenant tk0) = tk_limits tk0 → limits_ok lims M0 → limits_ok lims M;
}.

(** A task and a state reached from the task [tk0], the state [st0] and the
    memberships [M0], by touching no memberships but its own. *)
Record reached (tk0 : Task) st0 (M0 : members) L tk st : Prop := {
  rc_dispatcher : a_dispatcher st = a_dispatcher st0;
  rc_cfg : a_cfg st = a_cfg st0;
  rc_sessions : app_sessions st = app_sessions st0;
  rc_draining : is_draining st = is_draining st0;
  rc_chans : alone → chans_stable (w_chans (a_world st0)) (w_chans (a_world st));
  rc_identity : tk_identity tk = tk_identity tk0;
  rc_members : ∃ M, gateway_rep (a_world st) M L ∧ moved tk0 M0 tk M;
}.

Definition reached_step tk0 st0 M0 L (r : Flow * Task * AppState Bytes) : Prop :=
  reached tk0 st0 M0 L r.1.2 r.2.

(** Metrics, limiters, channels and the rest do not matter. *)
Lemma reached_frame tk0 st0 M0 L tk tk' st st' :
  reached tk0 st0 M0 L tk st →
  tk_identity tk' = tk_identity tk → tk_active_room tk' = tk_active_room tk →
  a_dispatcher st' = a_dispatcher st → a_cfg st' = a_cfg st → is_draining st' = is_draining st →
  same_core alone (a_world st) (a_world st') →
  reached tk0 st0 M0 L tk' st'.
Proof.
  intros [Hd Hc Hse Hdr Hch Hi (M & Hl & [Ho Hs Hr Hlim])] Hid Hroom Hdis Hcfg Hdrain Hsame.
  pose proof Hsame as (Hcore & _ & _ & Hst).
  split; [congruence|congruence| |congruence| |congruence|].
  - by rewrite /app_sessions Hcore.
  - intros Ha. transitivity (w_chans (a_world st)); auto.
  - exists M. split; [by eapply gateway_rep_same_core|]. split; [done|done| |done].
    intros Hok r. rewrite Hroom. intros Hr'. specialize (Hr Hok r Hr').
    destruct (identity_key _ _ Hid) as (-> & -> & _). done.
Qed.

Lemma reached_reply tk0 st0 M0 L flow tk st m :
  reached tk0 st0 M0 L tk st → reached_step tk0 st0 M0 L (reply flow tk st m).
Proof.
  intros Hrc. rewrite /reply /reached_step. destruct (try_send _ _ _) as [[] c'] eqn:E; [|done|];
    (eapply reached_frame; [done..|by eapply same_core_send]).
Qed.

Lemma reached_hot_error tk0 st0 M0 L policy flow tk st code msg :
  reached tk0 st0 M0 L tk st → reached_step tk0 st0 M0 L (hot_error policy flow tk st code msg).
Proof.
  intros Hrc. rewrite /hot_error. destruct (tpr_hot_error_mode policy); [by apply reached_reply|done].
Qed.

Lemma reached_start tk M L st : gateway_rep (a_world st) M L → reached tk st M L tk st.
Proof. intros Hl. split; [done..|]. exists M. split; [done|]. split; [done|lia|done|done]. Qed.

(** Only the identity and the room of the first task, and the lasting parts of
    the first state, matter. *)
Lemma reached_base tk0 tk1 st0 st1 M L r :
  tk_identity tk1 = tk_identity tk0 → tk_active_room tk1 = tk_active_room tk0 →
  a_dispatcher st1 = a_dispatcher st0 → a_cfg st1 = a_cfg st0 → is_draining st1 = is_draining st0 →
  a_world st1 = a_world st0 →
  reached_step tk1 st1 M L r → reached_step tk0 st0 M L r.
Proof.
  intros Hid Hroom Ed Ec Edr Ew [Hd Hc Hse Hdr Hch Hi (M' & Hl & [Ho Hs Hr Hlim])].
  destruct (identity_key _ _ Hid) as (Et & Ek & El & _).
  split; [congruence|congruence| |congruence|by rewrite -Ew|congruence|].
  - by rewrite Hse /app_sessions Ew.
  - exists M'. split; [done|]. split; [by rewrite -Ek|done| |by rewrite -Et -El].
    intros Hok. apply Hr. intros r'. rewrite Hroom Et Ek. apply Hok.
Qed.

(** *** Joining and leaving *)

Lemma room_join_live w M L tk room res w' :
  gateway_rep w M L → task_keyed tk → Z.of_nat (size M) < u64_max →
  (tk_session_key tk, room_key (tk_tenant tk) room) ∉ M →
  join_room_with_limits w (task_ctx tk (tk_active_room tk)) room (tk_limits tk) = (res, w') →
  let M' := if is_ok res then {[(tk_session_key tk, room_key (tk_tenant tk) room)]} ∪ M else M in
  gateway_rep w' M' L
  ∧ sessions (w_core w') = sessions (w_core w) ∧ w_chans w' = w_chans w
  ∧ ∀ lims, lims (tk_tenant tk) = tk_limits tk → limits_ok lims M → limits_ok lims M'.
Proof.
  intros [[Hr Hg Htx Hd Hf] Hk Hs] [Ht Hu Hlim] Hsz Hni. rewrite /join_room_with_limits /=.
  pose proof (try_join_rep key_owner key_tenant same_tenant ref_key_same_tenant _ M
    (tk_session_key tk) (room_key (tk_tenant tk) room) (tk_limits tk) Hr Hni
    (same_tenant_session _ _ _ room Ht Hu) Hlim Hsz) as Hj.
  rewrite {1 2}/tk_session_key key_owner_session // key_tenant_room // in Hj.
  fold (tk_session_key tk) in Hj. rewrite -/(tk_session_key tk).
  destruct (try_join _ _ _ _ _ _) as [res' p']. intros [= <- <-].
  destruct res' as [[]|e]; cbn [is_ok].
  - destruct Hj as [Hcan Hr']. split_and!; [|done|done|].
    + split; [by split| |done].
      intros x [->%elem_of_singleton|Hx]%elem_of_union; [|by apply Hk].
      by exists (tk_tenant tk), (tk_user tk), (tk_sid tk), room.
    + intros lims El HM. apply limits_ok_join; [done..|]. rewrite El. exact Hcan.
  - destruct Hj as (_ & _ & Hr'). split_and!; [|done..]. split; [by split|done..].
Qed.

Lemma room_leave_live w M L tk room :
  gateway_rep w M L → task_keyed tk → Z.of_nat (size M) < u64_max →
  (tk_session_key tk, room_key (tk_tenant tk) room) ∈ M →
  gateway_rep (leave_room w (task_ctx tk None) room)
    (M ∖ {[(tk_session_key tk, room_key (tk_tenant tk) room)]}) L.
Proof.
  intros [[Hr Hg Htx Hd Hf] Hk Hs] [Ht Hu _] Hsz Hin. rewrite /leave_room /=.
  pose proof (leave_rep key_owner key_tenant same_tenant ref_key_same_tenant _ M M _ _ Hr Hin
                ltac:(lia)) as Hr'.
  rewrite {1}/tk_session_key key_owner_session // key_tenant_room // in Hr'.
  split; [by split| |done]. intros x Hx. apply Hk. set_solver.
Qed.

(** *** The handlers *)

(** The session is in the room, as far as the rooms know. *)
Definition in_room st tk (room : string) : bool :=
  bool_decide (tk_session_key tk ∈
    idx_get (room_to_sessions (app_presence st)) (room_key (tk_tenant tk) room)).

Lemma in_room_spec st tk room M L :
  gateway_rep (a_world st) M L →
  in_room st tk room = true ↔ (tk_session_key tk, room_key (tk_tenant tk) room) ∈ M.
Proof using Type.
  intros Hl. rewrite /in_room bool_decide_eq_true.
  apply (idx_elem _ _ (pr_rs _ _ _ _ _ _ (wr_rooms _ _ _ (gr_world _ _ _ Hl)))).
Qed.

(** The envelope of a text frame. *)
Definition event_envelope (ev : Event) : option (Envelope RawValue) :=
  match ev with
  | EvIn _ (Some (MText s)) => match parse_envelope s with Ok env => Some env | Err _ => None end
  | _ => None
  end.

(** Not a second join: a text frame that asks to join asks for a room that
    the session is not in. *)
Definition fresh_join (ev : Event) (tk : Task) (st : AppState Bytes) : bool :=
  match event_envelope ev with
  | Some env =>
      if bool_decide (env_svc env = "room" ∧ env_msg_type env = "join")
      then negb (in_room st tk (default "default" (env_room env))) else true
  | None => true
  end.

(** Not the leave of a room that the session is no longer in. *)
Definition sound_leave (ev : Event) (tk : Task) (st : AppState Bytes) : bool :=
  match event_envelope ev, tk_active_room tk with
  | Some env, Some room =>
      if bool_decide (env_svc env = "room" ∧ env_msg_type env = "leave") then in_room st tk room
      else true
  | _, _ => true
  end.

(** A session whose active room is a room it is in can only leave soundly. *)
Lemma room_ok_sound_leave ev tk st M L :
  gateway_rep (a_world st) M L → room_ok tk M → sound_leave ev tk st = true.
Proof using Type.
  intros Hl Hr. rewrite /sound_leave. destruct (event_envelope ev) as [env|]; [|done].
  destruct (tk_active_room tk) as [room|] eqn:E; [|done]. case_bool_decide; [|done].
  apply (in_room_spec _ _ _ _ _ Hl). by apply Hr.
Qed.

Lemma on_join_reached tk st M L env :
  gateway_rep (a_world st) M L → task_keyed tk → Z.of_nat (size M) < u64_max →
  (tk_session_key tk, room_key (tk_tenant tk) (default "default" (env_room env))) ∉ M →
  reached_step tk st M L (on_join tk st env).
Proof.
  intros Hl Ht Hsz Hni. rewrite /on_join. set (room := default "default" (env_room env)) in *.
  destruct (join_room_with_limits _ _ _ _) as [res w'] eqn:Ej.
  destruct (room_join_live _ _ _ _ _ _ _ Hl Ht Hsz Hni Ej) as (Hl' & Es & Ec & Hlim).
  destruct res as [[]|e]; cbn [is_ok] in Hl', Hlim; apply reached_reply.
  - split; [done|done|by rewrite /app_sessions /= Es|done|intros _; by rewrite /= Ec|done|].
    eexists. split; [exact Hl'|]. split; [| | |done].
    + intros k r Hne. set_solver.
    + rewrite size_union; [|set_solver]. rewrite size_singleton. lia.
    + intros _ r [= <-]. set_solver.
  - split; [done|done|by rewrite /app_sessions /= Es|done|intros _; by rewrite /= Ec|done|].
    exists M. split; [done|]. split; [done|lia|done|done].
Qed.

Lemma on_leave_reached tk st M L :
  gateway_rep (a_world st) M L → task_keyed tk → Z.of_nat (size M) < u64_max → room_ok tk M →
  reached_step tk st M L (on_leave tk st).
Proof.
  intros Hl Ht Hsz Hr. rewrite /on_leave. destruct (tk_active_room tk) as [room|] eqn:Er.
  - apply reached_reply. pose proof (Hr room Er) as Hin.
    split; [done|done|done|done|done|done|]. eexists. split; [by apply room_leave_live|]. split.
    + intros k r Hne. set_solver.
    + etransitivity; [apply subseteq_size|by apply Nat.le_succ_diag_r]. set_solver.
    + intros _ r. done.
    + intros lims _. apply limits_ok_mono. set_solver.
  - by apply reached_reply, reached_start.
Qed.

(** What a dispatch needs to know of the schedule it runs along. *)
Definition undisturbed (ev : Event) : bool :=
  match ev with EvIn rd _ => forallb no_other (rd_evs rd) | _ => true end.

Lemma on_dispatch_text_reached tk0 st0 rd tk st M L env :
  a_dispatcher st = builtin_dispatcher → (alone → forallb no_other (rd_evs rd) = true) →
  reached tk0 st0 M L tk st → reached_step tk0 st0 M L (on_dispatch_text rd tk st env).
Proof.
  intros Hd Hevs Hrc. rewrite /on_dispatch_text Hd.
  pose proof (same_core_dispatch_text alone (rd_evs rd) (a_world st) (task_ctx tk (tk_active_room tk))
                env Hevs) as Hs.
  destruct (dispatch_text _ _ _ _ _) as [res w'].
  destruct res as [[[]|e]|]; [|apply reached_reply|]; by eapply reached_frame.
Qed.

(** The connection limiter changes nothing else of the task. *)
Lemma conn_limiter_frame rd tk :
  let p := match tk_conn_limiter tk with
           | None => (Done true, tk)
           | Some lim =>
               match crl_allow (rd_checks rd) (rd_conn rd) lim with
               | Done (ok, lim) => (Done ok, set_conn_limiter tk (Some lim))
               | Panic => (Panic, tk)
               end
           end in
  ∃ lim, p.2 = set_conn_limiter tk lim.
Proof using Type.
  destruct (tk_conn_limiter tk) as [lim|] eqn:E.
  - destruct (crl_allow _ _ lim) as [[ok lim']|]; [by eexists|].
    exists (Some lim). cbn. by destruct tk; cbn in *; subst.
  - exists None. cbn. by destruct tk; cbn in *; subst.
Qed.

Lemma on_text_reached rd tk st M L env len :
  a_dispatcher st = builtin_dispatcher → (alone → forallb no_other (rd_evs rd) = true) →
  gateway_rep (a_world st) M L → task_keyed tk → Z.of_nat (size M) < u64_max →
  (env_svc env = "room" ∧ env_msg_type env = "join" →
   (tk_session_key tk, room_key (tk_tenant tk) (default "default" (env_room env))) ∉ M) →
  (env_svc env = "room" ∧ env_msg_type env = "leave" → room_ok tk M) →
  reached_step tk st M L (on_text rd tk st env len).
Proof.
  intros Hd Hevs Hl Ht Hsz Hfresh Hleave. rewrite /on_text.
  pose proof (conn_limiter_frame rd tk) as [lim Hp].
  destruct (match tk_conn_limiter tk with None => _ | Some _ => _ end) as [ok tk1].
  cbn [snd] in Hp. subst tk1.
  assert (task_keyed (set_conn_limiter tk lim)) as Ht' by by destruct Ht.
  assert (reached tk st M L (set_conn_limiter tk lim) st) as Hrc
    by (eapply reached_frame; [by apply reached_start|done..]).
  destruct ok as [[]|]; [|by eapply reached_frame|done].
  destruct (tenant_policy st _) as [policy|]; [|done].
  destruct (check_text _ _ _ _ _ _) as [dec policy']. destruct dec as [dec|]; [|by eapply reached_frame].
  destruct dec as [| |code msg|code msg].
  - apply (reached_base _ (set_conn_limiter tk lim) _ (set_policy st (tk_tenant (set_conn_limiter tk lim)) policy'));
      [done..|].
    rewrite /on_text_passed. case_bool_decide as Ej.
    { apply on_join_reached; auto. }
    case_bool_decide as El; [apply on_leave_reached; auto|].
    by apply on_dispatch_text_reached, reached_start.
  - by eapply reached_frame.
  - apply reached_reply. by eapply reached_frame.
  - apply reached_reply. by eapply reached_frame.
Qed.

Lemma on_hot_reached rd tk st M L frame len :
  a_dispatcher st = builtin_dispatcher → gateway_rep (a_world st) M L →
  reached_step tk st M L (on_hot rd tk st frame len).
Proof.
  intros Hd Hl. rewrite /on_hot. pose proof (reached_start tk _ _ _ Hl) as Hrc.
  destruct (tenant_policy st _) as [policy|]; [|done].
  destruct (check_hot _ _ _ _ _ _) as [dec policy']. destruct dec as [dec|]; [|by eapply reached_frame].
  destruct dec as [| |code msg|code msg].
  - destruct (_ && _); [apply reached_hot_error; by eapply reached_frame|].
    rewrite /on_dispatch_hot. cbn [a_dispatcher set_policy]. rewrite Hd.
    pose proof (same_core_dispatch_hot alone (rd_evs rd) (a_world st)
      (task_ctx (set_hot_ops tk (wrap64 (tk_hot_ops tk + 1))) (tk_active_room tk)) frame) as Hs.
    cbn [tk_active_room set_hot_ops a_world set_policy]. destruct (dispatch_hot _ _ _ _ _) as [res w'].
    destruct res as [res|]; [|by eapply reached_frame].
    destruct (_ =? 0); (destruct res as [[]|e]; [|apply reached_hot_error]); by eapply reached_frame.
  - by eapply reached_frame.
  - apply reached_hot_error. by eapply reached_frame.
  - apply reached_hot_error. by eapply reached_frame.
Qed.

Lemma on_event_reached ev tk st M L :
  a_dispatcher st = builtin_dispatcher → (alone → undisturbed ev = true) →
  gateway_rep (a_world st) M L → task_keyed tk → Z.of_nat (size M) < u64_max →
  fresh_join ev tk st = true → sound_leave ev tk st = true →
  reached_step tk st M L (on_event ev tk st).
Proof.
  intros Hd Hevs Hl Ht Hsz Hfresh Hleave. pose proof (reached_start tk _ _ _ Hl) as Hrc.
  destruct ev as [wr|rd [msg|]| |now]; cbn [on_event].
  - rewrite /on_out. pose proof (recv_first (w_chans (a_world st)) (tk_tx tk)) as Hrecv.
    destruct (recv _ _) as [[m c']|]; [|done].
    assert (chans_stable (w_chans (a_world st)) c') as Hst.
    { destruct Hrecv as (_ & Ho & Hc & Hsame). intros tx.
      destruct (decide (tx = tk_tx tk)) as [->|Hne]; [done|]. by destruct (Hsame tx Hne) as (_ & ? & ?). }
    destruct wr; (eapply reached_frame; [done..|by apply same_core_chans]).
  - rewrite /on_incoming. set (tk' := set_last_activity tk (rd_now rd)).
    assert (task_keyed tk') as Ht' by by destruct Ht.
    apply (reached_base _ tk' _ st); [done..|].
    assert (reached tk' st M L tk' st) as Hrc' by by apply reached_start.
    destruct msg as [s|b|b|b|fr]; cbn [decode].
    + rewrite /fresh_join /sound_leave /= in Hfresh, Hleave.
      destruct (parse_envelope s) as [env|e]; cbn [map_err].
      2:{ apply reached_reply. by eapply reached_frame. }
      apply on_text_reached; [done..| |].
      * intros Hj. rewrite bool_decide_true // in Hfresh. apply negb_true_iff in Hfresh.
        intros Hin%(in_room_spec st tk _ _ _ Hl). congruence.
      * intros Hj r Hr. cbn in Hr. rewrite Hr bool_decide_true // in Hleave.
        by apply (in_room_spec st tk _ _ _ Hl).
    + destruct (decode_hot_frame _) as [[frame|e]|]; [| |done].
      * by apply on_hot_reached.
      * apply reached_reply. by eapply reached_frame.
    + by apply reached_reply.
    + done.
    + done.
  - done.
  - by apply reached_reply.
  - rewrite /on_idle. destruct (_ <=? _); [by apply reached_reply|done].
Qed.

(** The guard takes the session, and nothing else, out. *)
Lemma session_end_rep tk st M L :
  gateway_rep (a_world st) M L → task_keyed tk → Z.of_nat (size M) ≤ u64_max →
  gateway_rep (a_world (session_end tk st)) (without M (tk_session_key tk)) (delete (tk_session_key tk) L).
Proof.
  intros Hl [Ht Hu _] Hsz. pose proof Hl as [[Hr Hg Htx Hd Hf] Hk Hs].
  rewrite /session_end /session_cleanup /app_sessions.
  destruct (remove_session_rep _ L (tk_user_key tk) (tk_session_key tk) Hg
              (keyed_owned _ _ _ _ Hs Ht Hu)) as [_ Hg'].
  destruct (remove_session _ _ _) as [c1 r]. cbn [snd] in Hg'.
  apply (gateway_rep_remove (a_world st)); [done| |done..].
  by apply (cleanup_keyed _ M (tk_tenant tk) (tk_user tk) (tk_sid tk)).
Qed.
End events.

(** *** The loop of one session *)

Section loop.
Context {Bytes : Type} `{!BytesOps Bytes, !BytesFrom Bytes, !SerdeJson, !DashOrder, !DashOrderLaws}.
Context `{!Mpsc, !MpscLaws}.
Implicit Types (st : AppState Bytes) (tk : Task) (M : members) (L : gmap string Session).

(** No event of the run is a second join. *)
Fixpoint clean_run (evs : list Event) (tk : Task) (st : AppState Bytes) : bool :=
  match evs with
  | [] => true
  | ev :: evs =>
      fresh_join ev tk st
      && match on_event ev tk st with
         | (Continue, tk, st) => clean_run evs tk st
         | _ => true
         end
  end.

Lemma session_loop_rep evs tk st M L :
  a_dispatcher st = builtin_dispatcher → gateway_rep (a_world st) M L → task_keyed tk → room_ok tk M →
  Z.of_nat (size M + length evs) < u64_max → clean_run evs tk st = true →
  let '(_, tk', st') := session_loop evs tk st in
  tk_identity tk' = tk_identity tk
  ∧ ∃ M', gateway_rep (a_world st') M' L ∧ others_same (tk_session_key tk) M M'
          ∧ (size M' ≤ size M + length evs)%nat.
Proof.
  revert tk st M. induction evs as [|ev evs IH]; intros tk st M Hd Hl Ht Hr Hsz Hclean; cbn [session_loop].
  { split; [done|]. exists M. split_and!; [done..|lia]. }
  cbn [clean_run] in Hclean. apply andb_true_iff in Hclean as [Hfresh Hclean]. cbn [length] in Hsz.
  pose proof (on_event_reached False ev tk st M L Hd ltac:(done) Hl Ht ltac:(lia) Hfresh
    (room_ok_sound_leave _ _ _ _ _ Hl Hr)) as Hstep.
  destruct (on_event ev tk st) as [[flow tk1] st1].
  destruct Hstep as [Hd1 _ _ _ _ Hi1 (M1 & Hl1 & [Ho1 Hs1 Hr1 _])]. cbn [fst snd] in *.
  assert (∃ M', gateway_rep (a_world st1) M' L ∧ others_same (tk_session_key tk) M M'
                ∧ (size M' ≤ size M + S (length evs))%nat) as Hstop
    by (exists M1; split_and!; [done..|lia]).
  destruct flow; try by split.
  specialize (IH tk1 st1 M1 ltac:(congruence) Hl1 (task_keyed_identity _ _ Hi1 Ht) (Hr1 Hr) ltac:(lia) Hclean).
  destruct (session_loop evs tk1 st1) as [[flow2 tk2] st2].
  destruct IH as (Hi2 & M2 & Hl2 & Ho2 & Hs2). split; [congruence|].
  exists M2. split_and!; [done| |cbn [length]; lia].
  destruct (identity_key _ _ Hi1) as (_ & Ek & _). rewrite Ek in Ho2.
  intros k r Hne. rewrite Ho2 //. by apply Ho1.
Qed.

(** A session leaves nothing behind. Whatever a session does from the
    point where it is registered (any events of its loop, in any order, its
    dispatches interleaved with other tasks, the loop ended in any way), as
    long as it does not join a room that it is in, the cleanup at its end leaves
    the registry and the rooms as if it had never been there: the other sessions,
    their rooms and the counters are the same. *)
Lemma session_end_clean evs tk st M L :
  a_dispatcher st = builtin_dispatcher → live_rep (a_world st) M L → task_rep tk M L →
  Z.of_nat (size M + length evs) < u64_max → clean_run evs tk st = true →
  let '(_, tk', st') := session_loop evs tk st in
  live_rep (a_world (session_end tk' st')) (without M (tk_session_key tk))
    (delete (tk_session_key tk) L).
Proof.
  intros Hd [Hl Hm] [Ht Hlive Hr] Hsz Hclean.
  pose proof (session_loop_rep evs tk st M L Hd Hl Ht Hr Hsz Hclean) as Hloop.
  destruct (session_loop evs tk st) as [[flow tk'] st']. destruct Hloop as (Hi & M' & Hl' & Ho & Hs).
  pose proof (session_end_rep tk' st' M' L Hl' (task_keyed_identity _ _ Hi Ht) ltac:(lia)) as Hend.
  destruct (identity_key _ _ Hi) as (_ & Ek & _). rewrite Ek in Hend.
  rewrite -(others_same_without _ _ _ Ho). split; [done|].
  intros k r [Hne Hin]%elem_of_filter. cbn in Hne. rewrite lookup_delete_ne //.
  apply (Hm k r). by apply Ho.
Qed.
End loop.

(** ** Nothing passes the policy *)

(** The rate limiter of the connection and the policy of the tenant let a
    text frame pass. *)
Definition text_passes {Bytes : Type} `{!BytesOps Bytes, !SerdeJson, !DashOrder, !Mpsc}
    (rd : Reading) (tk : Task) (st : AppState Bytes) (env : Envelope RawValue) (len : Z) : bool :=
  match tk_conn_limiter tk with
  | None => true
  | Some lim => match crl_allow (rd_checks rd) (rd_conn rd) lim with Done (ok, _) => ok | Panic => false end
  end
  && match tenant_policy st (tk_tenant tk) with
     | None => false
     | Some policy =>
         match fst (check_text (rd_checks rd) (rd_tenant rd) policy len (env_svc env) (env_msg_type env)) with
         | Done Pass => true
         | _ => false
         end
     end.

(** The policy of the tenant lets a hot frame pass, and the session is in a
    room if it has to be. *)
Definition hot_passes {Bytes : Type} `{!BytesOps Bytes, !SerdeJson, !DashOrder, !Mpsc}
    (rd : Reading) (tk : Task) (st : AppState Bytes) (frame : HotFrame Bytes) (len : Z) : bool :=
  match tenant_policy st (tk_tenant tk) with
  | None => false
  | Some policy =>
      match fst (check_hot (rd_checks rd) (rd_tenant rd) policy len (hf_svc_id frame) (hf_opcode frame)) with
      | Done Pass =>
          negb (tpr_hot_requires_active_room policy && bool_decide (tk_active_room tk = None))
      | _ => false
      end
  end.

(** Nothing happened but, perhaps, a message to the session itself. *)
Definition quiet {Bytes : Type} `{!SerdeJson, !Mpsc} (tk : Task) (st st' : AppState Bytes) : Prop :=
  w_core (a_world st') = w_core (a_world st)
  ∧ ∀ tx, tx ≠ tk_tx tk → ch_queue (w_chans (a_world st')) tx = ch_queue (w_chans (a_world st)) tx.

Section mediation.
Context {Bytes : Type} `{!BytesOps Bytes, !BytesFrom Bytes, !SerdeJson, !DashOrder, !Mpsc, !MpscLaws}.
Implicit Types (st : AppState Bytes) (tk : Task).

Lemma quiet_reply flow tk tk' st0 st m :
  quiet tk st0 st → tk_tx tk' = tk_tx tk → quiet tk st0 (reply flow tk' st m).2.
Proof.
  intros [Hc Hq] Htx. rewrite /reply. destruct (try_send _ _ _) as [res c'] eqn:E.
  apply try_send_spec in E as (_ & Hsame & Hqs & _).
  destruct res; (split; [done|]); cbn [snd]; [|done|]; intros tx Hne; cbn; rewrite Hqs Htx;
    repeat case_decide; rewrite ?app_nil_r; naive_solver.
Qed.

Lemma quiet_hot_error policy flow tk tk' st0 st code msg :
  quiet tk st0 st → tk_tx tk' = tk_tx tk → quiet tk st0 (hot_error policy flow tk' st code msg).2.
Proof.
  intros Hq Htx. rewrite /hot_error. destruct (tpr_hot_error_mode policy); [by apply quiet_reply|done].
Qed.

Lemma on_text_quiet rd tk st env len :
  text_passes rd tk st env len = false → quiet tk st (on_text rd tk st env len).2.
Proof.
  rewrite /text_passes /on_text. destruct (tk_conn_limiter tk) as [lim|].
  - destruct (crl_allow _ _ lim) as [[[] lim']|]; cbn [andb]; [|done|done].
    destruct (tenant_policy st _) as [policy|] eqn:Ep; cbn [tk_tenant set_conn_limiter]; rewrite ?Ep; [|done].
    destruct (check_text _ _ _ _ _ _) as [[[]|] policy']; cbn [fst]; try done; intros _;
      by apply quiet_reply.
  - cbn [andb]. destruct (tenant_policy st _) as [policy|]; [|done].
    destruct (check_text _ _ _ _ _ _) as [[[]|] policy']; cbn [fst]; try done; intros _;
      by apply quiet_reply.
Qed.

Lemma on_hot_quiet rd tk st frame len :
  hot_passes rd tk st frame len = false → quiet tk st (on_hot rd tk st frame len).2.
Proof.
  rewrite /hot_passes /on_hot. destruct (tenant_policy st _) as [policy|]; [|done].
  destruct (check_hot _ _ policy _ _ _) as [dec policy'] eqn:E.
  assert (tpr_hot_requires_active_room policy' = tpr_hot_requires_active_room policy) as Hroom.
  { revert E. rewrite /check_hot. destruct (check_len policy len); [|by intros [= _ <-]..].
    rewrite /tenant_limiter_allow. destruct (tpr_tenant_limiter policy); cbn.
    - destruct (rl_allow _ _ _) as [[[]|] lim']; cbn; try by intros [= _ <-].
      destruct (tpr_hot_rules policy); [by intros [= _ <-]|].
      destruct (negb _); by intros [= _ <-].
    - destruct (tpr_hot_rules policy); [by intros [= _ <-]|]. destruct (negb _); by intros [= _ <-]. }
  destruct dec as [[]|]; cbn [fst]; try done; intros Hp; try by apply quiet_hot_error.
  apply negb_false_iff in Hp. rewrite Hroom Hp. by apply quiet_hot_error.
Qed.
End mediation.

(** C10: the policy mediates everything. An inbound message changes the
    registry, the rooms, or the queue of another session only if it is a text
    frame that the connection limiter and the tenant's policy let pass, or a hot
    frame that the policy lets pass and, if the tenant asks for it, from a session
    in a room. Whatever else arrives, undecodable or not allowed, at most the
    session itself hears of it. *)
Theorem policy_mediates {Bytes : Type} `{!BytesOps Bytes, !BytesFrom Bytes, !SerdeJson, !DashOrder,
    !Mpsc, !MpscLaws} rd tk (st : AppState Bytes) incoming :
  let passed :=
    match incoming with
    | Some msg =>
        match decode msg with
        | Done (Ok (IText env len)) => text_passes rd tk st env len
        | Done (Ok (IHot frame len)) => hot_passes rd tk st frame len
        | _ => false
        end
    | None => false
    end in
  passed = false → quiet tk st (on_incoming rd tk st incoming).2.
Proof.
  intros passed Hp. rewrite /passed in Hp. destruct incoming as [msg|]; [|done]. rewrite /on_incoming.
  destruct (decode msg) as [[[env len|frame len|p|p|]|e]|]; try done.
  - by apply (on_text_quiet rd (set_last_activity tk (rd_now rd))).
  - by apply (on_hot_quiet rd (set_last_activity tk (rd_now rd))).
  - by apply quiet_reply.
  - by apply quiet_reply.
Qed.

(** C39: the connection limiter is not asked about hot frames: with another limiter, or one that is exhausted, or none, a hot frame is handled
    in the same way. With [rate_limit_scope: connection] there is no other limiter either. *)
Theorem hot_lane_unmetered {Bytes : Type} `{!BytesOps Bytes, !BytesFrom Bytes, !SerdeJson, !DashOrder, !Mpsc}
    rd tk (st : AppState Bytes) frame len l :
  on_hot rd (set_conn_limiter tk l) st frame len
  = let '(flow, tk', st') := on_hot rd tk st frame len in (flow, set_conn_limiter tk' l, st').
Proof.
  assert (∀ policy flow tk (st : AppState Bytes) code msg, hot_error policy flow (set_conn_limiter tk l) st code msg
    = let '(flow, tk', st') := hot_error policy flow tk st code msg in (flow, set_conn_limiter tk' l, st')) as Herr.
  { intros policy flow tk0 st0 code msg. rewrite /hot_error. destruct (tpr_hot_error_mode policy); [|done].
    rewrite /reply_error /reply. cbn [tk_tx set_conn_limiter tk_trace]. by destruct (try_send _ _ _) as [[] c]. }
  rewrite /on_hot. cbn [tk_tenant set_conn_limiter]. destruct (tenant_policy st _) as [policy|]; [|done].
  destruct (check_hot _ _ _ _ _ _) as [[[]|] policy']; [|done|apply Herr|apply Herr|done].
  cbn [tk_active_room]. destruct (_ && _); [apply Herr|]. rewrite /on_dispatch_hot. cbv zeta.
  change (set_hot_ops (set_conn_limiter tk l) ?n) with (set_conn_limiter (set_hot_ops tk n) l).
  cbn [tk_hot_ops set_conn_limiter]. set (tk1 := set_hot_ops tk _).
  change (task_ctx (set_conn_limiter tk1 l) ?r) with (task_ctx tk1 r).
  destruct (dispatch_hot _ _ _ _ _) as [[[[]|e]|] w]; [done| |done]. apply Herr.
Qed.

(** ** The task and its own queue *)

Section own_queue.
Context {Bytes : Type} `{!BytesOps Bytes, !BytesFrom Bytes, !SerdeJson, !DashOrder, !Mpsc, !MpscLaws}.
Implicit Types (st : AppState Bytes) (tk : Task).

Abbreviation flow_of r := (fst (fst r)).

(** A failed dispatch left the world alone, so there is still room to say so. *)
Lemma dispatch_text_err evs w ctx env e :
  fst (dispatch_text (builtin_dispatcher (Bytes := Bytes)) evs w ctx env) = Some (Err e) →
  snd (dispatch_text (builtin_dispatcher (Bytes := Bytes)) evs w ctx env) = w.
Proof.
  rewrite /dispatch_text /builtin_dispatcher. cbn [d_text register_hot register_text].
  destruct (decide (env_svc env = "chat")) as [->|Hne]; [|by rewrite lookup_insert_ne].
  rewrite lookup_insert_eq. cbn [ts_handle ChatService]. rewrite /chat_handle.
  destruct (bool_decide _); [|done]. destruct (chat_request env) as [[room msg]|]; [|done].
  rewrite /ctx_publish_room_reliable /core_publish_room_reliable. destruct (prepare _); [|done].
  cbn [fst]. by destruct (fs_pending _).
Qed.

Lemma dispatch_hot_err evs w ctx (frame : HotFrame Bytes) e :
  fst (dispatch_hot builtin_dispatcher evs w ctx frame) = Some (Err e) →
  snd (dispatch_hot builtin_dispatcher evs w ctx frame) = w.
Proof.
  rewrite /dispatch_hot /builtin_dispatcher. cbn [d_hot register_hot].
  destruct (decide (hf_svc_id frame = 1)) as [->|Hne]; [|by rewrite lookup_insert_ne].
  rewrite lookup_insert_eq. cbn [bs_handle_binary EchoBinaryService]. rewrite /echo_handle_binary.
  destruct (ctx_active_room ctx) as [room|].
  - done.
  - rewrite /ctx_send_to_session /core_send_to_session. by destruct (get_session _ _).
Qed.

Lemma reply_not_blocked flow tk st m :
  ch_accepts (w_chans (a_world st)) (tk_tx tk) = true → flow ≠ Blocked →
  flow_of (reply flow tk st m) ≠ Blocked.
Proof.
  intros Ha Hf. rewrite /reply. destruct (try_send _ _ _) as [res c'] eqn:E.
  apply try_send_spec in E as (Hs & _). by rewrite (proj2 Hs Ha).
Qed.

Lemma reply_blocked flow tk st m :
  ch_open (w_chans (a_world st)) (tk_tx tk) = true →
  (ch_cap (w_chans (a_world st)) (tk_tx tk) ≤ length (ch_queue (w_chans (a_world st)) (tk_tx tk)))%nat →
  reply flow tk st m = (Blocked, tk, st).
Proof. intros Ho Hl. rewrite /reply. by rewrite (try_send_full _ _ m Ho Hl). Qed.

Lemma hot_error_not_blocked policy flow tk st code msg :
  ch_accepts (w_chans (a_world st)) (tk_tx tk) = true → flow ≠ Blocked →
  flow_of (hot_error policy flow tk st code msg) ≠ Blocked.
Proof.
  intros Ha Hf. rewrite /hot_error. destruct (tpr_hot_error_mode policy); [by apply reply_not_blocked|done].
Qed.

Lemma on_text_passed_not_blocked rd tk st env :
  a_dispatcher st = builtin_dispatcher → ch_accepts (w_chans (a_world st)) (tk_tx tk) = true →
  flow_of (on_text_passed rd tk st env) ≠ Blocked.
Proof.
  intros Hd Ha. rewrite /on_text_passed. destruct (bool_decide _).
  { rewrite /on_join /join_room_with_limits. destruct (try_join _ _ _ _ _ _) as [[[]|e] p];
      by apply reply_not_blocked. }
  destruct (bool_decide _).
  { rewrite /on_leave. destruct (tk_active_room tk); by apply reply_not_blocked. }
  rewrite /on_dispatch_text Hd.
  pose proof (dispatch_text_err (rd_evs rd) (a_world st) (task_ctx tk (tk_active_room tk)) env) as He.
  destruct (dispatch_text _ _ _ _ _) as [[[[]|e]|] w']; [done| |done]. cbn [fst snd] in He.
  apply reply_not_blocked; [|done]. by rewrite /= (He e eq_refl).
Qed.
Lemma on_text_not_blocked rd tk st env len :
  a_dispatcher st = builtin_dispatcher → ch_accepts (w_chans (a_world st)) (tk_tx tk) = true →
  flow_of (on_text rd tk st env len) ≠ Blocked.
Proof.
  intros Hd Ha. rewrite /on_text.
  set (p := match tk_conn_limiter tk with None => _ | Some _ => _ end).
  assert (tk_tx p.2 = tk_tx tk) as Hp.
  { rewrite /p. destruct (tk_conn_limiter tk) as [lim|]; [|done].
    by destruct (crl_allow _ _ lim) as [[ok lim']|]. }
  destruct p as [[[]|] tk1]; [|done..]. cbn [snd] in Hp. rewrite -Hp in Ha.
  destruct (tenant_policy st _) as [policy|]; [|done].
  destruct (check_text _ _ _ _ _ _) as [[[]|] policy'];
    [by apply on_text_passed_not_blocked|done|by apply reply_not_blocked..|done].
Qed.

Lemma on_hot_not_blocked rd tk st frame len :
  a_dispatcher st = builtin_dispatcher → ch_accepts (w_chans (a_world st)) (tk_tx tk) = true →
  flow_of (on_hot rd tk st frame len) ≠ Blocked.
Proof.
  intros Hd Ha. rewrite /on_hot. destruct (tenant_policy st _) as [policy|]; [|done].
  destruct (check_hot _ _ _ _ _ _) as [[[]|] policy'];
    [|done|by apply hot_error_not_blocked..|done].
  destruct (_ && _); [by apply hot_error_not_blocked|].
  rewrite /on_dispatch_hot. cbn [a_dispatcher set_policy a_world]. rewrite Hd.
  pose proof (dispatch_hot_err (rd_evs rd) (a_world st)
    (task_ctx (set_hot_ops tk (wrap64 (tk_hot_ops tk + 1))) (tk_active_room tk)) frame) as He.
  cbn [tk_active_room set_hot_ops]. destruct (dispatch_hot _ _ _ _ _) as [[[[]|e]|] w']; [done| |done].
  cbn [fst snd] in He. apply hot_error_not_blocked; [|done].
  rewrite -(He e eq_refl) in Ha. by destruct (_ =? 0).
Qed.

Lemma on_event_not_blocked ev tk st :
  a_dispatcher st = builtin_dispatcher → ch_accepts (w_chans (a_world st)) (tk_tx tk) = true →
  flow_of (on_event ev tk st) ≠ Blocked.
Proof.
  intros Hd Ha. destruct ev as [wr|rd [msg|]| |now]; cbn [on_event]; [| |done| |].
  - rewrite /on_out. destruct (recv _ _) as [[m c']|]; [|done]. by destruct wr.
  - rewrite /on_incoming. destruct (decode msg) as [[[env len|frame len|p|p|]|e]|]; try done.
    + by apply on_text_not_blocked.
    + by apply on_hot_not_blocked.
    + by apply reply_not_blocked.
    + by apply reply_not_blocked.
  - by apply reply_not_blocked.
  - rewrite /on_idle. destruct (_ <=? _); [by apply reply_not_blocked|done].
Qed.
End own_queue.

(** C31: the task and its own queue. The task that handles the events of a
    session is also the one that empties its outbound queue. As long as the queue
    has room, no event blocks the task, whatever the peer sends. But when others
    have filled the queue (its capacity is fixed at 1024), the next ping tick, or
    the next ping of the peer, leaves the task waiting for room that only it could
    make: it goes no further, whatever events follow, so it neither writes what is
    queued, nor notices that the peer is idle, nor cleans up. *)
Theorem own_queue {Bytes : Type} `{!BytesOps Bytes, !BytesFrom Bytes, !SerdeJson, !DashOrder,
    !Mpsc, !MpscLaws} tk (st : AppState Bytes) :
  let c := w_chans (a_world st) in
  (a_dispatcher st = builtin_dispatcher → ch_accepts c (tk_tx tk) = true →
   ∀ ev, (on_event ev tk st).1.1 ≠ Blocked)
  ∧ (ch_open c (tk_tx tk) = true → (ch_cap c (tk_tx tk) ≤ length (ch_queue c (tk_tx tk)))%nat →
     (∀ evs, session_loop (EvPing :: evs) tk st = (Blocked, tk, st))
     ∧ ∀ rd p evs, session_loop (EvIn rd (Some (MPing p)) :: evs) tk st
                   = (Blocked, set_last_activity tk (rd_now rd), st)).
Proof.
  intros c. split.
  - intros Hd Ha ev. by apply on_event_not_blocked.
  - intros Ho Hl. split; intros; cbn [session_loop on_event].
    + by rewrite /on_ping reply_blocked.
    + by rewrite /on_incoming /= reply_blocked.
Qed.

(** The version, the flags and the sequence number of an envelope are read
    by nobody: an envelope of any version, with whatever flags, is handled
    like any other with the same service, type, room and data. *)
Theorem text_version_unread {Bytes : Type} `{!BytesOps Bytes, !BytesFrom Bytes, !SerdeJson, !DashOrder, !Mpsc}
    rd tk (st : AppState Bytes) n svc ty room data v flags seq v' flags' seq' :
  a_dispatcher st = builtin_dispatcher →
  on_text rd tk st (mkEnvelope v svc ty flags seq room data) n
  = on_text rd tk st (mkEnvelope v' svc ty flags' seq' room data) n.
Proof.
  intros Hd.
  assert (∀ tk st, a_dispatcher st = builtin_dispatcher →
    on_text_passed rd tk st (mkEnvelope v svc ty flags seq room data)
    = on_text_passed rd tk st (mkEnvelope v' svc ty flags' seq' room data)) as Hpassed.
  { intros tk' st' Hd'. rewrite /on_text_passed /on_dispatch_text /dispatch_text Hd' /=. do 2 (case_bool_decide; [done|]).
    rewrite lookup_insert. by case_decide. }
  rewrite /on_text. cbn [env_svc env_msg_type]. by repeat case_match; try apply Hpassed.
Qed.

(** ** A gateway with two sessions, for evaluation *)

Module Gateway.
Import MiniJson.

Definition policy : TenantPolicy :=
  mkTenantPolicy default_rate_limit_rps default_rate_limit_burst default_rate_limit_scope
    ["room:*"; "chat:send"] ["1:1"] SessionPolicy_default default_hot_error_mode true.
Definition cfg : GatewayConfig :=
  mkGatewayConfig 1 GatewaySection_default [mkTenantConfig "t" Sample.lim policy].
Definition app : AppState (list byte) :=
  mkAppState cfg (match compile_policies 0 (tenants cfg) ∅ with Ok m => m | Err _ => ∅ end)
    Sample.world builtin_dispatcher metrics_default (hd_new 0 (handshake_limit (gateway cfg))) 1 1.
Definition task : Task := mkTask "t" "b" "1" "trace" 2 Sample.lim None 0 None 0 [].
Definition rd : Reading := mkReading false 0 0 0 0 [].
Definition join : Event := EvIn rd (Some (MText "room join lobby")).

Lemma app_live : live_rep (a_world app) Sample.members1 Sample.live.
Proof.
  split; [split; [apply Sample.sample_rep|..]|].
  - intros x Hx. exists "t", "a", "1", "lobby". set_solver.
  - intros k s. rewrite /Sample.live !lookup_insert_Some lookup_empty.
    intros [[<- <-]|(_ & [[<- <-]|(_ & [=])])]; [by exists "t", "b", "1"|by exists "t", "a", "1"].
  - intros k r Hin. assert (k = "t::a::1") as -> by set_solver. by eexists.
Qed.

Lemma task_live : task_rep task Sample.members1 Sample.live.
Proof. by split. Qed.
End Gateway.

Import MiniJson.

(** A service that is not on the allowlist. *)
Lemma policy_mediates_witness :
  quiet Gateway.task Gateway.app
    (on_incoming Gateway.rd Gateway.task Gateway.app (Some (MText "admin shutdown"))).2.
Proof.
  apply (policy_mediates Gateway.rd Gateway.task Gateway.app (Some (MText "admin shutdown"))).
  by vm_compute.
Defined.

(** One queued message fills a queue of capacity one, and the next ping tick
    is the last thing the task sees. *)
Lemma own_queue_witness :
  let st := snd (on_ping Gateway.task Gateway.app) in
  (∀ ev, (on_event ev Gateway.task Gateway.app).1.1 ≠ Blocked)
  ∧ ∀ evs, session_loop (EvPing :: evs) Gateway.task st = (Blocked, Gateway.task, st).
Proof.
  intros st. split.
  - apply (proj1 (own_queue Gateway.task Gateway.app)); [done|by vm_compute].
  - apply (proj2 (own_queue Gateway.task st)); [by vm_compute|vm_compute; lia].
Defined.
