(* ===== verification/Admission.v ===== *)
(** * Admission of sessions

    Who gets past [ws_upgrade], and what [run_session] does before its loop
    ([Ws.v]): the theorems on top of the registry, the rooms and the channels. *)

From S2P Require Import Prelude Errors RustStd HotFrame Config Allowlist TokenBucket Policy Dash.
From S2P Require Import SessionRegistry Presence Keys Channel Envelope Realtime Codec Dispatch.
From S2P Require Import Handshake Metrics AppState Ws Session.

(** The limits of the configured tenants are machine integers. *)
Definition configured {Bytes : Type} `{!SerdeJson, !Mpsc} (st : AppState Bytes) : Prop :=
  ∀ id t, find_tenant st id = Some t →
    limits_typed (limits t) ∧ is_u64 (max_sessions_total (limits t)).

(** ** The upgrade *)

(** The status of the answer; 101 is "switching protocols". *)
Definition upgrade_status (res : option UpgradeResult) : option Z :=
  (λ r, match r with Refused rsp => rsp_status rsp | Upgraded => 101 end) <$> res.

(** What an upgrade counts: a refusal by the limiter or for a full tenant, and an upgrade. *)
Definition upgrade_counts (m : GatewayMetrics) (tenant : string) (draining : bool) (status : option Z) : GatewayMetrics :=
  if decide (status = Some 429) then inc_rejections m [("tenant", tenant); ("reason", "rate_limit")]
  else if decide (status = Some 503 ∧ draining = false) then inc_rejections m [("tenant", tenant); ("reason", "tenant_capacity")]
  else if decide (status = Some 101) then inc_upgrades m [("tenant", tenant); ("status", "ok")]
  else m.

(** C30: who may upgrade. In every state: the answer to an upgrade request is 429 exactly
    when the handshake limiter refuses, 400 exactly when it does not, the gateway
    is not draining and the tenant is not configured, 503 exactly when the limiter does not refuse and the
    gateway is draining or the tenant has a limit that its session counter has reached, and the
    connection is upgraded in the one remaining case; there is no answer exactly if the limiter's check does not return.
    The limiter has then spent its tokens and exactly the metric that belongs to the answer is counted; all else is untouched:
    registry, rooms, channels, policies, configuration. *)
Theorem upgrade_admits {Bytes : Type} `{!BytesOps Bytes, !BytesFrom Bytes, !SerdeJson, !DashOrder,
    !Mpsc} reentrant ck (st : AppState Bytes) ip q :
  let hs := check reentrant ck (a_handshake st) ip in
  let status := upgrade_status (ws_upgrade reentrant ck st ip q).1 in
  let full := ∃ t, find_tenant st (q_tenant q) = Some t
                   ∧ 0 < max_sessions_total (limits t) ≤ count_tenant_sessions (app_sessions st) (q_tenant q) in
  let free := ∃ t, find_tenant st (q_tenant q) = Some t
                   ∧ ¬ (0 < max_sessions_total (limits t) ≤ count_tenant_sessions (app_sessions st) (q_tenant q)) in
  (ws_upgrade reentrant ck st ip q).2
    = set_metrics (set_handshake st hs.2) (upgrade_counts (a_metrics st) (q_tenant q) (is_draining st) status)
  ∧ (status = None ↔ hs.1 = None)
  ∧ (status = Some 429 ↔ ∃ wait, hs.1 = Some (Err wait))
  ∧ (status = Some 400 ↔ hs.1 = Some (Ok tt) ∧ is_draining st = false
                         ∧ find_tenant st (q_tenant q) = None)
  ∧ (status = Some 503 ↔ hs.1 = Some (Ok tt) ∧ (is_draining st = true ∨ full))
  ∧ (status = Some 101 ↔ hs.1 = Some (Ok tt) ∧ is_draining st = false ∧ free).
Proof.
  cbv zeta. rewrite /ws_upgrade. destruct (check _ _ _ _) as [res hs]. cbn [fst snd].
  assert (set_handshake st hs = set_metrics (set_handshake st hs) (a_metrics st)) as Esame by done.
  destruct res as [[[]|wait]|]; [|by cbn; naive_solver..].
  change (is_draining (set_handshake st hs)) with (is_draining st).
  change (find_tenant (set_handshake st hs)) with (find_tenant st).
  destruct (is_draining st) eqn:Ed; [cbn; naive_solver|].
  destruct (find_tenant st (q_tenant q)) as [t|] eqn:Et; [|cbn; naive_solver].
  change (sessions (w_core (a_world (set_handshake st hs)))) with (app_sessions st).
  destruct (_ && _) eqn:Ec; unbool.
  - assert (0 < max_sessions_total (limits t) ≤ count_tenant_sessions (app_sessions st) (q_tenant q)) by lia.
    cbn. naive_solver.
  - assert (¬ (0 < max_sessions_total (limits t) ≤ count_tenant_sessions (app_sessions st) (q_tenant q))) by lia.
    cbn. naive_solver.
Qed.

(** ** Opening a session *)

(** Making room for a session of the user [u]: nobody has to go, or the oldest
    session of the user does, with its memberships. *)
Inductive makes_room (max : Z) (u : string) (M : members) (L : gmap string Session)
    : members → gmap string Session → Prop :=
| room_left : Z.of_nat (size (user_sessions L u)) < max → makes_room max u M L M L
| room_none : user_sessions L u = ∅ → makes_room max u M L M L
| room_kicked k s :
    max ≤ Z.of_nat (size (user_sessions L u)) →
    L !! k = Some s → s_user s = u →
    (∀ k' s', L !! k' = Some s' → s_user s' = u → k' ≠ k → s_seq s < s_seq s') →
    makes_room max u M L (without M k) (delete k L).

Lemma makes_room_sub max u M L M' L' : makes_room max u M L M' L' → M' ⊆ M ∧ L' ⊆ L.
Proof.
  intros []; [done..|]. split; [rewrite /without; set_solver|apply delete_subseteq].
Qed.

(** Nobody is in a room without being registered. *)
Lemma makes_room_members `{!Mpsc} max u w M L M' L' k r :
  makes_room max u M L M' L' → live_rep w M L → (k, r) ∈ M' → is_Some (L' !! k).
Proof.
  intros [] Hl Hin; [by eapply Hl..|]. rewrite /without elem_of_filter in Hin.
  destruct Hin as [Hne Hin]. cbn in Hne. rewrite lookup_delete_ne //. by eapply Hl.
Qed.

Lemma without_id M k : (∀ r, (k, r) ∉ M) → without M k = M.
Proof.
  intros Hno. apply set_eq. intros [k' r]. rewrite /without elem_of_filter. cbn.
  split; [by intros [_ ?]|]. intros Hin. split; [|done]. intros ->. by destruct (Hno r).
Qed.

(** The channels of the registered sessions are open: a task unregisters its
    session before it drops the receiver. *)
Definition chans_open `{!Mpsc} (w : World) (L : gmap string Session) : Prop :=
  ∀ k s, L !! k = Some s → ch_open (w_chans w) (conn_tx (s_conn s)) = true.

(** The users that tickets resolve to have keys that can be read back. *)
Lemma resolve_ticket_safe ticket user : resolve_ticket ticket = Ok user → safe user = true.
Proof. rewrite /resolve_ticket. case_bool_decide; [|done]. by intros [= <-]. Qed.

Section opening.
Context {Bytes : Type} `{!BytesOps Bytes, !BytesFrom Bytes, !SerdeJson, !DashOrder, !DashOrderLaws}.
Context `{!Mpsc, !MpscLaws}.
Implicit Types (st : AppState Bytes) (M : members) (L : gmap string Session).

(** A user key of a registered session is the key of its own user. *)
Lemma keyed_session_user L k s t u :
  keyed_sessions L → L !! k = Some s → s_user s = user_key t u → safe t = true → safe u = true →
  ∃ sid, k = session_key t u sid.
Proof.
  intros Hs Hk Hu Ht Hsu. destruct (Hs _ _ Hk) as (t' & u' & sid & Ht' & Hu' & -> & E & _).
  rewrite E in Hu. apply dcolon_unique in Hu as [<- ->]; [|done..]. by exists sid.
Qed.

(** The parts of the state that opening a session does not touch. *)
Definition fixed st st' : Prop :=
  a_dispatcher st' = a_dispatcher st ∧ a_cfg st' = a_cfg st ∧ is_draining st' = is_draining st.

Lemma fixed_trans st st1 st2 : fixed st st1 → fixed st1 st2 → fixed st st2.
Proof using Type. intros (? & ? & ?) (? & ? & ?). split_and!; congruence. Qed.

(** Sending to other channels leaves a channel alone. *)
Lemma try_send_same c tx m res c' tx' :
  try_send c tx m = (res, c') → tx' ≠ tx → ch_same c c' tx'.
Proof.
  intros (_ & _ & Hq & Hoc)%try_send_spec Hne. destruct (Hoc tx') as [Ho Hcap].
  split_and!; [|done..]. rewrite Hq decide_False; [by rewrite app_nil_r|naive_solver].
Qed.

Lemma kick_oldest_live st M L t u max trace :
  gateway_rep (a_world st) M L → safe t = true → safe u = true → Z.of_nat (size M) ≤ u64_max →
  max ≤ Z.of_nat (size (user_sessions L (user_key t u))) →
  let st' := kick_oldest st t (user_key t u) trace in
  (∃ M' L', makes_room max (user_key t u) M L M' L' ∧ gateway_rep (a_world st') M' L')
  ∧ sr_seq (app_sessions st') = sr_seq (app_sessions st)
  ∧ fixed st st' ∧ chans_stable (w_chans (a_world st)) (w_chans (a_world st'))
  ∧ ∀ tx, (∀ k s, L !! k = Some s → conn_tx (s_conn s) ≠ tx) →
          ch_same (w_chans (a_world st)) (w_chans (a_world st')) tx.
Proof.
  intros Hl Ht Hu Hsz Hmax. pose proof Hl as [[Hr Hg Htx Hd Hf] Hk Hs]. rewrite /kick_oldest.
  pose proof (evict_oldest_rep _ L (user_key t u) Hg) as Hev.
  pose proof (evict_oldest_seq (app_sessions st) (user_key t u)) as Hseq.
  rewrite /app_sessions in Hseq |- *. destruct (evict_oldest _ _) as [[[k conn]|] r'].
  2:{ destruct Hev as [Hnone ->]. split_and!; [|done..]. exists M, L.
      split; [by apply room_none|]. by split. }
  destruct Hev as (s & Hks & Hus & -> & Hold & Hg').
  destruct (try_send _ _ _) as [res1 c1] eqn:E1. destruct (try_send c1 _ _) as [res2 c2] eqn:E2.
  split_and!; [|by eapply Hseq|done| |].
  - exists (without M k), (delete k L). split; [by eapply room_kicked|].
    destruct (keyed_session_user _ _ _ _ _ Hs Hks Hus Ht Hu) as [sid ->].
    apply (gateway_rep_remove (a_world st)); [done| |done..].
    by apply (cleanup_keyed _ M t u sid).
  - cbn. transitivity c1; by eapply try_send_stable.
  - intros tx Hno. specialize (Hno _ _ Hks).
    destruct (try_send_same _ _ _ _ _ tx E1 ltac:(done)) as (? & ? & ?).
    destruct (try_send_same _ _ _ _ _ tx E2 ltac:(done)) as (? & ? & ?).
    cbn. split_and!; congruence.
Qed.
Lemma gateway_rep_insert w w' M L t u sid tx r seq :
  gateway_rep w M L → safe t = true → safe u = true →
  (∀ k s, L !! k = Some s → conn_tx (s_conn s) ≠ tx) →
  reg_rep r (<[session_key t u sid := mkSession (user_key t u) t (mkConnection tx) seq]> L) →
  sessions (w_core w') = r → presence (w_core w') = presence (w_core w) →
  w_drops w' = w_drops w → w_fails w' = w_fails w →
  gateway_rep w' M (<[session_key t u sid := mkSession (user_key t u) t (mkConnection tx) seq]> L).
Proof using Type.
  intros [[Hr Hg Htx Hd Hf] Hk Hs] Ht Hu Hno Hg' Er Ep Ed Ef. split.
  - split; rewrite ?Er ?Ep ?Ed ?Ef //. intros k k' s s'. rewrite !lookup_insert_Some.
    intros [[<- <-]|[_ Hx]] [[<- <-]|[_ Hy]] Heq; cbn in Heq; [done| | |by eapply Htx].
    + by destruct (Hno _ _ Hy).
    + by destruct (Hno _ _ Hx).
  - done.
  - intros k s [[<- <-]|[_ Hks]]%lookup_insert_Some; [by exists t, u, sid|by apply Hs].
Qed.

(** What a task starts with. *)
Definition starts (tk : Task) st M L (t u sid trace : string) (tx : nat) (tc : TenantConfig) : Prop :=
  tk_identity tk = (t, u, sid, tx, limits tc) ∧ tk_active_room tk = None
  ∧ gateway_rep (a_world st) M L ∧ task_keyed tk
  ∧ ch_open (w_chans (a_world st)) tx = true
  ∧ ch_queue (w_chans (a_world st)) tx = [MText (sys_authed_json t u sid trace)].

(** A task that starts runs a registered session. *)
Lemma starts_live tk st M L t u sid trace tx tc s :
  starts tk st M (<[session_key t u sid := s]> L) t u sid trace tx tc →
  (∀ k r, (k, r) ∈ M → is_Some (L !! k)) →
  live_rep (a_world st) M (<[session_key t u sid := s]> L)
  ∧ task_rep tk M (<[session_key t u sid := s]> L).
Proof using Type.
  intros ([= E1 E2 E3 E4 E5] & Hroom & Hl & Ht & _) Hm. split; [split; [done|]|].
  - intros k r Hin. rewrite lookup_insert. case_decide; [by eexists|by eapply Hm].
  - split; [done| |].
    + rewrite /tk_session_key E1 E2 E3 lookup_insert_eq. by eexists.
    + intros r. by rewrite Hroom.
Qed.

Lemma session_register_live now policy st M L t u sid trace tx tc :
  gateway_rep (a_world st) M L → configured st → find_tenant st t = Some tc →
  safe t = true → safe u = true → L !! session_key t u sid = None →
  Z.of_nat (size L) < u64_max → sr_seq (app_sessions st) < u64_max →
  ch_accepts (w_chans (a_world st)) tx = true → ch_queue (w_chans (a_world st)) tx = [] →
  (∀ k s, L !! k = Some s → conn_tx (s_conn s) ≠ tx) →
  let '(o, st') := session_register now policy st t u sid trace tx in
  fixed st st' ∧ sr_seq (app_sessions st') ≤ sr_seq (app_sessions st) + 1
  ∧ (∀ tx', tx' ≠ tx → ch_open (w_chans (a_world st')) tx' = ch_open (w_chans (a_world st)) tx')
  ∧ if decide (has_room (max_sessions_total (limits tc)) (tenant_count L t)) then
      ∃ tk, o = Running tk
            ∧ starts tk st' M (<[session_key t u sid := mkSession (user_key t u) t (mkConnection tx)
                                  (sr_seq (app_sessions st))]> L) t u sid trace tx tc
    else o = Returned (Err (EResourceExhausted "tenant session limit reached"))
         ∧ gateway_rep (a_world st') M L.
Proof.
  intros Hl Hcf Htc Ht Hu Hk Hsz Hseq Ha Hq Hno. pose proof Hl as [[Hr Hg Htx Hd Hf] HkM Hs].
  destruct (Hcf _ _ Htc) as [Hlt Hmax]. rewrite /session_register Htc.
  pose proof (try_insert_rep _ L t (user_key t u) (session_key t u sid) (mkConnection tx)
    (max_sessions_total (limits tc)) Hg Hk Hmax Hsz Hseq) as Hins. rewrite /app_sessions in Hins |- *.
  assert (sr_seq (snd (try_insert (app_sessions st) t (user_key t u) (session_key t u sid)
            (mkConnection tx) (max_sessions_total (limits tc)))) ≤ sr_seq (app_sessions st) + 1) as Hsq
    by by apply (try_insert_seq _ L).
  rewrite /app_sessions in Hsq |- *.
  destruct (try_insert _ _ _ _ _ _) as [res r]. cbn [fst snd] in Hins, Hsq.
  case_decide as Hroom; destruct Hins as [-> Hg'].
  - cbn [w_chans set_world set_core set_metrics set_app_core a_world].
    destruct (try_send _ _ _) as [res c'] eqn:E. apply try_send_spec in E as (Hsent & _ & Hq' & Hoc).
    rewrite (proj2 Hsent Ha). split_and!; [done|done|by intros tx' _; apply Hoc|].
    eexists. split; [done|]. split_and!; [done|done| |done| |].
    + by eapply (gateway_rep_insert (a_world st)).
    + cbn. rewrite (proj1 (Hoc tx)). by apply andb_true_iff in Ha as [? _].
    + cbn. rewrite Hq' Hq decide_True //.
  - split_and!; [done|done| |done|split; [by split|done..]].
    intros tx' Hne. destruct (drop_rx_closed (w_chans (a_world st)) tx) as [_ Hsame].
    by destruct (Hsame tx' Hne) as (_ & ? & _).
Qed.

(** Drawing a session id and a trace id changes only their counters. *)
Lemma ids_frame st st1 st2 q nanos sid trace :
  take_sid st q = (sid, st1) → gen_trace nanos st1 = (trace, st2) →
  a_world st2 = a_world st ∧ fixed st st2.
Proof using Type.
  rewrite /take_sid /gen_trace. destruct (q_sid q).
  - intros [= <- <-] [= <- <-]. done.
  - rewrite /gen_sid. intros [= <- <-] [= <- <-]. done.
Qed.

(** A new channel is nobody's, empty and has room. *)
Lemma new_channel w L tx c' n :
  mpsc_channel (w_chans w) (S n) = (tx, c') → chans_open w L →
  ch_accepts c' tx = true ∧ ch_queue c' tx = []
  ∧ (∀ k s, L !! k = Some s → conn_tx (s_conn s) ≠ tx)
  ∧ ch_open (w_chans w) tx = false
  ∧ (∀ tx', tx' ≠ tx → ch_open c' tx' = ch_open (w_chans w) tx').
Proof.
  intros (Ho & Ho' & Hq & Hcap & Hsame)%mpsc_channel_new Hopen.
  split_and!; [|done| |done|].
  - by rewrite /ch_accepts Ho' Hq Hcap.
  - intros k s Hk <-. by rewrite (Hopen _ _ Hk) in Ho.
  - intros tx' Hne. by destruct (Hsame tx' Hne) as (_ & ? & _).
Qed.

(** How opening a session may end, for a user of a tenant with the policy [sp]
    and the section [tc]. *)
Definition open_outcome st (sp : SessionPolicy) (tc : TenantConfig) M L (t u sid : string)
    (r : Opened * AppState Bytes) : Prop :=
  let uk := user_key t u in
  let max := max_sessions_per_user sp in
  let cap := max_sessions_total (limits tc) in
  let '(o, st') := r in
  let c := w_chans (a_world st) in
  fixed st st' ∧ sr_seq (app_sessions st') ≤ sr_seq (app_sessions st) + 1
  ∧ (∀ tx, ch_open c tx = true → ch_open (w_chans (a_world st')) tx = true)
  ∧ match o with
    | Running tk =>
        ∃ M' L' trace tx seq,
          makes_room max uk M L M' L' ∧ has_room cap (tenant_count L' t)
          ∧ (on_exceed sp = Deny → Z.of_nat (size (user_sessions L uk)) < max) ∧ ch_open c tx = false
          ∧ starts tk st' M' (<[session_key t u sid := mkSession uk t (mkConnection tx) seq]> L')
              t u sid trace tx tc
    | Returned (Ok _) =>
        on_exceed sp = Deny ∧ max ≤ Z.of_nat (size (user_sessions L uk)) ∧ gateway_rep (a_world st') M L
    | Returned (Err e) =>
        e = EResourceExhausted "tenant session limit reached"
        ∧ ∃ M' L', makes_room max uk M L M' L' ∧ ¬ has_room cap (tenant_count L' t)
                   ∧ gateway_rep (a_world st') M' L'
    | OpenPanicked | OpenBlocked => False
    end.

(** Registering after room has been made. *)
Lemma open_register now policy st st1 M L M1 L1 sp tc t u sid trace tx :
  makes_room (max_sessions_per_user sp) (user_key t u) M L M1 L1 →
  (on_exceed sp = Deny → Z.of_nat (size (user_sessions L (user_key t u))) < max_sessions_per_user sp) →
  gateway_rep (a_world st1) M1 L1 → configured st1 → find_tenant st1 t = Some tc →
  safe t = true → safe u = true → L !! session_key t u sid = None →
  Z.of_nat (size L) < u64_max → sr_seq (app_sessions st1) = sr_seq (app_sessions st) →
  sr_seq (app_sessions st) < u64_max →
  ch_accepts (w_chans (a_world st1)) tx = true → ch_queue (w_chans (a_world st1)) tx = [] →
  (∀ k s, L !! k = Some s → conn_tx (s_conn s) ≠ tx) → fixed st st1 →
  ch_open (w_chans (a_world st)) tx = false →
  (∀ tx', tx' ≠ tx → ch_open (w_chans (a_world st1)) tx' = ch_open (w_chans (a_world st)) tx') →
  open_outcome st sp tc M L t u sid (session_register now policy st1 t u sid trace tx).
Proof.
  intros Hmk Hdeny Hl Hcf Htc Ht Hu Hk Hsz Hsq Hseq Ha Hq Hno Hfix Hnew Hother.
  destruct (makes_room_sub _ _ _ _ _ _ Hmk) as [_ Hsub].
  assert (L1 !! session_key t u sid = None) as Hk1 by by eapply lookup_weaken_None.
  pose proof (map_subseteq_size _ _ Hsub).
  pose proof (session_register_live now policy st1 M1 L1 t u sid trace tx tc Hl Hcf Htc Ht Hu Hk1
    ltac:(lia) ltac:(lia) Ha Hq (λ k s Hks, Hno k s (lookup_weaken _ _ _ _ Hks Hsub))) as Hreg.
  destruct (session_register _ _ _ _ _ _ _ _) as [o st']. destruct Hreg as (Hfix' & Hsq' & Ho' & Hreg).
  rewrite /open_outcome. split_and!; [by eapply fixed_trans|lia| |].
  - intros tx' Htx'. rewrite Ho' ?Hother //; intros ->; congruence.
  - case_decide as Hroom.
    + destruct Hreg as (tk & -> & Hst). by eexists _, _, _, _, _.
    + destruct Hreg as [-> Hl']. split; [done|]. by eexists _, _.
Qed.
End opening.

(** The whole of [run_session] before its loop. *)
Lemma session_open_outcome {Bytes : Type} `{!BytesOps Bytes, !BytesFrom Bytes, !SerdeJson, !DashOrder,
    !DashOrderLaws, !Mpsc, !MpscLaws} now nanos (st : AppState Bytes) q M L policy tc user :
  gateway_rep (a_world st) M L → chans_open (a_world st) L → configured st →
  tenant_policy st (q_tenant q) = Some policy → find_tenant st (q_tenant q) = Some tc →
  resolve_ticket (q_ticket q) = Ok user → safe (q_tenant q) = true →
  L !! session_key (q_tenant q) user (fst (take_sid st q)) = None →
  Z.of_nat (size L) < u64_max → Z.of_nat (size M) ≤ u64_max → sr_seq (app_sessions st) < u64_max →
  open_outcome st (tpr_sessions policy) tc M L (q_tenant q) user (fst (take_sid st q))
    (session_open now nanos st q).
Proof.
  intros Hl Hopen Hcf Hpol Htc Htk Ht Hk HszL HszM Hseq. rewrite /session_open Hpol Htk.
  pose proof (resolve_ticket_safe _ _ Htk) as Hu.
  destruct (take_sid st q) as [sid st1] eqn:E1. destruct (gen_trace nanos st1) as [trace st2] eqn:E2.
  cbn [fst] in Hk |- *. destruct (ids_frame _ _ _ _ _ _ _ E1 E2) as (Ew & Efix). rewrite Ew.
  destruct (mpsc_channel _ _) as [tx c'] eqn:Ech. change 1024%nat with (S 1023) in Ech.
  destruct (new_channel _ L _ _ _ Ech Hopen) as (Ha & Hq & Hno & Hnew & Hother).
  set (st3 := set_app_chans st2 c').
  assert (fixed st st3) as Hfix3 by done.
  assert (gateway_rep (a_world st3) M L) as Hl3.
  { eapply (gateway_rep_same_core False); [|exact Hl]. rewrite /st3 /set_app_chans /= Ew.
    by apply same_core_chans. }
  assert (∀ st' : AppState Bytes, a_cfg st' = a_cfg st → configured st' ∧ find_tenant st' (q_tenant q) = Some tc) as Hcfg.
  { intros st' E. by rewrite /configured /find_tenant E. }
  assert (app_sessions st3 = app_sessions st) as Es3 by (by rewrite /app_sessions /= Ew).
  rewrite (rep_count_user _ L); [|apply Hl3].
  destruct (Z.leb_spec (max_sessions_per_user (tpr_sessions policy))
              (Z.of_nat (size (user_sessions L (user_key (q_tenant q) user))))) as [Hover|Hunder].
  - destruct (on_exceed (tpr_sessions policy)) eqn:Eex.
    + destruct (try_send _ _ _) as [res c1] eqn:Es. apply try_send_stable in Es.
      rewrite /open_outcome. split_and!; [done| | |done|done|].
      * change (app_sessions (set_app_chans _ _)) with (app_sessions st3). rewrite Es3. lia.
      * intros tx' Htx'. destruct (drop_rx_closed c1 tx) as [_ Hdrop].
        assert (tx' ≠ tx) as Hne by (intros ->; congruence).
        destruct (Hdrop tx' Hne) as (_ & Hd & _). destruct (Es tx') as [Es' _]. cbn in Es' |- *.
        rewrite Hd Es' Hother //.
      * apply (gateway_rep_same_core False (a_world st3)); [by apply same_core_chans|done].
    + set (st4 := set_metrics st3 _).
      destruct (kick_oldest_live st4 M L (q_tenant q) user (max_sessions_per_user (tpr_sessions policy))
                  trace) as ((M1 & L1 & Hmk & Hl4) & Hs4 & Hfix4 & Hst4 & Hch); [done..|].
      destruct (Hch tx Hno) as (Hq4 & Ho4 & Hcap4).
      assert (fixed st (kick_oldest st4 (q_tenant q) (user_key (q_tenant q) user) trace)) as Hfix5
        by by eapply fixed_trans.
      eapply open_register; try done.
      * by rewrite Eex.
      * apply Hcfg, Hfix5.
      * apply Hcfg, Hfix5.
      * rewrite Hs4 /st4. change (app_sessions (set_metrics st3 _)) with (app_sessions st3). by rewrite Es3.
      * rewrite /ch_accepts Hq4 Ho4 Hcap4. exact Ha.
      * by rewrite Hq4.
      * intros tx' Hne. rewrite (proj1 (Hst4 tx')). by apply Hother.
  - eapply open_register; try done.
    + by apply room_left.
    + apply Hcfg, Hfix3.
    + apply Hcfg, Hfix3.
    + by rewrite Es3.
Qed.

(** C8: admission of a session. A request for an unknown tenant is answered with [BAD_REQUEST], and one whose ticket does not resolve
    with [AUTH_FAILED]; both change nothing.  With a tenant id that can be read back from keys, a ticket that resolves and a session key
    that is not in use, opening a session never panics or blocks and ends in one
    of three ways. The session runs: its user was below the tenant's limit on
    sessions per user, or (with kick_oldest) exactly the user's oldest session
    went, with its rooms; the tenant had room; and the new session is registered,
    in no room, with sys.authed as the first and only message in its queue. Or it
    is turned away quietly, which happens only with deny and a user at the limit.
    Or the tenant has no room, and it gets a resource error. In the last two cases
    it is not registered, and nobody else is touched beyond a kicked session.  (A key
    in use is [duplicate_key_leaks].) *)
Theorem session_admission {Bytes : Type} `{!BytesOps Bytes, !BytesFrom Bytes, !SerdeJson, !DashOrder,
    !DashOrderLaws, !Mpsc, !MpscLaws} now nanos (st : AppState Bytes) q M L :
  gateway_rep (a_world st) M L → chans_open (a_world st) L → configured st →
  Z.of_nat (size L) < u64_max → Z.of_nat (size M) ≤ u64_max → sr_seq (app_sessions st) < u64_max →
  match tenant_policy st (q_tenant q), resolve_ticket (q_ticket q) with
  | None, _ => session_open now nanos st q = (Returned (err_bad_request "unknown tenant"), st)
  | Some _, Err e => e = EAuthFailed ∧ session_open now nanos st q = (Returned (Err e), st)
  | Some policy, Ok user =>
      ∀ tc, find_tenant st (q_tenant q) = Some tc → safe (q_tenant q) = true →
        L !! session_key (q_tenant q) user (fst (take_sid st q)) = None →
        open_outcome st (tpr_sessions policy) tc M L (q_tenant q) user (fst (take_sid st q))
          (session_open now nanos st q)
  end.
Proof.
  intros Hl Hopen Hcf HszL HszM Hseq. destruct (tenant_policy st (q_tenant q)) as [policy|] eqn:Hpol;
    [|by rewrite /session_open Hpol].
  destruct (resolve_ticket (q_ticket q)) as [user|e] eqn:Htk.
  - intros tc Htc Ht Hk. by apply session_open_outcome.
  - split; [|by rewrite /session_open Hpol Htk]. revert Htk. rewrite /resolve_ticket. case_bool_decide; [done|]. by intros [= <-].
Qed.

(** C9: a session from its opening to its end. Let a session open with a session key that is not in use. Whatever it does, from
    its opening to the end of its task (any events of its loop, in any order, its
    dispatches interleaved with other tasks that act on the channels, the loop ended in any way), as long as
    it does not join a room that it is in and nobody else changes registry and rooms meanwhile, it leaves nothing behind: registry and
    rooms are those from before it came, less the one session that may have been
    kicked to make room for it. *)
Theorem session_lifetime {Bytes : Type} `{!BytesOps Bytes, !BytesFrom Bytes, !SerdeJson, !DashOrder,
    !DashOrderLaws, !Mpsc, !MpscLaws} now nanos (st st1 : AppState Bytes) q M L policy tc user tk evs :
  live_rep (a_world st) M L → chans_open (a_world st) L → configured st →
  a_dispatcher st = builtin_dispatcher →
  tenant_policy st (q_tenant q) = Some policy → find_tenant st (q_tenant q) = Some tc →
  resolve_ticket (q_ticket q) = Ok user → safe (q_tenant q) = true →
  L !! session_key (q_tenant q) user (fst (take_sid st q)) = None →
  Z.of_nat (size L) < u64_max → Z.of_nat (size M + length evs) < u64_max →
  sr_seq (app_sessions st) < u64_max →
  session_open now nanos st q = (Running tk, st1) → clean_run evs tk st1 = true →
  let '(_, tk', st2) := session_loop evs tk st1 in
  ∃ M' L', makes_room (max_sessions_per_user (tpr_sessions policy)) (user_key (q_tenant q) user) M L M' L'
           ∧ live_rep (a_world (session_end tk' st2)) M' L'.
Proof.
  intros Hl Hopen Hcf Hdis Hpol Htc Htk Ht Hk HszL HszM Hseq Ho Hclean.
  pose proof (session_open_outcome now nanos st q M L policy tc user (lr_rep _ _ _ Hl) Hopen Hcf Hpol Htc Htk
    Ht Hk HszL ltac:(lia) Hseq) as Hout. rewrite Ho in Hout. destruct Hout as ((Hd1 & _) & _ & _ & Hout).
  destruct Hout as (M' & L' & trace & tx & seq & Hmk & _ & _ & _ & Hst).
  destruct (makes_room_sub _ _ _ _ _ _ Hmk) as [HsubM HsubL]. pose proof (subseteq_size _ _ HsubM).
  destruct (starts_live _ _ _ _ _ _ _ _ _ _ _ Hst) as [Hl1 Ht1].
  { intros k r Hin. by eapply makes_room_members. }
  pose proof (session_end_clean evs tk st1 M' _ (eq_trans Hd1 Hdis) Hl1 Ht1 ltac:(lia) Hclean) as Hend.
  destruct (session_loop evs tk st1) as [[flow tk'] st2]. exists M', L'. split; [done|].
  destruct Hst as ([= E1 E2 E3 E4 E5] & _). rewrite /tk_session_key E1 E2 E3 in Hend.
  assert (L' !! session_key (q_tenant q) user (fst (take_sid st q)) = None) as Hk'
    by by eapply lookup_weaken_None.
  rewrite delete_insert_id // in Hend.
  assert (∀ r, (session_key (q_tenant q) user (fst (take_sid st q)), r) ∉ M') as Hnot.
  { intros r Hin. destruct (makes_room_members _ _ _ _ _ _ _ _ _ Hmk Hl Hin) as [s Hs]. congruence. }
  by rewrite without_id in Hend.
Qed.

(** ** The gauge of active sessions *)

Definition sessions_gauge {Bytes : Type} `{!SerdeJson, !Mpsc} (st : AppState Bytes) (t : string) : Z :=
  default 0 (ws_active_sessions (a_metrics st) !! sort_labels [("tenant", t)]).

Lemma sessions_gauge_add {Bytes : Type} `{!SerdeJson, !Mpsc} (st : AppState Bytes) t v :
  sessions_gauge (set_metrics st (add_sessions (a_metrics st) [("tenant", t)] v)) t
  = wrap_i64 (sessions_gauge st t + v).
Proof. by rewrite /sessions_gauge /= /gauge_add lookup_insert_eq. Qed.

Lemma rep_len r L : reg_rep r L → len_sessions r = Z.of_nat (size L).
Proof. intros Hrep. by rewrite /len_sessions (rr_sessions _ _ Hrep) map_size_fmap. Qed.

(** A kicked session is subtracted twice. The gauge of active sessions
    is decremented when the oldest session of a user is kicked, and once more by
    the cleanup of the kicked task, although one session went and had been
    counted once; each kick leaves the gauge one lower than the sessions there
    are. *)
Theorem kick_counts_twice {Bytes : Type} `{!BytesOps Bytes, !BytesFrom Bytes, !SerdeJson, !DashOrder,
    !DashOrderLaws, !Mpsc, !MpscLaws} (st : AppState Bytes) M L t u trace k s :
  gateway_rep (a_world st) M L → safe t = true → safe u = true → Z.of_nat (size M) ≤ u64_max →
  L !! k = Some s → s_user s = user_key t u →
  (∀ k' s', L !! k' = Some s' → s_user s' = user_key t u → s_seq s ≤ s_seq s') →
  let st' := session_cleanup (kick_oldest st t (user_key t u) trace) t (user_key t u) k in
  sessions_gauge st' t = wrap_i64 (wrap_i64 (sessions_gauge st t - 1) - 1)
  ∧ len_sessions (app_sessions st') = len_sessions (app_sessions st) - 1.
Proof.
  intros Hl Ht Hu Hsz Hk Hus Hold. pose proof (wr_reg _ _ _ (gr_world _ _ _ Hl)) as Hg.
  rewrite (rep_len _ L) //. rewrite /kick_oldest /app_sessions.
  pose proof (evict_oldest_rep _ L (user_key t u) Hg) as Hev.
  destruct (evict_oldest _ _) as [[[k' conn]|] r].
  2:{ destruct Hev as [Hnone _]. assert (user_sessions L (user_key t u) !! k = Some s) as Hin
        by by apply map_lookup_filter_Some. rewrite Hnone in Hin. done. }
  destruct Hev as (s' & Hk' & Hus' & -> & Hold' & Hg').
  assert (k' = k) as ->.
  { destruct (decide (k = k')) as [|Hne]; [done|]. specialize (Hold' k s Hk Hus Hne).
    specialize (Hold k' s' Hk' Hus'). lia. }
  destruct (try_send _ _ _) as [res1 c1]. destruct (try_send c1 _ _) as [res2 c2].
  rewrite /session_cleanup /app_sessions. cbn [a_world set_metrics set_app_core set_world w_core set_core
    sessions set_app_chans set_chans].
  assert (owned (delete k L) (user_key t u) k) as Hown.
  { intros s1. by rewrite lookup_delete_eq. }
  destruct (remove_session_rep _ _ _ _ Hg' Hown) as [_ Hg2].
  destruct (remove_session _ _ _) as [c3 r2]. cbn [snd] in Hg2. split.
  - rewrite sessions_gauge_add. f_equal.
    rewrite /sessions_gauge /= /gauge_add lookup_insert_eq. done.
  - cbn. rewrite (rep_len _ _ Hg2) delete_id ?lookup_delete_eq // (map_size_delete_Some k L) //.
    assert (size L ≠ 0%nat) by (intros Hz%map_size_empty_inv; by simplify_map_eq). lia.
Qed.

Import MiniJson.

(** ** A visitor of the sample gateway *)

Module Visitor.
Definition clocks : Clocks := mkClocks 0 0 0 0 (λ _, 0).
Definition query : WsQuery := mkWsQuery "t" "dev" (Some "tab").
Definition running : option (Task * AppState (list byte)) :=
  match session_open 0 0 Gateway.app query with (Running tk, st) => Some (tk, st) | _ => None end.
Definition task : Task := from_option fst Gateway.task running.
Definition app : AppState (list byte) := from_option snd Gateway.app running.

Definition is_running (o : Opened) : bool := match o with Running _ => true | _ => false end.

Lemma visitor_runs : session_open 0 0 Gateway.app query = (Running task, app).
Proof.
  rewrite /task /app /running.
  assert (is_running (fst (session_open 0 0 Gateway.app query)) = true) as Hr by by vm_compute.
  by destruct (session_open _ _ _ _) as [[] st].
Qed.

Lemma gateway_open : chans_open (a_world Gateway.app) Sample.live.
Proof.
  intros k s. rewrite /Sample.live !lookup_insert_Some lookup_empty.
  by intros [[<- <-]|(_ & [[<- <-]|(_ & [=])])].
Qed.

Lemma gateway_configured : configured Gateway.app.
Proof.
  intros id t. rewrite /find_tenant. cbn. case_bool_decide; [|done]. by intros [= <-].
Qed.
End Visitor.

(** A visitor opens a session of its own; one without a ticket does not. *)
Lemma session_admission_witness :
  ∃ policy, tenant_policy Gateway.app "t" = Some policy ∧
  open_outcome Gateway.app (tpr_sessions policy)
    (mkTenantConfig "t" Sample.lim Gateway.policy) Sample.members1 Sample.live "t" "user:dev" "tab"
    (session_open 0 0 Gateway.app Visitor.query)
  ∧ session_open 0 0 Gateway.app (mkWsQuery "t" "forged" None) = (Returned (Err EAuthFailed), Gateway.app).
Proof.
  eexists. split; [reflexivity|]. split.
  - refine (session_admission 0 0 Gateway.app Visitor.query Sample.members1 Sample.live
      (lr_rep _ _ _ Gateway.app_live) Visitor.gateway_open Visitor.gateway_configured _ _ _ _ _ _ _).
    + by vm_compute.
    + by vm_compute.
    + by vm_compute.
    + reflexivity.
    + reflexivity.
    + reflexivity.
  - refine (proj2 (session_admission 0 0 Gateway.app (mkWsQuery "t" "forged" None) Sample.members1 Sample.live
      (lr_rep _ _ _ Gateway.app_live) Visitor.gateway_open Visitor.gateway_configured _ _ _)); by vm_compute.
Defined.

(** The visitor joins the room of another session, is pinged, and goes. *)
Lemma session_lifetime_witness :
  let '(_, tk', st2) :=
    session_loop [Gateway.join; EvOut Written; EvOut Written; EvPing; EvIn Gateway.rd None]
      Visitor.task Visitor.app in
  ∃ M' L', makes_room 4 "t::user:dev" Sample.members1 Sample.live M' L'
           ∧ live_rep (a_world (session_end tk' st2)) M' L'.
Proof.
  assert (∃ policy, tenant_policy Gateway.app "t" = Some policy
                    ∧ max_sessions_per_user (tpr_sessions policy) = 4) as (policy & Hpol & Hmax)
    by (eexists; split; reflexivity).
  pose proof (session_lifetime 0 0 Gateway.app Visitor.app Visitor.query Sample.members1 Sample.live policy (mkTenantConfig "t" Sample.lim Gateway.policy)
    "user:dev" Visitor.task [Gateway.join; EvOut Written; EvOut Written; EvPing; EvIn Gateway.rd None]
    Gateway.app_live Visitor.gateway_open Visitor.gateway_configured eq_refl Hpol eq_refl eq_refl eq_refl
    eq_refl ltac:(by vm_compute) ltac:(by vm_compute) ltac:(by vm_compute) Visitor.visitor_runs
    ltac:(by vm_compute)) as Hlife.
  rewrite Hmax in Hlife. exact Hlife.
Defined.

(** The second session of the sample gateway is kicked and cleaned up. *)
Lemma kick_counts_twice_witness :
  sessions_gauge (session_cleanup (kick_oldest Gateway.app "t" "t::b" "trace") "t" "t::b" "t::b::1") "t"
  = -2.
Proof.
  refine (proj1 (kick_counts_twice Gateway.app Sample.members1 Sample.live "t" "b" "trace" "t::b::1"
    (mkSession "t::b" "t" (mkConnection 2) 2) (lr_rep _ _ _ Gateway.app_live) eq_refl eq_refl _ _ _ _)).
  - by vm_compute.
  - reflexivity.
  - reflexivity.
  - intros k s. rewrite /Sample.live !lookup_insert_Some lookup_empty.
    by intros [[<- <-]|(_ & [[<- <-]|(_ & [=])])].
Defined.
