(* ===== verification/System.v ===== *)
(** * The gateway as a whole

    All the sessions at once: the shared [AppState], the upgraded connections
    whose [run_session] has not started, and the running tasks.  One [Act] is
    what one task does between two points where it awaits; a task that awaits
    the sends of a reliable publication is [Sending], and others run
    meanwhile.  The process-wide invariant follows by induction over all
    runs. *)

From S2P Require Import Prelude Errors RustStd HotFrame Config Allowlist TokenBucket Policy Dash.
From S2P Require Import SessionRegistry Presence Keys Channel Envelope Realtime Codec Dispatch.
From S2P Require Import Handshake Metrics AppState Ws Session Admission.

(** A reliable publication that has not returned: whether its sends have a
    timeout, the message, and the recipients still to be served. *)
Record Publish := mkPublish { pb_timeout : bool; pb_msg : Message; pb_pending : list Connection }.

(** What a task is doing: waiting in [select!], awaiting the sends of a
    publication, past its loop (or unwinding: the cleanup is that of a guard), or
    waiting for ever. *)
Inductive Status := SReady | SSending (p : Publish) | SEnding | SStuck.

Section system.
Context {Bytes : Type} `{!BytesOps Bytes, !BytesFrom Bytes, !SerdeJson, !DashOrder, !Mpsc}.
Implicit Types (st : AppState Bytes) (tk : Task).

(** ** Suspending and resuming a dispatch *)

(** The publication that a [chat.send] starts. *)
Definition publish_of (w : World) (ctx : RealtimeCtx) (env : Envelope RawValue) : option Publish :=
  match chat_request env with
  | Err _ => None
  | Ok (room, msg) =>
      let out : Outgoing Bytes :=
        mkOutgoing (Reliable 1500) (TextJson (chat_msg room (ctx_user ctx) msg)) in
      match prepare out with
      | Err _ => None
      | Ok prepared =>
          Some (mkPublish (timeout_of (out_qos out)) (to_ws_message prepared)
                  (room_conns (w_core w) (room_key (ctx_tenant ctx) room)))
      end
  end.

(** An event up to the first await of its dispatch. *)
Definition first_part (ev : Event) : Event :=
  match ev with
  | EvIn rd msg =>
      EvIn (mkReading (rd_checks rd) (rd_now rd) (rd_conn rd) (rd_tenant rd) (rd_elapsed rd) []) msg
  | ev => ev
  end.

Definition status_of (flow : Flow) (p : option Publish) : Status :=
  match flow, p with
  | Continue, _ => SReady
  | Break, _ | Panicked, _ => SEnding
  | Waiting, Some p => SSending p
  | Waiting, None | Blocked, _ => SStuck
  end.

(** The publication that the dispatch of an event starts. *)
Definition event_publish (ev : Event) tk st : option Publish :=
  match event_envelope ev with
  | Some env => publish_of (a_world st) (task_ctx tk (tk_active_room tk)) env
  | None => None
  end.

(** The first part of an event: a task that waits is sending. *)
Definition begin_event (ev : Event) tk st : Task * Status * AppState Bytes :=
  let '(flow, tk', st') := on_event (first_part ev) tk st in
  (tk', status_of flow (event_publish ev tk st), st').

(** One step of the sends. *)
Definition send_step (fe : FutEvent) (p : Publish) st : Publish * AppState Bytes :=
  let fs := fut_step (pb_timeout p) (pb_msg p) (mkFutState (a_world st) (pb_pending p) []) fe in
  (mkPublish (pb_timeout p) (pb_msg p) (fs_pending fs), set_world st (fs_world fs)).

(** After the last send: the duration of the dispatch is observed. *)
Definition resume (elapsed : Z) tk st : AppState Bytes :=
  set_metrics st (observe_dispatch (a_metrics st) [("tenant", tk_tenant tk); ("lane", "ext")] elapsed).

(** ** The system *)

Record System := mkSystem {
  sy_app : AppState Bytes;
  sy_upgraded : list WsQuery;
  sy_tasks : gmap nat (Task * Status);
}.

(** A signal for shutdown arrives: [enter_draining] and
    [best_effort_shutdown_all] of main.rs. *)
Definition begin_drain st (reason : string) : AppState Bytes :=
  let st := enter_draining st in
  set_world st (best_effort_shutdown_all (a_world st) reason).

(** The tasks are known by their channels. *)
Inductive Act :=
| AUpgrade (reentrant : bool) (ck : Clocks) (ip : IpAddr) (q : WsQuery)
| AOpen (i : nat) (now nanos : Z)
| AEvent (tx : nat) (ev : Event)
| ASend (tx : nat) (fe : FutEvent)
| AResume (tx : nat) (elapsed : Z)
| AEnd (tx : nat)
| ADrain (reason : string).

Definition set_task (sys : System) (st : AppState Bytes) (tx : nat) (x : Task * Status) : System :=
  mkSystem st (sy_upgraded sys) (<[tx := x]> (sy_tasks sys)).

(** What an act does; an act that its task is not ready for does nothing. *)
Definition sys_exec (sys : System) (a : Act) : System :=
  let st := sy_app sys in
  match a with
  | AUpgrade reentrant ck ip q =>
      let '(res, st) := ws_upgrade reentrant ck st ip q in
      mkSystem st (match res with Some Upgraded => sy_upgraded sys ++ [q] | _ => sy_upgraded sys end)
        (sy_tasks sys)
  | AOpen i now nanos =>
      match sy_upgraded sys !! i with
      | None => sys
      | Some q =>
          let '(o, st) := session_open now nanos st q in
          mkSystem st (delete i (sy_upgraded sys))
            (match o with
             | Running tk => <[tk_tx tk := (tk, SReady)]> (sy_tasks sys)
             | _ => sy_tasks sys
             end)
      end
  | AEvent tx ev =>
      match sy_tasks sys !! tx with
      | Some (tk, SReady) =>
          let '(tk, status, st) := begin_event ev tk st in set_task sys st tx (tk, status)
      | _ => sys
      end
  | ASend tx fe =>
      match sy_tasks sys !! tx with
      | Some (tk, SSending p) =>
          if no_other fe then
            let '(p, st) := send_step fe p st in set_task sys st tx (tk, SSending p)
          else sys
      | _ => sys
      end
  | AResume tx elapsed =>
      match sy_tasks sys !! tx with
      | Some (tk, SSending p) =>
          match pb_pending p with
          | [] => set_task sys (resume elapsed tk st) tx (tk, SReady)
          | _ => sys
          end
      | _ => sys
      end
  | AEnd tx =>
      match sy_tasks sys !! tx with
      | Some (tk, SEnding) =>
          mkSystem (session_end tk st) (sy_upgraded sys) (delete tx (sy_tasks sys))
      | _ => sys
      end
  | ADrain reason => mkSystem (begin_drain st reason) (sy_upgraded sys) (sy_tasks sys)
  end.

(** ** Runs *)

(** No running task has the session key. *)
Definition key_unused (sys : System) (k : string) : bool :=
  bool_decide (map_Forall (λ _ x, tk_session_key x.1 ≠ k) (sy_tasks sys)).

(** Session ids are unique, a session does not join a room that it is in, and
    does not leave one that it was taken out of. *)
Definition clean_act (sys : System) (a : Act) : bool :=
  match a with
  | AOpen i _ _ =>
      match sy_upgraded sys !! i with
      | Some q =>
          match resolve_ticket (q_ticket q) with
          | Ok user => key_unused sys (session_key (q_tenant q) user (fst (take_sid (sy_app sys) q)))
          | Err _ => true
          end
      | None => true
      end
  | AEvent tx ev =>
      match sy_tasks sys !! tx with
      | Some (tk, _) => fresh_join ev tk (sy_app sys) && sound_leave ev tk (sy_app sys)
      | None => true
      end
  | _ => true
  end.

(** Everything that can happen in [n] acts after startup. *)
Inductive sys_reach (cfg : GatewayConfig) : nat → System → Prop :=
| sys_start now c app : app_new now c cfg = Ok app → sys_reach cfg 0 (mkSystem app [] ∅)
| sys_act n sys a :
    sys_reach cfg n sys → clean_act sys a = true → sys_reach cfg (S n) (sys_exec sys a).
End system.

Arguments System Bytes {_ _}.

(** ** A dispatch in pieces *)

(** The schedule and the duration that an event carries. *)
Definition event_sends `{!Mpsc} (ev : Event) : list FutEvent :=
  match ev with EvIn rd _ => rd_evs rd | _ => [] end.
Definition event_elapsed `{!Mpsc} (ev : Event) : Z :=
  match ev with EvIn rd _ => rd_elapsed rd | _ => 0 end.

Section pieces.
Context {Bytes : Type} `{!BytesOps Bytes, !BytesFrom Bytes, !SerdeJson, !DashOrder, !Mpsc}.
Implicit Types (st : AppState Bytes) (tk : Task).

Definition send_steps (evs : list FutEvent) (p : Publish) st : Publish * AppState Bytes :=
  foldl (λ x fe, send_step fe x.1 x.2) (p, st) evs.

(** What has ended does not matter to what is pending. *)
Lemma fut_step_ended dt m w conns ended fe :
  fs_pending (fut_step dt m (mkFutState w conns ended) fe)
  = fs_pending (fut_step dt m (mkFutState w conns []) fe)
  ∧ fs_world (fut_step dt m (mkFutState w conns ended) fe)
    = fs_world (fut_step dt m (mkFutState w conns []) fe).
Proof.
  destruct fe as [i|i|c]; cbn; [| |done]; destruct (conns !! i); try done.
  - by destruct (try_send _ _ _) as [[] c1].
  - by destruct dt.
Qed.

Lemma send_steps_fut evs p st ended :
  let fs := foldl (fut_step (pb_timeout p) (pb_msg p)) (mkFutState (a_world st) (pb_pending p) ended) evs in
  send_steps evs p st
  = (mkPublish (pb_timeout p) (pb_msg p) (fs_pending fs), set_world st (fs_world fs)).
Proof.
  rewrite /send_steps. revert p st ended. induction evs as [|fe evs IH]; intros p st ended; cbn [foldl].
  { by destruct p, st. }
  destruct (fut_step_ended (pb_timeout p) (pb_msg p) (a_world st) (pb_pending p) ended fe) as [Ep Ew].
  cbn [fst snd]. destruct (fut_step _ _ (mkFutState _ _ ended) fe) as [w1 conns1 ended1].
  cbn [fs_pending fs_world] in Ep, Ew. rewrite /send_step -Ep -Ew.
  rewrite (IH (mkPublish (pb_timeout p) (pb_msg p) conns1) (set_world st w1) ended1). done.
Qed.

(** Nothing is left to do without recipients. *)
Lemma futs_idle dt m w ended evs :
  forallb no_other evs = true →
  foldl (fut_step dt m) (mkFutState w [] ended) evs = mkFutState w [] ended.
Proof.
  induction evs as [|[i|i|c] evs IH]; intros Hevs; cbn; [done| | |done]; by apply IH.
Qed.

(** The built-in services along a schedule, from their first part. *)
Lemma dispatch_text_pieces evs w ctx env :
  forallb no_other evs = true →
  dispatch_text (builtin_dispatcher (Bytes := Bytes)) evs w ctx env
  = match dispatch_text (builtin_dispatcher (Bytes := Bytes)) [] w ctx env with
    | (None, _) =>
        match publish_of (Bytes := Bytes) w ctx env with
        | Some p =>
            let fs := foldl (fut_step (pb_timeout p) (pb_msg p)) (mkFutState w (pb_pending p) []) evs in
            (match fs_pending fs with [] => Some (Ok tt) | _ => None end, fs_world fs)
        | None => (None, w)
        end
    | r => r
    end.
Proof.
  intros Hevs. rewrite /dispatch_text /builtin_dispatcher. cbn [d_text register_hot register_text].
  destruct (decide (env_svc env = "chat")) as [->|Hne]; [|by rewrite lookup_insert_ne].
  rewrite lookup_insert_eq. cbn [ts_handle ChatService]. rewrite /chat_handle /publish_of.
  destruct (bool_decide _); [|done]. destruct (chat_request env) as [[room msg]|]; [|done].
  rewrite /ctx_publish_room_reliable /core_publish_room_reliable. cbn [out_qos].
  destruct (prepare _) as [prepared|]; [|done]. cbn [foldl fs_pending fs_world].
  destruct (room_conns _ _) as [|conn conns]; [|done]. by rewrite futs_idle.
Qed.

(** Without a schedule nothing is sent. *)
Lemma dispatch_text_first w ctx env :
  snd (dispatch_text (builtin_dispatcher (Bytes := Bytes)) [] w ctx env) = w.
Proof.
  rewrite /dispatch_text /builtin_dispatcher. cbn [d_text register_hot register_text].
  destruct (decide (env_svc env = "chat")) as [->|Hne]; [|by rewrite lookup_insert_ne].
  rewrite lookup_insert_eq. cbn [ts_handle ChatService]. rewrite /chat_handle.
  destruct (bool_decide _); [|done]. destruct (chat_request env) as [[room msg]|]; [|done].
  rewrite /ctx_publish_room_reliable /core_publish_room_reliable. by destruct (prepare _).
Qed.

Lemma dispatch_hot_pieces evs w ctx (frame : HotFrame Bytes) :
  dispatch_hot builtin_dispatcher evs w ctx frame = dispatch_hot builtin_dispatcher [] w ctx frame.
Proof.
  rewrite /dispatch_hot /builtin_dispatcher. cbn [d_hot register_hot].
  destruct (decide (hf_svc_id frame = 1)) as [->|Hne]; [by rewrite lookup_insert_eq|].
  by rewrite lookup_insert_ne.
Qed.

(** A hot frame never waits. *)
Lemma dispatch_hot_returns evs w ctx (frame : HotFrame Bytes) :
  fst (dispatch_hot builtin_dispatcher evs w ctx frame) ≠ None.
Proof.
  rewrite /dispatch_hot /builtin_dispatcher. cbn [d_hot register_hot].
  destruct (decide (hf_svc_id frame = 1)) as [->|Hne]; [|by rewrite lookup_insert_ne].
  rewrite lookup_insert_eq. cbn [bs_handle_binary EchoBinaryService]. rewrite /echo_handle_binary.
  by destruct (match ctx_active_room ctx with Some _ => _ | None => _ end).
Qed.
(** The rest of an event whose first part left the task waiting. *)
Definition finish_event (ev : Event) (p : option Publish) (r : Flow * Task * AppState Bytes)
    : Flow * Task * AppState Bytes :=
  match r, p with
  | (Waiting, tk, st), Some p =>
      let '(p, st) := send_steps (event_sends ev) p st in
      match pb_pending p with
      | [] => (Continue, tk, resume (event_elapsed ev) tk st)
      | _ => (Waiting, tk, st)
      end
  | r, _ => r
  end.

Lemma finish_event_idle ev p r : r.1.1 ≠ Waiting → finish_event ev p r = r.
Proof. by destruct r as [[[] tk] st]. Qed.

Lemma reply_not_waiting flow tk st m : flow ≠ Waiting → (reply flow tk st m).1.1 ≠ Waiting.
Proof. intros Hf. rewrite /reply. by destruct (try_send _ _ _) as [[] c1]. Qed.

Lemma hot_error_not_waiting policy flow tk st code msg :
  flow ≠ Waiting → (hot_error policy flow tk st code msg).1.1 ≠ Waiting.
Proof. intros Hf. rewrite /hot_error. destruct (tpr_hot_error_mode policy); [by apply reply_not_waiting|done]. Qed.

Lemma on_dispatch_text_pieces rd msg tk st env :
  a_dispatcher st = builtin_dispatcher → forallb no_other (rd_evs rd) = true →
  let rd0 := mkReading (rd_checks rd) (rd_now rd) (rd_conn rd) (rd_tenant rd) (rd_elapsed rd) [] in
  on_dispatch_text rd tk st env
  = finish_event (EvIn rd msg) (publish_of (Bytes := Bytes) (a_world st) (task_ctx tk (tk_active_room tk)) env)
      (on_dispatch_text rd0 tk st env).
Proof.
  intros Hd Hevs rd0. rewrite /on_dispatch_text Hd. cbn [rd_evs rd0].
  rewrite dispatch_text_pieces //.
  destruct (dispatch_text _ [] _ _ _) as [[res|] w0] eqn:E.
  - symmetry. apply finish_event_idle. destruct res; [done|by apply reply_not_waiting].
  - assert (w0 = a_world st) as ->.
    { pose proof (dispatch_text_first (a_world st) (task_ctx tk (tk_active_room tk)) env) as Hw.
      by rewrite E in Hw. }
    cbn [finish_event event_sends event_elapsed]. destruct (publish_of _ _ _) as [p|]; [|done].
    rewrite (send_steps_fut _ p _ []). cbn [pb_pending a_world set_world]. by destruct (fs_pending _).
Qed.
Lemma on_text_pieces rd msg tk st env len :
  a_dispatcher st = builtin_dispatcher → forallb no_other (rd_evs rd) = true →
  let rd0 := mkReading (rd_checks rd) (rd_now rd) (rd_conn rd) (rd_tenant rd) (rd_elapsed rd) [] in
  on_text rd tk st env len
  = finish_event (EvIn rd msg) (publish_of (Bytes := Bytes) (a_world st) (task_ctx tk (tk_active_room tk)) env)
      (on_text rd0 tk st env len).
Proof.
  intros Hd Hevs rd0. rewrite /on_text. cbn [rd_checks rd_conn rd_tenant rd0].
  destruct (conn_limiter_frame rd tk) as [lim Hp].
  destruct (match tk_conn_limiter tk with None => _ | Some _ => _ end) as [ok tk1].
  cbn [snd] in Hp. subst tk1. destruct ok as [[]|]; [|done..].
  destruct (tenant_policy st _) as [policy|]; [|done].
  destruct (check_text _ _ _ _ _ _) as [[dec|] policy']; [|done].
  destruct dec; [|done|by rewrite finish_event_idle //; apply reply_not_waiting..].
  rewrite /on_text_passed. destruct (bool_decide _).
  { rewrite finish_event_idle //. rewrite /on_join. destruct (join_room_with_limits _ _ _ _) as [[[]|e] w'];
      by apply reply_not_waiting. }
  destruct (bool_decide _).
  { rewrite finish_event_idle //. rewrite /on_leave. destruct (tk_active_room _); by apply reply_not_waiting. }
  by apply (on_dispatch_text_pieces rd msg (set_conn_limiter tk lim) (set_policy st _ policy')).
Qed.

Lemma on_hot_pieces rd tk st frame len :
  a_dispatcher st = builtin_dispatcher →
  let rd0 := mkReading (rd_checks rd) (rd_now rd) (rd_conn rd) (rd_tenant rd) (rd_elapsed rd) [] in
  on_hot rd tk st frame len = on_hot rd0 tk st frame len ∧ (on_hot rd0 tk st frame len).1.1 ≠ Waiting.
Proof.
  intros Hd rd0. rewrite /on_hot. cbn [rd_checks rd_tenant rd0].
  destruct (tenant_policy st _) as [policy|]; [|done].
  destruct (check_hot _ _ _ _ _ _) as [[dec|] policy']; [|done].
  destruct dec; [|done|by split; [|apply hot_error_not_waiting]..].
  destruct (_ && _); [by split; [|apply hot_error_not_waiting]|].
  rewrite /on_dispatch_hot. cbn [a_dispatcher set_policy rd_evs rd0]. rewrite Hd.
  rewrite (dispatch_hot_pieces (rd_evs rd)). split; [done|].
  pose proof (dispatch_hot_returns [] (a_world (set_policy st (tk_tenant tk) policy'))
    (task_ctx (set_hot_ops tk (wrap64 (tk_hot_ops tk + 1)))
       (tk_active_room (set_hot_ops tk (wrap64 (tk_hot_ops tk + 1))))) frame) as Hr.
  destruct (dispatch_hot _ _ _ _ _) as [[[[]|e]|] w']; [done|by apply hot_error_not_waiting|done].
Qed.
End pieces.

(** A dispatch in pieces. The handling of an event, in one go along a
    schedule of its sends, is the same as its first part, up to the first await,
    followed by the sends of that schedule one by one and, once no recipient is
    left, the part after the await. So a task may be suspended there while others
    run, and a task that waits waits for exactly the recipients that are left. *)
Theorem event_pieces {Bytes : Type} `{!BytesOps Bytes, !BytesFrom Bytes, !SerdeJson, !DashOrder, !Mpsc}
    ev tk (st : AppState Bytes) :
  a_dispatcher st = builtin_dispatcher → undisturbed ev = true →
  on_event ev tk st
  = finish_event ev (event_publish ev tk st) (on_event (first_part ev) tk st).
Proof.
  intros Hd Hevs. destruct ev as [wr|rd msg| |now]; cbn [first_part].
  - symmetry. apply finish_event_idle. cbn. rewrite /on_out. destruct (recv _ _) as [[m c']|]; [|done].
    by destruct wr.
  - cbn [on_event undisturbed] in *. rewrite /on_incoming /event_publish. cbn [rd_now].
    destruct msg as [[s|b|b|b|fr]|]; [| | |done..]; cbn [decode event_envelope].
    + destruct (parse_envelope s) as [env|e]; cbn [map_err].
      * by apply (on_text_pieces rd (Some (MText s)) (set_last_activity tk (rd_now rd))).
      * by rewrite finish_event_idle //; apply reply_not_waiting.
    + destruct (decode_hot_frame _) as [[frame|e]|]; [| |done].
      * destruct (on_hot_pieces rd (set_last_activity tk (rd_now rd)) st frame (Z.of_nat (length b)) Hd) as [E Hn].
        rewrite finish_event_idle; done.
      * by rewrite finish_event_idle //; apply reply_not_waiting.
    + by rewrite finish_event_idle //; apply reply_not_waiting.
  - symmetry. apply finish_event_idle. by apply reply_not_waiting.
  - symmetry. apply finish_event_idle. cbn. rewrite /on_idle.
    destruct (_ <=? _); [by apply reply_not_waiting|done].
Qed.

Import MiniJson.

(** A message to a room with one member: the first part awaits it, the send
    lets the handling go on. *)
Lemma event_pieces_witness :
  let ev := EvIn (mkReading false 0 0 0 0 [Poll 0]) (Some (MText "chat send lobby hello")) in
  (on_event (first_part ev) Gateway.task Gateway.app).1.1 = Waiting
  ∧ (on_event ev Gateway.task Gateway.app).1.1 = Continue
  ∧ on_event ev Gateway.task Gateway.app
    = finish_event ev (event_publish ev Gateway.task Gateway.app)
        (on_event (first_part ev) Gateway.task Gateway.app).
Proof.
  intros ev. split; [by vm_compute|]. split; [by vm_compute|]. by apply (event_pieces ev).
Defined.
