(* ===== verification/Safety.v ===== *)
(** * What holds of the gateway at all times

    The invariant of [System.v] and what follows from it: the accounts agree
    with the tasks that run, the limits of the configuration hold, and nothing
    is left when the last task has gone. *)

From S2P Require Import Prelude Errors RustStd HotFrame Config Allowlist TokenBucket Policy Dash.
From S2P Require Import SessionRegistry Presence Keys Channel Envelope Realtime Codec Dispatch.
From S2P Require Import Handshake Metrics AppState Ws Session Admission System.

(** ** The books *)

Definition cfg_tenant (cfg : GatewayConfig) (id : string) : option TenantConfig :=
  List.find (λ t, bool_decide (tenant_id t = id)) (tenants cfg).

(** The limits of a tenant; of one that is not configured, no limits. *)
Definition cfg_limits (cfg : GatewayConfig) (id : string) : TenantLimits :=
  from_option limits TenantLimits_default (cfg_tenant cfg id).

(** Tenant ids can be read back from keys, and limits are machine integers. *)
Definition good_cfg (cfg : GatewayConfig) : Prop :=
  ∀ id tc, cfg_tenant cfg id = Some tc →
    safe id = true ∧ limits_typed (limits tc) ∧ is_u64 (max_sessions_total (limits tc)).

Abbreviation tasks := (gmap nat (Task * Status)).

(** The session [k] has a task. *)
Definition has_task (T : tasks) (k : string) : Prop :=
  ∃ tx tk s, T !! tx = Some (tk, s) ∧ tk_session_key tk = k.

(** A task under its channel. Either its session is registered with that
    channel and its active room is a room it is in, or it has been kicked. *)
Record task_ok (cfg : GatewayConfig) (opn : nat → bool) (M : members) (L : gmap string Session)
    (tx : nat) (tk : Task) : Prop := {
  to_tx : tk_tx tk = tx;
  to_keyed : task_keyed tk;
  to_open : opn tx = true;
  to_limits : cfg_limits cfg (tk_tenant tk) = tk_limits tk;
  to_session s : L !! tk_session_key tk = Some s → conn_tx (s_conn s) = tx ∧ room_ok tk M;
}.

(** The tasks [T], the open channels, the memberships [M] and the sessions [L]
    fit together. *)
Record books (cfg : GatewayConfig) (T : tasks) (opn : nat → bool) (M : members)
    (L : gmap string Session) : Prop := {
  bk_task tx tk s : T !! tx = Some (tk, s) → task_ok cfg opn M L tx tk;
  bk_keys tx tx' tk tk' s s' :
    T !! tx = Some (tk, s) → T !! tx' = Some (tk', s') → tk_session_key tk = tk_session_key tk' → tx = tx';
  bk_live k s : L !! k = Some s → has_task T k;
  bk_members k r : (k, r) ∈ M → has_task T k;
  bk_caps : within_cap (λ t, max_sessions_total (cfg_limits cfg t)) L;
  bk_limits : limits_ok (cfg_limits cfg) M;
}.

Lemma has_task_update (T : tasks) tx tk0 tk s0 s k :
  T !! tx = Some (tk0, s0) → tk_session_key tk = tk_session_key tk0 →
  has_task T k → has_task (<[tx := (tk, s)]> T) k.
Proof.
  intros Htx Ek (tx' & tk' & s' & Ht & <-). destruct (decide (tx' = tx)) as [->|Hne].
  - exists tx, tk, s. rewrite lookup_insert_eq. split; [done|congruence].
  - exists tx', tk', s'. by rewrite lookup_insert_ne.
Qed.

Lemma has_task_delete (T : tasks) tx tk s k :
  T !! tx = Some (tk, s) → has_task T k → k ≠ tk_session_key tk → has_task (delete tx T) k.
Proof.
  intros Htx (tx' & tk' & s' & Ht & <-) Hne. exists tx', tk', s'. split; [|done].
  rewrite lookup_delete_ne //. intros ->. simplify_eq.
Qed.

Lemma tenant_count_mono (L L' : gmap string Session) t : L' ⊆ L → tenant_count L' t ≤ tenant_count L t.
Proof.
  intros Hsub. by apply inj_le, map_subseteq_size, map_filter_subseteq_mono.
Qed.

Lemma within_cap_mono cap L L' : L' ⊆ L → within_cap cap L → within_cap cap L'.
Proof. intros Hsub HL t Ht. etransitivity; [by apply tenant_count_mono|by apply HL]. Qed.

Section books.
Context (cfg : GatewayConfig).
Implicit Types (T : tasks) (M : members) (L : gmap string Session).

(** Channels that were open stay open. *)
Lemma books_open T opn opn' M L :
  (∀ tx, opn tx = true → opn' tx = true) → books cfg T opn M L → books cfg T opn' M L.
Proof.
  intros Ho [Ht Hk Hl Hm Hc Hlim]. split; try done. intros tx tk s Htx.
  destruct (Ht _ _ _ Htx) as [? ? ? ? ?]. split; auto.
Qed.

(** One task moves. *)
Lemma books_moved T opn M L M' tx tk0 tk s0 s :
  books cfg T opn M L → T !! tx = Some (tk0, s0) → tk_identity tk = tk_identity tk0 →
  moved tk0 M tk M' → books cfg (<[tx := (tk, s)]> T) opn M' L.
Proof.
  intros [Ht Hk Hl Hm Hc Hlim] Htx Hid [Ho _ Hroom Hli]. pose proof (Ht _ _ _ Htx) as [Etx Hkd Hop Hlm Hse].
  destruct (identity_key _ _ Hid) as (Et & Ek & El & Ex & _).
  assert (∀ tx' tk' s', tx' ≠ tx → T !! tx' = Some (tk', s') → tk_session_key tk' ≠ tk_session_key tk0) as Hdiff.
  { intros tx' tk' s' Hne Ht' E. by destruct (Hne (Hk _ _ _ _ _ _ Ht' Htx E)). }
  split.
  - intros tx' tk' s' [[<- [= <- <-]]|[Hne Ht']]%lookup_insert_Some.
    + split; [congruence|by eapply task_keyed_identity|done|congruence|].
      rewrite Ek. intros se Hse'. destruct (Hse _ Hse') as [? ?]. split; [done|auto].
    + pose proof (Ht _ _ _ Ht') as [? ? ? ? Hse']. split; try done. intros se Hs.
      destruct (Hse' _ Hs) as [? Hok]. split; [done|]. intros r Hr.
      apply Ho; [|by apply Hok]. by eapply Hdiff.
  - intros tx1 tx2 tk1 tk2 s1 s2 [[<- [= <- <-]]|[Hn1 H1]]%lookup_insert_Some
      [[<- [= <- <-]]|[Hn2 H2]]%lookup_insert_Some; rewrite ?Ek; [done| | |by eapply Hk].
    + intros E. destruct (Hdiff _ _ _ (not_eq_sym Hn2) H2). congruence.
    + intros E. destruct (Hdiff _ _ _ (not_eq_sym Hn1) H1). congruence.
  - intros k se Hs. eapply has_task_update; [done|done|by eapply Hl].
  - intros k r Hin. destruct (decide (k = tk_session_key tk0)) as [->|Hne].
    + exists tx, tk, s. by rewrite lookup_insert_eq.
    + eapply has_task_update; [done|done|]. eapply Hm. by apply Ho.
  - done.
  - by apply Hli.
Qed.

(** Room is made for a session. *)
Lemma books_make_room T opn M L M' L' max u :
  makes_room max u M L M' L' → books cfg T opn M L → books cfg T opn M' L'.
Proof.
  intros Hmk [Ht Hk Hl Hm Hc Hlim]. destruct (makes_room_sub _ _ _ _ _ _ Hmk) as [HM HL]. split.
  - intros tx tk s Htx. pose proof (Ht _ _ _ Htx) as [? ? ? ? Hse]. split; try done. intros se Hs.
    destruct (Hse se) as [? Hok]; [by eapply lookup_weaken|]. split; [done|].
    destruct Hmk as [| |k s' _ _ _ _]; [done..|]. apply lookup_delete_Some in Hs as [Hne _].
    intros r Hr. apply elem_of_filter. split; [done|by apply Hok].
  - done.
  - intros k s Hs. eapply Hl, lookup_weaken; done.
  - intros k r Hin. by eapply Hm, HM.
  - by eapply within_cap_mono.
  - by eapply limits_ok_mono.
Qed.

(** A new session has a new key and a new channel. *)
Lemma books_insert T opn M L tx tk se :
  books cfg T opn M L → opn tx = true → T !! tx = None → ¬ has_task T (tk_session_key tk) →
  tk_tx tk = tx → task_keyed tk → cfg_limits cfg (tk_tenant tk) = tk_limits tk →
  tk_active_room tk = None → conn_tx (s_conn se) = tx → s_tenant se = tk_tenant tk →
  has_room (max_sessions_total (tk_limits tk)) (tenant_count L (tk_tenant tk)) →
  books cfg (<[tx := (tk, SReady)]> T) opn M (<[tk_session_key tk := se]> L).
Proof.
  intros [Ht Hk Hl Hm Hc Hlim] Hopn Hnone Hnew Etx Hkd Elim Hroom Econ Eten Hcap.
  assert (L !! tk_session_key tk = None) as HL.
  { apply eq_None_not_Some. intros [s Hs]. by eapply Hnew, Hl. }
  assert (∀ k, has_task T k → has_task (<[tx := (tk, SReady)]> T) k) as Hmono.
  { intros k (tx' & tk' & s' & Ht' & Ek). exists tx', tk', s'. rewrite lookup_insert_ne //.
    intros ->. congruence. }
  split.
  - intros tx' tk' s' [[<- [= <- <-]]|[Hne Ht']]%lookup_insert_Some.
    + split; try done. rewrite lookup_insert_eq. intros s [= <-]. split; [done|].
      intros r. by rewrite Hroom.
    + pose proof (Ht _ _ _ Ht') as [? ? ? ? Hse]. split; try done. rewrite lookup_insert_ne //.
      intros E. apply Hnew. by exists tx', tk', s'.
  - intros tx1 tx2 tk1 tk2 s1 s2 [[<- [= <- <-]]|[Hn1 H1]]%lookup_insert_Some
      [[<- [= <- <-]]|[Hn2 H2]]%lookup_insert_Some E; [done| | |by eapply Hk].
    + destruct Hnew. by eexists _, _, _.
    + destruct Hnew. by eexists _, _, _.
  - intros k s [[<- _]|[_ Hs]]%lookup_insert_Some; [|by eapply Hmono, Hl].
    exists tx, tk, SReady. by rewrite lookup_insert_eq.
  - intros k r Hin. by eapply Hmono, Hm.
  - intros t Hpos. rewrite tenant_count_insert // Eten. specialize (Hc t Hpos). cbn beta in *.
    case_decide as E; [|lia]. subst t. rewrite Elim in Hpos |- *. destruct Hcap; lia.
  - done.
Qed.

(** A task ends. *)
Lemma books_remove T opn opn' M L tx tk s :
  books cfg T opn M L → T !! tx = Some (tk, s) → (∀ tx', tx' ≠ tx → opn' tx' = opn tx') →
  books cfg (delete tx T) opn' (without M (tk_session_key tk)) (delete (tk_session_key tk) L).
Proof.
  intros [Ht Hk Hl Hm Hc Hlim] Htx Hop. split.
  - intros tx' tk' s' [Hne Ht']%lookup_delete_Some. pose proof (Ht _ _ _ Ht') as [? ? ? ? Hse].
    split; try done; [by rewrite Hop|]. intros se [Hd Hs]%lookup_delete_Some.
    destruct (Hse _ Hs) as [? Hok]. split; [done|]. intros r Hr. apply elem_of_filter.
    split; [done|by apply Hok].
  - intros tx1 tx2 tk1 tk2 s1 s2 [_ H1]%lookup_delete_Some [_ H2]%lookup_delete_Some. by eapply Hk.
  - intros k se [Hne Hs]%lookup_delete_Some. eapply has_task_delete; [done|by eapply Hl|done].
  - intros k r [Hne Hin]%elem_of_filter. eapply has_task_delete; [done|by eapply Hm|done].
  - by apply within_cap_delete.
  - eapply limits_ok_mono; [|done]. intros x [_ Hx]%elem_of_filter. done.
Qed.
End books.

(** ** The invariant *)

Section invariant.
Context {Bytes : Type} `{!BytesOps Bytes, !BytesFrom Bytes, !SerdeJson, !DashOrder, !DashOrderLaws}.
Context `{!Mpsc, !MpscLaws} (cfg : GatewayConfig) (Hcfg : good_cfg cfg).
Implicit Types (st : AppState Bytes) (sys : System Bytes) (M : members) (L : gmap string Session).

Definition opn st (tx : nat) : bool := ch_open (w_chans (a_world st)) tx.

(** The state behind the tasks. *)
Record app_inv (n : nat) st M L : Prop := {
  ai_dispatcher : a_dispatcher st = builtin_dispatcher;
  ai_cfg : a_cfg st = cfg;
  ai_rep : gateway_rep (a_world st) M L;
  ai_members : (size M ≤ n)%nat;
  ai_sessions : (size L ≤ n)%nat;
  ai_seq : sr_seq (app_sessions st) ≤ Z.of_nat n + 1;
}.

Record sys_inv (n : nat) sys M L : Prop := {
  si_app : app_inv n (sy_app sys) M L;
  si_books : books cfg (sy_tasks sys) (opn (sy_app sys)) M L;
  si_upgraded q : q ∈ sy_upgraded sys → is_Some (cfg_tenant cfg (q_tenant q));
}.

Lemma configured_cfg st : a_cfg st = cfg → configured st.
Proof using Hcfg.
  intros E id t Hf. rewrite /find_tenant E in Hf. by destruct (Hcfg id t Hf) as (_ & ? & ?).
Qed.

Lemma app_inv_frame n st st' M L :
  app_inv n st M L → a_dispatcher st' = a_dispatcher st → a_cfg st' = a_cfg st →
  same_core True (a_world st) (a_world st') → app_inv (S n) st' M L.
Proof using Type.
  intros [Hd Hc Hl Hm Hs Hq] Ed Ec Hsame. pose proof Hsame as (Ecore & _).
  split; [by rewrite Ed|by rewrite Ec|by eapply gateway_rep_same_core|lia|lia|].
  rewrite /app_sessions Ecore. change (sessions (w_core (a_world st))) with (app_sessions st). lia.
Qed.

Lemma same_core_opn st st' tx : same_core True (a_world st) (a_world st') → opn st' tx = opn st tx.
Proof using Type. intros (_ & _ & _ & Hst). by apply Hst. Qed.

(** Removing a session draws no sequence number. *)
Lemma session_end_seq tk st : sr_seq (app_sessions (session_end tk st)) = sr_seq (app_sessions st).
Proof using Type.
  rewrite /session_end /session_cleanup /remove_session. by destruct (sr_sessions _ !! _).
Qed.

Lemma inv_idle n sys M L : sys_inv n sys M L → ∃ M', sys_inv (S n) sys M' L.
Proof using Type.
  intros [[? ? ? ? ? ?] ? ?]. exists M. split; [split; try done; lia|done..].
Qed.

(** A step of one task that stays. *)
Lemma inv_reached n sys M L tx tk0 s0 tk s st :
  sys_inv n sys M L → sy_tasks sys !! tx = Some (tk0, s0) →
  reached True tk0 (sy_app sys) M L tk st →
  ∃ M', sys_inv (S n) (set_task sys st tx (tk, s)) M' L.
Proof using Type.
  intros [[Hd Hc Hl Hm Hs Hq] Hb Hup] Htx [Ed Ec Es _ Hst Hid (M' & Hl' & Hmv)].
  exists M'. split; [|cbn|done].
  - split; [by rewrite Ed|by rewrite Ec|done| |lia|cbn; rewrite Es; lia].
    pose proof (mv_size _ _ _ _ Hmv). lia.
  - eapply books_moved; [|done|done|done]. eapply books_open; [|done].
    intros tx' Ho. rewrite /opn. by rewrite (proj1 (Hst I tx')).
Qed.

(** The task of a system is fit for the theorems about its events. *)
Lemma inv_task n sys M L tx tk s :
  sys_inv n sys M L → sy_tasks sys !! tx = Some (tk, s) → task_keyed tk.
Proof using Type. intros [_ Hb _] Htx. by destruct (bk_task _ _ _ _ _ Hb _ _ _ Htx). Qed.

Lemma fresh_first_part ev tk st : fresh_join (first_part ev) tk st = fresh_join ev tk st.
Proof using Type. by destruct ev. Qed.
Lemma sound_first_part ev tk st : sound_leave (first_part ev) tk st = sound_leave ev tk st.
Proof using Type. by destruct ev. Qed.

Lemma inv_event n sys M L tx tk ev :
  sys_inv n sys M L → Z.of_nat n < u64_max → sy_tasks sys !! tx = Some (tk, SReady) →
  fresh_join ev tk (sy_app sys) = true → sound_leave ev tk (sy_app sys) = true →
  ∃ M', sys_inv (S n) (sys_exec sys (AEvent tx ev)) M' L.
Proof using All.
  intros Hinv Hn Htx Hf Hs. cbn [sys_exec]. rewrite Htx /begin_event.
  pose proof (si_app _ _ _ _ Hinv) as [Hd Hc Hl Hm HL Hq].
  pose proof (on_event_reached True (first_part ev) tk (sy_app sys) M L Hd
    ltac:(by destruct ev) Hl (inv_task _ _ _ _ _ _ _ Hinv Htx) ltac:(lia)
    ltac:(by rewrite fresh_first_part) ltac:(by rewrite sound_first_part)) as Hr.
  destruct (on_event _ _ _) as [[flow tk'] st']. by eapply inv_reached.
Qed.

Lemma inv_send n sys M L tx fe :
  sys_inv n sys M L → ∃ M', sys_inv (S n) (sys_exec sys (ASend tx fe)) M' L.
Proof using All.
  intros Hinv. cbn [sys_exec].
  pose proof (inv_idle _ _ _ _ Hinv) as Hidle.
  destruct (sy_tasks sys !! tx) as [[tk [|p| |]]|] eqn:Htx; try done.
  destruct (no_other fe) eqn:Ef; [|done]. rewrite /send_step.
  eapply inv_reached; [done|done|]. eapply reached_frame; [apply reached_start, Hinv|done..|].
  apply (same_core_fut True (pb_timeout p) (pb_msg p) (mkFutState (a_world (sy_app sys)) (pb_pending p) []) fe).
  done.
Qed.

Lemma inv_resume n sys M L tx elapsed :
  sys_inv n sys M L → ∃ M', sys_inv (S n) (sys_exec sys (AResume tx elapsed)) M' L.
Proof using All.
  intros Hinv. cbn [sys_exec].
  pose proof (inv_idle _ _ _ _ Hinv) as Hidle.
  destruct (sy_tasks sys !! tx) as [[tk [|p| |]]|] eqn:Htx; try done.
  destruct (pb_pending p); [|done].
  eapply inv_reached; [done|done|]. by eapply reached_frame; [apply reached_start, Hinv|..].
Qed.
(** An upgrade leaves the state behind the tasks alone, and is for a tenant of
    the configuration. *)
Lemma ws_upgrade_frame reentrant ck st ip q :
  let '(res, st') := ws_upgrade reentrant ck st ip q in
  a_world st' = a_world st ∧ a_cfg st' = a_cfg st ∧ a_dispatcher st' = a_dispatcher st
  ∧ is_draining st' = is_draining st
  ∧ (res = Some Upgraded → is_Some (find_tenant st (q_tenant q)) ∧ is_draining st = false).
Proof using Type.
  rewrite /ws_upgrade. destruct (check _ _ _ _) as [[[[]|wait]|] hs]; [|by cbn..].
  change (is_draining (set_handshake st hs)) with (is_draining st).
  change (find_tenant (set_handshake st hs)) with (find_tenant st).
  destruct (is_draining st) eqn:Ed; [done|].
  destruct (find_tenant st (q_tenant q)) as [t|]; [|done].
  destruct (_ && _); [done|]. by split_and!.
Qed.

Lemma inv_upgrade n sys M L reentrant ck ip q :
  sys_inv n sys M L → ∃ M' L', sys_inv (S n) (sys_exec sys (AUpgrade reentrant ck ip q)) M' L'.
Proof using Type.
  intros [Ha Hb Hup]. cbn [sys_exec]. pose proof (ws_upgrade_frame reentrant ck (sy_app sys) ip q) as Hf.
  destruct (ws_upgrade _ _ _ _ _) as [res st']. destruct Hf as (Ew & Ec & Ed & _ & Hq).
  exists M, L. split; cbn [sy_app sy_tasks sy_upgraded].
  - eapply app_inv_frame; [done..|]. by rewrite Ew.
  - by rewrite /opn Ew.
  - destruct res as [[rsp|]|]; [done| |done]. intros q' [Hin|Hin%list_elem_of_singleton]%elem_of_app; [by apply Hup|subst q'].
    destruct (Hq eq_refl) as [Hs _]. by rewrite /find_tenant (ai_cfg _ _ _ _ Ha) in Hs.
Qed.

Lemma inv_drain n sys M L reason :
  sys_inv n sys M L → ∃ M' L', sys_inv (S n) (sys_exec sys (ADrain reason)) M' L'.
Proof using All.
  intros [Ha Hb Hup]. exists M, L. cbn [sys_exec].
  assert (same_core True (a_world (sy_app sys)) (a_world (begin_drain (sy_app sys) reason))) as Hsame.
  { apply same_core_foldl. intros w [k conn]. apply same_core_push. }
  split; cbn [sy_app sy_tasks sy_upgraded]; [by eapply app_inv_frame| |done].
  eapply books_open; [|done]. intros tx Ho. by rewrite (same_core_opn _ _ _ Hsame).
Qed.

Lemma inv_end n sys M L tx :
  sys_inv n sys M L → Z.of_nat n < u64_max → ∃ M' L', sys_inv (S n) (sys_exec sys (AEnd tx)) M' L'.
Proof using All.
  intros Hinv Hn. cbn [sys_exec].
  destruct (inv_idle _ _ _ _ Hinv) as [M0 Hidle].
  destruct (sy_tasks sys !! tx) as [[tk [|p| |]]|] eqn:Htx; try by eexists _, _.
  pose proof (inv_task _ _ _ _ _ _ _ Hinv Htx) as Hkd. destruct Hinv as [[Hd Hc Hl Hm Hs Hq] Hb Hup].
  exists (without M (tk_session_key tk)), (delete (tk_session_key tk) L).
  split; cbn [sy_app sy_tasks sy_upgraded]; [| |done].
  - split; [..|cbn].
    + rewrite /session_end /session_cleanup. by destruct (remove_session _ _ _).
    + rewrite /session_end /session_cleanup. by destruct (remove_session _ _ _).
    + apply session_end_rep; [done..|lia].
    + assert (size (without M (tk_session_key tk)) ≤ size M)%nat as Hsz
        by (apply subseteq_size; intros x [_ Hx]%elem_of_filter; done). lia.
    + pose proof (size_delete_le L (tk_session_key tk)). lia.
    + rewrite session_end_seq. lia.
  - eapply books_remove; [done|done|]. intros tx' Hne. rewrite /opn /session_end /session_cleanup.
    destruct (bk_task _ _ _ _ _ Hb _ _ _ Htx) as [Etx _ _ _ _]. destruct (remove_session _ _ _) as [c1 r].
    cbn. destruct (drop_rx_closed (w_chans (a_world (sy_app sys))) (tk_tx tk)) as [_ Hsame].
    rewrite Etx in Hsame |- *. by destruct (Hsame tx' Hne) as (_ & ? & _).
Qed.
(** The state after room was made, whoever came in. *)
Lemma inv_made_room n st st' M L M1 L1 L' max u :
  app_inv n st M L → makes_room max u M L M1 L1 → fixed st st' →
  sr_seq (app_sessions st') ≤ sr_seq (app_sessions st) + 1 → gateway_rep (a_world st') M1 L' →
  (size L' ≤ S (size L1))%nat → app_inv (S n) st' M1 L'.
Proof using Type.
  intros [Hd Hc Hl Hm Hs Hq] Hmk (Ed & Ec & _) Hseq Hl' Hsz.
  destruct (makes_room_sub _ _ _ _ _ _ Hmk) as [HM HL].
  pose proof (subseteq_size _ _ HM). pose proof (map_subseteq_size _ _ HL).
  split; [by rewrite Ed|by rewrite Ec|done|lia|lia|lia].
Qed.

Lemma key_unused_spec sys k : key_unused sys k = true → ¬ has_task (sy_tasks sys) k.
Proof using Type.
  rewrite /key_unused bool_decide_eq_true. intros Hall (tx & tk & s & Htx & Ek). by destruct (Hall _ _ Htx).
Qed.

Lemma books_chans_open st T M L : books cfg T (opn st) M L → chans_open (a_world st) L.
Proof using Type.
  intros [Ht _ Hl _ _ _] k s Hs. destruct (Hl _ _ Hs) as (tx & tk & s' & Htx & <-).
  destruct (Ht _ _ _ Htx) as [_ _ Ho _ Hse]. by destruct (Hse _ Hs) as [-> _].
Qed.

Lemma inv_open n sys M L i now nanos :
  sys_inv n sys M L → Z.of_nat n + 1 < u64_max → clean_act sys (AOpen i now nanos) = true →
  ∃ M' L', sys_inv (S n) (sys_exec sys (AOpen i now nanos)) M' L'.
Proof using All.
  intros Hinv Hn Hclean. cbn [sys_exec clean_act] in *. destruct (inv_idle _ _ _ _ Hinv) as [M0 Hidle].
  destruct (sy_upgraded sys !! i) as [q|] eqn:Eq; [|by eexists _, _].
  assert (∀ q', q' ∈ delete i (sy_upgraded sys) → q' ∈ sy_upgraded sys) as Hdel
    by (intros q'; apply list_elem_of_delete_inv).
  pose proof Hinv as [Ha Hb Hup]. pose proof Ha as [Hd Hc Hl Hm Hs Hq].
  assert (∃ M' L', sys_inv (S n) (mkSystem (sy_app sys) (delete i (sy_upgraded sys)) (sy_tasks sys)) M' L')
    as Hearly by (exists M0, L; destruct Hidle; split; auto).
  destruct (Hup q) as [tc Htc]; [by eapply list_elem_of_lookup_2|].
  destruct (tenant_policy (sy_app sys) (q_tenant q)) as [policy|] eqn:Ep; [|by rewrite /session_open Ep].
  destruct (resolve_ticket (q_ticket q)) as [user|e] eqn:Er; [|by rewrite /session_open Ep Er].
  destruct (Hcfg _ _ Htc) as (Hsafe & Hlt & Hcap). apply key_unused_spec in Hclean.
  assert (find_tenant (sy_app sys) (q_tenant q) = Some tc) as Hft by (by rewrite /find_tenant Hc).
  assert (L !! session_key (q_tenant q) user (take_sid (sy_app sys) q).1 = None) as Hnone.
  { apply eq_None_not_Some. intros [se Hse]. by eapply Hclean, bk_live. }
  pose proof (session_open_outcome now nanos (sy_app sys) q M L policy tc user Hl
    (books_chans_open _ _ _ _ Hb) (configured_cfg _ Hc) Ep Hft Er Hsafe Hnone ltac:(lia) ltac:(lia)
    ltac:(lia)) as Hout.
  destruct (session_open _ _ _ _) as [o st']. destruct Hout as (Hfix & Hseq & Hop & Hout).
  pose proof (books_open _ _ _ _ _ _ Hop Hb) as Hb1. destruct o as [tk|[[]|e]| |]; [| | |done..].
  - destruct Hout as (M1 & L1 & trace & tx & seq & Hmk & Hroom & _ & Hnew & Hst).
    destruct Hst as ([= E1 E2 E3 E4 E5] & Hact & Hl' & Hkd & Ho' & _).
    eexists M1, _. split; cbn [sy_app sy_tasks sy_upgraded]; [| |by auto].
    + eapply inv_made_room; try done. rewrite map_size_insert. destruct (L1 !! _); cbn; lia.
    + rewrite -E1 -E2 -E3 in Hclean Hroom |- *. rewrite E4. apply books_insert; try done.
      * by eapply books_make_room.
      * apply eq_None_not_Some. intros [[tk' s'] Htk'].
        destruct (bk_task _ _ _ _ _ Hb _ _ _ Htk') as [_ _ Ho _ _]. rewrite /opn in Ho. congruence.
      * rewrite /cfg_limits E1 Htc. done.
      * by rewrite E5.
  - destruct Hout as (_ & _ & Hl'). exists M, L. split; cbn [sy_app sy_tasks sy_upgraded]; [|done|by auto].
    destruct Hfix as (Ed & Ec & _). split; [by rewrite Ed|by rewrite Ec|done|lia|lia|lia].
  - destruct Hout as (_ & M1 & L1 & Hmk & _ & Hl'). exists M1, L1.
    split; cbn [sy_app sy_tasks sy_upgraded]; [|by eapply books_make_room|by auto].
    eapply inv_made_room; try done. lia.
Qed.
Lemma inv_start now c app :
  app_new now c cfg = Ok app → sys_inv 0 (mkSystem app [] ∅) ∅ ∅.
Proof using Type.
  rewrite /app_new. destruct (compile_policies _ _ _) as [pol|]; [|done]. cbn.
  destruct (sanity_check _ _ _) as [log|]; [|done]. cbn. intros [= <-]. split; cbn.
  - split; cbn; [done|done| |done|done|done]. split; [split; cbn| |]; try done.
    + apply rooms_rep_new.
    + apply reg_rep_new.
  - split; try done; [|apply limits_ok_empty]. intros t Ht.
    rewrite /tenant_count /tenant_sessions map_filter_empty map_size_empty. lia.
  - by intros q ?%not_elem_of_nil.
Qed.

Lemma sys_reach_inv n sys :
  sys_reach cfg n sys → Z.of_nat n + 1 < u64_max → ∃ M L, sys_inv n sys M L.
Proof using All.
  induction 1 as [now c app Ha|n sys a _ IH Hclean]; intros Hn.
  { exists ∅, ∅. by eapply inv_start. }
  destruct IH as (M & L & Hinv); [lia|]. destruct a as [reentrant ck ip q|i now nanos|tx ev|tx fe|tx ns|tx|reason].
  - by eapply inv_upgrade.
  - eapply inv_open; [done|lia|done].
  - cbn [clean_act] in Hclean. destruct (inv_idle _ _ _ _ Hinv) as [M0 Hidle].
    destruct (sy_tasks sys !! tx) as [[tk s]|] eqn:Htx; [|exists M0, L; by rewrite /= Htx].
    destruct s; try by (exists M0, L; rewrite /= Htx).
    apply andb_true_iff in Hclean as [Hf Hs].
    destruct (inv_event n sys M L tx tk ev Hinv ltac:(lia) Htx Hf Hs) as [M' Hinv']. by exists M', L.
  - destruct (inv_send n sys M L tx fe Hinv) as [M' Hinv']. by exists M', L.
  - destruct (inv_resume n sys M L tx ns Hinv) as [M' Hinv']. by exists M', L.
  - eapply inv_end; [done|lia].
  - by eapply inv_drain.
Qed.
End invariant.

(** ** What follows *)


Lemma idx_rep_none m (R : string → string → Prop) : idx_rep m R → (∀ k x, ¬ R k x) → m = ∅.
Proof.
  intros Hm Hno. apply map_eq. intros k. rewrite lookup_empty. apply (idx_absent _ _ _ Hm). auto.
Qed.

(** Without tasks there is no session and no member of a room. *)
Lemma idle_world {Bytes : Type} `{!BytesOps Bytes, !BytesFrom Bytes, !SerdeJson, !DashOrder,
    !DashOrderLaws, !Mpsc, !MpscLaws} cfg n (sys : System Bytes) :
  good_cfg cfg → sys_reach cfg n sys → Z.of_nat n + 1 < u64_max → sy_tasks sys = ∅ →
  world_rep (a_world (sy_app sys)) ∅ ∅.
Proof.
  intros Hcfg Hreach Hn Hidle. destruct (sys_reach_inv cfg Hcfg n sys Hreach Hn) as (M & L & Hinv).
  destruct Hinv as [[_ _ Hl _ _ _] Hb _]. pose proof (gr_world _ _ _ Hl) as Hw. rewrite Hidle in Hb.
  assert (∀ k, ¬ has_task ∅ k) as Hnone by (intros k (tx & tk & s & Htx & _); done).
  assert (L = ∅) as <-.
  { apply map_eq. intros k. rewrite lookup_empty. apply eq_None_not_Some. intros [s Hs].
    by eapply Hnone, bk_live. }
  assert (M = ∅) as <-; [|done].
  apply set_eq; intros [k r]; split; [intros Hin; by destruct (Hnone k); eapply bk_members|done].
Qed.

(** C6: nothing is left. When, in such a run (acts that do not overlap, no session key opened twice, no room joined twice, none left after being taken out of
    it, tenant ids that can be read back from keys), no task is running, the gateway
    is as it was at startup: no session is registered, no room exists, no user is
    in the index of a room or of the registry, no reference count is kept, and the
    counters of all tenants are zero. *)
Theorem gateway_quiescent {Bytes : Type} `{!BytesOps Bytes, !BytesFrom Bytes, !SerdeJson, !DashOrder,
    !DashOrderLaws, !Mpsc, !MpscLaws} cfg n (sys : System Bytes) :
  good_cfg cfg → sys_reach cfg n sys → Z.of_nat n + 1 < u64_max → sy_tasks sys = ∅ →
  let reg := app_sessions (sy_app sys) in
  let p := app_presence (sy_app sys) in
  sr_sessions reg = ∅ ∧ sr_user_index reg = ∅ ∧ (∀ t, count_tenant_sessions reg t = 0)
  ∧ room_to_sessions p = ∅ ∧ session_to_rooms p = ∅ ∧ room_to_users p = ∅ ∧ user_to_rooms p = ∅
  ∧ (∀ uk rk, same_tenant uk rk → user_room_refs p !! ref_key uk rk = None)
  ∧ (∀ t, default 0 (tenant_room_counts p !! t) = 0).
Proof.
  intros Hcfg Hreach Hn Hidle reg p.
  destruct (idle_world cfg n sys Hcfg Hreach Hn Hidle) as [Hr Hg _ _ _].
  split_and!.
  - rewrite /reg /app_sessions (rr_sessions _ _ Hg). by rewrite fmap_empty.
  - eapply idx_rep_none; [apply Hg|]. by intros u k (s & ? & _).
  - intros t. by rewrite /reg /app_sessions (rep_count _ ∅ Hg).
  - eapply idx_rep_none; [apply Hr|]. done.
  - eapply idx_rep_none; [apply Hr|]. done.
  - eapply idx_rep_none; [apply Hr|]. by intros r u (s & ? & _).
  - eapply idx_rep_none; [apply Hr|]. by intros r u (s & ? & _).
  - intros uk rk Hv. rewrite (pr_refs _ _ _ _ _ _ Hr) //.
  - intros t. rewrite (pr_counts _ _ _ _ _ _ Hr). done.
Qed.

(** ** A run with two sessions that meet in a room *)

(** Every act of the list is clean where it happens. *)
Fixpoint clean_acts {Bytes : Type} `{!BytesOps Bytes, !BytesFrom Bytes, !SerdeJson, !DashOrder, !Mpsc}
    (sys : System Bytes) (acts : list Act) : bool :=
  match acts with
  | [] => true
  | a :: acts => clean_act sys a && clean_acts (sys_exec sys a) acts
  end.

Lemma sys_reach_run {Bytes : Type} `{!BytesOps Bytes, !BytesFrom Bytes, !SerdeJson, !DashOrder, !Mpsc}
    cfg n (sys : System Bytes) acts :
  sys_reach cfg n sys → clean_acts sys acts = true →
  sys_reach cfg (length acts + n) (foldl sys_exec sys acts).
Proof.
  revert n sys. induction acts as [|a acts IH]; intros n sys Hr Hc; [done|]. cbn [foldl length] in *.
  apply andb_true_iff in Hc as [Ha Hc]. rewrite Nat.add_succ_comm. apply IH; [by apply sys_act|done].
Qed.

Module Meeting.
Import MiniJson.

Definition start : AppState (list byte) :=
  match app_new 0 ∅ Gateway.cfg with Ok st => st | Err _ => Gateway.app end.
Definition says (s : string) : Event := EvIn Gateway.rd (Some (MText s)).
Definition visitor (sid : string) : list Act :=
  [AUpgrade false Visitor.clocks (V4 0) (mkWsQuery "t" "dev" (Some sid)); AOpen 0 0 0].
Definition meet : list Act :=
  visitor "1" ++ visitor "2"
  ++ [AEvent 0 (says "room join lobby"); AEvent 1 (says "room join lobby");
      AEvent 0 (says "chat send lobby hello"); ASend 0 (Poll 1); AEvent 1 EvPing; ASend 0 (Poll 0);
      AResume 0 5000].
Definition part : list Act :=
  [AEvent 1 (says "room leave"); AEvent 0 (EvIn Gateway.rd None); AEvent 1 (EvIn Gateway.rd None);
   AEnd 1; AEnd 0].
Definition system (acts : list Act) : System (list byte) := foldl sys_exec (mkSystem start [] ∅) acts.

Lemma starts : app_new 0 ∅ Gateway.cfg = Ok start.
Proof.
  rewrite /start. assert (is_ok (app_new (Bytes := list byte) 0 ∅ Gateway.cfg) = true) as Hok by by vm_compute.
  by destruct (app_new 0 ∅ Gateway.cfg).
Qed.

Lemma reach acts :
  clean_acts (mkSystem start [] ∅) acts = true → sys_reach Gateway.cfg (length acts + 0) (system acts).
Proof. apply sys_reach_run. exact (sys_start _ 0 ∅ _ starts). Qed.

Lemma good : good_cfg Gateway.cfg.
Proof. intros id tc. cbn. case_bool_decide as E; [|done]. intros [= <-]. by rewrite -E. Qed.
End Meeting.

Import MiniJson.


(** When both have gone, nothing is left. *)
Lemma gateway_quiescent_witness :
  let sys := Meeting.system (Meeting.meet ++ Meeting.part) in
  room_to_sessions (app_presence (sy_app sys)) = ∅ ∧ count_tenant_sessions (app_sessions (sy_app sys)) "t" = 0.
Proof.
  intros sys.
  destruct (gateway_quiescent Gateway.cfg (length (Meeting.meet ++ Meeting.part) + 0) sys Meeting.good)
    as (_ & _ & Hc & Hr & _).
  - apply Meeting.reach. by vm_compute.
  - by vm_compute.
  - by vm_compute.
  - split; [exact Hr|apply Hc].
Defined.
