(* ===== verification/Effects.v ===== *)
(** * The effects of the gateway

    Every act of [System.v] is made of a few kinds of effects on the shared
    state and on the state of a task.  A property that each effect preserves
    is one that every act preserves, so that such a property is proved effect
    by effect and not handler by handler.  The effects may be confined to a
    scope: the channels that are read and sent to, and the tenants that act. *)

From S2P Require Import Prelude Errors RustStd HotFrame Config Allowlist TokenBucket Policy Dash.
From S2P Require Import SessionRegistry Presence Keys Channel Envelope Realtime Codec Dispatch.
From S2P Require Import Handshake Metrics AppState Ws Session Admission System.

(** What the handlers do to the metrics, with names of labels that are words. *)
Inductive metric_step (m : GatewayMetrics) : GatewayMetrics → Prop :=
| ms_upgrades l : plain_labels l = true → metric_step m (inc_upgrades m l)
| ms_sessions l v : plain_labels l = true → metric_step m (add_sessions m l v)
| ms_decisions l : plain_labels l = true → metric_step m (inc_decisions m l)
| ms_rejections l : plain_labels l = true → metric_step m (inc_rejections m l)
| ms_observe l ns : plain_labels l = true → metric_step m (observe_dispatch m l ns)
| ms_decode l : plain_labels l = true → metric_step m (inc_decode_errors m l)
| ms_service l : plain_labels l = true → metric_step m (inc_service_errors m l)
| ms_timeouts l : plain_labels l = true → metric_step m (inc_writer_timeouts m l)
| ms_draining : metric_step m (set_draining m).

(** Where effects take place: the receivers that are used, the channels that
    are sent to, those that a session may be registered with, the tenants that
    act, the session keys of a tenant, and its limits. *)
Record Scope `{!Mpsc} := mkScope {
  sc_uses : nat → Prop;
  sc_sends : nat → Prop;
  sc_live : chans → nat → Prop;
  sc_tenant : string → Prop;
  sc_key : string → string → Prop;
  sc_lim : string → TenantLimits → Prop;
}.

(** Anywhere, but for the receivers. *)
Definition anywhere `{!Mpsc} (uses : nat → Prop) : Scope :=
  mkScope _ uses (λ _, True) (λ _ _, True) (λ _, True) (λ _ _, True) (λ _ _, True).

(** What the handlers do to the registry, and to the rooms. *)
Inductive reg_step `{!DashOrder, !Mpsc} (S : Scope) (c : chans) (r : SessionRegistry) : SessionRegistry → Prop :=
| rs_insert t u k conn lim : sc_tenant S t → sc_key S t k → sc_sends S (conn_tx conn) → sc_live S c (conn_tx conn) →
    sc_lim S t lim → reg_step S c r (try_insert r t (user_key t u) k conn (max_sessions_total lim)).2
| rs_remove t u k : sc_tenant S t → sc_key S t k → reg_step S c r (remove_session r (user_key t u) k).2
| rs_evict t u : sc_tenant S t → reg_step S c r (evict_oldest r (user_key t u)).2.

Inductive pres_step `{!DashOrder, !Mpsc} (S : Scope) (p : Presence) : Presence → Prop :=
| ps_join t room u k lim : sc_tenant S t → sc_key S t k → sc_lim S t lim →
    pres_step S p (try_join p t (room_key t room) (user_key t u) k lim).2
| ps_leave t room u k : sc_tenant S t → sc_key S t k →
    pres_step S p (leave p t (room_key t room) (user_key t u) k)
| ps_cleanup t u k : sc_tenant S t → sc_key S t k → pres_step S p (cleanup_session p t (user_key t u) k).

#[export] Hint Constructors metric_step reg_step pres_step : wsprism.

Section effects.
Context {Bytes : Type} `{!BytesOps Bytes, !BytesFrom Bytes, !SerdeJson, !DashOrder, !Mpsc}.
Implicit Types (st : AppState Bytes) (tk : Task) (sys : System Bytes).

(** What happens to the channels: a send, a new one, and,
    on those whose receiver is used, a message taken out or the end. *)
Inductive chan_step (S : Scope) (c : chans) : chans → Prop :=
| cs_send tx m : sc_sends S tx → chan_step S c (try_send c tx m).2
| cs_new n : chan_step S c (mpsc_channel c n).2
| cs_recv tx m c' : sc_uses S tx → recv c tx = Some (m, c') → chan_step S c c'
| cs_drop tx : sc_uses S tx → chan_step S c (drop_rx c tx).

(** What the policy check of a frame leaves. *)
Inductive policy_step (rt : TenantPolicyRuntime) : TenantPolicyRuntime → Prop :=
| pl_text checks now len svc ty : policy_step rt (check_text checks now rt len svc ty).2
| pl_hot checks now len svc op : policy_step rt (check_hot checks now rt len svc op).2.

(** [Q], of the shared state, and [T], of a task, withstand every effect in
    the scope. *)
Record withstands_in (S : Scope) (Q : AppState Bytes → Prop) (T : Task → Prop) : Prop := {
  wi_chans st c : Q st → chan_step S (w_chans (a_world st)) c → Q (set_app_chans st c);
  wi_fresh st n tx c :
    Q st → mpsc_channel (w_chans (a_world st)) n = (tx, c) → sc_uses S tx ∧ sc_sends S tx ∧ sc_live S c tx;
  wi_live c tx c' : sc_live S c tx → chan_step S c c' → sc_live S c' tx;
  wi_push st m text conn : Q st → sc_sends S (conn_tx conn) → Q (set_world st (push m text (a_world st) conn));
  wi_fail st text : Q st → Q (set_world st (count_fail (a_world st) text));
  wi_text st evs t u sid trace active env :
    Q st → sc_tenant S t → forallb no_other evs = true →
    Q (set_world st (dispatch_text (a_dispatcher st) evs (a_world st) (ctx_new t u sid trace active) env).2);
  wi_hot st evs t u sid trace active frame :
    Q st → sc_tenant S t → forallb no_other evs = true →
    Q (set_world st (dispatch_hot (a_dispatcher st) evs (a_world st) (ctx_new t u sid trace active) frame).2);
  wi_find st t tc : Q st → find_tenant st t = Some tc → sc_lim S t (limits tc);
  wi_lim tk : T tk → sc_lim S (tk_tenant tk) (tk_limits tk);
  wi_key t u sid : sc_tenant S t → sc_key S t (session_key t u sid);
  wi_victim st t u k conn r :
    Q st → sc_tenant S t → evict_oldest (app_sessions st) (user_key t u) = (Some (k, conn), r) →
    sc_key S t k ∧ sc_sends S (conn_tx conn);
  wi_reg st r :
    Q st → reg_step S (w_chans (a_world st)) (app_sessions st) r → Q (set_app_core st r (app_presence st));
  wi_pres st p : Q st → pres_step S (app_presence st) p → Q (set_app_core st (app_sessions st) p);
  wi_metrics st m : Q st → metric_step (a_metrics st) m → Q (set_metrics st m);
  wi_policy st id rt rt' :
    Q st → sc_tenant S id → tenant_policy st id = Some rt → policy_step rt rt' → Q (set_policy st id rt');
  wi_handshake st hs : Q st → Q (set_handshake st hs);
  wi_sid st : Q st → Q (gen_sid st).2;
  wi_trace st ns : Q st → Q (gen_trace ns st).2;
  wi_active tk r : T tk → T (set_active_room tk r);
  wi_seen tk now : T tk → T (set_last_activity tk now);
  wi_write tk m w : T tk → sc_uses S (tk_tx tk) → T (add_write tk m w);
  wi_ops tk : T tk → T (set_hot_ops tk (wrap64 (tk_hot_ops tk + 1)));
  wi_limiter tk checks now lim ok lim' :
    T tk → tk_conn_limiter tk = Some lim → crl_allow checks now lim = Done (ok, lim') →
    T (set_conn_limiter tk (Some lim'));
  wi_new st id rt t u sid trace tx lim now :
    Q st → tenant_policy st id = Some rt → sc_uses S tx → sc_lim S t lim →
    T (mkTask t u sid trace tx lim None now (new_connection_limiter rt now) 0 []);
}.

Context (S : Scope) (Q : AppState Bytes → Prop) (T : Task → Prop) (HW : withstands_in S Q T).

(** The task acts within the scope. *)
Definition acting tk : Prop := sc_tenant S (tk_tenant tk) ∧ sc_sends S (tk_tx tk).

(** The result of a handler is still good. *)
Definition good (r : Flow * Task * AppState Bytes) : Prop := T r.1.2 ∧ Q r.2.

Lemma metrics_good st m : metric_step (a_metrics st) m → Q st → Q (set_metrics st m).
Proof using All. intros Hm Hq. by apply (wi_metrics _ _ _ HW). Qed.

Lemma send_good st tx m res c :
  sc_sends S tx → try_send (w_chans (a_world st)) tx m = (res, c) → Q st → Q (set_app_chans st c).
Proof using All.
  intros Hs E Hq. apply (wi_chans _ _ _ HW); [done|]. change c with (res, c).2. rewrite -E. by constructor.
Qed.

Lemma reply_good flow tk st m : acting tk → T tk → Q st → good (reply flow tk st m).
Proof using All.
  intros [_ Ha] Ht Hq. rewrite /reply. destruct (try_send _ _ _) as [[] c] eqn:Es; split; try done;
    by eapply send_good.
Qed.

Lemma hot_error_good policy flow tk st code msg :
  acting tk → T tk → Q st → good (hot_error policy flow tk st code msg).
Proof using All.
  intros Ha Ht Hq. rewrite /hot_error. destruct (tpr_hot_error_mode policy); [by apply reply_good|done].
Qed.

Lemma decided_good tk st lane decision reason : Q st → Q (decided tk st lane decision reason).
Proof using All. apply metrics_good. by constructor. Qed.

Lemma on_join_good tk st env : acting tk → T tk → Q st → good (on_join tk st env).
Proof using All.
  intros Ha Ht Hq. rewrite /on_join /join_room_with_limits.
  destruct (try_join _ _ _ _ _ _) as [res p] eqn:E. cbv zeta beta iota.
  assert (Q (set_app_core st (app_sessions st) p)) as Hp.
  { apply (wi_pres _ _ _ HW); [done|]. change p with (res, p).2. rewrite -E.
    constructor; [apply Ha|apply (wi_key _ _ _ HW), Ha|by apply (wi_lim _ _ _ HW)]. }
  destruct res as [[]|e]; apply reply_good; [done|by apply (wi_active _ _ _ HW)|done|done|done|].
  by apply metrics_good; [by constructor|].
Qed.

Lemma on_leave_good tk st : acting tk → T tk → Q st → good (on_leave tk st).
Proof using All.
  intros Ha Ht Hq. rewrite /on_leave. destruct (tk_active_room tk) as [room|]; [|by apply reply_good].
  apply reply_good; [done|by apply (wi_active _ _ _ HW)|]. apply (wi_pres _ _ _ HW); [done|].
  constructor; [apply Ha|apply (wi_key _ _ _ HW), Ha].
Qed.

Lemma on_dispatch_text_good rd tk st env :
  forallb no_other (rd_evs rd) = true → acting tk → T tk → Q st → good (on_dispatch_text rd tk st env).
Proof using All.
  intros Hev Ha Ht Hq. rewrite /on_dispatch_text.
  pose proof (wi_text _ _ _ HW st (rd_evs rd) (tk_tenant tk) (tk_user tk) (tk_sid tk) (tk_trace tk) (tk_active_room tk)
    env Hq (proj1 Ha) Hev) as Hd. fold (task_ctx tk (tk_active_room tk)) in Hd.
  destruct (dispatch_text _ _ _ _ _) as [[res|] w]; [|done]. cbv zeta. cbn [snd] in Hd.
  destruct res as [[]|e]; [split; [done|]|apply reply_good; [done|done|apply metrics_good; [by constructor|]]];
    by apply metrics_good; [by constructor|].
Qed.

Lemma on_text_passed_good rd tk st env :
  forallb no_other (rd_evs rd) = true → acting tk → T tk → Q st → good (on_text_passed rd tk st env).
Proof using All.
  intros Hev Ha Ht Hq. rewrite /on_text_passed. destruct (bool_decide _); [by apply on_join_good|].
  destruct (bool_decide _); [by apply on_leave_good|by apply on_dispatch_text_good].
Qed.

Lemma on_text_good rd tk st env len :
  forallb no_other (rd_evs rd) = true → acting tk → T tk → Q st → good (on_text rd tk st env len).
Proof using All.
  intros Hev Ha Ht Hq. rewrite /on_text.
  assert (∀ tk', acting tk' → T tk' → good
    (match tenant_policy st (tk_tenant tk') with
     | None => (Panicked, tk', st)
     | Some policy =>
         let '(dec, policy) := check_text (rd_checks rd) (rd_tenant rd) policy len (env_svc env)
                                 (env_msg_type env) in
         let st := set_policy st (tk_tenant tk') policy in
         match dec with
         | Panic => (Panicked, tk', st)
         | Done Pass => on_text_passed rd tk' st env
         | Done Drop => (Continue, tk', decided tk' st "ext" "drop" "policy")
         | Done (Reject code msg) =>
             reply_error Continue tk' (decided tk' st "ext" "reject" (as_str code)) (as_str code) msg
         | Done (Close code msg) =>
             reply_error Break tk' (decided tk' st "ext" "close" (as_str code)) (as_str code) msg
         end
     end)) as Hpol.
  { intros tk' Ha' Ht'. destruct (tenant_policy st _) as [rt|] eqn:Er; [|done].
    destruct (check_text _ _ _ _ _ _) as [dec rt'] eqn:E. cbv zeta.
    assert (Q (set_policy st (tk_tenant tk') rt')) as Hq'.
    { eapply (wi_policy _ _ _ HW); [done|apply Ha'|done|]. change rt' with (dec, rt').2. rewrite -E. constructor. }
    destruct dec as [[]|]; [by apply on_text_passed_good| | | |done].
    - split; [done|by apply decided_good].
    - apply reply_good; [done|done|by apply decided_good].
    - apply reply_good; [done|done|by apply decided_good]. }
  destruct (tk_conn_limiter tk) as [lim|] eqn:El; [|by apply Hpol].
  destruct (crl_allow _ _ lim) as [[ok lim']|] eqn:Ea; [|done].
  assert (T (set_conn_limiter tk (Some lim'))) as Ht' by by eapply (wi_limiter _ _ _ HW).
  destruct ok; [by apply Hpol|]. split; [done|by apply decided_good].
Qed.

Lemma on_hot_good rd tk st frame len :
  forallb no_other (rd_evs rd) = true → acting tk → T tk → Q st → good (on_hot rd tk st frame len).
Proof using All.
  intros Hev Ha Ht Hq. rewrite /on_hot. destruct (tenant_policy st _) as [rt|] eqn:Er; [|done].
  destruct (check_hot _ _ _ _ _ _) as [dec rt'] eqn:E. cbv zeta.
  assert (Q (set_policy st (tk_tenant tk) rt')) as Hq'.
  { eapply (wi_policy _ _ _ HW); [done|apply Ha|done|]. change rt' with (dec, rt').2. rewrite -E. constructor. }
  destruct dec as [[]|]; [|split; [done|by apply decided_good]|by apply hot_error_good; [| |apply decided_good]..|done].
  destruct (_ && _); [by apply hot_error_good|]. rewrite /on_dispatch_hot. cbv zeta.
  pose proof (wi_ops _ _ _ HW tk Ht) as Hops. set (tk1 := set_hot_ops tk _) in *.
  pose proof (wi_hot _ _ _ HW _ (rd_evs rd) (tk_tenant tk1) (tk_user tk1) (tk_sid tk1) (tk_trace tk1) (tk_active_room tk1)
    frame Hq' (proj1 Ha) Hev) as Hd. fold (task_ctx tk1 (tk_active_room tk1)) in Hd.
  destruct (dispatch_hot _ _ _ _ _) as [[res|] w]; [|done]. cbn [snd] in Hd.
  assert (∀ ns, Q (set_metrics (set_world (set_policy st (tk_tenant tk) rt') w)
            (observe_dispatch (a_metrics st) [("tenant", tk_tenant tk1); ("lane", "hot")] ns))) as Hobs.
  { intros ns. apply metrics_good; [by constructor|done]. }
  destruct (_ =? 0), res as [[]|e]; [split; [done|apply Hobs]| |done|];
    (apply hot_error_good; [done|done|]; by apply metrics_good; [by constructor|try apply Hobs]).
Qed.

Lemma on_incoming_good rd tk st msg :
  forallb no_other (rd_evs rd) = true → acting tk → T tk → Q st → good (on_incoming rd tk st msg).
Proof using All.
  intros Hev Ha Ht Hq. rewrite /on_incoming. destruct msg as [msg|]; [|done]. cbv zeta.
  pose proof (wi_seen _ _ _ HW tk (rd_now rd) Ht) as Ht'.
  destruct (decode msg) as [[[env len|frame len|p|p|]|e]|]; try done.
  - by apply on_text_good.
  - by apply on_hot_good.
  - by apply reply_good.
  - apply reply_good; [done|done|]. by apply metrics_good; [by constructor|].
Qed.

(** An event, of a task alone; one that takes a message uses the receiver. *)
Definition event_uses (ev : Event) tk : Prop :=
  match ev with
  | EvOut _ => sc_uses S (tk_tx tk)
  | EvIn rd _ => forallb no_other (rd_evs rd) = true
  | _ => True
  end.

Lemma on_event_good ev tk st : event_uses ev tk → acting tk → T tk → Q st → good (on_event ev tk st).
Proof using All.
  intros Hu Ha Ht Hq. destruct ev as [wr|rd msg| |now]; cbn [on_event].
  - rewrite /on_out. destruct (recv _ _) as [[m c]|] eqn:Er; [|done]. cbv zeta.
    assert (Q (set_app_chans st c)) as Hq' by (by apply (wi_chans _ _ _ HW); [|eapply cs_recv]).
    pose proof (wi_write _ _ _ HW tk m wr Ht Hu) as Htk.
    destruct wr; (split; [done|]); [done..|]. by apply metrics_good; [by constructor|].
  - by apply on_incoming_good.
  - by apply reply_good.
  - rewrite /on_idle. destruct (_ <=? _); [by apply reply_good|done].
Qed.

(** The end of a session. *)
Lemma session_cleanup_good st t u k :
  sc_tenant S t → sc_key S t k → Q st → Q (session_cleanup st t (user_key t u) k).
Proof using All.
  intros Ht Hk Hq. rewrite /session_cleanup. destruct (remove_session _ _ _) as [c r] eqn:E. cbv zeta.
  apply metrics_good; [by constructor|].
  assert (Q (set_app_core st r (app_presence st))) as Hr.
  { apply (wi_reg _ _ _ HW); [done|]. change r with (c, r).2. rewrite -E. by constructor. }
  apply (wi_pres _ _ _ HW _ (cleanup_session (app_presence st) t (user_key t u) k) Hr). by constructor.
Qed.

Lemma session_end_good tk st :
  sc_tenant S (tk_tenant tk) → sc_uses S (tk_tx tk) → Q st → Q (session_end tk st).
Proof using All.
  intros Ht Hu Hq. apply (wi_chans _ _ _ HW); [|by constructor].
  apply session_cleanup_good; [done|by apply (wi_key _ _ _ HW)|done].
Qed.

(** Its beginning; the new channel stays live. *)
Abbreviation live_in st tx := (sc_live S (w_chans (a_world st)) tx).

Lemma send_live c tx' m res c' tx : sc_sends S tx' → try_send c tx' m = (res, c') → sc_live S c tx → sc_live S c' tx.
Proof using All.
  intros Hs E Hl. eapply (wi_live _ _ _ HW); [exact Hl|]. change c' with (res, c').2. rewrite -E. by constructor.
Qed.

Lemma kick_oldest_good st t u trace tx :
  sc_tenant S t → Q st → live_in st tx →
  Q (kick_oldest st t (user_key t u) trace) ∧ live_in (kick_oldest st t (user_key t u) trace) tx.
Proof using All.
  intros Ht Hq Hl. rewrite /kick_oldest. destruct (evict_oldest _ _) as [victim r] eqn:E.
  assert (∀ c, Q (set_app_chans st c) → Q (set_app_core (set_app_chans st c) r (app_presence st))) as Hr.
  { intros c Hc. apply (wi_reg _ _ _ HW (set_app_chans st c) r Hc).
    change (reg_step S c (app_sessions st) (victim, r).2). rewrite -E. by constructor. }
  destruct victim as [[k conn]|]; last first.
  { split; [|done]. apply (wi_reg _ _ _ HW); [done|]. change r with (None (A := string * Connection), r).2.
    rewrite -E. by constructor. }
  destruct (wi_victim _ _ _ HW _ _ _ _ _ _ Hq Ht E) as [Hk Hs].
  destruct (try_send _ _ _) as [res1 c1] eqn:E1. destruct (try_send c1 _ _) as [res2 c2] eqn:E2. cbv zeta.
  split; [|by eapply send_live, send_live].
  assert (Q (set_app_chans st c2)) as Hc2.
  { apply (send_good (set_app_chans st c1) _ _ _ _ Hs E2). by eapply send_good. }
  apply metrics_good; [by constructor|].
  apply (wi_pres _ _ _ HW _ (cleanup_session (app_presence st) t (user_key t u) k) (Hr c2 Hc2)). by constructor.
Qed.

Definition good_open (t : string) (r : Opened * AppState Bytes) : Prop :=
  Q r.2 ∧ match r.1 with
          | Running tk => T tk ∧ tk_tenant tk = t ∧ sc_sends S (tk_tx tk) ∧ live_in r.2 (tk_tx tk)
          | _ => True
          end.

Lemma session_register_good now rt st t u sid trace tx id st0 :
  sc_uses S tx → sc_sends S tx → live_in st tx → sc_tenant S t →
  Q st0 → tenant_policy st0 id = Some rt → Q st → good_open t (session_register now rt st t u sid trace tx).
Proof using All.
  intros Hu Hs Hl Ht Hq0 Hrt Hq. rewrite /session_register.
  destruct (find_tenant st t) as [tc|] eqn:Ef; cbv zeta; last first.
  { split; [by apply (wi_chans _ _ _ HW); [|constructor]|done]. }
  pose proof (wi_find _ _ _ HW st t tc Hq Ef) as Hlim.
  destruct (try_insert _ _ _ _ _ _) as [res r] eqn:E. pose proof (wi_key _ _ _ HW t u sid Ht) as Hk.
  assert (Q (set_app_core st r (app_presence st))) as Hr.
  { apply (wi_reg _ _ _ HW); [done|]. change r with (res, r).2. rewrite -E. by constructor. }
  destruct res as [[]|e]; [|split; [by apply (wi_chans _ _ _ HW); [|constructor]|done]].
  assert (Q (set_metrics (set_app_core st r (app_presence st))
               (add_sessions (a_metrics st) [("tenant", t)] 1))) as Hm
    by (by apply metrics_good; [by constructor|]).
  destruct (try_send _ _ _) as [[] c] eqn:Es.
  - split; [by eapply send_good|]. cbn. split_and!; [|done|done|by eapply send_live].
    exact (wi_new _ _ _ HW st0 id rt _ _ _ _ _ _ _ Hq0 Hrt Hu Hlim).
  - done.
  - split; [|done]. apply session_cleanup_good; [done|done|]. by eapply send_good.
Qed.

Lemma session_open_good now nanos st q :
  sc_tenant S (q_tenant q) → Q st → good_open (q_tenant q) (session_open now nanos st q).
Proof using All.
  intros Ht Hq. rewrite /session_open. destruct (tenant_policy st _) as [rt|] eqn:Er; [|done].
  destruct (resolve_ticket _) as [user|e]; [|done].
  assert (Q (take_sid st q).2) as Hq1 by (rewrite /take_sid; destruct (q_sid q); [done|by apply (wi_sid _ _ _ HW)]).
  destruct (take_sid st q) as [sid st1]. cbn [snd] in Hq1. pose proof (wi_trace _ _ _ HW st1 nanos Hq1) as Hq2.
  destruct (gen_trace nanos st1) as [trace st2]. cbn [snd] in Hq2. cbv zeta.
  destruct (mpsc_channel _ _) as [tx c1] eqn:Ec.
  destruct (wi_fresh _ _ _ HW st2 _ tx c1 Hq2 Ec) as (Hu & Hs & Hl).
  assert (Q (set_app_chans st2 c1)) as Hq3.
  { apply (wi_chans _ _ _ HW); [done|]. change c1 with (tx, c1).2. rewrite -Ec. constructor. }
  destruct (_ <=? _); [|by apply (session_register_good now rt _ _ _ _ _ _ (q_tenant q) st)].
  set (dec := inc_decisions _ _).
  assert (Q (set_metrics (set_app_chans st2 c1) dec)) as Hq4 by (by apply metrics_good; [by constructor|]).
  destruct (on_exceed _).
  - destruct (try_send _ _ _) as [res c2] eqn:Es. split; [|done].
    apply (wi_chans _ _ _ HW (set_app_chans (set_metrics (set_app_chans st2 c1) dec) c2)); [|by constructor].
    by eapply send_good.
  - destruct (kick_oldest_good (set_metrics (set_app_chans st2 c1) dec) (q_tenant q) user trace tx Ht Hq4 Hl) as [Hq5 Hl5].
    by apply (session_register_good now rt _ _ _ _ _ _ (q_tenant q) st).
Qed.

Lemma fut_step_good dt m fs ev st :
  no_other ev = true → Forall (λ conn, sc_sends S (conn_tx conn)) (fs_pending fs) →
  Q (set_world st (fs_world fs)) → Q (set_world st (fs_world (fut_step dt m fs ev))).
Proof using All.
  intros Hev Hall Hq. assert (∀ text, Q (set_world st (count_fail (fs_world fs) text))) as Hf
    by (intros text; by apply (wi_fail _ _ _ HW _ text) in Hq).
  destruct ev as [i|i|c]; cbn [fut_step]; [| |done].
  - destruct (fs_pending fs !! i) as [conn|] eqn:Ei; [|done]. pose proof (Forall_lookup_1 _ _ _ _ Hall Ei) as Hs.
    destruct (try_send _ _ _) as [[] c'] eqn:Es.
    1:{ exact (send_good (set_world st (fs_world fs)) _ _ _ _ Hs Es Hq). }
    1:{ done. }
    destruct dt; [done|apply Hf].
  - destruct (fs_pending fs !! i); [|done]. destruct dt; [apply Hf|done].
Qed.

(** A signal. *)
Lemma begin_drain_good st reason :
  Forall (λ x, sc_sends S (conn_tx x.2)) (all_sessions (app_sessions st)) → Q st → Q (begin_drain st reason).
Proof using All.
  intros Hall Hq. rewrite /begin_drain /best_effort_shutdown_all. cbv zeta.
  assert (Q (enter_draining st)) as Hd by (by apply metrics_good; [by constructor|]).
  change (all_sessions (sessions (w_core (a_world (enter_draining st))))) with (all_sessions (app_sessions st)).
  revert Hall. generalize (all_sessions (app_sessions st)).
  assert (∀ (l : list (string * Connection)) w, Forall (λ x, sc_sends S (conn_tx x.2)) l →
    Q (set_world (enter_draining st) w) →
    Q (set_world (enter_draining st)
         (foldl (λ w '(_, conn), push (MClose (Some (1001, reason))) "egress drop while draining" w conn)
            w l))) as Hpush.
  { induction l as [|[k conn] l IH]; intros w Hl Hw; [done|]. apply Forall_cons in Hl as [Hs Hl].
    cbn [foldl]. apply IH; [done|].
    by apply (wi_push _ _ _ HW _ (MClose (Some (1001, reason))) "egress drop while draining" conn) in Hw. }
  intros l Hl. by apply Hpush.
Qed.

(** An upgrade. *)
Lemma ws_upgrade_good reentrant ck st ip q : Q st → Q (ws_upgrade reentrant ck st ip q).2.
Proof using All.
  intros Hq. rewrite /ws_upgrade. destruct (check _ _ _ _) as [res hs]. cbv zeta.
  pose proof (wi_handshake _ _ _ HW st hs Hq) as Hq'.
  destruct res as [[[]|wait]|]; [|by apply metrics_good; [by constructor|]|done].
  destruct (is_draining _); [done|]. destruct (find_tenant _ _); [|done].
  by destruct (_ && _); (apply metrics_good; [by constructor|]).
Qed.

(** The whole system is good, and so it is after every act. *)
Definition good_system sys : Prop := Q (sy_app sys) ∧ map_Forall (λ _ x, T x.1) (sy_tasks sys).

Lemma set_task_good sys st tx tk s : good_system sys → Q st → T tk → good_system (set_task sys st tx (tk, s)).
Proof using Type. intros [_ Ht] Hq Htk. split; [done|]. by apply map_Forall_insert_2. Qed.

(** The act stays within the scope. *)
Definition act_in sys (a : Act) : Prop :=
  match a with
  | AUpgrade _ _ _ _ | AResume _ _ => True
  | AOpen i _ _ => ∀ q, sy_upgraded sys !! i = Some q → sc_tenant S (q_tenant q)
  | AEvent tx ev => ∀ tk s, sy_tasks sys !! tx = Some (tk, s) →
      acting tk ∧ match ev with EvOut _ => sc_uses S (tk_tx tk) | _ => True end
  | ASend tx _ => ∀ tk p, sy_tasks sys !! tx = Some (tk, SSending p) →
      Forall (λ conn, sc_sends S (conn_tx conn)) (pb_pending p)
  | AEnd tx => ∀ tk s, sy_tasks sys !! tx = Some (tk, s) → sc_tenant S (tk_tenant tk) ∧ sc_uses S (tk_tx tk)
  | ADrain _ => Forall (λ x, sc_sends S (conn_tx x.2)) (all_sessions (app_sessions (sy_app sys)))
  end.

Lemma sys_exec_in sys a : act_in sys a → good_system sys → good_system (sys_exec sys a).
Proof using All.
  intros Hu Hg. pose proof Hg as [Hq Ht]. destruct a as [reentrant ck ip q|i now nanos|tx ev|tx fe|tx ns|tx|reason];
    cbn [sys_exec act_in] in *.
  - pose proof (ws_upgrade_good reentrant ck (sy_app sys) ip q Hq) as Hq'.
    by destruct (ws_upgrade _ _ _ _ _) as [res st].
  - destruct (sy_upgraded sys !! i) as [q|]; [|done].
    pose proof (session_open_good now nanos (sy_app sys) q (Hu q eq_refl) Hq) as [Hq' Htk].
    destruct (session_open _ _ _ _) as [o st]. split; [done|]. cbn in Htk |- *.
    destruct o; try done. destruct Htk as [Htk _]. by apply map_Forall_insert_2.
  - destruct (sy_tasks sys !! tx) as [[tk [|p| |]]|] eqn:Htx; try done. rewrite /begin_event.
    destruct (Hu tk SReady eq_refl) as [Ha He].
    assert (event_uses (first_part ev) tk) as Hev by (by destruct ev).
    pose proof (on_event_good (first_part ev) tk (sy_app sys) Hev Ha (Ht _ _ Htx) Hq) as [Htk Hq'].
    destruct (on_event _ _ _) as [[flow tk'] st]. by apply set_task_good.
  - destruct (sy_tasks sys !! tx) as [[tk [|p| |]]|] eqn:Htx; try done. destruct (no_other fe) eqn:Efe; [|done].
    apply set_task_good; [done| |exact (Ht _ _ Htx)]. apply fut_step_good; [done|by eapply Hu|]. by destruct (sy_app sys).
  - destruct (sy_tasks sys !! tx) as [[tk [|p| |]]|] eqn:Htx; try done. destruct (pb_pending p); [|done].
    apply set_task_good; [done| |exact (Ht _ _ Htx)]. by apply metrics_good; [by constructor|].
  - destruct (sy_tasks sys !! tx) as [[tk [|p| |]]|] eqn:Htx; try done. destruct (Hu tk SEnding eq_refl) as [Htn Huse].
    split; [by apply session_end_good|]. by apply map_Forall_delete.
  - split; [by apply begin_drain_good|done].
Qed.

End effects.

(** Effects anywhere. *)
Abbreviation withstands := (withstands_in (anywhere (λ _, True))).

(** The acts that use the receiver of a task. *)
Definition act_uses {Bytes : Type} `{!BytesOps Bytes, !SerdeJson, !DashOrder, !Mpsc} (uses : nat → Prop)
    (sys : System Bytes) (a : Act) : Prop :=
  match a with
  | AEvent tx (EvOut _) | AEnd tx => ∀ tk s, sy_tasks sys !! tx = Some (tk, s) → uses (tk_tx tk)
  | _ => True
  end.

Lemma act_uses_in {Bytes : Type} `{!BytesOps Bytes, !SerdeJson, !DashOrder, !Mpsc} uses (sys : System Bytes) a :
  act_uses uses sys a → act_in (anywhere uses) sys a.
Proof.
  destruct a as [| |tx []| | | |]; cbn; try done.
  - intros Hu tk s Htx. split; [done|by eapply Hu].
  - intros _ tk p _. by apply Forall_true.
  - intros Hu tk s Htx. split; [done|by eapply Hu].
  - intros _. by apply Forall_true.
Qed.

Section all.
Context {Bytes : Type} `{!BytesOps Bytes, !BytesFrom Bytes, !SerdeJson, !DashOrder, !Mpsc}.
Context (Q : AppState Bytes → Prop) (T : Task → Prop) (HW : withstands Q T).
Implicit Types (sys : System Bytes).

Lemma sys_exec_good sys a : good_system Q T sys → good_system Q T (sys_exec sys a).
Proof using All.
  apply (sys_exec_in _ _ _ HW), act_uses_in. destruct a as [| |? []| | | |]; done.
Qed.

Lemma sys_run_good sys acts : good_system Q T sys → good_system Q T (foldl sys_exec sys acts).
Proof using All.
  revert sys. induction acts as [|a acts IH]; intros sys Hg; [done|]. by apply IH, sys_exec_good.
Qed.
End all.
