(* ===== verification/Limits.v ===== *)
(** * Limits of a tenant, whatever its clients do

    The operations of the registry and of the rooms, run one after the other
    by clients of any behaviour: sessions that use one id twice, that join a
    room again, that leave a room they are not in.  The counters then need not be the
    numbers of what they count, but the limits of the tenant still hold. *)

From S2P Require Import Prelude Errors RustStd Config Dash.
From S2P Require Import SessionRegistry Presence Race Keys Isolation Safety.

(** The limits of a configured tenant. *)
Definition limits_of (cfg : GatewayConfig) (t : string) : option TenantLimits :=
  limits <$> cfg_tenant cfg t.

Section within.
Context (lim : TenantLimits) (t : string).
Implicit Types (r : SessionRegistry) (p : Presence) (k u : string).

(** ** Sessions *)

(** The sessions of the tenant are not more than its counter says, and this is not more
    than the limit. *)
Definition sessions_within r : Prop :=
  0 < max_sessions_total lim ≤ u64_max →
  Z.of_nat (size (part key_tenant t (sr_sessions r))) ≤ count_tenant_sessions r t ≤ max_sessions_total lim.

Lemma sessions_within_new : sessions_within sr_new.
Proof. intros Hmax. rewrite /count_tenant_sessions /part map_filter_empty map_size_empty lookup_empty. cbn. lia. Qed.

Lemma try_insert_within r uk k conn :
  key_tenant k = t → sessions_within r → sessions_within (try_insert r t uk k conn (max_sessions_total lim)).2.
Proof.
  intros Hk Hr Hmax. specialize (Hr Hmax). rewrite /count_tenant_sessions in Hr |- *. rewrite /try_insert.
  set (n := default 0 (sr_tenant_counts r !! t)) in *.
  destruct (0 <? _) eqn:E0; unbool; [cbn [andb]|lia].
  destruct (_ <=? n) eqn:E1; unbool; cbn; [by rewrite lookup_insert_eq /=|].
  rewrite wrap64_small; [|rewrite /is_u64; lia]. destruct (_ <? n + 1) eqn:E2; unbool; [lia|]. cbn.
  rewrite lookup_insert_eq /= part_insert // map_size_insert.
  destruct (part key_tenant t (sr_sessions r) !! k); cbn; lia.
Qed.

Lemma remove_session_within r uk k :
  key_tenant k = t → (∀ e, sr_sessions r !! k = Some e → se_tenant_id e = t) →
  sessions_within r → sessions_within (remove_session r uk k).2.
Proof.
  intros Hk He Hr Hmax. specialize (Hr Hmax). rewrite /count_tenant_sessions in Hr |- *. rewrite /remove_session.
  destruct (sr_sessions r !! k) as [e|] eqn:Ek; cbn; [|done]. rewrite (He e eq_refl).
  rewrite part_delete map_size_delete part_lookup // Ek /=.
  assert (1 ≤ Z.of_nat (size (part key_tenant t (sr_sessions r)))) as Hpos.
  { assert (size (part key_tenant t (sr_sessions r)) ≠ 0%nat); [|lia].
    intros E%map_size_empty_inv. apply (lookup_empty_Some k e). by rewrite -E part_lookup. }
  destruct (sr_tenant_counts r !! t) as [n|]; cbn in Hr |- *; [|lia].
  rewrite lookup_insert_eq /= wrap64_small; [lia|rewrite /is_u64; lia].
Qed.

(** ** Rooms *)

Abbreviation own_rooms p := (part key_tenant t (room_to_sessions p)).

Record rooms_within p : Prop := {
  rw_users room set : key_tenant room = t → room_to_users p !! room = Some set →
    0 < max_users_per_room lim → Z.of_nat (size set) ≤ max_users_per_room lim;
  rw_rooms u set : key_tenant u = t → user_to_rooms p !! u = Some set →
    0 < max_rooms_per_user lim → Z.of_nat (size set) ≤ max_rooms_per_user lim;
  rw_count : default 0 (tenant_room_counts p !! t) = wrap64 (Z.of_nat (size (own_rooms p)));
  rw_counted : is_Some (tenant_room_counts p !! t) ∨ own_rooms p = ∅;
  rw_total : 0 < max_rooms_total lim ≤ u64_max → Z.of_nat (size (own_rooms p)) ≤ max_rooms_total lim;
}.

Lemma rooms_within_new : rooms_within pr_new.
Proof.
  split; cbn [pr_new room_to_sessions tenant_room_counts room_to_users user_to_rooms];
    rewrite ?/part ?map_filter_empty ?map_size_empty ?lookup_empty //; [by right|]. intros Hmax. cbn. lia.
Qed.

Lemma rooms_within_part p p' : room_part t p' = room_part t p → rooms_within p → rooms_within p'.
Proof.
  intros E [Hu Hr Hc Hd Ht].
  assert (part id t (tenant_room_counts p') !! t = part id t (tenant_room_counts p) !! t) as Ec
    by (by injection E as _ _ _ _ _ ->).
  rewrite !part_lookup // in Ec. injection E as E1 E2 E3 E4 E5 _. split; rewrite ?E1 ?Ec //.
  - intros room set Hroom. rewrite -(part_lookup key_tenant t) // E3 part_lookup //. by apply Hu.
  - intros u set Hus. rewrite -(part_lookup key_tenant t) // E4 part_lookup //. by apply Hr.
Qed.

(** A set that is not at its limit has room for the element. *)
Lemma at_limit_insert max (m : index) k x set :
  at_limit max (m !! k) x = false → (∀ set, m !! k = Some set → 0 < max → Z.of_nat (size set) ≤ max) →
  idx_insert k x m !! k = Some set → 0 < max → Z.of_nat (size set) ≤ max.
Proof.
  rewrite /at_limit /idx_insert /idx_get lookup_insert_eq. intros Hl Hm [= <-] Hmax.
  rewrite (proj2 (Z.ltb_lt 0 max) Hmax) in Hl. cbn [andb] in Hl.
  destruct (m !! k) as [set|]; cbn; [|rewrite union_empty_r_L size_singleton; lia].
  specialize (Hm set eq_refl Hmax). rewrite size_union_alt size_singleton.
  apply andb_false_iff in Hl as [Hl|Hl]; unbool.
  - assert (size (set ∖ {[x]}) ≤ size set)%nat by (apply subseteq_size; set_solver). lia.
  - rewrite size_difference; [|set_solver]. rewrite size_singleton. lia.
Qed.

Lemma idx_insert_within max (m : index) k x k' set :
  at_limit max (m !! k) x = false →
  (∀ k set, key_tenant k = t → m !! k = Some set → 0 < max → Z.of_nat (size set) ≤ max) →
  key_tenant k' = t → idx_insert k x m !! k' = Some set → 0 < max → Z.of_nat (size set) ≤ max.
Proof.
  intros Hl Hm Hk'. destruct (decide (k = k')) as [->|Hne]; [apply at_limit_insert; eauto|].
  rewrite /idx_insert lookup_insert_ne //. by apply Hm.
Qed.

Lemma idx_remove_within max (m : index) k x k' set :
  (∀ k set, key_tenant k = t → m !! k = Some set → 0 < max → Z.of_nat (size set) ≤ max) →
  key_tenant k' = t → idx_remove k x m !! k' = Some set → 0 < max → Z.of_nat (size set) ≤ max.
Proof.
  intros Hm Hk' Hs Hmax. revert Hs. rewrite /idx_remove. destruct (m !! k) as [set0|] eqn:E; [|by eauto].
  destruct (decide (k = k')) as [->|Hne].
  - case_bool_decide; [by rewrite lookup_delete_eq|]. rewrite lookup_insert_eq. intros [= <-].
    specialize (Hm k' set0 Hk' E Hmax). assert (size (set0 ∖ {[x]}) ≤ size set0)%nat by (apply subseteq_size; set_solver). lia.
  - case_bool_decide; [rewrite lookup_delete_ne //|rewrite lookup_insert_ne //]; eauto.
Qed.

Lemma try_join_within p room uk k :
  key_tenant room = t → rooms_within p → rooms_within (try_join p t room uk k lim).2.
Proof.
  intros Hroom Hp. pose proof Hp as [Hu Hr Hc Hd Ht]. rewrite /try_join.
  destruct (at_limit (max_users_per_room lim) _ _) eqn:E1; [done|].
  destruct (at_limit (max_rooms_per_user lim) _ _) eqn:E2; [done|].
  destruct (_ && _ && _) eqn:E3; cbn.
  { split; cbn; rewrite ?lookup_insert_eq; eauto. }
  assert (∀ cond m, room_to_users m = room_to_users p → ∀ room' set, key_tenant room' = t →
    (if cond : bool then idx_insert room uk (room_to_users m) else room_to_users m) !! room' = Some set →
    0 < max_users_per_room lim → Z.of_nat (size set) ≤ max_users_per_room lim) as Hu'.
  { intros [] m -> room' set; [by apply idx_insert_within|by apply Hu]. }
  assert (∀ cond m, user_to_rooms m = user_to_rooms p → ∀ u' set, key_tenant u' = t →
    (if cond : bool then idx_insert uk room (user_to_rooms m) else user_to_rooms m) !! u' = Some set →
    0 < max_rooms_per_user lim → Z.of_nat (size set) ≤ max_rooms_per_user lim) as Hr'.
  { intros [] m -> u' set; [by apply idx_insert_within|by apply Hr]. }
  assert (size (part key_tenant t (idx_insert room k (room_to_sessions p)))
    = (if bool_decide (room_to_sessions p !! room = None) then S (size (own_rooms p)) else size (own_rooms p))) as Esz.
  { rewrite part_idx_insert // /idx_insert map_size_insert part_lookup //. by destruct (room_to_sessions p !! room). }
  case_bool_decide as Hnew; cbn [andb] in E3.
  - split; cbn [perform_join set_room_count room_to_users user_to_rooms tenant_room_counts room_to_sessions];
      [by apply (Hu' _ p)|by apply (Hr' _ p)|..]; rewrite ?lookup_insert_eq ?Esz /=.
    + rewrite Hc wrap64_add. f_equal. lia.
    + by left.
    + intros Hmax. specialize (Ht Hmax). rewrite Hc wrap64_small in E3; [|rewrite /is_u64; lia].
      rewrite (proj2 (Z.ltb_lt _ _) (proj1 Hmax)) /= in E3. unbool. lia.
  - apply not_eq_None_Some in Hnew as [set Hset].
    split; cbn [perform_join room_to_users user_to_rooms tenant_room_counts room_to_sessions];
      [by apply (Hu' _ p)|by apply (Hr' _ p)|..]; rewrite ?Esz //.
    destruct Hd as [?|Hd]; [by left|]. exfalso. apply (lookup_empty_Some room set). by rewrite -Hd part_lookup.
Qed.

Lemma leave_within p room uk k :
  key_tenant room = t → rooms_within p → rooms_within (leave p t room uk k).
Proof.
  intros Hroom [Hu Hr Hc Hd Ht]. rewrite /leave. set (gone := match _ <$> _ with Some _ => _ | None => _ end).
  assert (part key_tenant t (idx_remove room k (room_to_sessions p)) = idx_remove room k (own_rooms p)) as Eown.
  { rewrite /idx_remove part_lookup //. destruct (room_to_sessions p !! room); [|done].
    case_bool_decide; [by rewrite part_delete|by rewrite part_insert]. }
  split; cbn [room_to_users user_to_rooms tenant_room_counts room_to_sessions].
  - intros room' set Hr' Hset. destruct gone; [by eapply idx_remove_within|by eapply Hu].
  - intros u' set Hu' Hset. destruct gone; [by eapply idx_remove_within|by eapply Hr].
  - rewrite Eown /idx_remove part_lookup //. destruct (room_to_sessions p !! room) as [set|] eqn:Es; [|done].
    assert (own_rooms p !! room = Some set) as Eo by by rewrite part_lookup.
    case_bool_decide; [|by rewrite map_size_insert Eo]. rewrite map_size_delete Eo /=.
    assert (size (own_rooms p) ≠ 0%nat) as Hne by (intros E%map_size_empty_inv; by rewrite E lookup_empty in Eo).
    destruct (tenant_room_counts p !! t) as [n|] eqn:En; cbn in Hc |- *.
    + rewrite lookup_insert_eq /= Hc wrap64_sub. f_equal. lia.
    + destruct Hd as [[? ?]|Hd]; [congruence|]. by rewrite Hd lookup_empty in Eo.
  - rewrite Eown. destruct Hd as [[n Hn]|Hd].
    + left. repeat case_match; rewrite ?Hn ?lookup_insert_eq; simplify_eq; eauto.
    + right. by rewrite /idx_remove Hd lookup_empty.
  - intros Hmax. specialize (Ht Hmax). rewrite Eown /idx_remove. destruct (own_rooms p !! room) as [set|] eqn:Eo; [|done].
    case_bool_decide; [rewrite map_size_delete Eo; lia|by rewrite map_size_insert Eo].
Qed.

Lemma cleanup_session_within `{!DashOrder, !DashOrderLaws} p uk k :
  key_tenant k = t → homely p → rooms_within p → rooms_within (cleanup_session p t uk k).
Proof.
  intros Hk [Hs _] Hp. rewrite /cleanup_session. destruct (session_to_rooms p !! k) as [rooms|] eqn:E; [|done].
  assert (∀ room, room ∈ ds_iter rooms → key_tenant room = t) as Hrooms.
  { intros room. rewrite ds_iter_perm elem_of_elements. intros Hin. by rewrite (Hs _ _ _ E Hin). }
  set (p0 := mkPresence _ _ _ _ _ _). assert (rooms_within p0) as Hp0 by by destruct Hp.
  clearbody p0. revert p0 Hp0 Hrooms. induction (ds_iter rooms) as [|room l IH]; intros p0 Hp0 Hrooms; [done|]. cbn.
  apply IH; [apply leave_within; [apply Hrooms; by left|done]|]. intros room' Hin. apply Hrooms. by right.
Qed.
End within.
