(* ===== verification/Tenancy.v ===== *)
(** * Tenants of the running gateway

    The state that the tasks share is one for all tenants: the registry, the
    rooms, the compiled policies, the channels.  Here each entry of it belongs to a
    tenant, by its key, and each channel to the tenant of the session that it
    was made for.  An act of a task changes nothing that belongs to another
    tenant, whatever its client sends; and the limits of each tenant hold. *)

From S2P Require Import Prelude Errors RustStd HotFrame Config Allowlist TokenBucket Policy Dash.
From S2P Require Import SessionRegistry Presence Race Keys Isolation Channel Envelope Realtime Codec Dispatch.
From S2P Require Import Handshake Metrics NetAddr AppState Ws Session Admission System Safety Effects Limits.

(** ** What belongs to a tenant *)

(** The entries of a tenant in the tables that all tenants share. *)
Record Share := mkShare {
  sh_sessions : gmap string SessionEntry;
  sh_index : index;
  sh_count : option Z;
  sh_rooms : Presence;
  sh_policy : option TenantPolicyRuntime;
}.

Section tenancy.
Context {Bytes : Type} `{!BytesOps Bytes, !BytesFrom Bytes, !SerdeJson, !DashOrder, !DashOrderLaws, !Mpsc, !MpscLaws}.
Implicit Types (st : AppState Bytes) (tk : Task) (sys : System Bytes) (t : string).

Definition share t st : Share :=
  mkShare (part key_tenant t (sr_sessions (app_sessions st))) (part key_tenant t (sr_user_index (app_sessions st)))
    (sr_tenant_counts (app_sessions st) !! t) (room_part t (app_presence st)) (tenant_policy st t).

Definition made st (tx : nat) : Prop := ch_made (w_chans (a_world st)) tx = true.
Definition queue st (tx : nat) : list Message := ch_queue (w_chans (a_world st)) tx.

(** Every entry belongs to one tenant: a session and the tenant it counts for, a
    session and its user, a session and the rooms it is in. The channel of a session has
    been made, and belongs to its tenant. *)
Record tidy_registry (owner : nat → string) (c : chans) (r : SessionRegistry) : Prop := {
  tr_session k e : sr_sessions r !! k = Some e →
    se_tenant_id e = key_tenant k ∧ owner (conn_tx (se_conn e)) = key_tenant k
    ∧ ch_made c (conn_tx (se_conn e)) = true;
  tr_index : alike_keys (sr_user_index r);
}.

Record tidy (cfg : GatewayConfig) (owner : nat → string) st : Prop := {
  td_cfg : a_cfg st = cfg;
  td_dispatcher : a_dispatcher st = builtin_dispatcher;
  td_registry : tidy_registry owner (w_chans (a_world st)) (app_sessions st);
  td_rooms : homely (app_presence st);
}.

(** Since [st0], nothing has changed but what belongs to [t]. *)
Record untouched t (owner : nat → string) st0 st : Prop := {
  un_share t' : t ≠ t' → share t' st = share t' st0;
  un_queue tx : owner tx ≠ t → queue st tx = queue st0 tx;
  un_made tx : made st0 tx → made st tx;
}.

(** The tenant is within its limits. *)
Definition within (cfg : GatewayConfig) t st : Prop :=
  ∀ lim, limits_of cfg t = Some lim →
    sessions_within lim t (app_sessions st) ∧ rooms_within lim t (app_presence st).

Lemma within_share cfg t st st' : share t st' = share t st → within cfg t st → within cfg t st'.
Proof using Type.
  intros E Hw lim Hl. destruct (Hw lim Hl) as [Hs Hr]. injection E as E1 _ E3 E4 E5 E6 E7 E8 E9 _. split.
  - by rewrite /sessions_within /count_tenant_sessions E1 E3.
  - eapply rooms_within_part; [|exact Hr]. by rewrite /room_part E4 E5 E6 E7 E8 E9.
Qed.

Lemma within_core cfg t st st' : w_core (a_world st') = w_core (a_world st) → within cfg t st → within cfg t st'.
Proof using Type. intros E. by rewrite /within /app_sessions /app_presence E. Qed.

(** ** The registry *)

Section registry.
Context (owner : nat → string) (t : string) (Ht : safe t = true).
Implicit Types (r : SessionRegistry) (c : chans) (k u : string).

(** The sessions, the users and the counter of another tenant. *)
Definition same_sessions t' r r' : Prop :=
  part key_tenant t' (sr_sessions r') = part key_tenant t' (sr_sessions r)
  ∧ part key_tenant t' (sr_user_index r') = part key_tenant t' (sr_user_index r)
  ∧ sr_tenant_counts r' !! t' = sr_tenant_counts r !! t'.

Definition registry_kept c r r' : Prop :=
  (∀ t', t ≠ t' → same_sessions t' r r') ∧ tidy_registry owner c r'.

Lemma user_key_tenant u : key_tenant (user_key t u) = t.
Proof using Ht. by apply key_tenant_prefix. Qed.

Lemma try_insert_kept c r u k conn max :
  key_tenant k = t → owner (conn_tx conn) = t → ch_made c (conn_tx conn) = true → tidy_registry owner c r →
  registry_kept c r (try_insert r t (user_key t u) k conn max).2.
Proof using Ht.
  intros Hk Ho Hm [Hs Hi]. rewrite /try_insert.
  assert (∀ n, registry_kept c r (mkSessionRegistry (sr_sessions r) (sr_user_index r)
    (<[t := n]> (sr_tenant_counts r)) (sr_seq r))) as Hcount.
  { intros n. split; [|done]. intros t' Hne. split_and!; [done|done|by rewrite lookup_insert_ne]. }
  destruct (_ && _); [apply Hcount|]. destruct (_ && _); [apply Hcount|]. split.
  - intros t' Hne. split_and!; cbn; [|apply part_idx_insert_ne; by rewrite user_key_tenant|by rewrite lookup_insert_ne].
    rewrite part_insert_ne //. by rewrite Hk.
  - split; cbn; [|apply alike_insert; [by rewrite user_key_tenant|done]].
    intros k' e [[<- <-]|[_ Hk']]%lookup_insert_Some; [by rewrite /= Hk|by apply Hs].
Qed.

Lemma part_idx_remove_ne t' k x (m : index) :
  key_tenant k ≠ t' → part key_tenant t' (idx_remove k x m) = part key_tenant t' m.
Proof using Type.
  intros Hk. rewrite /idx_remove. destruct (m !! k); [|done].
  case_bool_decide; [by apply part_delete_ne|by apply part_insert_ne].
Qed.

Lemma remove_session_kept c r u k :
  key_tenant k = t → tidy_registry owner c r → registry_kept c r (remove_session r (user_key t u) k).2.
Proof using Ht.
  intros Hk [Hs Hi]. rewrite /remove_session.
  assert (∀ t', t ≠ t' → part key_tenant t' (idx_remove (user_key t u) k (sr_user_index r))
                         = part key_tenant t' (sr_user_index r)) as Hidx.
  { intros t' Hne. apply part_idx_remove_ne. by rewrite user_key_tenant. }
  destruct (sr_sessions r !! k) as [e|] eqn:Ek; cbn.
  - destruct (Hs k e Ek) as (Et & _). split.
    + intros t' Hne. split_and!; cbn; [by rewrite part_delete_ne // Hk|by apply Hidx|].
      destruct (sr_tenant_counts r !! se_tenant_id e); [|done]. by rewrite lookup_insert_ne // Et Hk.
    + split; cbn; [|by apply alike_idx_remove]. intros k' e' [_ Hk']%lookup_delete_Some. by apply Hs.
  - split; [|split; [done|by apply alike_idx_remove]]. intros t' Hne. split_and!; [done|by apply Hidx|done].
Qed.

(** The victim is a session of the user. *)
Lemma evict_oldest_kept c r u :
  tidy_registry owner c r →
  registry_kept c r (evict_oldest r (user_key t u)).2
  ∧ ∀ k conn, (evict_oldest r (user_key t u)).1 = Some (k, conn) → key_tenant k = t ∧ owner (conn_tx conn) = t.
Proof using All.
  intros Hr. pose proof Hr as [Hs Hi]. rewrite /evict_oldest.
  assert (registry_kept c r r) as Hsame by done.
  destruct (sr_user_index r !! user_key t u) as [set|] eqn:Eu; [|done].
  destruct (foldl_oldest r (ds_iter set) (None, u64_max)) as [[-> _]|(k & e & Hin & Hk & -> & _)]; [done|].
  cbn [fst]. rewrite ds_iter_perm elem_of_elements in Hin. pose proof (Hi _ _ _ Eu Hin) as Ek.
  rewrite user_key_tenant in Ek. pose proof (remove_session_kept c r u k Ek Hr) as Hkept.
  destruct (Hs k e Hk) as (_ & Ho & _).
  destruct (remove_session r (user_key t u) k) as [conn r'] eqn:E. split; [exact Hkept|].
  assert (conn = Some (se_conn e)) as ->.
  { rewrite /remove_session Hk in E. by injection E as <- _. }
  intros k' conn' [= <- <-]. by rewrite Ho.
Qed.
End registry.

(** ** Channels *)

Section channels.
Context (owner : nat → string) (t : string).
Implicit Types (c : chans) (w : World).

(** From [c] to [c'] the queues of other tenants are as they were, and what was
    made stays made. *)
Definition chans_kept c c' : Prop :=
  (∀ tx, owner tx ≠ t → ch_queue c' tx = ch_queue c tx) ∧ (∀ tx, ch_made c tx = true → ch_made c' tx = true).

#[local] Instance chans_kept_refl : Reflexive chans_kept.
Proof using Type. by split. Qed.

#[local] Instance chans_kept_trans : Transitive chans_kept.
Proof using Type.
  intros c1 c2 c3 [Hq Hm] [Hq' Hm']. split; [|by auto]. intros tx Htx. by rewrite Hq' // Hq.
Qed.

Lemma send_kept c tx m : owner tx = t → chans_kept c (try_send c tx m).2.
Proof using All.
  intros Ho. split; [|intros tx'; apply made_send]. intros tx' Hne.
  destruct (try_send c tx m) as [res c'] eqn:E. apply try_send_spec in E as (_ & _ & Hq & _). cbn.
  rewrite Hq decide_False; [by rewrite app_nil_r|]. intros [-> _]. by rewrite Ho in Hne.
Qed.

Lemma push_kept m text w conn : owner (conn_tx conn) = t → chans_kept (w_chans w) (w_chans (push m text w conn)).
Proof using All.
  intros Ho. pose proof (send_kept (w_chans w) (conn_tx conn) m Ho) as Hk. rewrite /push.
  by destruct (try_send _ _ _) as [[] c].
Qed.

Lemma foldl_kept {A} (f : World → A → World) l w :
  (∀ w x, x ∈ l → chans_kept (w_chans w) (w_chans (f w x))) →
  chans_kept (w_chans w) (w_chans (foldl f w l)).
Proof using Type.
  revert w. induction l as [|x l IH]; intros w Hf; [done|]. cbn [foldl]. etransitivity.
  - apply Hf. by left.
  - apply IH. intros w' x' Hx'. apply Hf. by right.
Qed.

Lemma fut_step_kept dt m fs ev :
  no_other ev = true → Forall (λ conn, owner (conn_tx conn) = t) (fs_pending fs) →
  chans_kept (w_chans (fs_world fs)) (w_chans (fs_world (fut_step dt m fs ev)))
  ∧ fs_pending (fut_step dt m fs ev) ⊆ fs_pending fs.
Proof using All.
  intros Hev Hall. assert (∀ i, delete i (fs_pending fs) ⊆ fs_pending fs) as Hdel.
  { intros i conn. apply list_elem_of_delete_inv. }
  destruct ev as [i|i|c]; cbn [fut_step]; [| |done].
  - destruct (fs_pending fs !! i) as [conn|] eqn:Ei; [|done].
    pose proof (send_kept (w_chans (fs_world fs)) (conn_tx conn) m (Forall_lookup_1 _ _ _ _ Hall Ei)) as Hk.
    destruct (try_send _ _ _) as [[] c']; cbn; [by split; [exact Hk|apply Hdel]|done|].
    split; [by destruct dt|apply Hdel].
  - destruct (fs_pending fs !! i); [|done]. destruct dt; [|done]. split; [done|apply Hdel].
Qed.

Lemma futs_kept dt m evs fs :
  forallb no_other evs = true → Forall (λ conn, owner (conn_tx conn) = t) (fs_pending fs) →
  chans_kept (w_chans (fs_world fs)) (w_chans (fs_world (foldl (fut_step dt m) fs evs))).
Proof using All.
  revert fs. induction evs as [|ev evs IH]; intros fs Hev Hall; [done|]. cbn in Hev |- *.
  apply andb_true_iff in Hev as [Hev Hevs]. destruct (fut_step_kept dt m fs ev Hev Hall) as [Hk Hsub].
  etransitivity; [exact Hk|]. apply IH; [done|]. rewrite !Forall_forall in Hall |- *. auto.
Qed.
End channels.

(** ** Dispatches *)

Section dispatches.
Context (owner : nat → string) (t : string) (Ht : safe t = true).
Implicit Types (w : World).

(** A session of the tenant sends on channels of the tenant. *)
Lemma session_owner c r k conn :
  tidy_registry owner c r → get_session r k = Some conn → key_tenant k = t → owner (conn_tx conn) = t.
Proof using Type.
  intros [Hs _] Hg Et. rewrite /get_session in Hg. destruct (sr_sessions r !! k) as [e|] eqn:Ek; [|done].
  injection Hg as <-. destruct (Hs k e Ek) as (_ & -> & _). exact Et.
Qed.

(** So do the sessions in one of its rooms. *)
Lemma room_session p room k : homely p → k ∈ sessions_in p (room_key t room) → key_tenant k = t.
Proof using All.
  intros [_ Hr]. rewrite /sessions_in. destruct (room_to_sessions p !! _) as [set|] eqn:E; [|by intros ?%not_elem_of_nil].
  rewrite ds_iter_perm elem_of_elements. intros Hk. rewrite (Hr _ _ _ E Hk). by apply key_tenant_room.
Qed.

Lemma room_conns_owner w room conn :
  tidy_registry owner (w_chans w) (sessions (w_core w)) → homely (presence (w_core w)) →
  conn ∈ room_conns (w_core w) (room_key t room) →
  owner (conn_tx conn) = t ∧ ch_made (w_chans w) (conn_tx conn) = true.
Proof using All.
  intros Hr Hh (k & Hk & Hg)%list_elem_of_omap. pose proof (room_session _ _ _ Hh Hk) as Et.
  split; [by eapply session_owner|]. rewrite /get_session in Hg.
  destruct (sr_sessions _ !! k) as [e|] eqn:Ek; [|done]. injection Hg as <-.
  by destruct (tr_session _ _ _ Hr k e Ek) as (_ & _ & ?).
Qed.

Lemma dispatch_text_kept evs w u sid trace active env :
  tidy_registry owner (w_chans w) (sessions (w_core w)) → homely (presence (w_core w)) →
  forallb no_other evs = true →
  chans_kept owner t (w_chans w)
    (w_chans (dispatch_text (builtin_dispatcher (Bytes := Bytes)) evs w (ctx_new t u sid trace active) env).2).
Proof using All.
  intros Hr Hh Hev. rewrite /dispatch_text. cbn [d_text builtin_dispatcher register_hot register_text].
  rewrite lookup_insert. case_decide; [|done]. cbn [ts_handle ChatService]. rewrite /chat_handle.
  destruct (bool_decide _); [|done]. destruct (chat_request env) as [[room msg]|]; [|done].
  rewrite /ctx_publish_room_reliable /core_publish_room_reliable. destruct (prepare _) as [p|]; [|done].
  cbn [snd ctx_tenant ctx_new].
  refine (futs_kept owner t _ _ evs (mkFutState w (room_conns (w_core w) (room_key t room)) []) Hev _).
  apply Forall_forall. intros conn Hc. by eapply room_conns_owner.
Qed.

Lemma dispatch_hot_kept evs w u sid trace active frame :
  tidy_registry owner (w_chans w) (sessions (w_core w)) → homely (presence (w_core w)) →
  chans_kept owner t (w_chans w)
    (w_chans (dispatch_hot (builtin_dispatcher (Bytes := Bytes)) evs w (ctx_new t u sid trace active) frame).2).
Proof using All.
  intros Hr Hh. rewrite /dispatch_hot. cbn [d_hot builtin_dispatcher register_hot register_text].
  rewrite lookup_insert. case_decide; [|done]. cbn. rewrite /echo_handle_binary. cbn [ctx_active_room ctx_new].
  destruct active as [room|].
  - rewrite /ctx_publish_room_lossy /core_publish_room_lossy. destruct (prepare _) as [p|]; [|done].
    cbn [snd ctx_tenant ctx_new]. rewrite (publish_lossy_loop w) //.
    apply foldl_kept. intros w' conn Hc.
    apply push_kept. eapply room_conns_owner; [done|done|exact Hc].
  - rewrite /ctx_send_to_session /core_send_to_session. destruct (get_session _ _) as [conn|] eqn:Eg; [|done].
    destruct (prepare _); [|done]. apply push_kept. eapply session_owner; [done|exact Eg|].
    by apply key_tenant_session.
Qed.
End dispatches.

(** ** An act of a tenant *)

Section act.
Context (cfg : GatewayConfig) (owner : nat → string) (t : string) (Ht : safe t = true) (st0 : AppState Bytes).
(** The channels that the act makes will belong to the tenant. *)
Context (Hnew : ∀ tx, ch_made (w_chans (a_world st0)) tx = false → owner tx = t).

Definition own_scope : Scope :=
  mkScope _ (λ tx, owner tx = t) (λ tx, owner tx = t) (λ c tx, ch_made c tx = true) (λ t', t' = t)
    (λ _ k, key_tenant k = t) (λ t' lim, limits_of cfg t' = Some lim).

Definition kept st : Prop := tidy cfg owner st ∧ untouched t owner st0 st ∧ within cfg t st.

(** A task has the limits of its tenant. *)
Definition limited tk : Prop := limits_of cfg (tk_tenant tk) = Some (tk_limits tk).

Lemma tidy_registry_made c c' r :
  (∀ tx, ch_made c tx = true → ch_made c' tx = true) → tidy_registry owner c r → tidy_registry owner c' r.
Proof using Type. intros Hm [Hs Hi]. split; [|done]. intros k e Hk. destruct (Hs k e Hk) as (? & ? & ?). auto. Qed.

(** The core stays, and messages go to channels of the tenant. *)
Lemma kept_world st w :
  kept st → w_core w = w_core (a_world st) → chans_kept owner t (w_chans (a_world st)) (w_chans w) →
  kept (set_world st w).
Proof using Type.
  intros ([Hc Hd Hr Hh] & [Hs Hq Hm] & Hw) Ew [Hq' Hm']. split; [|split; [|by eapply within_core]]; split; try done.
  - rewrite /app_sessions /= Ew. by eapply tidy_registry_made.
  - by rewrite /app_presence /= Ew.
  - intros t' Hne. rewrite -(Hs t' Hne) /share /app_sessions /app_presence /tenant_policy /= Ew. done.
  - intros tx Htx. rewrite /queue /= Hq' //. by apply Hq.
  - intros tx Htx. by apply Hm', Hm.
Qed.

Lemma kept_registry st r :
  kept st → registry_kept owner t (w_chans (a_world st)) (app_sessions st) r →
  (∀ lim, limits_of cfg t = Some lim → sessions_within lim t (app_sessions st) → sessions_within lim t r) →
  kept (set_app_core st r (app_presence st)).
Proof using Type.
  intros ([Hc Hd Hr Hh] & [Hs Hq Hm] & Hw) [Hsame Hr'] Hlim.
  split; [|split; [|intros lim Hl; destruct (Hw lim Hl); split; [by apply Hlim|done]]]; split; try done.
  intros t' Hne. rewrite -(Hs t' Hne). destruct (Hsame t' Hne) as (E1 & E2 & E3).
  by rewrite /share /app_sessions /app_presence /tenant_policy /= E1 E2 E3.
Qed.

Lemma kept_presence st p :
  kept st → (∀ t', t ≠ t' → room_part t' p = room_part t' (app_presence st)) ∧ homely p →
  (∀ lim, limits_of cfg t = Some lim → rooms_within lim t (app_presence st) → rooms_within lim t p) →
  kept (set_app_core st (app_sessions st) p).
Proof using Type.
  intros ([Hc Hd Hr Hh] & [Hs Hq Hm] & Hw) [Hsame Hp] Hlim.
  split; [|split; [|intros lim Hl; destruct (Hw lim Hl); split; [done|by apply Hlim]]]; split; try done.
  intros t' Hne. rewrite -(Hs t' Hne). by rewrite /share /app_sessions /app_presence /tenant_policy /= Hsame.
Qed.

Lemma chan_step_kept st c :
  kept st → chan_step own_scope (w_chans (a_world st)) c → chans_kept owner t (w_chans (a_world st)) c.
Proof using All.
  intros (_ & [_ _ Hm] & _) Hs. destruct Hs as [tx m Ho|n|tx m c Ho E|tx Ho].
  - by apply send_kept.
  - split; [|intros tx; apply made_channel]. destruct (mpsc_channel _ n) as [tx c] eqn:E. intros tx' Hne.
    destruct (made_new _ _ _ _ E) as [Hf _]. apply mpsc_channel_new in E as (_ & _ & _ & _ & Hsame).
    apply Hsame. intros ->. apply Hne, Hnew. apply not_true_iff_false. intros Hm0. apply Hm in Hm0.
    rewrite /made in Hm0. congruence.
  - split; [|intros tx'; by eapply made_recv]. intros tx' Hne. pose proof (recv_first (w_chans (a_world st)) tx) as Hr.
    rewrite E in Hr. apply Hr. by intros ->.
  - split; [|intros tx'; apply made_drop]. intros tx' Hne. apply (proj2 (drop_rx_closed _ tx)). by intros ->.
Qed.

Lemma fresh_owner st n tx c :
  kept st → mpsc_channel (w_chans (a_world st)) n = (tx, c) → owner tx = t ∧ ch_made c tx = true.
Proof using All.
  intros (_ & [_ _ Hm] & _) [Hf Hc]%made_new. split; [|done]. apply Hnew, not_true_iff_false. intros Hm0.
  apply Hm in Hm0. rewrite /made in Hm0. congruence.
Qed.

Lemma kept_same st st' :
  kept st → a_cfg st' = a_cfg st → a_dispatcher st' = a_dispatcher st → a_world st' = a_world st →
  a_policy st' = a_policy st → kept st'.
Proof using Type.
  intros ([Hc Hd Hr Hh] & [Hs Hq Hm] & Hw) Ec Ed Ew Ep.
  split; [|split; [|eapply within_core; [by rewrite Ew|done]]]; split; rewrite ?Ec ?Ed /app_sessions /app_presence ?Ew //.
  - intros t' Hne. rewrite -(Hs t' Hne). by rewrite /share /app_sessions /app_presence /tenant_policy Ew Ep.
  - intros tx Htx. rewrite /queue Ew. by apply Hq.
  - intros tx Htx. rewrite /made Ew. by apply Hm.
Qed.

(** The limits are kept by what the scope lets happen. *)
Lemma reg_step_within st r lim :
  kept st → reg_step own_scope (w_chans (a_world st)) (app_sessions st) r → limits_of cfg t = Some lim →
  sessions_within lim t (app_sessions st) → sessions_within lim t r.
Proof using All.
  intros Hk Hs Hlim Hw. pose proof (td_registry _ _ _ (proj1 Hk)) as [Hid Hidx].
  assert (∀ u k, key_tenant k = t → sessions_within lim t (remove_session (app_sessions st) (user_key t u) k).2) as Hrem.
  { intros u k Ek. apply remove_session_within; [done| |done]. intros e He. by rewrite (proj1 (Hid k e He)). }
  destruct Hs as [t' u k conn lim' Et Hkey _ _ Hl|t' u k Et Hkey|t' u Et]; cbn in Et; subst t'.
  - cbn in Hl; rewrite Hlim in Hl. injection Hl as <-. by apply try_insert_within.
  - by apply Hrem.
  - rewrite /evict_oldest. destruct (sr_user_index _ !! user_key t u) as [set|] eqn:Eu; [|done].
    destruct (foldl_oldest (app_sessions st) (ds_iter set) (None, u64_max)) as [[-> _]|(k & e & Hin & Hk' & -> & _)]; [done|].
    cbn [fst]. rewrite ds_iter_perm elem_of_elements in Hin. pose proof (Hidx _ _ _ Eu Hin) as Ek.
    rewrite user_key_tenant // in Ek. specialize (Hrem u k Ek). by destruct (remove_session _ _ _).
Qed.

Lemma pres_step_within st p lim :
  kept st → pres_step own_scope (app_presence st) p → limits_of cfg t = Some lim →
  rooms_within lim t (app_presence st) → rooms_within lim t p.
Proof using All.
  intros Hk Hs Hlim Hw. pose proof (td_rooms _ _ _ (proj1 Hk)) as Hh.
  destruct Hs as [t' room u k lim' Et Hkey Hl|t' room u k Et Hkey|t' u k Et Hkey]; cbn in Et, Hkey; subst t'; cbn in *.
  - rewrite Hlim in Hl. injection Hl as <-. apply try_join_within; [by apply key_tenant_room|done].
  - apply leave_within; [by apply key_tenant_room|done].
  - by apply cleanup_session_within.
Qed.

Lemma kept_find st t' tc : kept st → find_tenant st t' = Some tc → limits_of cfg t' = Some (limits tc).
Proof using Type.
  intros [Htd _] Hf. rewrite /limits_of /cfg_tenant -(td_cfg _ _ _ Htd). rewrite /find_tenant in Hf. by rewrite Hf.
Qed.

Lemma kept_withstands : withstands_in own_scope kept limited.
Proof using All.
  split; try done.
  - intros st c Hk Hs. apply kept_world; [done|done|]. by apply chan_step_kept.
  - intros st n tx c Hk E. destruct (fresh_owner st n tx c Hk E). done.
  - intros c tx c' Hm Hs. destruct Hs as [tx' m Ho|n|tx' m c' Ho E|tx' Ho]; cbn in *.
    + by apply made_send.
    + by apply made_channel.
    + by eapply made_recv.
    + by apply made_drop.
  - intros st m text conn Hk Ho. apply kept_world; [done| |by apply push_kept].
    by destruct (push_spec m text (a_world st) conn _ eq_refl).
  - intros st text Hk. by apply kept_world.
  - intros st evs t' u sid trace active env Hk -> Hev. rewrite (td_dispatcher _ _ _ (proj1 Hk)).
    apply kept_world; [done|by apply (same_core_dispatch_text False)|].
    apply dispatch_text_kept; [done|apply Hk|apply Hk|done].
  - intros st evs t' u sid trace active frame Hk -> Hev. rewrite (td_dispatcher _ _ _ (proj1 Hk)).
    apply kept_world; [done|by apply (same_core_dispatch_hot False)|].
    apply dispatch_hot_kept; [done|apply Hk|apply Hk].
  - intros st t' tc Hk Hf. by eapply kept_find.
  - intros t' u sid ->. by apply key_tenant_session.
  - intros st t' u k conn r Hk -> E.
    destruct (evict_oldest_kept owner t Ht _ (app_sessions st) u (td_registry _ _ _ (proj1 Hk))) as [_ Hv].
    apply Hv. by rewrite E.
  - intros st r Hk Hs. apply kept_registry; [done| |by intros; eapply reg_step_within]. pose proof (td_registry _ _ _ (proj1 Hk)) as Hr.
    destruct Hs as [t' u k conn lim Et Hkey Ho Hl _|t' u k Et Hkey|t' u Et]; cbn in Et; subst t'.
    + by apply try_insert_kept.
    + by apply remove_session_kept.
    + by apply evict_oldest_kept.
  - intros st p Hk Hs. apply kept_presence; [done| |by intros; eapply pres_step_within]. pose proof (td_rooms _ _ _ (proj1 Hk)) as Hh.
    destruct Hs as [t' room u k lim Et Hkey _|t' room u k Et Hkey|t' u k Et Hkey]; cbn in Et, Hkey; subst t'.
    + by apply try_join_away.
    + by apply leave_away.
    + by apply cleanup_session_away.
  - intros st m Hk _. by eapply kept_same.
  - intros st id rt rt' ([Hc Hd Hr Hh] & [Hs Hq Hm] & Hw) -> _ _. split; [|split; [|done]]; split; try done.
    intros t' Hne. rewrite -(Hs t' Hne). by rewrite /share /tenant_policy /= lookup_insert_ne.
  - intros st hs Hk. by eapply kept_same.
  - intros st Hk. by eapply kept_same.
  - intros st ns Hk. by eapply kept_same.
Qed.
End act.

(** ** The tasks *)

(** A task keeps its tenant and its channel. *)
Definition same_task tk (r : Flow * Task * AppState Bytes) : Prop := tk_identity r.1.2 = tk_identity tk.

Lemma reply_same flow tk tk0 st m : tk_identity tk = tk_identity tk0 → same_task tk0 (reply flow tk st m).
Proof using Type. intros E. rewrite /reply. by destruct (try_send _ _ _) as [[] c]. Qed.

Lemma hot_error_same policy flow tk tk0 st code msg :
  tk_identity tk = tk_identity tk0 → same_task tk0 (hot_error policy flow tk st code msg).
Proof using Type. intros E. rewrite /hot_error. destruct (tpr_hot_error_mode _); [by apply reply_same|done]. Qed.

Lemma on_text_passed_same rd tk tk0 st env :
  tk_identity tk = tk_identity tk0 → same_task tk0 (on_text_passed rd tk st env).
Proof using Type.
  intros E. rewrite /on_text_passed. destruct (bool_decide _); [|destruct (bool_decide _)].
  - rewrite /on_join. by destruct (join_room_with_limits _ _ _ _) as [[[]|e] w]; apply reply_same.
  - rewrite /on_leave. by destruct (tk_active_room tk); apply reply_same.
  - rewrite /on_dispatch_text. destruct (dispatch_text _ _ _ _ _) as [[[[]|e]|] w]; [done|by apply reply_same|done].
Qed.

Lemma on_text_same rd tk tk0 st env len : tk_identity tk = tk_identity tk0 → same_task tk0 (on_text rd tk st env len).
Proof using Type.
  intros E. rewrite /on_text.
  destruct (tk_conn_limiter tk) as [lim|]; [destruct (crl_allow _ _ lim) as [[[] lim']|]; [|done|done]|];
    (destruct (tenant_policy st _) as [rt|]; [|done];
     destruct (check_text _ _ _ _ _ _) as [[[]|] rt']; [by apply on_text_passed_same|done|by apply reply_same..|done]).
Qed.

Lemma on_hot_same rd tk tk0 st frame len : tk_identity tk = tk_identity tk0 → same_task tk0 (on_hot rd tk st frame len).
Proof using Type.
  intros E. rewrite /on_hot. destruct (tenant_policy st _) as [rt|]; [|done].
  destruct (check_hot _ _ _ _ _ _) as [[[]|] rt']; [|done|by apply hot_error_same..|done].
  destruct (_ && _); [by apply hot_error_same|]. rewrite /on_dispatch_hot.
  destruct (dispatch_hot _ _ _ _ _) as [[[[]|e]|] w]; [done|by apply hot_error_same|done].
Qed.

Lemma on_event_same ev tk st : same_task tk (on_event ev tk st).
Proof using Type.
  destruct ev as [wr|rd [msg|]| |now]; cbn [on_event].
  - rewrite /on_out. destruct (recv _ _) as [[m c]|]; [|done]. by destruct wr.
  - rewrite /on_incoming. cbv zeta. destruct (decode msg) as [[[env len|frame len|p|p|]|e]|].
    + by apply on_text_same.
    + by apply on_hot_same.
    + by apply reply_same.
    + done.
    + done.
    + by apply reply_same.
    + done.
  - done.
  - by apply reply_same.
  - rewrite /on_idle. destruct (_ <=? _); [by apply reply_same|done].
Qed.

(** A task and the recipients of what it is sending are of its tenant. *)
Record task_fits (cfg : GatewayConfig) (owner : nat → string) st (tx : nat) (x : Task * Status) : Prop := {
  tf_tx : tk_tx x.1 = tx;
  tf_safe : safe (tk_tenant x.1) = true;
  tf_owner : owner tx = tk_tenant x.1;
  tf_made : made st tx;
  tf_limited : limited cfg x.1;
  tf_pending p conn : x.2 = SSending p → conn ∈ pb_pending p →
    owner (conn_tx conn) = tk_tenant x.1 ∧ made st (conn_tx conn);
}.

Record sys_tidy (cfg : GatewayConfig) (owner : nat → string) sys : Prop := {
  ty_app : tidy cfg owner (sy_app sys);
  ty_tasks : map_Forall (task_fits cfg owner (sy_app sys)) (sy_tasks sys);
  ty_upgraded : Forall (λ q, safe (q_tenant q) = true) (sy_upgraded sys);
  ty_within t : within cfg t (sy_app sys);
}.

Lemma task_fits_made cfg owner st st' tx x :
  (∀ tx, made st tx → made st' tx) → task_fits cfg owner st tx x → task_fits cfg owner st' tx x.
Proof using Type.
  intros Hm [E1 E2 E3 E4 El Hp]. split; [done|done|done|by apply Hm|done|]. intros p conn Ex Hin.
  destruct (Hp p conn Ex Hin). auto.
Qed.

(** Channels that are not made yet can be given to any tenant. *)
Definition given_to (t : string) st (owner : nat → string) (tx : nat) : string :=
  if ch_made (w_chans (a_world st)) tx then owner tx else t.

Lemma given_made t st owner tx : made st tx → given_to t st owner tx = owner tx.
Proof using Type. rewrite /made /given_to. by intros ->. Qed.

Lemma sys_tidy_given t cfg owner sys :
  sys_tidy cfg owner sys → sys_tidy cfg (given_to t (sy_app sys) owner) sys.
Proof using Type.
  intros [[Hc Hd [Hs Hi] Hr] Ht Hu Hw]. split; [|intros tx x Hx|done|done].
  - split; [done|done| |done]. split; [|done]. intros k e Hk. destruct (Hs k e Hk) as (? & ? & Hm).
    by rewrite given_made.
  - destruct (Ht tx x Hx) as [? ? ? ? ? Hp]. split; [done|done|by rewrite given_made|done|done|].
    intros p conn Ex Hin. destruct (Hp p conn Ex Hin) as [? Hm]. by rewrite given_made.
Qed.

(** ** Acts *)

(** The tenant whose client or task acts; a shutdown has none. *)
Definition act_tenant sys (a : Act) : option string :=
  match a with
  | AUpgrade _ _ _ q => Some (q_tenant q)
  | AOpen i _ _ => q_tenant <$> sy_upgraded sys !! i
  | AEvent tx _ | ASend tx _ | AResume tx _ | AEnd tx => (λ x, tk_tenant x.1) <$> sy_tasks sys !! tx
  | ADrain _ => None
  end.

Definition tasks_of t sys : gmap nat (Task * Status) := filter (λ x, tk_tenant x.2.1 = t) (sy_tasks sys).

(** Everything that belongs to [t]: its entries in the tables, its tasks,
    and what waits in their channels. *)
Definition same_tenancy t sys sys' : Prop :=
  share t (sy_app sys') = share t (sy_app sys)
  ∧ tasks_of t sys' = tasks_of t sys
  ∧ ∀ tx x, tasks_of t sys !! tx = Some x → queue (sy_app sys') tx = queue (sy_app sys) tx.

(** What an act of a tenant does to the list of tasks. *)
Section task_list.
Context (cfg : GatewayConfig) (owner : nat → string) (sys : System Bytes) (t : string).
Context (Hsys : sys_tidy cfg owner sys) (Ht : safe t = true).
Context (Hnew : ∀ tx, ch_made (w_chans (a_world (sy_app sys))) tx = false → owner tx = t).

Lemma kept_start : kept cfg owner t (sy_app sys) (sy_app sys).
Proof using All. split; [apply Hsys|]. split; [by split|apply Hsys]. Qed.

(** The state after the act, and the tasks: one of the tenant is new, or another. *)
Record acted sys' : Prop := {
  ac_kept : kept cfg owner t (sy_app sys) (sy_app sys');
  ac_tasks : sy_tasks sys' = sy_tasks sys
    ∨ (∃ tx, owner tx = t ∧ sy_tasks sys' = delete tx (sy_tasks sys))
    ∨ ∃ tx x, tk_tenant x.1 = t ∧ task_fits cfg owner (sy_app sys') tx x ∧ sy_tasks sys' = <[tx := x]> (sy_tasks sys);
  ac_upgraded : sy_upgraded sys' ⊆ sy_upgraded sys;
}.

Lemma acted_tidy sys' : acted sys' → sys_tidy cfg owner sys'.
Proof using All.
  intros [(Htd & [Hs _ Hm] & Hwt) Hts Hup]. destruct Hsys as [_ Htasks Hu Hw]. split; [done| |rewrite !Forall_forall in Hu |- *; by auto|].
  - assert (map_Forall (task_fits cfg owner (sy_app sys')) (sy_tasks sys)) as Hold.
    { intros tx x Hx. eapply task_fits_made; [exact Hm|by apply Htasks]. }
    destruct Hts as [->|[(tx & _ & ->)|(tx & x & _ & Hx & ->)]]; [done|by apply map_Forall_delete|].
    by apply map_Forall_insert_2.
  - intros t'. destruct (decide (t = t')) as [<-|Hne]; [done|]. by apply (within_share cfg t' _ _ (Hs t' Hne)).
Qed.

Lemma acted_others sys' t' : acted sys' → t ≠ t' → same_tenancy t' sys sys'.
Proof using All.
  intros [(Htd & [Hs Hq _] & _) Hts _] Hne. destruct Hsys as [_ Htasks _ _].
  assert (∀ tx x, owner tx = t → sy_tasks sys !! tx = Some x → tk_tenant x.1 ≠ t') as Hforeign.
  { intros tx x Ho Hx. by rewrite -(tf_owner _ _ _ _ _ (Htasks tx x Hx)) Ho. }
  split_and!; [by apply Hs| |].
  - rewrite /tasks_of. destruct Hts as [->|[(tx & Ho & ->)|(tx & x & Et & Hx & ->)]]; [done| |].
    + apply map_filter_delete_not. intros x Hx. by eapply Hforeign.
    + apply map_filter_insert_not'; [by rewrite /= Et|]. intros y Hy. eapply (Hforeign tx); [|done].
      by rewrite (tf_owner _ _ _ _ _ Hx).
  - intros tx x [Hx Et]%map_lookup_filter_Some. apply Hq. rewrite (tf_owner _ _ _ _ _ (Htasks tx x Hx)). cbn in Et. congruence.
Qed.

Lemma acted_idle : acted sys.
Proof using All. split; [apply kept_start|by left|done]. Qed.

(** The state is what the effects of the scope leave. *)
Lemma act_kept a :
  act_in (own_scope cfg owner t) sys a → kept cfg owner t (sy_app sys) (sy_app (sys_exec sys a)).
Proof using All.
  intros Ha. refine (proj1 (sys_exec_in _ _ _ (kept_withstands cfg owner t Ht (sy_app sys) Hnew) sys a Ha _)).
  split; [apply kept_start|]. intros tx x Hx. exact (tf_limited _ _ _ _ _ (ty_tasks _ _ _ Hsys tx x Hx)).
Qed.

Lemma task_acting tx tk s :
  sy_tasks sys !! tx = Some (tk, s) → tk_tenant tk = t →
  tk_tx tk = tx ∧ owner tx = t ∧ made (sy_app sys) tx.
Proof using All.
  intros Htx Et. destruct (ty_tasks _ _ _ Hsys tx _ Htx) as [E1 _ E2 E3 _ _]. cbn in *. by rewrite E2.
Qed.

Lemma task_limited tx tk s : sy_tasks sys !! tx = Some (tk, s) → limited cfg tk.
Proof using Hsys. intros Htx. exact (tf_limited _ _ _ _ _ (ty_tasks _ _ _ Hsys tx _ Htx)). Qed.

Lemma acted_open i now nanos q :
  sy_upgraded sys !! i = Some q → q_tenant q = t → acted (sys_exec sys (AOpen i now nanos)).
Proof using All.
  intros Hi Eq. pose proof (act_kept (AOpen i now nanos)) as Hk. cbn [act_in sys_exec] in *. rewrite Hi in Hk |- *.
  pose proof (session_open_good _ _ _ (kept_withstands cfg owner t Ht (sy_app sys) Hnew) now nanos (sy_app sys) q
    Eq kept_start) as [_ Hopen].
  assert (kept cfg owner t (sy_app sys) (session_open now nanos (sy_app sys) q).2) as Hkept.
  { specialize (Hk ltac:(by intros q' [= <-])). by destruct (session_open _ _ _ _). }
  destruct (session_open now nanos (sy_app sys) q) as [o st]. cbn in Hopen, Hkept.
  split; cbn [sy_app sy_tasks sy_upgraded]; [done| |intros q'; apply list_elem_of_delete_inv].
  destruct o as [tk| | |]; [|by left..]. right. right. destruct Hopen as (Hlim & Etk & Ho & Hm).
  exists (tk_tx tk), (tk, SReady). split_and!; [cbn; congruence|split; cbn; [done| |congruence|done|done|done]|done].
  by rewrite Etk Eq.
Qed.

(** What a dispatch waits for are sessions of the tenant. *)
Lemma event_publish_own ev tk p conn :
  tk_tenant tk = t → event_publish ev tk (sy_app sys) = Some p → conn ∈ pb_pending p →
  owner (conn_tx conn) = t ∧ made (sy_app sys) (conn_tx conn).
Proof using All.
  intros Et. rewrite /event_publish. destruct (event_envelope ev) as [env|]; [|done]. rewrite /publish_of.
  destruct (chat_request env) as [[room msg]|]; [|done]. destruct (prepare _); [|done]. intros [= <-]. cbn.
  rewrite Et. pose proof (ty_app _ _ _ Hsys) as Htd. intros Hc.
  eapply (room_conns_owner owner t Ht); [apply Htd|apply Htd|exact Hc].
Qed.

Lemma acted_event tx tk s ev :
  sy_tasks sys !! tx = Some (tk, s) → tk_tenant tk = t → acted (sys_exec sys (AEvent tx ev)).
Proof using All.
  intros Htx Et. destruct (task_acting _ _ _ Htx Et) as (E1 & E2 & Hm).
  assert (act_in (own_scope cfg owner t) sys (AEvent tx ev)) as Ha.
  { intros tk' s' Htx'. rewrite Htx in Htx'. injection Htx' as <- <-.
    split; [split; cbn; congruence|]. destruct ev; cbn; [congruence|done..]. }
  pose proof (act_kept _ Ha) as Hk. cbn [sys_exec] in Hk |- *. rewrite Htx in Hk |- *.
  destruct s; [|apply acted_idle..].
  pose proof (on_event_same (first_part ev) tk (sy_app sys)) as Hid. rewrite /begin_event in Hk |- *.
  destruct (on_event _ _ _) as [[flow tk'] st]. cbn [set_task sy_app fst snd] in Hk. rewrite /same_task /= in Hid.
  destruct (identity_key _ _ Hid) as (Et' & _ & El' & Ex' & _).
  split; cbn [set_task sy_app sy_tasks sy_upgraded]; [done| |done]. right. right.
  exists tx, (tk', status_of flow (event_publish ev tk (sy_app sys))).
  split_and!; [cbn; congruence| |done]. destruct Hk as (_ & [_ _ Hmono] & _). pose proof (task_limited _ _ _ Htx) as Hl.
  split; cbn; [congruence|congruence|congruence|by apply Hmono|by rewrite /limited Et' El'|]. intros p conn Es Hin.
  assert (event_publish ev tk (sy_app sys) = Some p) as Ep.
  { destruct flow, (event_publish ev tk (sy_app sys)); cbn in Es; congruence. }
  destruct (event_publish_own ev tk p conn Et Ep Hin). split; [congruence|by apply Hmono].
Qed.

Lemma acted_send tx tk s fe :
  sy_tasks sys !! tx = Some (tk, s) → tk_tenant tk = t → acted (sys_exec sys (ASend tx fe)).
Proof using All.
  intros Htx Et. destruct (task_acting _ _ _ Htx Et) as (E1 & E2 & Hm).
  pose proof (ty_tasks _ _ _ Hsys tx _ Htx) as [_ _ _ _ _ Hp]. cbn [fst snd] in Hp.
  assert (∀ p, s = SSending p → Forall (λ conn, owner (conn_tx conn) = t) (pb_pending p)) as Hall.
  { intros p Es. apply Forall_forall. intros conn Hc. destruct (Hp p conn Es Hc). congruence. }
  pose proof (act_kept (ASend tx fe)) as Hk. cbn [act_in sys_exec] in Hk |- *. rewrite Htx in Hk |- *.
  destruct s as [|p| |]; [apply acted_idle| |apply acted_idle..].
  destruct (no_other fe) eqn:Ef; [|apply acted_idle].
  specialize (Hk ltac:(intros tk' p' [= <- <-]; by apply Hall)).
  destruct (fut_step_kept owner t (pb_timeout p) (pb_msg p)
    (mkFutState (a_world (sy_app sys)) (pb_pending p) []) fe Ef (Hall p eq_refl)) as [_ Hsub].
  rewrite /send_step in Hk |- *. cbn [set_task sy_app] in Hk.
  pose proof (un_made _ _ _ _ (proj1 (proj2 Hk))) as Hmono. pose proof (task_limited _ _ _ Htx) as Hl.
  split; cbn [set_task sy_app sy_tasks sy_upgraded]; [done| |done]. right. right. eexists tx, _.
  split_and!; [| |done]; [done|]. split; cbn; [done|by rewrite Et|congruence|by apply Hmono|done|].
  intros p' conn [= <-] Hin. destruct (Hp p conn eq_refl (Hsub conn Hin)). split; [done|by apply Hmono].
Qed.

Lemma acted_resume tx tk s elapsed :
  sy_tasks sys !! tx = Some (tk, s) → tk_tenant tk = t → acted (sys_exec sys (AResume tx elapsed)).
Proof using All.
  intros Htx Et. destruct (task_acting _ _ _ Htx Et) as (E1 & E2 & Hm).
  pose proof (act_kept (AResume tx elapsed) I) as Hk. cbn [sys_exec] in Hk |- *. rewrite Htx in Hk |- *.
  destruct s as [|p| |]; [apply acted_idle| |apply acted_idle..]. destruct (pb_pending p); [|apply acted_idle].
  split; [done| |done]. right. right. exists tx, (tk, SReady). split_and!; [done| |done].
  destruct Hk as (_ & [_ _ Hmono] & _). pose proof (task_limited _ _ _ Htx) as Hl.
  split; cbn; [done|by rewrite Et|congruence|by apply Hmono|done|done].
Qed.

Lemma acted_end tx tk s :
  sy_tasks sys !! tx = Some (tk, s) → tk_tenant tk = t → acted (sys_exec sys (AEnd tx)).
Proof using All.
  intros Htx Et. destruct (task_acting _ _ _ Htx Et) as (E1 & E2 & Hm).
  assert (act_in (own_scope cfg owner t) sys (AEnd tx)) as Ha.
  { intros tk' s' Htx'. rewrite Htx in Htx'. injection Htx' as <- <-. cbn. split; congruence. }
  pose proof (act_kept _ Ha) as Hk. cbn [sys_exec] in Hk |- *. rewrite Htx in Hk |- *.
  destruct s; [apply acted_idle..| |apply acted_idle]. split; [done| |done]. right. left. by exists tx.
Qed.
End task_list.

(** ** Requests and shutdown *)

Lemma ws_upgrade_tables reentrant ck st ip q :
  a_policy (ws_upgrade reentrant ck st ip q).2 = a_policy st ∧ a_world (ws_upgrade reentrant ck st ip q).2 = a_world st
  ∧ a_cfg (ws_upgrade reentrant ck st ip q).2 = a_cfg st
  ∧ a_dispatcher (ws_upgrade reentrant ck st ip q).2 = a_dispatcher st.
Proof using Type.
  rewrite /ws_upgrade. destruct (check _ _ _ _) as [[[[]|wait]|] hs]; [|done..].
  destruct (is_draining _); [done|]. destruct (find_tenant _ _); [|done]. by destruct (_ && _).
Qed.

Lemma same_tables t st st' : a_policy st' = a_policy st → a_world st' = a_world st → share t st' = share t st.
Proof using Type. intros Ep Ew. by rewrite /share /app_sessions /app_presence /tenant_policy Ep Ew. Qed.

Lemma tidy_same cfg owner st st' :
  a_world st' = a_world st → a_cfg st' = a_cfg st → a_dispatcher st' = a_dispatcher st →
  tidy cfg owner st → tidy cfg owner st'.
Proof using Type.
  intros Ew Ec Ed [? ? ? ?]. split; rewrite ?Ec ?Ed /app_sessions /app_presence ?Ew //.
Qed.

Section system.
Context (cfg : GatewayConfig) (Hids : Forall (λ tc, safe (tenant_id tc) = true) (tenants cfg)).

Lemma upgrade_tidy owner sys reentrant ck ip q :
  sys_tidy cfg owner sys →
  sys_tidy cfg owner (sys_exec sys (AUpgrade reentrant ck ip q))
  ∧ ∀ t', same_tenancy t' sys (sys_exec sys (AUpgrade reentrant ck ip q)).
Proof using All.
  intros [Hr Ht Hu Hw]. cbn [sys_exec].
  destruct (ws_upgrade_tables reentrant ck (sy_app sys) ip q) as (Ep & Ew & Ec & Ed).
  pose proof (ws_upgrade_frame reentrant ck (sy_app sys) ip q) as Hf.
  destruct (ws_upgrade _ _ _ _ _) as [res st]. cbn [snd] in *. destruct Hf as (_ & _ & _ & _ & Hq).
  split; [split; cbn [sy_app sy_tasks sy_upgraded]|].
  - by eapply tidy_same.
  - intros tx x Hx. eapply task_fits_made; [|by apply Ht]. intros tx'. by rewrite /made Ew.
  - destruct res as [[rsp|]|]; [done| |done]. apply Forall_app. split; [done|]. apply Forall_singleton.
    destruct (Hq eq_refl) as [[tc Hf] _]. apply find_some in Hf as [Hin Eq%bool_decide_eq_true_1].
    rewrite (td_cfg _ _ _ Hr) in Hin. rewrite -Eq. by apply (proj1 (Forall_forall _ _) Hids), list_elem_of_In.
  - intros t'. eapply within_core; [by rewrite Ew|apply Hw].
  - intros t'. split_and!; [by apply same_tables|done|]. intros tx x _. by rewrite /queue /= Ew.
Qed.

Lemma drain_tidy owner sys reason :
  sys_tidy cfg owner sys → sys_tidy cfg owner (sys_exec sys (ADrain reason)).
Proof using Type*.
  intros [[Hc Hd Hr Hh] Ht Hu Hw]. cbn [sys_exec]. set (st := begin_drain (sy_app sys) reason).
  assert (w_core (a_world st) = w_core (a_world (sy_app sys))) as Ecore.
  { by apply (same_core_foldl False); intros w [k conn]; apply same_core_push. }
  assert (∀ tx, made (sy_app sys) tx → made st tx) as Hm.
  { intros tx Hm. rewrite /st /begin_drain /best_effort_shutdown_all /made. cbn [a_world set_world].
    revert Hm. rewrite /made. change (a_world (enter_draining (sy_app sys))) with (a_world (sy_app sys)).
    generalize (all_sessions (sessions (w_core (a_world (sy_app sys))))). intros l. generalize (a_world (sy_app sys)).
    induction l as [|[k conn] l IH]; intros w Hm; [done|]. cbn [foldl]. apply IH. rewrite /push.
    pose proof (made_send (w_chans w) (conn_tx conn) (MClose (Some (1001, reason))) tx Hm) as Hs.
    by destruct (try_send _ _ _) as [[] c]. }
  split; cbn [sy_app sy_tasks sy_upgraded]; [split; [done|done| |]| |done|by intros t'; eapply within_core].
  - rewrite /app_sessions Ecore. by eapply tidy_registry_made.
  - by rewrite /app_presence Ecore.
  - intros tx x Hx. eapply task_fits_made; [exact Hm|by apply Ht].
Qed.

(** ** Runs *)

(** The act is not a shutdown, and is not the tenant's. *)
Definition foreign_act t sys (a : Act) : bool :=
  match a with ADrain _ => false | _ => negb (bool_decide (act_tenant sys a = Some t)) end.

(** An act keeps the order of the tables; if it is foreign to a tenant, it keeps
    what belongs to the tenant. *)
Definition well_acted sys a : Prop :=
  ∃ owner, sys_tidy cfg owner (sys_exec sys a)
           ∧ ∀ t', foreign_act t' sys a = true → same_tenancy t' sys (sys_exec sys a).

Lemma well_acted_idle owner sys a : sys_tidy cfg owner sys → sys_exec sys a = sys → well_acted sys a.
Proof using Type. intros Hsys E. exists owner. by rewrite E. Qed.

Lemma well_acted_by t owner sys a :
  safe t = true → act_tenant sys a = Some t → sys_tidy cfg owner sys →
  (∀ owner, sys_tidy cfg owner sys → (∀ tx, ch_made (w_chans (a_world (sy_app sys))) tx = false → owner tx = t) →
     acted cfg owner sys t (sys_exec sys a)) →
  well_acted sys a.
Proof using Type*.
  intros Ht Ea Hsys Hacted. exists (given_to t (sy_app sys) owner).
  pose proof (sys_tidy_given t cfg owner sys Hsys) as Hg.
  assert (∀ tx, ch_made (w_chans (a_world (sy_app sys))) tx = false → given_to t (sy_app sys) owner tx = t) as Hnew
    by (intros tx E; by rewrite /given_to E).
  specialize (Hacted _ Hg Hnew). split; [by eapply acted_tidy|]. intros t' Hf.
  eapply acted_others; [exact Hg|exact Ht|exact Hnew|exact Hacted|]. intros <-. revert Hf.
  rewrite /foreign_act Ea. destruct a; cbn; rewrite ?bool_decide_true //.
Qed.

(** The acts of a task. *)
Lemma well_acted_task tx owner sys a :
  sys_tidy cfg owner sys → act_tenant sys a = (λ x, tk_tenant x.1) <$> sy_tasks sys !! tx →
  (sy_tasks sys !! tx = None → sys_exec sys a = sys) →
  (∀ owner tk s, sys_tidy cfg owner sys → safe (tk_tenant tk) = true →
     (∀ tx, ch_made (w_chans (a_world (sy_app sys))) tx = false → owner tx = tk_tenant tk) →
     sy_tasks sys !! tx = Some (tk, s) → acted cfg owner sys (tk_tenant tk) (sys_exec sys a)) →
  well_acted sys a.
Proof using Type*.
  intros Hsys Ea Hnone Hacted. destruct (sy_tasks sys !! tx) as [[tk s]|] eqn:Htx;
    [|by eapply well_acted_idle; [|apply Hnone]].
  destruct (ty_tasks _ _ _ Hsys tx _ Htx) as [_ Hsafe _ _ _ _].
  eapply (well_acted_by (tk_tenant tk)); [exact Hsafe|exact Ea|done|]. intros owner' Hsys' Hnew.
  by eapply Hacted.
Qed.

Lemma exec_tidy owner sys a : sys_tidy cfg owner sys → well_acted sys a.
Proof using All.
  intros Hsys. destruct a as [reentrant ck ip q|i now nanos|tx ev|tx fe|tx ns|tx|reason].
  - destruct (upgrade_tidy owner sys reentrant ck ip q Hsys). by exists owner.
  - destruct (sy_upgraded sys !! i) as [q|] eqn:Ei; [|eapply well_acted_idle; [done|]; cbn; by rewrite Ei].
    pose proof (Forall_lookup_1 _ _ _ _ (ty_upgraded _ _ _ Hsys) Ei) as Hq.
    eapply (well_acted_by (q_tenant q)); [exact Hq|by rewrite /= Ei|done|].
    intros. eapply acted_open; [done|exact Hq|done..].
  - apply (well_acted_task tx owner); [done|done|cbn; by intros ->|]. intros. by eapply acted_event.
  - apply (well_acted_task tx owner); [done|done|cbn; by intros ->|]. intros. by eapply acted_send.
  - apply (well_acted_task tx owner); [done|done|cbn; by intros ->|]. intros. by eapply acted_resume.
  - apply (well_acted_task tx owner); [done|done|cbn; by intros ->|]. intros. by eapply acted_end.
  - exists owner. split; [by apply drain_tidy|done].
Qed.

Lemma start_tidy now c app : app_new now c cfg = Ok app → sys_tidy cfg (λ _, "") (mkSystem app [] ∅).
Proof using Type.
  rewrite /app_new. destruct (compile_policies _ _ _) as [pol|]; [|done]. cbn.
  destruct (sanity_check _ _ _) as [log|]; [|done]. cbn. intros [= <-]. split; [by split|done|done|].
  intros t lim _. split; [apply sessions_within_new|apply rooms_within_new].
Qed.

Lemma run_tidy owner sys acts : sys_tidy cfg owner sys → ∃ owner', sys_tidy cfg owner' (foldl sys_exec sys acts).
Proof using All.
  revert owner sys. induction acts as [|a acts IH]; intros owner sys Hsys; [by exists owner|].
  destruct (exec_tidy owner sys a Hsys) as (owner' & Hsys' & _). by apply (IH owner').
Qed.

(** None of the acts is the tenant's, and none is a shutdown. *)
Fixpoint foreign_acts t sys (acts : list Act) : bool :=
  match acts with
  | [] => true
  | a :: acts => foreign_act t sys a && foreign_acts t (sys_exec sys a) acts
  end.

Lemma same_tenancy_trans t sys1 sys2 sys3 :
  same_tenancy t sys1 sys2 → same_tenancy t sys2 sys3 → same_tenancy t sys1 sys3.
Proof using Type.
  intros (E1 & E2 & E3) (F1 & F2 & F3). split_and!; [congruence|congruence|]. intros tx x Hx.
  rewrite (F3 tx x); [by apply (E3 tx x)|by rewrite E2].
Qed.

Lemma run_others owner sys acts t :
  sys_tidy cfg owner sys → foreign_acts t sys acts = true → same_tenancy t sys (foldl sys_exec sys acts).
Proof using All.
  revert owner sys. induction acts as [|a acts IH]; intros owner sys Hsys Hf; [done|].
  cbn in Hf |- *. apply andb_true_iff in Hf as [Ha Hf].
  destruct (exec_tidy owner sys a Hsys) as (owner' & Hsys' & Hsame).
  eapply same_tenancy_trans; [by apply Hsame|by eapply IH].
Qed.
End system.
End tenancy.

(** C2: tenants are isolated in the running gateway. From any state that the
    gateway can get to, by any acts of its clients and tasks, let others act: clients that ask
    for an upgrade, open sessions, are kicked, join and leave rooms,
    publish, flood, disconnect, in any number and order, none of them of the
    tenant [t].  Then everything of [t] is as it was: its sessions, its users and its counter in the
    registry, its rooms and their members, references and counter, its policy with the
    state of its limiter, its tasks, and what waits in their channels.  No
    assumption is made on what clients send; tenant ids must not swallow the separator of keys. *)
Theorem gateway_isolates {Bytes : Type} `{!BytesOps Bytes, !BytesFrom Bytes, !SerdeJson, !DashOrder,
    !DashOrderLaws, !Mpsc, !MpscLaws} cfg now c (app : AppState Bytes) acts others (t : string) :
  Forall (λ tc, safe (tenant_id tc) = true) (tenants cfg) → app_new now c cfg = Ok app →
  let sys := foldl sys_exec (mkSystem app [] ∅) acts in
  foreign_acts t sys others = true → same_tenancy t sys (foldl sys_exec sys others).
Proof.
  intros Hids Hnew sys Hf. destruct (run_tidy cfg Hids _ _ acts (start_tidy cfg now c app Hnew)) as [owner Hsys].
  by apply (run_others cfg Hids owner).
Qed.


(** ** An instance *)

Module Tenants.
Import MiniJson.

Definition cfg : GatewayConfig :=
  mkGatewayConfig 1 GatewaySection_default
    [mkTenantConfig "acme" Sample.lim Gateway.policy; mkTenantConfig "zeta" Sample.lim Gateway.policy].
Definition start : AppState (list byte) :=
  match app_new 0 ∅ cfg with Ok st => st | Err _ => Gateway.app end.
Definition visit (t sid : string) : list Act :=
  [AUpgrade false Visitor.clocks (V4 0) (mkWsQuery t "dev" (Some sid)); AOpen 0 0 0].

(** A session of [acme] is in its lobby; then sessions of [zeta] come, meet in
    a lobby, talk, and one goes. *)
Definition first : list Act := visit "acme" "1" ++ [AEvent 0 (Meeting.says "room join lobby")].
Definition then_ : list Act :=
  visit "zeta" "1" ++ visit "zeta" "2"
  ++ [AEvent 1 (Meeting.says "room join lobby"); AEvent 2 (Meeting.says "room join lobby");
      AEvent 1 (Meeting.says "chat send lobby hello"); ASend 1 (Poll 1); ASend 1 (Poll 0); AResume 1 5000;
      AEvent 2 (EvIn Gateway.rd None); AEnd 2].

Lemma tenants_start : app_new 0 ∅ cfg = Ok start.
Proof.
  rewrite /start. assert (is_ok (app_new (Bytes := list byte) 0 ∅ cfg) = true) as Hok by by vm_compute.
  by destruct (app_new 0 ∅ cfg).
Qed.
End Tenants.

Import MiniJson.

(** Meanwhile nothing of [acme] has changed; two messages were delivered. *)
Lemma gateway_isolates_witness :
  let sys := foldl sys_exec (mkSystem Tenants.start [] ∅) Tenants.first in
  let sys' := foldl sys_exec sys Tenants.then_ in
  same_tenancy "acme" sys sys'
  ∧ size (tasks_of "acme" sys) = 1%nat ∧ size (tasks_of "zeta" sys') = 1%nat
  ∧ length (ch_queue (w_chans (a_world (sy_app sys'))) 1) = 3%nat.
Proof.
  assert (Forall (λ tc, safe (tenant_id tc) = true) (tenants Tenants.cfg)) as Hids by by repeat constructor.
  assert (foreign_acts "acme" (foldl sys_exec (mkSystem Tenants.start [] ∅) Tenants.first) Tenants.then_ = true)
    as Hf by (vm_compute; reflexivity).
  pose proof (gateway_isolates Tenants.cfg 0 ∅ Tenants.start Tenants.first Tenants.then_ "acme" Hids Tenants.tenants_start Hf)
    as Hsame.
  cbv zeta. split; [exact Hsame|]. clear Hsame.
  split; [vm_compute; reflexivity|]. split; [vm_compute; reflexivity|]. vm_compute; reflexivity.
Defined.

(** Clients of a small tenant misbehave: a session id is used twice, a room is joined twice and left; a third
    session and a second room are refused. *)
Module Crowd.
Import MiniJson.

Definition lim : TenantLimits := mkTenantLimits 64 2 1 1 1.
Definition cfg : GatewayConfig :=
  mkGatewayConfig 1 GatewaySection_default [mkTenantConfig "acme" lim Gateway.policy].
Definition start : AppState (list byte) :=
  match app_new 0 ∅ cfg with Ok st => st | Err _ => Gateway.app end.
Definition acts : list Act :=
  Tenants.visit "acme" "1" ++ Tenants.visit "acme" "1" ++ Tenants.visit "acme" "2"
  ++ [AEvent 0 (Meeting.says "room join lobby"); AEvent 0 (Meeting.says "room join lobby");
      AEvent 1 (Meeting.says "room join attic"); AEvent 0 (Meeting.says "room leave")].

Lemma crowd_starts : app_new 0 ∅ cfg = Ok start.
Proof.
  rewrite /start. assert (is_ok (app_new (Bytes := list byte) 0 ∅ cfg) = true) as Hok by by vm_compute.
  by destruct (app_new 0 ∅ cfg).
Qed.
End Crowd.

