(* ===== verification/Exposition.v ===== *)
(** * The metrics page, read back

    A reader of the Prometheus text format, one character at a time, and the
    proof that it finds in the page of [/metrics] exactly the series of the
    registry ([wsprism-gateway/src/obs/metrics.rs]), whatever clients put
    into the values of labels. *)

From S2P Require Import Prelude Errors RustStd HotFrame Config Allowlist TokenBucket Policy Dash.
From S2P Require Import SessionRegistry Presence Keys Channel Envelope Realtime Codec Dispatch.
From S2P Require Import Handshake Metrics AppState Ws Session Admission System Safety Effects.

(** ** The reader *)

(** A sample: its name, its labels, and its value as it is written. *)
Abbreviation sample := (string * labels * string)%type.

Inductive phase :=
| PStart | PComment | PName | PKey | POpen | PVal | PEsc | PNext | PSpace | PNum | PBad.

(** What is read of the page, and of the line. *)
Record Reader := mkReader {
  rd_phase : phase;
  rd_samples : list sample;
  rd_name : string;
  rd_labels : labels;
  rd_key : string;
  rd_val : string;
}.

Definition snoc (s : string) (c : ascii) : string := s +:+ String c "".

Definition is_char (c d : ascii) : bool := bool_decide (c = d).

Definition step (r : Reader) (c : ascii) : Reader :=
  let '(mkReader ph xs n ls k v) := r in
  match ph with
  | PStart =>
      if is_char c "#" then mkReader PComment xs "" [] "" ""
      else if is_char c ch_newline then mkReader PStart xs "" [] "" ""
      else mkReader PName xs (snoc "" c) [] "" ""
  | PComment => if is_char c ch_newline then mkReader PStart xs "" [] "" "" else r
  | PName =>
      if is_char c "{" then mkReader PKey xs n [] "" ""
      else if is_char c " " then mkReader PNum xs n [] "" ""
      else mkReader PName xs (snoc n c) [] "" ""
  | PKey =>
      if is_char c "=" then mkReader POpen xs n ls k ""
      else if is_char c "}" then mkReader (if bool_decide (k = "") then PSpace else PBad) xs n ls "" ""
      else mkReader PKey xs n ls (snoc k c) ""
  | POpen => mkReader (if is_char c ch_quote then PVal else PBad) xs n ls k ""
  | PVal =>
      if is_char c ch_quote then mkReader PNext xs n (ls ++ [(k, v)]) "" ""
      else if is_char c ch_backslash then mkReader PEsc xs n ls k v
      else if is_char c ch_newline then mkReader PBad xs n ls k v
      else mkReader PVal xs n ls k (snoc v c)
  | PEsc =>
      if is_char c "n" then mkReader PVal xs n ls k (snoc v ch_newline)
      else if is_char c ch_quote || is_char c ch_backslash then mkReader PVal xs n ls k (snoc v c)
      else mkReader PBad xs n ls k v
  | PNext => mkReader (if is_char c "," then PKey else if is_char c "}" then PSpace else PBad) xs n ls "" ""
  | PSpace => mkReader (if is_char c " " then PNum else PBad) xs n ls "" ""
  | PNum =>
      if is_char c ch_newline then mkReader PStart (xs ++ [(n, ls, v)]) "" [] "" ""
      else mkReader PNum xs n ls "" (snoc v c)
  | PBad => r
  end.

Definition feed (r : Reader) (s : string) : Reader := foldl step r (String.list_ascii_of_string s).

(** The reader between two lines. *)
Definition at_line (xs : list sample) : Reader := mkReader PStart xs "" [] "" "".

Definition read_page (s : string) : option (list sample) :=
  let r := feed (at_line []) s in
  match rd_phase r with PStart => Some (rd_samples r) | _ => None end.

(** ** Characters in a row *)

Lemma list_ascii_app s t :
  String.list_ascii_of_string (s +:+ t) = String.list_ascii_of_string s ++ String.list_ascii_of_string t.
Proof. induction s as [|a s IH]; [done|]. rewrite string_app_cons. cbn. by rewrite IH. Qed.

Lemma feed_app r s t : feed r (s +:+ t) = feed (feed r s) t.
Proof. by rewrite /feed list_ascii_app foldl_app. Qed.

Lemma feed_cons r c s : feed r (String c s) = feed (step r c) s.
Proof. done. Qed.

Lemma string_app_nil_r s : s +:+ "" = s.
Proof. induction s as [|a s IH]; [done|]. by rewrite string_app_cons IH. Qed.

Lemma snoc_app s c t : snoc s c +:+ t = s +:+ String c t.
Proof. by rewrite /snoc string_app_assoc. Qed.

Lemma free_of_cons bad a s : free_of bad (String a s) = true → (∀ c, c ∈ bad → is_char a c = false) ∧ free_of bad s = true.
Proof.
  intros [Ha Hs]%andb_true_iff. apply negb_true_iff, bool_decide_eq_false in Ha. split; [|done].
  intros c Hc. rewrite /is_char bool_decide_false //. by intros ->.
Qed.

Lemma feed_comment xs s :
  free_of [ch_newline] s = true →
  feed (mkReader PComment xs "" [] "" "") s = mkReader PComment xs "" [] "" "".
Proof.
  induction s as [|a s IH]; [done|]. intros [Ha Hs]%free_of_cons. rewrite feed_cons /step (Ha ch_newline); [auto|set_solver].
Qed.

(** A phase that collects the characters that do not end it. *)
Lemma feed_collect (mk : string → Reader) bad s v :
  (∀ v c, (∀ d, d ∈ bad → is_char c d = false) → step (mk v) c = mk (snoc v c)) →
  free_of bad s = true → feed (mk v) s = mk (v +:+ s).
Proof.
  intros Hstep. revert v. induction s as [|a s IH]; intros v Hs; [by rewrite string_app_nil_r|].
  apply free_of_cons in Hs as [Ha Hs]. rewrite feed_cons Hstep // IH // snoc_app. done.
Qed.

Ltac collects Hc := rewrite /step !Hc //; set_solver.

Lemma feed_name xs n s :
  free_of ["{"; " "]%char s = true →
  feed (mkReader PName xs n [] "" "") s = mkReader PName xs (n +:+ s) [] "" "".
Proof. apply (feed_collect (λ n, mkReader PName xs n [] "" "")). intros v c Hc. collects Hc. Qed.

Lemma feed_key xs n ls k s :
  free_of ["="; "}"]%char s = true →
  feed (mkReader PKey xs n ls k "") s = mkReader PKey xs n ls (k +:+ s) "".
Proof. apply (feed_collect (λ k, mkReader PKey xs n ls k "")). intros v c Hc. collects Hc. Qed.

Lemma feed_num xs n ls v s :
  free_of [ch_newline] s = true →
  feed (mkReader PNum xs n ls "" v) s = mkReader PNum xs n ls "" (v +:+ s).
Proof. apply (feed_collect (λ v, mkReader PNum xs n ls "" v)). intros v' c Hc. collects Hc. Qed.

(** An escaped value is read as the value. *)
Lemma feed_value xs n ls k v w :
  feed (mkReader PVal xs n ls k v) (escape_label w) = mkReader PVal xs n ls k (v +:+ w).
Proof.
  revert v. induction w as [|a w IH]; intros v; [by rewrite string_app_nil_r|].
  rewrite escape_label_cons feed_app -snoc_app -IH. f_equal.
  case_bool_decide as E1; [by subst a|]. case_bool_decide as E2; [by subst a|].
  case_bool_decide as E3; [by subst a|]. rewrite feed_cons /step /is_char. by rewrite !bool_decide_false.
Qed.

(** ** Labels *)

Definition label_pair (kv : string * string) : string := kv.1 +:+ "=" +:+ quote +:+ escape_label kv.2 +:+ quote.

Lemma free_of_weaken bad bad' s : bad' ⊆ bad → free_of bad s = true → free_of bad' s = true.
Proof.
  intros Hb. induction s as [|a s IH]; [done|]. cbn. rewrite !andb_true_iff !negb_true_iff !bool_decide_eq_false.
  intros [Ha Hs]. split; [set_solver|auto].
Qed.

Lemma feed_pair xs n ls k v :
  plain_key k = true →
  feed (mkReader PKey xs n ls "" "") (label_pair (k, v)) = mkReader PNext xs n (ls ++ [(k, v)]) "" "".
Proof.
  intros Hk. rewrite /label_pair /= !feed_app feed_key.
  - cbn [feed foldl String.list_ascii_of_string quote]. rewrite feed_value. done.
  - by eapply free_of_weaken; [|exact Hk]; set_solver.
Qed.

Lemma join_comma_cons x y l : join_comma (x :: y :: l) = x +:+ "," +:+ join_comma (y :: l).
Proof.
  cbn [join_comma foldl].
  assert (∀ a b, foldl (λ acc y, acc +:+ "," +:+ y) (a +:+ b) l
                 = a +:+ foldl (λ acc y, acc +:+ "," +:+ y) b l) as Hf.
  { induction l as [|z l IH]; intros a b; [done|]. cbn [foldl]. by rewrite string_app_assoc IH. }
  by rewrite !Hf.
Qed.

Lemma label_str_cons2 kv kv' l : label_str (kv :: kv' :: l) = label_pair kv +:+ "," +:+ label_str (kv' :: l).
Proof. destruct kv, kv'. apply join_comma_cons. Qed.

Lemma feed_labels xs n ls l :
  plain_labels l = true →
  feed (mkReader PKey xs n ls "" "") (label_str l +:+ "}") = mkReader PSpace xs n (ls ++ l) "" "".
Proof.
  destruct l as [|kv l]; [by rewrite app_nil_r|]. revert ls kv.
  induction l as [|kv' l IH]; intros ls [k v] [Hk Hl]%andb_true_iff.
  - by rewrite (_ : label_str [(k, v)] = label_pair (k, v)) // feed_app feed_pair.
  - rewrite label_str_cons2 string_app_assoc feed_app feed_pair // string_app_assoc feed_app.
    change (feed _ ",") with (mkReader PKey xs n (ls ++ [(k, v)]) "" "").
    rewrite IH //. by rewrite -app_assoc.
Qed.

Lemma label_str_snoc l kv :
  label_str (l ++ [kv]) = (if bool_decide (label_str l = "") then "" else label_str l +:+ ",") +:+ label_pair kv.
Proof.
  destruct l as [|kv' l]; [by destruct kv|].
  assert (label_str (kv' :: l) ≠ "") as Hne.
  { destruct l, kv' as [[|] ?]; rewrite ?label_str_cons2; done. }
  rewrite bool_decide_false //. clear Hne. revert kv'. induction l as [|kv'' l IH]; intros kv'.
  - cbn [app]. rewrite label_str_cons2. rewrite string_app_assoc. by destruct kv, kv'.
  - cbn [app] in *. rewrite !label_str_cons2 IH !string_app_assoc. done.
Qed.

(** ** Lines *)

(** Read from the start of a line, the text adds the samples. *)
Definition reads_as (s : string) (xs : list sample) : Prop :=
  ∀ ys, feed (at_line ys) s = at_line (ys ++ xs).

Lemma reads_nil : reads_as "" [].
Proof. intros ys. by rewrite app_nil_r. Qed.

Lemma reads_app s t xs ys : reads_as s xs → reads_as t ys → reads_as (s +:+ t) (xs ++ ys).
Proof. intros Hs Ht zs. by rewrite feed_app Hs Ht app_assoc. Qed.

Lemma reads_comment s : free_of [ch_newline] s = true → reads_as (String "#" s +:+ nl) [].
Proof.
  intros Hs ys. rewrite feed_app feed_cons. change (step _ _) with (mkReader PComment ys "" [] "" "").
  rewrite feed_comment // app_nil_r. done.
Qed.

(** The names of metrics are words. *)
Definition plain_name (s : string) : bool :=
  match s with
  | EmptyString => false
  | String a _ => negb (is_char a "#") && negb (is_char a ch_newline) && free_of ["{"; " "; ch_newline]%char s
  end.

Lemma feed_plain_name ys name :
  plain_name name = true → feed (at_line ys) name = mkReader PName ys name [] "" "".
Proof.
  destruct name as [|a s]; [done|]. cbn [plain_name].
  intros [[E1%negb_true_iff E2%negb_true_iff]%andb_true_iff Hs]%andb_true_iff. apply free_of_cons in Hs as [_ Hs]. rewrite feed_cons /at_line /step E1 E2.
  rewrite feed_name; [|by eapply free_of_weaken; [|exact Hs]; set_solver]. by rewrite snoc_app.
Qed.

Lemma reads_sample name l val :
  plain_name name = true → plain_labels l = true → free_of [ch_newline] val = true →
  reads_as (name +:+ "{" +:+ label_str l +:+ "} " +:+ val +:+ nl) [(name, l, val)].
Proof.
  intros Hn Hl Hv ys. rewrite (_ : "} " = "}" +:+ " ") // feed_app feed_plain_name // feed_app.
  change (feed (mkReader PName ys name [] "" "") "{") with (mkReader PKey ys name [] "" "").
  rewrite string_app_assoc -(string_app_assoc (label_str l)) feed_app feed_labels // !feed_app.
  change (feed (mkReader PSpace _ _ _ _ _) " ") with (mkReader PNum ys name l "" "").
  by rewrite feed_num.
Qed.

Lemma reads_bare name val :
  plain_name name = true → free_of [ch_newline] val = true →
  reads_as (name +:+ " " +:+ val +:+ nl) [(name, [], val)].
Proof.
  intros Hn Hv ys. rewrite !feed_app feed_plain_name //.
  change (feed (mkReader PName ys name [] "" "") " ") with (mkReader PNum ys name [] "" "").
  by rewrite feed_num.
Qed.

Lemma pretty_N_free x s : free_of [ch_newline] s = true → free_of [ch_newline] (pretty_N_go x s) = true.
Proof.
  revert s. induction (N.lt_wf_0 x) as [x _ IH]; intros s Hs.
  assert (x = 0 ∨ 0 < x)%N as [->|Hx] by lia; [by rewrite pretty_N_go_0|].
  rewrite pretty_N_go_step //. apply IH; [by apply N.div_lt|]. cbn. rewrite Hs andb_true_r.
  rewrite /pretty_N_char. by repeat case_match.
Qed.

Lemma pretty_free (z : Z) : free_of [ch_newline] (pretty z) = true.
Proof.
  assert (∀ x : N, free_of [ch_newline] (pretty x) = true) as Hx.
  { intros x. rewrite /pretty /pretty_N. destruct (decide (x = 0%N)); [done|]. by apply pretty_N_free. }
  destruct z as [|p|p]; [done|apply (Hx (N.pos p))|]. exact (Hx (N.pos p)).
Qed.

(** ** The page *)

Section page.
Context `{!DashOrder}.

(** The series of a counter or gauge, and of a histogram. *)
Definition series_samples (name : string) (m : gmap labels Z) : list sample :=
  (λ '(key, val), (name, key, pretty val)) <$> dm_iter m.

Definition hist_samples (name : string) (key : labels) (h : AtomicHistogram) : list sample :=
  zip_with (λ b c, (name +:+ "_bucket", key ++ [("le", pretty b)], pretty c)) BUCKETS_MICROS (h_buckets h)
  ++ [(name +:+ "_bucket", key ++ [("le", "+Inf")], pretty (h_count h));
      (name +:+ "_sum", key, pretty (h_sum h)); (name +:+ "_count", key, pretty (h_count h))].

Definition metrics_samples (g : GatewayMetrics) (extra : list (string * Z)) : list sample :=
  series_samples "wsprism_ws_upgrades_total" (ws_upgrades g)
  ++ series_samples "wsprism_ws_sessions_active" (ws_active_sessions g)
  ++ series_samples "wsprism_policy_decisions_total" (policy_decisions g)
  ++ series_samples "wsprism_handshake_rejections_total" (handshake_rejections g)
  ++ (dm_iter (dispatch_duration g) ≫= λ '(key, h), hist_samples "wsprism_dispatch_duration_micros" key h)
  ++ series_samples "wsprism_decode_errors_total" (decode_errors g)
  ++ series_samples "wsprism_service_errors_total" (service_errors g)
  ++ series_samples "wsprism_writer_timeouts_total" (writer_timeouts g)
  ++ series_samples "wsprism_unknown_service_total" (unknown_service_errors g)
  ++ ("wsprism_draining", [], if draining g then "1" else "0")
  :: ((λ '(k, v), (k, [], pretty v)) <$> extra).

(** All label names of a map are words. *)
Definition plain_map {A} (m : gmap labels A) : Prop := ∀ key v, m !! key = Some v → plain_labels key = true.

Context `{!DashOrderLaws}.

Lemma plain_iter {A} (m : gmap labels A) : plain_map m → Forall (λ kv, plain_labels kv.1 = true) (dm_iter m).
Proof.
  intros Hm. apply Forall_forall. intros [key v] Hin. apply (Hm key v).
  rewrite dm_iter_perm in Hin. by apply elem_of_map_to_list.
Qed.

(** Lines added one after the other. *)
Lemma reads_foldl {A} (f : string → A → string) (line : A → string) (xs : A → list sample) l s ys :
  (∀ out a, f out a = out +:+ line a) → (∀ a, a ∈ l → reads_as (line a) (xs a)) → reads_as s ys →
  reads_as (foldl f s l) (ys ++ (l ≫= xs)).
Proof.
  intros Hf. revert s ys. induction l as [|a l IH]; intros s ys Hl Hs; cbn; [by rewrite app_nil_r|].
  rewrite app_assoc. apply IH; [intros b Hb; apply Hl; by constructor|].
  rewrite Hf. apply reads_app; [done|]. apply Hl. by constructor.
Qed.

Lemma reads_type rest : free_of [ch_newline] rest = true → reads_as ("# TYPE " +:+ rest +:+ nl) [].
Proof.
  intros Hr. rewrite -string_app_assoc. apply (reads_comment (" TYPE " +:+ rest)). exact Hr.
Qed.

Lemma reads_series (kind name : string) (m : gmap labels Z) :
  free_of [ch_newline] (name +:+ " " +:+ kind) = true → plain_name name = true → plain_map m →
  reads_as (render_lines kind name m) (series_samples name m).
Proof.
  intros Hk Hn Hm. rewrite /render_lines /series_samples -(app_nil_l (_ <$> _)).
  rewrite (_ : ((λ '(key, val), (name, key, pretty val)) <$> dm_iter m)
             = (dm_iter m ≫= λ kv, [(name, kv.1, pretty kv.2)])).
  2:{ induction (dm_iter m) as [|[key v] l IH]; [done|]. cbn. by rewrite IH. }
  eapply (reads_foldl _ (λ kv, name +:+ "{" +:+ label_str kv.1 +:+ "} " +:+ pretty kv.2 +:+ nl)).
  - by intros out [key v].
  - intros [key v] Hin. apply reads_sample; [done| |apply pretty_free].
    by apply (proj1 (Forall_forall _ _) (plain_iter m Hm) (key, v)).
  - rewrite -(string_app_assoc " ") -(string_app_assoc name). by apply reads_type.
Qed.

(** A bucket of a histogram is a sample with one label more. *)
Lemma reads_bucket (name : string) key le (c : Z) :
  plain_name (name +:+ "_bucket") = true → plain_labels key = true → escape_label le = le →
  reads_as (name +:+ "_bucket{" +:+ (if bool_decide (label_str key = "") then "" else label_str key +:+ ",")
            +:+ "le=" +:+ quote +:+ le +:+ quote +:+ "} " +:+ pretty c +:+ nl)
    [(name +:+ "_bucket", key ++ [("le", le)], pretty c)].
Proof.
  intros Hn Hk Hle.
  pose proof (reads_sample (name +:+ "_bucket") (key ++ [("le", le)]) (pretty c) Hn) as Hs.
  rewrite label_str_snoc /label_pair /= Hle !string_app_assoc in Hs. apply Hs; [|apply pretty_free].
  rewrite /plain_labels forallb_app. by apply andb_true_iff.
Qed.

Lemma reads_hist (name : string) key h :
  plain_name (name +:+ "_bucket") = true → plain_name (name +:+ "_sum") = true → plain_name (name +:+ "_count") = true →
  plain_labels key = true → reads_as (hist_lines name key h) (hist_samples name key h).
Proof.
  intros Hb Hs Hc Hk. rewrite /hist_lines /hist_samples. cbn zeta. apply reads_app.
  - assert (∀ bs cs : list Z, Forall (λ b, escape_label (pretty b) = pretty b) bs →
      reads_as (foldr (λ x s, x +:+ s) "" (zip_with (λ b c, name +:+ "_bucket{"
        +:+ (if bool_decide (label_str key = "") then "" else label_str key +:+ ",")
        +:+ "le=" +:+ quote +:+ pretty b +:+ quote +:+ "} " +:+ pretty c +:+ nl) bs cs))
       (zip_with (λ b c, (name +:+ "_bucket", key ++ [("le", pretty b)], pretty c)) bs cs)) as Hz.
    { induction bs as [|b bs IH]; intros [|c cs] Hbs; try apply reads_nil. apply Forall_cons in Hbs as [Eb Hbs].
      cbn [zip_with foldr]. apply (reads_app _ _ [_]); [by apply reads_bucket|by apply IH]. }
    apply Hz. by repeat constructor.
  - apply (reads_app _ _ [_]); [by apply reads_bucket|].
    pose proof (reads_app _ _ _ _ (reads_sample _ key (pretty (h_sum h)) Hs Hk (pretty_free _))
      (reads_sample _ key (pretty (h_count h)) Hc Hk (pretty_free _))) as Hsc.
    rewrite !string_app_assoc in Hsc. exact Hsc.
Qed.

Lemma reads_histogram (name : string) m :
  plain_name (name +:+ "_bucket") = true → plain_name (name +:+ "_sum") = true → plain_name (name +:+ "_count") = true →
  free_of [ch_newline] (name +:+ " histogram") = true → plain_map m →
  reads_as (histogram_render name m) (dm_iter m ≫= λ '(key, h), hist_samples name key h).
Proof.
  intros Hb Hs Hc Hn Hm. rewrite /histogram_render -(app_nil_l (dm_iter m ≫= _)).
  eapply (reads_foldl _ (λ kv, hist_lines name kv.1 kv.2)).
  - by intros out [key h].
  - intros [key h] Hin. apply reads_hist; [done..|].
    by apply (proj1 (Forall_forall _ _) (plain_iter m Hm) (key, h)).
  - rewrite -(string_app_assoc name). by apply reads_type.
Qed.

Lemma reads_extra extra :
  Forall (λ kv : string * Z, plain_name kv.1 = true) extra →
  reads_as (foldr (λ '(k, v) s, k +:+ " " +:+ pretty v +:+ nl +:+ s) "" extra) ((λ '(k, v), (k, [], pretty v)) <$> extra).
Proof.
  induction 1 as [|[k v] extra Hk _ IH]; [apply reads_nil|]. cbn.
  pose proof (reads_app _ _ _ _ (reads_bare k (pretty v) Hk (pretty_free v)) IH) as Hx.
  rewrite !string_app_assoc in Hx. exact Hx.
Qed.

(** The maps of the registry have words as label names. *)
Definition plain_metrics (g : GatewayMetrics) : Prop :=
  plain_map (ws_upgrades g) ∧ plain_map (ws_active_sessions g) ∧ plain_map (policy_decisions g)
  ∧ plain_map (handshake_rejections g) ∧ plain_map (dispatch_duration g) ∧ plain_map (decode_errors g)
  ∧ plain_map (service_errors g) ∧ plain_map (writer_timeouts g) ∧ plain_map (unknown_service_errors g).

Lemma reads_metrics g extra :
  plain_metrics g → Forall (λ kv : string * Z, plain_name kv.1 = true) extra →
  reads_as (metrics_render g extra) (metrics_samples g extra).
Proof.
  intros (? & ? & ? & ? & ? & ? & ? & ? & ?) Hx. rewrite /metrics_render /metrics_samples.
  do 4 (apply reads_app; [by apply reads_series|]).
  apply reads_app; [by apply reads_histogram|].
  do 4 (apply reads_app; [by apply reads_series|]).
  pose proof (reads_app _ _ _ _ (reads_type "wsprism_draining gauge" eq_refl)
    (reads_app _ _ _ _ (reads_bare "wsprism_draining" (if draining g then "1" else "0") eq_refl
       ltac:(by destruct (draining g))) (reads_extra extra Hx))) as Ht.
  rewrite !string_app_assoc in Ht. exact Ht.
Qed.
End page.

(** ** In every run *)

Section keep.
Context {Bytes : Type} `{!BytesOps Bytes, !BytesFrom Bytes, !SerdeJson, !DashOrder, !Mpsc}.

Lemma plain_sort l : plain_labels l = true → plain_labels (sort_labels l) = true.
Proof.
  rewrite /plain_labels !forallb_forall. intros Hl x Hx. apply Hl, list_elem_of_In.
  rewrite -(sort_labels_perm l). by apply list_elem_of_In.
Qed.

Lemma plain_insert {A} (m : gmap labels A) l v :
  plain_labels l = true → plain_map m → plain_map (<[sort_labels l := v]> m).
Proof. intros Hl Hm key x [[<- _]|[_ Hk]]%lookup_insert_Some; [by apply plain_sort|by eapply Hm]. Qed.

Lemma plain_step g g' : plain_metrics g → metric_step g g' → plain_metrics g'.
Proof.
  intros (? & ? & ? & ? & ? & ? & ? & ? & ?) Hs. destruct Hs; split_and!; try done; by apply plain_insert.
Qed.

Lemma plain_withstands : withstands (λ st : AppState Bytes, plain_metrics (a_metrics st)) (λ _, True).
Proof. split; try done. intros st m Hp Hm. by eapply plain_step. Qed.

Lemma plain_reach cfg n (sys : System Bytes) : sys_reach cfg n sys → plain_metrics (a_metrics (sy_app sys)).
Proof.
  induction 1 as [now c app Hnew|n sys a _ IH _]; cbn.
  - apply app_new_fields in Hnew as [_ ->]. by split_and!; intros key v Hk.
  - by apply (sys_exec_good _ _ plain_withstands sys a).
Qed.

(** The counter of unknown services is rendered, and never incremented. *)
Lemma unknown_service_silent cfg n (sys : System Bytes) :
  sys_reach cfg n sys → unknown_service_errors (a_metrics (sy_app sys)) = ∅.
Proof.
  assert (withstands (λ st : AppState Bytes, unknown_service_errors (a_metrics st) = ∅) (λ _, True)) as Hw.
  { split; try done. intros st m Hu Hm. by destruct Hm. }
  induction 1 as [now c app Hnew|n sys a _ IH _]; cbn; [|by apply (sys_exec_good _ _ Hw sys a)].
  by apply app_new_fields in Hnew as [_ ->].
Qed.
End keep.

(** C33: the metrics page says what the registry holds. In every state that
    the gateway can reach, a reader of the text format that takes the page of
    [/metrics] character by character accepts it, and finds exactly the
    series of the registry, with their labels and values, in the order of the
    maps: one sample for each series of a counter or gauge, the buckets, the
    sum and the count of each series of the histogram, the draining flag and
    the two egress counters.  No label value, among them the tenant that an unauthenticated
    request names, can forge a sample, end a line or change another one. *)
Theorem metrics_page_faithful {Bytes : Type} `{!BytesOps Bytes, !BytesFrom Bytes, !SerdeJson, !DashOrder,
    !DashOrderLaws, !Mpsc} cfg n (sys : System Bytes) :
  sys_reach cfg n sys →
  read_page (rsp_body (metrics_endpoint (sy_app sys)))
  = Some (metrics_samples (a_metrics (sy_app sys)) (metrics_extra (sy_app sys))).
Proof.
  intros Hr. rewrite /read_page. cbn [rsp_body metrics_endpoint].
  rewrite (reads_metrics _ _ (plain_reach _ _ _ Hr)); [done|]. by repeat constructor.
Qed.

(** A caller that names a tenant which looks like the end of a line. *)
Definition forger : Act :=
  AUpgrade false Visitor.clocks (V4 0)
    (mkWsQuery ("x" +:+ quote +:+ "} 1" +:+ nl +:+ "wsprism_draining 1" +:+ nl) "dev" None).

Import MiniJson.

Lemma metrics_page_faithful_witness :
  let sys := Meeting.system (Meeting.meet ++ [forger]) in
  read_page (rsp_body (metrics_endpoint (sy_app sys)))
  = Some (metrics_samples (a_metrics (sy_app sys)) (metrics_extra (sy_app sys)))
  ∧ List.filter (λ x : sample, bool_decide (x.1.1 = "wsprism_draining"))
      (metrics_samples (a_metrics (sy_app sys)) (metrics_extra (sy_app sys))) = [("wsprism_draining", [], "0")].
Proof.
  intros sys. split; [|by vm_compute].
  apply (metrics_page_faithful Gateway.cfg (length (Meeting.meet ++ [forger]) + 0)).
  apply Meeting.reach. by vm_compute.
Defined.
