(* ===== verification/Outbound.v ===== *)
(** * What a session writes, in order

    The outbound channel of a session is fed by the tasks of all sessions and
    by shutdown, and emptied by its own task ([run_session] of
    transport/ws.rs).  Along every run of the gateway it is a queue: what the
    task has tried to write to its socket, followed by what waits, only gets longer at its end.  A write
    succeeds, fails, which the loop does not see, or is late, which ends the loop. *)

From S2P Require Import Prelude Errors RustStd HotFrame Config Allowlist TokenBucket Policy Dash.
From S2P Require Import SessionRegistry Presence Keys Channel Envelope Realtime Codec Dispatch.
From S2P Require Import Handshake Metrics NetAddr AppState Ws Session Admission System Safety Effects Tenancy.

(** ** What is only sent to *)

Section sends.
Context {Bytes : Type} `{!BytesOps Bytes, !BytesFrom Bytes, !SerdeJson, !DashOrder, !Mpsc}.
Context (P : chans → Prop) (HP : ∀ c tx m, P c → P (try_send c tx m).2).
Implicit Types (w : World) (c : chans).

Lemma sends_one w tx m res c : try_send (w_chans w) tx m = (res, c) → P (w_chans w) → P c.
Proof using HP. intros E Hp. change c with (res, c).2. rewrite -E. by apply HP. Qed.

Lemma sends_push m text w conn : P (w_chans w) → P (w_chans (push m text w conn)).
Proof using HP. intros Hw. rewrite /push. destruct (try_send _ _ _) as [[] c] eqn:E; by eapply sends_one. Qed.

Lemma sends_fut_step dt m fs ev :
  no_other ev = true → P (w_chans (fs_world fs)) → P (w_chans (fs_world (fut_step dt m fs ev))).
Proof using HP.
  intros Hev Hw. destruct ev as [i|i|c]; cbn [fut_step]; [| |done].
  - destruct (fs_pending fs !! i); [|done]. destruct (try_send _ _ _) as [[] c'] eqn:Es.
    + by eapply sends_one.
    + done.
    + by destruct dt.
  - destruct (fs_pending fs !! i); [|done]. by destruct dt.
Qed.

(** The services of the gateway only send. *)
Lemma sends_text evs w ctx env :
  forallb no_other evs = true → P (w_chans w) →
  P (w_chans (dispatch_text (builtin_dispatcher (Bytes := Bytes)) evs w ctx env).2).
Proof using HP.
  intros Hev Hw. rewrite /dispatch_text. cbn [d_text builtin_dispatcher register_hot register_text].
  rewrite lookup_insert. case_decide; [|done]. cbn. rewrite /chat_handle.
  destruct (bool_decide _); [|done]. destruct (chat_request env) as [[room msg]|]; [|done].
  rewrite /ctx_publish_room_reliable /core_publish_room_reliable. destruct (prepare _) as [p|]; [|done]. cbn [snd].
  generalize (room_conns (w_core w) (room_key (ctx_tenant ctx) room)) ([] : list (Connection * FutEnd)).
  intros pending ended. assert (P (w_chans (fs_world (mkFutState w pending ended)))) as Hfs by done.
  revert Hfs. generalize (mkFutState w pending ended). clear Hw.
  induction evs as [|ev evs IH]; intros fs Hfs; [done|]. cbn in Hev |- *. apply andb_true_iff in Hev as [Hev Hevs].
  apply IH; [done|]. by apply sends_fut_step.
Qed.

Lemma sends_hot evs w ctx frame :
  P (w_chans w) → P (w_chans (dispatch_hot (builtin_dispatcher (Bytes := Bytes)) evs w ctx frame).2).
Proof using HP.
  intros Hw. rewrite /dispatch_hot. cbn [d_hot builtin_dispatcher register_hot register_text].
  rewrite lookup_insert. case_decide; [|done]. cbn. rewrite /echo_handle_binary.
  destruct (ctx_active_room ctx) as [room|].
  - rewrite /ctx_publish_room_lossy /core_publish_room_lossy. destruct (prepare _); [|done]. cbn.
    generalize (sessions_in (presence (w_core w)) (room_key (ctx_tenant ctx) room)). intros l. revert w Hw.
    induction l as [|k l IH]; intros w Hw; [done|]. cbn. apply IH.
    destruct (get_session _ _); [by apply sends_push|done].
  - rewrite /ctx_send_to_session /core_send_to_session. destruct (get_session _ _); [|done].
    destruct (prepare _); [by apply sends_push|done].
Qed.
End sends.

Section fifo.
Context {Bytes : Type} `{!BytesOps Bytes, !BytesFrom Bytes, !SerdeJson, !DashOrder, !Mpsc, HL : !MpscLaws}.
Implicit Types (st : AppState Bytes) (tk : Task) (sys : System Bytes) (c : chans).

(** ** Tasks and their channels *)

(** What was made stays made. *)
Definition made_scope : Scope :=
  mkScope _ (λ _, True) (λ _, True) (λ c tx, ch_made c tx = true) (λ _, True) (λ _ _, True)
    (λ _ _, True).

Lemma made_step c c' tx : chan_step made_scope c c' → ch_made c tx = true → ch_made c' tx = true.
Proof using Type*.
  intros [tx' m _|n|tx' m c'' _ E|tx' _] Hm; [by apply made_send|by apply made_channel|by eapply made_recv|by apply made_drop].
Qed.

Definition made_app (known : nat → Prop) st : Prop :=
  a_dispatcher st = builtin_dispatcher ∧ ∀ tx, known tx → ch_made (w_chans (a_world st)) tx = true.

Lemma made_sends (known : nat → Prop) c tx m :
  (∀ tx, known tx → ch_made c tx = true) → ∀ tx', known tx' → ch_made (try_send c tx m).2 tx' = true.
Proof using Type*. intros Hm tx' Hk. by apply made_send, Hm. Qed.

Lemma made_withstands known : withstands_in made_scope (made_app known) (λ _, True).
Proof using Type*.
  split; try done.
  - intros st c [Hd Hm] Hs. split; [done|]. intros tx Hk. by eapply made_step; [|apply Hm].
  - intros st n tx c _ E. split_and!; [done..|]. by apply made_new in E as [_ ?].
  - intros c tx c' Hm Hs. by eapply made_step.
  - intros st m text conn [Hd Hm] _. split; [done|]. by apply (sends_push _ (made_sends known)).
  - intros st evs t u sid trace active env [Hd Hm] _ Hev. split; [done|]. rewrite Hd.
    by apply (sends_text _ (made_sends known)).
  - intros st evs t u sid trace active frame [Hd Hm] _ Hev. split; [done|]. rewrite Hd.
    by apply (sends_hot _ (made_sends known)).
Qed.

(** Each task is known by its channel, which was made. *)
Definition wired sys : Prop :=
  a_dispatcher (sy_app sys) = builtin_dispatcher
  ∧ ∀ tx tk s, sy_tasks sys !! tx = Some (tk, s) →
      tk_tx tk = tx ∧ ch_made (w_chans (a_world (sy_app sys))) tx = true.

(** Where the tasks come from that there are after an act. *)
Lemma exec_task sys a tx tk' s' :
  sy_tasks (sys_exec sys a) !! tx = Some (tk', s') →
  (∃ tk s, sy_tasks sys !! tx = Some (tk, s) ∧ tk_tx tk' = tk_tx tk)
  ∨ (tk_tx tk' = tx ∧ ∃ i now nanos q,
       sy_upgraded sys !! i = Some q ∧ a = AOpen i now nanos
       ∧ (session_open now nanos (sy_app sys) q).1 = Running tk').
Proof using Type.
  assert (∀ tx1 tk1 s1 tk2 s2, sy_tasks sys !! tx1 = Some (tk1, s1) → tk_tx tk2 = tk_tx tk1 →
    <[tx1 := (tk2, s2)]> (sy_tasks sys) !! tx = Some (tk', s') →
    ∃ tk s, sy_tasks sys !! tx = Some (tk, s) ∧ tk_tx tk' = tk_tx tk) as Hins.
  { intros tx1 tk1 s1 tk2 s2 Htx1 E Htx. rewrite lookup_insert in Htx. case_decide; [|eauto]. simplify_eq. eauto. }
  destruct a as [reentrant ck ip q|i now nanos|tx' ev|tx' fe|tx' ns|tx'|reason]; cbn [sys_exec].
  - destruct (ws_upgrade _ _ _ _ _). cbn. eauto.
  - destruct (sy_upgraded sys !! i) as [q|] eqn:Ei; [|eauto].
    destruct (session_open _ _ _ _) as [[tk| | |] st] eqn:Eo; cbn; [|eauto..].
    rewrite lookup_insert. case_decide; [|eauto]. intros [= <- _]. right. split; [done|].
    exists i, now, nanos, q. by rewrite Eo.
  - destruct (sy_tasks sys !! tx') as [[tk [|p| |]]|] eqn:E; [|eauto..]. rewrite /begin_event.
    pose proof (on_event_same (first_part ev) tk (sy_app sys)) as Hsame.
    destruct (on_event _ _ _) as [[flow tk1] st]. cbn. injection Hsame as _ _ _ Esame _. eauto.
  - destruct (sy_tasks sys !! tx') as [[tk [|p| |]]|] eqn:E; [eauto| |eauto..]. destruct (no_other fe); cbn; eauto.
  - destruct (sy_tasks sys !! tx') as [[tk [|p| |]]|] eqn:E; [eauto| |eauto..]. destruct (pb_pending p); cbn; eauto.
  - destruct (sy_tasks sys !! tx') as [[tk [|p| |]]|] eqn:E; [eauto|eauto| |eauto..]. cbn.
    intros [_ ?]%lookup_delete_Some. eauto.
  - cbn. eauto.
Qed.

Lemma made_act_in sys a : act_in made_scope sys a.
Proof using Type.
  destruct a as [| |tx ev|tx fe| |tx|]; cbn; try done.
  - intros tk s _. by destruct ev.
  - intros tk p _. by apply Forall_true.
  - by apply Forall_true.
Qed.

Lemma wired_exec sys a : wired sys → wired (sys_exec sys a).
Proof using Type*.
  intros [Hd Hw].
  assert (good_system (made_app (λ tx, ch_made (w_chans (a_world (sy_app sys))) tx = true)) (λ _, True) sys) as Hg by done.
  destruct (sys_exec_in _ _ _ (made_withstands _) sys a (made_act_in sys a) Hg) as [[Hd' Hm] _].
  split; [done|]. intros tx tk' s' Htx.
  destruct (exec_task sys a tx tk' s' Htx) as [(tk & s & Htx0 & E)|(E & i & now & nanos & q & Ei & -> & Eo)].
  - destruct (Hw _ _ _ Htx0) as [<- Hmade]. split; [done|by apply Hm].
  - split; [done|].
    pose proof (session_open_good _ _ _ (made_withstands (λ _, False)) now nanos (sy_app sys) q I
      ltac:(by split)) as [_ Ho].
    rewrite Eo E in Ho. destruct Ho as (_ & _ & _ & Hlive). cbn in Hlive |- *. rewrite Ei.
    by destruct (session_open _ _ _ _) as [o st].
Qed.

(** ** Queues that grow *)

Section kept.
Context (tx0 : nat) (base : list Message) (writes : list (Message * WriteEnd)).

(** The channel was made, and its queue begins with [base]. *)
Definition grown c : Prop := ch_made c tx0 = true ∧ base `prefix_of` ch_queue c tx0.

Lemma grown_send c tx m : grown c → grown (try_send c tx m).2.
Proof using Type*.
  intros [Hm Hb]. split; [by apply made_send|]. destruct (try_send c tx m) as [res c'] eqn:E.
  destruct (try_send_spec _ _ _ _ _ E) as (_ & _ & Hq & _). cbn. rewrite Hq. by apply prefix_app_r.
Qed.

Lemma grown_step c c' : chan_step (anywhere (λ tx, tx ≠ tx0)) c c' → grown c → grown c'.
Proof using Type*.
  intros Hs [Hm Hb]. destruct Hs as [tx m _|n|tx m c' Hne Er|tx Hne].
  - by apply grown_send.
  - split; [by apply made_channel|]. destruct (mpsc_channel c n) as [tx c'] eqn:E. cbn.
    destruct (mpsc_channel_new _ _ _ _ E) as (_ & _ & _ & _ & Hsame). destruct (made_new _ _ _ _ E) as [Hf _].
    destruct (Hsame tx0) as [-> _]; [|done]. intros ->. congruence.
  - split; [by eapply made_recv|]. pose proof (recv_first c tx) as Hr. rewrite Er in Hr.
    destruct Hr as (_ & _ & _ & Hsame). by destruct (Hsame tx0 (not_eq_sym Hne)) as [-> _].
  - split; [by apply made_drop|]. destruct (drop_rx_closed c tx) as [_ Hsame].
    by destruct (Hsame tx0 (not_eq_sym Hne)) as [-> _].
Qed.

(** The queue begins with [base], and its task has tried [writes]. *)
Definition fifo_app st : Prop := a_dispatcher st = builtin_dispatcher ∧ grown (w_chans (a_world st)).
Definition fifo_task tk : Prop := tk_tx tk = tx0 → tk_writes tk = writes.

Lemma fifo_withstands : withstands_in (anywhere (λ tx, tx ≠ tx0)) fifo_app fifo_task.
Proof using Type*.
  split; try done.
  - intros st c [Hd Hg] Hs. split; [done|]. by eapply grown_step.
  - intros st n tx c [_ [Hm _]] E. apply made_new in E as [Hf _]. split; [|done]. intros ->. congruence.
  - intros st m text conn [Hd Hg] _. split; [done|by apply (sends_push _ grown_send)].
  - intros st evs t u sid trace active env [Hd Hg] _ Hev. split; [done|]. rewrite Hd. by apply (sends_text _ grown_send).
  - intros st evs t u sid trace active frame [Hd Hg] _ Hev. split; [done|]. rewrite Hd. by apply (sends_hot _ grown_send).
  - intros tk m w _ Hne Htx. by destruct Hne.
  - intros st id rt t u sid trace tx lim now _ _ Hne _ Htx. by destruct Hne.
Qed.
End kept.

(** A task that does not end stays. *)
Lemma exec_keeps sys a tx tk s :
  sy_tasks sys !! tx = Some (tk, s) → a ≠ AEnd tx → is_Some (sy_tasks (sys_exec sys a) !! tx).
Proof using Type.
  intros Htx Hne.
  assert (∀ tx' x, is_Some (<[tx' := x]> (sy_tasks sys) !! tx)) as Hins
    by (intros tx' x; rewrite lookup_insert; case_decide; eauto).
  destruct a as [reentrant ck ip q|i now nanos|tx' ev|tx' fe|tx' ns|tx'|reason]; cbn [sys_exec].
  - destruct (ws_upgrade _ _ _ _ _). cbn. eauto.
  - destruct (sy_upgraded sys !! i); [|eauto]. destruct (session_open _ _ _ _) as [[] st]; cbn; eauto.
  - destruct (sy_tasks sys !! tx') as [[tk' []]|]; eauto. destruct (begin_event _ _ _) as [[? ?] ?]. cbn. eauto.
  - destruct (sy_tasks sys !! tx') as [[tk' [|p| |]]|]; eauto. destruct (no_other fe); cbn; eauto.
  - destruct (sy_tasks sys !! tx') as [[tk' [|p| |]]|]; eauto. destruct (pb_pending p); cbn; eauto.
  - destruct (sy_tasks sys !! tx') as [[tk' [|p| |]]|]; eauto. cbn. rewrite lookup_delete_ne; [eauto|].
    intros ->. by destruct Hne.
  - cbn. eauto.
Qed.

(** ** What a task writes *)

(** The messages whose writes were tried, in order, and those that wait. *)
Definition outbound sys (tx : nat) tk : list Message :=
  (tk_writes tk).*1 ++ ch_queue (w_chans (a_world (sy_app sys))) tx.

(** A write that was late. *)
Definition late (x : Message * WriteEnd) : bool := bool_decide (x.2 = WriteTimedOut).

(** The last write may be late, and the task then only ends; the others are not. *)
Definition punctual tk (s : Status) : Prop :=
  existsb late (tk_writes tk) = false
  ∨ s = SEnding ∧ ∃ ws x, tk_writes tk = ws ++ [x] ∧ existsb late ws = false.

(** A write moves the first message of the queue to the socket. *)
Lemma write_moves sys tx tk s w :
  tk_tx tk = tx → sy_tasks sys !! tx = Some (tk, s) → punctual tk s →
  let sys' := sys_exec sys (AEvent tx (EvOut w)) in
  ∃ tk' s', sy_tasks sys' !! tx = Some (tk', s') ∧ outbound sys' tx tk' = outbound sys tx tk
            ∧ tk_writes tk `prefix_of` tk_writes tk' ∧ punctual tk' s'.
Proof using Type*.
  intros Etx Htx Hp. cbn [sys_exec]. rewrite Htx. destruct s; [|by exists tk; eauto..].
  destruct Hp as [Hp|[[=] _]]. rewrite /begin_event. cbn [first_part on_event]. rewrite /on_out Etx.
  pose proof (recv_first (w_chans (a_world (sy_app sys))) tx) as Hr.
  destruct (recv _ _) as [[m c]|]; cbn [event_publish event_envelope]; last first.
  { cbn [set_task sy_tasks]. rewrite lookup_insert_eq. do 2 eexists. split; [done|]. split_and!; [done..|by left]. }
  destruct Hr as (Hq & _). cbv zeta.
  assert (∀ flow st s, a_world st = a_world (set_app_chans (sy_app sys) c) → status_of flow None = s →
    (w = WriteTimedOut → s = SEnding) →
    ∃ tk' s', sy_tasks (set_task sys st tx (add_write tk m w, s)) !! tx = Some (tk', s')
      ∧ outbound (set_task sys st tx (add_write tk m w, s)) tx tk' = outbound sys tx tk
      ∧ tk_writes tk `prefix_of` tk_writes tk' ∧ punctual tk' s') as Hdone.
  { intros flow st s Ew _ Hend. exists (add_write tk m w), s. cbn [set_task sy_tasks]. rewrite lookup_insert_eq.
    split; [done|]. rewrite /outbound /= Ew /= Hq fmap_app -app_assoc. split_and!; [done|by apply prefix_app_r|].
    destruct (decide (w = WriteTimedOut)) as [->|Hw]; [right; split; [by apply Hend|by do 2 eexists]|left].
    cbn. rewrite existsb_app Hp /= /late bool_decide_false //. }
  destruct w; (eapply Hdone; [done|done|by intros]).
Qed.

(** A session that opens has a channel of its own. *)
Lemma opened_new now nanos st q tk tx :
  a_dispatcher st = builtin_dispatcher → ch_made (w_chans (a_world st)) tx = true →
  (session_open now nanos st q).1 = Running tk → tk_tx tk ≠ tx.
Proof using Type*.
  intros Hd Hm Eo E.
  assert (∀ ws, tk_writes tk = ws) as Hw.
  { intros ws. destruct (session_open_good _ _ _ (fifo_withstands tx [] ws) now nanos st q I
      ltac:(split; [done|split; [done|apply prefix_nil]])) as [_ Ho].
    rewrite Eo in Ho. by apply Ho. }
  pose proof (Hw []) as E1. pose proof (Hw [(MClose None, Written)]) as E2. congruence.
Qed.

(** A task that is ending stays so. *)
Lemma exec_ending sys a tx tk :
  wired sys → sy_tasks sys !! tx = Some (tk, SEnding) → a ≠ AEnd tx →
  sy_tasks (sys_exec sys a) !! tx = Some (tk, SEnding).
Proof using Type*.
  intros [Hd Hw] Htx Hne. destruct (Hw _ _ _ Htx) as [_ Hm].
  assert (∀ tx' x, tx' ≠ tx → <[tx' := x]> (sy_tasks sys) !! tx = Some (tk, SEnding)) as Hins
    by (intros; by rewrite lookup_insert_ne).
  destruct a as [reentrant ck ip q|i now nanos|tx' ev|tx' fe|tx' ns|tx'|reason]; cbn [sys_exec].
  - by destruct (ws_upgrade _ _ _ _ _).
  - destruct (sy_upgraded sys !! i) as [q|] eqn:Ei; [|done].
    destruct (session_open _ _ _ _) as [[tk'| | |] st] eqn:Eo; cbn [sy_tasks]; [|done..].
    apply Hins. eapply (opened_new now nanos (sy_app sys) q); [done|done|by rewrite Eo].
  - destruct (sy_tasks sys !! tx') as [[tk' [|p| |]]|] eqn:E; [|done..].
    destruct (begin_event _ _ _) as [[? ?] ?]. apply Hins. congruence.
  - destruct (sy_tasks sys !! tx') as [[tk' [|p| |]]|] eqn:E; [done| |done..]. destruct (no_other fe); [|done].
    apply Hins. congruence.
  - destruct (sy_tasks sys !! tx') as [[tk' [|p| |]]|] eqn:E; [done| |done..]. destruct (pb_pending p); [|done].
    apply Hins. congruence.
  - destruct (sy_tasks sys !! tx') as [[tk' [|p| |]]|] eqn:E; [done|done| |done..]. cbn. rewrite lookup_delete_ne //. congruence.
  - done.
Qed.

(** It has not written yet. *)
Lemma registered_writes now rt st t u sid trace tx tk :
  (session_register now rt st t u sid trace tx).1 = Running tk → tk_writes tk = [].
Proof using Type.
  rewrite /session_register. destruct (find_tenant _ _); [|done]. cbv zeta.
  destruct (try_insert _ _ _ _ _ _) as [[[]|e] r]; [|done]. destruct (try_send _ _ _) as [[] c]; [|done..].
  by intros [= <-].
Qed.

Lemma opened_writes now nanos st q tk : (session_open now nanos st q).1 = Running tk → tk_writes tk = [].
Proof using Type.
  rewrite /session_open. destruct (tenant_policy _ _); [|done]. destruct (resolve_ticket _); [|done].
  destruct (take_sid _ _) as [sid st1]. destruct (gen_trace _ _) as [trace st2]. cbv zeta.
  destruct (mpsc_channel _ _) as [tx c]. destruct (_ <=? _); [|apply registered_writes].
  destruct (on_exceed _); [|apply registered_writes]. by destruct (try_send _ _ _).
Qed.

Definition fifo_kept sys sys' tx tk : Prop :=
  ∃ tk' s', sy_tasks sys' !! tx = Some (tk', s') ∧ outbound sys tx tk `prefix_of` outbound sys' tx tk'
            ∧ tk_writes tk `prefix_of` tk_writes tk' ∧ punctual tk' s'.

Lemma fifo_step sys a tx tk s :
  wired sys → sy_tasks sys !! tx = Some (tk, s) → punctual tk s → a ≠ AEnd tx → fifo_kept sys (sys_exec sys a) tx tk.
Proof using Type*.
  intros Hwired Htx Hp Hend. pose proof Hwired as [Hd Hw]. destruct (Hw _ _ _ Htx) as [Etx Hmade].
  assert ((∃ w, a = AEvent tx (EvOut w)) ∨ ∀ w, a ≠ AEvent tx (EvOut w)) as [[w ->]|Hout].
  { destruct a as [| |tx' []| | | |]; try by right. destruct (decide (tx' = tx)) as [->|]; [left; eauto|right; by intros ? [=]]. }
  { destruct (write_moves sys tx tk s w Etx Htx Hp) as (tk' & s' & ? & E & ? & ?). exists tk', s'. by rewrite E. }
  destruct (exec_keeps sys a tx tk s Htx Hend) as [[tk' s'] Htx'].
  set (base := ch_queue (w_chans (a_world (sy_app sys))) tx).
  assert (good_system (fifo_app tx base) (fifo_task tx (tk_writes tk)) sys) as Hg.
  { split; [by split|]. intros tx1 [tk1 s1] Htx1 E. cbn in *. destruct (Hw _ _ _ Htx1) as [E1 _]. congruence. }
  apply (sys_exec_in _ _ _ (fifo_withstands tx base (tk_writes tk)) sys a) in Hg as [[_ [_ Hq]] Ht].
  - exists tk', s'. split; [done|]. destruct (proj2 (wired_exec sys a Hwired) _ _ _ Htx') as [E' _].
    pose proof (Ht _ _ Htx' E') as Hwr. cbn in Hwr. rewrite /outbound /punctual Hwr.
    split_and!; [by apply prefix_app|done|]. destruct Hp as [?|[-> ?]]; [by left|right].
    rewrite (exec_ending sys a tx tk Hwired Htx Hend) in Htx'. by injection Htx' as _ <-.
  - apply act_uses_in. destruct a as [| |tx1 [w| | |]| | |tx1|]; try done; intros tk1 s1 Htx1; destruct (Hw _ _ _ Htx1) as [-> _].
    + intros ->. by destruct (Hout w).
    + by intros ->.
Qed.

Lemma fifo_run sys acts tx tk s :
  wired sys → sy_tasks sys !! tx = Some (tk, s) → punctual tk s → AEnd tx ∉ acts →
  fifo_kept sys (foldl sys_exec sys acts) tx tk.
Proof using Type*.
  revert sys tk s. induction acts as [|a acts IH]; intros sys tk s Hw Htx Hp He; [by exists tk, s|].
  apply not_elem_of_cons in He as [He0 He]. cbn.
  destruct (fifo_step sys a tx tk s Hw Htx Hp (not_eq_sym He0)) as (tk1 & s1 & Htx1 & Hp1 & Hw1 & Hpun).
  destruct (IH _ tk1 s1 (wired_exec sys a Hw) Htx1 Hpun He) as (tk2 & s2 & Htx2 & Hp2 & Hw2 & ?).
  exists tk2, s2. split_and!; [done|by etransitivity|by etransitivity|done].
Qed.

(** Each task of a run is punctual. *)
Definition all_punctual sys : Prop := wired sys ∧ ∀ tx tk s, sy_tasks sys !! tx = Some (tk, s) → punctual tk s.

Lemma punctual_exec sys a : all_punctual sys → all_punctual (sys_exec sys a).
Proof using Type*.
  intros [Hw Hp]. split; [by apply wired_exec|]. intros tx tk' s' Htx'.
  destruct (sy_tasks sys !! tx) as [[tk s]|] eqn:Htx.
  - assert (a = AEnd tx ∨ a ≠ AEnd tx) as [->|Hne].
    { destruct a as [| | | | |tx'|]; try by right. destruct (decide (tx' = tx)) as [->|]; [by left|right; by intros [=]]. }
    + cbn in Htx'. rewrite Htx in Htx'. destruct s as [|p| |]; cbn in Htx'; [by eapply Hp..| |by eapply Hp].
      by rewrite lookup_delete_eq in Htx'.
    + destruct (fifo_step sys a tx tk s Hw Htx (Hp _ _ _ Htx) Hne) as (? & ? & E & _ & _ & ?). congruence.
  - destruct (exec_task sys a tx tk' s' Htx') as [(? & ? & ? & _)|(E & i & now & nanos & q & Ei & -> & Eo)]; [congruence|].
    left. by rewrite (opened_writes _ _ _ _ _ Eo).
Qed.
Lemma punctual_run sys acts : all_punctual sys → all_punctual (foldl sys_exec sys acts).
Proof using Type*.
  revert sys. induction acts as [|a acts IH]; intros sys Hs; [done|]. by apply IH, punctual_exec.
Qed.

Lemma start_punctual cfg now cl (app : AppState Bytes) : app_new now cl cfg = Ok app → all_punctual (mkSystem app [] ∅).
Proof using Type.
  rewrite /app_new. destruct (compile_policies _ _ _) as [pol|]; [|done]. cbn.
  destruct (sanity_check _ _ _) as [log|]; [|done]. cbn. intros [= <-]. by split.
Qed.
End fifo.

(** C11: what is queued for a session is written in order. In any run of the gateway, by
    whatever acts of clients, tasks and shutdown: let a session's task be there after [acts], and let it not end
    during [later].  Then the messages that the task has tried to write, followed by those that wait in
    its channel, are afterwards what they were, with possibly more at the end; the writes tried before stay
    at the front; and if one of the writes was late, it is the last one and the task is about to end.  So a message that the channel has
    taken is neither doubled nor overtaken by another one, whichever tasks send to the
    session and however their sends interleave.  It is lost only by a write that fails: the
    loop does not see that, and goes on with the next message. *)
Theorem outbound_fifo {Bytes : Type} `{!BytesOps Bytes, !BytesFrom Bytes, !SerdeJson, !DashOrder,
    !Mpsc, !MpscLaws} cfg now cl (app : AppState Bytes) acts later tx tk s :
  app_new now cl cfg = Ok app →
  let sys := foldl sys_exec (mkSystem app [] ∅) acts in
  sy_tasks sys !! tx = Some (tk, s) → AEnd tx ∉ later →
  let sys' := foldl sys_exec sys later in
  ∃ tk' s' more, sy_tasks sys' !! tx = Some (tk', s') ∧ outbound sys' tx tk' = outbound sys tx tk ++ more
                 ∧ tk_writes tk `prefix_of` tk_writes tk' ∧ punctual tk' s'.
Proof.
  intros Hnew sys Htx He sys'.
  destruct (punctual_run _ acts (start_punctual cfg now cl app Hnew)) as [Hw Hp].
  destruct (fifo_run sys later tx tk s Hw Htx (Hp _ _ _ Htx) He) as (tk' & s' & Htx' & [more E] & ? & ?).
  by exists tk', s', more.
Qed.

Import MiniJson.

(** The second session of the meeting writes two of its messages; the socket fails at the first of them, is
    asked again, and is late at the last. *)
Definition writes : list Act :=
  [AEvent 1 (EvOut WriteFailed); AEvent 1 EvPing; AEvent 1 (EvOut Written); AEvent 1 (EvOut WriteTimedOut)].

Lemma ready_task (o : option (Task * Status)) :
  match o with Some (_, SReady) => true | _ => false end = true → ∃ tk, o = Some (tk, SReady).
Proof. destruct o as [[tk []]|]; try done. by exists tk. Qed.

Lemma outbound_fifo_witness :
  let sys := foldl sys_exec (mkSystem Meeting.start [] ∅) Meeting.meet in
  let sys' := foldl sys_exec sys writes in
  ∃ tk tk' s' more,
    sy_tasks sys !! 1%nat = Some (tk, SReady) ∧ sy_tasks sys' !! 1%nat = Some (tk', s')
    ∧ outbound sys' 1 tk' = outbound sys 1 tk ++ more ∧ tk_writes tk `prefix_of` tk_writes tk' ∧ punctual tk' s'.
Proof.
  intros sys sys'.
  assert (∃ tk, sy_tasks sys !! 1%nat = Some (tk, SReady)) as [tk E] by (apply ready_task; by vm_compute).
  destruct (outbound_fifo Gateway.cfg 0 ∅ Meeting.start Meeting.meet writes 1 tk SReady) as (tk' & s' & more & Hw).
  - exact Meeting.starts.
  - exact E.
  - intros Hin. repeat (apply elem_of_cons in Hin as [[=]|Hin]). by apply elem_of_nil in Hin.
  - exists tk, tk', s', more. exact (conj E Hw).
Defined.
