(* ===== verification/Typed.v ===== *)
(** * The types of the running gateway

    The integers of the model are unbounded, those of the program are not.
    This is the invariant that every integer of the state is a value of its
    type in the source, that token buckets never hold more than their
    capacity, and that the policy of a tenant stays the one compiled at
    startup.  It holds of every run, also of those in which the accounts go
    wrong. *)

From S2P Require Import Prelude Errors RustStd HotFrame Config Allowlist TokenBucket Policy Dash.
From S2P Require Import SessionRegistry Presence Keys Channel Envelope Realtime Codec Dispatch.
From S2P Require Import Handshake Metrics AppState Ws Session Admission System Safety Effects.

(** ** Metrics *)

Definition is_i64 (z : Z) : Prop := -9223372036854775808 ≤ z ≤ 9223372036854775807.

Lemma wrap_i64_range z : is_i64 (wrap_i64 z).
Proof.
  rewrite /is_i64 /wrap_i64.
  pose proof (Z.mod_pos_bound (z + 9223372036854775808) 18446744073709551616). lia.
Qed.

(** All the values of a table. *)
Abbreviation all_u64 := (map_Forall (λ _, is_u64)).

Record hist_typed (h : AtomicHistogram) : Prop := {
  ht_count : is_u64 (h_count h);
  ht_sum : is_u64 (h_sum h);
  ht_buckets : Forall is_u64 (h_buckets h);
  ht_length : length (h_buckets h) = length BUCKETS_MICROS;
}.

Record metrics_typed (g : GatewayMetrics) : Prop := {
  mt_upgrades : all_u64 (ws_upgrades g);
  mt_sessions : map_Forall (λ _, is_i64) (ws_active_sessions g);
  mt_decisions : all_u64 (policy_decisions g);
  mt_rejections : all_u64 (handshake_rejections g);
  mt_dispatch : map_Forall (λ _, hist_typed) (dispatch_duration g);
  mt_decode : all_u64 (decode_errors g);
  mt_service : all_u64 (service_errors g);
  mt_timeouts : all_u64 (writer_timeouts g);
  mt_unknown : all_u64 (unknown_service_errors g);
}.

Lemma counter_inc_typed m l : all_u64 m → all_u64 (counter_inc m l).
Proof. intros Hm. apply map_Forall_insert_2; [apply wrap64_range|done]. Qed.

Lemma gauge_add_typed m l v : map_Forall (λ _, is_i64) m → map_Forall (λ _, is_i64) (gauge_add m l v).
Proof. intros Hm. apply map_Forall_insert_2; [apply wrap_i64_range|done]. Qed.

Lemma hist_record_typed v h : hist_typed h → hist_typed (hist_record v h).
Proof.
  intros [Hc Hs Hb Hl]. split; cbn [h_count h_sum h_buckets hist_record];
    [apply wrap64_range|apply wrap64_range|by apply buckets_typed|].
  rewrite length_zip_with Hl. lia.
Qed.

Lemma observe_typed m l ns :
  map_Forall (λ _, hist_typed) m → map_Forall (λ _, hist_typed) (observe m l ns).
Proof.
  intros Hm. apply map_Forall_insert_2; [|done]. apply hist_record_typed.
  destruct (m !! sort_labels l) as [h|] eqn:E; [by eapply Hm|].
  split; cbn; [done|done|by repeat constructor|done].
Qed.

#[export] Hint Resolve counter_inc_typed gauge_add_typed observe_typed : wsprism.

Lemma metric_step_typed g g' : metric_step g g' → metrics_typed g → metrics_typed g'.
Proof. intros Hs [? ? ? ? ? ? ? ? ?]. destruct Hs; split; cbn; eauto with wsprism. Qed.

(** ** Registry and rooms *)

Record registry_typed (r : SessionRegistry) : Prop := {
  rt_seq : is_u64 (sr_seq r);
  rt_counts : all_u64 (sr_tenant_counts r);
  rt_sessions : map_Forall (λ _ e, is_u64 (se_created_seq e)) (sr_sessions r);
}.

Record presence_typed (p : Presence) : Prop := {
  pt_refs : all_u64 (user_room_refs p);
  pt_counts : all_u64 (tenant_room_counts p);
}.

Lemma all_u64_default (m : gmap string Z) k : all_u64 m → is_u64 (default 0 (m !! k)).
Proof. intros Hm. destruct (m !! k) eqn:E; [by eapply Hm|done]. Qed.

Lemma all_u64_insert (m : gmap string Z) k v : is_u64 v → all_u64 m → all_u64 (<[k := v]> m).
Proof. intros Hv Hm. by apply map_Forall_insert_2. Qed.

#[export] Hint Resolve all_u64_default all_u64_insert : wsprism.

Lemma remove_session_typed r u k : registry_typed r → registry_typed (remove_session r u k).2.
Proof.
  intros [Hs Hc He]. rewrite /remove_session. destruct (sr_sessions r !! k) as [e|]; [|by split].
  split; cbn; [done| |by apply map_Forall_delete].
  destruct (sr_tenant_counts r !! _); eauto with wsprism.
Qed.

Lemma reg_step_typed `{!DashOrder, !Mpsc} S c r r' : reg_step S c r r' → registry_typed r → registry_typed r'.
Proof.
  intros Hstep Hr. pose proof Hr as [Hs Hc He]. destruct Hstep as [t u k conn max _ _ _ _|t u k _ _|t u _].
  - rewrite /try_insert. destruct (_ && _); [split; cbn; eauto with wsprism|].
    destruct (_ && _); split; cbn; eauto with wsprism. by apply map_Forall_insert_2.
  - by apply remove_session_typed.
  - rewrite /evict_oldest. destruct (sr_user_index r !! _) as [set|]; [|done].
    destruct (foldl _ _ _) as [[k|] best]; [|done]. cbn. pose proof (remove_session_typed r (user_key t u) k Hr) as Hr'.
    by destruct (remove_session r _ k).
Qed.

Lemma leave_typed p t rk u k : presence_typed p → presence_typed (leave p t rk u k).
Proof.
  intros [Hr Hc]. split; cbn.
  - destruct (user_room_refs p !! _); cbn; [|done]. destruct (_ =? 0); eauto with wsprism.
    by apply map_Forall_delete.
  - destruct (match room_to_sessions p !! rk with Some _ => _ | None => _ end); [|done].
    destruct (tenant_room_counts p !! t); eauto with wsprism.
Qed.

Lemma pres_step_typed `{!DashOrder, !Mpsc} S p p' : pres_step S p p' → presence_typed p → presence_typed p'.
Proof.
  intros Hstep Hp. pose proof Hp as [Hr Hc]. destruct Hstep as [t room u k lim _ _|t room u k _ _|t u k _ _].
  - rewrite /try_join. destruct (at_limit _ _ _); [done|]. destruct (at_limit _ _ _); [done|].
    destruct (_ && _); [split; cbn; eauto with wsprism|].
    destruct (bool_decide _); split; cbn; eauto with wsprism.
  - by apply leave_typed.
  - rewrite /cleanup_session. destruct (session_to_rooms p !! k) as [rooms|]; [|done].
    set (p1 := mkPresence _ _ _ _ _ _). assert (presence_typed p1) as Hp1 by by split.
    generalize dependent p1. induction (ds_iter rooms) as [|rk l IH]; intros p1 Hp1; [done|].
    cbn. by apply IH, leave_typed.
Qed.

(** ** Policies *)

(** The limiter of a tenant: a bucket with the rate and the burst of its
    section. *)
Definition bucket_of (t : TenantConfig) (b : TokenBucket) : Prop :=
  tb_wf b ∧ tb_rps b = Z.max (rate_limit_rps (policy t)) 1
  ∧ tb_capacity b = Z.max (rate_limit_burst (policy t)) 1.

Record runtime_typed (t : TenantConfig) (rt : TenantPolicyRuntime) : Prop := {
  ru_compiled : compiled t rt;
  ru_limiter lim : tpr_tenant_limiter rt = Some lim → bucket_of t (rl_bucket lim);
}.

Lemma new_bucket_of t now :
  policy_typed (policy t) → bucket_of t (tb_new (rate_limit_rps (policy t)) (rate_limit_burst (policy t)) now).
Proof. intros (Hr & Hb & _). split; [by apply tb_new_wf|done]. Qed.

Lemma allow_bucket_of t checks now b ok b' :
  bucket_of t b → tb_allow checks now b = Done (ok, b') → bucket_of t b'.
Proof.
  intros (Hwf & Hr & Hc) E. destruct (tb_allow_inv checks now b ok b' Hwf E) as (Hwf' & Er & Ec & _).
  split_and!; [done|congruence|congruence].
Qed.

Lemma tpr_new_typed t now rt :
  policy_typed (policy t) →
  tpr_new (tenant_id t) (max_frame_bytes (limits t)) (policy t) now = Ok rt → runtime_typed t rt.
Proof.
  intros Hp E. split; [by eapply tpr_new_compiled|]. revert E. rewrite /tpr_new.
  destruct (compile_ext_rules _); [|done]. destruct (compile_hot_rules _); [|done]. cbn.
  intros [= <-] lim. cbn. destruct (rate_limit_scope _); [|done|]; intros [= <-]; by apply new_bucket_of.
Qed.

Lemma limiter_typed t checks now rt :
  runtime_typed t rt → runtime_typed t (tenant_limiter_allow checks now rt).2.
Proof.
  intros [Hc Hl]. split.
  { destruct (tenant_limiter_allow checks now rt) as [ok rt'] eqn:E.
    by eapply tenant_limiter_allow_compiled. }
  rewrite /tenant_limiter_allow. destruct (tpr_tenant_limiter rt) as [lim|] eqn:El; [|by rewrite /= El].
  specialize (Hl lim eq_refl). rewrite /rl_allow. destruct (rl_poisoned lim); [by intros lim' [= <-]|].
  destruct (tb_allow _ _ _) as [[ok b']|] eqn:E; intros lim' [= <-]; [by eapply allow_bucket_of|done].
Qed.

(** A check touches the limiter or nothing. *)
Lemma policy_step_limiter rt rt' :
  policy_step rt rt' → rt' = rt ∨ ∃ checks now, rt' = (tenant_limiter_allow checks now rt).2.
Proof.
  intros [checks now len svc ty|checks now len svc op].
  - rewrite /check_text. destruct (check_len rt len); [|by left..]. right. exists checks, now.
    destruct (tenant_limiter_allow checks now rt) as [[[]|] rt1]; cbn; try done.
    destruct (tpr_ext_rules rt1); [done|]. by destruct (negb _).
  - rewrite /check_hot. destruct (check_len rt len); [|by left..]. right. exists checks, now.
    destruct (tenant_limiter_allow checks now rt) as [[[]|] rt1]; cbn; try done.
    destruct (tpr_hot_rules rt1); [done|]. by destruct (negb _).
Qed.

Lemma policy_step_typed t rt rt' : policy_step rt rt' → runtime_typed t rt → runtime_typed t rt'.
Proof. intros [->|(checks & now & ->)]%policy_step_limiter Ht; [done|by apply limiter_typed]. Qed.

(** ** The state and its tasks *)

Section typed.
Context {Bytes : Type} `{!BytesOps Bytes, !BytesFrom Bytes, !SerdeJson, !DashOrder, !Mpsc, !MpscLaws}.
Context (cfg : GatewayConfig).
Implicit Types (st : AppState Bytes) (tk : Task).

Record app_typed st : Prop := {
  at_dispatcher : a_dispatcher st = builtin_dispatcher;
  at_drops : is_u64 (w_drops (a_world st));
  at_fails : is_u64 (w_fails (a_world st));
  at_sessions : registry_typed (app_sessions st);
  at_presence : presence_typed (app_presence st);
  at_metrics : metrics_typed (a_metrics st);
  at_next_sid : is_u64 (a_next_sid st);
  at_next_trace : is_u64 (a_next_trace st);
  at_policy id rt : tenant_policy st id = Some rt →
    ∃ t, t ∈ tenants cfg ∧ tenant_id t = id ∧ runtime_typed t rt;
}.

(** A task: its sampling counter, and the bucket of its connection. *)
Record task_typed tk : Prop := {
  tt_ops : is_u64 (tk_hot_ops tk);
  tt_limiter lim : tk_conn_limiter tk = Some lim →
    ∃ t, t ∈ tenants cfg ∧ bucket_of t (crl_bucket lim);
}.

Lemma app_typed_same_core st w : app_typed st → same_core False (a_world st) w → app_typed (set_world st w).
Proof using Type.
  intros [? Hd Hf Hs Hp ? ? ? ?] (Ec & Hd' & Hf' & _).
  split; rewrite /app_sessions /app_presence /= ?Ec; auto.
Qed.

Context (Hcfg : Forall (λ t, policy_typed (policy t)) (tenants cfg)).

Lemma typed_withstands : withstands app_typed task_typed.
Proof using All.
  split.
  - intros st c Hst _. by apply app_typed_same_core.
  - done.
  - done.
  - intros st m text conn Hst _. apply app_typed_same_core; [done|apply same_core_push].
  - intros st text Hst. apply app_typed_same_core; [done|apply same_core_fail].
  - intros st evs t u sid trace active env Hst _ _. rewrite (at_dispatcher _ Hst).
    apply app_typed_same_core; [done|by apply same_core_dispatch_text].
  - intros st evs t u sid trace active frame Hst _ _. rewrite (at_dispatcher _ Hst).
    apply app_typed_same_core; [done|apply same_core_dispatch_hot].
  - done.
  - done.
  - done.
  - done.
  - intros st r [? ? ? ? ? ? ? ? ?] Hr. split; try done. by eapply reg_step_typed.
  - intros st p [? ? ? ? ? ? ? ? ?] Hp. split; try done. by eapply pres_step_typed.
  - intros st m [? ? ? ? ? ? ? ? ?] Hm. split; try done. by eapply metric_step_typed.
  - intros st id rt rt' [? ? ? ? ? ? ? ? Hpol] _ Hrt Hs. split; try done. intros id' rt1.
    rewrite /tenant_policy /= => /lookup_insert_Some [[<- <-]|[_ Hl]]; [|by apply Hpol].
    destruct (Hpol _ _ Hrt) as (t & Hin & <- & Ht). exists t. split_and!; [done|done|].
    by eapply policy_step_typed.
  - intros st hs [? ? ? ? ? ? ? ? ?]. by split.
  - intros st [? ? ? ? ? ? ? ? ?]. split; try done. apply wrap64_range.
  - intros st ns [? ? ? ? ? ? ? ? ?]. split; try done. apply wrap64_range.
  - intros tk r [? ?]. by split.
  - intros tk now [? ?]. by split.
  - intros tk m w [? ?] _. by split.
  - intros tk [? ?]. split; [apply wrap64_range|done].
  - intros tk checks now lim ok lim' [? Hl] Hlim E. split; [done|]. intros lim1 [= <-].
    destruct (Hl lim Hlim) as (t & Hin & Hb). exists t. split; [done|]. revert E. rewrite /crl_allow.
    destruct (tb_allow _ _ _) as [[ok1 b1]|] eqn:E1; [|done]. intros [= _ <-].
    by eapply allow_bucket_of.
  - intros st id rt t u sid trace tx lim now Hst Hrt _ _. split; [done|]. intros l. cbn.
    destruct (at_policy _ Hst id rt Hrt) as (tc & Hin & <- & [Hc _]). rewrite /new_connection_limiter.
    intros Hl. exists tc. split; [done|].
    assert (l = crl_new (rate_limit_rps (policy tc)) (rate_limit_burst (policy tc)) now) as ->.
    { destruct (tpr_rate_limit_scope rt); try done; injection Hl as <-;
        by rewrite (cp_rps _ _ Hc) (cp_burst _ _ Hc). }
    apply new_bucket_of. exact (proj1 (Forall_forall _ _) Hcfg tc Hin).
Qed.

(** At startup. *)
Lemma compile_policies_typed now ts acc m :
  Forall (λ t, policy_typed (policy t)) ts → compile_policies now ts acc = Ok m →
  ∀ id rt, m !! id = Some rt →
    acc !! id = Some rt ∨ ∃ t, t ∈ ts ∧ tenant_id t = id ∧ runtime_typed t rt.
Proof using Type.
  revert acc. induction ts as [|t ts IH]; intros acc Hts E id rt Hid; cbn in E.
  { injection E as ->. by left. }
  apply Forall_cons in Hts as [Ht Hts].
  destruct (tpr_new _ _ _ now) as [rt1|] eqn:En; [|done]. cbn in E.
  destruct (IH _ Hts E id rt Hid) as [[[<- <-]|[_ Hl]]%lookup_insert_Some|(t' & Hin & Hid' & Hrt)].
  - right. exists t. split_and!; [by constructor|done|by eapply tpr_new_typed].
  - by left.
  - right. exists t'. split_and!; [by constructor|done|done].
Qed.

Lemma app_new_typed now c app : app_new now c cfg = Ok app → app_typed app.
Proof using Hcfg.
  rewrite /app_new. destruct (compile_policies now (tenants cfg) ∅) as [pol|] eqn:Ep; [|done]. cbn.
  destruct (sanity_check _ _ _) as [log|]; [|done]. cbn. intros [= <-].
  split; cbn; try done. intros id rt Hid.
  destruct (compile_policies_typed now (tenants cfg) ∅ pol Hcfg Ep id rt Hid) as [He|]; [|done].
  by rewrite lookup_empty in He.
Qed.
End typed.

(** C15: the state is typed. In every run of the gateway, whatever its tasks
    do, all counters, sequence numbers and reference counts of the registry, the
    rooms, the egress and the metrics are values of their unsigned 64-bit types (the
    gauge, of its signed one, by their wrap-around), no token bucket holds more than its capacity, and the
    policy in force for a tenant, its limiter's rate and burst included, is the one
    its section was compiled to at startup: nothing is reloaded while the gateway runs. *)
Theorem gateway_typed {Bytes : Type} `{!BytesOps Bytes, !BytesFrom Bytes, !SerdeJson, !DashOrder, !Mpsc,
    !MpscLaws} cfg now c (app : AppState Bytes) acts :
  Forall (λ t, policy_typed (policy t)) (tenants cfg) → app_new now c cfg = Ok app →
  let sys := foldl sys_exec (mkSystem app [] ∅) acts in
  app_typed cfg (sy_app sys) ∧ map_Forall (λ _ x, task_typed cfg x.1) (sy_tasks sys).
Proof.
  intros Hcfg Hnew. apply (sys_run_good _ _ (typed_withstands cfg Hcfg)). split; [|done].
  by eapply app_new_typed.
Qed.

Import MiniJson.

(** The meeting of two sessions. *)
Lemma gateway_typed_witness :
  size (sy_tasks (Meeting.system Meeting.meet)) = 2%nat
  ∧ metrics_typed (a_metrics (sy_app (Meeting.system Meeting.meet))).
Proof.
  split; [by vm_compute|].
  refine (at_metrics _ _ (proj1 (gateway_typed Gateway.cfg 0 ∅ Meeting.start Meeting.meet _ _))).
  - repeat constructor; by vm_compute.
  - assert (is_ok (app_new (Bytes := list byte) 0 ∅ Gateway.cfg) = true) as Hok by by vm_compute.
    rewrite /Meeting.start. by destruct (app_new 0 ∅ Gateway.cfg).
Defined.
