(* ===== verification/Main.v ===== *)
(** * The process ([wsprism-gateway/src/main.rs], [load_from_file] of
    config/mod.rs)

    Startup, up to the socket, and graceful shutdown.  Reading the file and
    the YAML parser are parameters; [expect] on an error is a panic.  The
    drain loop polls the registry while the other tasks go on: what they do
    between two polls is a list of acts of [System.v]. *)

From S2P Require Import Prelude Errors RustStd HotFrame Config Schema Allowlist TokenBucket Policy Dash.
From S2P Require Import SessionRegistry Presence Keys Channel Envelope Realtime Codec Dispatch.
From S2P Require Import Handshake Metrics NetAddr AppState Ws Session Admission System Effects Safety.

(** ** Startup *)

(** [config::load_from_file], on what [fs::read_to_string] answers. *)
Definition load_from_file (read : string → string + string) (from_yaml : string → GatewayConfig + string)
    (path : string) : Result GatewayConfig :=
  match read path with
  | inr e => Err (EInternal ("read config failed: " +:+ e))
  | inl s => load_from_str from_yaml s
  end.

Section startup.
Context {Bytes : Type} `{!BytesOps Bytes, !SerdeJson, !DashOrder, !Mpsc}.

(** [Result::expect] and [Option::expect]. *)
Definition expect {A} (r : Result A) : outcome A := match r with Ok a => Done a | Err _ => Panic end.
Definition expect_some {A} (o : option A) : outcome A := match o with Some a => Done a | None => Panic end.

(** [main] up to the socket: the address to listen at, and the state. *)
Definition startup (read : string → string + string) (from_yaml : string → GatewayConfig + string)
    (now : Z) (c : chans) : outcome (SocketAddr * AppState Bytes) :=
  let! cfg := expect (load_from_file read from_yaml "wsprism.yaml") in
  let! addr := expect_some (parse_socket_addr (listen (gateway cfg))) in
  let! state := expect (app_new now c cfg) in
  Done (addr, state).

(** ** The router *)

(** The handlers that [build_router] names. *)
Inductive Handler := HWsUpgrade | HHealthz | HReadyz | HMetrics.

(** [build_router] of router.rs: the routes, all for [GET]. *)
Definition build_router : list (string * Handler) :=
  [("/v1/ws", HWsUpgrade); ("/healthz", HHealthz); ("/readyz", HReadyz); ("/metrics", HMetrics)].

(** What a [GET] comes to: an answer, an upgrade, or no route. *)
Inductive Served := Answer (r : Response) | Upgrade (r : option UpgradeResult) | NoRoute.

(** A [GET] of a path, by a caller at an address, with the query of an
    upgrade. *)
Definition serve_get (reentrant : bool) (ck : Clocks) (st : AppState Bytes) (ip : IpAddr) (path : string)
    (q : WsQuery) : Served * AppState Bytes :=
  match snd <$> List.find (λ route, bool_decide (route.1 = path)) build_router with
  | Some HWsUpgrade => let '(r, st) := ws_upgrade reentrant ck st ip q in (Upgrade r, st)
  | Some HHealthz => (Answer healthz, st)
  | Some HReadyz => (Answer (readyz st), st)
  | Some HMetrics => (Answer (metrics_endpoint st), st)
  | None => (NoRoute, st)
  end.
End startup.

(** ** Shutdown *)

Section shutdown.
Context {Bytes : Type} `{!BytesOps Bytes, !BytesFrom Bytes, !SerdeJson, !DashOrder, !Mpsc}.
Implicit Types (sys : System Bytes).

(** How the drain loop ends: the registry was empty, or its time was up. *)
Inductive DrainEnd := Drained | OutOfTime.

(** [while Instant::now() < deadline { if len_sessions() == 0 { break; }
    sleep(50ms).await; }]: each round reads the clock (in nanoseconds) and, if
    it sleeps, the others act meanwhile. [None]: it has not ended yet. *)
Fixpoint drain_loop (deadline : Z) (rounds : list (Z * list Act)) sys : option DrainEnd * System Bytes :=
  match rounds with
  | [] => (None, sys)
  | (now, acts) :: rounds =>
      if now <? deadline then
        if len_sessions (app_sessions (sy_app sys)) =? 0 then (Some Drained, sys)
        else drain_loop deadline rounds (foldl sys_exec sys acts)
      else (Some OutOfTime, sys)
  end.

(** The shutdown future: the signal came at the instant [t0]. *)
Definition shutdown (t0 : Z) (rounds : list (Z * list Act)) sys : option DrainEnd * System Bytes :=
  let sys := sys_exec sys (ADrain "draining") in
  let deadline := t0 + drain_grace_ms (gateway (a_cfg (sy_app sys))) * 1000000 in
  drain_loop deadline rounds sys.
End shutdown.

(** ** Draining is for good *)

Section draining.
Context {Bytes : Type} `{!BytesOps Bytes, !BytesFrom Bytes, !SerdeJson, !DashOrder, !Mpsc}.
Implicit Types (st : AppState Bytes) (tk : Task) (sys : System Bytes).

(** No effect clears the flag. *)
Lemma draining_withstands : withstands (λ st : AppState Bytes, is_draining st = true) (λ _, True).
Proof. split; try done. intros st m Hd Hm. rewrite /is_draining in Hd |- *. by destruct Hm. Qed.

Lemma exec_flag sys a : is_draining (sy_app sys) = true → is_draining (sy_app (sys_exec sys a)) = true.
Proof. intros Hd. by apply (sys_exec_good _ _ draining_withstands sys a). Qed.

(** The connections that are or may become sessions. *)
Definition connections sys : nat := size (sy_tasks sys) + length (sy_upgraded sys).

(** One act of a draining gateway. *)
Lemma exec_draining sys a :
  is_draining (sy_app sys) = true →
  is_draining (sy_app (sys_exec sys a)) = true
  ∧ sy_upgraded (sys_exec sys a) `sublist_of` sy_upgraded sys
  ∧ (connections (sys_exec sys a) ≤ connections sys)%nat.
Proof.
  intros Hd. split; [by apply exec_flag|]. rewrite /connections.
  destruct a as [reentrant ck ip q|i now nanos|tx ev|tx fe|tx ns|tx|reason]; cbn [sys_exec].
  - pose proof (ws_upgrade_frame reentrant ck (sy_app sys) ip q) as Hf.
    destruct (ws_upgrade _ _ _ _ _) as [res st]. destruct Hf as (_ & _ & _ & _ & Hup). cbn.
    destruct res as [[rsp|]|]; [done| |done]. destruct (Hup eq_refl). congruence.
  - destruct (sy_upgraded sys !! i) as [q|] eqn:Eq; [|done].
    destruct (session_open _ _ _ _) as [o st]. cbn. split; [apply sublist_delete|].
    rewrite length_delete //. pose proof (lookup_lt_Some _ _ _ Eq). destruct o as [tk| | |]; try lia.
    rewrite map_size_insert. destruct (sy_tasks sys !! tk_tx tk); cbn; lia.
  - destruct (sy_tasks sys !! tx) as [[tk [|p| |]]|] eqn:Htx; try done.
    destruct (begin_event _ _ _) as [[tk' s] st]. cbn. by rewrite map_size_insert Htx.
  - destruct (sy_tasks sys !! tx) as [[tk [|p| |]]|] eqn:Htx; try done. destruct (no_other fe); [|done].
    cbn. by rewrite map_size_insert Htx.
  - destruct (sy_tasks sys !! tx) as [[tk [|p| |]]|] eqn:Htx; try done. destruct (pb_pending p); [|done].
    cbn. by rewrite map_size_insert Htx.
  - destruct (sy_tasks sys !! tx) as [[tk [|p| |]]|] eqn:Htx; try done. cbn.
    split; [done|]. pose proof (map_size_delete tx (sy_tasks sys)) as Hs. rewrite Htx in Hs. cbn in Hs. lia.
  - done.
Qed.

Lemma run_draining acts sys :
  is_draining (sy_app sys) = true →
  let sys' := foldl sys_exec sys acts in
  is_draining (sy_app sys') = true ∧ sy_upgraded sys' `sublist_of` sy_upgraded sys
  ∧ (connections sys' ≤ connections sys)%nat.
Proof.
  revert sys. induction acts as [|a acts IH]; intros sys Hd; [done|]. cbn [foldl].
  destruct (exec_draining sys a Hd) as (Hd1 & Hu1 & Hc1). destruct (IH _ Hd1) as (Hd2 & Hu2 & Hc2).
  split_and!; [done|by etransitivity|lia].
Qed.
End draining.

(** Draining is for good. Once the gateway is draining, whatever its tasks
    do, it stays draining: it reports that it is not ready, no upgrade request is
    granted, and the connections that are sessions or are about to become one
    only get fewer. *)
Theorem draining_is_final {Bytes : Type} `{!BytesOps Bytes, !BytesFrom Bytes, !SerdeJson, !DashOrder,
    !Mpsc} (sys : System Bytes) acts :
  is_draining (sy_app sys) = true →
  let sys' := foldl sys_exec sys acts in
  (∀ reentrant ck ip q, let get path := fst (serve_get reentrant ck (sy_app sys') ip path q) in
     get "/readyz" = Answer (mkResponse 503 None None "draining")
     ∧ get "/v1/ws" ≠ Upgrade (Some Upgraded))
  ∧ sy_upgraded sys' `sublist_of` sy_upgraded sys ∧ (connections sys' ≤ connections sys)%nat.
Proof.
  intros Hd sys'. destruct (run_draining acts sys Hd) as (Hd' & Hu & Hc). split_and!; [|done|done].
  intros reentrant ck ip q. cbn zeta. split.
  - by rewrite /= /readyz Hd'.
  - rewrite /serve_get. cbn. intros E. pose proof (ws_upgrade_frame reentrant ck (sy_app sys') ip q) as Hf.
    destruct (ws_upgrade _ _ _ _ _) as [res st]. injection E as E. destruct Hf as (_ & _ & _ & _ & Hup).
    destruct (Hup E) as [_ Hnot]. by rewrite Hd' in Hnot.
Qed.

(** ** The notice to all sessions *)

Lemma length_filter_fmap {A B} (f : B → bool) (g : A → B) l :
  length (List.filter f (g <$> l)) = length (filter (λ x, f (g x) = true) l).
Proof.
  induction l as [|x l IH]; [done|]. rewrite fmap_cons filter_cons. cbn [List.filter].
  case_decide as E; [rewrite E /= IH //|]. apply not_true_iff_false in E. by rewrite E IH.
Qed.

Lemma map_filter_size {A} (P : string * A → Prop) `{!∀ x, Decision (P x)} (m : gmap string A) :
  size (filter P m) = length (filter P (map_to_list m)).
Proof.
  rewrite map_filter_alt -length_map_to_list map_to_list_to_map //.
  apply NoDup_fmap_2_strong; [|apply NoDup_filter, NoDup_map_to_list].
  intros [k x] [k' x'] [_ Hx]%list_elem_of_filter [_ Hx']%list_elem_of_filter E. cbn in E. subst k'.
  apply elem_of_map_to_list in Hx, Hx'. congruence.
Qed.

Section notice.
Context `{!DashOrder, !DashOrderLaws, !Mpsc, !MpscLaws} (w : World) (M : members) (L : gmap string Session).
Context (Hw : world_rep w M L).

Lemma elem_of_all_sessions k conn :
  (k, conn) ∈ all_sessions (sessions (w_core w)) ↔ ∃ s, L !! k = Some s ∧ s_conn s = conn.
Proof using Type*.
  rewrite /all_sessions list_elem_of_fmap. setoid_rewrite dm_iter_perm.
  rewrite (rr_sessions _ _ (wr_reg _ _ _ Hw)). split.
  - intros ([k' e] & [= -> ->] & Hin%elem_of_map_to_list). rewrite lookup_fmap fmap_Some in Hin.
    destruct Hin as (s & Hs & ->). by exists s.
  - intros (s & Hs & <-). exists (k, mkSessionEntry (s_conn s) (s_seq s) (s_tenant s)). split; [done|].
    apply elem_of_map_to_list. by rewrite lookup_fmap Hs.
Qed.

Lemma all_sessions_NoDup : NoDup (conn_tx ∘ snd <$> all_sessions (sessions (w_core w))).
Proof using Type*.
  apply NoDup_fmap_2_strong.
  - intros [k c1] [k' c2] (s & Hs & <-)%elem_of_all_sessions (s' & Hs' & <-)%elem_of_all_sessions E.
    assert (k = k') as -> by by apply (wr_tx _ _ _ Hw k k' s s'). congruence.
  - rewrite /all_sessions. apply (NoDup_fmap_1 fst). rewrite -list_fmap_compose.
    rewrite (list_fmap_ext _ fst); [|by intros i [k e] _]. rewrite dm_iter_perm.
    apply NoDup_fst_map_to_list.
Qed.

(** Counting sessions by their connection. *)
Lemma all_sessions_count (f : Connection → bool) :
  length (List.filter (λ conn, negb (f conn)) (snd <$> all_sessions (sessions (w_core w))))
  = size (filter (λ kv, f (s_conn kv.2) = false) L).
Proof using Type*.
  rewrite /all_sessions -list_fmap_compose length_filter_fmap dm_iter_perm.
  rewrite (rr_sessions _ _ (wr_reg _ _ _ Hw)) map_to_list_fmap -length_filter_fmap -list_fmap_compose
    length_filter_fmap map_filter_size.
  f_equal. apply list_filter_iff. intros [k s]. cbn. by destruct (f (s_conn s)).
Qed.
End notice.

(** What the signal does to a state whose accounts are in order. *)
Lemma begin_drain_notifies {Bytes : Type} `{!BytesOps Bytes, !BytesFrom Bytes, !SerdeJson, !DashOrder,
    !DashOrderLaws, !Mpsc, !MpscLaws} (st : AppState Bytes) M L reason :
  world_rep (a_world st) M L →
  let st' := begin_drain st reason in
  let c := w_chans (a_world st) in
  is_draining st' = true ∧ w_core (a_world st') = w_core (a_world st)
  ∧ (∀ k s, L !! k = Some s → let tx := conn_tx (s_conn s) in
       ch_queue (w_chans (a_world st')) tx
       = ch_queue c tx ++ (if ch_accepts c tx then [MClose (Some (1001, reason))] else []))
  ∧ (∀ tx, (∀ k s, L !! k = Some s → conn_tx (s_conn s) ≠ tx) →
       ch_queue (w_chans (a_world st')) tx = ch_queue c tx)
  ∧ w_drops (a_world st')
    = wrap64 (w_drops (a_world st)
        + Z.of_nat (size (filter (λ kv, ch_accepts c (conn_tx (s_conn kv.2)) = false) L))).
Proof.
  intros Hw st' c. set (conns := snd <$> all_sessions (sessions (w_core (a_world st)))).
  assert (a_world st' = foldl (push (MClose (Some (1001, reason))) "egress drop while draining")
                          (a_world st) conns) as Ew.
  { rewrite /st' /begin_drain /best_effort_shutdown_all /conns foldl_fmap. cbn.
    generalize (all_sessions (sessions (w_core (a_world st)))). intros l. generalize (a_world st).
    induction l as [|[k conn] l IH]; intros w; [done|]. cbn. by rewrite IH. }
  assert (∀ tx, tx ∈ conn_tx <$> conns ↔ ∃ k s, L !! k = Some s ∧ conn_tx (s_conn s) = tx) as Hin.
  { intros tx. rewrite /conns -list_fmap_compose list_elem_of_fmap. split.
    - intros ([k conn] & -> & (s & Hs & <-)%(elem_of_all_sessions _ _ _ Hw)). eauto.
    - intros (k & s & Hs & <-). exists (k, s_conn s). split; [done|].
      apply (elem_of_all_sessions _ _ _ Hw). eauto. }
  destruct (push_all_spec (MClose (Some (1001, reason))) "egress drop while draining" conns (a_world st))
    as (Hc & Hf & Hd & Hq); [|apply Hw|].
  { rewrite /conns -list_fmap_compose. by eapply all_sessions_NoDup. }
  rewrite Ew. split_and!; [done|done| | |].
  - intros k s Hk. cbv zeta. rewrite Hq. f_equal. fold c. case_decide as Hdec.
    + destruct Hdec as [_ ->]. done.
    + destruct (ch_accepts c _) eqn:Ea; [|done]. destruct Hdec. split; [|done]. apply Hin. eauto.
  - intros tx Hno. rewrite Hq decide_False; [by rewrite app_nil_r|]. rewrite Hin. naive_solver.
  - rewrite Hd. do 2 f_equal. apply (f_equal Z.of_nat).
    exact (all_sessions_count _ M L Hw (λ conn, ch_accepts c (conn_tx conn))).
Qed.

(** C18: everyone is told. When shutdown begins, every registered session
    whose queue has room gets exactly one more message, the Close frame with code
    1001 and the reason, at the end of its queue; every session without room
    counts as one drop; no other queue, no session and no room changes, and the
    gateway is draining from then on. *)
Theorem drain_notifies {Bytes : Type} `{!BytesOps Bytes, !BytesFrom Bytes, !SerdeJson, !DashOrder,
    !DashOrderLaws, !Mpsc, !MpscLaws} (sys : System Bytes) t0 M L :
  let st := sy_app sys in
  world_rep (a_world st) M L →
  let st' := sy_app (shutdown t0 [] sys).2 in
  let c := w_chans (a_world st) in
  is_draining st' = true ∧ w_core (a_world st') = w_core (a_world st)
  ∧ (∀ k s, L !! k = Some s → let tx := conn_tx (s_conn s) in
       ch_queue (w_chans (a_world st')) tx
       = ch_queue c tx ++ (if ch_accepts c tx then [MClose (Some (1001, "draining"))] else []))
  ∧ (∀ tx, (∀ k s, L !! k = Some s → conn_tx (s_conn s) ≠ tx) →
       ch_queue (w_chans (a_world st')) tx = ch_queue c tx)
  ∧ w_drops (a_world st')
    = wrap64 (w_drops (a_world st)
        + Z.of_nat (size (filter (λ kv, ch_accepts c (conn_tx (s_conn kv.2)) = false) L))).
Proof. intros st Hw. exact (begin_drain_notifies st M L "draining" Hw). Qed.

(** ** Shutdown ends *)

Section drain.
Context {Bytes : Type} `{!BytesOps Bytes, !BytesFrom Bytes, !SerdeJson, !DashOrder, !Mpsc}.
Implicit Types (sys : System Bytes) (rounds : list (Z * list Act)).

(** The clock as the rounds read it: the first reading is not before [t], and
    after each one the loop sleeps for 50 ms. *)
Fixpoint paced (t : Z) rounds : Prop :=
  match rounds with
  | [] => True
  | (now, _) :: rounds => t ≤ now ∧ paced (now + 50 * 1000000) rounds
  end.

(** The system when the [k]-th round begins. *)
Definition after rounds (k : nat) sys : System Bytes := foldl sys_exec sys (mjoin (take k rounds.*2)).

(** The loop goes on after a round that reads the clock before the deadline
    and finds sessions. *)
Definition goes_on (deadline : Z) sys (now : Z) : Prop :=
  now < deadline ∧ len_sessions (app_sessions (sy_app sys)) ≠ 0.

(** How the loop ends in the round it ends in. *)
Definition ends_with (deadline : Z) sys (now : Z) (e : DrainEnd) : Prop :=
  match e with
  | Drained => now < deadline ∧ len_sessions (app_sessions (sy_app sys)) = 0
  | OutOfTime => deadline ≤ now
  end.

(** The loop ends in the first round that reads a time past the deadline or
    finds the registry empty. *)
Definition ends_at (deadline : Z) rounds sys (k : nat) (e : DrainEnd) : Prop :=
  (∃ round, rounds !! k = Some round ∧ ends_with deadline (after rounds k sys) round.1 e)
  ∧ ∀ j round, (j < k)%nat → rounds !! j = Some round → goes_on deadline (after rounds j sys) round.1.

Lemma after_cons now acts rounds k sys :
  after ((now, acts) :: rounds) (S k) sys = after rounds k (foldl sys_exec sys acts).
Proof. by rewrite /after /= foldl_app. Qed.

Lemma drain_loop_ends deadline t rounds sys :
  paced t rounds → deadline ≤ t + 50 * 1000000 * (Z.of_nat (length rounds) - 1) → rounds ≠ [] →
  ∃ k e, drain_loop deadline rounds sys = (Some e, after rounds k sys) ∧ ends_at deadline rounds sys k e.
Proof.
  revert t sys. induction rounds as [|[now acts] rounds IH]; intros t sys Hp Hd Hne; [done|].
  destruct Hp as [Ht Hp]. cbn [drain_loop]. destruct (now <? deadline) eqn:En; unbool; last first.
  { exists 0%nat, OutOfTime. split; [done|]. split; [by exists (now, acts)|lia]. }
  destruct (len_sessions _ =? 0) eqn:El; unbool.
  { exists 0%nat, Drained. split; [done|]. split; [by exists (now, acts)|lia]. }
  cbn [length] in Hd.
  destruct (IH (now + 50 * 1000000) (foldl sys_exec sys acts) Hp) as (k & e & -> & Hk & Hbefore);
    [lia|by intros ->; cbn in *; lia|].
  exists (S k), e. rewrite after_cons. split; [done|]. split.
  - destruct Hk as (round & Hround & Hend). exists round. by rewrite after_cons.
  - intros [|j] round Hj; [by intros [= <-]|]. rewrite after_cons. apply Hbefore. lia.
Qed.
End drain.

(** C16: shutdown ends. If the clock does not run backwards and every sleep
    takes at least its 50 ms, the drain loop is over after at most one round per 50 ms of
    the configured grace period, and one more, whatever the other tasks do meanwhile:
    it ends in the first round that finds no session registered, or reads the
    clock at or after the deadline, and then the system is the one the other
    tasks have left. *)
Theorem drain_terminates {Bytes : Type} `{!BytesOps Bytes, !BytesFrom Bytes, !SerdeJson, !DashOrder,
    !Mpsc} (sys : System Bytes) t0 rounds :
  let grace := drain_grace_ms (gateway (a_cfg (sy_app sys))) in
  let sys0 := sys_exec sys (ADrain "draining") in
  paced t0 rounds → rounds ≠ [] → grace ≤ 50 * (Z.of_nat (length rounds) - 1) →
  ∃ k e, shutdown t0 rounds sys = (Some e, after rounds k sys0)
         ∧ ends_at (t0 + grace * 1000000) rounds sys0 k e.
Proof. intros grace sys0 Hp Hne Hg. apply (drain_loop_ends (t0 + grace * 1000000) t0); [done|lia|done]. Qed.

(** ** What the process starts with *)

(** The configuration can be served: it is valid, its address parses, and the
    allowlists of its tenants compile. *)
Definition servable (cfg : GatewayConfig) : Prop :=
  config_ok cfg ∧ is_Some (parse_socket_addr (listen (gateway cfg))) ∧ forallb compiles (tenants cfg) = true.

Lemma load_from_file_ok read from_yaml path cfg :
  load_from_file read from_yaml path = Ok cfg
  ↔ ∃ s, read path = inl s ∧ from_yaml s = inl cfg ∧ config_ok cfg.
Proof.
  rewrite /load_from_file /load_from_str. setoid_rewrite <- config_validate_ok.
  destruct (read path) as [s|e]; [|split; [done|by intros (? & ? & _)]]. split.
  - destruct (from_yaml s) as [c|e] eqn:Ey; [|done].
    destruct (config_validate c) as [[]|e] eqn:Ev; [|done]. intros [= ->]. by exists s.
  - intros (s' & [= <-] & -> & Hv). by rewrite Hv.
Qed.

(** C20: startup. The process panics before it opens its socket exactly when
    the file cannot be read, is not YAML, does not mean a configuration (a field
    that is unknown, repeated, missing or of a wrong type), or holds one
    that is not valid, has an address that does not parse or an allowlist that does
    not compile; otherwise it serves the state built from the configuration the document
    means, at that address: the policy of each tenant is compiled from its section, there is no
    session and no room, and it is ready. *)
Theorem startup_spec {Bytes : Type} `{!BytesOps Bytes, !SerdeJson, !DashOrder, !Mpsc}
    read doc word now c :
  match startup (Bytes := Bytes) read (from_yaml doc word) now c with
  | Done (addr, st) =>
      ∃ s n, read "wsprism.yaml" = inl s ∧ doc s = Ok n ∧ means_config n (a_cfg st) ∧ servable (a_cfg st)
           ∧ parse_socket_addr (listen (gateway (a_cfg st))) = Some addr
           ∧ (∀ t, t ∈ tenants (a_cfg st) → ∃ rt, tenant_policy st (tenant_id t) = Some rt ∧ compiled t rt)
           ∧ w_core (a_world st) = core_new ∧ readyz st = mkResponse 200 None None "ready"
  | Panic => ∀ s n cfg, read "wsprism.yaml" = inl s → doc s = Ok n → means_config n cfg → ¬ servable cfg
  end.
Proof.
  rewrite /startup. destruct (load_from_file _ _ "wsprism.yaml") as [cfg|e] eqn:El; cbn; last first.
  { intros s n cfg Hr Hy Hn (Hok & _).
    cut (load_from_file read (from_yaml doc word) "wsprism.yaml" = Ok cfg); [congruence|].
    apply load_from_file_ok. exists s. rewrite from_yaml_ok. eauto 10. }
  apply load_from_file_ok in El as (s & Hr & (n & Hy & Hn)%from_yaml_ok & Hok). rewrite /servable.
  destruct (parse_socket_addr _) as [addr|] eqn:Ea; cbn; last first.
  { intros s' n' cfg' Hr' Hy' Hn' (_ & [a Ha] & _). assert (cfg' = cfg) as ->; [|congruence].
    eapply means_config_unique; [exact Hn'|]. congruence. }
  pose proof (app_new_outcome (Bytes := Bytes) now c cfg (ok_unique _ Hok)) as Hnew.
  destruct (forallb compiles (tenants cfg)) eqn:Hc.
  - destruct Hnew as (st & -> & Ecfg & Hpol & _ & Hcore & Hdr). cbn. exists s, n. rewrite Ecfg /readyz Hdr.
    split_and!; [done..| |done|done|done|done|done]. by eexists.
  - destruct Hnew as [e ->]. cbn. intros s' n' cfg' Hr' Hy' Hn' (_ & _ & Hc').
    assert (cfg' = cfg) as ->; [|congruence]. eapply means_config_unique; [exact Hn'|]. congruence.
Qed.

(** The file the repository ships is served. *)
Example shipped_servable :
  match config_deserialize Yaml.shipped with Ok cfg => servable cfg | Err _ => False end.
Proof.
  split_and!.
  - apply config_validate_ok. reflexivity.
  - eexists. reflexivity.
  - reflexivity.
Qed.

(** Validation does not see what makes startup panic. *)
Example valid_config_panics :
  let g := mkGatewaySection "localhost:8080" 10000 30000 1000 5000 HandshakeConfig_default in
  let cfg := mkGatewayConfig 1 g [mkTenantConfig "acme" TenantLimits_default TenantPolicy_default] in
  config_validate cfg = Ok tt ∧ parse_socket_addr (listen (gateway cfg)) = None.
Proof. by vm_compute. Qed.

(** ** Instances *)

Import MiniJson.

(** A visitor that comes while the gateway drains is not let in, and those who
    are there leave. *)
Definition draining_system : System (list byte) := Meeting.system (Meeting.meet ++ [ADrain "draining"]).
Definition closing : list Act := Meeting.visitor "3" ++ Meeting.part.

Lemma draining_is_final_witness :
  connections draining_system = 2%nat
  ∧ (connections (foldl sys_exec draining_system closing) ≤ connections draining_system)%nat
  ∧ fst (serve_get false Visitor.clocks (sy_app (foldl sys_exec draining_system closing)) (V4 0) "/readyz"
           Visitor.query) = Answer (mkResponse 503 None None "draining").
Proof.
  assert (is_draining (sy_app draining_system) = true) as Hd by by vm_compute.
  destruct (draining_is_final draining_system closing Hd) as (Hready & _ & Hless).
  split; [by vm_compute|]. exact (conj Hless (proj1 (Hready false Visitor.clocks (V4 0) Visitor.query))).
Defined.

(** Both sessions of the sample world are told. *)
Lemma drain_notifies_witness :
  let st' := sy_app (shutdown 0 [] (mkSystem Gateway.app [] ∅)).2 in
  ch_queue (w_chans (a_world st')) 1 = [MClose (Some (1001, "draining"))]
  ∧ ch_queue (w_chans (a_world st')) 2 = [MClose (Some (1001, "draining"))].
Proof.
  destruct (drain_notifies (mkSystem Gateway.app [] ∅) 0 Sample.members1 Sample.live
    (gr_world _ _ _ (lr_rep _ _ _ Gateway.app_live))) as (_ & _ & Hq & _).
  split.
  - rewrite (Hq "t::a::1" (mkSession "t::a" "t" (mkConnection 1) 1)); by vm_compute.
  - rewrite (Hq "t::b::1" (mkSession "t::b" "t" (mkConnection 2) 2)); by vm_compute.
Defined.

(** The two sessions that met end while the gateway drains, and the second
    round finds the registry empty. *)
Definition quick : list (Z * list Act) :=
  (7, Meeting.part) :: imap (λ i _, (60000000 * Z.of_nat (S i), [])) (replicate 200 tt).

Lemma drain_terminates_witness :
  fst (shutdown 5 quick (Meeting.system Meeting.meet)) = Some Drained
  ∧ ∃ k e, shutdown 5 quick (Meeting.system Meeting.meet)
           = (Some e, after quick k (sys_exec (Meeting.system Meeting.meet) (ADrain "draining"))).
Proof.
  split; [by vm_compute|].
  destruct (drain_terminates (Meeting.system Meeting.meet) 5 quick) as (k & e & E & _).
  - vm_compute. repeat split; by intros [=].
  - done.
  - by vm_compute.
  - by exists k, e.
Defined.
