(* ===== verification/Process.v ===== *)
(** * The life of the process ([main] of wsprism-gateway/src/main.rs)

    [main] from its first line to its last: the startup of [Main.v], the
    socket, the tasks of [System.v] until a signal comes, the drain loop, and
    what the tasks still do until the server returns.
    The file, the YAML parser, the answer of the operating system to [bind]
    and what the server returns after the shutdown future are parameters. *)

From S2P Require Import Prelude Errors RustStd HotFrame Config Allowlist TokenBucket Policy Dash.
From S2P Require Import SessionRegistry Presence Keys Channel Envelope Realtime Codec Dispatch.
From S2P Require Import Handshake Metrics NetAddr AppState Ws Session Admission System Effects Safety Main.

(** What the process finds outside, and what the server returns once the shutdown future has returned ([None]: nothing yet).
    As [axum] documents, it does not return before. *)
Record Host := mkHost {
  host_read : string → string + string;
  host_yaml : string → GatewayConfig + string;
  host_bind : SocketAddr → Result unit;
  host_served : option (Result unit);
}.

(** How the futures of [shutdown_signal] wake up: an interrupt, or an error in
    waiting for it; a termination signal, or the end of their stream; or
    the handler of these cannot be installed. *)
Inductive Wake := CtrlC (r : Result unit) | Term (got : option unit) | NoHandler.

(** [shutdown_signal]: the first of the two futures to complete, with
    whatever result. *)
Definition shutdown_signal (wake : Wake) : outcome unit :=
  match wake with
  | CtrlC _ | Term _ => Done tt
  | NoHandler => Panic
  end.

(** Where the process is: [main] has panicked; it serves; its shutdown future has
    panicked (what the server then does is not in the sources); it is in the drain loop; the shutdown
    future has returned, and the server has not; or [main] has returned. *)
Inductive Process (Sys : Type) :=
| PPanicked
| PServing (sys : Sys)
| PSignalPanicked (sys : Sys)
| PDraining (sys : Sys)
| PStopping (e : DrainEnd) (sys : Sys)
| PReturned (e : DrainEnd) (sys : Sys).
Arguments PPanicked {Sys}.
Arguments PServing {Sys}.
Arguments PSignalPanicked {Sys}.
Arguments PDraining {Sys}.
Arguments PStopping {Sys}.
Arguments PReturned {Sys}.

Section process.
Context {Bytes : Type} `{!BytesOps Bytes, !BytesFrom Bytes, !SerdeJson, !DashOrder, !Mpsc}.

(** [main]: started at [now] with the channels [c], its tasks do [acts] until
    the shutdown signal wakes up, if it does; then, from the instant [t0], what
    happens in the rounds of the drain loop; and [rest] from the end of the loop until the
    server returns. *)
Definition main (h : Host) (now : Z) (c : chans) (acts : list Act) (wake : option Wake) (t0 : Z)
    (rounds : list (Z * list Act)) (rest : list Act) : Process (System Bytes) :=
  match startup (host_read h) (host_yaml h) now c with
  | Panic => PPanicked
  | Done (addr, state) =>
      match expect (host_bind h addr) with
      | Panic => PPanicked
      | Done _ =>
          let sys := foldl sys_exec (mkSystem state [] ∅) acts in
          match shutdown_signal <$> wake with
          | None => PServing sys
          | Some Panic => PSignalPanicked sys
          | Some (Done _) =>
              match shutdown t0 rounds sys with
              | (None, sys) => PDraining sys
              | (Some e, sys) =>
                  let sys := foldl sys_exec sys rest in
                  match host_served h with
                  | None => PStopping e sys
                  | Some r => match expect r with Panic => PPanicked | Done _ => PReturned e sys end
                  end
              end
          end
      end
  end.

Implicit Types (sys : System Bytes) (rounds : list (Z * list Act)).

Lemma clean_acts_app sys acts acts' :
  clean_acts sys (acts ++ acts') = clean_acts sys acts && clean_acts (foldl sys_exec sys acts) acts'.
Proof.
  revert sys. induction acts as [|a acts IH]; intros sys; [done|]. cbn. by rewrite IH andb_assoc.
Qed.

(** The drain loop stops after some of its rounds, which have found sessions. *)
Lemma drain_loop_prefix deadline rounds sys :
  ∃ k, (k ≤ length rounds)%nat ∧ snd (drain_loop deadline rounds sys) = after rounds k sys
       ∧ match fst (drain_loop deadline rounds sys) with
         | None => k = length rounds
         | Some Drained => len_sessions (app_sessions (sy_app (after rounds k sys))) = 0
         | Some OutOfTime => ∃ round, rounds !! k = Some round ∧ deadline ≤ round.1
         end.
Proof.
  revert sys. induction rounds as [|[now acts] rounds IH]; intros sys; [by exists 0%nat|]. cbn [drain_loop].
  destruct (now <? deadline) eqn:En; unbool; [|by exists 0%nat; split_and!; [cbn; lia|done|exists (now, acts)]].
  destruct (len_sessions _ =? 0) eqn:El; unbool; [by exists 0%nat; split_and!; [cbn; lia|done|]|].
  destruct (IH (foldl sys_exec sys acts)) as (k & Hk & E & Hend). exists (S k). rewrite after_cons.
  split_and!; [cbn; lia|done|]. destruct (fst _) as [[]|]; [done|done|cbn; lia].
Qed.

(** The first rounds are a prefix of what happens. *)
Lemma after_reach cfg n sys rounds k :
  sys_reach cfg n sys → clean_acts sys (mjoin rounds.*2) = true →
  ∃ n', (n' ≤ length (mjoin rounds.*2) + n)%nat ∧ sys_reach cfg n' (after rounds k sys).
Proof.
  intros Hr Hc. rewrite -(take_drop k rounds.*2) join_app clean_acts_app in Hc.
  apply andb_true_iff in Hc as [Hc _]. eexists. split; [|exact (sys_reach_run _ _ _ _ Hr Hc)].
  rewrite -{2}(take_drop k rounds.*2) join_app length_app. lia.
Qed.

(** A round that reads the clock in time and finds no session ends the loop. *)
Lemma drain_loop_finds deadline t rounds k round sys :
  paced t rounds → rounds !! k = Some round → round.1 < deadline →
  len_sessions (app_sessions (sy_app (after rounds k sys))) = 0 →
  t ≤ round.1 ∧ ∃ j, (j ≤ k)%nat ∧ drain_loop deadline rounds sys = (Some Drained, after rounds j sys).
Proof.
  revert t k sys. induction rounds as [|[now acts] rounds IH]; intros t k sys Hp Hk Hlt Hlen; [done|].
  destruct Hp as [Ht Hp]. cbn [drain_loop]. destruct k as [|k].
  - injection Hk as <-. cbn [fst] in *. split; [done|]. exists 0%nat. split; [lia|].
    change (after _ _ _) with sys in Hlen |- *. by rewrite (proj2 (Z.ltb_lt _ _) Hlt) Hlen.
  - rewrite after_cons in Hlen. destruct (IH (now + 50 * 1000000) k _ Hp Hk Hlt Hlen) as (Hle & j & Hj & E).
    split; [lia|]. rewrite (proj2 (Z.ltb_lt now deadline)); [|lia].
    destruct (len_sessions _ =? 0); [by exists 0%nat; split; [lia|]|]. exists (S j). rewrite after_cons. split; [lia|done].
Qed.

(** The configuration that the file holds, at an address that can be bound. *)
Lemma startup_serves read from_yaml now c s cfg :
  read "wsprism.yaml" = inl s → from_yaml s = inl cfg → servable cfg →
  ∃ addr st, startup (Bytes := Bytes) read from_yaml now c = Done (addr, st)
             ∧ parse_socket_addr (listen (gateway cfg)) = Some addr ∧ app_new now c cfg = Ok st.
Proof.
  intros Hr Hy (Hok & [addr Ha] & Hc). rewrite /startup.
  rewrite (proj2 (load_from_file_ok read from_yaml "wsprism.yaml" cfg)); [|by eauto]. cbn. rewrite Ha. cbn.
  pose proof (app_new_outcome (Bytes := Bytes) now c cfg (ok_unique _ Hok)) as Hnew. rewrite Hc in Hnew.
  destruct Hnew as (st & E & _). rewrite E. by exists addr, st.
Qed.

(** The run after the signal: the gateway drains, takes no request for a session, and
    has no more sessions than it had, those included whose upgrade was granted before. *)
Definition drains_from sys sys' : Prop :=
  is_draining (sy_app sys') = true ∧ sy_upgraded sys' `sublist_of` sy_upgraded sys
  ∧ (connections sys' ≤ connections sys)%nat.

Lemma begun_drains sys acts : drains_from sys (foldl sys_exec (sys_exec sys (ADrain "draining")) acts).
Proof. exact (run_draining acts (sys_exec sys (ADrain "draining")) eq_refl). Qed.

(** How the loop ended, in the system [sys] of its last round. *)
Definition loop_ended (cfg : GatewayConfig) (t0 : Z) rounds (k : nat) (e : DrainEnd) sys : Prop :=
  match e with
  | Drained => len_sessions (app_sessions (sy_app sys)) = 0
  | OutOfTime => ∃ round, rounds !! k = Some round ∧ t0 + drain_grace_ms (gateway cfg) * 1000000 ≤ round.1
  end.

Lemma run_cfg cfg sys acts : a_cfg (sy_app sys) = cfg → a_cfg (sy_app (foldl sys_exec sys acts)) = cfg.
Proof.
  assert (withstands (λ st : AppState Bytes, a_cfg st = cfg) (λ _, True)) as Hw by (by split).
  intros E. by apply (sys_run_good _ _ Hw sys acts).
Qed.

(** What a shutdown leaves, in whatever round it is. *)
Lemma shutdown_run cfg sys t0 rounds :
  a_cfg (sy_app sys) = cfg →
  ∃ k, (shutdown t0 rounds sys).2 = after rounds k (sys_exec sys (ADrain "draining"))
       ∧ match (shutdown t0 rounds sys).1 with
         | None => True
         | Some e => loop_ended cfg t0 rounds k e (shutdown t0 rounds sys).2
         end.
Proof.
  intros Hcfg. rewrite /shutdown (run_cfg cfg sys [ADrain "draining"] Hcfg). set (deadline := t0 + _).
  destruct (drain_loop_prefix deadline rounds (sys_exec sys (ADrain "draining"))) as (k & _ & E & Hend).
  exists k. split; [done|]. destruct (fst _) as [[]|]; [|done..]. cbn. by rewrite E.
Qed.
End process.

(** C19: the life of the process. With a file that holds a configuration
    that can be served, at an address that can be bound, [main] panics only if the server
    returns an error.  It is one run of the gateway from its startup: the [acts] until a signal comes, the drain, some of the
    rounds of its loop, and what happens until the server returns.
    From the signal on, whatever clients and tasks do, it drains: no upgrade is granted any more, and
    the sessions, with those whose upgrade was granted and that have not opened yet, do not get more.
    The loop has ended with the registry empty, or in a round that read the clock past the grace period. *)
Theorem process_lifecycle {Bytes : Type} `{!BytesOps Bytes, !BytesFrom Bytes, !SerdeJson, !DashOrder, !Mpsc}
    h now c acts wake t0 rounds rest s cfg :
  host_read h "wsprism.yaml" = inl s → host_yaml h s = inl cfg → servable cfg →
  (∀ addr, host_bind h addr = Ok tt) →
  ∃ st : AppState Bytes, app_new now c cfg = Ok st ∧
  let sys := foldl sys_exec (mkSystem st [] ∅) acts in
  let loop k := after rounds k (sys_exec sys (ADrain "draining")) in
  match main (Bytes := Bytes) h now c acts wake t0 rounds rest with
  | PPanicked => ∃ e, host_served h = Some (Err e)
  | PServing sys' => wake = None ∧ sys' = sys
  | PSignalPanicked sys' => wake = Some NoHandler ∧ sys' = sys
  | PDraining sys' => (∃ k, sys' = loop k) ∧ drains_from sys sys'
  | PStopping e sys' | PReturned e sys' =>
      (∃ k, sys' = foldl sys_exec (loop k) rest ∧ loop_ended cfg t0 rounds k e (loop k)) ∧ drains_from sys sys'
  end.
Proof.
  intros Hread Hyaml Hserve Hbind. rewrite /main.
  destruct (startup_serves (host_read h) (host_yaml h) now c s cfg Hread Hyaml Hserve) as (addr & st & -> & _ & Hnew).
  exists st. split; [done|]. rewrite Hbind. cbn [expect]. set (sys := foldl sys_exec _ acts). cbv zeta.
  assert (a_cfg (sy_app sys) = cfg) as Hcfg by (apply run_cfg; cbn; by apply app_new_fields in Hnew as [-> _]).
  destruct wake as [[]|]; cbn; [| |done|done];
    (destruct (shutdown_run cfg sys t0 rounds Hcfg) as (k & E & Hend);
     destruct (shutdown t0 rounds sys) as [[e|] sys']; cbn [fst snd] in *; subst sys';
     [|split; [by exists k|apply begun_drains]]; rewrite /after -foldl_app;
     pose proof (begun_drains sys (mjoin (take k rounds.*2) ++ rest)) as Hdr;
     destruct (host_served h) as [[[]|e']|]; cbn [expect];
     [|by exists e'|]; (split; [exists k; by rewrite foldl_app|done])).
Qed.

(** C17: draining comes to its end. If a shutdown begins in a state that the
    gateway can reach, and in some round that reads the clock within the grace period the
    tasks of all sessions have ended, then the loop ends in this round
    or before it, having found the registry empty: no session of an ended task keeps the
    process waiting for the deadline. *)
Theorem drain_completes {Bytes : Type} `{!BytesOps Bytes, !BytesFrom Bytes, !SerdeJson, !DashOrder,
    !DashOrderLaws, !Mpsc, !MpscLaws} cfg n (sys : System Bytes) t0 rounds k round :
  let sys0 := sys_exec sys (ADrain "draining") in
  good_cfg cfg → sys_reach cfg n sys → clean_acts sys0 (mjoin rounds.*2) = true →
  Z.of_nat (length (mjoin rounds.*2) + S n) + 1 < u64_max →
  paced t0 rounds → rounds !! k = Some round →
  round.1 < t0 + drain_grace_ms (gateway (a_cfg (sy_app sys))) * 1000000 →
  sy_tasks (after rounds k sys0) = ∅ →
  ∃ j, (j ≤ k)%nat ∧ shutdown t0 rounds sys = (Some Drained, after rounds j sys0).
Proof.
  intros sys0 Hcfg Hreach Hclean Hn Hp Hk Hlt Hidle.
  assert (sys_reach cfg (S n) sys0) as Hr0 by (by apply sys_act).
  destruct (after_reach cfg (S n) sys0 rounds k Hr0 Hclean) as (n' & Hn' & Hr).
  destruct (idle_world cfg n' _ Hcfg Hr ltac:(lia) Hidle) as [_ Hg _ _ _].
  refine (proj2 (drain_loop_finds _ t0 rounds k round sys0 Hp Hk Hlt _)).
  rewrite /len_sessions /app_sessions (rr_sessions _ _ Hg). by rewrite fmap_empty.
Qed.

(** ** Instances *)

Import MiniJson.

(** A host with the configuration of the meeting. *)
Definition host : Host := mkHost (λ _, inl "") (λ _, inl Gateway.cfg) (λ _, Ok tt) (Some (Ok tt)).

(** After the meeting a signal comes; the sessions end, and while the server stops, someone asks in vain. *)
Definition too_late : list Act := [AUpgrade false Visitor.clocks (V4 0) Visitor.query; AOpen 0 0 0].

Lemma process_lifecycle_witness :
  match main (Bytes := list byte) host 0 ∅ Meeting.meet (Some (Term (Some tt))) 5 quick too_late with
  | PReturned Drained sys => is_draining (sy_app sys) = true ∧ sy_upgraded sys `sublist_of` []
  | _ => False
  end.
Proof.
  pose proof (process_lifecycle (Bytes := list byte) host 0 ∅ Meeting.meet (Some (Term (Some tt))) 5 quick too_late ""
    Gateway.cfg eq_refl eq_refl) as Hlife.
  assert (servable Gateway.cfg) as Hs.
  { split; [apply config_validate_ok; by vm_compute|]. split; [eexists; by vm_compute|by vm_compute]. }
  destruct (Hlife Hs (λ _, eq_refl)) as (st & Hst & Hmain).
  assert (match main (Bytes := list byte) host 0 ∅ Meeting.meet (Some (Term (Some tt))) 5 quick too_late with
          | PReturned Drained _ => true | _ => false end = true) as Hend by by vm_compute.
  assert (st = Meeting.start) as -> by (rewrite /Meeting.start Hst //).
  assert (sy_upgraded (foldl sys_exec (mkSystem Meeting.start [] ∅) Meeting.meet) = []) as Eu by by vm_compute.
  revert Hend Hmain. cbv zeta. rewrite /drains_from Eu. generalize (main (Bytes := list byte) host 0 ∅ Meeting.meet
    (Some (Term (Some tt))) 5 quick too_late).
  intros [|?|?|?|? ?|[] sys] Hend Hmain; [discriminate Hend..| |discriminate Hend].
  destruct Hmain as [_ (Hd & Hu & _)]. exact (conj Hd Hu).
Defined.

Lemma drain_completes_witness :
  ∃ j, (j ≤ 1)%nat
       ∧ shutdown 5 quick (Meeting.system Meeting.meet)
         = (Some Drained, after quick j (sys_exec (Meeting.system Meeting.meet) (ADrain "draining"))).
Proof.
  refine (drain_completes Gateway.cfg (length Meeting.meet + 0) (Meeting.system Meeting.meet) 5 quick 1 (60000000, [])
    Meeting.good (Meeting.reach Meeting.meet _) _ _ _ _ _ _).
  - by vm_compute.
  - by vm_compute.
  - by vm_compute.
  - vm_compute. repeat split; by intros [=].
  - done.
  - by vm_compute.
  - by vm_compute.
Defined.
